(* ===== verification/_CoqProject ===== *)
-Q . S2P
Prelude.v
Conc.v
Tagged.v
Timestamps.v
Epoch.v
Reclaim.v
SpinLock.v
Serial.v
Snapshot.v
Indirect.v
SnapshotProof.v
LazySnapshot.v
Hybrid.v
RecordedOnce.v
LfLog.v
LogProof.v
LfTypes.v
Idempotence.v
LfLock.v
Store.v
MapSpec.v
ListMap.v
Linear.v
StoreConc.v
MapConc.v
ListConc.v
DListMap.v
ListOneLock.v
Arrays.v
HashBlock.v
HashChain.v
BTree.v
BTreeNodes.v
BTreeProof.v
BTreeFix.v
BTreeMap.v
BTreeRange.v
BinTree.v
LeafTree.v
TreePaths.v
LeafTreeShape.v
LeafTreeConc.v
BlockLeafTree.v
ArtTree.v
ArtBytes.v
ArtNodes.v
ArtProof.v
ArtInsert.v
ArtMap.v
ArtWalk.v
