(* ===== verification/Prelude.v ===== *)
(** * Verlib and flock: lock-free locks, versioned pointers, and the data
    structures built on them

    The program has three layers.  include/flock/ gives locks (plain or
    lock-free), atomics whose effects commit to a log, epoch-based memory
    reclamation and pools.  include/verlib/ adds versioned pointers, whose
    loads inside a snapshot return the value of the snapshot's time stamp.
    structures/ holds maps that use both.  This development models all three
    layers as programs over an explicit state.

    ** The model

    A C++ function is a [prog S A] ([Prelude]): a sequence of atomic actions
    on a state [S], one per shared access, ending in a value or in one of the
    errors of [err] (null or freed pointers, bad casts, indices out of bounds,
    [abort], failed assertions).  [run] executes it alone, [wp] is its weakest
    precondition, and [Conc] interleaves the programs of a pool of threads at
    every action, with a rely/guarantee rule ([wprg], [pool_sound]).  Memory is
    sequentially consistent: memory_order arguments and fences are not
    modelled.  Machine words are integers with the wrap-around written out
    ([wrap64], [s64], [s32]).  Loops run with fuel; a theorem about a loop
    either bounds the fuel it needs or holds for any interleaving of a loop
    that may spin.  Delay loops do nothing.

    ** The parts

    - [Tagged] (include/flock/tagged.h): tags against ABA, their
      announcements, and [next], which picks a tag that nobody announced.
    - [Timestamps] (include/verlib/timestamps.h): the eight stamp strategies,
      a Module each.
    - [Epoch], [Reclaim] (include/flock/epoch.h, acquired_pool.h): the
      announcement array, the epoch, the lists of retired objects; [Reclaim]
      proves the protocol safe for readers and writers in any interleaving.
    - [SpinLock], [Serial] (include/flock/spin_lock.h, flock.h, lock_types.h):
      locks in the NoHelp configuration, lock words per location or hashed;
      [Serial] proves critical sections serializable.
    - [Snapshot], [Indirect], [SnapshotProof] (timestamps.h,
      versioned_indirect.h): snapshots and version chains, over any clock that
      meets [SnapshotClock]; all reads of a snapshot agree with its stamp.
      [LazySnapshot]: the same with LazyStamp, where a snapshot first runs
      without moving the clock, over any [LazyClock].
    - [Hybrid] (versioned_hybrid.h), [RecordedOnce] (versioned_recorded_once.h):
      the other two kinds of versioned pointers.
    - [LfLog], [LogProof], [LfTypes], [Idempotence], [LfLock]
      (include/flock/lf_log.h, lf_types.h, lf_lock.h): the log of a lock-free
      critical section, the agreement of its helpers, variables and allocation
      that use the log, critical sections of loads, stores and
      compare-and-modify operations run by many helpers, and the lock whose
      waiters help.
    - [Store]: nodes at addresses, their locks, allocation and retirement, the
      memory of the structures; [MapSpec]: the interface [Dictionary] that
      each structure implements, with the refinement of a finite map proved
      once against it ([session_refines]), and sorted association lists;
      [Arrays]: arrays with checked bounds; [BinTree]: leaf-oriented search
      trees in memory, their contexts and what replacing a leaf does.
    - the structures, one file each: [ListMap] (structures/list/),
      [DListMap] (dlist/), [ListOneLock] (list_onelock/), [HashBlock]
      (hash_block/), [HashChain] (hash/), [LeafTree] (leaftree/),
      [BlockLeafTree] (blockleaftree/, with rebalance.h);
    - [BTree] (btree/): the B-tree, for any block sizes that its constants
      can give.  [BTreeNodes] has what its node-level operations compute,
      [BTreeProof] its trees in memory, read as sequences of entries and
      separating keys, and what splitting, joining and rebalancing do,
      [BTreeFix] the fixes that [find_and_fix] makes under locks, [BTreeMap]
      the search and the operations, [BTreeRange] the range search.
    - [ArtTree] (arttree/): the adaptive radix tree, with its four kinds of
      node and its leaves of up to several entries.  [ArtBytes] has the bytes
      of a key, [ArtNodes] the tables of children and what growing a node does
      to them, [ArtProof] trees in memory and the search in them, [ArtInsert]
      the inserts (edges cut, leaves split, nodes grown), [ArtMap] removal and
      the theorems on sessions, [ArtWalk] the check and the destructor.
    - [Linear]: calls and returns of threads in a log, linearizability, and a
      protocol in which a thread may answer from any state that the object was
      in since its call ([hindsight]); [StoreConc]: nodes with locks under that
      protocol, what a thread that holds a lock may read and write;
      [MapConc]: the attempts and retry loops of a concurrent map;
      [ListConc]: the sorted list under any interleaving; [TreePaths],
      [LeafTreeShape], [LeafTreeConc]: the leaf tree under any interleaving,
      with the ways that searches take, what the writes of the updates do to
      them, and the operations.

    Interfaces between the parts are classes or parameters: a clock for the
    versioned pointers, [Allocator] for a pool's choice of address,
    [EpochTransparent] for [with_epoch] around code that runs alone, the
    [validate] of a versioned pointer (which stamps a version and changes
    nothing that a structure reads), the hash functions and log2_up of
    parlay.  Each has a concrete instance in the witnesses.

    ** What is proved

    - concurrency: reclamation never frees what a reader holds
      ([Reclaim.reclamation_safe]); snapshots are consistent
      ([SnapshotProof.snapshots_consistent]), speculative ones too
      ([LazySnapshot.lazy_snapshots_consistent]); critical sections serialize
      ([Serial.critical_sections_serializable]); helpers of a lock-free
      critical section agree ([LogProof.helpers_agree]), together have the effect
      of one run ([Idempotence.section_runs_once]), and a waiter runs it and
      frees the lock ([LfLock.wait_lock_helps]); inserts, removes and searches of the sorted
      list and of the leaf tree, searches without locks included, are
      linearizable to the finite map ([ListConc.list_linearizable],
      [LeafTreeConc.leaftree_linearizable]); which of the stamp strategies are clocks, and
      that the others, the default one among them, are not
      ([Timestamps.stamp_strategies_are_clocks]);
    - words and tags: freshness of tags, their reuse, round trips of packed
      results;
    - structures: each one, started empty and run by one thread through any
      sequence of operations, answers as a finite map does and meets no error
      ([list_refines_map], ..., [btree_refines_map]), with fuel for a
      walk over as many nodes as it holds; the radix tree does so for keys that
      are there ([art_refines_map]), and what it does for others is
      [art_absent_key], and when it goes wrong [art_undefined_lookups]; range queries, sizes, node classes, rotations; that
      [find_and_fix] of the B-tree ends ([find_and_fix_ends]); what checks
      count and destructors retire; and the places where the code does not do
      what it means to.

    The fuel of the structures is a natural number that bounds the rounds of a
    walk: [enough fuel M] asks for more than the number of entries of [M],
    which bounds the length of a list and the depth of a tree, and the theorems
    about sessions ask for four more than the number of operations.  In the
    radix tree a walk takes at most a round per byte of a key, plus one.  For the
    B-tree each round of [find_and_fix] lessens [effort], the depths of the
    full and meagre nodes and the square of their number; [n] updates leave at
    most [n] levels and such nodes together, so n(n+1) rounds are enough, and
    the code's own bound of 10^8 rounds is not met while n(n+1) is within it.

    ** Not modelled

    Printing, statistics and pool warm-up (clear, reserve, shuffle, stats);
    hybrid pointers and those recorded once under interleaving (they are run by
    one thread, but for the findings about them), and LazyStamp with the TL2
    stamp; the interleaving of the
    operations of the structures other than the sorted list and the leaf tree
    (they are proved for a thread that runs alone; their locks and their
    reclamation are proved concurrent in [Serial] and [Reclaim]); in
    [Idempotence], allocation and retirement inside a section, nested locks, and
    words whose count leaves its half of the range meanwhile (what [next] does
    then is in [Tagged]); in the two structures, the reuse of a removed node's memory, which [Reclaim] shows cannot happen
    under a reader;
    parallel loops of destructors and checks, which are run in order; keys and
    values other than integers with their order, so the radix tree's strings;
    the variants new_ordered_map.h and new_unordered_map.h, which differ in
    their allocation calls, but for one function of [HashBlock]; the structures
    listed as not modelled in the manifest; the parlay library, the benchmark
    drivers and the vendored code.

    This file: effects, machine words and shared automation. *)

From stdpp Require Import prelude list gmap.
From Stdlib Require Import ZArith Lia.

Local Open Scope Z_scope.

(** ** Errors and outcomes

    The ways in which the C++ code stops being defined: [abort()], a failed
    [assert], dereferencing [nullptr] or a freed object, an array access out
    of bounds, a pointer cast to the wrong struct, and (a bound of the model
    only) a loop that used up its fuel. *)
Inductive err :=
  | Abort | AssertFailed | NullDeref | UseAfterFree | OutOfBounds | BadCast
  | OutOfFuel.

#[export] Instance err_eq_dec : EqDecision err.
Proof. solve_decision. Defined.

Inductive res (S A : Type) : Type :=
  | Ok (a : A) (s : S)
  | Err (e : err).
Arguments Ok {S A} a s.
Arguments Err {S A} e.

(** ** Programs

    A C++ function becomes a [prog]: a sequence of atomic actions on the
    shared state [S].  One [Act] is one atomic access (a load, a store, a
    compare-and-swap, ...), so the same definition is run alone by [run] and
    interleaved with other threads by the relations of [Conc]. *)
Inductive prog (S A : Type) : Type :=
  | Ret (a : A)
  | Act {X : Type} (f : S → res S X) (k : X → prog S A).
Arguments Ret {S A} a.
Arguments Act {S A X} f k.

Fixpoint pbind {S A B} (p : prog S A) (g : A → prog S B) : prog S B :=
  match p with
  | Ret a => g a
  | Act f k => Act f (λ x, pbind (k x) g)
  end.

(** The do-notation is stdpp's: [x ← p; q] and [p ;; q]. *)
#[export] Instance prog_ret {S} : MRet (prog S) := λ A a, Ret a.
#[export] Instance prog_bind {S} : MBind (prog S) := λ A B g p, pbind p g.

Definition when {S} (b : bool) (p : prog S unit) : prog S unit :=
  if b then p else Ret tt.

(** Running a program alone. *)
Fixpoint run {S A} (p : prog S A) (s : S) : res S A :=
  match p with
  | Ret a => Ok a s
  | Act f k => match f s with Ok x s' => run (k x) s' | Err e => Err e end
  end.

(** Primitive programs. *)
Definition fail {S A} (e : err) : prog S A := Act (λ _, Err (A := Empty_set) e) (λ x, match x with end).
Definition gets {S A} (f : S → A) : prog S A := Act (λ s, Ok (f s) s) Ret.
Definition modify {S} (f : S → S) : prog S unit := Act (λ s, Ok tt (f s)) Ret.
Definition assert_ {S} (b : bool) : prog S unit :=
  if b then Ret tt else fail AssertFailed.

(** ** Cells: one word of shared memory and the atomic accesses to it

    [peek] may fail (a null or dangling address).  The operations follow
    std::atomic: [cmpxchg] is compare_exchange_strong, which also reports the
    value it found. *)
Record cell (S T : Type) := Cell {
  peek : S → err + T;
  poke : T → S → S;
}.
Arguments Cell {S T} _ _.
Arguments peek {S T} _ _.
Arguments poke {S T} _ _ _.

Definition total_cell {S T} (get : S → T) (set : T → S → S) : cell S T :=
  Cell (λ s, inr (get s)) set.

Definition on_cell {S T X} (c : cell S T) (f : T → X * option T) : S → res S X :=
  λ s, match peek c s with
       | inl e => Err e
       | inr v => let '(x, w) := f v in
                  Ok x (match w with Some v' => poke c v' s | None => s end)
       end.

Definition load {S T} (c : cell S T) : prog S T :=
  Act (on_cell c (λ v, (v, None))) Ret.
Definition store {S T} (c : cell S T) (v : T) : prog S unit :=
  Act (on_cell c (λ _, (tt, Some v))) Ret.
Definition exchange {S T} (c : cell S T) (v : T) : prog S T :=
  Act (on_cell c (λ old, (old, Some v))) Ret.
Definition cmpxchg {S T} `{EqDecision T} (c : cell S T) (expected desired : T)
  : prog S (bool * T) :=
  Act (on_cell c (λ v, if decide (v = expected) then ((true, expected), Some desired)
                       else ((false, v), None))) Ret.
Definition cas {S T} `{EqDecision T} (c : cell S T) (expected desired : T) : prog S bool :=
  r ← cmpxchg c expected desired; Ret r.1.

(** A signed 64-bit value (long), and fetch_add on one. *)
Definition s64 (x : Z) : Z := (x + 2 ^ 63) mod 2 ^ 64 - 2 ^ 63.
Definition fetch_add {S} (c : cell S Z) (d : Z) : prog S Z :=
  Act (on_cell c (λ v, (v, Some (s64 (v + d))))) Ret.

(** A thread-local word: one entry per thread, [d] until it is first written. *)
Definition thread_local {S} (get : S → gmap nat Z) (set : gmap nat Z → S → S) (d : Z) (tid : nat)
  : cell S Z :=
  total_cell (λ s, default d (get s !! tid)) (λ v s, set (<[tid := v]> (get s)) s).

(** the [n] values of [f] from [i] on, in order *)
Fixpoint collect {S A} (f : Z → prog S A) (n : nat) (i : Z) : prog S (list A) :=
  match n with
  | O => mret []
  | S n' => x ← f i; l ← collect f n' (i + 1); mret (x :: l)
  end.

(** Loops whose number of iterations is not bounded by the data carry fuel.
    [body] returns [inl x] to go round again and [inr a] to leave. *)
Fixpoint iter {S X A} (fuel : nat) (body : X → prog S (X + A)) (x : X) : prog S A :=
  match fuel with
  | O => fail OutOfFuel
  | Datatypes.S n => r ← body x;
                     match r with inl x' => iter n body x' | inr a => Ret a end
  end.

(** A C [for] over a known list of indices. *)
Fixpoint for_each {S X} (l : list X) (body : X → prog S unit) : prog S unit :=
  match l with
  | [] => Ret tt
  | x :: l' => body x ;; for_each l' body
  end.

(** Running the code of a component on a part of a larger state. *)
Definition zoom_res {S T X} (set : T → S → S) (s : S) (r : res T X) : res S X :=
  match r with Ok x t => Ok x (set t s) | Err e => Err e end.

Fixpoint zoom {S T A} (get : S → T) (set : T → S → S) (p : prog T A) : prog S A :=
  match p with
  | Ret a => Ret a
  | Act f k => Act (λ s, zoom_res set s (f (get s))) (λ x, zoom get set (k x))
  end.

(** Code that has no undefined behaviour from any state. *)
Fixpoint never_fails {S A} (p : prog S A) : Prop :=
  match p with
  | Ret _ => True
  | Act f k => ∀ s, match f s with Ok x _ => never_fails (k x) | Err _ => False end
  end.

(** ** Sequential reasoning *)
Section wp.
Context {S : Type}.

(** [wp p Q s]: run alone from [s], [p] stops without an error, in a state
    and with a result that satisfy [Q] (total correctness). *)
Definition wp {A} (p : prog S A) (Q : A → S → Prop) (s : S) : Prop :=
  match run p s with Ok a s' => Q a s' | Err _ => False end.

Lemma run_bind {A B} (p : prog S A) (g : A → prog S B) s :
  run (p ≫= g) s = match run p s with Ok a s' => run (g a) s' | Err e => Err e end.
Proof.
  unfold mbind, prog_bind.
  revert s. induction p as [a|X f k IH]; intros s; simpl; [done|].
  destruct (f s); [apply IH|done].
Qed.

Lemma run_load {T} (c : cell S T) s v : peek c s = inr v → run (load c) s = Ok v s.
Proof. intros H. simpl. unfold on_cell. by rewrite H. Qed.

Lemma run_store {T} (c : cell S T) s v v' :
  peek c s = inr v → run (store c v') s = Ok tt (poke c v' s).
Proof. intros H. simpl. unfold on_cell. by rewrite H. Qed.

Lemma run_cas {T} `{EqDecision T} (c : cell S T) s v e d : peek c s = inr v →
  run (cas c e d) s = if decide (v = e) then Ok true (poke c d s) else Ok false s.
Proof. intros H. simpl. unfold on_cell. rewrite H. by case_decide. Qed.

Lemma run_zoom {T A} (get : S → T) (set : T → S → S) (p : prog T A) s :
  (∀ s t, get (set t s) = t) → (∀ s t t', set t' (set t s) = set t' s) →
  (∀ s, set (get s) s = s) →
  run (zoom get set p) s =
    match run p (get s) with Ok a t => Ok a (set t s) | Err e => Err e end.
Proof.
  intros Hgs Hss Hsg. revert s. induction p as [a|X f k IH]; intros s; simpl.
  - by rewrite Hsg.
  - destruct (f (get s)) as [x t|e]; simpl; [|done]. rewrite IH, Hgs.
    destruct (run (k x) t); [|done]. by rewrite Hss.
Qed.

Lemma wp_ret {A} (a : A) (Q : A → S → Prop) s : wp (Ret a) Q s ↔ Q a s.
Proof. done. Qed.

Lemma wp_bind {A B} (p : prog S A) (g : A → prog S B) Q s :
  wp (p ≫= g) Q s ↔ wp p (λ a s', wp (g a) Q s') s.
Proof. unfold wp. rewrite run_bind. by destruct (run p s). Qed.

Lemma wp_bind_ret {A} (p : prog S A) Q s : wp (p ≫= mret) Q s ↔ wp p Q s.
Proof. apply wp_bind. Qed.

Lemma wp_act {A X} (f : S → res S X) (k : X → prog S A) Q s :
  wp (Act f k) Q s ↔ match f s with Ok x s' => wp (k x) Q s' | Err _ => False end.
Proof. unfold wp; simpl. by destruct (f s). Qed.

Lemma wp_mono {A} (p : prog S A) (Q Q' : A → S → Prop) s :
  (∀ a s', Q a s' → Q' a s') → wp p Q s → wp p Q' s.
Proof. unfold wp. intros HQ. destruct (run p s); [apply HQ|done]. Qed.
Lemma wp_assoc {A B C} (p : prog S A) (f : A → prog S B) (K : B → prog S C) Q s :
  wp (p ≫= λ a, f a ≫= K) Q s → wp ((p ≫= f) ≫= K) Q s.
Proof. rewrite !wp_bind. apply wp_mono. intros a s' H. by apply wp_bind. Qed.

Lemma wp_run {A} (p : prog S A) (Q : A → S → Prop) s :
  wp p Q s ↔ ∃ a s', run p s = Ok a s' ∧ Q a s'.
Proof.
  unfold wp. destruct (run p s); split.
  - eauto.
  - by intros (? & ? & [= <- <-] & ?).
  - done.
  - by intros (? & ? & ? & ?).
Qed.

Lemma wp_of_run {A} (p : prog S A) (Q : A → S → Prop) s a s' :
  run p s = Ok a s' → Q a s' → wp p Q s.
Proof. intros H HQ. apply wp_run. eauto. Qed.

Lemma collect_run {A} (f : Z → prog S A) s l : ∀ d,
  (∀ j x, l !! j = Some x → run (f (d + Z.of_nat j)) s = Ok x s) → run (collect f (length l) d) s = Ok l s.
Proof.
  induction l as [|x l IH]; intros d Hf; [done|]. cbn [collect length]. rewrite run_bind.
  pose proof (Hf 0%nat x eq_refl) as H0. rewrite Z.add_0_r in H0. rewrite H0, run_bind, IH; [done|].
  intros j y Hj. specialize (Hf (Datatypes.S j) y Hj). by replace (d + 1 + Z.of_nat j) with (d + Z.of_nat (Datatypes.S j)) by lia.
Qed.

(** An invariant of the loop state with a measure gives termination: the
    fuel that [iter] needs is the measure plus one. *)
Lemma wp_iter {X A} (body : X → prog S (X + A)) (I : X → S → Prop)
    (m : X → S → nat) (Q : A → S → Prop) :
  (∀ x s, I x s →
     wp (body x) (λ r s', match r with
                          | inl x' => I x' s' ∧ (m x' s' < m x s)%nat
                          | inr a => Q a s'
                          end) s) →
  ∀ fuel x s, I x s → (m x s < fuel)%nat → wp (iter fuel body x) Q s.
Proof.
  intros Hbody fuel. induction fuel as [|n IH]; intros x s HI Hm; [lia|].
  simpl. rewrite wp_bind. eapply wp_mono; [|by apply Hbody].
  intros [x'|a] s'; simpl.
  - intros [HI' Hlt]. apply IH; [done|lia].
  - done.
Qed.
End wp.

(** ** 64-bit words

    A size_t is a [Z] in [0, 2^64); arithmetic wraps, written out here. *)
Definition w64 : Z := 2 ^ 64.
Definition wrap64 (x : Z) : Z := x mod 2 ^ 64.
(** an int, as two's complement *)
Definition s32 (x : Z) : Z := (x + 2 ^ 31) mod 2 ^ 32 - 2 ^ 31.
Definition not64 (x : Z) : Z := 2 ^ 64 - 1 - x.
Definition is_w64 (x : Z) : Prop := 0 ≤ x < 2 ^ 64.

#[export] Instance is_w64_dec x : Decision (is_w64 x).
Proof. unfold is_w64. apply _. Defined.

Section words.
Lemma s64_small x : - 2 ^ 63 ≤ x < 2 ^ 63 → s64 x = x.
Proof. unfold s64. intros. rewrite Z.mod_small; lia. Qed.

Lemma s32_add a b : s32 (a + s32 b) = s32 (a + b).
Proof.
  unfold s32. replace (a + ((b + 2 ^ 31) mod 2 ^ 32 - 2 ^ 31) + 2 ^ 31) with ((b + 2 ^ 31) mod 2 ^ 32 + a) by lia.
  rewrite Zplus_mod_idemp_l. do 2 f_equal. lia.
Qed.
Lemma s32_small x : 0 ≤ x < 2 ^ 31 → s32 x = x.
Proof. unfold s32. intros. rewrite Z.mod_small; lia. Qed.

Lemma wrap64_range x : is_w64 (wrap64 x).
Proof. unfold is_w64, wrap64. apply Z.mod_pos_bound. lia. Qed.

Lemma wrap64_small x : is_w64 x → wrap64 x = x.
Proof. unfold is_w64, wrap64. intros. by apply Z.mod_small. Qed.

(** Masking with the low [n] bits, and with all the bits above them. *)
Lemma land_low x n : 0 ≤ n → Z.land x (2 ^ n - 1) = x mod 2 ^ n.
Proof. intros. rewrite <-Z.land_ones by lia. f_equal. rewrite Z.ones_equiv. lia. Qed.

Lemma not64_testbit x i : 0 ≤ i → Z.testbit (not64 x) i =
  if decide (i < 64) then negb (Z.testbit x i)
  else Z.testbit (not64 x) i.
Proof.
  intros Hi. case_decide; [|done]. unfold not64.
  replace (2 ^ 64 - 1 - x) with (Z.lnot x + 1 * 2 ^ 64) by (unfold Z.lnot; lia).
  rewrite <-(Z.mod_pow2_bits_low _ 64) by lia.
  rewrite Z.mod_add by lia. rewrite Z.mod_pow2_bits_low by lia.
  apply Z.lnot_spec. lia.
Qed.

Lemma testbit_high x i : is_w64 x → 64 ≤ i → Z.testbit x i = false.
Proof.
  intros Hx Hi. rewrite <-(Z.mod_small x (2 ^ 64)) by apply Hx.
  apply Z.mod_pow2_bits_high. lia.
Qed.

(** Clearing the bits of a mask subtracts them. *)
Lemma land_not64 x m : is_w64 x → Z.land x (not64 m) = x - Z.land x m.
Proof.
  intros Hx.
  assert (Z.land x (not64 m) + Z.land x m = x) as H; [|lia].
  rewrite Z.add_nocarry_lxor; apply Z.bits_inj'; intros i Hi;
    rewrite ?Z.lxor_spec, !Z.land_spec, ?Z.bits_0;
    (destruct (decide (i < 64)) as [Hlt|Hge];
     [rewrite not64_testbit by lia; rewrite decide_True by lia;
      by destruct (Z.testbit x i), (Z.testbit m i)
     |by rewrite (testbit_high x) by (done || lia)]).
Qed.

Lemma land_high x n : is_w64 x → 0 ≤ n →
  Z.land x (not64 (2 ^ n - 1)) = x - x mod 2 ^ n.
Proof. intros. rewrite land_not64 by done. by rewrite land_low. Qed.

(** Testing one bit with a mask. *)
Lemma land_pow2 x n : 0 ≤ n → Z.land x (2 ^ n) = if Z.testbit x n then 2 ^ n else 0.
Proof.
  intros Hn. apply Z.bits_inj'. intros i Hi. rewrite Z.land_spec, Z.pow2_bits_eqb by lia.
  destruct (Z.eqb_spec n i) as [->|Hne].
  - rewrite andb_true_r. destruct (Z.testbit x i) eqn:E; [|by rewrite Z.bits_0].
    rewrite Z.pow2_bits_eqb by lia. by rewrite Z.eqb_refl.
  - rewrite andb_false_r. destruct (Z.testbit x n); [|by rewrite Z.bits_0].
    rewrite Z.pow2_bits_eqb by lia. by destruct (Z.eqb_spec n i).
Qed.

(** Or-ing a multiple of [2^n] with an [n]-bit value is addition. *)
Lemma lor_disjoint a b n : 0 ≤ n → 0 ≤ b < 2 ^ n → Z.lor (a * 2 ^ n) b = a * 2 ^ n + b.
Proof.
  intros Hn Hb. rewrite <-Z.lxor_lor, <-Z.add_nocarry_lxor; try done;
  apply Z.bits_inj'; intros i Hi; rewrite Z.land_spec, Z.bits_0;
  (destruct (decide (i < n)) as [Hlt|Hge];
   [rewrite Z.mul_pow2_bits_low by lia; done
   |rewrite <-(Z.mod_small b (2 ^ n)) by lia;
    rewrite Z.mod_pow2_bits_high by lia; apply andb_false_r]).
Qed.
End words.

(** ** Addresses

    A concrete allocator: the address above all those in use. *)
Definition next_addr {T} (m : gmap Z T) : Z :=
  1 + foldr Z.max 0 (fst <$> map_to_list m).

Lemma next_addr_fresh {T} (m : gmap Z T) : m !! next_addr m = None ∧ next_addr m ≠ 0.
Proof.
  assert (∀ l : list Z, 0 ≤ foldr Z.max 0 l ∧ ∀ x, x ∈ l → x ≤ foldr Z.max 0 l) as Hmax.
  { intros l. induction l as [|y l [IH1 IH2]]; simpl.
    - split; [lia|]. by intros x ?%elem_of_nil.
    - split; [lia|]. intros x [-> |Hx]%elem_of_cons; [lia|]. specialize (IH2 x Hx). lia. }
  destruct (Hmax (fst <$> map_to_list m)) as [H1 H2]. unfold next_addr. split; [|lia].
  destruct (m !! _) as [v|] eqn:E; [|done]. exfalso.
  apply elem_of_map_to_list in E. apply (list_elem_of_fmap_2 fst) in E.
  specialize (H2 _ E). simpl in H2. lia.
Qed.

(** ** Automation *)

(** One symbolic execution step of a [wp] goal. *)
Ltac wp_step :=
  first
    [ rewrite wp_bind
    | rewrite wp_ret
    | progress cbn [load store exchange cas cmpxchg gets modify assert_ fail on_cell];
      rewrite ?wp_act; cbn [peek poke total_cell on_cell] ].

(** Case analysis on the scrutinee of the first [if]/[match] on a decision or
    boolean comparison in the goal. *)
Ltac case_bool :=
  match goal with
  | |- context [Z.eqb ?a ?b] => destruct (Z.eqb_spec a b)
  | |- context [Z.ltb ?a ?b] => destruct (Z.ltb_spec a b)
  | |- context [Z.leb ?a ?b] => destruct (Z.leb_spec a b)
  | |- context [decide ?P] => destruct (decide P)
  end.
