(* ===== verification/Conc.v ===== *)
(** * Conc: interleaving semantics and rely/guarantee reasoning.

    The threads of the program share one state and each runs a [prog]; the
    scheduler picks, at every step, a thread whose next atomic action is then
    performed.  [tstep] and [run_sched] are executable (a schedule is a list
    of thread numbers), [step] is the relation.  [wprg] is a weakest
    precondition for one thread under interference, and [pool_sound] says
    that threads proved against each other's guarantees keep their
    specifications in every interleaving. *)

From stdpp Require Import prelude list relations.
From S2P Require Import Prelude.

Section pool.
Context {S A : Type}.

Definition config : Type := S * list (prog S A).

(** Thread [i] performs its next atomic action. *)
Definition tstep (i : nat) (c : config) : option config :=
  match c.2 !! i with
  | Some (Act f k) =>
      match f c.1 with
      | Ok x s' => Some (s', <[i := k x]> c.2)
      | Err _ => None
      end
  | _ => None
  end.

(** Thread [i]'s next action is undefined behaviour [e]. *)
Definition goes_wrong (i : nat) (e : err) (c : config) : Prop :=
  match c.2 !! i with
  | Some (Act f k) => f c.1 = Err e
  | _ => False
  end.

Definition step (c c' : config) : Prop := ∃ i, tstep i c = Some c'.

(** A step between states within the bounds considered. *)
Definition step_ok (ok : S → Prop) (c c' : config) : Prop := step c c' ∧ ok c'.1.

(** A deterministic run along a schedule. *)
Fixpoint run_sched (sch : list nat) (c : config) : option config :=
  match sch with
  | [] => Some c
  | i :: sch' => match tstep i c with Some c' => run_sched sch' c' | None => None end
  end.

Lemma run_sched_steps sch c c' : run_sched sch c = Some c' → rtc step c c'.
Proof.
  revert c. induction sch as [|i sch IH]; intros c; simpl.
  - intros [= ->]. done.
  - destruct (tstep i c) as [c1|] eqn:E; [|done]. intros H.
    eapply rtc_l; [by exists i|by apply IH].
Qed.

Lemma steps_ok (ok : S → Prop) c c' : (∀ s, ok s) → rtc step c c' → rtc (step_ok ok) c c'.
Proof.
  intros Hok. induction 1 as [c|c1 c2 c3 Hst _ IH]; [done|]. eapply rtc_l; [by split|done].
Qed.

(** Executing a schedule exhibits a reachable configuration. *)
Definition after_sched (r : option config) (P : config → Prop) : Prop :=
  match r with Some c => P c | None => False end.

Lemma after_sched_steps sch c (P : config → Prop) :
  after_sched (run_sched sch c) P → ∃ c', rtc step c c' ∧ P c'.
Proof.
  unfold after_sched. destruct (run_sched sch c) as [c'|] eqn:E; [|done].
  intros HP. exists c'. split; [by eapply run_sched_steps|done].
Qed.

Lemma rtc_step_length c c' : rtc step c c' → length c'.2 = length c.2.
Proof.
  induction 1 as [c|c1 c2 c3 [i Hst] _ IH]; [done|]. rewrite IH. unfold tstep in Hst.
  destruct (c1.2 !! i) as [[a|X f k]|]; [done| |done].
  destruct (f c1.1); simplify_eq. simpl. by rewrite length_insert.
Qed.

(** A thread that never meets an error finishes when it runs alone. *)
Lemma runs_alone i c p : c.2 !! i = Some p →
  (∀ c' e, rtc step c c' → ¬ goes_wrong i e c') →
  ∃ k c' a, run_sched (replicate k i) c = Some c' ∧ c'.2 !! i = Some (Ret a).
Proof.
  revert c. induction p as [a|X f k IH]; intros c Hi Hok; [by exists 0%nat, c, a|].
  destruct (f c.1) as [x s|e] eqn:Hf.
  - assert (tstep i c = Some (s, <[i := k x]> c.2)) as Hst by (unfold tstep; by rewrite Hi, Hf).
    destruct (IH x (s, <[i := k x]> c.2)) as (n & c' & a & Hrun & Ha).
    + simpl. by rewrite list_lookup_insert_eq by by eapply lookup_lt_Some.
    + intros c' e Hc'. apply Hok. eapply rtc_l; [by exists i|done].
    + exists (Datatypes.S n), c', a. split; [|done]. simpl. by rewrite Hst.
  - exfalso. apply (Hok c e); [done|]. unfold goes_wrong. by rewrite Hi.
Qed.

(** a schedule all of whose states are within decidable bounds *)
Fixpoint run_sched_ok (ok : S → bool) (sch : list nat) (c : config) : option config :=
  match sch with
  | [] => Some c
  | i :: sch' =>
      match tstep i c with
      | Some c' => if ok c'.1 then run_sched_ok ok sch' c' else None
      | None => None
      end
  end.

Lemma run_sched_ok_steps (ok : S → Prop) (okb : S → bool) sch c c' :
  (∀ s, okb s = true → ok s) → run_sched_ok okb sch c = Some c' → rtc (step_ok ok) c c'.
Proof.
  intros Hokb. revert c. induction sch as [|i sch IH]; intros c; simpl.
  - intros [= ->]. done.
  - destruct (tstep i c) as [c1|] eqn:E; [|done].
    destruct (okb c1.1) eqn:Eok; [|done]. intros H.
    eapply rtc_l; [split; [by exists i|by apply Hokb]|by apply IH].
Qed.

Lemma after_sched_steps_ok (ok : S → Prop) (okb : S → bool) sch c (P : config → Prop) :
  (∀ s, okb s = true → ok s) → after_sched (run_sched_ok okb sch c) P →
  ∃ c', rtc (step_ok ok) c c' ∧ P c'.
Proof.
  intros Hok. unfold after_sched. destruct (run_sched_ok okb sch c) as [c'|] eqn:E; [|done].
  intros HP. exists c'. split; [by eapply run_sched_ok_steps|done].
Qed.
End pool.
Arguments config : clear implicits.

Section rg.
Context {S : Type}.
(** [ok] bounds the executions considered (for instance, counters that have
    not overflowed); [R] is what the other threads may do, [G] what this
    thread promises; [E] are the tolerated errors. *)
Context (ok : S → Prop) (R G : relation S) (E : err → Prop).

Fixpoint wprg {A} (p : prog S A) (Q : A → S → Prop) (s : S) : Prop :=
  match p with
  | Ret a => Q a s
  | Act f k => ∀ s1, R s s1 → ok s1 →
      match f s1 with
      | Ok x s2 => G s1 s2 ∧ (ok s2 → wprg (k x) Q s2)
      | Err e => E e
      end
  end.

Lemma wprg_bind {A B} (p : prog S A) (g : A → prog S B) Q s :
  wprg p (λ a s', wprg (g a) Q s') s → wprg (p ≫= g) Q s.
Proof.
  unfold mbind, prog_bind. revert s.
  induction p as [a|X f k IH]; intros s; simpl; [done|].
  intros H s1 HR Hok. specialize (H s1 HR Hok).
  destruct (f s1) as [x s2|e]; [|done]. destruct H as [HG Hk].
  split; [done|]. intros Hok2. apply IH, Hk, Hok2.
Qed.

Lemma wprg_mono {A} (p : prog S A) (Q Q' : A → S → Prop) s :
  (∀ a s', Q a s' → Q' a s') → wprg p Q s → wprg p Q' s.
Proof.
  intros HQ. revert s. induction p as [a|X f k IH]; intros s; simpl; [apply HQ|].
  intros H s1 HR Hok. specialize (H s1 HR Hok).
  destruct (f s1) as [x s2|e]; [|done]. destruct H as [HG Hk].
  split; [done|]. intros Hok2. apply IH, Hk, Hok2.
Qed.

(** The executions considered end in states that satisfy [ok]. *)
Lemma wprg_ok {A} (p : prog S A) Q s :
  ok s → wprg p Q s → wprg p (λ a s', ok s' ∧ Q a s') s.
Proof.
  revert s. induction p as [a|X f k IH]; intros s Hs; simpl; [done|].
  intros H s1 HR Hok. specialize (H s1 HR Hok).
  destruct (f s1) as [x s2|e]; [|done]. destruct H as [HG Hk].
  split; [done|]. intros Hok2. by apply IH, Hk.
Qed.

Lemma wprg_iter {X A} (body : X → prog S (X + A)) (I : X → S → Prop) Q :
  E OutOfFuel →
  (∀ x s, I x s → wprg (body x) (λ r s', match r with
                                         | inl x' => I x' s'
                                         | inr a => Q a s'
                                         end) s) →
  ∀ fuel x s, I x s → wprg (iter fuel body x) Q s.
Proof.
  intros HE Hb fuel. induction fuel as [|n IH]; intros x s HI; simpl; [done|].
  apply wprg_bind. eapply wprg_mono; [|by apply Hb].
  intros [x'|a] s'; simpl; [apply IH|done].
Qed.

(** The executions of one thread under interference from [R]. *)
Inductive erun {A} : prog S A → S → A → S → Prop :=
  | erun_ret a s : erun (Ret a) s a s
  | erun_act {X} (f : S → res S X) k s s1 x s2 a s3 :
      R s s1 → ok s1 → f s1 = Ok x s2 → ok s2 →
      erun (k x) s2 a s3 → erun (Act f k) s a s3.

Lemma wprg_erun {A} (p : prog S A) Q s a s' :
  wprg p Q s → erun p s a s' → Q a s'.
Proof.
  intros Hwp Hrun. induction Hrun as [a s|X f k s s1 x s2 a s3 HR Hok Hf Hok2 _ IH];
    simpl in *; [done|].
  specialize (Hwp s1 HR Hok). rewrite Hf in Hwp. apply IH, Hwp, Hok2.
Qed.

(** The postcondition may be read off the executions. *)
Lemma wprg_of_erun {A} (p : prog S A) (P Q : A → S → Prop) s :
  wprg p P s → (∀ a s', P a s' → erun p s a s' → Q a s') → wprg p Q s.
Proof.
  revert s. induction p as [a|X f k IH]; intros s; simpl.
  - intros HP HQ. apply HQ; [done|constructor].
  - intros H HQ s1 HR Hok. specialize (H s1 HR Hok).
    destruct (f s1) as [x s2|e] eqn:Hf; [|done]. destruct H as [HG Hk].
    split; [done|]. intros Hok2. apply IH; [by apply Hk|]. intros a s' HPa Hrun.
    apply HQ; [done|]. by eapply erun_act.
Qed.

(** A sequential run is an execution without interference. *)
Lemma run_erun {A} (p : prog S A) s a s' :
  Reflexive R → (∀ s, ok s) → run p s = Ok a s' → erun p s a s'.
Proof.
  intros Hrefl Hok. revert s. induction p as [b|X f k IH]; intros s; simpl.
  - intros [= <- <-]. constructor.
  - destruct (f s) as [x s2|e] eqn:Hf; [|done]. intros H.
    eapply erun_act; [apply Hrefl|apply Hok|exact Hf|apply Hok|by apply IH].
Qed.
End rg.

Section sound.
Context {S A : Type} (ok : S → Prop) (R G : nat → relation S) (E : err → Prop).
Context (Q : nat → A → S → Prop).
Context (Rpre : ∀ i, PreOrder (R i)).
(** Every thread's guarantee is within the others' rely. *)
Context (compat : ∀ i j s s', i ≠ j → ok s → ok s' → G j s s' → R i s s').

Definition pool_inv (c : config S A) : Prop :=
  ok c.1 ∧ ∀ i p, c.2 !! i = Some p →
    ∃ s0, R i s0 c.1 ∧ wprg ok (R i) (G i) E p (Q i) s0.


Lemma pool_inv_step c c' : pool_inv c → step_ok ok c c' → pool_inv c'.
Proof.
  intros [Hok Hinv] [[i Hst] Hok']. unfold tstep in Hst.
  destruct c as [s ts]; simpl in *.
  destruct (ts !! i) as [[a|X f k]|] eqn:Hi; simplify_eq.
  destruct (f s) as [x s'|e] eqn:Hf; simplify_eq. simpl in *.
  destruct (Hinv i _ Hi) as (s0 & HR0 & Hwp). simpl in Hwp.
  specialize (Hwp s HR0 Hok). rewrite Hf in Hwp. destruct Hwp as [HG Hk].
  split; [done|]. intros j p. simpl. destruct (decide (i = j)) as [->|Hij].
  - rewrite list_lookup_insert_eq by (by eapply lookup_lt_Some).
    intros [= <-]. exists s'. split; [reflexivity|by apply Hk].
  - rewrite list_lookup_insert_ne by done. intros Hj.
    destruct (Hinv j _ Hj) as (s1 & HR1 & Hwp1).
    exists s1. split; [|done]. etrans; [exact HR1|]. eapply (compat j i); eauto.
Qed.

(** In every interleaving of threads that satisfy their specifications, no
    thread meets an error outside [E], and a thread that has finished has
    established its postcondition. *)
Lemma pool_sound s ts :
  ok s → (∀ i p, ts !! i = Some p → wprg ok (R i) (G i) E p (Q i) s) →
  ∀ s' ts', rtc (step_ok ok) (s, ts) (s', ts') →
    (∀ i e, goes_wrong i e (s', ts') → E e) ∧
    (∀ i a, ts' !! i = Some (Ret a) → ∃ s0, Q i a s0 ∧ R i s0 s').
Proof.
  intros Hok Hwp s' ts' Hsteps.
  assert (pool_inv (s', ts')) as [Hok' Hinv'].
  { assert (pool_inv (s, ts)) as Hinv.
    { split; [done|]. intros i p Hp. exists s. split; [reflexivity|by apply Hwp]. }
    remember (s', ts') as c' eqn:Hc'. clear Hc'.
    induction Hsteps as [|c1 c2 c3 Hst _ IH]; [done|].
    apply IH. by eapply pool_inv_step. }
  simpl in *. split.
  - intros i e. unfold goes_wrong; simpl.
    destruct (ts' !! i) as [[a|X f k]|] eqn:Hi; [done| |done].
    intros Hf. destruct (Hinv' i _ Hi) as (s0 & HR0 & H). simpl in H.
    specialize (H s' HR0 Hok'). by rewrite Hf in H.
  - intros i a Hi. destruct (Hinv' i _ Hi) as (s0 & HR0 & H). eauto.
Qed.

(** A state property kept by every guarantee holds throughout. *)
Lemma pool_invariant (P : S → Prop) s ts :
  ok s → P s → (∀ i p, ts !! i = Some p → wprg ok (R i) (G i) E p (Q i) s) →
  (∀ i s1 s2, P s1 → ok s1 → ok s2 → G i s1 s2 → P s2) →
  ∀ s' ts', rtc (step_ok ok) (s, ts) (s', ts') → P s'.
Proof.
  intros Hok HP Hwp HG s' ts' Hsteps.
  assert (pool_inv (s, ts)) as Hinv.
  { split; [done|]. intros i p Hp. exists s. split; [reflexivity|by apply Hwp]. }
  change (P (s', ts').1). change (P (s, ts).1) in HP.
  remember (s', ts') as c' eqn:Hc'. clear Hc'. revert Hinv HP.
  induction Hsteps as [|c1 c2 c3 Hst Hrest IH]; [done|]. intros Hinv HP1.
  apply IH; [by eapply pool_inv_step|].
  destruct Hst as [[i Hst] Hok2]. unfold tstep in Hst.
  destruct Hinv as [Hok1 Hinv].
  destruct (c1.2 !! i) as [[a|X f k]|] eqn:Hi; simplify_eq.
  destruct (f c1.1) as [x s2|e] eqn:Hf; simplify_eq. simpl in *.
  destruct (Hinv i _ Hi) as (s0 & HR0 & H). simpl in H.
  specialize (H c1.1 HR0 Hok1). rewrite Hf in H. destruct H as [HGi _].
  by eapply HG.
Qed.
End sound.

(** ** The same logic with auxiliary state

    [wpg] is [wprg] over pairs of a program state and a ghost [Γ] that no
    action reads: every action of the thread may be accompanied by an update
    of the ghost.  It serves the protocols whose invariants speak of the past
    (who is inside an epoch, when an object was retired). *)
Section ghost.
Context {S Γ : Type}.
Context (ok : S → Prop) (R G : relation (S * Γ)) (E : err → Prop).

Fixpoint wpg {A} (p : prog S A) (Q : A → S * Γ → Prop) (c : S * Γ) : Prop :=
  match p with
  | Ret a => Q a c
  | Act f k => ∀ c1, R c c1 → ok c1.1 →
      match f c1.1 with
      | Ok x s2 => ok s2 → ∃ g2, G c1 (s2, g2) ∧ wpg (k x) Q (s2, g2)
      | Err e => E e
      end
  end.

Lemma wpg_bind {A B} (p : prog S A) (h : A → prog S B) Q c :
  wpg p (λ a c', wpg (h a) Q c') c → wpg (p ≫= h) Q c.
Proof.
  unfold mbind, prog_bind. revert c.
  induction p as [a|X f k IH]; intros c; simpl; [done|].
  intros H c1 HR Hok. specialize (H c1 HR Hok).
  destruct (f c1.1) as [x s2|e]; [|done]. intros Hok2. destruct (H Hok2) as (g2 & HG & Hk).
  exists g2. split; [done|]. by apply IH.
Qed.

Lemma wpg_mono {A} (p : prog S A) (Q Q' : A → S * Γ → Prop) c :
  (∀ a c', Q a c' → Q' a c') → wpg p Q c → wpg p Q' c.
Proof.
  intros HQ. revert c. induction p as [a|X f k IH]; intros c; simpl; [apply HQ|].
  intros H c1 HR Hok. specialize (H c1 HR Hok).
  destruct (f c1.1) as [x s2|e]; [|done]. intros Hok2. destruct (H Hok2) as (g2 & HG & Hk).
  exists g2. split; [done|]. by apply IH.
Qed.

Lemma wpg_iter {X A} (body : X → prog S (X + A)) (I : X → S * Γ → Prop) Q :
  E OutOfFuel →
  (∀ x c, I x c → wpg (body x) (λ r c', match r with
                                        | inl x' => I x' c'
                                        | inr a => Q a c'
                                        end) c) →
  ∀ fuel x c, I x c → wpg (iter fuel body x) Q c.
Proof.
  intros HE Hb fuel. induction fuel as [|n IH]; intros x c HI; simpl; [done|].
  apply wpg_bind. eapply wpg_mono; [|by apply Hb].
  intros [x'|a] c'; simpl; [apply IH|done].
Qed.

(** A precondition that interference keeps may be established once. *)
Lemma wpg_rely {A} (p : prog S A) Q c c' `{!Transitive R} :
  (∀ a c1 c2, Q a c1 → R c1 c2 → Q a c2) → R c c' → wpg p Q c → wpg p Q c'.
Proof.
  intros HQ HR. destruct p as [a|X f k]; simpl; [by intros; eapply HQ|].
  intros H c1 HR1. apply H. by etrans.
Qed.
End ghost.

Section ghost_sound.
Context {S Γ A : Type} (ok : S → Prop) (R G : nat → relation (S * Γ)) (E : err → Prop).
Context (Q : nat → A → S * Γ → Prop).
Context (Rpre : ∀ i, PreOrder (R i)).
Context (compat : ∀ i j c c', i ≠ j → G j c c' → R i c c').

Definition gpool_inv (c : config S A) (g : Γ) : Prop :=
  ∀ i p, c.2 !! i = Some p →
    ∃ c0, R i c0 (c.1, g) ∧ wpg ok (R i) (G i) E p (Q i) c0.

Lemma gpool_inv_step c c' g :
  gpool_inv c g → ok c.1 → step_ok ok c c' → ∃ g' i, gpool_inv c' g' ∧ G i (c.1, g) (c'.1, g').
Proof.
  intros Hinv Hok [[i Hst] Hok']. unfold tstep in Hst. destruct c as [s ts]; simpl in *.
  destruct (ts !! i) as [[a|X f k]|] eqn:Hi; simplify_eq.
  destruct (f s) as [x s'|e] eqn:Hf; simplify_eq. simpl in *.
  destruct (Hinv i _ Hi) as (c0 & HR0 & Hwp). simpl in Hwp.
  specialize (Hwp (s, g) HR0 Hok). simpl in Hwp. rewrite Hf in Hwp.
  destruct (Hwp Hok') as (g' & HG & Hk). exists g', i. split; [|done].
  intros j p. simpl. destruct (decide (i = j)) as [->|Hij].
  - rewrite list_lookup_insert_eq by (by eapply lookup_lt_Some).
    intros [= <-]. exists (s', g'). split; [reflexivity|done].
  - rewrite list_lookup_insert_ne by done. intros Hj.
    destruct (Hinv j _ Hj) as (c1 & HR1 & Hwp1).
    exists c1. split; [|done]. etrans; [exact HR1|]. eapply (compat j i); eauto.
Qed.

(** In every interleaving of threads that satisfy their specifications from
    a common start, there is a ghost under which an invariant [P] kept by
    every guarantee holds, no thread meets an error outside [E], and the
    finished threads have established their postconditions. *)
Lemma gpool_sound (P : S * Γ → Prop) s g ts :
  ok s → P (s, g) → (∀ i c1 c2, P c1 → G i c1 c2 → P c2) →
  (∀ i p, ts !! i = Some p → wpg ok (R i) (G i) E p (Q i) (s, g)) →
  ∀ s' ts', rtc (step_ok ok) (s, ts) (s', ts') →
    ∃ g', P (s', g') ∧
      (∀ i e, goes_wrong i e (s', ts') → E e) ∧
      (∀ i a, ts' !! i = Some (Ret a) → ∃ c0, Q i a c0 ∧ R i c0 (s', g')).
Proof.
  intros Hok HP HPG Hwp s' ts' Hsteps.
  assert (ok s' ∧ ∃ g', P (s', g') ∧ gpool_inv (s', ts') g') as (Hok' & g' & HP' & Hinv').
  { assert (gpool_inv (s, ts) g) as Hinv.
    { intros i p Hp. exists (s, g). split; [reflexivity|by apply Hwp]. }
    clear Hwp. remember (s', ts') as c' eqn:Hc'. remember (s, ts) as c eqn:Hc.
    assert (P (c.1, g)) as HPc by (by rewrite Hc). assert (ok c.1) as Hokc by (by rewrite Hc).
    assert (ok c'.1 ∧ ∃ g', P (c'.1, g') ∧ gpool_inv c' g') as H; [|subst c'; exact H].
    clear HP Hok Hc Hc'. revert g Hinv HPc.
    induction Hsteps as [c|c1 c2 c3 Hst _ IH]; intros g Hinv HPc; [by split; [|exists g]|].
    destruct (gpool_inv_step _ _ _ Hinv Hokc Hst) as (g2 & i & Hinv2 & HG).
    apply (IH (proj2 Hst) g2); [done|]. by eapply HPG. }
  exists g'. split; [done|]. split.
  - intros i e. unfold goes_wrong; simpl.
    destruct (ts' !! i) as [[a|X f k]|] eqn:Hi; [done| |done].
    intros Hf. destruct (Hinv' i _ Hi) as (c0 & HR0 & H). simpl in H.
    specialize (H (s', g') HR0 Hok'). simpl in H. by rewrite Hf in H.
  - intros i a Hi. destruct (Hinv' i _ Hi) as (c0 & HR0 & H). eauto.
Qed.
End ghost_sound.

(** ** Protocols

    A protocol is an invariant on states with auxiliary state, and for every
    thread [i] what the steps of the others leave alone of it, [own i].
    [ht i P p Q] is the triple of thread [i] under any number of such
    threads. *)
Record protocol (S Γ : Type) := Protocol {
  pok : S → Prop;      (* bounds the executions considered *)
  pinv : S * Γ → Prop;
  own : nat → relation (S * Γ);
  own_preorder : ∀ i, PreOrder (own i);
}.
Arguments pok {S Γ} _ _.
Arguments pinv {S Γ} _ _.
Arguments own {S Γ} _ _ _ _.
Arguments own_preorder {S Γ} _ _.
#[export] Existing Instance own_preorder.

Section protocol.
Context {S Γ : Type} (π : protocol S Γ) (E : err → Prop).
Implicit Types c : S * Γ.
#[local] Abbreviation ginv := (pinv π).
#[local] Abbreviation own := (own π).

Definition rely (i : nat) c c' : Prop := ginv c → ginv c' ∧ own i c c'.
Definition guar (j : nat) c c' : Prop := ginv c → ginv c' ∧ ∀ i, i ≠ j → own i c c'.

#[export] Instance rely_preorder i : PreOrder (rely i).
Proof.
  split.
  - intros c Hc. split; [done|reflexivity].
  - intros c1 c2 c3 H12 H23 Hc1. destruct (H12 Hc1) as [Hc2 Ho], (H23 (proj1 (H12 Hc1))) as [Hc3 Hp].
    split; [done|by etrans].
Qed.

Lemma guar_rely i j c c' : i ≠ j → guar j c c' → rely i c c'.
Proof. intros Hij HG Hc. destruct (HG Hc) as (? & Ho). auto. Qed.

(** an assertion that the steps of other threads keep *)
Definition stable (i : nat) (P : S * Γ → Prop) : Prop :=
  ∀ c c', P c → ginv c' → own i c c' → P c'.

Definition ht {A} (i : nat) (P : S * Γ → Prop) (p : prog S A) (Q : A → S * Γ → Prop) : Prop :=
  ∀ c, ginv c → P c → wpg (pok π) (rely i) (guar i) E p (λ a c', ginv c' ∧ Q a c') c.

(** a step of thread [i] within the protocol *)
Definition update (i : nat) c c' : Prop := ginv c' ∧ ∀ j, j ≠ i → own j c c'.

Lemma update_refl i c : ginv c → update i c c.
Proof. intros Hc. split; [done|]. intros j _. reflexivity. Qed.

(** one atomic action, in an execution within the bounds *)
Lemma ht_act_ok {X} i (P : S * Γ → Prop) (f : S → res S X) Q :
  stable i P →
  (∀ c, pok π c.1 → ginv c → P c → match f c.1 with
     | Ok x s' => pok π s' → ∃ g', update i c (s', g') ∧ Q x (s', g')
     | Err e => E e
     end) →
  ht i P (Act f Ret) Q.
Proof.
  intros Hst Hf c Hc HP c1 HR Hok. destruct (HR Hc) as (Hc1 & Ho).
  specialize (Hf c1 Hok Hc1 (Hst _ _ HP Hc1 Ho)).
  destruct (f c1.1) as [x s2|e]; [|done]. intros Hok2.
  destruct (Hf Hok2) as (g & (? & ?) & HQ).
  exists g. split; [intros _; auto|]. simpl. auto.
Qed.

Lemma ht_act {X} i (P : S * Γ → Prop) (f : S → res S X) Q :
  stable i P →
  (∀ c, ginv c → P c → match f c.1 with
     | Ok x s' => ∃ g', update i c (s', g') ∧ Q x (s', g')
     | Err e => E e
     end) →
  ht i P (Act f Ret) Q.
Proof.
  intros Hst Hf. apply ht_act_ok; [done|]. intros c _ Hc HP. specialize (Hf c Hc HP).
  by destruct (f c.1).
Qed.

Lemma ht_bind {A B} i P (p : prog S A) (h : A → prog S B) Q R :
  ht i P p Q → (∀ a, ht i (Q a) (h a) R) → ht i P (p ≫= h) R.
Proof.
  intros Hp Hh c Hc HP. apply wpg_bind. eapply wpg_mono; [|by apply Hp].
  intros a c' [Hc' HQ]. by apply Hh.
Qed.

Lemma ht_act_ext {X} i P (f f' : S → res S X) Q : (∀ s, f s = f' s) →
  ht i P (Act f Ret) Q → ht i P (Act f' Ret) Q.
Proof.
  intros Hf H c Hc HP c1 HR Hok. specialize (H c Hc HP c1 HR Hok). by rewrite <-Hf.
Qed.

Lemma ht_ret {A} i (P : S * Γ → Prop) (a : A) Q : (∀ c, P c → Q a c) → ht i P (mret a) Q.
Proof. intros H c Hc HP. simpl. auto. Qed.

Lemma ht_weaken {A} i (P P' : S * Γ → Prop) (p : prog S A) (Q Q' : A → S * Γ → Prop) :
  ht i P' p Q' → (∀ c, P c → P' c) → (∀ a c, Q' a c → Q a c) → ht i P p Q.
Proof.
  intros H HP HQ c Hc HPc. eapply wpg_mono; [|by apply H, HP].
  intros a c' [? ?]. auto.
Qed.

(** the invariant may be used to weaken *)
Lemma ht_conseq {A} i (P P' : S * Γ → Prop) (p : prog S A) (Q Q' : A → S * Γ → Prop) :
  ht i P' p Q' → (∀ c, ginv c → P c → P' c) → (∀ a c, ginv c → Q' a c → Q a c) → ht i P p Q.
Proof.
  intros H HP HQ c Hc HPc. eapply wpg_mono; [|by apply H; [|apply HP]].
  intros a c' [? ?]. auto.
Qed.

Lemma ht_iter {X A} i (I : X → S * Γ → Prop) (body : X → prog S (X + A)) Q :
  E OutOfFuel →
  (∀ x, ht i (I x) (body x) (λ r, match r with inl x' => I x' | inr a => Q a end)) →
  ∀ fuel x, ht i (I x) (iter fuel body x) Q.
Proof.
  intros HE Hb fuel x c Hc HI.
  apply (wpg_iter _ _ _ _ body (λ x c, ginv c ∧ I x c)); [done| |done].
  intros y c1 [Hc1 HI1]. eapply wpg_mono; [|by apply Hb].
  intros [x'|a] c'; simpl; auto.
Qed.

Lemma ht_exists {X A} i (P : X → S * Γ → Prop) (p : prog S A) Q :
  (∀ x, ht i (P x) p Q) → ht i (λ c, ∃ x, P x c) p Q.
Proof. intros H c Hc [x HP]. by apply (H x). Qed.

Lemma ht_pure {A} i (φ : Prop) (P : S * Γ → Prop) (p : prog S A) Q :
  (φ → ht i P p Q) → ht i (λ c, φ ∧ P c) p Q.
Proof. intros H c Hc [Hφ HP]. by apply H. Qed.

(** a fact that no thread undoes, the thread's own steps included *)
Lemma ht_frame {A} i (K P : S * Γ → Prop) (p : prog S A) Q : (∀ k, stable k K) →
  ht i P p Q → ht i (λ c, P c ∧ K c) p (λ a c, Q a c ∧ K c).
Proof.
  intros HK Hp c Hc [HP HKc]. specialize (Hp c Hc HP). clear HP. revert c Hc HKc Hp.
  induction p as [a|X f k IH]; intros c Hc HKc; simpl; [tauto|].
  intros Hp c1 HR Hok. destruct (HR Hc) as [Hc1 Ho]. specialize (Hp c1 HR Hok).
  destruct (f c1.1) as [x s2|e]; [|done]. intros Hok2. destruct (Hp Hok2) as (g2 & HG & Hk).
  exists g2. split; [done|]. destruct (HG Hc1) as [Hc2 Ho2]. apply IH; [done| |done].
  eapply (HK (Datatypes.S i)); [eapply (HK i)| |apply Ho2; lia]; eauto.
Qed.

Lemma ht_assert {A} i (P : S * Γ → Prop) b (p : unit → prog S A) Q :
  b = true → ht i P (p tt) Q → ht i P (assert_ b ≫= p) Q.
Proof. by intros ->. Qed.

Lemma ht_load {T} i (P : S * Γ → Prop) (cl : cell S T) Q :
  stable i P →
  (∀ c, ginv c → P c → match peek cl c.1 with
                       | inr v => Q v c
                       | inl e => E e
                       end) →
  ht i P (load cl) Q.
Proof.
  intros Hst Hf. apply ht_act; [done|]. intros [s g] Hc HP. specialize (Hf _ Hc HP).
  unfold on_cell. simpl in *. destruct (peek cl s); [done|].
  exists g. split; [by apply update_refl|done].
Qed.

Lemma ht_store {T} i (P : S * Γ → Prop) (cl : cell S T) v Q :
  stable i P →
  (∀ c, ginv c → P c → match peek cl c.1 with
     | inr _ => ∃ g', update i c (poke cl v c.1, g') ∧ Q (poke cl v c.1, g')
     | inl e => E e
     end) →
  ht i P (store cl v) (λ _, Q).
Proof.
  intros Hst Hf. apply ht_act; [done|]. intros [s g] Hc HP. specialize (Hf _ Hc HP).
  unfold on_cell. simpl in *. by destruct (peek cl s).
Qed.

(** Code of a component, verified by itself under the interference [adv] on
    its part of the state, used as a step of a larger program. *)
Lemma ht_zoom {T A} (get : S → T) (set : T → S → S) (okT : T → Prop) (adv : relation T)
    (ET : err → Prop) i (P : S * Γ → Prop) (p : prog T A) (Q : A → T → Prop) :
  (∀ s t, get (set t s) = t) →
  (∀ s, pok π s → okT (get s)) →
  (∀ c c', own i c c' → adv (get c.1) (get c'.1)) →
  stable i P →
  (∀ c t, ginv c → P c → adv (get c.1) t → pok π (set t c.1) →
     update i c (set t c.1, c.2) ∧ P (set t c.1, c.2)) →
  (∀ e, ET e → E e) →
  (∀ c, ginv c → P c → wprg okT adv adv ET p Q (get c.1)) →
  ht i P (zoom get set p) (λ a c, P c ∧ Q a (get c.1)).
Proof.
  intros Hget HokT Hown Hst Hset HE Hp c Hc HP. specialize (Hp c Hc HP).
  revert c Hc HP Hp. induction p as [a|X f k IH]; intros c Hc HP Hp; simpl; [done|].
  intros c1 HR Hok. destruct (HR Hc) as [Hc1 Ho]. pose proof (Hst _ _ HP Hc1 Ho) as HP1.
  specialize (Hp (get c1.1) (Hown _ _ Ho) (HokT _ Hok)).
  destruct (f (get c1.1)) as [x t|e]; simpl; [|by apply HE]. destruct Hp as [Hadv Hk].
  intros Hok2. destruct (Hset c1 t Hc1 HP1 Hadv Hok2) as [Hu HP2].
  exists c1.2. split; [intros _; by destruct Hu|]. apply IH; [by destruct Hu|done|].
  simpl. rewrite Hget. apply Hk. specialize (HokT _ Hok2). by rewrite Hget in HokT.
Qed.

(** two components, one inside the other *)
Lemma ht_zoom_zoom {T U A} (g1 : S → T) (s1 : T → S → S) (g2 : T → U) (s2 : U → T → T) i P
    (p : prog U A) Q :
  ht i P (zoom g1 s1 (zoom g2 s2 p)) Q →
  ht i P (zoom (λ s, g2 (g1 s)) (λ u s, s1 (s2 u (g1 s)) s) p) Q.
Proof.
  intros H c Hc HP. specialize (H c Hc HP). clear Hc HP. revert c H.
  induction p as [a|X f k IH]; intros c; simpl; [done|]. intros H c1 HR Hok.
  specialize (H c1 HR Hok). destruct (f (g2 (g1 c1.1))) as [x u|e]; simpl in *; [|done].
  intros Hok2. destruct (H Hok2) as (g & HG & Hk). exists g. split; [done|by apply IH].
Qed.

Lemma stable_and i P Q : stable i P → stable i Q → stable i (λ c, P c ∧ Q c).
Proof. intros HP HQ c c' [? ?] ??. split; [eapply HP|eapply HQ]; eauto. Qed.
Lemma stable_ex {X} i (P : X → S * Γ → Prop) :
  (∀ x, stable i (P x)) → stable i (λ c, ∃ x, P x c).
Proof. intros HP c c' [x ?] ??. exists x. eapply HP; eauto. Qed.
Lemma stable_pure i (φ : Prop) : stable i (λ _, φ).
Proof. by intros c c' ?. Qed.

(** Threads that satisfy triples from a common start, in any interleaving. *)
Lemma protocol_sound {A} (P : nat → S * Γ → Prop) (Q : nat → A → S * Γ → Prop) s g
    (ts : list (prog S A)) :
  pok π s → ginv (s, g) →
  (∀ i p, ts !! i = Some p → P i (s, g) ∧ ht i (P i) p (Q i)) →
  ∀ s' ts', rtc (step_ok (pok π)) (s, ts) (s', ts') →
    ∃ g', ginv (s', g') ∧
      (∀ i e, goes_wrong i e (s', ts') → E e) ∧
      (∀ i a, ts' !! i = Some (Ret a) → ∃ c0, Q i a c0 ∧ own i c0 (s', g')).
Proof.
  intros Hok Hg Hts s' ts' Hsteps.
  destruct (gpool_sound (pok π) rely guar E (λ i a c, ginv c ∧ Q i a c) rely_preorder guar_rely
    ginv s g ts Hok Hg) with s' ts' as (g' & Hg' & Hwrong & Hret).
  - intros i c1 c2 Hc HG. by destruct (HG Hc).
  - intros i p Hp. destruct (Hts i p Hp) as [HP Hht]. by apply Hht.
  - done.
  - exists g'. split_and!; [done|done|]. intros i a Ha.
    destruct (Hret i a Ha) as (c0 & (Hc0 & HQ) & HR). exists c0. split; [done|].
    by apply HR.
Qed.
End protocol.

(** ** A protocol on a part of the state

    The rest of the state consists of variables of the threads: [vars i] are
    those of thread [i]. *)
Section lift.
Context {S T Γ X : Type} (π : protocol S Γ) (E : err → Prop).
Context (get : T → S) (set : S → T → T) (vars : nat → T → X).
Context (get_set : ∀ s t, get (set s t) = s) (vars_set : ∀ i s t, vars i (set s t) = vars i t).

Definition part (c : T * Γ) : S * Γ := (get c.1, c.2).
Definition own_part (i : nat) (c c' : T * Γ) : Prop :=
  own π i (part c) (part c') ∧ vars i c'.1 = vars i c.1.

Lemma own_part_preorder i : PreOrder (own_part i).
Proof.
  split; [intros c; by split|]. intros c1 c2 c3 [H1 H2] [H3 H4]. split; [by etrans|congruence].
Qed.

Definition lift : protocol T Γ :=
  Protocol _ _ (λ t, pok π (get t)) (λ c, pinv π (part c)) own_part own_part_preorder.

Lemma stable_part i P : stable π i P → stable lift i (λ c, P (part c)).
Proof. intros HP c c' H Hc' [Ho _]. by eapply HP. Qed.
Lemma stable_vars i x : stable lift i (λ c, vars i c.1 = x).
Proof. intros c c' H _ [_ Hv]. congruence. Qed.

Lemma ht_lift {A} i P (p : prog S A) Q x : ht π E i P p Q →
  ht lift E i (λ c, P (part c) ∧ vars i c.1 = x) (zoom get set p)
    (λ a c, Q a (part c) ∧ vars i c.1 = x).
Proof.
  intros Hp c Hc [HP Hx]. specialize (Hp (part c) Hc HP). clear HP. revert c Hc Hx Hp.
  induction p as [a|Y f k IH]; intros c Hc Hx; simpl; [tauto|].
  intros Hp c1 HR Hok. destruct (HR Hc) as [Hc1 [Ho Hv]]. unfold part in Hp.
  specialize (Hp (part c1) (λ _, conj Hc1 Ho) Hok). simpl in Hp.
  destruct (f (get c1.1)) as [y s2|e]; simpl; [|done]. rewrite get_set. intros Hok2.
  destruct (Hp Hok2) as (g2 & HG & Hk). exists g2. split.
  - intros _. destruct (HG Hc1) as [Hc2 Ho2]. split.
    + change (pinv π (get (set s2 c1.1), g2)). by rewrite get_set.
    + intros j Hj. split; [|apply vars_set].
      change (own π j (part c1) (get (set s2 c1.1), g2)). rewrite get_set. by apply Ho2.
  - apply IH; cbn [fst snd].
    + change (pinv π (get (set s2 c1.1), g2)). rewrite get_set. by destruct (HG Hc1).
    + by rewrite vars_set, Hv.
    + unfold part; simpl. by rewrite get_set.
Qed.
End lift.
#[global] Arguments part {S T Γ} get c /.

Create HintDb stab.
#[export] Hint Resolve stable_pure : stab.
#[export] Hint Extern 2 (stable _ _ (λ _, _ ∧ _)) => apply stable_and : stab.
#[export] Hint Extern 2 (stable _ _ (λ _, ∃ _, _)) => apply stable_ex; intros : stab.

(** ** Automation *)

(** Unfold the primitive actions of a [wprg] goal one atomic step at a time. *)
Ltac rg_unfold :=
  cbn [wprg mbind prog_bind pbind load store exchange cas cmpxchg fetch_add gets modify
       on_cell peek poke total_cell when fst snd mret prog_ret].
Ltac rg_step s := rg_unfold; intros s ? ?.
