(* ===== verification/Tagged.v ===== *)
(** * Tagged: tagged words and write announcements (include/flock/tagged.h,
    include/flock/no_tagged.h).

    A word is a 48-bit value under a 16-bit tag: 15 bits of count above one
    panic bit.  [next] computes the tagged word of a new value; it consults
    the announcement array when the count crosses a half of its range or the
    old word has its panic bit set. *)

From stdpp Require Import prelude list.
From Stdlib Require Import ZArith Lia.
From S2P Require Import Prelude.
Local Open Scope Z_scope.

(** ** The announcement array *)
Module announce_write.
(** std::atomic<size_t> announcements[num_workers*stride] *)
Definition stride : nat := 16.
Abbreviation state := (list Z).

Definition slot (i : nat) : cell state Z :=
  Cell (λ s, match s !! i with Some v => inr v | None => inl OutOfBounds end)
       (λ v s, <[i := v]> s).

Definition init (num_workers : nat) : state := replicate (num_workers * stride) 0.

Fixpoint scan_from (idxs : list nat) (announced_tags : list Z) : prog state (list Z) :=
  match idxs with
  | [] => mret announced_tags
  | i :: idxs' => a ← load (slot i); scan_from idxs' (announced_tags ++ [a])
  end.

Definition scan (num_workers : nat) : prog state (list Z) :=
  scan_from ((λ i, i * stride)%nat <$> seq 0 num_workers) [].

Definition set (id : nat) (val : Z) : prog state unit := store (slot (id * stride)) val.
Definition clear (id : nat) : prog state unit := store (slot (id * stride)) 0.

(** What the workers currently announce. *)
Definition announced (num_workers : nat) (s : state) : list Z :=
  (λ i, s !!! (i * stride)%nat) <$> seq 0 num_workers.
Definition wf (num_workers : nat) (s : state) : Prop :=
  length s = (num_workers * stride)%nat.
End announce_write.

(** ** Tags *)
Module tagged.
Definition tag_bits : Z := 16.
Definition top_bit : Z := 2 ^ 63.
Definition cnt_bit : Z := 2 ^ (64 - tag_bits + 1).
Definition panic_bit : Z := 2 ^ (64 - tag_bits).
Definition data_mask : Z := panic_bit - 1.
Definition cnt_mask : Z := not64 data_mask.

Definition add_tag (oldv newv : Z) : Z := Z.lor newv (Z.land oldv cnt_mask).

Definition inc_tag (oldv : Z) : Z :=
  let new_count := wrap64 (Z.land oldv cnt_mask + cnt_bit) in
  if new_count =? 0 then cnt_bit else new_count.

(** the two-argument overload, which does not look at announcements *)
Definition next_no_overflow (oldv newv : Z) : Z := Z.lor newv (inc_tag oldv).

Definition init (v : Z) : Z := Z.lor cnt_bit v.
Definition value (v : Z) : Z := Z.land v data_mask.
Definition get_tag (v : Z) : Z := Z.land v cnt_mask.

(** overflow, or the panic bit is set: the announcements have to be read *)
Definition must_scan (oldv new_count : Z) : bool :=
  negb (Z.land oldv top_bit =? Z.land new_count top_bit) ||
  negb (Z.land oldv panic_bit =? 0).

(** an announcement of the same object, in the same half of the range, of a
    tag that is not below the new one *)
Definition blocks (addr new_count ann : Z) : bool :=
  (Z.land ann data_mask =? Z.land addr data_mask) &&
  (Z.land ann top_bit =? Z.land new_count top_bit) &&
  (Z.land (Z.land new_count cnt_mask) (not64 panic_bit) <=? Z.land ann cnt_mask).

Definition announces (addr new_count ann : Z) : bool :=
  (Z.land ann data_mask =? Z.land addr data_mask) &&
  (Z.land ann cnt_mask =? new_count).

(** the while(true) loop of the panic branch *)
Fixpoint find_free (fuel : nat) (announced_tags : list Z) (newv addr new_count : Z)
  : option Z :=
  match fuel with
  | O => None
  | S n =>
      if negb (existsb (announces addr new_count) announced_tags)
      then Some (Z.lor newv (Z.lor new_count panic_bit))
      else find_free n announced_tags newv addr (inc_tag new_count)
  end.

Definition next (num_workers : nat) (oldv newv addr : Z) : prog announce_write.state Z :=
  let new_count := inc_tag oldv in
  panic ← (if must_scan oldv new_count
           then anns ← announce_write.scan num_workers;
                mret (existsb (blocks addr new_count) anns)
           else mret false);
  if (panic : bool) then
    announced_tags ← announce_write.scan num_workers;
    match find_free (S num_workers) announced_tags newv addr new_count with
    | Some r => mret r
    | None => fail OutOfFuel
    end
  else mret (Z.lor newv (Z.land new_count (not64 panic_bit))).
End tagged.

(** The dummy wrapper used with ordinary locks. *)
Module no_tagged.
Definition init (v : Z) : Z := v.
Definition value (v : Z) : Z := v.
Definition get_tag (v : Z) : Z := 0.
Definition cas_ {S} (loc : cell S Z) (oldv v : Z) : prog S bool := cas loc oldv v.
Definition cas_with_same_tag {S} (loc : cell S Z) (oldv v : Z) : prog S bool :=
  cas_ loc oldv v.
End no_tagged.

(** ** Arithmetic view of the words *)

(** The 16-bit tag of a word, as a number; odd means the panic bit is set. *)
Definition tagno (x : Z) : Z := x / 2 ^ 48.
Definition panicked (x : Z) : bool := Z.testbit x 48.
Definition same_half (x y : Z) : bool := Bool.eqb (Z.testbit x 63) (Z.testbit y 63).
Definition tinc (t : Z) : Z := let t' := (t + 2) mod 65536 in if t' =? 0 then 2 else t'.

Section view.
Import tagged.

Lemma tagno_range x : is_w64 x → 0 ≤ tagno x < 65536.
Proof.
  unfold is_w64, tagno. intros. split; [apply Z.div_pos; lia|].
  apply Z.div_lt_upper_bound; lia.
Qed.

Lemma value_mod x : value x = x mod 2 ^ 48.
Proof. apply (land_low x 48). lia. Qed.

Lemma get_tag_tagno x : is_w64 x → get_tag x = tagno x * 2 ^ 48.
Proof.
  intros H. change (get_tag x) with (Z.land x (not64 (2 ^ 48 - 1))). unfold tagno.
  rewrite (land_high x 48) by (done || lia). pose proof (Z.div_mod x (2 ^ 48)). lia.
Qed.

Lemma testbit48 x : panicked x = Z.odd (tagno x).
Proof.
  unfold panicked, tagno. rewrite <-Z.bit0_odd, Z.div_pow2_bits by lia. done.
Qed.

Lemma testbit63 x : is_w64 x → Z.testbit x 63 = (32768 <=? tagno x).
Proof.
  intros Hx. pose proof (tagno_range x Hx) as Ht. unfold tagno in *.
  change 63 with (15 + 48). rewrite <-Z.div_pow2_bits by lia.
  set (t := x / 2 ^ 48) in *. rewrite Z.testbit_odd, Z.shiftr_div_pow2 by lia.
  change (2 ^ 15) with 32768. destruct (Z.leb_spec 32768 t).
  - replace (t / 32768) with 1; [done|]. apply Z.div_unique with (t - 32768); lia.
  - rewrite Z.div_small by lia. done.
Qed.

Lemma tagged_word_w64 t v : 0 ≤ t < 65536 → 0 ≤ v < 2 ^ 48 → is_w64 (t * 2 ^ 48 + v).
Proof. unfold is_w64. lia. Qed.

Lemma tagno_word t v : 0 ≤ v < 2 ^ 48 → tagno (t * 2 ^ 48 + v) = t.
Proof. intros. unfold tagno. rewrite Z.div_add_l by lia. rewrite Z.div_small; lia. Qed.

Lemma value_word t v : 0 ≤ v < 2 ^ 48 → value (t * 2 ^ 48 + v) = v.
Proof.
  intros. rewrite value_mod, Z.add_comm, Z.mod_add by lia. by apply Z.mod_small.
Qed.

Lemma tinc_range t : 0 ≤ tinc t < 65536.
Proof.
  unfold tinc. pose proof (Z.mod_pos_bound (t + 2) 65536).
  destruct (Z.eqb_spec ((t + 2) mod 65536) 0); lia.
Qed.

Lemma tinc_odd t : Z.odd (tinc t) = Z.odd t.
Proof.
  assert (Z.odd ((t + 2) mod 65536) = Z.odd t) as H.
  { rewrite (Z.mod_eq (t + 2) 65536) by lia.
    replace (t + 2 - 65536 * ((t + 2) / 65536))
      with (t + 2 * (1 - 32768 * ((t + 2) / 65536))) by lia.
    apply Z.odd_add_mul_2. }
  unfold tinc. destruct (Z.eqb_spec ((t + 2) mod 65536) 0) as [E|]; [|done].
  rewrite E in H. by rewrite <-H.
Qed.

Lemma inc_tag_word x : is_w64 x → inc_tag x = tinc (tagno x) * 2 ^ 48.
Proof.
  intros Hx. pose proof (tagno_range x Hx) as Ht. unfold inc_tag.
  change (Z.land x cnt_mask) with (get_tag x). rewrite get_tag_tagno by done.
  unfold cnt_bit, tag_bits, wrap64.
  replace (tagno x * 2 ^ 48 + 2 ^ (64 - 16 + 1)) with ((tagno x + 2) * 2 ^ 48) by lia.
  change (2 ^ 64) with (65536 * 2 ^ 48). rewrite Z.mul_mod_distr_r by lia.
  unfold tinc. case_bool; case_bool; lia.
Qed.

Lemma tagno_mul t : tagno (t * 2 ^ 48) = t.
Proof. unfold tagno. apply Z.div_mul. lia. Qed.

Lemma inc_tag_mul t : 0 ≤ t < 65536 → inc_tag (t * 2 ^ 48) = tinc t * 2 ^ 48.
Proof.
  intros. rewrite inc_tag_word by (unfold is_w64; lia). by rewrite tagno_mul.
Qed.

Lemma inc_tag_w64 x : is_w64 x → is_w64 (inc_tag x).
Proof.
  intros Hx. rewrite inc_tag_word by done. pose proof (tinc_range (tagno x)).
  unfold is_w64. lia.
Qed.

Lemma tagno_inc_tag x : is_w64 x → tagno (inc_tag x) = tinc (tagno x).
Proof.
  intros Hx. rewrite inc_tag_word by done. apply tagno_mul.
Qed.

Lemma top_bit_eq x y : (Z.land x top_bit =? Z.land y top_bit) = same_half x y.
Proof.
  unfold top_bit, same_half. rewrite !land_pow2 by lia.
  by destruct (Z.testbit x 63), (Z.testbit y 63).
Qed.

Lemma panic_bit_eq x : negb (Z.land x panic_bit =? 0) = panicked x.
Proof.
  unfold panic_bit, panicked. change (64 - tag_bits) with 48. rewrite land_pow2 by lia.
  by destruct (Z.testbit x 48).
Qed.
End view.

(** ** Scanning the announcements *)
Section scan.
Import announce_write.

Lemma scan_from_run s idxs acc :
  (∀ i, i ∈ idxs → (i < length s)%nat) →
  run (scan_from idxs acc) s = Ok (acc ++ ((λ i, s !!! i) <$> idxs)) s.
Proof.
  revert acc. induction idxs as [|i idxs IH]; intros acc Hin.
  - simpl. by rewrite app_nil_r.
  - assert (i < length s)%nat as Hi by (apply Hin; set_solver).
    destruct (lookup_lt_is_Some_2 s i Hi) as [a Ha].
    assert (run (load (slot i)) s = Ok a s) as Hl.
    { cbn. unfold on_cell, slot. cbn. by rewrite Ha. }
    cbn [scan_from]. rewrite run_bind, Hl. rewrite IH by (intros; apply Hin; set_solver).
    rewrite <-app_assoc. simpl. by rewrite (list_lookup_total_correct _ _ _ Ha).
Qed.

Lemma scan_run n s : wf n s → run (scan n) s = Ok (announced n s) s.
Proof.
  intros Hwf. unfold scan. rewrite scan_from_run.
  - unfold announced. by rewrite <-list_fmap_compose.
  - intros i (j & -> & Hj)%list_elem_of_fmap. apply elem_of_seq in Hj.
    rewrite Hwf. unfold stride. lia.
Qed.

Lemma length_announced n s : length (announced n s) = n.
Proof. unfold announced. by rewrite length_fmap, length_seq. Qed.
End scan.

(** ** The search for a free tag terminates *)
Section find_free.
Import tagged.

Lemma tinc_iter_odd k t : Z.odd t = true → 0 ≤ t < 65536 →
  Nat.iter k tinc t = (t + 2 * Z.of_nat k) mod 65536.
Proof.
  intros Hodd Ht. rewrite Z.odd_spec in Hodd. destruct Hodd as [c ->].
  induction k as [|k IH]; simpl Nat.iter.
  - rewrite Z.mod_small; lia.
  - rewrite IH. unfold tinc. case_bool; Z.div_mod_to_equations; lia.
Qed.

Lemma tinc_iter_even k c : 1 ≤ c < 32768 →
  Nat.iter k tinc (2 * c) = 2 * ((c - 1 + Z.of_nat k) mod 32767 + 1).
Proof.
  intros Hc. induction k as [|k IH]; simpl Nat.iter.
  - rewrite Z.mod_small; lia.
  - rewrite IH. unfold tinc. case_bool; Z.div_mod_to_equations; lia.
Qed.

Lemma tinc_iter_inj t j k : 0 < t < 65536 →
  Z.of_nat j < 32767 → Z.of_nat k < 32767 →
  Nat.iter j tinc t = Nat.iter k tinc t → j = k.
Proof.
  intros Ht Hj Hk. destruct (Z.odd t) eqn:Hodd.
  - rewrite !tinc_iter_odd by (done || lia). Z.div_mod_to_equations; lia.
  - assert (Z.even t = true) as He by (by rewrite <-Z.negb_odd, Hodd).
    apply Z.even_spec in He as [c ->].
    rewrite !tinc_iter_even by lia. Z.div_mod_to_equations; lia.
Qed.

Lemma tinc_pos t : 0 < tinc t.
Proof.
  unfold tinc. pose proof (Z.mod_pos_bound (t + 2) 65536). case_bool; lia.
Qed.

Definition same_addr (addr ann : Z) : bool := Z.land ann data_mask =? Z.land addr data_mask.

Lemma announces_tagno addr nc ann t : is_w64 ann → nc = t * 2 ^ 48 →
  announces addr nc ann = same_addr addr ann && (tagno ann =? t).
Proof.
  intros Hann ->. unfold announces, same_addr. f_equal.
  change (Z.land ann cnt_mask) with (get_tag ann). rewrite get_tag_tagno by done.
  repeat case_bool; nia.
Qed.

(** What [find_free] returns: the first tag from [t] on that no thread
    announces for this address, with the panic bit set. *)
Lemma find_free_sound fuel anns newv addr t r :
  Forall is_w64 anns → 0 < t < 65536 → 0 ≤ newv < 2 ^ 48 →
  find_free fuel anns newv addr (t * 2 ^ 48) = Some r →
  ∃ t', 0 < t' < 65536 ∧ Z.odd t' = Z.odd t ∧
    r = Z.lor t' 1 * 2 ^ 48 + newv ∧
    ∀ ann, ann ∈ anns → same_addr addr ann = true → tagno ann ≠ t'.
Proof.
  intros Hanns. revert t. induction fuel as [|n IH]; intros t Ht Hv; simpl; [done|].
  destruct (existsb (announces addr (t * 2 ^ 48)) anns) eqn:Hex; simpl.
  - rewrite inc_tag_mul by lia. intros H. pose proof (tinc_range t). pose proof (tinc_pos t).
    destruct (IH (tinc t)) as (t' & ? & Hodd & ? & ?); [lia..|done|].
    exists t'. rewrite tinc_odd in Hodd. done.
  - intros [= <-]. exists t. split; [done|]. split; [done|]. split.
    + unfold panic_bit, tag_bits. change (2 ^ (64 - 16)) with (1 * 2 ^ 48).
      assert (Z.lor (t * 2 ^ 48) (1 * 2 ^ 48) = Z.lor t 1 * 2 ^ 48) as ->.
      { rewrite <-!Z.shiftl_mul_pow2 by lia. by rewrite <-Z.shiftl_lor. }
      rewrite Z.lor_comm. by apply lor_disjoint.
    + intros ann Hin Haddr Htag.
      apply (not_true_iff_false (existsb _ _)) in Hex. apply Hex, existsb_exists.
      exists ann. split; [by apply list_elem_of_In|].
      rewrite Forall_forall in Hanns.
      rewrite (announces_tagno _ _ _ t) by auto. rewrite Haddr. simpl. lia.
Qed.

(** The number of announcements bounds the iterations. *)
Lemma find_free_total fuel anns newv addr t :
  Forall is_w64 anns → 0 < t < 65536 →
  (length anns < fuel)%nat → Z.of_nat (length anns) < 32766 →
  ∃ r, find_free fuel anns newv addr (t * 2 ^ 48) = Some r.
Proof.
  intros Hanns Ht Hfuel Hlen.
  destruct (find_free fuel anns newv addr (t * 2 ^ 48)) as [r|] eqn:Hf; [by eexists|].
  exfalso.
  assert (∀ n t, 0 < t < 65536 →
    find_free n anns newv addr (t * 2 ^ 48) = None →
    ∀ k, (k < n)%nat → Nat.iter k tinc t ∈ (tagno <$> anns)) as Hall.
  { clear -Hanns. induction n as [|n IH]; intros t Ht Hf k Hk; [lia|]. simpl in Hf.
    destruct (existsb (announces addr (t * 2 ^ 48)) anns) eqn:Hex; [|done]. simpl in Hf.
    rewrite inc_tag_mul in Hf by lia.
    pose proof (tinc_range t). pose proof (tinc_pos t).
    destruct k as [|k].
    - apply existsb_exists in Hex as (ann & Hin & Hann). apply list_elem_of_In in Hin.
      rewrite Forall_forall in Hanns. rewrite (announces_tagno _ _ _ t) in Hann by auto.
      apply andb_true_iff in Hann as [_ Heq]. apply list_elem_of_fmap. exists ann.
      split; [simpl; lia|done].
    - rewrite Nat.iter_succ_r. apply IH; [lia|done|lia]. }
  pose (l := (λ k, Nat.iter k tinc t) <$> seq 0 (S (length anns))).
  assert (NoDup l) as Hnd.
  { apply NoDup_fmap_2_strong; [|apply NoDup_seq]. intros j k Hj Hk.
    apply elem_of_seq in Hj, Hk. apply tinc_iter_inj; lia. }
  assert (l ⊆ (tagno <$> anns)) as Hsub.
  { intros x (k & -> & Hk)%list_elem_of_fmap. apply elem_of_seq in Hk.
    eapply Hall; [done|exact Hf|lia]. }
  apply (NoDup_submseteq _ _ Hnd) in Hsub. apply submseteq_length in Hsub.
  unfold l in Hsub. rewrite !length_fmap, length_seq in Hsub. lia.
Qed.
End find_free.

(** ** Properties of [next] *)
Section next.
Import tagged.

(** A word whose tag is in the same half of the range as the current word's
    does not come after it. *)
Definition ann_ok (cur ann : Z) : Prop := same_half cur ann = true → tagno ann ≤ tagno cur.

Lemma same_half_tagno x y : is_w64 x → is_w64 y →
  same_half x y = Bool.eqb (32768 <=? tagno x) (32768 <=? tagno y).
Proof. intros. unfold same_half. by rewrite !testbit63. Qed.

Lemma clear_panic t : 0 ≤ t < 65536 →
  Z.land (t * 2 ^ 48) (not64 panic_bit) = (t - Z.b2z (Z.odd t)) * 2 ^ 48.
Proof.
  intros Ht. rewrite land_not64 by (unfold is_w64; lia).
  unfold panic_bit, tag_bits. change (64 - 16) with 48. rewrite land_pow2 by lia.
  change (Z.testbit (t * 2 ^ 48) 48) with (panicked (t * 2 ^ 48)).
  rewrite testbit48, tagno_mul. destruct (Z.odd t); simpl Z.b2z; lia.
Qed.

Lemma blocks_tagno addr ann t : is_w64 ann → 0 ≤ t < 65536 →
  blocks addr (t * 2 ^ 48) ann =
  same_addr addr ann && same_half ann (t * 2 ^ 48) && (t - Z.b2z (Z.odd t) <=? tagno ann).
Proof.
  intros Hann Ht. unfold blocks. rewrite top_bit_eq. f_equal.
  change (Z.land (t * 2 ^ 48) cnt_mask) with (get_tag (t * 2 ^ 48)).
  change (Z.land ann cnt_mask) with (get_tag ann).
  rewrite !get_tag_tagno by (done || (unfold is_w64; lia)).
  rewrite tagno_mul, clear_panic by done. repeat case_bool; nia.
Qed.

Lemma odd_pred t : Z.odd t = true → Z.lor t 1 = t.
Proof.
  intros Hodd. apply Z.odd_spec in Hodd as [c ->].
  assert (Z.lor (c * 2 ^ 1) 1 = c * 2 ^ 1 + 1) as H by (apply lor_disjoint; lia).
  change (2 ^ 1) with 2 in H.
  replace (2 * c + 1) with (Z.lor (c * 2) 1) at 1 by lia.
  rewrite <-Z.lor_assoc, Z.lor_diag. lia.
Qed.

Lemma tagged_word_facts t v : 0 ≤ t < 65536 → 0 ≤ v < 2 ^ 48 →
  let r := t * 2 ^ 48 + v in
  Z.lor v (t * 2 ^ 48) = r ∧ is_w64 r ∧ value r = v ∧ tagno r = t ∧
  get_tag r = t * 2 ^ 48 ∧ panicked r = Z.odd t.
Proof.
  intros Ht Hv r. assert (is_w64 r) as Hr by (unfold is_w64; lia).
  assert (tagno r = t) as Htr by (by apply tagno_word).
  split_and!; [by rewrite Z.lor_comm; apply lor_disjoint|done|by apply value_word|done| |].
  - by rewrite get_tag_tagno, Htr.
  - by rewrite testbit48, Htr.
Qed.

Lemma get_tag_inj x y : is_w64 x → is_w64 y → tagno x ≠ tagno y → get_tag x ≠ get_tag y.
Proof. intros. rewrite !get_tag_tagno by done. lia. Qed.

(** What holds of the result of [next] for the announcements it saw. *)
Definition fresh_tag (anns : list Z) (addr newv r : Z) : Prop :=
  is_w64 r ∧ value r = newv ∧
  (∀ ann, ann ∈ anns → same_addr addr ann = true → get_tag ann ≠ get_tag r) ∧
  (panicked r = true ∨
   ∀ ann, ann ∈ anns → same_addr addr ann = true → ann_ok r ann).

Lemma fresh_of_word anns addr newv t :
  Forall is_w64 anns → 0 ≤ t < 65536 → 0 ≤ newv < 2 ^ 48 →
  (∀ ann, ann ∈ anns → same_addr addr ann = true →
     tagno ann ≠ t ∧ (Z.odd t = true ∨
       (Bool.eqb (32768 <=? t) (32768 <=? tagno ann) = true → tagno ann ≤ t))) →
  fresh_tag anns addr newv (t * 2 ^ 48 + newv).
Proof.
  intros Hanns Ht Hv Hall.
  destruct (tagged_word_facts t newv Ht Hv) as (_ & Hw & Hval & Htag & _ & Hpan).
  rewrite Forall_forall in Hanns.
  split_and!; [done|done| |].
  - intros ann Hin Ha. destruct (Hall ann Hin Ha) as [Hne _].
    apply get_tag_inj; [auto|done|lia].
  - destruct (Z.odd t) eqn:Hodd; [by left|right]. intros ann Hin Ha.
    destruct (Hall ann Hin Ha) as [_ [|Hle]]; [done|].
    unfold ann_ok. rewrite same_half_tagno, Htag by auto. done.
Qed.

(** Without announcements in the way: the panic bit is cleared. *)
Lemma next_unblocked anns oldv newv addr :
  Forall is_w64 anns → is_w64 oldv → 0 ≤ newv < 2 ^ 48 →
  existsb (blocks addr (inc_tag oldv)) anns = false →
  fresh_tag anns addr newv (Z.lor newv (Z.land (inc_tag oldv) (not64 panic_bit))).
Proof.
  intros Hanns Hold Hv Hex. rewrite inc_tag_word in * by done.
  pose proof (tinc_range (tagno oldv)) as Hr. set (t := tinc (tagno oldv)) in *.
  rewrite clear_panic by done.
  assert (0 ≤ t - Z.b2z (Z.odd t) < 65536) as Ht.
  { destruct (Z.odd t) eqn:Hodd; simpl; [|lia]. apply Z.odd_spec in Hodd as [c ?]. lia. }
  destruct (tagged_word_facts _ newv Ht Hv) as (-> & _).
  apply fresh_of_word; [done..|]. intros ann Hin Ha.
  rewrite Forall_forall in Hanns. specialize (Hanns ann Hin).
  assert (blocks addr (t * 2 ^ 48) ann = false) as Hb.
  { destruct (blocks addr (t * 2 ^ 48) ann) eqn:E; [|done].
    assert (existsb (blocks addr (t * 2 ^ 48)) anns = true) as ?; [|congruence].
    apply existsb_exists. exists ann. by rewrite <-list_elem_of_In. }
  rewrite blocks_tagno in Hb by done. rewrite Ha in Hb. simpl in Hb.
  rewrite same_half_tagno, tagno_mul in Hb by (done || (unfold is_w64; lia)).
  assert ((32768 <=? t) = (32768 <=? t - Z.b2z (Z.odd t))) as Hhalf.
  { destruct (Z.odd t) eqn:Hodd; simpl; [|f_equal; lia].
    apply Z.odd_spec in Hodd as [c ?]. repeat case_bool; lia. }
  rewrite Hhalf in Hb. destruct (Z.leb_spec (t - Z.b2z (Z.odd t)) (tagno ann)).
  - rewrite andb_true_r in Hb. split; [|right].
    + intros Heq. rewrite Heq in Hb. by destruct (32768 <=? _) in Hb.
    + rewrite Bool.eqb_true_iff. intros Heq. rewrite Heq in Hb.
      by destruct (32768 <=? _) in Hb.
  - split; [lia|right; lia].
Qed.

(** Without a scan: the count moved up within its half. *)
Lemma next_no_scan anns oldv newv addr :
  Forall is_w64 anns → is_w64 oldv → 0 ≤ newv < 2 ^ 48 →
  must_scan oldv (inc_tag oldv) = false →
  (∀ ann, ann ∈ anns → same_addr addr ann = true → ann_ok oldv ann) →
  fresh_tag anns addr newv (Z.lor newv (Z.land (inc_tag oldv) (not64 panic_bit))).
Proof.
  intros Hanns Hold Hv Hms Hok. pose proof (inc_tag_w64 oldv Hold) as Hinc.
  unfold must_scan in Hms. apply orb_false_iff in Hms as [Hhalf Hpan].
  rewrite top_bit_eq in Hhalf. apply negb_false_iff in Hhalf.
  rewrite panic_bit_eq, testbit48 in Hpan.
  rewrite same_half_tagno, tagno_inc_tag in Hhalf by done.
  rewrite inc_tag_word by done. rewrite clear_panic by apply tinc_range.
  rewrite tinc_odd, Hpan. rewrite Z.sub_0_r. pose proof (tinc_range (tagno oldv)) as Hr.
  destruct (tagged_word_facts _ newv Hr Hv) as (-> & _).
  apply fresh_of_word; [done..|]. intros ann Hin Ha.
  specialize (Hok ann Hin Ha). rewrite Forall_forall in Hanns. specialize (Hanns ann Hin).
  unfold ann_ok in Hok. rewrite same_half_tagno in Hok by done.
  pose proof (tagno_range oldv Hold). pose proof (tagno_range ann Hanns).
  apply eqb_prop in Hhalf.
  assert (tagno oldv < tinc (tagno oldv)) as Hlt.
  { revert Hhalf. unfold tinc. repeat case_bool; Z.div_mod_to_equations; lia. }
  rewrite <-Hhalf. rewrite Bool.eqb_true_iff in *.
  assert ((32768 <=? tagno oldv) = (32768 <=? tagno ann) ∨
          (32768 <=? tagno oldv) ≠ (32768 <=? tagno ann)) as [E|E]
    by (destruct (32768 <=? _), (32768 <=? tagno ann); auto).
  - specialize (Hok E). split; [lia|right; lia].
  - split; [|right; congruence]. intros Heq. rewrite Heq in E. congruence.
Qed.
End next.

(** ** Theorems *)

Import announce_write tagged.

(** When [next] is safe: either the old word has its panic bit set, or every
    announcement of the address is of an unpanicked tag that, within the old
    word's half of the range, is no later than the old one. *)
Definition next_pre (anns : list Z) (addr oldv : Z) : Prop :=
  panicked oldv = true ∨
  ∀ ann, ann ∈ anns → same_addr addr ann = true →
    panicked ann = false ∧ ann_ok oldv ann.

Lemma next_fresh_word n s oldv newv addr :
  wf n s → Forall is_w64 (announced n s) → Z.of_nat n < 32766 →
  is_w64 oldv → 0 ≤ newv < 2 ^ 48 →
  next_pre (announced n s) addr oldv →
  ∃ r, run (next n oldv newv addr) s = Ok r s ∧ fresh_tag (announced n s) addr newv r.
Proof.
  intros Hwf Hanns Hn Hold Hv Hpre. unfold next.
  destruct (must_scan oldv (inc_tag oldv)) eqn:Hms.
  - rewrite !run_bind, scan_run by done. cbn [run mret prog_ret].
    destruct (existsb (blocks addr (inc_tag oldv)) (announced n s)) eqn:Hex.
    + rewrite run_bind, scan_run by done. rewrite inc_tag_word by done.
      pose proof (tinc_range (tagno oldv)). pose proof (tinc_pos (tagno oldv)).
      destruct (find_free_total (S n) (announced n s) newv addr (tinc (tagno oldv)))
        as [r Hr]; [done|lia|rewrite length_announced; lia..|].
      rewrite Hr. exists r. split; [done|].
      apply find_free_sound in Hr as (t & Ht & Hodd & -> & Hfree); [|done|lia|done].
      assert (Z.odd t = true ∨ Z.odd t = false ∧ Z.odd (tagno oldv) = false) as Hcase.
      { rewrite Hodd, tinc_odd. destruct (Z.odd (tagno oldv)); auto. }
      destruct Hcase as [Ho|[He Heo]].
      * rewrite odd_pred by done. apply fresh_of_word; [done|lia|done|].
        intros ann Hin Ha. split; [by apply Hfree|by left].
      * assert (Z.even t = true) as Hev by (by rewrite <-Z.negb_odd, He).
        apply Z.even_spec in Hev as [c ->].
        assert (Z.lor (2 * c) 1 = 2 * c + 1) as ->.
        { replace (2 * c) with (c * 2 ^ 1) by lia. by apply lor_disjoint. }
        destruct Hpre as [Hpan|Hpre]; [by rewrite testbit48, Heo in Hpan|].
        apply fresh_of_word; [done|lia|done|]. intros ann Hin Ha.
        assert (Z.odd (2 * c + 1) = true) as Ho by (rewrite Z.odd_spec; by exists c).
        split; [|by left]. intros Heq.
        destruct (Hpre ann Hin Ha) as [Hp _]. rewrite testbit48, Heq in Hp. congruence.
    + exists (Z.lor newv (Z.land (inc_tag oldv) (not64 panic_bit))).
      split; [done|]. by apply next_unblocked.
  - exists (Z.lor newv (Z.land (inc_tag oldv) (not64 panic_bit))).
    split; [done|]. apply next_no_scan; try done. intros ann Hin Ha.
    destruct Hpre as [Hp|Hpre]; [|by apply Hpre].
    unfold must_scan in Hms. apply orb_false_iff in Hms as [_ Hms].
    rewrite panic_bit_eq in Hms. congruence.
Qed.

(** C24: [next] is called with an old word whose panic bit is set, or while
    every tag announced for the address is without the panic bit and, if it is
    in the old word's half of the range, not later than the old one
    ([next_pre]).  Then, for any number of workers below 2^15 - 2, it
    terminates (its search loop included) with a word that holds the new value
    and whose tag no thread announces for this address: the ABA protection of
    [tagged].  Either that word is panicked or no announcement for the address
    is later than it in its half; so while the announced tags are all without
    the panic bit, the next call is safe again. *)
Theorem next_fresh n s oldv newv addr :
  wf n s → Forall is_w64 (announced n s) → Z.of_nat n < 32766 →
  is_w64 oldv → 0 ≤ newv < 2 ^ 48 →
  next_pre (announced n s) addr oldv →
  ∃ r, run (next n oldv newv addr) s = Ok r s ∧ fresh_tag (announced n s) addr newv r ∧
    ((∀ ann, ann ∈ announced n s → same_addr addr ann = true → panicked ann = false) →
     next_pre (announced n s) addr r).
Proof.
  intros Hwf Hanns Hn Hold Hv Hpre.
  destruct (next_fresh_word n s oldv newv addr) as (r & Hrun & Hr); [done..|]. exists r. split; [done|]. split; [done|].
  intros Hplain. destruct Hr as (_ & _ & _ & [Hp|Hok]); [by left|]. right. intros ann Hin Ha. split; [by apply Hplain|by apply Hok].
Qed.

Theorem next_fresh_witness :
  ∃ r, run (next 2 (tagged.init 7) 9 4096) (announce_write.init 2) = Ok r (announce_write.init 2) ∧
       fresh_tag (announced 2 (announce_write.init 2)) 4096 9 r ∧
       next_pre (announced 2 (announce_write.init 2)) 4096 r.
Proof.
  assert (∀ ann, ann ∈ announced 2 (announce_write.init 2) → ann = 0) as H0.
  { intros ann Hin. change (ann ∈ [0; 0]) in Hin. rewrite !elem_of_cons, elem_of_nil in Hin. tauto. }
  destruct (next_fresh 2 (announce_write.init 2) (tagged.init 7) 9 4096) as (r & Hrun & Hf & Hn);
    [reflexivity|by repeat constructor|lia|by vm_compute|lia| |].
  { right. intros ann Hin _. rewrite (H0 ann Hin). split; [reflexivity|intros _; vm_compute; discriminate]. }
  exists r. split; [exact Hrun|]. split; [exact Hf|]. apply Hn. intros ann Hin _. by rewrite (H0 ann Hin).
Defined.

(** The same word over and over: [k] successive writes of [newv]. *)
Fixpoint nexts (n k : nat) (oldv newv addr : Z) : prog announce_write.state Z :=
  match k with
  | O => mret oldv
  | S k' => r ← next n oldv newv addr; nexts n k' r newv addr
  end.

(** A history of one location with two announcing workers.  Worker 0
    announces the location while the count is 5 and holds it until the count
    has wrapped around; worker 1 then announces the (panicked) word [b] it
    reads and stalls; worker 0 withdraws; the location is written 32767 more
    times.  The result is the pair of the announced word and the last one. *)
Definition stalled_writer (newv addr : Z) : prog announce_write.state (Z * Z) :=
  a ← nexts 2 4 (tagged.init newv) newv addr;
  announce_write.set 0 (add_tag a addr) ;;
  b ← nexts 2 (Z.to_nat 32763) a newv addr;
  announce_write.set 1 (add_tag b addr) ;;
  announce_write.clear 0 ;;
  c ← nexts 2 (Z.to_nat 32767) b newv addr;
  mret (b, c).

Lemma nexts_add n j k oldv newv addr s :
  run (nexts n (j + k) oldv newv addr) s =
  match run (nexts n j oldv newv addr) s with
  | Ok r s' => run (nexts n k r newv addr) s'
  | Err e => Err e
  end.
Proof.
  revert oldv s. induction j as [|j IH]; intros oldv s; [done|].
  cbn [nexts plus]. rewrite !run_bind. by destruct (run (next n oldv newv addr) s).
Qed.

(** An unpanicked word counts up as long as it neither wraps around nor meets
    an announced tag above it in its half of the range. *)
Lemma nexts_plain n k t newv addr s :
  wf n s → Forall is_w64 (announced n s) → 0 ≤ newv < 2 ^ 48 →
  0 ≤ t → Z.odd t = false → t + 2 * Z.of_nat k < 65536 →
  (∀ ann, ann ∈ announced n s → tagno ann ≤ t + 1 ∨
     t + 2 * Z.of_nat k < 32768 ∧ 32768 ≤ tagno ann) →
  run (nexts n k (t * 2 ^ 48 + newv) newv addr) s =
    Ok ((t + 2 * Z.of_nat k) * 2 ^ 48 + newv) s.
Proof.
  intros Hwf Hanns Hv. revert t. induction k as [|k IH]; intros t Ht Hodd Hk Hann.
  { simpl. do 2 f_equal. lia. }
  assert (run (next n (t * 2 ^ 48 + newv) newv addr) s = Ok ((t + 2) * 2 ^ 48 + newv) s) as Hn.
  { assert (inc_tag (t * 2 ^ 48 + newv) = (t + 2) * 2 ^ 48) as Hinc.
    { rewrite inc_tag_word, tagno_word by (done || (unfold is_w64; lia)). f_equal.
      unfold tinc. rewrite Z.mod_small by lia. case_bool; lia. }
    assert (existsb (blocks addr ((t + 2) * 2 ^ 48)) (announced n s) = false) as Hex.
    { apply not_true_iff_false. intros (ann & Hin & Hb)%existsb_exists.
      apply list_elem_of_In in Hin. rewrite Forall_forall in Hanns.
      rewrite blocks_tagno in Hb by (auto || lia). specialize (Hann ann Hin).
      replace (Z.odd (t + 2)) with false in Hb by (by rewrite Z.odd_add, Hodd).
      simpl in Hb. apply andb_true_iff in Hb as [[_ Hhalf]%andb_true_iff Hb%Z.leb_le].
      destruct Hann as [Hann|[Hlow Hann]]; [lia|].
      rewrite same_half_tagno, tagno_mul in Hhalf by (auto || (unfold is_w64; lia)).
      rewrite (proj2 (Z.leb_le 32768 (tagno ann))), (proj2 (Z.leb_gt 32768 (t + 2))) in Hhalf by lia.
      done. }
    unfold next. rewrite Hinc. rewrite run_bind.
    assert (run (if must_scan (t * 2 ^ 48 + newv) ((t + 2) * 2 ^ 48)
       then anns ← scan n; mret (existsb (blocks addr ((t + 2) * 2 ^ 48)) anns)
       else mret false) s = Ok false s) as ->.
    { destruct (must_scan _ _); [|done]. rewrite run_bind, scan_run by done. simpl. by rewrite Hex. }
    simpl. rewrite clear_panic by lia.
    replace (Z.odd (t + 2)) with false by (by rewrite Z.odd_add, Hodd).
    rewrite Z.sub_0_r, Z.lor_comm. rewrite lor_disjoint by lia. done. }
  cbn [nexts]. rewrite run_bind, Hn. rewrite IH; [do 2 f_equal; lia|lia| |lia|].
  - by rewrite Z.odd_add, Hodd.
  - intros ann Hin. destruct (Hann ann Hin) as [|]; [left|right]; lia.
Qed.

(** The two laps of the history: to the first wrap-around, which panics
    because of worker 0, and from there all the way round. *)
Definition word3 : Z := 3 * 2 ^ 48 + 8192.
Definition ann_state1 : announce_write.state :=
  <[0%nat := 10 * 2 ^ 48 + 4096]> (announce_write.init 2).
Definition ann_state2 : announce_write.state :=
  <[16%nat := 3 * 2 ^ 48 + 4096]> (announce_write.init 2).

Ltac plain_lap :=
  rewrite nexts_plain;
  [|reflexivity|apply (bool_decide_unpack _); vm_compute; exact I|lia|lia|reflexivity|lia
   |intros ann Hin;
    match type of Hin with ann ∈ ?l => let l' := eval vm_compute in l in change (ann ∈ l') in Hin end;
    rewrite !elem_of_cons, elem_of_nil in Hin; destruct_or?; subst; first [by left; vm_compute|right; split; [lia|by vm_compute]]].

Lemma lap1 : run (nexts 2 (Z.to_nat 32763) (10 * 2 ^ 48 + 8192) 8192 4096) ann_state1 =
  Ok word3 ann_state1.
Proof.
  assert (∃ k, Z.to_nat 32763 = (k + 1)%nat ∧ Z.of_nat k = 32762) as (k & -> & Hk)
    by (exists (Z.to_nat 32762); lia).
  rewrite nexts_add. plain_lap. rewrite Hk. vm_compute. reflexivity.
Qed.

Lemma lap2 : run (nexts 2 (Z.to_nat 32767) word3 8192 4096) ann_state2 = Ok word3 ann_state2.
Proof.
  assert (∃ k, Z.to_nat 32767 = (1 + (k + 1))%nat ∧ Z.of_nat k = 32765) as (k & -> & Hk)
    by (exists (Z.to_nat 32765); lia).
  rewrite nexts_add.
  assert (run (nexts 2 1 word3 8192 4096) ann_state2 = Ok (4 * 2 ^ 48 + 8192) ann_state2) as ->
    by (vm_compute; reflexivity).
  rewrite nexts_add. plain_lap. rewrite Hk. vm_compute. reflexivity.
Qed.

Lemma stalled_writer_run :
  run (stalled_writer 8192 4096) (announce_write.init 2) = Ok (word3, word3) ann_state2.
Proof.
  unfold stalled_writer.
  assert (run (nexts 2 4 (tagged.init 8192) 8192 4096) (announce_write.init 2) =
    Ok (10 * 2 ^ 48 + 8192) (announce_write.init 2)) as H1 by (vm_compute; reflexivity).
  assert (run (announce_write.set 0 (add_tag (10 * 2 ^ 48 + 8192) 4096)) (announce_write.init 2) =
    Ok tt ann_state1) as H2 by (vm_compute; reflexivity).
  assert (run (announce_write.set 1 (add_tag word3 4096) ;; announce_write.clear 0) ann_state1 =
    Ok tt ann_state2) as H3 by (vm_compute; reflexivity).
  rewrite run_bind, H1, run_bind, H2, run_bind, lap1.
  rewrite run_bind in H3. rewrite run_bind.
  destruct (run (announce_write.set 1 (add_tag word3 4096)) ann_state1); [|done].
  rewrite run_bind, H3, run_bind, lap2. reflexivity.
Qed.

(** C25: the protection fails for an announced panicked tag: in that history
    the location comes back to the very word that worker 1 still announces,
    so its compare-and-swap would succeed 32767 writes late, although the
    header of the file says that tags are never reused while a thread has a
    pointer to them.  (The search loop compares the announced tag with the
    new count before or-ing in the panic bit.) *)
Theorem tag_reused_while_announced :
  match run (stalled_writer 8192 4096) (announce_write.init 2) with
  | Ok (b, c) s => c = b ∧ add_tag c 4096 ∈ announced 2 s ∧
                   same_addr 4096 (add_tag c 4096) = true
  | Err _ => False
  end.
Proof. rewrite stalled_writer_run. vm_compute. split; [done|]. split; [|done]. right. left. Qed.

(** ** The null word

    A panicked word counts up as long as an announced tag of its half is not
    below it. *)
Lemma panic_word t newv : Z.odd t = true → 0 ≤ newv < 2 ^ 48 →
  Z.lor newv (Z.lor (t * 2 ^ 48) panic_bit) = t * 2 ^ 48 + newv.
Proof.
  intros Hodd Hv. change panic_bit with (1 * 2 ^ 48).
  rewrite <-!Z.shiftl_mul_pow2, <-Z.shiftl_lor, odd_pred by (done || lia).
  rewrite Z.lor_comm, Z.shiftl_mul_pow2 by lia. by apply lor_disjoint.
Qed.

Lemma nexts_panicked n k t newv addr s ann :
  wf n s → Forall is_w64 (announced n s) → 0 ≤ newv < 2 ^ 48 →
  32768 ≤ t → Z.odd t = true → t + 2 * Z.of_nat k < 65536 →
  ann ∈ announced n s → same_addr addr ann = true → t + 2 * Z.of_nat k ≤ tagno ann + 1 →
  (∀ a, a ∈ announced n s → Z.odd (tagno a) = false) →
  run (nexts n k (t * 2 ^ 48 + newv) newv addr) s =
    Ok ((t + 2 * Z.of_nat k) * 2 ^ 48 + newv) s.
Proof.
  intros Hwf Hanns Hv. revert t. induction k as [|k IH]; intros t Ht Hodd Hk Hin Hsame Hle Heven.
  { simpl. do 2 f_equal. lia. }
  rewrite Forall_forall in Hanns. pose proof (tagno_range ann (Hanns _ Hin)) as Hr.
  assert (Z.odd (t + 2) = true) as Hodd2 by (by rewrite Z.odd_add, Hodd).
  assert (run (next n (t * 2 ^ 48 + newv) newv addr) s = Ok ((t + 2) * 2 ^ 48 + newv) s) as Hn.
  { assert (inc_tag (t * 2 ^ 48 + newv) = (t + 2) * 2 ^ 48) as Hinc.
    { rewrite inc_tag_word, tagno_word by (done || (unfold is_w64; lia)). f_equal.
      unfold tinc. rewrite Z.mod_small by lia. case_bool; lia. }
    assert (existsb (blocks addr ((t + 2) * 2 ^ 48)) (announced n s) = true) as Hex.
    { apply existsb_exists. exists ann. split; [by apply list_elem_of_In|].
      rewrite blocks_tagno by (auto || lia).
      rewrite Hsame, Hodd2, same_half_tagno, tagno_mul by (auto || (unfold is_w64; lia)).
      rewrite (proj2 (Z.leb_le 32768 (t + 2))) by lia.
      rewrite (proj2 (Z.leb_le 32768 (tagno ann))) by lia. simpl. apply Z.leb_le. lia. }
    assert (existsb (announces addr ((t + 2) * 2 ^ 48)) (announced n s) = false) as Hfree.
    { apply not_true_iff_false. intros (a & Ha & Hb)%existsb_exists. apply list_elem_of_In in Ha.
      rewrite (announces_tagno _ _ a (t + 2)) in Hb by (auto || lia).
      apply andb_true_iff in Hb as [_ Hb%Z.eqb_eq]. specialize (Heven a Ha). congruence. }
    unfold next. rewrite Hinc.
    assert (must_scan (t * 2 ^ 48 + newv) ((t + 2) * 2 ^ 48) = true) as ->.
    { unfold must_scan. apply orb_true_iff. right. rewrite panic_bit_eq, testbit48, tagno_word by lia.
      by rewrite Hodd. }
    rewrite !run_bind, scan_run by done. cbn [run mret prog_ret]. rewrite Hex.
    rewrite run_bind, scan_run by done. cbn [find_free]. rewrite Hfree. cbn [negb].
    by rewrite panic_word. }
  cbn [nexts]. rewrite run_bind, Hn. rewrite IH; [do 2 f_equal; lia|lia|done|lia|done|done|lia|done].
Qed.

(** Null is stored over and over while worker 1 still announces a word from
    the end of the count's range. *)
Definition null_writer (addr : Z) : prog announce_write.state (Z * Z) :=
  a ← nexts 2 (Z.to_nat 32766) (tagged.init 0) 0 addr;
  announce_write.set 1 (add_tag a addr) ;;
  b ← nexts 2 (Z.to_nat 32768) a 0 addr;
  mret (a, b).
Definition ann_state3 : announce_write.state :=
  <[16%nat := 65534 * 2 ^ 48 + 4096]> (announce_write.init 2).

Lemma null_lap : run (nexts 2 (Z.to_nat 32768) (65534 * 2 ^ 48 + 0) 0 4096) ann_state3 = Ok 0 ann_state3.
Proof.
  assert (∃ j k, Z.to_nat 32768 = (1 + (j + (1 + (k + 1))))%nat ∧ Z.of_nat j = 16382 ∧ Z.of_nat k = 16383)
    as (j & k & -> & Hj & Hk) by (exists (Z.to_nat 16382), (Z.to_nat 16383); lia).
  rewrite nexts_add.
  assert (run (nexts 2 1 (65534 * 2 ^ 48 + 0) 0 4096) ann_state3 = Ok (2 * 2 ^ 48 + 0) ann_state3) as ->
    by (vm_compute; reflexivity).
  rewrite nexts_add. plain_lap. rewrite Hj. rewrite nexts_add.
  assert (run (nexts 2 1 ((2 + 2 * 16382) * 2 ^ 48 + 0) 0 4096) ann_state3 =
    Ok (32769 * 2 ^ 48 + 0) ann_state3) as -> by (vm_compute; reflexivity).
  rewrite nexts_add.
  rewrite (nexts_panicked 2 k 32769 0 4096 ann_state3 (65534 * 2 ^ 48 + 4096));
    [|reflexivity|apply (bool_decide_unpack _); vm_compute; exact I|lia|lia|reflexivity|lia
     |vm_compute; right; left|reflexivity|rewrite Hk; vm_compute; discriminate|].
  - rewrite Hk. vm_compute. reflexivity.
  - intros a Ha. match type of Ha with a ∈ ?l => let l' := eval vm_compute in l in change (a ∈ l') in Ha end.
    rewrite !elem_of_cons, elem_of_nil in Ha. destruct_or?; subst; by vm_compute.
Qed.

(** With null as the value, the word that [next] gives can be 0: when the
    last panicked tag of the range is passed and the announcement that caused
    the panic is of the other half, the count wraps to 1, its panic bit is
    cleared, and tag and value are both 0.  A load of that word inside a lock
    commits 0 to the log, which its [commit_value] asserts it never does. *)
Theorem null_word : run (null_writer 4096) (announce_write.init 2) = Ok (65534 * 2 ^ 48, 0) ann_state3.
Proof.
  unfold null_writer. rewrite run_bind.
  assert (run (nexts 2 (Z.to_nat 32766) (2 * 2 ^ 48 + 0) 0 4096) (announce_write.init 2) =
    Ok (65534 * 2 ^ 48 + 0) (announce_write.init 2)) as H.
  { plain_lap. by do 2 f_equal. }
  change (2 * 2 ^ 48 + 0) with (tagged.init 0) in H. rewrite H. rewrite run_bind.
  assert (run (announce_write.set 1 (add_tag (65534 * 2 ^ 48 + 0) 4096)) (announce_write.init 2) =
    Ok tt ann_state3) as -> by (vm_compute; reflexivity).
  rewrite run_bind, null_lap. reflexivity.
Qed.
