(* ===== verification/Timestamps.v ===== *)
(** * Timestamps: the global stamp strategies (include/verlib/timestamps.h).

    One Module per struct, with its state as a Record and its member
    functions as programs; [tid] is worker_id().  The busy-wait loops
    [for (volatile int i ...) {}] have no effect and are left out, the
    adaptive delays that size them are kept. *)

From stdpp Require Import prelude list gmap.
From Stdlib Require Import ZArith Lia.
From S2P Require Import Prelude Conc.
Local Open Scope Z_scope.

(** ** TL2 stamps *)
Module timestamp_tl2.
Record state := State { stamp : Z; last_ts : gmap nat Z }.
Definition stamp_c : cell state Z :=
  total_cell stamp (λ v s, State v (last_ts s)).
Definition last_ts_c (tid : nat) : cell state Z :=
  thread_local last_ts (λ m s, State (stamp s) m) 0 tid.

Definition thread_bits : Z := 10.
Definition step : Z := Z.shiftl 1 thread_bits.
Definition mask : Z := step - 1.
Definition init : state := State step ∅.

Definition get_stamp : prog state Z := load stamp_c.

Definition less (a b : Z) : bool := Z.shiftr a thread_bits <? Z.shiftr b thread_bits.
Definition equal (a b : Z) : bool :=
  (Z.shiftr a thread_bits =? Z.shiftr b thread_bits) && negb (a =? b).

Definition increment_stamp (tid : nat) (ts : Z) : prog state Z :=
  let id := Z.of_nat tid in
  let new_ts := Z.lor (Z.land (s64 (ts + step)) (Z.lnot mask)) id in
  cur ← load stamp_c;
  when (ts =? cur) (cas stamp_c ts new_ts ;; mret tt) ;;
  store (last_ts_c tid) new_ts ;;
  mret new_ts.

Definition get_read_stamp (tid : nat) : prog state Z := fail Abort.

Definition get_write_stamp (tid : nat) : prog state Z :=
  ts ← load stamp_c;
  last ← load (last_ts_c tid);
  if ts =? last then increment_stamp tid ts
  else
    let id := Z.of_nat tid in
    let new_ts := Z.lor (Z.land ts (Z.lnot mask)) id in
    store (last_ts_c tid) new_ts ;;
    mret new_ts.
End timestamp_tl2.

(** ** The hardware clock

    The time-stamp counter belongs to the processor: [tsc] is its 64-bit
    value, and only the environment advances it. *)
Module hw.
Record state := State { tsc : Z }.
Definition tsc_c : cell state Z := total_cell tsc (λ v s, State v).

(** the two halves of the counter, with the top bit of the high half cleared *)
Definition combine_tsc (hi lo : Z) : Z :=
  Z.lor (Z.shiftl (Z.land hi (2 ^ 31 - 1)) 32) lo.
Definition rdtsc : prog state Z :=
  t ← load tsc_c; mret (combine_tsc (t / 2 ^ 32 mod 2 ^ 32) (t mod 2 ^ 32)).

(** while (ts == rdtsc()) {} *)
Definition wait_past (fuel : nat) (ts : Z) : prog state unit :=
  iter fuel (λ _ : unit, t ← rdtsc; mret (if ts =? t then inl tt else inr tt)) tt.
End hw.

Module timestamp_read_hw.
Import hw.
Definition get_stamp : prog state Z := rdtsc.
Definition less (a b : Z) : bool := a <? b.
Definition equal (a b : Z) : bool := a =? b.
Definition get_read_stamp (fuel : nat) (tid : nat) : prog state Z :=
  ts ← rdtsc; wait_past fuel ts ;; mret ts.
Definition get_write_stamp (tid : nat) : prog state Z := rdtsc.
End timestamp_read_hw.

Module timestamp_write_hw.
Import hw.
Definition get_stamp : prog state Z := rdtsc.
Definition less (a b : Z) : bool := a <? b.
Definition equal (a b : Z) : bool := a =? b.
Definition get_read_stamp (tid : nat) : prog state Z := rdtsc.
Definition get_write_stamp (fuel : nat) (tid : nat) : prog state Z :=
  ts ← rdtsc; wait_past fuel ts ;; mret (s64 (ts + 1)).
End timestamp_write_hw.

(** ** Stamp incremented by readers *)
Module timestamp_read.
Record state := State { stamp : Z; delay : Z; read_delay : gmap nat Z }.
Definition stamp_c : cell state Z :=
  total_cell stamp (λ v s, State v (delay s) (read_delay s)).
Definition read_delay_c (tid : nat) : cell state Z :=
  thread_local read_delay (λ m s, State (stamp s) (delay s) m) 1 tid.
Definition init (d : Z) : state := State 1 d ∅.

Definition less (a b : Z) : bool := a <? b.
Definition equal (a b : Z) : bool := a =? b.
Definition get_stamp : prog state Z := load stamp_c.

Definition increment_stamp (tid : nat) (ts : Z) : prog state unit :=
  d ← gets delay;
  cur ← load stamp_c;
  if d =? -1 then
    when (cur =? ts)
      (old ← fetch_add stamp_c 1;
       rd ← load (read_delay_c tid);
       if old =? ts then when (2 <=? rd) (store (read_delay_c tid) (rd / 2))
       else when (rd <? 256) (store (read_delay_c tid) (rd * 2)))
  else when (cur =? ts) (fetch_add stamp_c 1 ;; mret tt).

Definition get_read_stamp (tid : nat) : prog state Z :=
  ts ← load stamp_c;
  increment_stamp tid ts ;;
  mret ts.

Definition get_write_stamp (tid : nat) : prog state Z := load stamp_c.
End timestamp_read.

(** ** Stamp incremented by writers *)
Module timestamp_write.
Record state := State { stamp : Z; delay : Z; write_delay : gmap nat Z }.
Definition stamp_c : cell state Z :=
  total_cell stamp (λ v s, State v (delay s) (write_delay s)).
Definition write_delay_c (tid : nat) : cell state Z :=
  thread_local write_delay (λ m s, State (stamp s) (delay s) m) 1 tid.
Definition init (d : Z) : state := State 2 d ∅.

Definition less (a b : Z) : bool := a <? b.
Definition equal (a b : Z) : bool := a =? b.
Definition get_stamp : prog state Z := load stamp_c.
Definition get_read_stamp (tid : nat) : prog state Z := load stamp_c.

Definition get_write_stamp (tid : nat) : prog state Z :=
  ts ← load stamp_c;
  d ← gets delay;
  cur ← load stamp_c;
  (if d =? -1 then
     when (cur =? ts)
       (old ← fetch_add stamp_c 1;
        wd ← load (write_delay_c tid);
        if old =? ts then when (2 <=? wd) (store (write_delay_c tid) (wd / 2))
        else when (wd <? 256) (store (write_delay_c tid) (wd * 2)))
   else when (cur =? ts) (fetch_add stamp_c 1 ;; mret tt)) ;;
  mret (s64 (ts + 1)).
End timestamp_write.

(** ** Several counters, one cache line each *)
Module timestamp_multiple.
Definition slots : nat := 4.
Definition gap : nat := 16.
Record state := State { stamps : list Z }.
Definition stamp_c (i : nat) : cell state Z :=
  Cell (λ s, match stamps s !! i with Some v => inr v | None => inl OutOfBounds end)
       (λ v s, State (<[i := v]> (stamps s))).
Definition init : state :=
  State (fold_right (λ i l, <[(i * gap)%nat := 1]> l) (replicate (slots * gap) 0) (seq 0 slots)).

Definition less (a b : Z) : bool := a <? b.
Definition equal (a b : Z) : bool := a =? b.

Fixpoint sum_from (idxs : list nat) (total : Z) : prog state Z :=
  match idxs with
  | [] => mret total
  | i :: idxs' => v ← load (stamp_c (i * gap)); sum_from idxs' (s64 (total + v))
  end.
Definition get_write_stamp (tid : nat) : prog state Z := sum_from (seq 0 slots) 0.

Definition get_read_stamp (tid : nat) : prog state Z :=
  ts ← get_write_stamp tid;
  let i := (tid mod slots)%nat in
  tsl ← load (stamp_c (i * gap));
  cur ← get_write_stamp tid;
  when (ts =? cur) (cas (stamp_c (i * gap)) tsl (s64 (tsl + 1)) ;; mret tt) ;;
  mret ts.
End timestamp_multiple.

(** ** A stamp that never moves *)
Module timestamp_no_inc.
Record state := State { stamp : Z }.
Definition stamp_c : cell state Z := total_cell stamp (λ v _, State v).
Definition init : state := State 1.
Definition less (a b : Z) : bool := a <? b.
Definition equal (a b : Z) : bool := a =? b.
Definition get_stamp : prog state Z := load stamp_c.
Definition get_read_stamp (tid : nat) : prog state Z := load stamp_c.
Definition get_write_stamp (tid : nat) : prog state Z := load stamp_c.
End timestamp_no_inc.

(** ** Odd in write mode, even in read mode

    The strategy when no other is asked for.  It has no [less] and no [equal],
    which the versioned pointers call, so only programs without versioned
    pointers can be built with it. *)
Module timestamp_read_write.
Record state := State { stamp : Z; delay : Z; adaptive_backoff : gmap nat Z }.
Definition stamp_c : cell state Z :=
  total_cell stamp (λ v s, State v (delay s) (adaptive_backoff s)).
Definition backoff_c (tid : nat) : cell state Z :=
  thread_local adaptive_backoff (λ m s, State (stamp s) (delay s) m) 1 tid.
Definition init (d : Z) : state := State 1 d ∅.

Definition get_stamp : prog state Z := load stamp_c.

(** try to move the stamp from [s] to [s+1] and adapt the backoff *)
Definition advance (tid : nat) (s : Z) : prog state unit :=
  ok ← cas stamp_c s (s64 (s + 1));
  b ← load (backoff_c tid);
  if (ok : bool) then when (2 <=? b) (store (backoff_c tid) (b / 2))
  else when (b <? 256) (store (backoff_c tid) (b * 2)).

Definition get_write_stamp (tid : nat) : prog state Z :=
  s ← load stamp_c;
  if Z.rem s 2 =? 1 then mret s
  else
    cur ← load stamp_c;
    if negb (s =? cur) then mret s
    else advance tid s ;; mret (s64 (s + 1)).

Definition get_read_stamp (tid : nat) : prog state Z :=
  s ← load stamp_c;
  if Z.rem s 2 =? 0 then mret s
  else
    cur ← load stamp_c;
    if negb (s =? cur) then mret s
    else advance tid s ;; mret s.

Definition current : prog state Z := load stamp_c.
End timestamp_read_write.

(** const TS zero_stamp, and the stamp of a version that is not stamped yet *)
Definition zero_stamp : Z := 1.
Definition tbd : Z := (2 ^ 63 - 1) / 4.

Lemma tbd_value : tbd = 2 ^ 61 - 1.
Proof. reflexivity. Qed.

(** ** What a snapshot needs of a clock

    [rd] is taken by a snapshot when it starts, [wr] by a writer after it has
    installed its version.  In every interleaving, with [adv] what any thread
    may do to the clock:
    - a write stamp taken after a snapshot took its read stamp is later than
      it, so the snapshot keeps not seeing that write;
    - a write stamp taken before the snapshot started is not later, so the
      snapshot sees every completed write;
    - read stamps lie between the stamp of initial versions and the mark of
      unstamped ones, and no write stamp is that mark. *)
Definition only_fuel (e : err) : Prop := e = OutOfFuel.

Class SnapshotClock {S : Type} (ok : S → Prop) (adv : relation S) (less : Z → Z → bool)
    (rd wr : nat → prog S Z) : Prop := {
  clock_preorder :: PreOrder adv;
  clock_read_guarantee : ∀ tid s, ok s → wprg ok adv adv only_fuel (rd tid) (λ _ _, True) s;
  clock_write_guarantee : ∀ tid s, ok s → wprg ok adv adv only_fuel (wr tid) (λ _ _, True) s;
  clock_write_after_read : ∀ t t' s0 r s1 s2 w s3,
    ok s0 → ok s2 → erun ok adv (rd t) s0 r s1 → adv s1 s2 → erun ok adv (wr t') s2 w s3 →
    less r w = true;
  clock_read_after_write : ∀ t t' s0 w s1 s2 r s3,
    ok s0 → ok s2 → erun ok adv (wr t) s0 w s1 → adv s1 s2 → erun ok adv (rd t') s2 r s3 →
    less r w = false;
  clock_read_range : ∀ tid s, ok s → wprg ok adv adv only_fuel (rd tid)
    (λ r _, less r zero_stamp = false ∧ less r tbd = true ∧ r ≠ -1) s;
  clock_write_range : ∀ tid s, ok s → wprg ok adv adv only_fuel (wr tid) (λ w _, w ≠ tbd) s;
}.

(** What the clock promises to one operation of a client.  A stamp is [issued]
    when every write stamp asked for from now on is later than it. *)
Section clock_client.
Context {S : Type} {ok : S → Prop} {adv : relation S} {less : Z → Z → bool}.
Context {rd wr : nat → prog S Z} `{!SnapshotClock ok adv less rd wr}.

Definition issued (r : Z) (s : S) : Prop :=
  ∀ t s1 w s2, adv s s1 → ok s1 → erun ok adv (wr t) s1 w s2 → less r w = true.

Lemma issued_adv r s s' : issued r s → adv s s' → issued r s'.
Proof. intros Hr Ha t s1 w s2 Ha1. apply Hr. by etrans. Qed.

Lemma clock_issue t s : ok s → wprg ok adv adv only_fuel (rd t)
  (λ r s', issued r s' ∧ less r zero_stamp = false ∧ less r tbd = true ∧ r ≠ -1) s.
Proof.
  intros Hs. eapply wprg_of_erun; [by apply clock_read_range|]. intros r s' Hr Hrun.
  split; [|done]. intros t' s1 w s2 Ha Hs1 Hw.
  exact (clock_write_after_read t t' s r s' s1 w s2 Hs Hs1 Hrun Ha Hw).
Qed.

Lemma clock_later (rs : Z → Prop) t s : ok s → (∀ r, rs r → issued r s) →
  wprg ok adv adv only_fuel (wr t) (λ w _, (∀ r, rs r → less r w = true) ∧ w ≠ tbd) s.
Proof.
  intros Hs Hr. eapply wprg_of_erun; [by apply clock_write_range|]. intros w s' Hw Hrun.
  split; [|done]. intros r Hrr. eapply (Hr r Hrr t s); [reflexivity|done..].
Qed.
End clock_client.

(** The strategies meet it through bounds on a monotone reading [now] of the
    clock: either reads ([a = 1]) or writes ([b = 1]) move it. *)
Section bounds.
Context {S : Type} (now : S → Z) (ok : S → Prop) (adv : relation S).
Context (rd wr : nat → prog S Z) (a b : Z).
Context `{!PreOrder adv} (adv_now : ∀ s s', adv s s' → now s ≤ now s').
#[local] Abbreviation spec p Q s := (wprg ok adv adv only_fuel p Q s).

Lemma clock_of_bounds :
  1 ≤ a + b → 0 ≤ a → 0 ≤ b → (∀ s, ok s → zero_stamp ≤ now s < tbd) →
  (∀ tid s, ok s → spec (rd tid) (λ r s', now s ≤ r ∧ r + a ≤ now s') s) →
  (∀ tid s, ok s → spec (wr tid) (λ w s', now s + b ≤ w ≤ now s') s) →
  SnapshotClock ok adv Z.ltb rd wr.
Proof.
  intros Hab Ha Hb Hok Hrd Hwr. split.
  - done.
  - intros. eapply wprg_mono; [|by apply Hrd]. done.
  - intros. eapply wprg_mono; [|by apply Hwr]. done.
  - intros t t' s0 r s1 s2 w s3 H0 H2 Hr Hadv Hw. apply adv_now in Hadv.
    apply (wprg_erun _ _ _ _ _ _ _ _ _ (Hrd t s0 H0)) in Hr.
    apply (wprg_erun _ _ _ _ _ _ _ _ _ (Hwr t' s2 H2)) in Hw.
    apply Z.ltb_lt. lia.
  - intros t t' s0 w s1 s2 r s3 H0 H2 Hw Hadv Hr. apply adv_now in Hadv.
    apply (wprg_erun _ _ _ _ _ _ _ _ _ (Hwr t s0 H0)) in Hw.
    apply (wprg_erun _ _ _ _ _ _ _ _ _ (Hrd t' s2 H2)) in Hr.
    apply Z.ltb_ge. lia.
  - intros tid s Hs. eapply wprg_mono; [|apply wprg_ok; [done|by apply Hrd]].
    intros r s' [Hs' Hr]. apply Hok in Hs, Hs'. unfold zero_stamp in *. rewrite Z.ltb_ge, Z.ltb_lt. lia.
  - intros tid s Hs. eapply wprg_mono; [|apply wprg_ok; [done|by apply Hwr]].
    intros w s' [Hs' Hw]. apply Hok in Hs'. lia.
Qed.
End bounds.

(** The usual interference: the clock does not go back. *)
Definition clock_adv {S} (now : S → Z) (s s' : S) : Prop := now s ≤ now s'.
#[export] Instance clock_adv_preorder {S} (now : S → Z) : PreOrder (clock_adv now).
Proof. split; unfold clock_adv; [intros ?; lia|intros ?????; lia]. Qed.

Ltac clock_step :=
  match goal with
  | |- ∀ s1, _ → _ → _ => let s' := fresh "s" in intros s' ? ?; cbn
  | |- _ ∧ (_ → _) => split; [|intros ?]
  | |- context [?x =? ?y] => destruct (Z.eqb_spec x y)
  | |- context [?x <=? ?y] => destruct (Z.leb_spec x y)
  | |- context [?x <? ?y] => destruct (Z.ltb_spec x y)
  | |- context [decide ?P] => destruct (decide P)
  end.
(** Symbolic execution of a clock operation under interference. *)
Ltac clock_auto adv :=
  repeat (clock_step; rg_unfold; unfold adv in *; cbn in *);
  rewrite ?s64_small in * by lia; try lia.

(** *** timestamp_read *)
Module read_clock.
Import timestamp_read.
Definition ok (s : state) : Prop := 1 ≤ stamp s < 2 ^ 61 - 1.

Lemma read_is_clock : SnapshotClock ok (clock_adv stamp) less get_read_stamp get_write_stamp.
Proof.
  apply (clock_of_bounds stamp ok _ _ _ 1 0); [done|lia..|by intros s; unfold ok, zero_stamp; rewrite tbd_value| |].
  - intros tid s Hok. unfold get_read_stamp, increment_stamp, ok in *. rg_unfold.
    clock_auto @clock_adv.
  - intros tid s Hok. unfold get_write_stamp, ok in *. rg_unfold. clock_auto @clock_adv.
Qed.
End read_clock.

(** *** timestamp_write *)
Module write_clock.
Import timestamp_write.
Definition ok (s : state) : Prop := 1 ≤ stamp s < 2 ^ 61 - 1.

Lemma write_is_clock : SnapshotClock ok (clock_adv stamp) less get_read_stamp get_write_stamp.
Proof.
  apply (clock_of_bounds stamp ok _ _ _ 0 1); [done|lia..|by intros s; unfold ok, zero_stamp; rewrite tbd_value| |].
  - intros tid s Hok. unfold get_read_stamp, ok in *. rg_unfold. clock_auto @clock_adv.
  - intros tid s Hok. unfold get_write_stamp, ok in *. rg_unfold. clock_auto @clock_adv.
Qed.
End write_clock.

(** *** The hardware clocks *)
Module hw_clock.
Import hw.
Definition ok (s : state) : Prop := 1 ≤ tsc s < 2 ^ 61 - 1.
#[local] Abbreviation spec p Q s := (wprg ok (clock_adv tsc) (clock_adv tsc) only_fuel p Q s).

Lemma combine_tsc_id t : 0 ≤ t < 2 ^ 63 →
  combine_tsc (t / 2 ^ 32 mod 2 ^ 32) (t mod 2 ^ 32) = t.
Proof.
  intros Ht. unfold combine_tsc. rewrite land_low, Z.shiftl_mul_pow2 by lia.
  rewrite lor_disjoint by (try apply Z.mod_pos_bound; lia).
  assert (0 ≤ t / 2 ^ 32 < 2 ^ 31) as Hq
    by (split; [apply Z.div_pos; lia|apply Z.div_lt_upper_bound; lia]).
  rewrite (Z.mod_small (t / 2 ^ 32) (2 ^ 32)) by lia.
  rewrite (Z.mod_small (t / 2 ^ 32) (2 ^ 31)) by lia.
  pose proof (Z.div_mod t (2 ^ 32)). lia.
Qed.

Lemma rdtsc_spec s : ok s → spec rdtsc (λ t s', tsc s ≤ t ≤ tsc s') s.
Proof.
  intros Hok. unfold rdtsc, ok in *. rg_unfold. intros s1 Hs1 Hok1.
  cbn. unfold clock_adv in *. split; [lia|]. intros _. rewrite combine_tsc_id; lia.
Qed.

Lemma wait_past_spec fuel ts s : ok s → ts ≤ tsc s →
  spec (wait_past fuel ts) (λ _ s', ts + 1 ≤ tsc s') s.
Proof.
  intros Hok Hts. unfold wait_past.
  apply wprg_iter with (I := λ _ s, ts ≤ tsc s); [done| |done].
  intros _ s1 Hle. unfold rdtsc. rg_unfold. intros s2 Hs2 Hok2.
  cbn. unfold clock_adv, ok in *. split; [lia|]. intros _.
  rewrite combine_tsc_id by lia. case_bool; cbn; lia.
Qed.

(** the waiting strategies: one read of the clock, then wait for it to move *)
Lemma read_then_wait fuel s : ok s →
  spec (ts ← rdtsc; wait_past fuel ts ;; mret ts) (λ r s', tsc s ≤ r ∧ r + 1 ≤ tsc s') s.
Proof.
  intros Hok. apply wprg_bind. unfold rdtsc. rg_unfold. intros s1 Hs1 Hok1.
  cbn -[wait_past]. unfold clock_adv, ok in *. split; [lia|]. intros _.
  rewrite combine_tsc_id by lia. apply wprg_bind.
  eapply wprg_mono; [|by apply (wait_past_spec fuel (tsc s1) s1 Hok1)]. cbn. intros. lia.
Qed.

Lemma read_hw_is_clock fuel : SnapshotClock ok (clock_adv tsc) timestamp_read_hw.less
  (timestamp_read_hw.get_read_stamp fuel) timestamp_read_hw.get_write_stamp.
Proof.
  apply (clock_of_bounds tsc ok _ _ _ 1 0); [done|lia..|by intros s; unfold ok, zero_stamp; rewrite tbd_value| |].
  - intros tid s Hok. by apply read_then_wait.
  - intros tid s Hok. eapply wprg_mono; [|by apply rdtsc_spec]. cbn. intros. lia.
Qed.

Lemma write_hw_is_clock fuel : SnapshotClock ok (clock_adv tsc) timestamp_write_hw.less
  timestamp_write_hw.get_read_stamp (timestamp_write_hw.get_write_stamp fuel).
Proof.
  apply (clock_of_bounds tsc ok _ _ _ 0 1); [done|lia..|by intros s; unfold ok, zero_stamp; rewrite tbd_value| |].
  - intros tid s Hok. eapply wprg_mono; [|by apply rdtsc_spec]. cbn. intros. lia.
  - intros tid s Hok. unfold timestamp_write_hw.get_write_stamp.
    apply wprg_bind. unfold rdtsc. rg_unfold. intros s1 Hs1 Hok1.
    cbn -[wait_past]. unfold clock_adv, ok in *. split; [lia|]. intros _.
    rewrite combine_tsc_id by lia. apply wprg_bind.
    eapply wprg_mono; [|by apply (wait_past_spec fuel (tsc s1) s1 Hok1)].
    cbn. intros. rewrite s64_small; lia.
Qed.
End hw_clock.

(** *** timestamp_multiple *)
Module multiple_clock.
Import timestamp_multiple.
Definition slot (s : state) (i : nat) : Z := stamps s !!! (i * gap)%nat.
Definition now (s : state) : Z := slot s 0 + slot s 1 + slot s 2 + slot s 3.
Definition ok (s : state) : Prop :=
  length (stamps s) = (slots * gap)%nat ∧ ∀ i, (i < slots)%nat → 1 ≤ slot s i < 2 ^ 58.
Definition adv (s s' : state) : Prop := ∀ i, (i < slots)%nat → slot s i ≤ slot s' i.
#[local] Abbreviation spec p Q s := (wprg ok adv adv only_fuel p Q s).

#[export] Instance adv_preorder : PreOrder adv.
Proof.
  split; unfold adv.
  - intros s i _. lia.
  - intros s1 s2 s3 H1 H2 i Hi. specialize (H1 i Hi). specialize (H2 i Hi). lia.
Qed.

Lemma slot_lookup s i : ok s → (i < slots)%nat →
  stamps s !! (i * gap)%nat = Some (slot s i).
Proof.
  intros [Hlen _] Hi. apply list_lookup_lookup_total_lt. rewrite Hlen.
  unfold slots, gap in *. lia.
Qed.

Lemma slot_poke s i j v : ok s → (i < slots)%nat → (j < slots)%nat →
  slot (poke (stamp_c (i * gap)) v s) j = if decide (i = j) then v else slot s j.
Proof.
  intros [Hlen _] Hi Hj. unfold slot, stamp_c; cbn. case_decide as Hij.
  - subst. apply list_lookup_total_insert_eq. rewrite Hlen. unfold slots, gap in *. lia.
  - apply list_lookup_total_insert_ne. unfold gap. lia.
Qed.

Definition part (s : state) (idxs : list nat) : Z := foldr (λ i t, slot s i + t) 0 idxs.

#[local] Arguments part : simpl never.
Lemma part_cons s i idxs : part s (i :: idxs) = slot s i + part s idxs.
Proof. done. Qed.

Lemma part_adv s s' idxs : Forall (λ i, i < slots)%nat idxs → adv s s' →
  part s idxs ≤ part s' idxs.
Proof.
  intros Hall Hadv. induction Hall as [|i idxs Hi _ IH]; [done|]. rewrite !part_cons.
  specialize (Hadv i Hi). lia.
Qed.

(** A sum read one counter at a time lies between the sums before and after. *)
Lemma sum_from_spec idxs total s : ok s → Forall (λ i, i < slots)%nat idxs →
  0 ≤ total → total + 2 ^ 60 * Z.of_nat (length idxs) < 2 ^ 63 →
  spec (sum_from idxs total)
       (λ t s', total + part s idxs ≤ t ≤ total + part s' idxs ∧ adv s s' ∧ ok s') s.
Proof.
  revert total s. induction idxs as [|i idxs IH]; intros total s Hok Hall Htot Hb.
  - unfold part. simpl. split; [lia|]. by split; [reflexivity|].
  - apply Forall_cons in Hall as [Hi Hall]. cbn [sum_from]. rg_unfold.
    intros s1 Hs1 Hok1. unfold on_cell; cbn. rewrite slot_lookup by done.
    split; [reflexivity|]. intros _.
    pose proof (proj2 Hok1 i Hi) as Hv. cbn [length] in Hb.
    rewrite s64_small by lia.
    eapply wprg_mono; [|apply IH; [done|done|lia|lia]]. cbv beta.
    intros t s2 (Ht & Hadv & Hok2). pose proof (part_adv s s1 idxs Hall Hs1).
    pose proof (Hs1 i Hi). pose proof (Hadv i Hi).
    rewrite !part_cons.
    split; [lia|]. split; [by etrans|done].
Qed.

Lemma now_part s : part s (seq 0 slots) = now s.
Proof. unfold part, now; simpl. lia. Qed.

Lemma write_stamp_spec tid s : ok s →
  spec (get_write_stamp tid) (λ w s', now s ≤ w ≤ now s' ∧ adv s s' ∧ ok s') s.
Proof.
  intros Hok. eapply wprg_mono; [|apply sum_from_spec; [done|by repeat constructor|lia|]].
  - cbn beta. intros a s'. rewrite !now_part. done.
  - simpl. lia.
Qed.

Lemma now_adv s s' : adv s s' → now s ≤ now s'.
Proof.
  intros H. unfold now. pose proof (H 0%nat). pose proof (H 1%nat).
  pose proof (H 2%nat). pose proof (H 3%nat). unfold slots in *. lia.
Qed.

(** Moving one counter moves the sum. *)
Lemma now_bump s s' i : (i < slots)%nat → adv s s' → slot s i + 1 ≤ slot s' i →
  now s + 1 ≤ now s'.
Proof.
  intros Hi H Hb. unfold now, adv, slots in *. pose proof (H 0%nat). pose proof (H 1%nat).
  pose proof (H 2%nat). pose proof (H 3%nat).
  destruct i as [|[|[|[|i]]]]; lia.
Qed.

Lemma read_stamp_spec tid s : ok s →
  spec (get_read_stamp tid) (λ r s', now s ≤ r ∧ r + 1 ≤ now s') s.
Proof.
  intros Hok. unfold get_read_stamp. apply wprg_bind.
  eapply wprg_mono; [|by apply write_stamp_spec]. intros ts s1 (Hts & Hadv1 & Hok1). cbv beta.
  set (i := (tid mod slots)%nat).
  assert (i < slots)%nat as Hi by (apply Nat.mod_upper_bound; done).
  clearbody i. rg_unfold. intros s2 Hs2 Hok2. unfold on_cell at 1.
  cbn -[get_write_stamp]. rewrite slot_lookup by done.
  split; [reflexivity|]. intros _. apply (wprg_bind _ _ _ _ (get_write_stamp tid)).
  eapply wprg_mono; [|by apply write_stamp_spec]. intros cur s3 (Hcur & Hadv3 & Hok3). cbv beta.
  pose proof (now_adv _ _ Hs2). pose proof (now_adv _ _ Hadv3).
  destruct (Z.eqb_spec ts cur) as [<-|Hne]; cbn; [|lia].
  intros s4 Hs4 Hok4. unfold on_cell; cbn. rewrite slot_lookup by done.
  assert (slot s2 i ≤ slot s4 i) as Hmono by (etrans; [by apply Hadv3|by apply Hs4]).
  assert (adv s2 s4) as Hadv24 by (by etrans).
  destruct (decide (slot s4 i = slot s2 i)) as [Heq|Hne]; cbn.
  - pose proof (proj2 Hok4 i Hi) as Hv.
    assert (∀ j, (j < slots)%nat →
      slot (State (<[(i * gap)%nat:=s64 (slot s2 i + 1)]> (stamps s4))) j =
      if decide (i = j) then slot s4 i + 1 else slot s4 j) as Hp.
    { intros j Hj. rewrite <-Heq, s64_small by lia.
      by apply (slot_poke s4 i j (slot s4 i + 1)). }
    assert (adv s4 (State (<[(i * gap)%nat:=s64 (slot s2 i + 1)]> (stamps s4)))) as Hadv4.
    { intros j Hj. rewrite Hp by done. case_decide; [subst|]; lia. }
    split; [done|]. intros _. split; [lia|].
    assert (now s2 + 1 ≤ now (State (<[(i * gap)%nat:=s64 (slot s2 i + 1)]> (stamps s4)))); [|lia].
    apply (now_bump _ _ i); [done|by etrans|]. rewrite Hp by done. rewrite decide_True by done. lia.
  - split; [reflexivity|]. intros _. split; [lia|].
    assert (now s2 + 1 ≤ now s4); [|lia]. apply (now_bump _ _ i); [done|done|lia].
Qed.

Lemma multiple_is_clock : SnapshotClock ok adv less get_read_stamp get_write_stamp.
Proof.
  apply (clock_of_bounds now ok _ _ _ 1 0 now_adv); [lia..| | |].
  - intros s [_ Hs]. unfold zero_stamp. rewrite tbd_value. unfold now, slots in *.
    pose proof (Hs 0%nat). pose proof (Hs 1%nat). pose proof (Hs 2%nat). pose proof (Hs 3%nat). lia.
  - intros tid s Hok. by apply read_stamp_spec.
  - intros tid s Hok. eapply wprg_mono; [|by apply write_stamp_spec]. cbn. intros ?? (?&?&?). lia.
Qed.
End multiple_clock.

(** *** timestamp_read_write: only a weak clock

    Its stamps never go back, and a write is strictly after an earlier read
    except when both are the same even stamp. *)
Module read_write_clock.
Import timestamp_read_write.
Definition ok (s : state) : Prop := 1 ≤ stamp s < 2 ^ 61 - 1.
#[local] Abbreviation spec p Q s := (wprg ok (clock_adv stamp) (clock_adv stamp) only_fuel p Q s).

Lemma rem2 x : 0 ≤ x → Z.rem x 2 = x mod 2.
Proof. intros. apply Z.rem_mod_nonneg; lia. Qed.

Lemma advance_spec tid n s : ok s → 0 ≤ n → n ≤ stamp s →
  spec (advance tid n) (λ _ s', n + 1 ≤ stamp s') s.
Proof.
  intros Hok H0 Hn. unfold advance. rg_unfold. unfold ok in *. clock_auto @clock_adv.
Qed.

Lemma write_spec tid s : ok s →
  spec (get_write_stamp tid)
    (λ w s', stamp s ≤ w ≤ stamp s' ∧ (w = stamp s → Z.odd w = false → w + 1 ≤ stamp s')) s.
Proof.
  intros Hok. unfold get_write_stamp. rg_unfold. intros s1 Hs1 Hok1. cbn -[advance].
  unfold ok, clock_adv in *. split; [lia|]. intros _. rewrite rem2 by lia.
  pose proof (Zmod_odd (stamp s1)) as Hodd.
  destruct (Z.eqb_spec (stamp s1 mod 2) 1) as [E|E].
  - cbn -[advance]. split; [lia|]. intros _ Ho. by rewrite Ho in Hodd; lia.
  - intros s2 Hs2 Hok2. cbn -[advance]. split; [lia|]. intros _.
    destruct (Z.eqb_spec (stamp s1) (stamp s2)) as [E2|E2]; cbn -[advance]; [|lia].
    apply (wprg_bind _ _ _ _ (advance tid (stamp s1))).
    eapply wprg_mono; [|apply advance_spec; unfold ok; lia].
    cbn. intros _ s3 Hs3. rewrite s64_small by lia. lia.
Qed.

Lemma read_spec tid s : ok s →
  spec (get_read_stamp tid)
    (λ r s', stamp s ≤ r ≤ stamp s' ∧ (Z.odd r = true → r + 1 ≤ stamp s')) s.
Proof.
  intros Hok. unfold get_read_stamp. rg_unfold. intros s1 Hs1 Hok1. cbn -[advance].
  unfold ok, clock_adv in *. split; [lia|]. intros _. rewrite rem2 by lia.
  pose proof (Zmod_odd (stamp s1)) as Hodd.
  destruct (Z.eqb_spec (stamp s1 mod 2) 0) as [E|E].
  - cbn -[advance]. split; [lia|]. intros Ho. by rewrite Ho in Hodd; lia.
  - intros s2 Hs2 Hok2. cbn -[advance]. split; [lia|]. intros _.
    destruct (Z.eqb_spec (stamp s1) (stamp s2)) as [E2|E2]; cbn -[advance]; [|lia].
    apply (wprg_bind _ _ _ _ (advance tid (stamp s1))).
    eapply wprg_mono; [|apply advance_spec; unfold ok; lia].
    cbn. intros _ s3 Hs3. lia.
Qed.
End read_write_clock.

(** *** TL2 stamps carry the writer's id below an epoch number *)
Module tl2_stamps.
Import timestamp_tl2.

Lemma land_lnot_mask x : Z.land x (Z.lnot mask) = x / 2 ^ 10 * 2 ^ 10.
Proof.
  change mask with (Z.ones 10). rewrite <-Z.ldiff_land.
  rewrite Z.ldiff_ones_r by lia. rewrite Z.shiftl_mul_pow2, Z.shiftr_div_pow2 by lia. done.
Qed.

(** packing an id under an epoch, and reading both back *)
Lemma pack e id : 0 ≤ id < 2 ^ 10 →
  let ts := Z.lor (e * 2 ^ 10) id in
  ts = e * 2 ^ 10 + id ∧ Z.shiftr ts thread_bits = e ∧ Z.land ts mask = id.
Proof.
  intros Hid. simpl. rewrite lor_disjoint by lia. split; [done|].
  split.
  - rewrite Z.shiftr_div_pow2 by (unfold thread_bits; lia). unfold thread_bits.
    rewrite Z.div_add_l by lia. rewrite (Z.div_small id) by lia. lia.
  - change mask with (2 ^ 10 - 1). rewrite land_low by lia.
    rewrite Z.add_comm, Z.mod_add by lia. apply Z.mod_small. lia.
Qed.
End tl2_stamps.

(** ** Theorems *)

(** *** The strategies that are not clocks *)
Section no_clocks.
Context {S : Type} {ok : S → Prop} {adv : relation S} {less : Z → Z → bool} {rd wr : nat → prog S Z}.

(** a read stamp and then a write stamp that is the same *)
Lemma same_stamp_no_clock t t' s0 r s1 s2 s3 :
  less r r = false → ok s0 → ok s2 → adv s1 s2 →
  erun ok adv (rd t) s0 r s1 → erun ok adv (wr t') s2 r s3 → ¬ SnapshotClock ok adv less rd wr.
Proof.
  intros Hirr H0 H2 Hadv Hr Hw Hc. pose proof (clock_write_after_read t t' s0 r s1 s2 r s3 H0 H2 Hr Hadv Hw). congruence.
Qed.
End no_clocks.

Lemma no_inc_no_clock ok adv : (∃ s, ok s) →
  ¬ SnapshotClock ok adv timestamp_no_inc.less timestamp_no_inc.get_read_stamp timestamp_no_inc.get_write_stamp.
Proof.
  intros [s Hs] Hc. assert (adv s s) as Hss by (pose proof (clock_preorder (SnapshotClock := Hc)); reflexivity).
  assert (∀ t, erun ok adv (timestamp_no_inc.get_read_stamp t) s (timestamp_no_inc.stamp s) s) as Hrun.
  { intros t. eapply erun_act; [exact Hss|exact Hs|reflexivity|exact Hs|constructor]. }
  revert Hc. eapply (same_stamp_no_clock 0 0 s (timestamp_no_inc.stamp s) s s s); [apply Z.ltb_irrefl|done..|apply Hrun|apply (Hrun 0%nat)].
Qed.

Lemma tl2_no_clock ok adv : (∃ s, ok s) →
  ¬ SnapshotClock ok adv timestamp_tl2.less timestamp_tl2.get_read_stamp timestamp_tl2.get_write_stamp.
Proof.
  intros [s Hs] Hc. assert (adv s s) as Hss by (pose proof (clock_preorder (SnapshotClock := Hc)); reflexivity).
  pose proof (clock_read_guarantee (SnapshotClock := Hc) 0 s Hs s Hss Hs) as H. discriminate H.
Qed.

(** The last strategy: from the even stamp 2 a snapshot takes read stamp 2;
    then a writer starts, sees 2, is overtaken by another writer that moves
    the stamp to 3, and returns the old even stamp 2 (the early [return s])
    instead of a later one, so its write is not after the snapshot. *)
Definition rw_state (n : Z) : timestamp_read_write.state := timestamp_read_write.State n (-1) ∅.
Lemma rw_state_ok n : 1 ≤ n < 10 → read_write_clock.ok (rw_state n).
Proof. unfold read_write_clock.ok; simpl. lia. Qed.
Lemma read_write_no_clock less : (∀ x, less x x = false) →
  ¬ SnapshotClock read_write_clock.ok (clock_adv timestamp_read_write.stamp) less
    timestamp_read_write.get_read_stamp timestamp_read_write.get_write_stamp.
Proof.
  intros Hirr. pose proof (rw_state_ok 2 ltac:(lia)) as H2. pose proof (rw_state_ok 3 ltac:(lia)) as H3.
  eapply (same_stamp_no_clock 0 0 (rw_state 2) 2 (rw_state 2) (rw_state 2) (rw_state 3)); [apply Hirr|done|done|reflexivity| |].
  - eapply erun_act; [reflexivity|exact H2|reflexivity|exact H2|constructor].
  - eapply erun_act; [reflexivity|exact H2|reflexivity|exact H2|].
    apply (erun_act _ _ _ _ _ (rw_state 3) 3 (rw_state 3)); [unfold clock_adv; simpl; lia|exact H3|reflexivity|exact H3|constructor].
Qed.


Section read_write.
Import timestamp_read_write read_write_clock.

(** the strategy with two modes, in every interleaving: a write stamp taken
    after a read stamp is not earlier, and is later unless the two are the
    same even stamp; a write stamp taken before a read stamp is not later. *)
Theorem read_write_weak_clock t t' s0 x s1 s2 y s3 :
  ok s0 → ok s2 → stamp s1 ≤ stamp s2 →
  (erun ok (clock_adv stamp) (get_read_stamp t) s0 x s1 →
   erun ok (clock_adv stamp) (get_write_stamp t') s2 y s3 →
   x ≤ y ∧ (Z.odd x = true ∨ Z.odd y = true → x < y)) ∧
  (erun ok (clock_adv stamp) (get_write_stamp t) s0 x s1 →
   erun ok (clock_adv stamp) (get_read_stamp t') s2 y s3 →
   x ≤ y).
Proof.
  intros H0 H2 Hadv. split; intros Hx Hy.
  - apply (wprg_erun _ _ _ _ _ _ _ _ _ (read_spec t s0 H0)) in Hx as [Hx Hxo].
    apply (wprg_erun _ _ _ _ _ _ _ _ _ (write_spec t' s2 H2)) in Hy as [Hy _].
    split; [lia|]. intros [Ho|Ho]; [specialize (Hxo Ho); lia|].
    destruct (Z.odd x) eqn:E; [specialize (Hxo eq_refl); lia|].
    assert (x ≠ y) by congruence. lia.
  - apply (wprg_erun _ _ _ _ _ _ _ _ _ (write_spec t s0 H0)) in Hx as [Hx _].
    apply (wprg_erun _ _ _ _ _ _ _ _ _ (read_spec t' s2 H2)) in Hy as [Hy _]. lia.
Qed.

Lemma read_write_weak_clock_witness : 2 ≤ 3 ∧ (Z.odd 2 = true ∨ Z.odd 3 = true → 2 < 3).
Proof.
  pose proof rw_state_ok as Hok.
  refine (proj1 (read_write_weak_clock 0 1 (rw_state 2) 2 (rw_state 2) (rw_state 3) 3 (rw_state 3)
            _ _ _) _ _).
  - by apply Hok.
  - by apply Hok.
  - simpl. lia.
  - eapply erun_act; [reflexivity|by apply Hok|reflexivity|by apply Hok|]. constructor.
  - eapply erun_act; [reflexivity|by apply Hok|reflexivity|by apply Hok|]. constructor.
Defined.

(** One reader, and two writers that start when it is done. *)
Definition clock_pool : list (prog state Z) :=
  [get_read_stamp 0; get_write_stamp 1; get_write_stamp 2].

(** the same as an interleaving of threads: the first writer gets the
    reader's stamp although it started after the reader was done *)
Theorem read_write_clock_broken :
  ∃ c1 c2 r, rtc step (rw_state 2, clock_pool) c1 ∧
    c1.2 = [Ret r; get_write_stamp 1; get_write_stamp 2] ∧
    rtc step c1 c2 ∧ c2.2 !! 1%nat = Some (Ret r) ∧ r < stamp c2.1.
Proof.
  eexists _, _, 2. split_and!.
  - apply (run_sched_steps [0%nat]). reflexivity.
  - reflexivity.
  - apply (run_sched_steps [1; 2; 2; 2; 1]%nat). reflexivity.
  - reflexivity.
  - reflexivity.
Qed.
End read_write.

Section tl2.
Import timestamp_tl2 tl2_stamps.

(** C21: Run alone, a TL2 write stamp carries the writer's id in its low bits;
    it lies in the current epoch if the thread has not used the current
    stamp yet, and otherwise in the next one, to which the global stamp
    moves; in both cases it becomes the thread's last stamp. *)
Theorem tl2_write_stamp tid s :
  Z.of_nat tid < 1024 → 0 ≤ stamp s < 2 ^ 62 →
  let again := stamp s =? default 0 (last_ts s !! tid) in
  ∃ w s', run (get_write_stamp tid) s = Ok w s' ∧
    Z.land w mask = Z.of_nat tid ∧
    Z.shiftr w thread_bits = Z.shiftr (stamp s) thread_bits + (if again then 1 else 0) ∧
    stamp s' = (if again then w else stamp s) ∧
    last_ts s' = <[tid := w]> (last_ts s) ∧
    less (stamp s) w = again.
Proof.
  intros Htid Hs again. assert (0 ≤ Z.of_nat tid < 2 ^ 10) as Hid by lia.
  assert (Z.shiftr (stamp s) thread_bits = stamp s / 2 ^ 10) as Hsh
    by (apply Z.shiftr_div_pow2; unfold thread_bits; lia).
  unfold less. rewrite Hsh. subst again. cbn -[default Z.shiftr Z.div s64 Z.land Z.lor Z.of_nat].
  destruct (Z.eqb_spec (stamp s) (default 0 (last_ts s !! tid))) as [E|E].
  - unfold increment_stamp. cbn -[s64 Z.land Z.lor Z.of_nat Z.div Z.shiftr]. rewrite Z.eqb_refl.
    cbn -[s64 Z.land Z.lor Z.of_nat Z.div Z.shiftr]. rewrite decide_True by done.
    cbn -[s64 Z.land Z.lor Z.of_nat Z.div Z.shiftr].
    rewrite !land_lnot_mask.
    rewrite s64_small by (change step with 1024; lia). change step with (1 * 2 ^ 10).
    rewrite Z.div_add by lia.
    destruct (pack (stamp s / 2 ^ 10 + 1) (Z.of_nat tid) Hid) as (_ & H2 & H3).
    eexists _, _. split; [reflexivity|].
    cbn -[s64 Z.land Z.lor Z.of_nat Z.div Z.shiftr]. rewrite H2, H3.
    split_and!; [done|done|done|done|]. apply Z.ltb_lt. lia.
  - cbn -[s64 Z.land Z.lor Z.of_nat Z.div Z.shiftr]. rewrite land_lnot_mask.
    destruct (pack (stamp s / 2 ^ 10) (Z.of_nat tid) Hid) as (_ & H2 & H3).
    eexists _, _. split; [reflexivity|].
    cbn -[s64 Z.land Z.lor Z.of_nat Z.div Z.shiftr]. rewrite H2, H3.
    split_and!; [done|lia|done|done|]. apply Z.ltb_ge. lia.
Qed.

Lemma tl2_write_stamp_witness :
  ∃ w s', run (get_write_stamp 3) (State 1024 {[3%nat := 1024]}) = Ok w s' ∧ stamp s' = w.
Proof.
  destruct (tl2_write_stamp 3 (State 1024 {[3%nat := 1024]})) as (w & s' & H1 & _ & _ & H2 & _).
  - reflexivity.
  - simpl. lia.
  - exists w, s'. split; [exact H1|exact H2].
Defined.
End tl2.
