(* ===== verification/Epoch.v ===== *)
(** * Epoch: epoch-based memory reclamation (include/flock/epoch.h,
    include/flock/acquired_pool.h).

    [epoch_s]: the announcement slots and the current epoch.  [mem_pool]: per
    worker, two linked lists of retired objects (those of the current epoch
    and those of the previous one).  The padding words of EpochMemCheck are
    part of the state of an object: [head] is 10 while the object is live and
    55 once it is destructed. *)

From stdpp Require Import prelude list gmap.
From Stdlib Require Import ZArith Lia.
From S2P Require Import Prelude Conc.
Local Open Scope Z_scope.

(** struct Link; the null pointer is 0 *)
Record Link := mkLink { next : Z; skip : bool; value : Z }.

(** the per-thread lists of a mem_pool *)
Record old_current := mkOldCurrent { old : Z; current : Z; epoch : Z; count : Z; time : Z }.

(** paddedT, with the [acquired] field of the objects of an acquired_pool *)
Record padded := mkPadded { pad : Z; head : Z; tail : Z; acquired : bool }.

Record state (H : Type) := mkState {
  announcements : list Z;      (* announce_slot::last, -1 when not in an epoch *)
  current_epoch : Z;
  pools : list old_current;
  links : gmap Z Link;
  objs : gmap Z padded;
  hook_state : H;              (* what the epoch hooks work on *)
}.
Arguments mkState {H}.
Arguments announcements {H}. Arguments current_epoch {H}. Arguments pools {H}.
Arguments links {H}. Arguments objs {H}. Arguments hook_state {H}.

Section epoch.
Context {H : Type}.
(** num_workers(), the link and node allocators, and the epoch hooks *)
Context (workers : nat) (alloc_link : gmap Z Link → Z) (alloc_node : gmap Z padded → Z).
Context (before_epoch_hooks after_epoch_hooks : list (nat → prog H unit)).
Abbreviation state := (state H).
Implicit Types s : state.

(** *** Cells *)
Definition at_index {T} (l : list T) (i : nat) : err + T :=
  match l !! i with Some v => inr v | None => inl OutOfBounds end.
Definition at_addr {T} (m : gmap Z T) (p : Z) : err + T :=
  if p =? 0 then inl NullDeref
  else match m !! p with Some v => inr v | None => inl UseAfterFree end.

Definition last_c (i : nat) : cell state Z :=
  Cell (λ s, at_index (announcements s) i)
       (λ v s, mkState (<[i := v]> (announcements s)) (current_epoch s) (pools s)
                       (links s) (objs s) (hook_state s)).
Definition current_epoch_c : cell state Z :=
  total_cell current_epoch
    (λ v s, mkState (announcements s) v (pools s) (links s) (objs s) (hook_state s)).
Definition pool_c (i : nat) : cell state old_current :=
  Cell (λ s, at_index (pools s) i)
       (λ v s, mkState (announcements s) (current_epoch s) (<[i := v]> (pools s))
                       (links s) (objs s) (hook_state s)).
Definition set_links (m : gmap Z Link) s : state :=
  mkState (announcements s) (current_epoch s) (pools s) m (objs s) (hook_state s).
Definition set_objs (m : gmap Z padded) s : state :=
  mkState (announcements s) (current_epoch s) (pools s) (links s) m (hook_state s).
Definition set_hook_state (h : H) s : state :=
  mkState (announcements s) (current_epoch s) (pools s) (links s) (objs s) h.
Definition link_c (p : Z) : cell state Link :=
  Cell (λ s, at_addr (links s) p) (λ v s, set_links (<[p := v]> (links s)) s).
Definition obj_c (p : Z) : cell state padded :=
  Cell (λ s, match objs s !! p with Some v => inr v | None => inl UseAfterFree end)
       (λ v s, set_objs (<[p := v]> (objs s)) s).

(** *** epoch_s *)
Definition get_current : prog state Z := load current_epoch_c.
Definition get_my_epoch (tid : nat) : prog state Z := load (last_c tid).
Definition set_my_epoch (tid : nat) (e : Z) : prog state unit := store (last_c tid) e.

Definition announce (fuel : nat) (tid : nat) : prog state (bool * nat) :=
  iter fuel (λ _ : unit,
    current_e ← get_current;
    exchange (last_c tid) current_e ;;
    e ← get_current;
    mret (if e =? current_e then inr (true, tid) else inl tt)) tt.

(** with NestedEpochs: only the outermost announcement sets the slot *)
Definition announce_nested (fuel : nat) (tid : nat) : prog state (bool * nat) :=
  iter fuel (λ _ : unit,
    current_e ← get_current;
    l ← load (last_c tid);
    succeeded ← (if l =? -1 then cas (last_c tid) (-1) current_e else mret false);
    e ← get_current;
    mret (if e =? current_e then inr (succeeded : bool, tid) else inl tt)) tt.

Definition unannounce (id : nat) : prog state unit :=
  l ← load (last_c id);
  assert_ (negb (l =? -1)) ;;
  store (last_c id) (-1).

(** the scan of update_epoch: is everyone done with earlier epochs? *)
Fixpoint all_there (idxs : list nat) (current_e : Z) : prog state bool :=
  match idxs with
  | [] => mret true
  | i :: idxs' =>
      a ← load (last_c i);
      if a =? -1 then all_there idxs' current_e
      else
        b ← load (last_c i);
        if b <? current_e then mret false else all_there idxs' current_e
  end.

Definition run_hooks (hs : list (nat → prog H unit)) (tid : nat) : prog state unit :=
  for_each hs (λ h, zoom hook_state set_hook_state (h tid)).

Definition update_epoch (tid : nat) : prog state unit :=
  current_e ← get_current;
  ok ← all_there (seq 0 workers) current_e;
  when ok
    (run_hooks before_epoch_hooks tid ;;
     won ← cas current_epoch_c current_e (current_e + 1);
     when won (run_hooks after_epoch_hooks tid)).

(** *** mem_pool *)
Definition undo_retire (x : Z) : prog state unit :=
  l ← load (link_c x); store (link_c x) (mkLink (next l) true (value l)).
Definition undo_allocate (x : Z) : prog state unit :=
  l ← load (link_c x); store (link_c x) (mkLink (next l) false (value l)).

Definition allocate_link (l : Link) : prog state Z :=
  Act (λ s, let p := alloc_link (links s) in Ok p (set_links (<[p := l]> (links s)) s)) Ret.
Definition free_link (p : Z) : prog state unit :=
  modify (λ s, set_links (delete p (links s)) s).

Definition destruct (p : Z) : prog state unit :=
  x ← load (obj_c p);
  store (obj_c p) (mkPadded (pad x) 55 (tail x) (acquired x)).

Definition check_not_corrupted (p : Z) : prog state bool :=
  x ← load (obj_c p);
  mret ((pad x =? 10) && (head x =? 10) && (tail x =? 10)).

Definition new_obj : prog state Z :=
  p ← Act (λ s, let p := alloc_node (objs s) in
                Ok p (set_objs (<[p := mkPadded 10 10 10 false]> (objs s)) s)) Ret;
  b ← check_not_corrupted p;
  assert_ b ;;
  mret p.

Definition new_init (f : Z → prog state unit) : prog state Z :=
  x ← new_obj; f x ;; mret x.

Definition clear_list (fuel : nat) (ptr : Z) : prog state unit :=
  iter fuel (λ ptr,
    if ptr =? 0 then mret (inr tt)
    else
      let tmp := ptr in
      l ← load (link_c tmp);
      s ← load (link_c tmp);
      when (negb (skip s))
        (x ← load (obj_c (value l));
         assert_ ((head x =? 10) && (tail x =? 10)) ;;
         destruct (value l)) ;;
      free_link tmp ;;
      mret (inl (next l))) ptr.

Definition size_of (fuel : nat) (ptr : Z) : prog state Z :=
  iter fuel (λ '(ptr, sum),
    if ptr =? 0 then mret (inr sum)
    else l ← load (link_c ptr); mret (inl (next l, sum + 1))) (ptr, 0).

(** [now] is system_clock::now() in milliseconds; the comparison with
    20 * (1 + i/workers) milliseconds is made in exact arithmetic *)
Definition update_threshold : Z := 10 * Z.of_nat workers.
Definition overdue (i : nat) (elapsed : Z) : bool :=
  20 * (Z.of_nat workers + Z.of_nat i) <? elapsed * Z.of_nat workers.

Definition advance_epoch (fuel i : nat) (now : Z) : prog state unit :=
  pid ← load (pool_c i);
  cur ← get_current;
  when (epoch pid + 1 <? cur)
    (clear_list fuel (old pid) ;;
     pid1 ← load (pool_c i);
     store (pool_c i) (mkOldCurrent (current pid1) 0 (epoch pid1) (count pid1) (time pid1)) ;;
     e ← get_current;
     pid2 ← load (pool_c i);
     store (pool_c i) (mkOldCurrent (old pid2) (current pid2) e (count pid2) (time pid2))) ;;
  pid3 ← load (pool_c i);
  store (pool_c i) (mkOldCurrent (old pid3) (current pid3) (epoch pid3) (count pid3 + 1) (time pid3)) ;;
  when ((count pid3 + 1 =? update_threshold) || overdue i (now - time pid3))
    (store (pool_c i) (mkOldCurrent (old pid3) (current pid3) (epoch pid3) 0 now) ;;
     update_epoch i).

Definition add_to_current_list (fuel tid : nat) (now p : Z) : prog state Z :=
  advance_epoch fuel tid now ;;
  pid ← load (pool_c tid);
  lnk ← allocate_link (mkLink (current pid) false p);
  store (pool_c tid) (mkOldCurrent (old pid) lnk (epoch pid) (count pid) (time pid)) ;;
  mret lnk.

Definition retire (fuel tid : nat) (now p : Z) : prog state Z :=
  add_to_current_list fuel tid now p.

Definition clear (fuel tid : nat) : prog state unit :=
  update_epoch tid ;;
  for_each (seq 0 workers) (λ i,
    pid ← load (pool_c i);
    clear_list fuel (old pid) ;;
    clear_list fuel (current pid) ;;
    pid' ← load (pool_c i);
    store (pool_c i) (mkOldCurrent 0 0 (epoch pid') (count pid') (time pid'))).

(** *** acquired_pool: immediate reclamation of what nobody acquired *)
Definition acquire (p : Z) : prog state unit :=
  x ← load (obj_c p);
  when (negb (acquired x)) (store (obj_c p) (mkPadded (pad x) (head x) (tail x) true)).

Definition retire_acquired (fuel tid : nat) (now p : Z) : prog state unit :=
  x ← load (obj_c p);
  if negb (acquired x) then destruct p
  else
    store (obj_c p) (mkPadded (pad x) (head x) (tail x) false) ;;
    retire fuel tid now p ;;
    mret tt.

(** *** with_epoch *)
Definition with_epoch {A} (fuel tid : nat) (f : prog state A) : prog state A :=
  '(not_in_epoch, id) ← announce fuel tid;
  v ← f;
  unannounce id ;;
  mret v.

Definition with_epoch_nested {A} (fuel tid : nat) (f : prog state A) : prog state A :=
  '(not_in_epoch, id) ← announce_nested fuel tid;
  v ← f;
  when not_in_epoch (unannounce id) ;;
  mret v.
End epoch.
