(* ===== verification/Reclaim.v ===== *)
(** * Reclaim: the reclamation protocol of [Epoch] is safe under interference.

    The client is the pattern of every structure of the library: objects are
    published in shared roots, replaced by an exchange, and what was replaced
    is retired; readers follow a root inside [with_epoch].  Threads run any
    number of such reads and updates, interleaved at every atomic action, and
    no object that a reader reaches has been destructed. *)

From stdpp Require Import prelude list gmap.
From Stdlib Require Import ZArith Lia.
From S2P Require Import Prelude Conc Epoch.
Local Open Scope Z_scope.

(** ** Auxiliary state

    Who is inside an epoch and since which one; the owner of every link; and
    for each object where it is. *)
Inductive place :=
  | Reach (r : nat)                        (* held by root [r] *)
  | Priv (t : nat)                         (* known to thread [t] only *)
  | Retired (o : nat) (e : Z) (l : Z).     (* in the list of [o], by link [l], since epoch [e] *)

Record ghost := mkGhost {
  inside : gmap nat Z;
  lowner : gmap Z nat;
  where_ : gmap Z place;
}.

Definition tolerated (e : err) : Prop := e = OutOfFuel.

Section client.
(** The roots are the state that [Epoch] is a part of. *)
Abbreviation cstate := (Epoch.state (gmap nat Z)).
Context (workers : nat) (alloc_link : gmap Z Link → Z) (alloc_node : gmap Z padded → Z).

Definition root_c (r : nat) : cell cstate Z :=
  total_cell (λ s, default 0 (hook_state s !! r))
             (λ v s, set_hook_state (<[r := v]> (hook_state s)) s).

Inductive command :=
  | CRead (r : nat)
  | CUpdate (r : nat) (now : Z).

(** follow a root and use the object: what was found in its header *)
Definition read_root (fuel tid r : nat) : prog cstate (option Z) :=
  with_epoch fuel tid
    (p ← load (root_c r);
     if p =? 0 then mret None
     else x ← load (obj_c p); mret (Some (head x))).

(** replace the object of a root by a new one and retire the old one *)
Definition update_root (fuel tid r : nat) (now : Z) : prog cstate (option Z) :=
  with_epoch fuel tid
    (p ← new_obj alloc_node;
     o ← exchange (root_c r) p;
     if o =? 0 then mret None
     else retire workers alloc_link [] [] fuel tid now o ;; mret None).

Definition exec (fuel tid : nat) (c : command) : prog cstate (option Z) :=
  match c with
  | CRead r => read_root fuel tid r
  | CUpdate r now => update_root fuel tid r now
  end.

Fixpoint exec_all (fuel tid : nat) (cs : list command) : prog cstate (list (option Z)) :=
  match cs with
  | [] => mret []
  | c :: cs' => r ← exec fuel tid c; rs ← exec_all fuel tid cs'; mret (r :: rs)
  end.

Definition init_state : cstate :=
  mkState (replicate workers (-1)) 0 (replicate workers (mkOldCurrent 0 0 0 0 0))
          ∅ ∅ ∅.
End client.

(** ** The invariant *)
Section protocol.
Context (workers : nat).
#[local] Abbreviation cstate := (Epoch.state (gmap nat Z)).
#[local] Abbreviation gstate := (cstate * ghost)%type.
Implicit Types c : gstate.

Definition live (p : Z) c : Prop :=
  ∃ x, objs c.1 !! p = Some x ∧ pad x = 10 ∧ head x = 10 ∧ tail x = 10.

(** A validated epoch is at most one behind the current one and the slot
    announces it or an earlier one; everything that has a place is live. *)
Record ginv c : Prop := {
  inv_ann : length (announcements c.1) = workers;
  inv_pools : length (pools c.1) = workers;
  inv_cur : 0 ≤ current_epoch c.1;
  inv_inside : ∀ t a, inside c.2 !! t = Some a →
    (∃ b, announcements c.1 !! t = Some b ∧ b ≠ -1 ∧ b ≤ a) ∧
    a ≤ current_epoch c.1 ≤ a + 1;
  inv_roots : ∀ r p, hook_state c.1 !! r = Some p → p ≠ 0 → where_ c.2 !! p = Some (Reach r);
  inv_live : ∀ p w, where_ c.2 !! p = Some w → live p c;
  inv_retired : ∀ p o e l, where_ c.2 !! p = Some (Retired o e l) → e ≤ current_epoch c.1;
  inv_links : ∀ l, is_Some (links c.1 !! l) ↔ is_Some (lowner c.2 !! l);
}.

(** Object [p] has not been retired before epoch [a]. *)
Definition safe_since (a : Z) (w : place) : Prop :=
  match w with Retired _ e _ => a ≤ e | _ => True end.
Definition protected (p a : Z) c : Prop := ∃ w, where_ c.2 !! p = Some w ∧ safe_since a w.

Definition of_thread (i : nat) (w : place) : Prop :=
  match w with Reach _ => False | Priv t => t = i | Retired o _ _ => o = i end.

(** What the other threads leave alone of thread [i]. *)
Record own (i : nat) c c' : Prop := {
  own_ann : announcements c'.1 !! i = announcements c.1 !! i;
  own_inside : inside c'.2 !! i = inside c.2 !! i;
  own_pool : pools c'.1 !! i = pools c.1 !! i;
  own_links : ∀ l, lowner c.2 !! l = Some i →
    lowner c'.2 !! l = Some i ∧ links c'.1 !! l = links c.1 !! l;
  own_places : ∀ p w, where_ c.2 !! p = Some w → of_thread i w → where_ c'.2 !! p = Some w;
  own_protected : ∀ p a, inside c.2 !! i = Some a → protected p a c → protected p a c';
}.

Record shared c c' : Prop := {
  shared_cur : current_epoch c.1 ≤ current_epoch c'.1;
  shared_inside : ∀ t a, inside c'.2 !! t = Some a →
    inside c.2 !! t = Some a ∨ current_epoch c.1 ≤ a;
}.

Definition interf (i : nat) c c' : Prop := shared c c' ∧ own i c c'.

Lemma own_refl i c : own i c c.
Proof. split; auto. Qed.

Lemma shared_refl c : shared c c.
Proof. split; auto with lia. Qed.

Lemma interf_preorder i : PreOrder (interf i).
Proof.
  split.
  - intros c. split; [apply shared_refl|apply own_refl].
  - intros c1 c2 c3 [Hs Ho] [Ht Hp]. split.
    + destruct Hs as [S1 S2], Ht as [T1 T2].
      split; [lia|]. intros t a Ha.
      destruct (T2 t a Ha) as [Hi|Hle]; [|right; lia]. by apply S2.
    + destruct Ho as [O1 O2 O3 O4 O5 O6], Hp as [P1 P2 P3 P4 P5 P6].
      split; [congruence..| |eauto|].
      * intros l Hl. destruct (O4 l Hl) as [Hl2 Hk2], (P4 l Hl2) as [Hl3 Hk3].
        split; [done|congruence].
      * intros p a Hin Hprot. apply P6; [by rewrite O2|by apply O6].
Qed.

Definition reclamation : protocol cstate ghost := Protocol _ _ (λ _, True) ginv interf interf_preorder.
#[local] Abbreviation update := (Conc.update reclamation).
#[local] Abbreviation stable := (Conc.stable reclamation).

Lemma update_intro i c c' :
  ginv c' → shared c c' → (∀ j, j ≠ i → own j c c') → update i c c'.
Proof. intros ? ? Ho. split; [done|]. intros j Hj. split; simpl; auto. Qed.

(** *** Stable assertions *)
Definition pool_is (i : nat) (pid : old_current) c : Prop := pools c.1 !! i = Some pid.
Definition inside_is (i : nat) (o : option Z) c : Prop := inside c.2 !! i = o.
Definition epoch_ge (e : Z) c : Prop := e ≤ current_epoch c.1.
Definition has_place (p : Z) (w : place) c : Prop := where_ c.2 !! p = Some w.
Definition prot (i : nat) (p : Z) c : Prop :=
  ∃ a, inside c.2 !! i = Some a ∧ protected p a c.

(** a list of links of thread [i] whose objects it retired in epochs that satisfy [B] *)
Fixpoint chain (i : nat) (B : Z → Prop) (ptr : Z) (L : list Z) c : Prop :=
  match L with
  | [] => ptr = 0
  | l :: L' => ptr = l ∧ l ≠ 0 ∧ lowner c.2 !! l = Some i ∧
      ∃ nx p e, links c.1 !! l = Some (mkLink nx false p) ∧
        where_ c.2 !! p = Some (Retired i e l) ∧ B e ∧ chain i B nx L' c
  end.

Lemma stable_pool i pid : stable i (pool_is i pid).
Proof. intros c c' ? _ [_ [_ _ Hp _ _ _]]. unfold pool_is. by rewrite Hp. Qed.
Lemma stable_inside i o : stable i (inside_is i o).
Proof. intros c c' ? _ [_ [_ Hi _ _ _ _]]. unfold inside_is. by rewrite Hi. Qed.
Lemma stable_epoch i e : stable i (epoch_ge e).
Proof. intros c c' ? _ [[Hs _] _]. unfold epoch_ge in *. lia. Qed.
Lemma stable_place i p w : of_thread i w → stable i (has_place p w).
Proof. intros Hw c c' ? _ [_ [_ _ _ _ Hp _]]. by apply Hp. Qed.
Lemma stable_prot i p : stable i (prot i p).
Proof.
  intros c c' (a & Ha & Hp) _ [_ Ho]. exists a.
  split; [by rewrite (own_inside _ _ _ Ho)|by apply (own_protected _ _ _ Ho)].
Qed.
Lemma stable_chain i B ptr L : stable i (chain i B ptr L).
Proof.
  intros c c' H _ [_ [_ _ _ Hl Hp _]]. revert ptr H.
  induction L as [|l L IH]; intros ptr; simpl; [done|].
  intros (-> & ? & Hlo & nx & p & e & Hk & Hw & HB & Hc).
  destruct (Hl l Hlo) as [Hlo' Hk'].
  split_and!; [done..|]. exists nx, p, e. split_and!; [congruence|by apply Hp|done|by apply IH].
Qed.

(** A chain depends on its own links and objects only. *)
Lemma chain_frame i (B B' : Z → Prop) c c' ptr L :
  (∀ e, B e → e ≤ current_epoch c.1 → B' e) → ginv c →
  (∀ l, l ∈ L → lowner c.2 !! l = Some i →
     lowner c'.2 !! l = Some i ∧ links c'.1 !! l = links c.1 !! l) →
  (∀ p e l, l ∈ L → where_ c.2 !! p = Some (Retired i e l) →
     where_ c'.2 !! p = Some (Retired i e l)) →
  chain i B ptr L c → chain i B' ptr L c'.
Proof.
  intros HB Hc. revert ptr. induction L as [|l L IH]; intros ptr Hl Hp; simpl; [done|].
  intros (-> & ? & Hlo & nx & p & e & Hk & Hw & HBe & Hch).
  destruct (Hl l) as [Hlo' Hk']; [by left|done|].
  split_and!; [done..|]. exists nx, p, e. split_and!; [congruence| | |].
  - apply Hp; [by left|done].
  - apply HB; [done|]. by eapply inv_retired.
  - apply IH; [| |done].
    + intros l' Hin. apply Hl. by right.
    + intros p' e' l' Hin. apply Hp. by right.
Qed.
End protocol.

#[export] Hint Resolve stable_pool stable_inside stable_epoch stable_prot stable_chain : stab.
#[export] Hint Extern 1 (stable _ _ (has_place _ _)) => apply stable_place; reflexivity : stab.

(** ** The atomic updates of the protocol *)
Section updates.
Context (workers : nat).
#[local] Abbreviation cstate := (Epoch.state (gmap nat Z)).
#[local] Abbreviation gstate := (cstate * ghost)%type.
Implicit Types c : gstate.
#[local] Abbreviation ginv := (ginv workers).
#[local] Abbreviation update := (Conc.update (reclamation workers)).

Lemma upd_pool i pid pid' c :
  ginv c → pool_is i pid c → update i c (poke (pool_c i) pid' c.1, c.2).
Proof.
  intros [] Hp. apply update_intro.
  - split; simpl; auto. by rewrite length_insert.
  - split; simpl; auto with lia.
  - intros j Hj. split; simpl; auto. by rewrite list_lookup_insert_ne.
Qed.

Lemma upd_announce i v c :
  ginv c → inside_is i None c → update i c (poke (last_c i) v c.1, c.2).
Proof.
  intros [] Hi. unfold inside_is in Hi. apply update_intro.
  - split; simpl; auto.
    + by rewrite length_insert.
    + intros t a Ha. rewrite list_lookup_insert_ne by congruence. auto.
  - split; simpl; auto with lia.
  - intros j Hj. split; simpl; auto. by rewrite list_lookup_insert_ne.
Qed.

Definition enter (i : nat) (a : Z) (g : ghost) : ghost :=
  mkGhost (<[i := a]> (inside g)) (lowner g) (where_ g).
Definition leave (i : nat) (g : ghost) : ghost :=
  mkGhost (delete i (inside g)) (lowner g) (where_ g).

Lemma upd_enter i a c :
  ginv c → announcements c.1 !! i = Some a → current_epoch c.1 = a →
  update i c (c.1, enter i a c.2).
Proof.
  intros [] Ha He. apply update_intro.
  - split; simpl; auto. intros t b Hb. apply lookup_insert_Some in Hb as [[<- <-]|[_ Hb]];
      [|auto]. split; [exists a; split_and!; [done|lia..]|lia].
  - split; simpl; auto with lia. intros t b Hb.
    apply lookup_insert_Some in Hb as [[<- <-]|[_ Hb]]; [right; lia|auto].
  - intros j Hj. split; simpl; auto. by rewrite lookup_insert_ne.
Qed.

Lemma upd_leave i c : ginv c → update i c (poke (last_c i) (-1) c.1, leave i c.2).
Proof.
  intros []. apply update_intro.
  - split; simpl; auto.
    + by rewrite length_insert.
    + intros t a Ha. apply lookup_delete_Some in Ha as [Hne Ha].
      rewrite list_lookup_insert_ne by done. auto.
  - split; simpl; auto with lia. intros t a Ha. apply lookup_delete_Some in Ha as [_ Ha]. auto.
  - intros j Hj. split; simpl; auto.
    + by rewrite list_lookup_insert_ne.
    + by rewrite lookup_delete_ne.
Qed.

Lemma upd_epoch i e c :
  ginv c → current_epoch c.1 = e → (∀ t a, inside c.2 !! t = Some a → e ≤ a) →
  update i c (poke current_epoch_c (e + 1) c.1, c.2).
Proof.
  intros [] He Hall. apply update_intro.
  - split; simpl; auto with lia.
    + intros t a Ha. destruct (inv_inside0 t a Ha) as [? ?]. specialize (Hall t a Ha).
      split; [done|lia].
    + intros p o e' l Hw. specialize (inv_retired0 p o e' l Hw). lia.
  - split; simpl; auto with lia.
  - intros j Hj. split; simpl; auto.
Qed.

Definition set_where (w : gmap Z place) (g : ghost) : ghost :=
  mkGhost (inside g) (lowner g) w.

Lemma upd_new i p x c :
  ginv c → ¬ live p c → pad x = 10 → head x = 10 → tail x = 10 →
  update i c (set_objs (<[p := x]> (objs c.1)) c.1,
              set_where (<[p := Priv i]> (where_ c.2)) c.2).
Proof.
  intros [] Hp Hpd Hh Ht.
  assert (∀ q w, where_ c.2 !! q = Some w → p ≠ q) as Hne.
  { intros q w Hq ->. eapply Hp, inv_live0; eauto. }
  apply update_intro.
  - split; simpl; auto.
    + intros r q Hr Hq. rewrite lookup_insert_ne; [by auto|]. eapply Hne. eauto.
    + intros q w Hq. apply lookup_insert_Some in Hq as [[<- <-]|[Hpq Hq]].
      * exists x. simpl. by rewrite lookup_insert_eq.
      * destruct (inv_live0 q w Hq) as (y & ? & ?). exists y. simpl.
        by rewrite lookup_insert_ne.
    + intros q o e l Hq. apply lookup_insert_Some in Hq as [[? ?]|[_ Hq]]; [done|eauto].
  - split; simpl; auto with lia.
  - intros j Hj. split; simpl; auto.
    + intros q w Hq _. rewrite lookup_insert_ne; [done|by eapply Hne].
    + intros q a _ (w & Hq & Hs). exists w. simpl.
      rewrite lookup_insert_ne; [done|by eapply Hne].
Qed.

(** publishing object [p] in root [r], whose previous object becomes private *)
Lemma upd_publish i r p o c :
  ginv c → has_place p (Priv i) c → default 0 (hook_state c.1 !! r) = o →
  update i c (poke (root_c r) p c.1,
    set_where ((if decide (o = 0) then id else <[o := Priv i]>)
                 (<[p := Reach r]> (where_ c.2))) c.2).
Proof.
  intros Hc Hp Ho'. pose proof Hc as []. unfold has_place in Hp.
  assert (o ≠ 0 → hook_state c.1 !! r = Some o) as Ho.
  { destruct (hook_state c.1 !! r); simpl in Ho'; congruence. }
  set (w' := (if decide (o = 0) then id else <[o := Priv i]>) (<[p := Reach r]> (where_ c.2))).
  assert (o ≠ 0 → o ≠ p) as Hop.
  { intros Hne ->. specialize (inv_roots0 r p (Ho Hne) Hne). congruence. }
  assert (∀ q, q ≠ p → (o = 0 ∨ q ≠ o) → w' !! q = where_ c.2 !! q) as Hother.
  { intros q Hqp Hqo. subst w'. case_decide; simpl;
      [|rewrite lookup_insert_ne by (intros ->; by destruct Hqo)]; by rewrite lookup_insert_ne. }
  assert (w' !! p = Some (Reach r)) as Hwp.
  { subst w'. case_decide; simpl; [|rewrite lookup_insert_ne by auto];
      by rewrite lookup_insert_eq. }
  assert (o ≠ 0 → w' !! o = Some (Priv i)) as Hwo.
  { intros. subst w'. rewrite decide_False by done. by rewrite lookup_insert_eq. }
  apply update_intro.
  - split; simpl; auto; fold w'.
    + intros r' q Hr Hq. destruct (decide (r' = r)) as [->|Hrr].
      * rewrite lookup_insert_eq in Hr. by injection Hr as <-.
      * rewrite lookup_insert_ne in Hr by done.
        specialize (inv_roots0 r' q Hr Hq). rewrite Hother; [done|congruence|].
        destruct (decide (o = 0)) as [|Hne]; [by left|right].
        intros ->. rewrite (Hc.(inv_roots _ _) r o (Ho Hne) Hne) in inv_roots0. congruence.
    + intros q w Hq. change (live q c).
      destruct (decide (q = p)) as [->|Hqp]; [by eapply inv_live0|].
      destruct (decide (o = 0 ∨ q ≠ o)) as [Hqo|Hqo]; [rewrite Hother in Hq by done; eauto|].
      destruct (decide (o = 0)); [tauto|]. assert (q = o) as -> by (destruct (decide (q = o)); tauto).
      eapply inv_live0. by apply (inv_roots0 r); auto.
    + intros q o' e l Hq. destruct (decide (q = p)) as [->|Hqp]; [congruence|].
      destruct (decide (o = 0)); [rewrite Hother in Hq by auto; eauto|].
      destruct (decide (q = o)) as [->|]; [rewrite Hwo in Hq by done; done|].
      rewrite Hother in Hq by auto. eauto.
  - split; simpl; auto with lia.
  - intros j Hj. split; simpl; auto; fold w'.
    + intros q w Hq Hw. rewrite Hother; [done|..].
      * intros ->. simplify_eq/=; congruence.
      * destruct (decide (o = 0)) as [|Hne]; [by left|right]. intros ->.
        rewrite (inv_roots0 r o (Ho Hne) Hne) in Hq. by injection Hq as <-.
    + intros q a _ (w & Hq & Hs). destruct (decide (q = p)) as [->|Hqp].
      { exists (Reach r). by simpl. }
      destruct (decide (o = 0)) as [|Hne].
      { exists w. simpl. fold w'. rewrite Hother; auto. }
      destruct (decide (q = o)) as [->|].
      { exists (Priv i). simpl. fold w'. auto. }
      exists w. simpl. fold w'. rewrite Hother; auto.
Qed.

Definition set_lowner (m : gmap Z nat) (g : ghost) : ghost :=
  mkGhost (inside g) m (where_ g).

(** object [p] goes to a new link [l] of thread [i] *)
Lemma upd_retire i p l nx c :
  ginv c → has_place p (Priv i) c → links c.1 !! l = None →
  update i c (set_links (<[l := mkLink nx false p]> (links c.1)) c.1,
    set_lowner (<[l := i]> (lowner c.2))
      (set_where (<[p := Retired i (current_epoch c.1) l]> (where_ c.2)) c.2)).
Proof.
  intros Hc Hp Hl. pose proof Hc as []. unfold has_place in Hp.
  assert (lowner c.2 !! l = None) as Hlo.
  { destruct (lowner c.2 !! l) eqn:E; [|done].
    destruct (proj2 (inv_links0 l)) as [? ?]; [by eexists|congruence]. }
  apply update_intro.
  - split; simpl; auto.
    + intros r q Hr Hq. rewrite lookup_insert_ne; [by auto|]. intros <-.
      specialize (inv_roots0 r p Hr Hq). congruence.
    + intros q w Hq. change (live q c). apply lookup_insert_Some in Hq as [[<- _]|[_ Hq]]; eauto.
    + intros q o e l' Hq. apply lookup_insert_Some in Hq as [[_ ?]|[_ Hq]]; [|by eauto].
      simplify_eq. lia.
    + intros l'. destruct (decide (l = l')) as [<-|Hne].
      * by rewrite !lookup_insert_eq.
      * by rewrite !lookup_insert_ne.
  - split; simpl; auto with lia.
  - intros j Hj. split; simpl; auto.
    + intros l' Hl'. rewrite !lookup_insert_ne by congruence. done.
    + intros q w Hq Hw. rewrite lookup_insert_ne; [done|]. intros <-.
      simplify_eq/=; congruence.
    + intros q a Ha (w & Hq & Hs). destruct (decide (p = q)) as [<-|Hne].
      * eexists. simpl. rewrite lookup_insert_eq. split; [done|].
        apply inv_inside0 in Ha as [_ ?]. simpl. lia.
      * exists w. simpl. by rewrite lookup_insert_ne.
Qed.

(** an object retired two epochs ago is destructed *)
Lemma upd_destruct i p e l x c :
  ginv c → has_place p (Retired i e l) c → e + 2 ≤ current_epoch c.1 →
  update i c (set_objs (<[p := x]> (objs c.1)) c.1,
              set_where (delete p (where_ c.2)) c.2).
Proof.
  intros Hc Hp He. pose proof Hc as []. unfold has_place in Hp. apply update_intro.
  - split; simpl; auto.
    + intros r q Hr Hq. rewrite lookup_delete_ne; [by auto|]. intros <-.
      specialize (inv_roots0 r p Hr Hq). congruence.
    + intros q w Hq. apply lookup_delete_Some in Hq as [Hne Hq].
      destruct (inv_live0 q w Hq) as (y & ? & ?). exists y. simpl. by rewrite lookup_insert_ne.
    + intros q o e' l' Hq. apply lookup_delete_Some in Hq as [_ Hq]. eauto.
  - split; simpl; auto with lia.
  - intros j Hj. split; simpl; auto.
    + intros q w Hq Hw. rewrite lookup_delete_ne; [done|]. intros <-.
      simplify_eq/=; congruence.
    + intros q a Ha (w & Hq & Hs). exists w. simpl. rewrite lookup_delete_ne; [done|].
      intros <-. simplify_eq/=. apply inv_inside0 in Ha as [_ ?]. lia.
Qed.

Lemma upd_free i l c :
  ginv c → lowner c.2 !! l = Some i →
  update i c (set_links (delete l (links c.1)) c.1,
              set_lowner (delete l (lowner c.2)) c.2).
Proof.
  intros [] Hl. apply update_intro.
  - split; simpl; auto. intros l'. destruct (decide (l = l')) as [<-|Hne].
    + rewrite !lookup_delete_eq. split; by intros [].
    + by rewrite !lookup_delete_ne.
  - split; simpl; auto with lia.
  - intros j Hj. split; simpl; auto. intros l' Hl'.
    rewrite !lookup_delete_ne by congruence. done.
Qed.
End updates.

(** ** The code keeps the protocol *)
Section code.
Context (workers : nat) (alloc_link : gmap Z Link → Z) (alloc_node : gmap Z padded → Z).
(** The allocators give an address that is not in use: free, or that of a
    destructed object. *)
Context (alloc_link_fresh : ∀ m, m !! alloc_link m = None ∧ alloc_link m ≠ 0).
Context (alloc_node_fresh : ∀ m x, m !! alloc_node m = Some x → head x ≠ 10).
#[local] Abbreviation cstate := (Epoch.state (gmap nat Z)).
#[local] Abbreviation gstate := (cstate * ghost)%type.
Implicit Types c : gstate.
#[local] Abbreviation ginv := (ginv workers).
#[local] Abbreviation ht := (Conc.ht (reclamation workers) tolerated).
#[local] Abbreviation stable := (Conc.stable (reclamation workers)).

Lemma pool_lt i c : ginv c → (i < workers)%nat → ∃ pid, pools c.1 !! i = Some pid.
Proof. intros [] Hi. apply lookup_lt_is_Some_2. congruence. Qed.

Lemma ann_lt i c : ginv c → (i < workers)%nat → ∃ v, announcements c.1 !! i = Some v.
Proof. intros [] Hi. apply lookup_lt_is_Some_2. congruence. Qed.

Lemma ht_load_ann i t (P : gstate → Prop) Q : (t < workers)%nat → stable i P →
  (∀ v c, ginv c → P c → announcements c.1 !! t = Some v → Q v c) →
  ht i P (load (last_c t)) Q.
Proof.
  intros Ht Hst HQ. apply ht_load; [done|]. intros c Hc HP.
  destruct (ann_lt t c Hc Ht) as [v Hv]. simpl. unfold at_index. rewrite Hv. by apply HQ.
Qed.

Lemma ht_load_epoch i (P : gstate → Prop) Q : stable i P →
  (∀ c, ginv c → P c → Q (current_epoch c.1) c) → ht i P get_current Q.
Proof. intros Hst HQ. apply ht_load; [done|]. intros c Hc HP. simpl. auto. Qed.

Lemma ht_load_pool i pid (P : gstate → Prop) Q : stable i P →
  (∀ c, P c → pool_is i pid c) → (∀ c, P c → Q pid c) → ht i P (load (pool_c i)) Q.
Proof.
  intros Hst Hp HQ. apply ht_load; [done|]. intros c Hc HP. simpl. unfold at_index.
  specialize (Hp c HP). unfold pool_is in Hp. rewrite Hp. by apply HQ.
Qed.

(** the other facts of thread [i] survive an update of its pool record *)
Lemma ht_store_pool i pid' (P : gstate → Prop) (Q : gstate → Prop) : stable i P →
  (∀ c, P c → ∃ pid, pool_is i pid c) →
  (∀ c, ginv c → P c → pool_is i pid' (poke (pool_c i) pid' c.1, c.2) →
     Q (poke (pool_c i) pid' c.1, c.2)) →
  ht i P (store (pool_c i) pid') (λ _, Q).
Proof.
  intros Hst Hp HQ. apply ht_store; [done|]. intros c Hc HP.
  destruct (Hp c HP) as [pid Hpid]. simpl. unfold at_index. rewrite Hpid.
  exists c.2. split; [by eapply upd_pool|]. apply HQ; [done..|].
  unfold pool_is. simpl. apply list_lookup_insert_eq. by eapply lookup_lt_Some.
Qed.

(** *** update_epoch: the scan and the increment *)

(** the threads of [done] that are inside an epoch validated it at [e] or later *)
Definition scanned (e : Z) (done : nat → Prop) c : Prop :=
  e ≤ current_epoch c.1 ∧ ∀ t a, inside c.2 !! t = Some a → done t → e ≤ a.

Lemma stable_scanned i e done : stable i (scanned e done).
Proof.
  intros c c' [He Hd] _ [[Hs Hi] _]. split; [lia|]. intros t a Ha Ht.
  destruct (Hi t a Ha) as [Ha'|?]; [by eapply Hd|lia].
Qed.
#[local] Hint Resolve stable_scanned : stab.

Lemma scanned_add e done t c :
  scanned e done c → (∀ a, inside c.2 !! t = Some a → e ≤ a) →
  scanned e (λ u, done u ∨ u = t) c.
Proof. intros [He Hd] Ht. split; [done|]. intros u a Hu [Hdu| ->]; eauto. Qed.

Lemma ht_all_there i (P : gstate → Prop) e idxs :
  stable i P → Forall (λ t, (t < workers)%nat) idxs → ∀ done,
  ht i (λ c, P c ∧ scanned e done c) (all_there idxs e)
     (λ b c, P c ∧ (b = true → scanned e (λ u, done u ∨ u ∈ idxs) c)).
Proof.
  intros HP. induction 1 as [|t idxs Ht _ IH]; intros done; cbn -[load].
  { apply ht_ret. intros c [? [? Hd]]. split; [done|]. intros _. split; [done|].
    intros u a Hu [?|Hin%elem_of_nil]; [eauto|done]. }
  eapply (ht_bind _ _ _ _ _ _ (λ a c, (P c ∧ scanned e done c) ∧
            (a = -1 → scanned e (λ u, done u ∨ u = t) c))).
  { apply ht_load_ann; [done|auto with stab|]. intros v c Hc HPc. split; [done|].
    destruct HPc as [_ ?]. intros ->. apply scanned_add; [done|]. intros a Ha.
    destruct (inv_inside _ _ Hc t a Ha) as [(b & Hb & ? & _) _].
    unfold last_c in *. simpl in *. congruence. }
  intros a. destruct (Z.eqb_spec a (-1)) as [->|Ha].
  { eapply ht_weaken; [apply (IH (λ u, done u ∨ u = t))|intros c [[? ?] Hs]; auto|].
    intros b c [? Hb]. split; [done|]. intros ->. destruct (Hb eq_refl) as [? Hd].
    split; [done|]. intros u x Hu Hin. eapply Hd; [done|]. rewrite elem_of_cons in Hin. tauto. }
  eapply (ht_bind _ _ _ _ _ _ (λ b c, P c ∧ (e ≤ b → scanned e (λ u, done u ∨ u = t) c))).
  { eapply (ht_weaken _ _ _ _ (λ c, P c ∧ scanned e done c)); [|intros c [Hs _]; exact Hs|intros b c Hb; exact Hb].
    apply ht_load_ann; [done|auto with stab|]. intros v c Hc [? ?]. split; [done|].
    intros Hv. apply scanned_add; [done|]. intros x Hx.
    destruct (inv_inside _ _ Hc t x Hx) as [(b & Hb & _ & ?) _]. simplify_eq. lia. }
  intros b. destruct (Z.ltb_spec b e).
  { apply ht_ret. intros c [? _]. done. }
  eapply ht_weaken; [apply (IH (λ u, done u ∨ u = t))|intros c [? Hs]; auto|].
  intros b' c [? Hb]. split; [done|]. intros ->. destruct (Hb eq_refl) as [? Hd].
  split; [done|]. intros u x Hu Hin. eapply Hd; [done|]. rewrite elem_of_cons in Hin. tauto.
Qed.

Lemma ht_update_epoch i (P : gstate → Prop) :
  stable i P → (∀ c e, ginv c → P c → P (poke current_epoch_c e c.1, c.2)) →
  ht i P (update_epoch workers [] [] i) (λ _, P).
Proof.
  intros HP Hfr. unfold update_epoch.
  eapply (ht_bind _ _ _ _ _ _ (λ e c, P c ∧ scanned e (λ _, False) c)).
  { apply ht_load_epoch; [done|]. intros c _ ?. split; [done|]. split; [lia|done]. }
  intros e. eapply ht_bind.
  { apply ht_all_there; [done|]. apply Forall_forall. intros t Ht%elem_of_seq. lia. }
  intros [|]; [|by apply ht_ret; intros c [? _]]. cbn [when run_hooks for_each].
  change (Ret () ≫= ?h) with (h ()). cbv beta.
  eapply (ht_bind _ _ _ _ _ _ (λ _, P)); [|intros [|]; apply ht_ret; auto].
  unfold cas. eapply (ht_bind _ _ _ _ _ _ (λ _, P)); [|intros [? ?]; apply ht_ret; auto].
  apply ht_act.
  { eapply (stable_and _ _ P _ HP).
    intros c c' H1 H2 H3 _. eapply (stable_scanned i e); [by apply H1|done..]. }
  intros [s g] Hc [HPc Hd]. unfold on_cell; simpl. case_decide as He.
  - exists g. split; [|by apply (Hfr (s, g))]. apply (upd_epoch workers i e (s, g)); [done..|].
    intros t a Ha. destruct (Hd eq_refl) as [_ Hall]. eapply Hall; [done|]. right.
    destruct (inv_inside _ _ Hc t a Ha) as [(b & Hb%lookup_lt_Some & _) _].
    rewrite (inv_ann _ _ Hc) in Hb. simpl in Hb. apply elem_of_seq. lia.
  - exists g. split; [by apply update_refl|done].
Qed.

(** *** The lists of retired objects *)

(** what else thread [i] holds while it works on its lists *)
Definition holds (i : nat) (a p : Z) c : Prop :=
  inside_is i (Some a) c ∧ has_place p (Priv i) c.
Definition any (e : Z) : Prop := True.

Lemma stable_holds i a p : stable i (holds i a p).
Proof. unfold holds. auto with stab. Qed.
#[local] Hint Resolve stable_holds : stab.

(** a list about to be freed next to one that stays *)
Definition clearing (i : nat) (a p : Z) (pid : old_current) (B : Z → Prop) (ptr : Z)
    (L Lc : list Z) c : Prop :=
  chain i B ptr L c ∧ chain i any (current pid) Lc c ∧ NoDup (L ++ Lc) ∧
  pool_is i pid c ∧ holds i a p c.

Lemma stable_clearing i a p pid B ptr L Lc : stable i (clearing i a p pid B ptr L Lc).
Proof. unfold clearing. auto 6 with stab. Qed.
#[local] Hint Resolve stable_clearing : stab.

(** the first link of a list *)
Definition at_link (i : nat) (l nx q e : Z) c : Prop :=
  l ≠ 0 ∧ lowner c.2 !! l = Some i ∧ links c.1 !! l = Some (mkLink nx false q) ∧
  has_place q (Retired i e l) c.

Lemma stable_at_link i l nx q e : stable i (at_link i l nx q e).
Proof.
  intros c c' (? & Hlo & Hk & Hp) _ [_ Ho].
  destruct (own_links _ _ _ Ho l Hlo) as [? ?].
  split_and!; [done|done|congruence|by apply (own_places _ _ _ Ho)].
Qed.
#[local] Hint Resolve stable_at_link : stab.

Lemma clearing_cons i a p pid B ptr l L Lc c :
  clearing i a p pid B ptr (l :: L) Lc c ↔
  ptr = l ∧ (l ∉ L ++ Lc) ∧ ∃ nx q e, B e ∧ at_link i l nx q e c ∧
    clearing i a p pid B nx L Lc c.
Proof.
  unfold clearing, at_link; simpl. rewrite NoDup_cons. split.
  - intros ((-> & ? & ? & nx & q & e & ? & ? & ? & ?) & ? & [? ?] & ? & ?).
    split_and!; [done..|]. exists nx, q, e. auto 9.
  - intros (-> & ? & nx & q & e & ? & (? & ? & ? & ?) & ? & ? & ? & ? & ?).
    split_and!; [done..| |done|done|done|done|done]. exists nx, q, e. auto.
Qed.

(** destructing the object of the first link *)
Lemma clearing_destruct i a p pid B ptr L Lc l nx q e x c :
  ginv c → clearing i a p pid B ptr L Lc c → at_link i l nx q e c → l ∉ L ++ Lc →
  let c' := (set_objs (<[q := x]> (objs c.1)) c.1, set_where (delete q (where_ c.2)) c.2) in
  clearing i a p pid B ptr L Lc c'.
Proof.
  intros Hc (H1 & H2 & H3 & H4 & H5 & H6) (_ & _ & _ & Hq) Hl c'.
  rewrite elem_of_app in Hl.
  assert (∀ q' e' l', l' ∈ L ++ Lc → where_ c.2 !! q' = Some (Retired i e' l') →
    where_ c'.2 !! q' = Some (Retired i e' l')) as Hw.
  { intros q' e' l' Hl' Hq'. simpl. rewrite lookup_delete_ne; [done|]. intros <-.
    unfold has_place in Hq. simplify_eq. by rewrite elem_of_app in Hl'. }
  split_and!; [| |done|done|split; [done|]].
  - eapply chain_frame; [by auto|exact Hc|by auto| |exact H1].
    intros; apply Hw; [apply elem_of_app|]; auto.
  - eapply chain_frame; [by auto|exact Hc|by auto| |exact H2].
    intros; apply Hw; [apply elem_of_app|]; auto.
  - unfold has_place in *. simpl. rewrite lookup_delete_ne; [done|congruence].
Qed.

(** freeing a link that is in neither list *)
Lemma clearing_free i a p pid B ptr L Lc l c :
  ginv c → clearing i a p pid B ptr L Lc c → l ∉ L ++ Lc →
  let c' := (set_links (delete l (links c.1)) c.1, set_lowner (delete l (lowner c.2)) c.2) in
  clearing i a p pid B ptr L Lc c'.
Proof.
  intros Hc (H1 & H2 & H3 & H4 & H5 & H6) Hl c'. rewrite elem_of_app in Hl.
  assert (∀ l', (l' ∈ L ∨ l' ∈ Lc) → lowner c.2 !! l' = Some i →
    lowner c'.2 !! l' = Some i ∧ links c'.1 !! l' = links c.1 !! l') as Hk.
  { intros l' Hl' ?. simpl. by rewrite !lookup_delete_ne by (intros ->; auto). }
  split_and!; [| |done..].
  - eapply chain_frame; [by auto|exact Hc|by auto|by auto|exact H1].
  - eapply chain_frame; [by auto|exact Hc|by auto|by auto|exact H2].
Qed.

Lemma ht_load_obj i q w (P : gstate → Prop) Q :
  stable i P → (∀ c, P c → has_place q w c) →
  (∀ x c, P c → pad x = 10 → head x = 10 → tail x = 10 → Q x c) →
  ht i P (load (obj_c q)) Q.
Proof.
  intros Hst Hw HQ. apply ht_load; [done|]. intros c Hc HP.
  destruct (inv_live _ _ Hc q w (Hw c HP)) as (x & Hx & ? & ? & ?).
  unfold obj_c; simpl. rewrite Hx. by apply HQ.
Qed.

Lemma ht_load_link i l nx q e (P : gstate → Prop) Q :
  stable i P → (∀ c, P c → at_link i l nx q e c) →
  (∀ c, P c → Q (mkLink nx false q) c) → ht i P (load (link_c l)) Q.
Proof.
  intros Hst Hl HQ. apply ht_load; [done|]. intros c Hc HP.
  destruct (Hl c HP) as (Hl0 & _ & Hk & _). unfold link_c, at_addr; simpl.
  rewrite (proj2 (Z.eqb_neq _ _) Hl0), Hk. by apply HQ.
Qed.

(** one round of clear_list on a list whose objects were retired two epochs ago *)
Lemma ht_clear_list i a p pid B Lc fuel ptr :
  ht i (λ c, ∃ L, clearing i a p pid (λ e, e ≤ B) ptr L Lc c ∧ epoch_ge (B + 2) c)
     (clear_list fuel ptr)
     (λ _ c, clearing i a p pid any 0 [] Lc c).
Proof.
  unfold clear_list.
  apply (ht_iter _ _ _ (λ ptr c, ∃ L, clearing i a p pid (λ e, e ≤ B) ptr L Lc c ∧
                                    epoch_ge (B + 2) c)); [done|].
  clear ptr. intros l. apply ht_exists. intros L.
  destruct (Z.eqb_spec l 0) as [->|Hl0].
  { apply ht_ret. intros c [Hcl _]. destruct L as [|l L].
    - destruct Hcl as (_ & ? & ? & ? & ?). by split_and!.
    - apply clearing_cons in Hcl as (<- & _ & nx & q & e & _ & (? & _) & _). done. }
  destruct L as [|l' L].
  { intros c Hc [(? & _) _]. done. }
  eapply (ht_weaken _ _ _ _ (λ c, ∃ nx q e, ((l ∉ L ++ Lc) ∧ e ≤ B) ∧ at_link i l nx q e c ∧
    clearing i a p pid (λ e, e ≤ B) nx L Lc c ∧ epoch_ge (B + 2) c)); [| |intros r c Hr; exact Hr].
  2:{ intros c [(-> & ? & nx & q & e & ? & ? & ?)%clearing_cons ?]. exists nx, q, e. auto. }
  apply ht_exists; intros nx. apply ht_exists; intros q. apply ht_exists; intros e.
  apply ht_pure. intros [Hl He].
  set (P := λ c, at_link i l nx q e c ∧
    clearing i a p pid (λ e, e ≤ B) nx L Lc c ∧ epoch_ge (B + 2) c).
  assert (stable i P) as HP by (unfold P; auto with stab).
  eapply (ht_bind _ _ _ _ _ _ (λ k c, k = mkLink nx false q ∧ P c)).
  { eapply ht_load_link; [done|by intros c [? _]|done]. }
  intros k. apply ht_pure. intros ->.
  eapply (ht_bind _ _ _ _ _ _ (λ k c, k = mkLink nx false q ∧ P c)).
  { eapply ht_load_link; [done|by intros c [? _]|done]. }
  intros k. apply ht_pure. intros ->. cbn [skip negb when value next].
  eapply (ht_bind _ _ _ _ _ _ (λ _ c, lowner c.2 !! l = Some i ∧
    clearing i a p pid (λ e, e ≤ B) nx L Lc c ∧ epoch_ge (B + 2) c)).
  - eapply (ht_bind _ _ _ _ _ _ (λ x c, (head x = 10 ∧ tail x = 10) ∧ P c)).
    { eapply ht_load_obj; [done|intros c [(_ & _ & _ & ?) _]; eassumption|done]. }
    intros x. apply ht_pure. intros [-> ->]. apply ht_assert; [done|]. unfold destruct.
    eapply (ht_bind _ _ _ _ _ _ (λ _, P)).
    { eapply ht_load_obj; [done|intros c [(_ & _ & _ & ?) _]; eassumption|done]. }
    intros y. apply ht_store; [done|]. intros c Hc (Hat & Hcl & Hge).
    pose proof Hat as (_ & Hlo & _ & Hq).
    destruct (inv_live _ _ Hc q _ Hq) as (z & Hz & _). cbn [peek obj_c]. rewrite Hz.
    exists (set_where (delete q (where_ c.2)) c.2). split.
    + eapply upd_destruct; [done..|]. unfold epoch_ge in Hge. lia.
    + split_and!; [done| |done]. by eapply clearing_destruct.
  - intros _. eapply (ht_bind _ _ _ _ _ _ (λ _ c,
      clearing i a p pid (λ e, e ≤ B) nx L Lc c ∧ epoch_ge (B + 2) c)).
    + apply ht_act.
      { apply (stable_and _ _ (λ c, lowner c.2 !! l = Some i)); [|auto with stab].
        intros c c' H _ [_ Ho]. by apply (own_links _ _ _ Ho). }
      intros c Hc (Hlo & Hcl & Hge). exists (set_lowner (delete l (lowner c.2)) c.2).
      split; [by apply upd_free|]. split; [by apply clearing_free|done].
    + intros _. apply ht_ret. eauto.
Qed.

(** a list that needs only the fields the state shares with [c] *)
Lemma chain_same i B c c' ptr L :
  ginv c → lowner c'.2 = lowner c.2 → links c'.1 = links c.1 → where_ c'.2 = where_ c.2 →
  chain i B ptr L c → chain i B ptr L c'.
Proof.
  intros Hc H1 H2 H3. apply (chain_frame workers); [by auto|done| |]; rewrite ?H1, ?H2, ?H3; auto.
Qed.

Lemma clearing_pool i a p pid' B ptr L Lc v c :
  let c' := (poke (pool_c i) v c.1, c.2) in
  ginv c → chain i B ptr L c → chain i any (current pid') Lc c → NoDup (L ++ Lc) →
  holds i a p c → pool_is i pid' c' → clearing i a p pid' B ptr L Lc c'.
Proof. intros c' Hc H1 H2 ? ? ?. split_and!; [by eapply chain_same..|done|done|done]. Qed.

(** the lists between two operations of thread [i] *)
Definition lists (i : nat) c : Prop := ∃ pid Lo Lc,
  pool_is i pid c ∧ chain i (λ e, e ≤ epoch pid) (old pid) Lo c ∧
  chain i any (current pid) Lc c ∧ NoDup (Lo ++ Lc).

Lemma stable_lists i : stable i (lists i).
Proof. unfold lists. auto 9 with stab. Qed.
#[local] Hint Resolve stable_lists : stab.

Lemma lists_same i c c' :
  ginv c → pools c'.1 = pools c.1 → lowner c'.2 = lowner c.2 → links c'.1 = links c.1 →
  where_ c'.2 = where_ c.2 → lists i c → lists i c'.
Proof.
  intros Hc Hp H1 H2 H3 (pid & Lo & Lc & ? & ? & ? & ?). exists pid, Lo, Lc.
  split_and!; [unfold pool_is; by rewrite Hp|by eapply chain_same..|done].
Qed.

Lemma clearing_lists i a p c :
  lists i c ∧ holds i a p c ↔ ∃ pid Lo Lc,
    clearing i a p pid (λ e, e ≤ epoch pid) (old pid) Lo Lc c.
Proof.
  split.
  - intros [(pid & Lo & Lc & ? & ? & ? & ?) ?]. exists pid, Lo, Lc. by split_and!.
  - intros (pid & Lo & Lc & ? & ? & ? & ? & ?). split; [|done]. exists pid, Lo, Lc. by split_and!.
Qed.

Abbreviation advance_epoch := (advance_epoch workers [] []).

(** the rotation of the lists in advance_epoch, once [epoch pid + 1 < cur] *)
Lemma ht_rotate i a p fuel pid Lo Lc :
  ht i (λ c, clearing i a p pid (λ e, e ≤ epoch pid) (old pid) Lo Lc c ∧
             epoch_ge (epoch pid + 2) c)
     (clear_list fuel (old pid) ;;
      pid1 ← load (pool_c i);
      store (pool_c i) (mkOldCurrent (current pid1) 0 (epoch pid1) (count pid1) (time pid1)) ;;
      e ← get_current;
      pid2 ← load (pool_c i);
      store (pool_c i) (mkOldCurrent (old pid2) (current pid2) e (count pid2) (time pid2)))
     (λ _ c, lists i c ∧ holds i a p c).
Proof.
  eapply (ht_bind _ _ _ _ _ _ (λ _, clearing i a p pid any 0 [] Lc)).
  { eapply ht_weaken; [apply (ht_clear_list i a p pid (epoch pid) Lc)| |done].
    intros c [? ?]. by exists Lo. }
  intros _. eapply (ht_bind _ _ _ _ _ _ (λ v c, v = pid ∧ clearing i a p pid any 0 [] Lc c)).
  { apply (ht_load_pool i pid); [auto with stab|by intros c (_ & _ & _ & ? & _)|done]. }
  intros v. apply ht_pure. intros ->.
  set (pid' := mkOldCurrent (current pid) 0 (epoch pid) (count pid) (time pid)).
  eapply (ht_bind _ _ _ _ _ _ (λ _, clearing i a p pid' any (old pid') Lc [])).
  { apply ht_store_pool; [auto with stab|intros c (_ & _ & _ & ? & _); eauto|].
    intros c Hc (_ & ? & Hnd & _ & ?) ?. apply clearing_pool; [done|done|done| |done..].
    by rewrite app_nil_r. }
  intros _. eapply (ht_bind _ _ _ _ _ _ (λ e, clearing i a p pid' (λ e', e' ≤ e) (old pid') Lc [])).
  { apply ht_load_epoch; [auto with stab|]. intros c Hc (H1 & H2). split; [|done].
    eapply (chain_frame workers); [|done|..|done]; auto. }
  intros e. eapply (ht_bind _ _ _ _ _ _ (λ v c, v = pid' ∧
    clearing i a p pid' (λ e', e' ≤ e) (old pid') Lc [] c)).
  { apply (ht_load_pool i pid'); [auto with stab|by intros c (_ & _ & _ & ? & _)|done]. }
  intros v. apply ht_pure. intros ->.
  apply ht_store_pool; [auto with stab|intros c (_ & _ & _ & ? & _); eauto|].
  intros c Hc (? & ? & ? & _ & ?) ?. apply clearing_lists.
  exists (mkOldCurrent (current pid) 0 e (count pid) (time pid)), Lc, [].
  by apply clearing_pool.
Qed.

Lemma ht_advance_epoch i a p fuel now :
  ht i (λ c, lists i c ∧ holds i a p c) (advance_epoch fuel i now)
     (λ _ c, lists i c ∧ holds i a p c).
Proof.
  unfold Epoch.advance_epoch.
  set (P := λ c, lists i c ∧ holds i a p c).
  assert (stable i P) as HP by (unfold P; auto with stab).
  eapply (ht_bind _ _ _ _ _ _ (λ pid c, ∃ Lo Lc,
    clearing i a p pid (λ e, e ≤ epoch pid) (old pid) Lo Lc c)).
  { apply ht_load; [done|]. intros c Hc (pid & Lo & Lc & H)%clearing_lists.
    pose proof H as (_ & _ & _ & Hp & _). simpl. unfold at_index. unfold pool_is in Hp.
    rewrite Hp. eauto. }
  intros pid. eapply (ht_bind _ _ _ _ _ _ (λ cur c, (∃ Lo Lc,
    clearing i a p pid (λ e, e ≤ epoch pid) (old pid) Lo Lc c ∧ epoch_ge cur c))).
  { apply ht_load_epoch; [auto with stab|]. intros c Hc (Lo & Lc & H). exists Lo, Lc.
    split; [done|]. unfold epoch_ge. lia. }
  intros cur. eapply (ht_bind _ _ _ _ _ _ (λ _, P)).
  { apply ht_exists; intros Lo. apply ht_exists; intros Lc.
    destruct (Z.ltb_spec (epoch pid + 1) cur); cbn [when].
    - eapply ht_weaken; [apply ht_rotate| |intros r c Hp; exact Hp]. intros c [? ?]. split; [done|].
      unfold epoch_ge in *. lia.
    - apply ht_ret. intros c [? _]. apply clearing_lists. eauto. }
  assert (∀ v, ∀ c, ginv c → P c → pools c.1 !! i = Some v → ∀ n t,
    pool_is i (mkOldCurrent (old v) (current v) (epoch v) n t)
      (poke (pool_c i) (mkOldCurrent (old v) (current v) (epoch v) n t) c.1, c.2) →
    P (poke (pool_c i) (mkOldCurrent (old v) (current v) (epoch v) n t) c.1, c.2)) as Hpool.
  { intros v c Hc HPc Hv n t Hp. apply clearing_lists in HPc as (pid' & Lo & Lc & H).
    destruct H as (? & ? & ? & Hp' & ?). unfold pool_is in Hp'.
    assert (pid' = v) as -> by congruence.
    apply clearing_lists. exists (mkOldCurrent (old v) (current v) (epoch v) n t), Lo, Lc.
    by apply clearing_pool. }
  intros _. eapply (ht_bind _ _ _ _ _ _ (λ v c, P c ∧ pool_is i v c)).
  { apply ht_load; [done|]. intros c Hc HPc.
    pose proof HPc as (pid' & Lo & Lc & H)%clearing_lists.
    destruct H as (_ & _ & _ & Hp & _). simpl. unfold at_index. unfold pool_is in Hp.
    by rewrite Hp. }
  intros v. eapply (ht_bind _ _ _ _ _ _ (λ _ c, P c ∧
    pool_is i (mkOldCurrent (old v) (current v) (epoch v) (count v + 1) (time v)) c)).
  { apply ht_store_pool; [auto with stab|intros c [_ ?]; eauto|].
    intros c Hc [? ?] ?. split; [by apply Hpool|done]. }
  intros _. destruct (_ || _); [|apply ht_ret; by intros c [? _]]. cbn [when].
  eapply (ht_bind _ _ _ _ _ _ (λ _, P)).
  { apply ht_store_pool; [auto with stab|intros c [_ ?]; eauto|].
    intros c Hc [? ?] ?. by apply (Hpool (mkOldCurrent (old v) (current v) (epoch v) (count v + 1) (time v))). }
  intros _. apply ht_update_epoch; [done|]. intros c e Hc [H1 H2]. split; [|done].
  by eapply lists_same.
Qed.

Lemma ht_retire i a p fuel now :
  ht i (λ c, lists i c ∧ holds i a p c) (retire workers alloc_link [] [] fuel i now p)
     (λ _ c, lists i c ∧ inside_is i (Some a) c).
Proof.
  unfold retire, add_to_current_list.
  eapply (ht_bind _ _ _ _ _ _ (λ _ c, lists i c ∧ holds i a p c)); [apply ht_advance_epoch|].
  intros _. eapply (ht_bind _ _ _ _ _ _ (λ v c, ∃ Lo Lc,
    clearing i a p v (λ e, e ≤ epoch v) (old v) Lo Lc c)).
  { apply ht_load; [auto with stab|]. intros c Hc (pid & Lo & Lc & H)%clearing_lists.
    pose proof H as (_ & _ & _ & Hp & _). simpl. unfold at_index. unfold pool_is in Hp.
    rewrite Hp. eauto. }
  intros v. apply ht_exists; intros Lo. apply ht_exists; intros Lc.
  eapply (ht_bind _ _ _ _ _ _ (λ l c, chain i (λ e, e ≤ epoch v) (old v) Lo c ∧
    chain i any l (l :: Lc) c ∧ NoDup (Lo ++ l :: Lc) ∧ pool_is i v c ∧
    inside_is i (Some a) c)).
  - apply ht_act; [auto with stab|]. intros c Hc (H1 & H2 & Hnd & Hp & Hin & Hpl).
    destruct (alloc_link_fresh (links c.1)) as [Hl Hl0].
    set (l := alloc_link (links c.1)) in *. eexists. split; [by eapply upd_retire|].
    assert (lowner c.2 !! l = None) as Hlo.
    { apply eq_None_not_Some. rewrite <-(inv_links _ _ Hc l), Hl. by intros []. }
    assert (∀ B ptr L, chain i B ptr L c → (l ∉ L) ∧
      chain i B ptr L (set_links (<[l := mkLink (current v) false p]> (links c.1)) c.1,
        set_lowner (<[l := i]> (lowner c.2))
          (set_where (<[p := Retired i (current_epoch c.1) l]> (where_ c.2)) c.2))) as Hch.
    { intros B ptr L. revert ptr. induction L as [|l' L IH]; intros ptr; simpl.
      { intros ->. split; [by apply not_elem_of_nil|done]. }
      intros (-> & ? & Hlo' & nx & q & e & Hk & Hw & HB & Hrest).
      apply IH in Hrest as [Hnin Hrest]. assert (l ≠ l') as Hne by congruence.
      split; [by rewrite not_elem_of_cons|]. split_and!; [done|done|by rewrite lookup_insert_ne|].
      exists nx, q, e. split_and!; [by rewrite lookup_insert_ne| |done|done].
      rewrite lookup_insert_ne; [done|]. intros <-. unfold has_place in Hpl. congruence. }
    destruct (Hch _ _ _ H1) as [Hn1 H1']. destruct (Hch _ _ _ H2) as [Hn2 H2'].
    split_and!; [done| | |done|done].
    + simpl. split_and!; [done|done|by rewrite lookup_insert_eq|].
      exists (current v), p, (current_epoch c.1). rewrite !lookup_insert_eq. done.
    + apply NoDup_app in Hnd as (? & Hd & ?). apply NoDup_app. split_and!; [done| |].
      * intros x Hx. rewrite not_elem_of_cons. split; [by intros ->|by apply Hd].
      * by apply NoDup_cons.
  - intros l. eapply (ht_bind _ _ _ _ _ _ (λ _ c, lists i c ∧ inside_is i (Some a) c));
      [|by intros _; apply ht_ret].
    apply ht_store_pool; [auto 9 with stab|by intros c (_ & _ & _ & ? & _); eauto|].
    intros c Hc (H1 & H2 & ? & ? & ?) Hp. split; [|done].
    eexists _, Lo, (l :: Lc). split_and!; [done| | |done].
    + simpl. by eapply chain_same.
    + simpl current. by eapply chain_same.
Qed.

(** *** Entering and leaving an epoch *)
Definition idle (i : nat) c : Prop := lists i c ∧ inside_is i None c.
Definition ann_is (i : nat) (v : Z) c : Prop := announcements c.1 !! i = Some v.
Lemma stable_ann i v : stable i (ann_is i v).
Proof. intros c c' ? _ [_ Ho]. unfold ann_is. by rewrite (own_ann _ _ _ Ho). Qed.
Lemma stable_idle i : stable i (idle i).
Proof. unfold idle. auto with stab. Qed.
#[local] Hint Resolve stable_ann stable_idle : stab.

Lemma ht_announce i fuel : (i < workers)%nat →
  ht i (idle i) (announce fuel i)
     (λ r c, r = (true, i) ∧ ∃ a, lists i c ∧ inside_is i (Some a) c).
Proof.
  intros Hi. unfold announce. apply (ht_iter _ _ _ (λ _, idle i)); [done|]. intros _.
  eapply (ht_bind _ _ _ _ _ _ (λ _, idle i)).
  { apply ht_load_epoch; auto with stab. }
  intros e. eapply (ht_bind _ _ _ _ _ _ (λ _ c, idle i c ∧ ann_is i e c)).
  { apply ht_act; [auto with stab|]. intros c Hc [Hl Hin]. unfold on_cell; simpl.
    destruct (ann_lt i c Hc Hi) as [v Hv]. unfold at_index. rewrite Hv. exists c.2.
    split; [by apply upd_announce|]. split; [split; [by eapply lists_same|done]|].
    unfold ann_is; simpl. apply list_lookup_insert_eq. by eapply lookup_lt_Some. }
  intros _. unfold get_current, load.
  eapply (ht_bind _ _ _ _ _ _ (λ v c, if v =? e then ∃ a, lists i c ∧ inside_is i (Some a) c
                                     else idle i c)).
  - apply ht_act; [auto with stab|]. intros c Hc [[Hl Hin] Ha]. unfold on_cell; simpl.
    destruct (Z.eqb_spec (current_epoch c.1) e) as [He|He].
    + exists (enter i e c.2). split; [by apply upd_enter|]. exists e.
      split; [by eapply lists_same|]. unfold inside_is; simpl. by rewrite lookup_insert_eq.
    + exists c.2. split; [|split; by rewrite <-?surjective_pairing].
      rewrite <-surjective_pairing. by apply update_refl.
  - intros v. destruct (v =? e); apply ht_ret; auto.
Qed.

Lemma ht_unannounce i a : (i < workers)%nat →
  ht i (λ c, lists i c ∧ inside_is i (Some a) c) (unannounce i) (λ _, idle i).
Proof.
  intros Hi. unfold unannounce.
  eapply (ht_bind _ _ _ _ _ _ (λ v c, v ≠ -1 ∧ lists i c ∧ inside_is i (Some a) c)).
  { apply ht_load_ann; [done|auto with stab|]. intros v c Hc [Hl Hin] Hv. split_and!; [|done..].
    destruct (inv_inside _ _ Hc i a Hin) as [(b & ? & ? & _) _]. congruence. }
  intros v. apply ht_pure. intros Hv. apply ht_assert.
  { apply negb_true_iff. by apply Z.eqb_neq. }
  apply ht_store; [auto with stab|]. intros c Hc [Hl Hin]. unfold last_c, at_index; simpl.
  destruct (ann_lt i c Hc Hi) as [w ->]. exists (leave i c.2).
  split; [by apply upd_leave|]. split; [by eapply lists_same|].
  unfold inside_is; simpl. by rewrite lookup_delete_eq.
Qed.

Lemma ht_with_epoch {A} i fuel (f : prog cstate A) (φ : A → Prop) : (i < workers)%nat →
  (∀ a, ht i (λ c, lists i c ∧ inside_is i (Some a) c) f
          (λ v c, φ v ∧ lists i c ∧ inside_is i (Some a) c)) →
  ht i (idle i) (with_epoch fuel i f) (λ v c, φ v ∧ idle i c).
Proof.
  intros Hi Hf. unfold with_epoch. eapply ht_bind; [by apply ht_announce|].
  intros r. apply ht_pure. intros ->. apply ht_exists. intros a.
  eapply ht_bind; [apply Hf|]. intros v. apply ht_pure. intros Hv.
  eapply ht_bind; [by apply ht_unannounce|]. intros u. by apply ht_ret.
Qed.

(** *** The client *)
Lemma ht_new_obj i a :
  ht i (λ c, lists i c ∧ inside_is i (Some a) c) (new_obj alloc_node)
     (λ p c, lists i c ∧ holds i a p c).
Proof.
  unfold new_obj. eapply (ht_bind _ _ _ _ _ _ (λ p c, lists i c ∧ holds i a p c)).
  { apply ht_act; [auto with stab|]. intros c Hc [Hl Hin].
    set (p := alloc_node (objs c.1)). eexists. split.
    { apply (upd_new workers i p); [done| |done..].
      intros (x & Hx & _ & ? & _). by apply alloc_node_fresh in Hx. }
    split; [|split; [done|]].
    - destruct Hl as (pid & Lo & Lc & H1 & H2 & H3 & H4). exists pid, Lo, Lc.
      assert (∀ q e l, where_ c.2 !! q = Some (Retired i e l) →
        <[p:=Priv i]> (where_ c.2) !! q = Some (Retired i e l)) as Hw.
      { intros q e l Hq. rewrite lookup_insert_ne; [done|]. intros <-.
        destruct (inv_live _ _ Hc _ _ Hq) as (x & Hx & _ & ? & _). by apply alloc_node_fresh in Hx. }
      split_and!; [done|eapply (chain_frame workers); [|exact Hc|..|exact H2]
        |eapply (chain_frame workers); [|exact Hc|..|exact H3]|done]; auto.
    - unfold has_place. simpl. by rewrite lookup_insert_eq. }
  intros p. eapply (ht_bind _ _ _ _ _ _ (λ b c, b = true ∧ lists i c ∧ holds i a p c)).
  { unfold check_not_corrupted.
    eapply (ht_bind _ _ _ _ _ _ (λ x c, (pad x = 10 ∧ head x = 10 ∧ tail x = 10) ∧
                                       lists i c ∧ holds i a p c)).
    { apply ht_load; [auto with stab|]. intros c Hc (Hl & Hin & Hp).
      destruct (inv_live _ _ Hc p _ Hp) as (x & Hx & ?). unfold obj_c; simpl. by rewrite Hx. }
    intros x. apply ht_pure. intros (-> & -> & ->). by apply ht_ret. }
  intros b. apply ht_pure. intros ->. apply ht_assert; [done|]. by apply ht_ret.
Qed.

Lemma ht_read_root i r fuel : (i < workers)%nat →
  ht i (idle i) (read_root fuel i r)
     (λ o c, (o = None ∨ o = Some 10) ∧ idle i c).
Proof.
  intros Hi. apply ht_with_epoch; [done|]. intros a.
  eapply (ht_bind _ _ _ _ _ _ (λ p c, (lists i c ∧ inside_is i (Some a) c) ∧
                                     (p ≠ 0 → prot i p c))).
  { apply ht_load; [auto with stab|]. intros c Hc [Hl Hin]. simpl. split; [done|].
    intros Hp. exists a. split; [done|]. exists (Reach r). split; [|done].
    apply (inv_roots _ _ Hc); [|done]. destruct (hook_state c.1 !! r); simpl in *; congruence. }
  intros p. destruct (Z.eqb_spec p 0) as [->|Hp].
  { apply ht_ret. intros c [[? ?] _]. auto. }
  eapply (ht_bind _ _ _ _ _ _ (λ x c, head x = 10 ∧ lists i c ∧ inside_is i (Some a) c)).
  { eapply (ht_weaken _ _ _ _ (λ c, prot i p c ∧ lists i c ∧ inside_is i (Some a) c));
      [|by intros c [[? ?] ?]; auto|intros x c Hq; exact Hq].
    apply ht_load; [auto with stab|]. intros c Hc ((b & _ & w & Hw & _) & Hl & Hin).
    destruct (inv_live _ _ Hc p w Hw) as (x & Hx & _ & Hh & _). unfold obj_c; simpl.
    by rewrite Hx. }
  intros x. apply ht_pure. intros ->. apply ht_ret. auto.
Qed.

Lemma ht_update_root i r now fuel : (i < workers)%nat →
  ht i (idle i) (update_root workers alloc_link alloc_node fuel i r now)
     (λ o c, (o = None ∨ o = Some 10) ∧ idle i c).
Proof.
  intros Hi. apply ht_with_epoch; [done|]. intros a.
  eapply (ht_bind _ _ _ _ _ _ (λ p c, lists i c ∧ holds i a p c)); [apply ht_new_obj|].
  intros p. eapply (ht_bind _ _ _ _ _ _ (λ o c, (lists i c ∧ inside_is i (Some a) c) ∧
    (o ≠ 0 → has_place o (Priv i) c))).
  { apply ht_act; [auto with stab|]. intros c Hc (Hl & Hin & Hp). unfold on_cell; simpl.
    set (o := default 0 (hook_state c.1 !! r)). eexists. split; [by apply upd_publish|].
    split; [split; [|done]|].
    - destruct Hl as (pid & Lo & Lc & H1 & H2 & H3 & H4). exists pid, Lo, Lc.
      assert (∀ q e l, where_ c.2 !! q = Some (Retired i e l) →
        (if decide (o = 0) then id else <[o:=Priv i]>) (<[p:=Reach r]> (where_ c.2)) !! q =
          Some (Retired i e l)) as Hw.
      { intros q e l Hq. unfold has_place in Hp.
        assert (o ≠ 0 → where_ c.2 !! o = Some (Reach r)) as Ho.
        { intros Ho. apply (inv_roots _ _ Hc); [|done].
          subst o. destruct (hook_state c.1 !! r); simpl in *; congruence. }
        case_decide; simpl; [|rewrite lookup_insert_ne by (intros <-; rewrite Ho in Hq; done)];
          (rewrite lookup_insert_ne; [done|congruence]). }
      split_and!; [done|eapply (chain_frame workers); [|exact Hc|..|exact H2]
        |eapply (chain_frame workers); [|exact Hc|..|exact H3]|done]; auto.
    - intros Ho. unfold has_place; simpl. rewrite decide_False by done.
      by rewrite lookup_insert_eq. }
  intros o. destruct (Z.eqb_spec o 0) as [->|Ho].
  { apply ht_ret. intros c [[? ?] _]. auto. }
  eapply (ht_bind _ _ _ _ _ _ (λ _ c, lists i c ∧ inside_is i (Some a) c));
    [|intros _; apply ht_ret; auto].
  eapply ht_weaken; [apply ht_retire| |intros l c Hq; exact Hq].
  intros c [[? ?] ?]. unfold holds. auto.
Qed.

Lemma ht_exec_all i cs fuel : (i < workers)%nat →
  ht i (idle i) (exec_all workers alloc_link alloc_node fuel i cs)
     (λ os c, Forall (λ o, o = None ∨ o = Some 10) os ∧ idle i c).
Proof.
  intros Hi. induction cs as [|cmd cs IH]; cbn [exec_all].
  { apply ht_ret. auto. }
  eapply (ht_bind _ _ _ _ _ _ (λ o c, (o = None ∨ o = Some 10) ∧ idle i c)).
  { destruct cmd; [by apply ht_read_root|by apply ht_update_root]. }
  intros o. apply ht_pure. intros Ho.
  eapply (ht_bind _ _ _ _ _ _ (λ os c, Forall (λ o, o = None ∨ o = Some 10) os ∧ idle i c));
    [done|].
  intros os. apply ht_pure. intros Hos. apply ht_ret. auto.
Qed.

Lemma init_ginv : ginv (init_state workers, mkGhost ∅ ∅ ∅).
Proof.
  split; cbn [fst snd init_state announcements pools current_epoch hook_state links where_
    inside lowner]; [apply length_replicate..|done| | | | |];
    repeat (intros ? || rewrite ?lookup_empty in * ); try done.

Qed.

Lemma init_idle i : (i < workers)%nat → idle i (init_state workers, mkGhost ∅ ∅ ∅).
Proof.
  intros Hi. split; [|done]. exists (mkOldCurrent 0 0 0 0 0), [], [].
  split_and!; [|done|done|constructor]. unfold pool_is; simpl.
  by apply lookup_replicate.
Qed.
End code.


(** C3: Threads that read and replace the objects of shared roots through
    [with_epoch] and [retire], interleaved at every atomic access of the
    announcement slots, the epoch counter, the retirement lists and the
    objects, never use a freed object, never destruct one twice and never
    fail an assertion (the loops of the model may run out of fuel); every read
    that has returned found a null root or a live object; and what the roots
    hold is live. *)
Theorem reclamation_safe (workers : nat) (alloc_link : gmap Z Link → Z)
    (alloc_node : gmap Z padded → Z) (fuel : nat) (cmds : list (list command))
    (link_fresh : ∀ m, m !! alloc_link m = None ∧ alloc_link m ≠ 0)
    (node_fresh : ∀ m x, m !! alloc_node m = Some x → head x ≠ 10)
    (enough_workers : (length cmds ≤ workers)%nat) :
  let start := imap (exec_all workers alloc_link alloc_node fuel) cmds in
  ∀ s ts, rtc step (init_state workers, start) (s, ts) →
    (∀ i e, goes_wrong i e (s, ts) → e = OutOfFuel) ∧
    (∀ i os, ts !! i = Some (Ret os) → Forall (λ o, o = None ∨ o = Some 10) os) ∧
    (∀ r p, hook_state s !! r = Some p → p ≠ 0 → ∃ x, objs s !! p = Some x ∧ head x = 10).
Proof.
  intros start s ts Hsteps.
  destruct (protocol_sound (reclamation workers) tolerated idle
    (λ i os c, Forall (λ o, o = None ∨ o = Some 10) os ∧ idle i c)
    (init_state workers) (mkGhost ∅ ∅ ∅) start) with s ts as (g & Hg & Hwrong & Hret).
  - done.
  - apply init_ginv.
  - intros i p Hp. subst start. rewrite list_lookup_imap in Hp.
    destruct (cmds !! i) as [cs|] eqn:Hi; simpl in Hp; [|done]. injection Hp as <-.
    apply lookup_lt_Some in Hi. split; [apply init_idle; lia|].
    apply ht_exec_all; [done|done|lia].
  - by apply steps_ok.
  - split_and!; [done| |].
    + intros i os Hi. by destruct (Hret i os Hi) as (c & (? & _) & _).
    + intros r p Hr Hp.
      destruct (inv_live _ _ Hg p (Reach r)) as (x & ? & _ & ? & _); [|by exists x].
      by apply (inv_roots _ _ Hg).
Qed.

(** Thread 1 reads the object of root 0 in the middle of its replacement and
    retirement by thread 0. *)
Lemma reclamation_safe_witness :
  let start := imap (exec_all 2 next_addr next_addr 3) [[CUpdate 0 0; CUpdate 0 0]; [CRead 0]] in
  ∃ s ts, rtc step (init_state 2, start) (s, ts) ∧ ts !! 1%nat = Some (Ret [Some 10]) ∧
    Forall (λ o, o = None ∨ o = Some 10) [Some 10].
Proof.
  intros start.
  set (sch := replicate 8 0%nat ++ replicate 4 1%nat ++ replicate 15 0%nat ++ replicate 3 1%nat).
  assert (match run_sched sch (init_state 2, start) with
          | Some c => match c.2 !! 1%nat with
                      | Some (Ret os) => bool_decide (os = [Some 10])
                      | _ => false
                      end
          | None => false
          end = true) as H by (vm_compute; reflexivity).
  destruct (run_sched sch (init_state 2, start)) as [[s ts]|] eqn:Hrun; [|discriminate H].
  apply run_sched_steps in Hrun. exists s, ts. split; [exact Hrun|].
  simpl in H. destruct (ts !! 1%nat) as [[os|X f k]|] eqn:Hts; try discriminate H.
  apply bool_decide_eq_true in H. subst os. split; [reflexivity|].
  refine (proj1 (proj2 (reclamation_safe 2 next_addr next_addr 3
    [[CUpdate 0 0; CUpdate 0 0]; [CRead 0]] next_addr_fresh _ _ s ts Hrun)) 1%nat _ Hts).
  - intros m x Hx. by rewrite (proj1 (next_addr_fresh m)) in Hx.
  - simpl. lia.
Defined.
