(* ===== verification/SpinLock.v ===== *)
(** * SpinLock: the locks of the NoHelp configuration
    (include/flock/spin_lock.h), the choice between inline and hashed locks
    and the retry loops of include/flock/flock.h, and the plain atomics of
    include/flock/lock_types.h. *)

From stdpp Require Import prelude list gmap.
From Stdlib Require Import ZArith Lia.
From S2P Require Import Prelude Conc.
Local Open Scope Z_scope.

(** ** The lock word

    A size_t: the low 32 bits count the acquisitions and releases (odd when
    locked), bits [32-48) hold one more than the id of the owner. *)
Module lock_entry.
Definition is_locked (le : Z) : bool := le mod 2 =? 1.
Definition get_count (le : Z) : Z := Z.land le (2 ^ 32 - 1).
Definition take_lock (tid : nat) (le : Z) : Z :=
  Z.lor (wrap64 (Z.shiftl (Z.of_nat tid + 1) 32)) (get_count le + 1).
Definition release_lock (le : Z) : Z := get_count le + 1.
Definition get_procid (le : Z) : Z := Z.land (Z.shiftr le 32) (2 ^ 16 - 1).
Definition is_self_locked (tid : nat) (le : Z) : bool := Z.of_nat tid + 1 =? get_procid le.
End lock_entry.

Module lock.
Section lock.
Context {S : Type} (lck : cell S Z).
Import lock_entry.

Definition is_locked : prog S bool := le ← load lck; mret (is_locked le).
(** [bool count()]: the count converted to bool *)
Definition count : prog S bool := le ← load lck; mret (negb (get_count le =? 0)).
Definition is_self_locked (tid : nat) : prog S bool := le ← load lck; mret (is_self_locked tid le).
Definition lock_load : prog S Z := load lck.
Definition unchanged (le : Z) : prog S bool := le' ← load lck; mret (le =? le').

Definition wait_lock (fuel tid : nat) : prog S unit :=
  current ← load lck;
  iter fuel (λ current,
    if lock_entry.is_locked current && negb (lock_entry.is_self_locked tid current)
    then current' ← load lck; mret (inl current')
    else mret (inr tt)) current.

Definition read_lock {A} (f : prog S A) : prog S A := f.

(** [no_release] is the optional out-parameter that asks to keep the lock *)
Definition try_lock_result {A} (tid : nat) (f : prog S A) (no_release : option (cell S bool))
  : prog S (option A) :=
  current ← load lck;
  if negb (lock_entry.is_locked current) then
    let newl := take_lock tid current in
    b ← cas lck current newl;
    if (b : bool) then
      result ← f;
      match no_release with
      | None =>
          le ← load lck;
          when (lock_entry.is_self_locked tid le) (store lck (release_lock newl))
      | Some c => store c true
      end ;;
      mret (Some result)
    else mret None
  else if lock_entry.is_self_locked tid current then
    result ← f; mret (Some result)
  else mret None.

Definition try_lock_no_unlock (tid : nat) : prog S bool :=
  current ← load lck;
  if negb (lock_entry.is_locked current) then cas lck current (take_lock tid current)
  else if lock_entry.is_self_locked tid current then mret true
  else mret false.

Definition lock_no_unlock (fuel tid : nat) : prog S unit :=
  iter fuel (λ _ : unit,
    b ← try_lock_no_unlock tid;
    mret (if (b : bool) then inr tt else inl tt)) tt.

Definition unlock (tid : nat) : prog S unit :=
  le ← load lck;
  when (lock_entry.is_self_locked tid le)
    (le' ← load lck; store lck (release_lock le')).

Definition try_lock (tid : nat) (f : prog S bool) : prog S bool :=
  result ← try_lock_result tid f None;
  mret (match result with Some b => b | None => false end).

Definition with_lock {A} (fuel tid : nat) (f : prog S A) : prog S A :=
  iter fuel (λ _ : unit,
    result ← try_lock_result tid f None;
    mret (match result with Some v => inr v | None => inl tt end)) tt.

Definition try_lock_no_delay (tid : nat) (f : prog S bool) : prog S bool :=
  result ← try_lock_result tid f None;
  mret (match result with Some b => b | None => false end).
End lock.
End lock.

(** ** flock.h: hashed locks and retry loops *)
Module flock.
(** the lock of a structure when HashLock is defined: one of 2^16 shared
    words, chosen by [hash] (parlay::hash64_2) of the address *)
Definition bucket_bits : Z := 16.
Definition mask : Z := 2 ^ bucket_bits - 1.
Definition get_lock (hash : Z → Z) (addr : Z) : Z := Z.land (hash addr) mask.

Definition try_loop {S A} (fuel : nat) (f : prog S (option A)) : prog S A :=
  iter fuel (λ _ : unit, r ← f; mret (match r with Some v => inr v | None => inl tt end)) tt.

Fixpoint try_loop_ {S A} (rounds : nat) (f : prog S (option A)) : prog S (option A) :=
  match rounds with
  | O => mret None
  | Datatypes.S n => r ← f; match r with Some v => mret (Some v) | None => try_loop_ n f end
  end.
End flock.

(** ** lock_types.h: with regular locks the shared variables are plain atomics *)
Module atomic.
Section atomic.
Context {S V : Type} `{EqDecision V} (v : cell S V).

Definition init (vv : V) : prog S unit := store v vv.
Definition load : prog S V := Prelude.load v.
Definition read : prog S V := Prelude.load v.
Definition read_snapshot : prog S V := Prelude.load v.
Definition read_cur : prog S V := Prelude.load v.
Definition store (vv : V) : prog S unit := Prelude.store v vv.
Definition cas (old_v new_v : V) : prog S bool :=
  x ← Prelude.load v;
  if decide (x = old_v) then Prelude.cas v old_v new_v else mret false.
Definition cas_ni (old_v new_v : V) : prog S bool := cas old_v new_v.
Definition cam (old_v new_v : V) : prog S unit :=
  x ← Prelude.load v;
  when (bool_decide (x = old_v)) (Prelude.cas v old_v new_v ;; mret tt).
End atomic.
End atomic.

Module atomic_write_once.
Section atomic_write_once.
Context {S V : Type} `{EqDecision V} (v : cell S V).

Definition load : prog S V := Prelude.load v.
Definition load_ni : prog S V := Prelude.load v.
Definition read : prog S V := Prelude.load v.
Definition init (vv : V) : prog S unit := Prelude.store v vv.
Definition store (vv : V) : prog S unit := Prelude.store v vv.
Definition store_ni (vv : V) : prog S unit := Prelude.store v vv.
Definition cas_ni (exp_v new_v : V) : prog S bool := Prelude.cas v exp_v new_v.
Definition cam (old_v new_v : V) : prog S unit :=
  x ← Prelude.load v;
  when (bool_decide (x = old_v)) (Prelude.cas v old_v new_v ;; mret tt).
End atomic_write_once.
End atomic_write_once.

(** The functions of lock_types.h that the lock-free mode implements with a
    log and that do nothing here. *)
Module no_log.
Definition skip_if_done {S} (f : prog S unit) : prog S bool := f ;; mret true.
Definition skip_if_done_no_log {S} (f : prog S unit) : prog S bool := f ;; mret true.
Definition commit {S V} (v : V) : prog S V := mret v.
Definition non_idempotent {S} (f : prog S unit) : prog S unit := f.
Definition check_synchronized {S} (i : Z) : prog S bool := mret true.
End no_log.

(** ** The lock word, arithmetically *)
Section words.
Import lock_entry.

(** the thread ids that fit the owner field *)
Definition small_tid (tid : nat) : Prop := Z.of_nat tid < 2 ^ 16 - 1.

Lemma get_count_mod le : get_count le = le mod 2 ^ 32.
Proof. apply (land_low le 32). lia. Qed.

Lemma low_parity le : le mod 2 ^ 32 mod 2 = le mod 2.
Proof. apply Z.mod_mod_divide. by exists (2 ^ 31). Qed.

Lemma take_lock_sum tid le : small_tid tid → le mod 2 = 0 →
  take_lock tid le = (Z.of_nat tid + 1) * 2 ^ 32 + (le mod 2 ^ 32 + 1) ∧
  0 ≤ le mod 2 ^ 32 + 1 < 2 ^ 32.
Proof.
  unfold small_tid. intros Ht Hle. unfold take_lock. rewrite get_count_mod.
  pose proof (Z.mod_pos_bound le (2 ^ 32)) as Hb.
  assert (le mod 2 ^ 32 mod 2 = 0) as Hm by by rewrite low_parity.
  assert (le mod 2 ^ 32 ≠ 2 ^ 32 - 1) by (intros E; rewrite E in Hm; done).
  rewrite Z.shiftl_mul_pow2 by lia. rewrite wrap64_small by (unfold is_w64; lia).
  split; [apply lor_disjoint|]; lia.
Qed.

Lemma take_lock_facts tid le : small_tid tid → le mod 2 = 0 →
  is_locked (take_lock tid le) = true ∧
  get_procid (take_lock tid le) = Z.of_nat tid + 1 ∧
  release_lock (take_lock tid le) = le mod 2 ^ 32 + 2.
Proof.
  intros Ht Hle. pose proof (take_lock_sum tid le Ht Hle) as [-> Hb].
  unfold is_locked, get_procid, release_lock, small_tid in *. rewrite get_count_mod.
  split_and!.
  - apply Z.eqb_eq.
    replace (_ * 2 ^ 32 + _) with (le mod 2 ^ 32 + 1 + (Z.of_nat tid + 1) * 2 ^ 31 * 2) by lia.
    rewrite Z.mod_add by lia. rewrite Z.add_mod by lia. by rewrite low_parity, Hle.
  - rewrite (land_low _ 16) by lia. rewrite Z.shiftr_div_pow2 by lia.
    rewrite Z.add_comm, Z_div_plus_full by lia. rewrite (Z.div_small (_ + 1)) by lia.
    rewrite Z.add_0_l. apply Z.mod_small. lia.
  - rewrite (Z.add_comm (_ * 2 ^ 32)), Z.mod_add by lia. rewrite Z.mod_small by lia. lia.
Qed.

Lemma release_even le : le mod 2 = 0 → (le mod 2 ^ 32 + 2) mod 2 = 0.
Proof.
  intros Hle. rewrite Z.add_mod by lia. by rewrite low_parity, Hle.
Qed.

(** The lock word of the holder reads as its own. *)
Lemma held_word t w : small_tid t → w mod 2 = 0 →
  is_locked (take_lock t w) = true ∧
  (∀ i, is_self_locked i (take_lock t w) = true → i = t).
Proof.
  intros Ht Hw. destruct (take_lock_facts t w Ht Hw) as (H1 & H2 & _). split; [done|].
  intros i. unfold is_self_locked. rewrite H2. intros ?%Z.eqb_eq. lia.
Qed.
End words.
