(* ===== verification/Serial.v ===== *)
(** * Serial: critical sections under a spin lock are serializable.

    Any number of threads run any number of critical sections on shared data
    through [with_lock] of [SpinLock], interleaved at every atomic access of
    the lock word and of the data. *)

From stdpp Require Import prelude list gmap.
From Stdlib Require Import ZArith Lia.
From S2P Require Import Prelude Conc SpinLock.
Local Open Scope Z_scope.

Section serial.
Context {D A : Type}.

(** the lock word next to the data it protects *)
Record locked := mkLocked { word : Z; data : D }.
Definition word_c : cell locked Z := total_cell word (λ w s, mkLocked w (data s)).
Definition set_data (d : D) (s : locked) : locked := mkLocked (word s) d.

(** a critical section works on the data only *)
Definition section (b : prog D A) : prog locked A := zoom data set_data b.

Definition run_section (fuel tid : nat) (b : prog D A) : prog locked A :=
  lock.with_lock word_c fuel tid (section b).

Fixpoint run_sections (fuel tid : nat) (bs : list (prog D A)) : prog locked (list A) :=
  match bs with
  | [] => mret []
  | b :: bs' => r ← run_section fuel tid b; rs ← run_sections fuel tid bs'; mret (r :: rs)
  end.

(** The serial executions: each entry is a thread, a critical section and its
    result. *)
Definition entry : Type := nat * prog D A * A.

Fixpoint replay (d : D) (l : list entry) (d' : D) : Prop :=
  match l with
  | [] => d' = d
  | (_, b, r) :: l' => ∃ d1, run b d = Ok r d1 ∧ replay d1 l' d'
  end.

(** what thread [i] did *)
Definition mine (i : nat) (l : list entry) : list entry := filter (λ e, e.1.1 = i) l.

Lemma replay_snoc d l d1 t b r d2 :
  replay d l d1 → run b d1 = Ok r d2 → replay d (l ++ [(t, b, r)]) d2.
Proof.
  revert d. induction l as [|[[t' b'] r'] l IH]; intros d; simpl.
  - intros -> Hb. by exists d2.
  - intros (d3 & Hr & Hl) Hb. exists d3. auto.
Qed.

Lemma mine_snoc i l t b r :
  mine i (l ++ [(t, b, r)]) = mine i l ++ (if decide (t = i) then [(t, b, r)] else []).
Proof.
  unfold mine. by rewrite filter_app.
Qed.

(** ** The protocol: who holds the lock, and the serial history so far *)
Record hist := mkHist { holder : option nat; past : list entry }.

Context (d0 : D).
Implicit Types c : locked * hist.

Definition inv c : Prop :=
  match holder c.2 with
  | None => word c.1 mod 2 = 0 ∧ replay d0 (past c.2) (data c.1)
  | Some t => small_tid t ∧ ∃ w, w mod 2 = 0 ∧ word c.1 = lock_entry.take_lock t w
  end.

Record keeps (i : nat) c c' : Prop := {
  keeps_mine : mine i (past c'.2) = mine i (past c.2);
  keeps_held : holder c.2 = Some i → holder c'.2 = Some i ∧ c'.1 = c.1 ∧ past c'.2 = past c.2;
  keeps_not_held : holder c.2 ≠ Some i → holder c'.2 ≠ Some i;
}.

Lemma keeps_preorder i : PreOrder (keeps i).
Proof.
  split.
  - intros c. by split.
  - intros c1 c2 c3 [H1 H2 H3] [K1 K2 K3]. split; [congruence| |auto].
    intros Hh. destruct (H2 Hh) as (Hh2 & ? & ?), (K2 Hh2) as (? & ? & ?).
    split_and!; congruence.
Qed.

Definition lock_protocol : protocol locked hist := Protocol _ _ (λ _, True) inv keeps keeps_preorder.
Definition only_fuel (e : err) : Prop := e = OutOfFuel.
#[local] Abbreviation ht := (Conc.ht lock_protocol only_fuel).
#[local] Abbreviation stable := (Conc.stable lock_protocol).
#[local] Abbreviation update := (Conc.update lock_protocol).

(** outside the lock, having done [l] *)
Definition outside (i : nat) (l : list entry) c : Prop :=
  holder c.2 ≠ Some i ∧ mine i (past c.2) = l.
(** inside, since the history was [h], with the data now [d] *)
Definition inside (i : nat) (w : Z) (h : list entry) (d : D) c : Prop :=
  holder c.2 = Some i ∧ past c.2 = h ∧ c.1 = mkLocked (lock_entry.take_lock i w) d.

Lemma stable_outside i l : stable i (outside i l).
Proof. intros c c' [? ?] _ [H1 _ H3]. split; [auto|congruence]. Qed.
Lemma stable_in_section i w h d : stable i (inside i w h d).
Proof.
  intros c c' (Hh & Hp & Hs) _ [_ H2 _]. destruct (H2 Hh) as (? & ? & ?).
  split_and!; congruence.
Qed.

(** A critical section runs as if alone. *)
Lemma ht_section i w h b : ∀ d r d', small_tid i → w mod 2 = 0 → run b d = Ok r d' →
  ht i (inside i w h d) (section b) (λ a c, a = r ∧ inside i w h d' c).
Proof.
  induction b as [a|X f k IH]; intros d r d' Hi Hw; simpl.
  - intros [= <- <-] c Hc Hin. simpl. auto.
  - destruct (f d) as [x d1|e] eqn:Hf; [|done]. intros Hrun c Hc Hin c1 HR Hok.
    destruct (HR Hc) as [Hc1 Ho].
    pose proof (stable_in_section i w h d c c1 Hin Hc1 Ho) as (Hh & Hp & Hs).
    rewrite Hs. simpl. rewrite Hf. simpl. intros _.
    assert (inv (set_data d1 (mkLocked (lock_entry.take_lock i w) d), c1.2)) as Hinv.
    { unfold inv; simpl. rewrite Hh. split; [done|]. eauto. }
    exists c1.2. split.
    + intros _. split; [done|]. intros j Hj. split; simpl; [done|congruence|congruence].
    + apply (IH x d1 r d' Hi Hw Hrun); [done|]. unfold inside. simpl. by rewrite Hh, Hp.
Qed.

(** taking the lock *)
Lemma upd_take i w c : small_tid i → inv c → holder c.2 = None → word c.1 = w →
  update i c (mkLocked (lock_entry.take_lock i w) (data c.1), mkHist (Some i) (past c.2)).
Proof.
  intros Hi Hc Hh Hw. unfold inv in Hc. rewrite Hh in Hc. destruct Hc as [Hev Hr]. split.
  - split; [done|]. exists w. simpl. rewrite Hw in Hev. done.
  - intros j Hj. split; simpl; [done|congruence|congruence].
Qed.

(** releasing it adds the critical section to the history *)
Lemma upd_release i w h d b r c : w mod 2 = 0 → small_tid i → inside i w h d c →
  replay d0 (h ++ [(i, b, r)]) d →
  update i c (mkLocked (lock_entry.release_lock (lock_entry.take_lock i w)) d,
              mkHist None (h ++ [(i, b, r)])).
Proof.
  intros Hw Hi (Hh & Hp & Hs) Hr. split.
  - unfold pinv, lock_protocol, inv; simpl. destruct (take_lock_facts i w Hi Hw) as (_ & _ & ->).
    split; [by apply release_even|done].
  - intros j Hj. split; simpl; [|congruence|congruence].
    rewrite mine_snoc, Hp, decide_False by done. apply app_nil_r.
Qed.

Definition total (b : prog D A) : Prop := ∀ d, ∃ r d', run b d = Ok r d'.

Lemma ht_try_section i l b : small_tid i → total b →
  ht i (outside i l) (lock.try_lock_result word_c i (section b) None)
     (λ o c, match o with
             | Some r => outside i (l ++ [(i, b, r)]) c
             | None => outside i l c
             end).
Proof.
  intros Hi Hb. unfold lock.try_lock_result.
  eapply (ht_bind _ _ _ _ _ _ (λ le c, outside i l c ∧
    (lock_entry.is_locked le = true → lock_entry.is_self_locked i le = false))).
  { apply ht_load; [apply stable_outside|]. intros c Hc [Hn Hm]. simpl. split; [done|].
    intros Hl. unfold pinv, lock_protocol, inv in Hc.
    destruct (holder c.2) as [t|] eqn:Hh.
    - destruct Hc as (Ht & w & Hw & ->).
      destruct (lock_entry.is_self_locked i _) eqn:E; [|done].
      apply (held_word t w Ht Hw) in E. congruence.
    - destruct Hc as [Hev _]. unfold lock_entry.is_locked in Hl.
      rewrite Hev in Hl. done. }
  intros le. destruct (lock_entry.is_locked le) eqn:Hle; cbn [negb].
  { intros c Hc [Ho Hs]. rewrite (Hs eq_refl). simpl. auto. }
  eapply (ht_bind _ _ _ _ _ _ (λ b' c, if b' : bool then le mod 2 = 0 ∧
    ∃ h d, replay d0 h d ∧ mine i h = l ∧ inside i le h d c else outside i l c)).
  { unfold cas. eapply (ht_bind _ _ _ _ _ _ (λ p c, if p.1 : bool then le mod 2 = 0 ∧
      ∃ h d, replay d0 h d ∧ mine i h = l ∧ inside i le h d c else outside i l c)).
    - apply ht_act; [apply stable_and; [apply stable_outside|apply stable_pure]|].
      intros [s g] Hc [[Hn Hm] _]. unfold on_cell; simpl. case_decide as Hw; [|].
      + destruct (holder g) as [t|] eqn:Hh.
        { exfalso. unfold pinv, lock_protocol, inv in Hc. simpl in Hc. rewrite Hh in Hc.
          destruct Hc as (Ht & w & Hw' & Hword). destruct (held_word t w Ht Hw') as [Hlk _].
          rewrite <-Hword, Hw in Hlk. congruence. }
        exists (mkHist (Some i) (past g)). split; [by apply (upd_take i le (s, g))|].
        unfold pinv, lock_protocol, inv in Hc. simpl in Hc. rewrite Hh in Hc.
        rewrite Hw in Hc. destruct Hc as [Hev Hr]. split; [done|].
        exists (past g), (data s). by split_and!.
      + exists g. split; [by apply update_refl|done].
    - intros [b' v]. by apply ht_ret. }
  intros [|]; [|by apply ht_ret].
  apply ht_pure. intros Hev. apply ht_exists; intros h. apply ht_exists; intros d.
  apply ht_pure. intros Hr. apply ht_pure. intros Hm. destruct (Hb d) as (r & d' & Hrun).
  eapply ht_bind; [by apply ht_section|]. intros a. apply ht_pure. intros ->.
  eapply (ht_bind _ _ _ _ _ _ (λ _, outside i (l ++ [(i, b, r)]))); [|by intros []; apply ht_ret].
  eapply (ht_bind _ _ _ _ _ _ (λ v c, lock_entry.is_self_locked i v = true ∧ inside i le h d' c)).
  { apply ht_load; [apply stable_in_section|]. intros c Hc Hin. split; [|done].
    pose proof Hin as (_ & _ & ->). simpl. unfold lock_entry.is_self_locked.
    destruct (take_lock_facts i le Hi Hev) as (_ & -> & _). by apply Z.eqb_eq. }
  intros v. apply ht_pure. intros ->. cbn [when].
  apply ht_store; [apply stable_in_section|]. intros c Hc Hin. simpl.
  pose proof Hin as (Hh & Hp & Hs). rewrite Hs. simpl.
  exists (mkHist None (h ++ [(i, b, r)])). split.
  - apply (upd_release i le h d' b r c Hev Hi Hin). by eapply replay_snoc.
  - split; [done|]. simpl. rewrite mine_snoc, Hm. by rewrite decide_True.
Qed.

Lemma ht_run_sections i fuel bs : ∀ l, small_tid i → Forall total bs →
  ht i (outside i l) (run_sections fuel i bs)
     (λ rs c, outside i (l ++ zip_with (λ b r, (i, b, r)) bs rs) c ∧ length rs = length bs).
Proof.
  induction bs as [|b bs IH]; intros l Hi Hbs.
  { apply ht_ret. intros c Hc. simpl. by rewrite app_nil_r. }
  apply Forall_cons in Hbs as [Hb Hbs].
  eapply (ht_bind _ _ _ _ _ _ (λ r, outside i (l ++ [(i, b, r)]))).
  { apply (ht_iter _ _ _ (λ _, outside i l)); [done|]. intros _.
    eapply ht_bind; [by apply ht_try_section|]. intros [r|]; by apply ht_ret. }
  intros r. eapply ht_bind; [by apply IH|]. intros rs. apply ht_ret. intros c [Ho Hl].
  simpl. rewrite <-app_assoc in Ho. auto.
Qed.
End serial.
Arguments locked : clear implicits.
Arguments hist : clear implicits.

(** C4: Threads that run critical sections through with_lock, interleaved at
    every access to the lock word and to the data, meet no error (the retry
    loop may run out of fuel), and there is one serial order of whole critical
    sections that explains the data whenever the lock is free and, for every
    thread that has finished, contains exactly its critical sections, in its
    order, with the results that it got. *)
Theorem critical_sections_serializable {D A : Type} (fuel : nat) (d0 : D)
    (sections : list (list (prog D A)))
    (ids_fit : Z.of_nat (length sections) ≤ 2 ^ 16 - 1)
    (sections_total : Forall (Forall total) sections) :
  ∀ s ts, rtc step (mkLocked 0 d0, imap (run_sections fuel) sections) (s, ts) →
    (∀ i e, goes_wrong i e (s, ts) → e = OutOfFuel) ∧
    ∃ order : list (entry (D := D) (A := A)),
      (lock_entry.is_locked (word s) = false → replay d0 order (data s)) ∧
      ∀ i bs rs, sections !! i = Some bs → ts !! i = Some (Ret rs) →
        mine i order = zip_with (λ b r, (i, b, r)) bs rs ∧ length rs = length bs.
Proof.
  intros s ts Hsteps.
  destruct (protocol_sound (lock_protocol d0) only_fuel (λ i, outside i [])
    (λ i rs c, ∃ bs, sections !! i = Some bs ∧ outside i (zip_with (λ b r, (i, b, r)) bs rs) c ∧
               length rs = length bs)
    (mkLocked 0 d0) (mkHist None []) (imap (run_sections fuel) sections))
    with s ts as (g & Hg & Hwrong & Hret); [done|done| |by apply steps_ok|].
  - intros i p Hp. rewrite list_lookup_imap in Hp.
    destruct (sections !! i) as [bs|] eqn:Hi; simpl in Hp; [|done]. injection Hp as <-.
    split; [done|]. eapply ht_weaken; [apply (ht_run_sections d0 i fuel bs [])|by auto|].
    + apply lookup_lt_Some in Hi. unfold small_tid. lia.
    + by eapply Forall_lookup_1.
    + intros rs c [Ho Hl]. exists bs. auto.
  - split; [done|]. exists (past g). split.
    + intros Hfree. unfold pinv, lock_protocol, inv in Hg. simpl in Hg.
      destruct (holder g) as [t|]; [|by destruct Hg].
      destruct Hg as (Ht & w & Hw & Hword). destruct (held_word t w Ht Hw) as [Hlk _].
      congruence.
    + intros i bs rs Hbs Hrs.
      destruct (Hret i rs Hrs) as (c & (bs' & Hbs' & [_ Hm] & Hl) & [Hk _ _]).
      simpl in Hk. rewrite Hk, Hm. by simplify_eq.
Qed.

(** Two threads add 1 and 2 to a counter, each by a read and a write. *)
Definition add_to (n : Z) : prog Z Z := x ← gets id; modify (λ _, x + n) ;; mret x.

Lemma critical_sections_serializable_witness :
  ∃ s ts, rtc step (mkLocked 0 0, imap (run_sections 4) [[add_to 1]; [add_to 2]]) (s, ts) ∧
    data s = 3 ∧ ts !! 1%nat = Some (Ret [1]) ∧
    ∃ order, replay 0 order 3 ∧ mine 1 order = [(1%nat, add_to 2, 1)].
Proof.
  set (start := imap (run_sections 4) [[add_to 1]; [add_to 2]]).
  (* thread 1 finds the lock taken, and retries when thread 0 is done *)
  set (sch := [0; 0; 0; 1; 0; 0; 0; 1; 1; 1; 1; 1; 1]%nat).
  assert (match run_sched sch (mkLocked 0 0, start) with
          | Some c => bool_decide (data c.1 = 3) && negb (lock_entry.is_locked (word c.1)) &&
                      match c.2 !! 1%nat with
                      | Some (Ret rs) => bool_decide (rs = [1])
                      | _ => false
                      end
          | None => false
          end = true) as H by (vm_compute; reflexivity).
  destruct (run_sched sch (mkLocked 0 0, start)) as [[s ts]|] eqn:Hrun; [|discriminate H].
  apply run_sched_steps in Hrun. cbn [fst snd] in H.
  apply andb_prop in H as [H Hts]. apply andb_prop in H as [Hd Hw].
  apply bool_decide_eq_true in Hd. apply negb_true_iff in Hw.
  destruct (ts !! 1%nat) as [[rs|X f k]|] eqn:Hret; try discriminate Hts.
  apply bool_decide_eq_true in Hts. subst rs.
  exists s, ts. split; [exact Hrun|]. split; [exact Hd|]. split; [exact Hret|].
  assert (∀ n, total (add_to n)) as Htot by (intros n d; by exists d, (d + n)).
  destruct (critical_sections_serializable 4 0 [[add_to 1]; [add_to 2]]) with s ts
    as (_ & order & Hfree & Hall).
  - done.
  - repeat constructor; apply Htot.
  - exact Hrun.
  - exists order. rewrite <-Hd. split; [by apply Hfree|].
    by destruct (Hall 1%nat [add_to 2] [1] eq_refl Hret) as [-> _].
Defined.

(** A try_lock alone, on every state of the lock word: when the lock is
    free the thunk runs and the lock is free again, its count two higher; when
    the caller has the lock the thunk runs and the word is left as it is; when
    another thread has it nothing happens and the result is empty. *)
Theorem try_lock_result_alone {D A : Type} (tid : nat) (b : prog D A) w d r d'
    (id_fits : small_tid tid) (body_runs : run b d = Ok r d') :
  run (lock.try_lock_result word_c tid (section b) None) (mkLocked w d) =
    if lock_entry.is_locked w then
      if lock_entry.is_self_locked tid w then Ok (Some r) (mkLocked w d')
      else Ok None (mkLocked w d)
    else Ok (Some r) (mkLocked (w mod 2 ^ 32 + 2) d').
Proof.
  assert (∀ w, run (section b) (mkLocked w d) = Ok r (mkLocked w d')) as Hsec.
  { intros w'. clear -body_runs. revert d body_runs. unfold section.
    induction b as [a|X f k IH]; intros d; simpl; [by intros [= -> ->]|].
    destruct (f d); simpl; [apply IH|done]. }
  unfold lock.try_lock_result. rewrite run_bind, (run_load _ _ w) by done.
  destruct (lock_entry.is_locked w) eqn:Hw; cbn [negb].
  - destruct (lock_entry.is_self_locked tid w); [|done]. by rewrite run_bind, Hsec.
  - unfold lock_entry.is_locked in Hw. apply Z.eqb_neq in Hw.
    pose proof (Z.mod_pos_bound w 2). assert (w mod 2 = 0) as Hev by lia.
    destruct (take_lock_facts tid w id_fits Hev) as (_ & H2 & H3).
    rewrite run_bind, (run_cas _ _ w), decide_True by done.
    change (poke word_c ?w' (mkLocked w d)) with (mkLocked w' d).
    rewrite run_bind, Hsec, run_bind, run_bind.
    rewrite (run_load _ _ (lock_entry.take_lock tid w)) by done.
    unfold lock_entry.is_self_locked. rewrite H2, Z.eqb_refl. cbn [when].
    rewrite (run_store _ _ (lock_entry.take_lock tid w)) by done. simpl. by rewrite H3.
Qed.

Lemma try_lock_result_alone_witness :
  run (lock.try_lock_result word_c 5 (section (add_to 1)) None) (mkLocked 4 7) =
    Ok (Some 7) (mkLocked 6 8).
Proof. rewrite (try_lock_result_alone 5 (add_to 1) 4 7 7 8); reflexivity. Defined.
