(* ===== verification/Snapshot.v ===== *)
(** * Snapshot: snapshots and the epoch hooks of the time stamps
    (the second half of include/verlib/timestamps.h).

    The definitions are over any state with the thread's variables
    [local_stamp], [aborted] and [speculative] in cells, the global stamp as a
    component that the clock's operations run on, and [with_epoch] as it is
    for that state. *)

From stdpp Require Import prelude list gmap.
From Stdlib Require Import ZArith Lia.
From S2P Require Import Prelude Timestamps.
Local Open Scope Z_scope.

Section snapshot.
Context {S C : Type} (get_clock : S → C) (set_clock : C → S → S).
Context (get_stamp : prog C Z) (get_read_stamp : nat → prog C Z)
  (increment_stamp : nat → Z → prog C unit).
Context (local_stamp : nat → cell S Z) (aborted speculative : nat → cell S bool)
  (num_retries : nat → cell S Z).
Context (with_epoch : ∀ A, nat → prog S A → prog S A).

#[local] Abbreviation on_clock := (zoom get_clock set_clock).

(** with_snapshot without LazyStamp, and with_snapshot_internal *)
Definition with_snapshot {A} (tid : nat) (f : prog S A) : prog S A :=
  with_epoch A tid
    (ls ← on_clock (get_read_stamp tid);
     store (local_stamp tid) ls ;;
     r ← f;
     store (local_stamp tid) (-1) ;;
     mret r).

(** with_snapshot with LazyStamp: first without moving the stamp; when a read
    met a version of its own stamp, again after moving it *)
Definition with_snapshot_lazy {A} (tid : nat) (use_speculative : bool) (f : prog S A) : prog S A :=
  if use_speculative then
    with_epoch A tid
      (ls ← on_clock get_stamp;
       store (local_stamp tid) ls ;;
       store (aborted tid) false ;;
       store (speculative tid) true ;;
       r ← f;
       store (speculative tid) false ;;
       a ← load (aborted tid);
       r' ← (if (a : bool) then
               store (aborted tid) false ;;
               n ← load (num_retries tid);
               store (num_retries tid) (n + 1) ;;
               ls' ← load (local_stamp tid);
               on_clock (increment_stamp tid ls') ;;
               f
             else mret r);
       store (local_stamp tid) (-1) ;;
       mret r')
  else with_snapshot tid f.
End snapshot.

(** ** The threads' variables of the LazyStamp configuration

    [aborted], [speculative] and [num_retries], beside a state [B] of versioned
    pointers. *)
Record lazy_state (B : Type) := mkLazy {
  base : B;
  aborted : gmap nat bool;
  speculative : gmap nat bool;
  num_retries : gmap nat Z;
}.
Arguments mkLazy {B} _ _ _ _. Arguments base {B} _. Arguments aborted {B} _.
Arguments speculative {B} _. Arguments num_retries {B} _.

Section lazy_state.
Context {B : Type}.
#[local] Abbreviation state := (lazy_state B).

Definition set_base (b : B) (s : state) : state := mkLazy b (aborted s) (speculative s) (num_retries s).
Definition on_base {A} (p : prog B A) : prog state A := zoom base set_base p.
Definition base_c {T} (c : cell B T) : cell state T :=
  Cell (λ s, peek c (base s)) (λ v s, set_base (poke c v (base s)) s).

Definition aborted_c (tid : nat) : cell state bool :=
  total_cell (λ s, default false (aborted s !! tid))
    (λ b s, mkLazy (base s) (<[tid := b]> (aborted s)) (speculative s) (num_retries s)).
Definition speculative_c (tid : nat) : cell state bool :=
  total_cell (λ s, default false (speculative s !! tid))
    (λ b s, mkLazy (base s) (aborted s) (<[tid := b]> (speculative s)) (num_retries s)).
Definition num_retries_c (tid : nat) : cell state Z :=
  thread_local num_retries (λ m s, mkLazy (base s) (aborted s) (speculative s) m) 0 tid.

(** the test at the end of each read_snapshot: the version read has the
    stamp [t], the snapshot the stamp [ls] *)
Definition abort_test (equal : Z → Z → bool) (tid : nat) (t ls : Z) : prog state unit :=
  when (equal t ls)
    (sp ← load (speculative_c tid);
     when sp (store (aborted_c tid) true)).

(** what it does to the variables, for a thread that runs alone *)
Definition after_abort_test (equal : Z → Z → bool) (tid : nat) (t ls : Z) (b : B) (s : state) : state :=
  mkLazy b (if equal t ls && default false (speculative s !! tid) then <[tid := true]> (aborted s) else aborted s)
    (speculative s) (num_retries s).

Lemma run_base {A} (p : prog B A) s :
  run (on_base p) s = match run p (base s) with Ok a b => Ok a (set_base b s) | Err e => Err e end.
Proof. apply run_zoom; [done|done|by intros []]. Qed.

Lemma run_base_load {T} (c : cell B T) s v : peek c (base s) = inr v → run (load (base_c c)) s = Ok v s.
Proof. intros H. by apply run_load. Qed.

Lemma run_abort_test equal tid t ls s :
  run (abort_test equal tid t ls) s = Ok tt (after_abort_test equal tid t ls (base s) s).
Proof.
  unfold abort_test, after_abort_test. destruct s as [b a sp n]. destruct (equal t ls); [|done]. cbn [when andb].
  rewrite run_bind. simpl. by destruct (default false (sp !! tid)).
Qed.
End lazy_state.

(** ** The stamps below which versions may be collected

    Before an epoch is incremented the thread notes the stamp; after it,
    [done_stamp] becomes the stamp noted at the increment before. *)
Section done.
Context {S C : Type} (get_clock : S → C) (set_clock : C → S → S) (get_stamp : prog C Z).
Context (done_stamp prev_stamp : cell S Z) (current_stamp : nat → cell S Z).

Definition before_epoch_hook (tid : nat) : prog S unit :=
  t ← zoom get_clock set_clock get_stamp; store (current_stamp tid) t.
Definition after_epoch_hook (tid : nat) : prog S unit :=
  p ← load prev_stamp; store done_stamp p ;;
  c ← load (current_stamp tid); store prev_stamp c.
End done.
