(* ===== verification/Indirect.v ===== *)
(** * Indirect: versioned pointers through version links
    (include/verlib/versioned_indirect.h).

    A pointer is the head of a chain of versions, newest first; a version is
    stamped after it is installed, by whoever sees it first. *)

From stdpp Require Import prelude list gmap.
From Stdlib Require Import ZArith Lia.
From S2P Require Import Prelude Conc Timestamps Snapshot SpinLock.
Local Open Scope Z_scope.

Record version_link := mkVersion { time_stamp : Z; next_version : Z; value : Z }.

(** [ptrs]: the field v of each versioned_ptr.  [retired] records the links
    given to link_pool.retire; when they are freed is the subject of [Epoch]. *)
Record state (C : Type) := mkState {
  clock : C;
  heap : gmap Z version_link;
  ptrs : gmap nat Z;
  local_stamp : gmap nat Z;
  retired : list Z;
}.
Arguments mkState {C} _ _ _ _ _. Arguments clock {C} _. Arguments heap {C} _.
Arguments ptrs {C} _. Arguments local_stamp {C} _. Arguments retired {C} _.

Section indirect.
Context {C : Type} (less : Z → Z → bool) (get_read_stamp get_write_stamp : nat → prog C Z).
Context (alloc : gmap Z version_link → Z).
#[local] Abbreviation state := (state C).

Definition set_clock (t : C) (s : state) : state :=
  mkState t (heap s) (ptrs s) (local_stamp s) (retired s).
Definition set_heap (h : gmap Z version_link) (s : state) : state :=
  mkState (clock s) h (ptrs s) (local_stamp s) (retired s).
Definition set_local (l : gmap nat Z) (s : state) : state :=
  mkState (clock s) (heap s) (ptrs s) l (retired s).

Definition at_addr (s : state) (p : Z) : err + version_link :=
  if p =? 0 then inl NullDeref
  else match heap s !! p with Some l => inr l | None => inl UseAfterFree end.

Definition link_c (p : Z) : cell state version_link :=
  Cell (λ s, at_addr s p) (λ l s, set_heap (<[p := l]> (heap s)) s).
(** the time_stamp field of a link *)
Definition ts_c (p : Z) : cell state Z :=
  Cell (λ s, match at_addr s p with inr l => inr (time_stamp l) | inl e => inl e end)
       (λ t s, match heap s !! p with
               | Some l => set_heap (<[p := mkVersion t (next_version l) (value l)]> (heap s)) s
               | None => s
               end).
Definition ptr_c (n : nat) : cell state Z :=
  Cell (λ s, match ptrs s !! n with Some p => inr p | None => inl UseAfterFree end)
       (λ p s, mkState (clock s) (heap s) (<[n := p]> (ptrs s)) (local_stamp s) (retired s)).
Definition local_stamp_c (tid : nat) : cell state Z :=
  thread_local local_stamp set_local (-1) tid.

(** link_pool *)
Definition new_obj (t : Z) (next v : Z) : prog state Z :=
  Act (λ s, let p := alloc (heap s) in
            Ok p (set_heap (<[p := mkVersion t next v]> (heap s)) s)) Ret.
Definition retire (p : Z) : prog state unit :=
  modify (λ s, mkState (clock s) (heap s) (ptrs s) (local_stamp s) (p :: retired s)).
Definition destruct_ (p : Z) : prog state unit := modify (λ s, set_heap (delete p (heap s)) s).

Definition set_stamp (tid : nat) (ptr : Z) : prog state Z :=
  t ← load (ts_c ptr);
  when (t =? tbd)
    (new_t ← zoom clock set_clock (get_write_stamp tid);
     t' ← load (ts_c ptr);
     when (t' =? tbd) (cas (ts_c ptr) tbd new_t ;; mret tt)) ;;
  mret ptr.

Definition init_ptr (v : Z) : prog state Z := new_obj zero_stamp 0 v.

Definition init (n : nat) (v : Z) : prog state unit :=
  p ← init_ptr v; store (ptr_c n) p.

Definition idempotent_cas (n : nat) (old_v new_v : Z) : prog state bool :=
  atomic.cas (ptr_c n) old_v new_v.

(** the first part of read_snapshot, up to the version that is read *)
Definition find_version (fuel tid n : nat) : prog state Z :=
  p ← load (ptr_c n);
  head ← set_stamp tid p;
  iter fuel (λ head,
    ls ← load (local_stamp_c tid);
    t ← load (ts_c head);
    if less ls t then l ← load (link_c head); mret (inl (next_version l))
    else mret (inr head)) head.

Definition read_snapshot (fuel tid n : nat) : prog state Z :=
  head ← find_version fuel tid n;
  l ← load (link_c head);
  mret (value l).

Definition load_ (fuel tid n : nat) : prog state Z :=
  ls ← load (local_stamp_c tid);
  if negb (ls =? -1) then read_snapshot fuel tid n
  else
    p ← load (ptr_c n);
    p' ← set_stamp tid p;
    l ← load (link_c p');
    mret (value l).

Definition read (n : nat) : prog state Z :=
  p ← load (ptr_c n); l ← load (link_c p); mret (value l).

Definition validate (tid n : nat) : prog state unit :=
  p ← load (ptr_c n); set_stamp tid p ;; mret tt.

Definition store_ (tid n : nat) (v : Z) : prog state unit :=
  old_link ← load (ptr_c n);
  new_link ← new_obj tbd old_link v;
  store (ptr_c n) new_link ;;
  set_stamp tid new_link ;;
  retire old_link.

Definition cas_ (tid n : nat) (old_v new_v : Z) : prog state bool :=
  old_link ← load (ptr_c n);
  when (negb (old_link =? 0)) (set_stamp tid old_link ;; mret tt) ;;
  l ← load (link_c old_link);
  if negb (old_v =? value l) then mret false
  else if old_v =? new_v then mret true
  else
    new_link ← new_obj tbd old_link new_v;
    b ← idempotent_cas n old_link new_link;
    if (b : bool) then
      set_stamp tid new_link ;;
      retire old_link ;;
      mret true
    else
      p ← load (ptr_c n);
      set_stamp tid p ;;
      destruct_ new_link ;;
      mret false.
End indirect.
