(* ===== verification/SnapshotProof.v ===== *)
(** * SnapshotProof: snapshots through versioned pointers are consistent.

    Threads update versioned pointers of [Indirect] with compare-and-swap and
    take snapshots, interleaved at every atomic access; the clock is anything
    that meets [SnapshotClock]. *)

From stdpp Require Import prelude list gmap.
From Stdlib Require Import ZArith Lia.
From S2P Require Import Prelude Conc Timestamps Snapshot SpinLock Indirect.
Local Open Scope Z_scope.

(** ** The client

    Compare-and-swaps, and snapshots that read a list of pointers and return
    their stamp with what they read. *)
Inductive command :=
  | CCas (n : nat) (old new : Z)
  | CSnapshot (ns : list nat).
Inductive result :=
  | RCas (b : bool)
  | RSnapshot (ls : Z) (vs : list (nat * Z)).

Section client.
Context {C : Type} (less : Z → Z → bool) (rd wr : nat → prog C Z).
Context (alloc : gmap Z version_link → Z).
#[local] Abbreviation vstate := (Indirect.state C).

Fixpoint load_all (fuel tid : nat) (ns : list nat) : prog vstate (list (nat * Z)) :=
  match ns with
  | [] => mret []
  | n :: ns' => v ← load_ less wr fuel tid n; vs ← load_all fuel tid ns'; mret ((n, v) :: vs)
  end.

Definition take_snapshot (fuel tid : nat) (ns : list nat) : prog vstate result :=
  with_snapshot clock set_clock rd local_stamp_c (λ A _ p, p) tid
    (ls ← load (local_stamp_c tid); vs ← load_all fuel tid ns; mret (RSnapshot ls vs)).

Definition exec (fuel tid : nat) (c : command) : prog vstate result :=
  match c with
  | CCas n o v => b ← cas_ wr alloc tid n o v; mret (RCas b)
  | CSnapshot ns => take_snapshot fuel tid ns
  end.

Fixpoint exec_all (fuel tid : nat) (cs : list command) : prog vstate (list result) :=
  match cs with
  | [] => mret []
  | c :: cs' => r ← exec fuel tid c; rs ← exec_all fuel tid cs'; mret (r :: rs)
  end.

(** pointer [n] with initial value [v] is initialised as by init_ptr *)
Definition addr_of (n : nat) : Z := Z.of_nat n + 1.
Definition init_state (t : C) (vs : list Z) : vstate :=
  mkState t (list_to_map (imap (λ n v, (addr_of n, mkVersion zero_stamp 0 v)) vs))
    (list_to_map (imap (λ n _, (n, addr_of n)) vs)) ∅ [].

(** the value that a snapshot at [ls] finds from link [p] on *)
Fixpoint value_at (fuel : nat) (h : gmap Z version_link) (ls p : Z) : option Z :=
  match fuel with
  | O => None
  | Datatypes.S k =>
      match h !! p with
      | Some l => if less ls (time_stamp l) then value_at k h ls (next_version l)
                  else Some (value l)
      | None => None
      end
  end.

Definition ptr_of_command (k : nat) (c : command) : Prop :=
  match c with CCas n _ _ => (n < k)%nat | CSnapshot ns => Forall (λ n, (n < k)%nat) ns end.
End client.

(** Auxiliary state: the stamps of the snapshots so far; for every installed
    link, the stamps taken before it was installed; the owner of a link that
    is not installed yet. *)
Record ghost := mkGhost {
  taken : gset Z;
  born : gmap Z (gset Z);
  priv : gmap Z nat;
}.

Section proof.
Context {C : Type} {okC : C → Prop} {adv : relation C} {less : Z → Z → bool}.
Context {rd wr : nat → prog C Z} `{Hclock : !SnapshotClock okC adv less rd wr}.
Context (alloc : gmap Z version_link → Z).
Context (alloc_fresh : ∀ m, m !! alloc m = None ∧ alloc m ≠ 0).

#[local] Abbreviation vstate := (Indirect.state C).
#[local] Abbreviation gstate := (vstate * ghost)%type.
Implicit Types c : gstate.
#[local] Abbreviation issued := (Timestamps.issued (ok := okC) (adv := adv) (less := less) (wr := wr)).

(** link [p] is installed, and it has its stamp *)
Definition pub (p : Z) c : Prop := is_Some (born c.2 !! p).
Definition stamped (p : Z) c : Prop :=
  p ≠ 0 ∧ pub p c ∧ ∃ l, heap c.1 !! p = Some l ∧ time_stamp l ≠ tbd.

Record inv c : Prop := {
  inv_ok : okC (clock c.1);
  inv_taken : ∀ x, x ∈ taken c.2 →
    issued x (clock c.1) ∧ less x tbd = true;
  inv_ptrs : ∀ n p, ptrs c.1 !! n = Some p → pub p c;
  inv_born : ∀ p B, born c.2 !! p = Some B → p ≠ 0 ∧ B ⊆ taken c.2 ∧ ∃ l, heap c.1 !! p = Some l ∧
    (time_stamp l ≠ tbd → ∀ x, x ∈ B → less x (time_stamp l) = true) ∧
    (next_version l = 0 ∧ time_stamp l = zero_stamp ∨ stamped (next_version l) c);
  inv_priv : ∀ p i, priv c.2 !! p = Some i → p ≠ 0 ∧ born c.2 !! p = None ∧
    is_Some (heap c.1 !! p);
}.

(** from [p] to [q] through links installed after the snapshots [T] *)
Inductive path (T : gset Z) c : Z → Z → Prop :=
  | path_refl p : path T c p p
  | path_step p l B q : heap c.1 !! p = Some l → born c.2 !! p = Some B → T ⊆ B →
      path T c (next_version l) q → path T c p q.

Record own (i : nat) c c' : Prop := {
  own_clock : adv (clock c.1) (clock c'.1);
  own_taken : taken c.2 ⊆ taken c'.2;
  own_born : ∀ p B, born c.2 !! p = Some B → born c'.2 !! p = Some B;
  own_links : ∀ p l, pub p c → heap c.1 !! p = Some l →
    ∃ l', heap c'.1 !! p = Some l' ∧ next_version l' = next_version l ∧ value l' = value l ∧
      (time_stamp l' = time_stamp l ∨ time_stamp l = tbd);
  own_ptrs : ∀ n p, ptrs c.1 !! n = Some p →
    ∃ p', ptrs c'.1 !! n = Some p' ∧ path (taken c.2) c' p' p;
  own_priv : ∀ p, priv c.2 !! p = Some i →
    priv c'.2 !! p = Some i ∧ heap c'.1 !! p = heap c.1 !! p;
  own_local : local_stamp c'.1 !! i = local_stamp c.1 !! i;
}.

Lemma path_mono i T T' c c' p q :
  T' ⊆ T → own i c c' → path T c p q → path T' c' p q.
Proof.
  intros HT Ho. induction 1 as [p|p l B q Hl HB HTB _ IH]; [constructor|].
  destruct (own_links _ _ _ Ho p l) as (l' & Hl' & Hn & _ & _); [by eexists|done|].
  eapply path_step; [done|by apply (own_born _ _ _ Ho)|by etrans|]. by rewrite Hn.
Qed.

Lemma path_trans T c p q r : path T c p q → path T c q r → path T c p r.
Proof.
  induction 1 as [|p l B q Hl HB HT _ IH]; [done|]. intros. eapply path_step; eauto.
Qed.

Lemma path_weaken T T' c p q : T' ⊆ T → path T c p q → path T' c p q.
Proof.
  intros HT. induction 1 as [p|p l B q Hl HB HTB _ IH]; [constructor|].
  eapply path_step; [done..|by etrans|done].
Qed.

Lemma own_preorder i : PreOrder (own i).
Proof.
  split.
  - intros c. split; try done.
    + intros p l _ Hl. exists l. auto.
    + intros n p Hp. exists p. split; [done|constructor].
  - intros c1 c2 c3 H12 H23. pose proof H12 as [O1 O2 O3 O4 O5 O6 O7].
    pose proof H23 as [P1 P2 P3 P4 P5 P6 P7]. split.
    + by etrans.
    + by etrans.
    + auto.
    + intros p l Hp Hl. destruct (O4 p l Hp Hl) as (l2 & Hl2 & Hn & Hv & Ht).
      destruct (P4 p l2) as (l3 & Hl3 & Hn3 & Hv3 & Ht3); [|done|].
      { destruct Hp as [B HB]. exists B. by apply O3. }
      exists l3. split_and!; [done|congruence..|]. destruct Ht as [Ht|Ht]; [|by right].
      destruct Ht3 as [Ht3|Ht3]; [left|right]; congruence.
    + intros n p Hp. destruct (O5 n p Hp) as (p2 & Hp2 & Hpath).
      destruct (P5 n p2 Hp2) as (p3 & Hp3 & Hpath3). exists p3. split; [done|].
      eapply path_trans; [by eapply path_weaken|].
      by apply (path_mono i (taken c1.2) _ c2).
    + intros p Hp. destruct (O6 p Hp) as [Hp2 Hh2], (P6 p Hp2) as [Hp3 Hh3].
      split; [done|congruence].
    + congruence.
Qed.

Definition snapshots : protocol vstate ghost :=
  Protocol _ _ (λ s, okC (clock s)) inv own own_preorder.
#[local] Abbreviation ht := (Conc.ht snapshots only_fuel).
#[local] Abbreviation stable := (Conc.stable snapshots).
#[local] Abbreviation update := (Conc.update snapshots).

(** ** Assertions *)
Definition linked (p nx v : Z) c : Prop :=
  pub p c ∧ ∃ l, heap c.1 !! p = Some l ∧ next_version l = nx ∧ value l = v.
Definition mine (i : nat) (p : Z) (l : version_link) c : Prop :=
  priv c.2 !! p = Some i ∧ heap c.1 !! p = Some l.
Definition local_is (i : nat) (ls : Z) c : Prop := default (-1) (local_stamp c.1 !! i) = ls.
Definition is_taken (x : Z) c : Prop := x ∈ taken c.2.

(** a snapshot at [ls] goes from [p] to [q] *)
Inductive skips (ls : Z) c : Z → Z → Prop :=
  | skips_refl p : skips ls c p p
  | skips_step p l B q : heap c.1 !! p = Some l → born c.2 !! p = Some B →
      (ls ∈ B ∨ time_stamp l ≠ tbd ∧ less ls (time_stamp l) = true) →
      skips ls c (next_version l) q → skips ls c p q.

Lemma skips_trans ls c p q r : skips ls c p q → skips ls c q r → skips ls c p r.
Proof. induction 1; [done|]. intros. eapply skips_step; eauto. Qed.

Lemma path_skips ls T c p q : ls ∈ T → path T c p q → skips ls c p q.
Proof.
  intros HT. induction 1 as [|p l B q Hl HB HTB _ IH]; [constructor|].
  eapply skips_step; [done..| |done]. left. by apply HTB, HT.
Qed.

Lemma skips_mono i ls c c' p q : own i c c' → skips ls c p q → skips ls c' p q.
Proof.
  intros Ho. induction 1 as [|p l B q Hl HB Hls _ IH]; [constructor|].
  destruct (own_links _ _ _ Ho p l) as (l' & Hl' & Hn & _ & Ht); [by eexists|done|].
  eapply skips_step; [done|by apply (own_born _ _ _ Ho)| |by rewrite Hn].
  destruct Hls as [?|[Hs ?]]; [by left|right]. destruct Ht as [->|?]; done.
Qed.

Definition reaches (ls : Z) (n : nat) (q : Z) c : Prop :=
  is_taken ls c ∧ stamped q c ∧ ∃ p, ptrs c.1 !! n = Some p ∧ skips ls c p q.

(** pointer [n] had value [v] for the snapshot at [ls] *)
Definition sees (ls : Z) (n : nat) (v : Z) c : Prop :=
  ∃ q l, reaches ls n q c ∧ heap c.1 !! q = Some l ∧ less ls (time_stamp l) = false ∧ value l = v.

Lemma stable_pub i p : stable i (pub p).
Proof. intros c c' [B HB] _ Ho. exists B. by apply (own_born _ _ _ Ho). Qed.

Lemma stable_stamped i p : stable i (stamped p).
Proof.
  intros c c' (Hp & Hpub & l & Hl & Ht) Hi Ho. split_and!; [done|by eapply stable_pub|].
  destruct (own_links _ _ _ Ho p l) as (l' & Hl' & _ & _ & Ht'); [done..|].
  exists l'. split; [done|]. destruct Ht'; congruence.
Qed.

Lemma stable_linked i p nx v : stable i (linked p nx v).
Proof.
  intros c c' (Hpub & l & Hl & Hn & Hv) Hi Ho. split; [by eapply stable_pub|].
  destruct (own_links _ _ _ Ho p l) as (l' & Hl' & ? & ? & _); [done..|].
  exists l'. split_and!; congruence.
Qed.

Lemma stable_mine i p l : stable i (mine i p l).
Proof.
  intros c c' [Hp Hl] _ Ho. destruct (own_priv _ _ _ Ho p Hp) as [? ?]. split; congruence.
Qed.

Lemma stable_local i ls : stable i (local_is i ls).
Proof. intros c c' H _ Ho. unfold local_is. by rewrite (own_local _ _ _ Ho). Qed.

Lemma stable_taken i x : stable i (is_taken x).
Proof. intros c c' H _ Ho. by apply (own_taken _ _ _ Ho). Qed.

Lemma stable_issued i x : stable i (λ c, issued x (clock c.1)).
Proof. intros c c' H _ Ho. eapply issued_adv; [done|apply (own_clock _ _ _ Ho)]. Qed.

Lemma stable_reaches i ls n q : stable i (reaches ls n q).
Proof.
  intros c c' (Ht & Hs & p & Hp & Hsk) Hi Ho.
  split_and!; [by eapply stable_taken|by eapply stable_stamped|].
  destruct (own_ptrs _ _ _ Ho n p Hp) as (p' & Hp' & Hpath). exists p'. split; [done|].
  eapply skips_trans; [by eapply path_skips|by eapply skips_mono].
Qed.

Lemma stable_sees i ls n v : stable i (sees ls n v).
Proof.
  intros c c' (q & l & Hr & Hl & Hls & Hv) Hi Ho. pose proof Hr as (_ & (_ & Hpub & l1 & Hl1 & Hs) & _).
  simplify_eq. destruct (own_links _ _ _ Ho q l) as (l' & Hl' & _ & ? & Ht); [done..|].
  exists q, l'. split; [by eapply stable_reaches|]. split; [done|].
  destruct Ht as [->|?]; [|done]. split; congruence.
Qed.
#[local] Hint Resolve stable_pub stable_stamped stable_linked stable_mine stable_local
  stable_taken stable_issued stable_reaches stable_sees : stab.

(** ** The steps of the protocol *)

Definition stamp_link (p t : Z) (s : vstate) : vstate := poke (ts_c p) t s.

Lemma stamped_of c p l : inv c → pub p c → heap c.1 !! p = Some l → time_stamp l ≠ tbd → stamped p c.
Proof.
  intros Hc [B HB] Hl Ht. destruct (inv_born _ Hc p B HB) as (? & _).
  split; [done|]. split; [by exists B|eauto].
Qed.

(** anything that leaves the links, the pointers and the ghost alone *)
Lemma upd_local i c s' :
  inv c → okC (clock s') → adv (clock c.1) (clock s') → heap s' = heap c.1 → ptrs s' = ptrs c.1 →
  (∀ j, j ≠ i → local_stamp s' !! j = local_stamp c.1 !! j) → update i c (s', c.2).
Proof.
  intros [] Hok Hadv Hh Hp Hl. split.
  - split; unfold stamped, pub in *; cbn [fst snd] in *; rewrite ?Hh, ?Hp; auto.
    intros x Hx. destruct (inv_taken0 x Hx) as (? & ?). split; [|done].
    by eapply issued_adv.
  - intros j Hj. split; simpl; rewrite ?Hh, ?Hp; auto.
    + intros p l _ Hl'. exists l. auto.
    + intros n p Hn. exists p. split; [done|constructor].
Qed.

Lemma upd_begin i c x s' :
  inv c → issued x (clock c.1) → less x tbd = true →
  clock s' = clock c.1 → heap s' = heap c.1 → ptrs s' = ptrs c.1 →
  (∀ j, j ≠ i → local_stamp s' !! j = local_stamp c.1 !! j) →
  update i c (s', mkGhost ({[x]} ∪ taken c.2) (born c.2) (priv c.2)).
Proof.
  intros [] Hx Ht Hc Hh Hp Hl. split.
  - split; unfold stamped, pub in *; cbn [fst snd taken born priv] in *; rewrite ?Hh, ?Hp, ?Hc; auto.
    + intros y. rewrite elem_of_union, elem_of_singleton. intros [->|Hy]; [done|auto].
    + intros p B HB. destruct (inv_born0 p B HB) as (? & ? & ?). split_and!; [done|by apply union_subseteq_r'|done].
  - intros j Hj. split; simpl; rewrite ?Hh, ?Hp, ?Hc; auto.
    + reflexivity.
    + by apply union_subseteq_r.
    + intros p l _ Hl'. exists l. auto.
    + intros n p Hn. exists p. split; [done|constructor].
Qed.

Lemma upd_stamp i c p B l t :
  inv c → born c.2 !! p = Some B → heap c.1 !! p = Some l → time_stamp l = tbd → t ≠ tbd →
  (∀ x, x ∈ B → less x t = true) → update i c (stamp_link p t c.1, c.2).
Proof.
  intros Hc HB Hl Htbd Ht Hx. pose proof Hc as [].
  assert (heap (stamp_link p t c.1) = <[p := mkVersion t (next_version l) (value l)]> (heap c.1)) as Hh.
  { unfold stamp_link; simpl. by rewrite Hl. }
  assert (clock (stamp_link p t c.1) = clock c.1 ∧ ptrs (stamp_link p t c.1) = ptrs c.1 ∧
          local_stamp (stamp_link p t c.1) = local_stamp c.1) as (H1 & H2 & H3).
  { unfold stamp_link; simpl. by rewrite Hl. }
  assert (∀ q, stamped q c → stamped q (stamp_link p t c.1, c.2)) as Hst.
  { intros q (Hq & Hpub & l' & Hl' & Hs). split_and!; [done..|]. simpl. rewrite Hh.
    destruct (decide (p = q)) as [<-|Hne]; [simplify_eq; done|].
    exists l'. by rewrite lookup_insert_ne. }
  split.
  - split; simpl; rewrite ?H1, ?H2; auto.
    + intros q B' HB'. destruct (inv_born0 q B' HB') as (? & ? & l' & Hl' & Hs & Hn).
      split_and!; [done..|]. rewrite Hh. destruct (decide (p = q)) as [<-|Hne].
      * simplify_eq. eexists. rewrite lookup_insert_eq. split; [done|]. simpl. split; [auto|].
        right. apply Hst. destruct Hn as [[_ Hz]|?]; [|done].
        exfalso. rewrite Hz in Htbd. done.
      * exists l'. rewrite lookup_insert_ne by done. split; [done|]. split; [done|].
        destruct Hn as [?|?]; [by left|right; by apply Hst].
    + intros q j Hq. destruct (inv_priv0 q j Hq) as (? & Hb & [l' Hl']). split_and!; [done..|].
      rewrite Hh, lookup_insert_ne by congruence. by eexists.
  - intros j Hj. split; simpl; rewrite ?H1, ?H2, ?H3; auto.
    + reflexivity.
    + intros q l' Hq Hl'. rewrite Hh. destruct (decide (p = q)) as [<-|Hne].
      * simplify_eq. eexists. rewrite lookup_insert_eq. simpl. auto.
      * exists l'. rewrite lookup_insert_ne by done. auto.
    + intros n q Hn. exists q. split; [done|constructor].
    + intros q Hq. split; [done|]. rewrite Hh, lookup_insert_ne; [done|].
      intros <-. destruct (inv_priv0 p j Hq) as (_ & ? & _). congruence.
Qed.

Lemma upd_alloc i c p l :
  inv c → heap c.1 !! p = None → p ≠ 0 →
  update i c (set_heap (<[p := l]> (heap c.1)) c.1,
              mkGhost (taken c.2) (born c.2) (<[p := i]> (priv c.2))).
Proof.
  intros Hc Hp Hp0. pose proof Hc as [].
  assert (∀ q, is_Some (heap c.1 !! q) → p ≠ q) as Hne by (intros q [? ?] ->; congruence).
  assert (∀ q, stamped q c → stamped q (set_heap (<[p := l]> (heap c.1)) c.1,
              mkGhost (taken c.2) (born c.2) (<[p := i]> (priv c.2)))) as Hst.
  { intros q (Hq & Hpub & l' & Hl' & Hs). split_and!; [done..|]. simpl. exists l'.
    by rewrite lookup_insert_ne by eauto. }
  split.
  - split; simpl; auto.
    + intros q B HB. destruct (inv_born0 q B HB) as (? & ? & l' & Hl' & Hs & Hn).
      split_and!; [done..|]. exists l'. rewrite lookup_insert_ne by eauto.
      split_and!; [done..|]. destruct Hn as [?|?]; [by left|right; by apply Hst].
    + intros q j Hq. apply lookup_insert_Some in Hq as [[<- <-]|[Hpq Hq]].
      * split_and!; [done| |by rewrite lookup_insert_eq].
        destruct (born c.2 !! p) as [B|] eqn:HB; [|done].
        destruct (inv_born0 p B HB) as (_ & _ & l' & Hl' & _). congruence.
      * rewrite lookup_insert_ne by done. eauto.
  - intros j Hj. split; simpl; auto.
    + reflexivity.
    + intros q l' Hq Hl'. exists l'. rewrite lookup_insert_ne by eauto. auto.
    + intros n q Hn. exists q. split; [done|constructor].
    + intros q Hq. destruct (inv_priv0 q j Hq) as (_ & _ & Hl').
      by rewrite !lookup_insert_ne by eauto.
Qed.

Lemma upd_discard i c p :
  inv c → priv c.2 !! p = Some i →
  update i c (set_heap (delete p (heap c.1)) c.1,
              mkGhost (taken c.2) (born c.2) (delete p (priv c.2))).
Proof.
  intros Hc Hp. pose proof Hc as []. destruct (inv_priv0 p i Hp) as (Hp0 & Hnb & _).
  assert (∀ q, pub q c → p ≠ q) as Hne by (intros q [? ?] ->; congruence).
  assert (∀ q, stamped q c → stamped q (set_heap (delete p (heap c.1)) c.1,
              mkGhost (taken c.2) (born c.2) (delete p (priv c.2)))) as Hst.
  { intros q (Hq & Hpub & l' & Hl' & Hs). split_and!; [done..|]. simpl. exists l'.
    by rewrite lookup_delete_ne by auto. }
  split.
  - split; simpl; auto.
    + intros q B HB. destruct (inv_born0 q B HB) as (? & ? & l' & Hl' & Hs & Hn).
      split_and!; [done..|]. exists l'. rewrite lookup_delete_ne by (apply Hne; by eexists).
      split_and!; [done..|]. destruct Hn as [?|?]; [by left|right; by apply Hst].
    + intros q j Hq. apply lookup_delete_Some in Hq as [Hpq Hq].
      rewrite lookup_delete_ne by done. eauto.
  - intros j Hj. split; simpl; auto.
    + reflexivity.
    + intros q l' Hq Hl'. exists l'. rewrite lookup_delete_ne by auto. auto.
    + intros n q Hn. exists q. split; [done|constructor].
    + intros q Hq. rewrite !lookup_delete_ne by congruence. auto.
Qed.

Lemma upd_install i c n p old v :
  inv c → mine i p (mkVersion tbd old v) c → ptrs c.1 !! n = Some old → stamped old c →
  update i c (poke (ptr_c n) p c.1,
              mkGhost (taken c.2) (<[p := taken c.2]> (born c.2)) (delete p (priv c.2))).
Proof.
  intros Hc [Hp Hl] Hn Hold. pose proof Hc as []. destruct (inv_priv0 p i Hp) as (Hp0 & Hnb & _).
  set (c' := (poke (ptr_c n) p c.1,
    mkGhost (taken c.2) (<[p := taken c.2]> (born c.2)) (delete p (priv c.2)))).
  assert (∀ q, pub q c → pub q c') as Hpub.
  { intros q Hq. unfold pub; simpl. destruct (decide (p = q)) as [<-|];
      [by rewrite lookup_insert_eq|by rewrite lookup_insert_ne]. }
  assert (∀ q, stamped q c → stamped q c') as Hst.
  { intros q (Hq & ? & l' & Hl' & Hs). split_and!; [done|by apply Hpub|]. eauto. }
  split.
  - split; simpl; auto.
    + intros m q Hm. destruct (decide (n = m)) as [<-|Hne].
      * rewrite lookup_insert_eq in Hm. simplify_eq. unfold pub; simpl.
        by rewrite lookup_insert_eq.
      * rewrite lookup_insert_ne in Hm by done. apply Hpub. eauto.
    + intros q B HB. apply lookup_insert_Some in HB as [[<- <-]|[Hpq HB]].
      * split_and!; [done..|]. eexists. split; [exact Hl|]. simpl. split; [done|].
        right. by apply Hst.
      * destruct (inv_born0 q B HB) as (? & ? & l' & Hl' & Hs & Hnx).
        split_and!; [done..|]. exists l'. split_and!; [done..|].
        destruct Hnx as [?|?]; [by left|right; by apply Hst].
    + intros q j Hq. apply lookup_delete_Some in Hq as [Hpq Hq].
      rewrite lookup_insert_ne by done. eauto.
  - intros j Hj. split; simpl; auto.
    + reflexivity.
    + intros q B HB. rewrite lookup_insert_ne by congruence. done.
    + intros q l' _ Hl'. exists l'. auto.
    + intros m q Hm. destruct (decide (n = m)) as [<-|Hne].
      * exists p. rewrite lookup_insert_eq. split; [done|]. simplify_eq.
        eapply path_step; [exact Hl|simpl; by rewrite lookup_insert_eq|done|constructor].
      * exists q. rewrite lookup_insert_ne by done. split; [done|constructor].
    + intros q Hq. rewrite lookup_delete_ne by congruence. done.
Qed.
(** ** Frames: what a thread knows across its own calls of set_stamp *)
Record frame (i : nat) (F : gstate → Prop) : Prop := {
  frame_stable : stable i F;
  frame_clock : ∀ c t, F c → update i c (set_clock t c.1, c.2) → F (set_clock t c.1, c.2);
  frame_stamp : ∀ c p t, inv c → pub p c → F c →
    update i c (stamp_link p t c.1, c.2) → F (stamp_link p t c.1, c.2);
}.

(** an assertion that does not speak of a thread is kept by its own steps too *)
Lemma own_step (i : nat) (F : gstate → Prop) c c' :
  (∀ j, stable j F) → F c → update i c c' → F c'.
Proof.
  intros Hst HF [Hc' Ho]. apply (Hst (Datatypes.S i) c c' HF Hc'). apply Ho. lia.
Qed.

Lemma frame_global i F : (∀ j, stable j F) → frame i F.
Proof. intros Hst. split; [done|intros; by eapply own_step..]. Qed.

Lemma frame_local i ls : frame i (local_is i ls).
Proof.
  split; [apply stable_local|done|]. intros c p t Hc _ H _. unfold local_is, stamp_link in *.
  simpl. by destruct (heap c.1 !! p).
Qed.

Lemma frame_mine i p l : frame i (mine i p l).
Proof.
  split; [apply stable_mine|done|]. intros c q t Hc Hq [Hp Hl] _. split; [done|].
  destruct (inv_priv _ Hc p i Hp) as (_ & Hnb & _). unfold stamp_link; simpl.
  destruct (heap c.1 !! q) eqn:E; [|done]. simpl. rewrite lookup_insert_ne; [done|].
  intros ->. destruct Hq. congruence.
Qed.

Lemma frame_and i F G : frame i F → frame i G → frame i (λ c, F c ∧ G c).
Proof.
  intros [F1 F2 F3] [G1 G2 G3]. split.
  - by apply stable_and.
  - intros c t [? ?] ?. auto.
  - intros c p t Hc Hp [? ?] ?. auto.
Qed.

Lemma peek_ts c p l : p ≠ 0 → heap c.1 !! p = Some l → peek (ts_c p) c.1 = inr (time_stamp l).
Proof. intros Hp Hl. simpl. unfold at_addr. by rewrite (proj2 (Z.eqb_neq _ _) Hp), Hl. Qed.

Lemma peek_link c p l : p ≠ 0 → heap c.1 !! p = Some l → peek (link_c p) c.1 = inr l.
Proof. intros Hp Hl. simpl. unfold at_addr. by rewrite (proj2 (Z.eqb_neq _ _) Hp), Hl. Qed.

Lemma ht_load_ts i p (P : gstate → Prop) Q : stable i P → (∀ c, P c → pub p c) →
  (∀ c l, inv c → P c → heap c.1 !! p = Some l → Q (time_stamp l) c) → ht i P (load (ts_c p)) Q.
Proof.
  intros Hst Hp HQ. apply ht_load; [done|]. intros c Hc HP.
  destruct (Hp c HP) as [B HB]. destruct (inv_born _ Hc p B HB) as (? & _ & l & Hl & _).
  rewrite (peek_ts c p l) by done. by eapply HQ.
Qed.

Lemma ht_load_version i p (P : gstate → Prop) Q : stable i P → (∀ c, P c → pub p c) →
  (∀ c l, inv c → P c → heap c.1 !! p = Some l → Q l c) → ht i P (load (link_c p)) Q.
Proof.
  intros Hst Hp HQ. apply ht_load; [done|]. intros c Hc HP.
  destruct (Hp c HP) as [B HB]. destruct (inv_born _ Hc p B HB) as (? & _ & l & Hl & _).
  rewrite (peek_link c p l) by done. by eapply HQ.
Qed.

(** ** set_stamp *)
#[local] Abbreviation set_stamp := (Indirect.set_stamp wr).

(** the stamp to be given to a link that is installed *)
Definition good_stamp (p t : Z) c : Prop :=
  t ≠ tbd ∧ ∃ B, born c.2 !! p = Some B ∧ ∀ x, x ∈ B → less x t = true.

Lemma stable_good_stamp i p t : stable i (good_stamp p t).
Proof.
  intros c c' (? & B & HB & ?) _ Ho. split; [done|]. exists B.
  split; [by apply (own_born _ _ _ Ho)|done].
Qed.
#[local] Hint Resolve stable_good_stamp : stab.

Lemma ht_on_clock {A} i F (p : prog C A) Q : frame i F →
  (∀ c, inv c → F c → wprg okC adv adv only_fuel p Q (clock c.1)) →
  ht i F (zoom clock set_clock p) (λ a c, F c ∧ Q a (clock c.1)).
Proof.
  intros HF Hp. apply (ht_zoom snapshots only_fuel clock set_clock okC adv only_fuel i F p Q); try done.
  - intros c1 c2 Ho. apply (own_clock _ _ _ Ho).
  - apply HF.
  - intros c t Hc HFc Hadv Hok.
    assert (update i c (set_clock t c.1, c.2)) as Hu by (apply upd_local; done).
    split; [done|]. by apply HF.
Qed.

Lemma ht_get_write_stamp i p F : frame i F →
  ht i (λ c, pub p c ∧ F c) (zoom clock set_clock (wr i))
     (λ t c, good_stamp p t c ∧ pub p c ∧ F c).
Proof.
  intros HF c Hc [[B HB] HFc].
  set (P := λ c, born c.2 !! p = Some B ∧ F c).
  assert (frame i P) as HP.
  { apply frame_and; [|done]. apply frame_global. intros j c1 c2 H _ Ho. by apply (own_born _ _ _ Ho). }
  assert (ht i P (zoom clock set_clock (wr i))
    (λ t c, P c ∧ (∀ x, x ∈ B → less x t = true) ∧ t ≠ tbd)) as Hz.
  { apply (ht_on_clock i P (wr i) (λ t _, (∀ x, x ∈ B → less x t = true) ∧ t ≠ tbd)); [done|].
    intros c1 Hc1 [HB1 HF1]. apply clock_later; [apply Hc1|]. intros x Hx.
    destruct (inv_born _ Hc1 p B HB1) as (_ & HBt & _). apply (inv_taken _ Hc1). by apply HBt. }
  eapply wpg_mono; [|by apply Hz]. intros t c1 (Hc1 & [HB1 HF1] & Hx & Ht).
  split; [done|]. split; [split; [done|by exists B]|]. split; [by exists B|done].
Qed.

Lemma ht_set_stamp i p F : frame i F →
  ht i (λ c, pub p c ∧ F c) (set_stamp i p) (λ q c, q = p ∧ stamped p c ∧ F c).
Proof.
  intros HF. pose proof (frame_stable _ _ HF) as HFst. unfold Indirect.set_stamp.
  eapply (ht_bind _ _ _ _ _ _ (λ t c, (t ≠ tbd → stamped p c) ∧ pub p c ∧ F c)).
  { apply ht_load_ts; [auto with stab|by intros c [? _]|]. intros c l Hc [Hp HFc] Hl.
    split; [|done]. intros. by eapply stamped_of. }
  intros t. eapply (ht_bind _ _ _ _ _ _ (λ _ c, stamped p c ∧ F c)); [|intros u; by apply ht_ret].
  destruct (Z.eqb_spec t tbd) as [->|Ht]; cbn [when].
  2:{ apply (ht_ret snapshots). intros c (H & _ & ?). auto. }
  eapply ht_bind.
  { eapply (ht_weaken _ _ _ _ (λ c, pub p c ∧ F c)); [by apply ht_get_write_stamp|by intros c [_ ?]|].
    intros a c Hq. exact Hq. }
  intros t. cbv beta.
  eapply (ht_bind _ _ _ _ _ _ (λ t' c, (t' ≠ tbd → stamped p c) ∧ good_stamp p t c ∧ pub p c ∧ F c)).
  { apply ht_load_ts; [auto with stab|by intros c (_ & ? & _)|]. intros c l Hc (Hg & Hp & HFc) Hl.
    split; [|done]. intros. by eapply stamped_of. }
  intros t'. destruct (Z.eqb_spec t' tbd) as [->|Ht']; cbn [when].
  2:{ apply (ht_ret snapshots). intros c (H & _ & _ & ?). auto. }
  eapply (ht_bind _ _ _ _ _ _ (λ _ c, stamped p c ∧ F c)); [|intros u; by apply ht_ret].
  unfold cas. eapply (ht_bind _ _ _ _ _ _ (λ _ c, stamped p c ∧ F c)); [|intros u; by apply ht_ret].
  eapply (ht_weaken _ _ _ _ (λ c, good_stamp p t c ∧ pub p c ∧ F c));
    [|by intros c [_ ?]|intros a c Hq; exact Hq].
  apply ht_act; [auto with stab|]. intros c Hc ((Ht & B & HB & Hx) & Hp & HFc).
  destruct (inv_born _ Hc p B HB) as (Hp0 & _ & l & Hl & _). unfold on_cell.
  rewrite (peek_ts c p l) by done. case_decide as Htl.
  - exists c.2. assert (update i c (stamp_link p t c.1, c.2)) as Hu by by eapply upd_stamp.
    split; [exact Hu|]. split; [|by apply (frame_stamp _ _ HF)].
    split; [done|]. split; [by exists B|]. simpl. rewrite Hl.
    exists (mkVersion t (next_version l) (value l)). simpl. by rewrite lookup_insert_eq.
  - exists c.2. rewrite <-surjective_pairing. split; [by apply update_refl|].
    split; [by eapply stamped_of|done].
Qed.
(** ** Reads in a snapshot *)
Definition has_ptr (n : nat) c : Prop := is_Some (ptrs c.1 !! n).
Definition on_way (ls : Z) (n : nat) (q : Z) c : Prop :=
  is_taken ls c ∧ ∃ p, ptrs c.1 !! n = Some p ∧ skips ls c p q.
Definition stamp_is (p t : Z) c : Prop :=
  t ≠ tbd ∧ pub p c ∧ ∃ l, heap c.1 !! p = Some l ∧ time_stamp l = t.

Lemma stable_has_ptr i n : stable i (has_ptr n).
Proof. intros c c' [p Hp] _ Ho. destruct (own_ptrs _ _ _ Ho n p Hp) as (p' & Hp' & _). by exists p'. Qed.

Lemma stable_on_way i ls n q : stable i (on_way ls n q).
Proof.
  intros c c' (Ht & p & Hp & Hsk) Hi Ho. split; [by eapply stable_taken|].
  destruct (own_ptrs _ _ _ Ho n p Hp) as (p' & Hp' & Hpath). exists p'. split; [done|].
  eapply skips_trans; [by eapply path_skips|by eapply skips_mono].
Qed.

Lemma stable_stamp_is i p t : stable i (stamp_is p t).
Proof.
  intros c c' (Ht & Hp & l & Hl & Hlt) Hi Ho. split; [done|]. split; [by eapply stable_pub|].
  destruct (own_links _ _ _ Ho p l) as (l' & Hl' & _ & _ & Ht'); [done..|].
  exists l'. split; [done|]. destruct Ht'; congruence.
Qed.
#[local] Hint Resolve stable_has_ptr stable_on_way stable_stamp_is : stab.
#[local] Hint Resolve frame_global frame_and frame_local frame_mine : stab.

(** the version for a snapshot that walks with [ls] and must not see what comes
    after the stamp [x] *)
Lemma ht_find_version i n ls x F fuel : (∀ j, stable j F) →
  (∀ t, less ls t = true → less x t = true) → less ls zero_stamp = false →
  ht i (λ c, is_taken x c ∧ local_is i ls c ∧ has_ptr n c ∧ F c)
     (find_version less wr fuel i n)
     (λ q c, ∃ t, less ls t = false ∧ stamp_is q t c ∧ reaches x n q c ∧ local_is i ls c ∧ F c).
Proof.
  intros HF Hlsx Hzero. unfold find_version.
  eapply (ht_bind _ _ _ _ _ _ (λ p c, pub p c ∧ on_way x n p c ∧ local_is i ls c ∧ F c)).
  { apply ht_load; [auto 6 with stab|]. intros c Hc (Ht & Hls & [p Hp] & HFc). simpl. rewrite Hp.
    split; [by eapply inv_ptrs|]. split; [|done]. split; [done|].
    exists p. split; [done|constructor]. }
  intros p. eapply ht_bind.
  { apply (ht_set_stamp i p (λ c, on_way x n p c ∧ local_is i ls c ∧ F c)).
    apply frame_and; [apply frame_global; auto with stab|].
    apply frame_and; [apply frame_local|by apply frame_global]. }
  intros q. apply ht_pure. intros ->.
  set (I := λ q c, reaches x n q c ∧ local_is i ls c ∧ F c).
  eapply ht_weaken; [apply (ht_iter _ _ _ I); [done|]| |intros a c Hq; exact Hq].
  2:{ intros c (Hs & (Ht & p' & Hp' & Hsk) & ? & ?). split; [|done].
      split_and!; [done..|]. by exists p'. }
  intros head. assert (stable i (I head)) as HI by (unfold I; auto with stab).
  eapply (ht_bind _ _ _ _ _ _ (λ v c, v = ls ∧ I head c)).
  { apply ht_load; [done|]. intros c Hc HIc. pose proof HIc as (_ & Hls & _). done. }
  intros v. apply ht_pure. intros ->.
  eapply (ht_bind _ _ _ _ _ _ (λ t c, stamp_is head t c ∧ I head c)).
  { apply ht_load_ts; [done|by intros c ((_ & (_ & ? & _) & _) & _)|].
    intros c l Hc HIc Hl. split; [|done].
    pose proof HIc as ((_ & (_ & Hp & l' & Hl' & Ht) & _) & _). simplify_eq.
    split_and!; [done|done|]. by exists l. }
  intros t. destruct (less ls t) eqn:Hless.
  - eapply (ht_bind _ _ _ _ _ _ (λ l, I (next_version l)));
      [|intros l; by apply ht_ret].
    apply ht_load_version; [auto with stab|by intros c [(_ & ? & _) _]|].
    intros c l Hc [(Ht & [B HB] & l' & Hl' & Htl) ((Htk & Hst & p' & Hp' & Hsk) & ? & ?)] Hl.
    simplify_eq. split; [|done].
    destruct (inv_born _ Hc head B HB) as (_ & _ & l2 & Hl2 & _ & Hn). simplify_eq.
    destruct Hn as [[_ Hz]|Hn]; [rewrite Hz in Hless; congruence|].
    split_and!; [done..|]. exists p'. split; [done|]. eapply skips_trans; [done|].
    eapply skips_step; [done|done| |constructor]. right. split; [done|by apply Hlsx].
  - apply ht_ret. intros c HIc. by exists t.
Qed.

(** reading it *)
Lemma ht_read_version i n q t x G : (∀ c, G c → reaches x n q c ∧ stamp_is q t c) → stable i G →
  ht i G (load (link_c q)) (λ l c, (less x t = false → sees x n (value l) c) ∧ G c).
Proof.
  intros HG HGs. apply ht_load_version; [done|by intros c [_ (_ & ? & _)]%HG|].
  intros c l Hc HGc Hl. destruct (HG c HGc) as [Hr (Ht & _ & l' & Hl' & Htl)].
  assert (l' = l) as -> by congruence. subst t.
  split; [|done]. intros Hless. exists q, l. by split_and!.
Qed.

Lemma ht_read_snapshot i n ls F fuel : (∀ j, stable j F) → less ls zero_stamp = false →
  ht i (λ c, is_taken ls c ∧ local_is i ls c ∧ has_ptr n c ∧ F c)
     (read_snapshot less wr fuel i n)
     (λ v c, sees ls n v c ∧ local_is i ls c ∧ F c).
Proof.
  intros HF Hz. eapply ht_bind; [by apply (ht_find_version i n ls ls F)|]. intros q.
  apply ht_exists. intros t. apply ht_pure. intros Hless.
  eapply (ht_bind _ _ _ _ _ _ (λ l c, sees ls n (value l) c ∧ local_is i ls c ∧ F c)); [|intros l; by apply ht_ret].
  eapply ht_weaken; [apply (ht_read_version i n q t ls (λ c, stamp_is q t c ∧ reaches ls n q c ∧
    local_is i ls c ∧ F c)); [by intros c (? & ? & _)|auto 6 with stab]|done|].
  intros l c (? & _ & _ & ? & ?). auto.
Qed.

(** ** Updates *)
Lemma ht_new_version i (t old v : Z) F : frame i F →
  (∀ c p l, heap c.1 !! p = None → F c → update i c
     (set_heap (<[p := l]> (heap c.1)) c.1, mkGhost (taken c.2) (born c.2) (<[p := i]> (priv c.2))) →
     F (set_heap (<[p := l]> (heap c.1)) c.1, mkGhost (taken c.2) (born c.2) (<[p := i]> (priv c.2)))) →
  ht i F (new_obj alloc t old v) (λ p c, mine i p (mkVersion t old v) c ∧ F c).
Proof.
  intros HF Hfr. apply ht_act; [apply HF|]. intros c Hc HFc.
  destruct (alloc_fresh (heap c.1)) as [Hp Hp0].
  eexists. split; [by apply upd_alloc|]. split; [|apply Hfr; [done..|by apply upd_alloc]].
  split; simpl; by rewrite lookup_insert_eq.
Qed.

Lemma ht_modify_retired i p (P : gstate → Prop) : stable i P →
  (∀ c, P c → update i c (mkState (clock c.1) (heap c.1) (ptrs c.1) (local_stamp c.1)
      (p :: retired c.1), c.2) → P (mkState (clock c.1) (heap c.1) (ptrs c.1) (local_stamp c.1)
      (p :: retired c.1), c.2)) →
  ht i P (retire p) (λ _, P).
Proof.
  intros Hst HP. apply ht_act; [done|]. intros c Hc HPc. exists c.2.
  assert (update i c (mkState (clock c.1) (heap c.1) (ptrs c.1) (local_stamp c.1)
      (p :: retired c.1), c.2)) as Hu.
  { apply upd_local; try done. apply Hc. }
  split; [exact Hu|by apply HP].
Qed.

Lemma ht_cas i n o v F : (∀ j, stable j F) →
  ht i (λ c, has_ptr n c ∧ local_is i (-1) c ∧ F c) (cas_ wr alloc i n o v)
     (λ _ c, local_is i (-1) c ∧ F c).
Proof.
  intros HF. set (L := λ c, has_ptr n c ∧ local_is i (-1) c ∧ F c).
  assert (frame i L) as HL.
  { apply frame_and; [apply frame_global; auto with stab|].
    apply frame_and; [apply frame_local|by apply frame_global]. }
  pose proof (frame_stable _ _ HL) as HLst.
  assert (∀ c, L c → local_is i (-1) c ∧ F c) as HLpost by by intros c (_ & ? & ?).
  unfold cas_. eapply (ht_bind _ _ _ _ _ _ (λ p c, pub p c ∧ L c)).
  { apply ht_load; [done|]. intros c Hc HLc. pose proof HLc as ([p Hp] & _). simpl. rewrite Hp.
    split; [by eapply inv_ptrs|done]. }
  intros old. eapply (ht_bind _ _ _ _ _ _ (λ _ c, stamped old c ∧ L c)).
  { destruct (Z.eqb_spec old 0) as [->|Hold]; cbn [negb when].
    - intros c Hc [[B HB] _]. by destruct (inv_born _ Hc 0 B HB).
    - eapply ht_bind; [by apply ht_set_stamp|]. intros q. apply ht_ret. by intros c [_ ?]. }
  intros _. eapply (ht_bind _ _ _ _ _ _ (λ _ c, stamped old c ∧ L c)).
  { apply ht_load_version; [auto with stab|by intros c [(_ & ? & _) _]|by intros c l _ ? _]. }
  intros l. destruct (negb (o =? value l)); [apply ht_ret; by intros c [_ ?]; auto|].
  destruct (o =? v); [apply ht_ret; intros c [_ ?]; auto|].
  eapply (ht_bind _ _ _ _ _ _ (λ p c, mine i p (mkVersion tbd old v) c ∧ stamped old c ∧ L c)).
  { apply ht_new_version.
    - apply frame_and; [apply frame_global; auto with stab|done].
    - intros c p l' Hp [Hs ([q Hq] & Hl & HFc)] Hu.
      split; [by apply (own_step i (stamped old) c); auto with stab|].
      split; [by exists q|]. split; [done|by eapply own_step]. }
  intros new. eapply (ht_bind _ _ _ _ _ _ (λ b c, if b : bool then pub new c ∧ L c
    else mine i new (mkVersion tbd old v) c ∧ L c)).
  { unfold idempotent_cas, atomic.cas.
    eapply (ht_bind _ _ _ _ _ _ (λ _ c, mine i new (mkVersion tbd old v) c ∧ stamped old c ∧ L c)).
    { apply ht_load; [auto with stab|]. intros c Hc (Hm & Hs & HLc).
      pose proof HLc as ([p Hp] & _). simpl. by rewrite Hp. }
    intros x. case_decide; [|by apply ht_ret; intros c (? & _ & ?)].
    unfold cas. eapply (ht_bind _ _ _ _ _ _ (λ b c, if b.1 : bool then pub new c ∧ L c
      else mine i new (mkVersion tbd old v) c ∧ L c)); [|intros [b y]; by apply ht_ret].
    apply ht_act; [auto with stab|]. intros c Hc (Hm & Hs & HLc).
    pose proof HLc as ([p Hp] & Hl & HFc). unfold on_cell. simpl. rewrite Hp. case_decide as Hpo.
    - subst p. assert (update i c (poke (ptr_c n) new c.1, mkGhost (taken c.2)
        (<[new := taken c.2]> (born c.2)) (delete new (priv c.2)))) as Hu by by eapply upd_install.
      eexists. split; [exact Hu|]. split; [unfold pub; simpl; by rewrite lookup_insert_eq|].
      split; [apply (own_step i (has_ptr n) c); [auto with stab|by eexists|done]|].
      split; [done|by eapply own_step].
    - exists c.2. rewrite <-surjective_pairing. split; [by apply update_refl|done]. }
  intros [|].
  - eapply ht_bind; [by apply ht_set_stamp|]. intros q.
    eapply (ht_bind _ _ _ _ _ _ (λ _ c, local_is i (-1) c ∧ F c)); [|intros u; by apply ht_ret].
    eapply ht_weaken; [apply (ht_modify_retired i old L); [done|]| |].
    + intros c (? & ? & HFc) Hu. split; [done|]. split; [done|by eapply own_step].
    + by intros c (_ & _ & ?).
    + intros u c HLc. by apply HLpost.
  - eapply (ht_bind _ _ _ _ _ _ (λ p c, pub p c ∧ mine i new (mkVersion tbd old v) c ∧ L c)).
    { apply ht_load; [auto with stab|]. intros c Hc (Hm & HLc). pose proof HLc as ([p Hp] & _).
      simpl. rewrite Hp. split; [by eapply inv_ptrs|done]. }
    intros p. eapply ht_bind; [apply ht_set_stamp, frame_and; [apply frame_mine|done]|].
    intros q. eapply (ht_bind _ _ _ _ _ _ (λ _ c, local_is i (-1) c ∧ F c));
      [|intros u; by apply ht_ret].
    apply ht_act; [auto with stab|]. intros c Hc (_ & _ & [Hm _] & _ & Hl & HFc). eexists.
    split; [by apply upd_discard|]. split; [done|]. eapply own_step; [done..|by apply upd_discard].
Qed.
(** ** Commands *)
Definition ok_result (r : result) c : Prop :=
  match r with
  | RCas _ => True
  | RSnapshot ls vs => Forall (λ p, sees ls p.1 p.2 c) vs
  end.
Definition all_see (ls : Z) (vs : list (nat * Z)) c : Prop := Forall (λ p, sees ls p.1 p.2 c) vs.
Definition ptrs_exist (k : nat) c : Prop := ∀ n, (n < k)%nat → has_ptr n c.

Lemma stable_all_see i ls vs : stable i (all_see ls vs).
Proof.
  intros c c' H Hi Ho. eapply Forall_impl; [exact H|]. intros p Hp.
  exact (stable_sees i ls p.1 p.2 c c' Hp Hi Ho).
Qed.
Lemma stable_ok_result i r : stable i (ok_result r).
Proof. destruct r; [done|apply stable_all_see]. Qed.
Lemma stable_ptrs_exist i k : stable i (ptrs_exist k).
Proof. intros c c' H Hi Ho n Hn. eapply stable_has_ptr; [by apply H|done..]. Qed.
#[local] Hint Resolve stable_all_see stable_ok_result stable_ptrs_exist : stab.

Lemma ht_load_snapshot i n ls F fuel : ls ≠ -1 → less ls zero_stamp = false → (∀ j, stable j F) →
  ht i (λ c, is_taken ls c ∧ local_is i ls c ∧ has_ptr n c ∧ F c)
     (load_ less wr fuel i n)
     (λ v c, sees ls n v c ∧ local_is i ls c ∧ F c).
Proof.
  intros Hls Hz HF. unfold load_.
  eapply (ht_bind _ _ _ _ _ _ (λ v c, v = ls ∧
    is_taken ls c ∧ local_is i ls c ∧ has_ptr n c ∧ F c)).
  { apply ht_load; [auto 6 with stab|]. intros c Hc (? & Hl & ? & ?). simpl. auto. }
  intros v. apply ht_pure. intros ->. rewrite (proj2 (Z.eqb_neq _ _) Hls). cbn [negb].
  by apply ht_read_snapshot.
Qed.

Lemma ht_load_all i k ns ls F fuel : ls ≠ -1 → less ls zero_stamp = false → (∀ j, stable j F) → Forall (λ n, (n < k)%nat) ns →
  ht i (λ c, is_taken ls c ∧ local_is i ls c ∧ ptrs_exist k c ∧ F c)
     (load_all less wr fuel i ns)
     (λ vs c, all_see ls vs c ∧ local_is i ls c ∧ ptrs_exist k c ∧ F c).
Proof.
  intros Hls Hz HF Hns. induction Hns as [|n ns Hn Hns IH] in F, HF |- *; cbn [load_all].
  { apply ht_ret. intros c (? & ? & ? & ?). split; [constructor|done]. }
  eapply (ht_bind _ _ _ _ _ _ (λ v c, sees ls n v c ∧ local_is i ls c ∧
    is_taken ls c ∧ ptrs_exist k c ∧ F c)).
  { eapply ht_weaken; [apply (ht_load_snapshot i n ls (λ c, is_taken ls c ∧ ptrs_exist k c ∧ F c));
      [done|done|auto with stab]| |done].
    intros c (? & ? & Hp & ?). split_and!; [done|done|by apply Hp|done..]. }
  intros v. eapply (ht_bind _ _ _ _ _ _ (λ vs c, all_see ls vs c ∧ local_is i ls c ∧
    ptrs_exist k c ∧ sees ls n v c ∧ F c)).
  { eapply ht_weaken; [apply (IH (λ c, sees ls n v c ∧ F c)); auto with stab| |done].
    intros c (? & ? & ? & ? & ?). auto. }
  intros vs. apply ht_ret. intros c (? & ? & ? & ? & ?). split; [by constructor|done].
Qed.

(** the thread's own stamp, and its place among the snapshots *)
Lemma ht_set_local i l F : (∀ j, stable j F) →
  ht i F (store (local_stamp_c i) l) (λ _ c, local_is i l c ∧ F c).
Proof.
  intros HF. apply ht_store; [done|]. intros c Hc HFc.
  cbn [peek local_stamp_c thread_local total_cell]. exists c.2.
  assert (update i c (poke (local_stamp_c i) l c.1, c.2)) as Hu.
  { apply upd_local; try done; [apply Hc|]. intros j Hj. simpl. by rewrite lookup_insert_ne. }
  split; [exact Hu|]. split; [unfold local_is; simpl; by rewrite lookup_insert_eq|by eapply own_step].
Qed.

Lemma ht_take i ls x F : (∀ j, stable j F) → less x tbd = true →
  ht i (λ c, issued x (clock c.1) ∧ local_is i ls c ∧ F c) (load (local_stamp_c i))
     (λ v c, v = ls ∧ is_taken x c ∧ local_is i ls c ∧ F c).
Proof.
  intros HF Ht. apply ht_act; [auto with stab|]. intros [s g] Hc (Hiss & Hl & HFc).
  assert (update i (s, g) (s, mkGhost ({[x]} ∪ taken g) (born g) (priv g))) as Hu
    by by apply (upd_begin i (s, g)).
  eexists. split; [exact Hu|]. split; [done|].
  split; [unfold is_taken; simpl; by apply elem_of_union_l, elem_of_singleton_2|].
  split; [done|by eapply own_step].
Qed.

Lemma ht_take_snapshot i k ns F fuel : (∀ j, stable j F) → Forall (λ n, (n < k)%nat) ns →
  ht i (λ c, local_is i (-1) c ∧ ptrs_exist k c ∧ F c)
     (take_snapshot less rd wr fuel i ns)
     (λ r c, ok_result r c ∧ local_is i (-1) c ∧ ptrs_exist k c ∧ F c).
Proof.
  intros HF Hns. unfold take_snapshot, with_snapshot.
  set (P := λ c, ptrs_exist k c ∧ F c).
  assert (∀ j, stable j P) as HP by (unfold P; auto with stab).
  eapply (ht_bind _ _ _ _ _ _ (λ ls c, (less ls zero_stamp = false ∧ less ls tbd = true ∧ ls ≠ -1) ∧
    issued ls (clock c.1) ∧ P c)).
  { eapply ht_weaken; [apply (ht_on_clock i P (rd i) (λ r s', issued r s' ∧ less r zero_stamp = false ∧
      less r tbd = true ∧ r ≠ -1)); [by apply frame_global|]| |].
    - intros c Hc _. apply clock_issue, Hc.
    - by intros c [_ ?].
    - intros a c (HPc & ? & ?). auto. }
  intros ls. apply ht_pure. intros (Hz & Ht & Hls).
  eapply ht_bind; [apply (ht_set_local i ls (λ c, issued ls (clock c.1) ∧ P c)); auto with stab|].
  intros u. cbn beta. eapply (ht_bind _ _ _ _ _ _ (λ r c, local_is i ls c ∧ ok_result r c ∧ P c)).
  { eapply ht_bind.
    { eapply ht_weaken; [by apply (ht_take i ls ls P)|by intros c (? & ? & ?)|intros v c Hv; exact Hv]. }
    intros v. apply ht_pure. intros ->. eapply ht_bind; [by apply ht_load_all|].
    intros vs. apply ht_ret. intros c (? & ? & ? & ?). done. }
  intros r. eapply (ht_bind _ _ _ _ _ _ (λ _ c, local_is i (-1) c ∧ ok_result r c ∧ P c)).
  { eapply ht_weaken; [apply (ht_set_local i (-1) (λ c, ok_result r c ∧ P c)); auto with stab| |done].
    by intros c [_ ?]. }
  intros u'. apply ht_ret. by intros c (? & ? & ? & ?).
Qed.

Lemma ht_commands i k cs F fuel : (∀ j, stable j F) → Forall (ptr_of_command k) cs →
  ht i (λ c, local_is i (-1) c ∧ ptrs_exist k c ∧ F c)
     (exec_all less rd wr alloc fuel i cs)
     (λ rs c, Forall (λ r, ok_result r c) rs ∧ F c).
Proof.
  intros HF Hcs. induction Hcs as [|cmd cs Hcmd Hcs IH] in F, HF |- *; cbn [exec_all].
  { apply ht_ret. intros c (? & ? & ?). auto. }
  eapply (ht_bind _ _ _ _ _ _ (λ r c, ok_result r c ∧ local_is i (-1) c ∧ ptrs_exist k c ∧ F c)).
  { destruct cmd as [n o v|ns]; simpl in Hcmd; [|by apply ht_take_snapshot].
    eapply ht_bind.
    - eapply ht_weaken; [apply (ht_cas i n o v (λ c, ptrs_exist k c ∧ F c)); auto with stab| |].
      + intros c (? & Hp & ?). split; [by apply Hp|done].
      + intros b c Hq. exact Hq.
    - intros b. apply ht_ret. intros c (? & ? & ?). done. }
  intros r. eapply (ht_bind _ _ _ _ _ _ (λ rs c, Forall (λ r, ok_result r c) rs ∧
    ok_result r c ∧ F c)).
  { eapply ht_weaken; [apply (IH (λ c, ok_result r c ∧ F c)); auto with stab| |done].
    intros c (? & ? & ? & ?). auto. }
  intros rs. apply ht_ret. intros c (? & ? & ?). auto.
Qed.

(** What a snapshot saw is what a walk of the final versions finds. *)
Lemma sees_value_at ls n v c : inv c → sees ls n v c →
  ∃ p, ptrs c.1 !! n = Some p ∧ ∃ fuel, value_at less fuel (heap c.1) ls p = Some v.
Proof.
  intros Hc (q & l & (Ht & (_ & Hpub & _) & p & Hp & Hsk) & Hl & Hless & Hv).
  exists p. split; [done|]. clear Hp. induction Hsk as [p|p l' B q Hl' HB Hls _ IH].
  - exists 1%nat. simpl. by rewrite Hl, Hless, Hv.
  - destruct IH as [fuel IH]; [done..|]. exists (Datatypes.S fuel). simpl. rewrite Hl'.
    assert (less ls (time_stamp l') = true) as ->; [|done].
    destruct Hls as [Hin|[_ ?]]; [|done].
    destruct (decide (time_stamp l' = tbd)) as [->|Hs]; [by apply (inv_taken _ Hc)|].
    destruct (inv_born _ Hc p B HB) as (_ & _ & l2 & Hl2 & Hx & _). simplify_eq. by apply Hx.
Qed.
End proof.

(** ** The initial state *)
Section initial.
Context {C : Type} {okC : C → Prop} {adv : relation C} {less : Z → Z → bool}.
Context {rd wr : nat → prog C Z} `{Hclock : !SnapshotClock okC adv less rd wr}.

Lemma imap_map_Some {A B K} `{Countable K} (f : nat → K) (g : nat → A → B) (l : list A) k b :
  (list_to_map (imap (λ n a, (f n, g n a)) l) : gmap K B) !! k = Some b →
  ∃ n a, l !! n = Some a ∧ k = f n ∧ b = g n a.
Proof.
  intros Hk. apply elem_of_list_to_map_2 in Hk.
  apply elem_of_lookup_imap in Hk as (n & a & Heq & Hl). simplify_eq. eauto.
Qed.

Lemma imap_map_lookup {A B K} `{Countable K} (f : nat → K) (g : nat → A → B) (l : list A) n a :
  Inj (=) (=) f → l !! n = Some a →
  (list_to_map (imap (λ n a, (f n, g n a)) l) : gmap K B) !! f n = Some (g n a).
Proof.
  intros Hf Hl. apply elem_of_list_to_map_1'.
  - intros y Hy. apply elem_of_lookup_imap in Hy as (m & a' & Heq & Hl').
    injection Heq as Heq ->. apply (inj f) in Heq. by simplify_eq.
  - apply elem_of_lookup_imap. exists n, a. auto.
Qed.

#[local] Instance addr_of_inj : Inj (=) (=) addr_of.
Proof. unfold addr_of. intros n m H. lia. Qed.

Definition init_ghost (vs : list Z) : ghost :=
  mkGhost ∅ (list_to_map (imap (λ n _, (addr_of n, ∅)) vs)) ∅.

Lemma init_inv t vs : okC t →
  inv (okC := okC) (adv := adv) (less := less) (wr := wr) (init_state t vs, init_ghost vs).
Proof.
  intros Ht. split.
  - done.
  - intros x Hx. exfalso. exact (not_elem_of_empty x Hx).
  - intros n p Hp. apply (imap_map_Some id (λ n _, addr_of n)) in Hp as (m & v & Hl & -> & ->).
    exists ∅. apply (imap_map_lookup addr_of (λ _ _, ∅ : gset Z) vs m v); [apply _|done].
  - intros p B HB.
    apply (imap_map_Some addr_of (λ _ _, ∅ : gset Z)) in HB as (m & v & Hl & -> & ->).
    split; [unfold addr_of; lia|]. split; [apply empty_subseteq|].
    exists (mkVersion zero_stamp 0 v). split.
    { apply (imap_map_lookup addr_of (λ _ v, mkVersion zero_stamp 0 v) vs m v); [apply _|done]. }
    split; [|by left]. intros _ x Hx. exfalso. exact (not_elem_of_empty x Hx).
  - intros p i Hp. simpl in Hp. by rewrite lookup_empty in Hp.
Qed.

Lemma init_ptrs t vs : ptrs_exist (length vs) (@init_state C t vs, init_ghost vs).
Proof.
  intros n Hn. destruct (lookup_lt_is_Some_2 vs n Hn) as [v Hv]. exists (addr_of n).
  apply (imap_map_lookup id (λ n _, addr_of n) vs n v); [apply _|done].
Qed.
End initial.

(** C1: With any clock that is a snapshot clock, threads that update versioned
    pointers with cas and take snapshots of any pointers, interleaved at every
    atomic access, meet no error (loops may run out of fuel), and every value
    that a finished snapshot read, whenever it read it, is the value that its
    stamp selects in the version lists of the state reached now: all the reads
    of a snapshot, however far apart, are of one and the same cut of the
    histories of the pointers, which later updates never change. *)
Theorem snapshots_consistent {C : Type} {okC : C → Prop} {adv : relation C}
    {less : Z → Z → bool} {rd wr : nat → prog C Z}
    `{Hclock : !SnapshotClock okC adv less rd wr}
    (alloc : gmap Z version_link → Z) (fuel : nat) (t0 : C) (vs : list Z)
    (cmds : list (list command))
    (alloc_fresh : ∀ m, m !! alloc m = None ∧ alloc m ≠ 0)
    (start_ok : okC t0)
    (in_range : Forall (Forall (ptr_of_command (length vs))) cmds) :
  ∀ s ts, rtc (step_ok (λ s, okC (clock s)))
      (init_state t0 vs, imap (exec_all less rd wr alloc fuel) cmds) (s, ts) →
    (∀ i e, goes_wrong i e (s, ts) → e = OutOfFuel) ∧
    ∀ i rs ls vals, ts !! i = Some (Ret rs) → RSnapshot ls vals ∈ rs →
      Forall (λ p, ∃ head k, ptrs s !! p.1 = Some head ∧
                             value_at less k (heap s) ls head = Some p.2) vals.
Proof.
  intros s ts Hsteps.
  destruct (protocol_sound (snapshots (okC := okC) (less := less) (rd := rd) (wr := wr)) only_fuel
    (λ i c, local_is i (-1) c ∧ ptrs_exist (length vs) c ∧ True)
    (λ i rs c, Forall (λ r, ok_result (less := less) r c) rs ∧ True)
    (init_state t0 vs) (init_ghost vs) (imap (exec_all less rd wr alloc fuel) cmds))
    with s ts as (g & Hg & Hwrong & Hret); [done|by apply init_inv| |done|].
  - intros i p Hp. rewrite list_lookup_imap in Hp.
    destruct (cmds !! i) as [cs|] eqn:Hi; simpl in Hp; [|done]. injection Hp as <-.
    split; [split_and!; [done|apply init_ptrs|done]|].
    apply ht_commands; [done|intros j; apply stable_pure|].
    by eapply Forall_lookup_1 in in_range.
  - split; [done|]. intros i rs ls vals Hrs Hin.
    destruct (Hret i rs Hrs) as (c0 & [Hall _] & Ho).
    rewrite Forall_forall in Hall. specialize (Hall _ Hin). simpl in Hall.
    eapply Forall_impl; [exact Hall|]. intros [n v] Hs. simpl in *.
    destruct (sees_value_at (less := less) (wr := wr) (okC := okC) (adv := adv) ls n v (s, g))
      as (p & Hp & k & Hk); [done|by eapply stable_sees|]. eauto.
Qed.

(** A snapshot with the reader-incremented clock; between its second and its
    third read both pointers are updated. *)
Lemma snapshots_consistent_witness :
  ∃ s ts, rtc (step_ok (λ s, read_clock.ok (clock s)))
      (init_state (timestamp_read.init (-1)) [10; 20],
       imap (exec_all timestamp_read.less timestamp_read.get_read_stamp
               timestamp_read.get_write_stamp next_addr 5)
         [[CCas 0 10 11; CCas 1 20 21]; [CSnapshot [1; 0; 1]%nat]]) (s, ts) ∧
    ts !! 1%nat = Some (Ret [RSnapshot 1 [(1%nat, 20); (0%nat, 10); (1%nat, 20)]]) ∧
    Forall (λ p, ∃ head k, ptrs s !! p.1 = Some head ∧
                           value_at timestamp_read.less k (heap s) 1 head = Some p.2)
      [(1%nat, 20); (0%nat, 10); (1%nat, 20)].
Proof.
  edestruct (after_sched_steps_ok (λ s, read_clock.ok (clock s))
    (λ s : Indirect.state timestamp_read.state,
       (1 <=? timestamp_read.stamp (clock s)) && (timestamp_read.stamp (clock s) <? 100))
    (replicate 12 1%nat ++ replicate 22 0%nat ++ replicate 20 1%nat)
    (init_state (timestamp_read.init (-1)) [10; 20],
     imap (exec_all timestamp_read.less timestamp_read.get_read_stamp
             timestamp_read.get_write_stamp next_addr 5)
       [[CCas 0 10 11; CCas 1 20 21]; [CSnapshot [1; 0; 1]%nat]])
    (λ c, c.2 !! 1%nat = Some (Ret [RSnapshot 1 [(1%nat, 20); (0%nat, 10); (1%nat, 20)]])))
    as ([s ts] & Hsteps & Hret).
  - intros s [H1 H2]%andb_prop. apply Z.leb_le in H1. apply Z.ltb_lt in H2.
    unfold read_clock.ok. lia.
  - vm_compute. reflexivity.
  - exists s, ts. split; [exact Hsteps|]. split; [exact Hret|].
    refine (proj2 (snapshots_consistent (Hclock := read_clock.read_is_clock) next_addr 5
      (timestamp_read.init (-1)) [10; 20] _ next_addr_fresh _ _ s ts Hsteps) 1%nat _ 1 _ Hret _).
    + unfold read_clock.ok; simpl. lia.
    + repeat constructor.
    + by left.
Defined.
