(* ===== verification/LazySnapshot.v ===== *)
(** * LazySnapshot: snapshots that do not move the clock first
    (the LazyStamp configuration of include/verlib/timestamps.h and
    include/verlib/versioned_indirect.h).

    A snapshot starts at the current stamp without moving it.  A read that ends
    at a version with that very stamp cannot tell whether the version was
    installed before the snapshot began, so it sets [aborted]; then the stamp is
    moved and the snapshot runs again. *)

From stdpp Require Import prelude list gmap.
From Stdlib Require Import ZArith Lia.
From S2P Require Import Prelude Conc Timestamps Snapshot SpinLock Indirect SnapshotProof.
Local Open Scope Z_scope.

Inductive lazy_command :=
  | LCas (n : nat) (old new : Z)
  | LSnapshot (use_speculative : bool) (ns : list nat).

Section lazy.
Context {C : Type} (less equal : Z → Z → bool) (rd wr : nat → prog C Z).
Context (get : prog C Z) (increment : nat → Z → prog C unit).
Context (alloc : gmap Z version_link → Z).
#[local] Abbreviation state := (lazy_state (Indirect.state C)).

Definition read_snapshot (fuel tid n : nat) : prog state Z :=
  head ← on_base (find_version less wr fuel tid n);
  t ← load (base_c (ts_c head));
  ls ← load (base_c (local_stamp_c tid));
  abort_test equal tid t ls ;;
  l ← load (base_c (link_c head));
  mret (value l).

Definition load_ (fuel tid n : nat) : prog state Z :=
  ls ← load (base_c (local_stamp_c tid));
  if negb (ls =? -1) then read_snapshot fuel tid n
  else
    p ← load (base_c (ptr_c n));
    p' ← on_base (set_stamp wr tid p);
    l ← load (base_c (link_c p'));
    mret (value l).

(** ** The client: as in [SnapshotProof] *)
Fixpoint load_all (fuel tid : nat) (ns : list nat) : prog state (list (nat * Z)) :=
  match ns with
  | [] => mret []
  | n :: ns' => v ← load_ fuel tid n; vs ← load_all fuel tid ns'; mret ((n, v) :: vs)
  end.

Definition snapshot_body (fuel tid : nat) (ns : list nat) : prog state result :=
  ls ← load (base_c (local_stamp_c tid)); vs ← load_all fuel tid ns; mret (RSnapshot ls vs).

Definition take_snapshot (fuel tid : nat) (use_speculative : bool) (ns : list nat) : prog state result :=
  with_snapshot_lazy (λ s, clock (base s)) (λ t s, set_base (set_clock t (base s)) s) get rd increment
    (λ tid, base_c (local_stamp_c tid)) aborted_c speculative_c num_retries_c (λ A _ p, p)
    tid use_speculative (snapshot_body fuel tid ns).

Definition exec (fuel tid : nat) (c : lazy_command) : prog state result :=
  match c with
  | LCas n o v => b ← on_base (cas_ wr alloc tid n o v); mret (RCas b)
  | LSnapshot sp ns => take_snapshot fuel tid sp ns
  end.

Fixpoint exec_all (fuel tid : nat) (cs : list lazy_command) : prog state (list result) :=
  match cs with
  | [] => mret []
  | c :: cs' => r ← exec fuel tid c; rs ← exec_all fuel tid cs'; mret (r :: rs)
  end.

Definition lazy_init (t : C) (vs : list Z) : state := mkLazy (init_state t vs) ∅ ∅ ∅.
Definition ptr_of_lazy_command (k : nat) (c : lazy_command) : Prop :=
  match c with LCas n _ _ => (n < k)%nat | LSnapshot _ ns => Forall (λ n, (n < k)%nat) ns end.
End lazy.

(** ** What a lazy snapshot needs of a clock

    [prev ls] is the cut just before the stamp [ls]: no version is stamped
    before it once [get] has found [ls]. *)
Class LazyClock {S : Type} (ok : S → Prop) (adv : relation S) (less : Z → Z → bool)
    (rd wr : nat → prog S Z) (equal : Z → Z → bool) (get : prog S Z)
    (increment : nat → Z → prog S unit) (prev : Z → Z) : Prop := {
  lazy_clock :: SnapshotClock ok adv less rd wr;
  lazy_get_range : ∀ s, ok s → wprg ok adv adv only_fuel get
    (λ ls _, less ls zero_stamp = false ∧ less ls tbd = true ∧ ls ≠ -1) s;
  lazy_increment_guarantee : ∀ tid ls s, ok s →
    wprg ok adv adv only_fuel (increment tid ls) (λ _ _, True) s;
  lazy_prev_issued : ∀ s0 ls s1 t s2 w s3, ok s0 → ok s2 → erun ok adv get s0 ls s1 → adv s1 s2 →
    erun ok adv (wr t) s2 w s3 → less (prev ls) w = true;
  lazy_incremented : ∀ s0 ls s1 tid s2 u s3 t s4 w s5, ok s0 → ok s2 → ok s4 →
    erun ok adv get s0 ls s1 → adv s1 s2 → erun ok adv (increment tid ls) s2 u s3 → adv s3 s4 →
    erun ok adv (wr t) s4 w s5 → less ls w = true;
  lazy_prev_later : ∀ ls t, less ls t = true → less (prev ls) t = true;
  lazy_prev_earlier : ∀ ls t, less ls t = false → equal t ls = false → less (prev ls) t = false;
}.

Module lazy_read_clock.
Import timestamp_read read_clock.

Lemma read_is_lazy_clock : LazyClock ok (clock_adv stamp) less get_read_stamp get_write_stamp
  equal get_stamp increment_stamp Z.pred.
Proof.
  assert (∀ s, ok s → wprg ok (clock_adv stamp) (clock_adv stamp) only_fuel get_stamp
    (λ ls s', 1 ≤ ls < 2 ^ 61 - 1 ∧ ls ≤ stamp s') s) as Hget.
  { intros s Hok. unfold get_stamp, ok in *. rg_unfold. clock_auto @clock_adv. }
  assert (∀ t s, ok s → wprg ok (clock_adv stamp) (clock_adv stamp) only_fuel (get_write_stamp t)
    (λ w s', stamp s ≤ w) s) as Hwr.
  { intros t s Hok. unfold get_write_stamp, ok in *. rg_unfold. clock_auto @clock_adv. }
  assert (∀ tid ls s, ok s → wprg ok (clock_adv stamp) (clock_adv stamp) only_fuel
    (increment_stamp tid ls) (λ _ s', ls ≤ stamp s → ls < stamp s') s) as Hinc.
  { intros tid ls s Hok. unfold increment_stamp, ok in *. rg_unfold. clock_auto @clock_adv. }
  unfold less, equal. split.
  - apply read_is_clock.
  - intros s Hs. eapply wprg_mono; [|by apply Hget]. intros ls s' [Hls _]. cbv beta.
    unfold zero_stamp. rewrite tbd_value, Z.ltb_ge, Z.ltb_lt. lia.
  - intros tid ls s Hs. eapply wprg_mono; [|by apply Hinc]. done.
  - intros s0 ls s1 t s2 w s3 H0 H2 Hg Ha Hw.
    apply (wprg_erun _ _ _ _ _ _ _ _ _ (Hget s0 H0)) in Hg.
    apply (wprg_erun _ _ _ _ _ _ _ _ _ (Hwr t s2 H2)) in Hw.
    unfold clock_adv in Ha. apply Z.ltb_lt. lia.
  - intros s0 ls s1 tid s2 u s3 t s4 w s5 H0 H2 H4 Hg Ha Hi Ha' Hw.
    apply (wprg_erun _ _ _ _ _ _ _ _ _ (Hget s0 H0)) in Hg.
    apply (wprg_erun _ _ _ _ _ _ _ _ _ (Hinc tid ls s2 H2)) in Hi.
    apply (wprg_erun _ _ _ _ _ _ _ _ _ (Hwr t s4 H4)) in Hw.
    all: unfold clock_adv in *; try apply Z.ltb_lt; lia.
  - intros ls t. rewrite !Z.ltb_lt. lia.
  - intros ls t. rewrite !Z.ltb_ge, Z.eqb_neq. lia.
Qed.
End lazy_read_clock.

(** ** The protocol of [SnapshotProof], with the threads' variables *)
Section proof.
Context {C : Type} {okC : C → Prop} {adv : relation C} {less : Z → Z → bool}.
Context {rd wr : nat → prog C Z} {equal : Z → Z → bool} {get : prog C Z}.
Context {increment : nat → Z → prog C unit} {prev : Z → Z}.
Context `{Hlazy : !LazyClock okC adv less rd wr equal get increment prev}.
Context (alloc : gmap Z version_link → Z).
Context (alloc_fresh : ∀ m, m !! alloc m = None ∧ alloc m ≠ 0).

#[local] Abbreviation π := (snapshots (okC := okC) (adv := adv) (less := less) (rd := rd) (wr := wr)).
#[local] Abbreviation issued := (Timestamps.issued (ok := okC) (adv := adv) (less := less) (wr := wr)).
#[local] Abbreviation all_see := (all_see (less := less)).
#[local] Abbreviation sees := (sees (less := less)).

Definition vars (i : nat) (s : lazy_state (Indirect.state C)) : option bool * option bool * option Z :=
  (aborted s !! i, speculative s !! i, num_retries s !! i).
Lemma vars_set_base i b (s : lazy_state (Indirect.state C)) : vars i (set_base b s) = vars i s.
Proof. done. Qed.

Definition lazy_protocol : protocol (lazy_state (Indirect.state C)) ghost := lift π base vars.
#[local] Abbreviation htB := (Conc.ht π only_fuel).
#[local] Abbreviation ht := (Conc.ht lazy_protocol only_fuel).
#[local] Abbreviation stable := (Conc.stable π).

(** [P] of the versions, and the thread's [aborted] and [speculative] *)
Definition at_vars (i : nat) (P : Indirect.state C * ghost → Prop) (a sp : bool)
    (c : lazy_state (Indirect.state C) * ghost) : Prop :=
  P (base c.1, c.2) ∧ default false (aborted c.1 !! i) = a ∧ default false (speculative c.1 !! i) = sp.

Lemma stable_at_vars i P a sp : stable i P → Conc.stable lazy_protocol i (at_vars i P a sp).
Proof.
  intros HP c c' (H & Ha & Hs) Hc' [Ho Hv]. unfold vars in Hv. injection Hv as Hva Hvs _.
  split; [by eapply HP|]. by rewrite Hva, Hvs.
Qed.
#[local] Hint Resolve stable_at_vars : stab.

Lemma ht_base {A} i P (p : prog _ A) Q a sp : htB i P p Q →
  ht i (at_vars i P a sp) (on_base p) (λ v, at_vars i (Q v) a sp).
Proof.
  intros Hp c Hc (HP & Ha & Hs). eapply wpg_mono;
    [|apply (ht_lift π only_fuel base set_base vars (λ _ _, eq_refl) vars_set_base i P p Q (vars i c.1) Hp c Hc);
      by split].
  intros v c' (Hc' & HQ & Hv). unfold vars in Hv. injection Hv as Hva Hvs _.
  split; [done|]. split; [done|]. by rewrite Hva, Hvs.
Qed.

Lemma on_cell_base {T X} (cl : cell (Indirect.state C) T) (h : T → X * option T) (s : lazy_state (Indirect.state C)) :
  zoom_res set_base s (on_cell cl h (base s)) = on_cell (base_c cl) h s.
Proof.
  unfold on_cell; simpl. destruct (peek cl (base s)) as [e|v]; [done|]. destruct (h v) as [x [v'|]]; simpl; [done|].
  by destruct s.
Qed.

Lemma ht_base_load {T} i P (cl : cell _ T) Q a sp : htB i P (load cl) Q →
  ht i (at_vars i P a sp) (load (base_c cl)) (λ v, at_vars i (Q v) a sp).
Proof. intros H. eapply ht_act_ext; [intros s; apply on_cell_base|]. exact (ht_base i P (load cl) Q a sp H). Qed.
Lemma ht_base_store {T} i P (cl : cell _ T) v Q a sp : htB i P (store cl v) Q →
  ht i (at_vars i P a sp) (store (base_c cl) v) (λ u, at_vars i (Q u) a sp).
Proof. intros H. eapply ht_act_ext; [intros s; apply on_cell_base|]. exact (ht_base i P (store cl v) Q a sp H). Qed.
Lemma ht_base_clock {A} i P (p : prog C A) Q a sp : htB i P (zoom clock set_clock p) Q →
  ht i (at_vars i P a sp) (zoom (λ s, clock (base s)) (λ t s, set_base (set_clock t (base s)) s) p)
    (λ v, at_vars i (Q v) a sp).
Proof. intros H. apply (ht_zoom_zoom lazy_protocol). by apply (ht_base i P _ Q). Qed.

(** the thread's variables *)
Lemma upd_vars i (c : lazy_state (Indirect.state C) * ghost) s' : pinv lazy_protocol c → base s' = base c.1 →
  (∀ j, j ≠ i → vars j s' = vars j c.1) → Conc.update lazy_protocol i c (s', c.2).
Proof.
  intros Hc Hb Hv. split; [simpl; by rewrite Hb|]. intros j Hj. split; [|by apply Hv].
  change (Conc.own π j (base c.1, c.2) (base s', c.2)). rewrite Hb. reflexivity.
Qed.

Lemma ht_set_aborted i P a sp b : stable i P →
  ht i (at_vars i P a sp) (store (aborted_c i) b) (λ _, at_vars i P b sp).
Proof.
  intros HP. apply ht_store; [auto with stab|]. intros c Hc (H & Ha & Hs). exists c.2. split.
  - apply upd_vars; [done..|]. intros j Hj. unfold vars. simpl. by rewrite lookup_insert_ne.
  - split; [done|]. split; [simpl; by rewrite lookup_insert_eq|done].
Qed.
Lemma ht_set_speculative i P a sp b : stable i P →
  ht i (at_vars i P a sp) (store (speculative_c i) b) (λ _, at_vars i P a b).
Proof.
  intros HP. apply ht_store; [auto with stab|]. intros c Hc (H & Ha & Hs). exists c.2. split.
  - apply upd_vars; [done..|]. intros j Hj. unfold vars. simpl. by rewrite lookup_insert_ne.
  - split; [done|]. split; [done|simpl; by rewrite lookup_insert_eq].
Qed.
Lemma ht_set_retries i P a sp n : stable i P →
  ht i (at_vars i P a sp) (store (num_retries_c i) n) (λ _, at_vars i P a sp).
Proof.
  intros HP. apply ht_store; [auto with stab|]. intros c Hc H. exists c.2. split; [|done].
  apply upd_vars; [done..|]. intros j Hj. unfold vars. simpl. by rewrite lookup_insert_ne.
Qed.
Lemma ht_get_var {T} i P a sp (cl : cell (lazy_state (Indirect.state C)) T) (x : T) : stable i P →
  (∀ d, at_vars i P a sp d → peek cl d.1 = inr x) →
  ht i (at_vars i P a sp) (load cl) (λ v c, v = x ∧ at_vars i P a sp c).
Proof. intros HP Hx. apply ht_load; [auto with stab|]. intros d Hc H. by rewrite (Hx d H). Qed.

Lemma ht_at_exists {X A} i (P : X → _ → Prop) a sp (p : prog _ A) Q :
  (∀ x, ht i (at_vars i (P x) a sp) p Q) → ht i (at_vars i (λ c, ∃ x, P x c) a sp) p Q.
Proof. intros H c Hc ((x & HP) & Hv). by apply (H x). Qed.
Lemma ht_at_pure {A} i (φ : Prop) (P : _ → Prop) a sp (p : prog _ A) Q :
  (φ → ht i (at_vars i P a sp) p Q) → ht i (at_vars i (λ c, φ ∧ P c) a sp) p Q.
Proof. intros H c Hc ((Hφ & HP) & Hv). by apply H. Qed.
(** ** Reads *)

(** a snapshot that walks with [ls] reads the cut at [x], or notices *)
Record cuts (ls x : Z) (sp : bool) : Prop := {
  cuts_inside : ls ≠ -1;
  cuts_zero : less ls zero_stamp = false;
  cuts_tbd : less x tbd = true;
  cuts_later : ∀ t, less ls t = true → less x t = true;
  cuts_earlier : ∀ t, less ls t = false → sp = true ∧ equal t ls = true ∨ less x t = false;
}.

(** the thread has noticed that it must run again *)
Definition noticed (sp a : bool) : Prop := sp = true ∧ a = true.

#[local] Hint Resolve stable_stamp_is stable_reaches stable_local stable_taken stable_sees
  stable_has_ptr stable_ptrs_exist stable_all_see stable_issued : stab.

Lemma ht_lazy_read i n ls x a sp F fuel : cuts ls x sp → (∀ j, stable j F) →
  ht i (at_vars i (λ c, is_taken x c ∧ local_is i ls c ∧ has_ptr n c ∧ F c) a sp)
    (read_snapshot less equal wr fuel i n)
    (λ v c, ∃ a', (a = true → a' = true) ∧
       at_vars i (λ c, (noticed sp a' ∨ sees x n v c) ∧ local_is i ls c ∧ F c) a' sp c).
Proof.
  intros Hcut HF. unfold read_snapshot. eapply ht_bind.
  { apply ht_base, (ht_find_version i n ls x F fuel HF); apply Hcut. }
  intros q. cbn beta. apply ht_at_exists. intros t. apply ht_at_pure. intros Hless.
  set (G := λ c, stamp_is q t c ∧ reaches x n q c ∧ local_is i ls c ∧ F c).
  assert (stable i G) as HG by (unfold G; auto 6 with stab).
  eapply ht_bind.
  { apply (ht_base_load i G _ (λ t' c, t' = t ∧ G c)). apply ht_load_ts; [done|by intros c [(_ & ? & _) _]|].
    intros c l Hc HGc Hl. pose proof HGc as ((_ & _ & l' & Hl' & Ht) & _). split; [congruence|done]. }
  intros t'. cbn beta. apply ht_at_pure. intros ->.
  eapply ht_bind.
  { apply (ht_base_load i G _ (λ l c, l = ls ∧ G c)). apply ht_load; [done|].
    intros c Hc HGc. pose proof HGc as (_ & _ & Hl & _). simpl. auto. }
  intros l. cbn beta. apply ht_at_pure. intros ->.
  eapply (ht_bind _ _ _ _ _ _ (λ _ c, ∃ a', ((a = true → a' = true) ∧ (noticed sp a' ∨ less x t = false)) ∧
    at_vars i G a' sp c)).
  { unfold abort_test. destruct (equal t ls) eqn:Heq; cbn [when].
    - eapply ht_bind; [apply (ht_get_var i G a sp (speculative_c i) sp HG); by intros d (_ & _ & <-)|].
      intros v. apply ht_pure. intros ->. destruct sp; cbn [when].
      + eapply ht_weaken; [by apply (ht_set_aborted i G a true true)|done|].
        intros u c Hc. exists true. split; [by split; [|left]|done].
      + apply ht_ret. intros c Hc. exists a. split; [|done]. split; [done|]. right.
        by destruct (cuts_earlier _ _ _ Hcut t Hless) as [[? _]|?].
    - apply ht_ret. intros c Hc. exists a. split; [|done]. split; [done|]. right.
      destruct (cuts_earlier _ _ _ Hcut t Hless) as [[_ ?]|?]; congruence. }
  intros u. apply ht_exists. intros a'. apply ht_pure. intros [Haa Hor].
  eapply ht_bind.
  { apply (ht_base_load i G _ (λ l c, (less x t = false → sees x n (value l) c) ∧ G c)).
    apply ht_read_version; [by intros c (? & ? & _)|done]. }
  intros l. apply ht_ret. intros c ((Hs & (_ & _ & ? & ?)) & Ha & Hsp). exists a'. split; [done|].
  split; [|done]. split; [|done]. destruct Hor; [by left|right; auto].
Qed.

Lemma ht_lazy_load i n ls x a sp F fuel : cuts ls x sp → (∀ j, stable j F) →
  ht i (at_vars i (λ c, is_taken x c ∧ local_is i ls c ∧ has_ptr n c ∧ F c) a sp)
    (load_ less equal wr fuel i n)
    (λ v c, ∃ a', (a = true → a' = true) ∧
       at_vars i (λ c, (noticed sp a' ∨ sees x n v c) ∧ local_is i ls c ∧ F c) a' sp c).
Proof.
  intros Hcut HF. unfold load_. eapply ht_bind.
  { apply (ht_base_load i _ _ (λ l c, l = ls ∧ is_taken x c ∧ local_is i ls c ∧ has_ptr n c ∧ F c)).
    apply ht_load; [auto 6 with stab|]. intros c Hc H. pose proof H as (_ & Hl & _). by split. }
  intros l. cbn beta. apply ht_at_pure. intros ->.
  rewrite (proj2 (Z.eqb_neq _ _) (cuts_inside _ _ _ Hcut)). cbn [negb]. by apply ht_lazy_read.
Qed.

Definition reads_ok (sp a : bool) (x : Z) (vs : list (nat * Z)) (c : Indirect.state C * ghost) : Prop :=
  noticed sp a ∨ all_see x vs c.

Lemma ht_lazy_load_all i k ns ls x sp fuel : cuts ls x sp → Forall (λ n, (n < k)%nat) ns →
  ∀ a F, (∀ j, stable j F) →
  ht i (at_vars i (λ c, is_taken x c ∧ local_is i ls c ∧ ptrs_exist k c ∧ F c) a sp)
    (load_all less equal wr fuel i ns)
    (λ vs c, ∃ a', (a = true → a' = true) ∧
       at_vars i (λ c, reads_ok sp a' x vs c ∧ local_is i ls c ∧ ptrs_exist k c ∧ F c) a' sp c).
Proof.
  intros Hcut Hns. induction Hns as [|n ns Hn Hns IH]; intros a F HF; cbn [load_all].
  { apply ht_ret. intros c ((_ & ? & ? & ?) & Hv). exists a. split; [done|]. split; [|done].
    split; [right; constructor|done]. }
  eapply ht_bind.
  { eapply ht_weaken; [apply (ht_lazy_load i n ls x a sp (λ c, is_taken x c ∧ ptrs_exist k c ∧ F c) fuel Hcut);
      auto with stab| |intros v c Hv; exact Hv].
    intros c ((? & ? & Hp & ?) & Hv). split; [|done]. split_and!; [done|done|by apply Hp|done..]. }
  intros v. apply ht_exists. intros a1. apply ht_pure. intros Ha1.
  eapply ht_bind.
  { eapply ht_weaken; [apply (IH a1 (λ c, (noticed sp a1 ∨ sees x n v c) ∧ F c))| |intros vs c Hv; exact Hv].
    - intros j. apply stable_and; [|done]. intros c c' [?|Hs] Hc Ho; [by left|right].
      by eapply stable_sees.
    - intros c ((? & ? & ? & ? & ?) & Hv). by split. }
  intros vs. apply ht_exists. intros a2. apply ht_pure. intros Ha2. apply ht_ret.
  intros c ((Hvs & ? & ? & Hor & ?) & Hv). exists a2. split; [auto|]. split; [|done]. split; [|done].
  destruct Hvs as [?|Hvs]; [by left|]. destruct Hor as [[? ?]|Hs]; [left; split; auto|].
  right. by constructor.
Qed.

Lemma ht_body i k ns ls x a sp F fuel : cuts ls x sp → Forall (λ n, (n < k)%nat) ns → (∀ j, stable j F) →
  ht i (at_vars i (λ c, issued x (clock c.1) ∧ local_is i ls c ∧ ptrs_exist k c ∧ F c) a sp)
    (snapshot_body less equal wr fuel i ns)
    (λ r c, ∃ vs a', (r = RSnapshot ls vs ∧ (a = true → a' = true)) ∧
       at_vars i (λ c, reads_ok sp a' x vs c ∧ local_is i ls c ∧ ptrs_exist k c ∧ F c) a' sp c).
Proof.
  intros Hcut Hns HF. unfold snapshot_body. eapply ht_bind.
  { apply ht_base_load, (ht_take i ls x (λ c, ptrs_exist k c ∧ F c)); [auto with stab|apply Hcut]. }
  intros l. cbn beta. apply ht_at_pure. intros ->.
  eapply ht_bind; [by apply (ht_lazy_load_all i k ns ls x sp fuel Hcut Hns a F)|].
  intros vs. apply ht_exists. intros a'. apply ht_pure. intros Ha. apply ht_ret.
  intros c Hc. by exists vs, a'.
Qed.
(** ** The clock *)

(** [get] found [ls] some time ago *)
Definition got (ls : Z) (s : C) : Prop :=
  ∃ s0 s1, okC s0 ∧ erun okC adv get s0 ls s1 ∧ adv s1 s.
Lemma stable_got i ls : stable i (λ c, got ls (clock c.1)).
Proof.
  intros c c' (s0 & s1 & ? & ? & Ha) _ Ho. exists s0, s1. split_and!; [done|done|].
  etrans; [exact Ha|apply (own_clock _ _ _ Ho)].
Qed.
#[local] Hint Resolve stable_got : stab.

Lemma prev_issued ls s0 s1 : okC s0 → erun okC adv get s0 ls s1 → issued (prev ls) s1.
Proof. intros H0 Hg t s2 w s3 Ha H2 Hw. exact (lazy_prev_issued s0 ls s1 t s2 w s3 H0 H2 Hg Ha Hw). Qed.

Lemma ht_get i F : (∀ j, stable j F) →
  htB i F (zoom clock set_clock get)
    (λ ls c, (less ls zero_stamp = false ∧ less ls tbd = true ∧ ls ≠ -1) ∧
       got ls (clock c.1) ∧ issued (prev ls) (clock c.1) ∧ F c).
Proof.
  intros HF. eapply ht_weaken.
  - apply (ht_on_clock i F get (λ ls s, (less ls zero_stamp = false ∧ less ls tbd = true ∧ ls ≠ -1) ∧
      got ls s ∧ issued (prev ls) s)); [by apply frame_global|].
    intros c Hc _. pose proof (inv_ok _ Hc) as Hok. eapply wprg_of_erun; [by apply lazy_get_range|].
    intros ls s Hls Hrun. split; [done|]. split; [|by eapply prev_issued].
    exists (clock c.1), s. split_and!; [done|done|reflexivity].
  - done.
  - intros ls c (HFc & ? & ? & ?). auto.
Qed.

Lemma cuts_speculative ls : less ls zero_stamp = false → less ls tbd = true → ls ≠ -1 →
  cuts ls (prev ls) true.
Proof.
  intros Hz Ht Hl. split; [done|done|by apply lazy_prev_later|apply lazy_prev_later|].
  intros t Hlt. destruct (equal t ls) eqn:He; [by left|right; by apply lazy_prev_earlier].
Qed.
Lemma cuts_sure ls sp : less ls zero_stamp = false → less ls tbd = true → ls ≠ -1 → cuts ls ls sp.
Proof. intros Hz Ht Hl. split; auto. Qed.

(** ** Snapshots *)

(** a finished snapshot read the cut at its stamp, or the one just before *)
Definition lazy_ok (r : result) (c : Indirect.state C * ghost) : Prop :=
  match r with
  | RCas _ => True
  | RSnapshot ls vs => ∃ x, (x = ls ∨ x = prev ls) ∧ all_see x vs c
  end.
Lemma stable_lazy_ok i r : stable i (lazy_ok r).
Proof.
  destruct r as [b|ls vs]; [done|]. intros c c' (x & Hx & H) Hc Ho. exists x. split; [done|].
  by eapply stable_all_see.
Qed.
#[local] Hint Resolve stable_lazy_ok : stab.

#[local] Abbreviation take_snapshot := (take_snapshot less equal rd wr get increment).

(** the end: the thread leaves the snapshot *)
Lemma ht_leave {A} i l a (r : A) F : (∀ j, stable j F) →
  ht i (at_vars i (λ c, local_is i l c ∧ F c) a false)
    (store (base_c (local_stamp_c i)) (-1) ;; mret r)
    (λ r' c, r' = r ∧ ∃ a', at_vars i (λ c, local_is i (-1) c ∧ F c) a' false c).
Proof.
  intros HF. eapply ht_bind.
  { apply (ht_base_store i (λ c, local_is i l c ∧ F c) _ _ (λ _ c, local_is i (-1) c ∧ F c)).
    eapply ht_weaken; [by apply (ht_set_local i (-1) F)|by intros c [_ ?]|done]. }
  intros u. apply ht_ret. intros c Hc. split; [done|]. by exists a.
Qed.

(** running again, after the stamp has moved *)
Lemma ht_again i k ns ls F fuel : cuts ls ls false → Forall (λ n, (n < k)%nat) ns → (∀ j, stable j F) →
  ht i (at_vars i (λ c, got ls (clock c.1) ∧ local_is i ls c ∧ ptrs_exist k c ∧ F c) true false)
    (store (aborted_c i) false ;;
     n ← load (num_retries_c i);
     store (num_retries_c i) (n + 1) ;;
     ls' ← load (base_c (local_stamp_c i));
     zoom (λ s, clock (base s)) (λ t s, set_base (set_clock t (base s)) s) (increment i ls') ;;
     snapshot_body less equal wr fuel i ns)
    (λ r c, ∃ a, at_vars i (λ c, local_is i ls c ∧ lazy_ok r c ∧ ptrs_exist k c ∧ F c) a false c).
Proof.
  intros Hcut Hns HF. set (P := λ c, got ls (clock c.1) ∧ local_is i ls c ∧ ptrs_exist k c ∧ F c).
  assert (stable i P) as HP by (unfold P; auto 6 with stab).
  eapply ht_bind; [by apply (ht_set_aborted i P true false false)|]. intros u. cbn beta.
  eapply (ht_bind _ _ _ _ _ _ (λ _, at_vars i P false false)).
  { apply ht_load; [auto with stab|]. by intros c Hc H. }
  intros n. eapply ht_bind; [by apply (ht_set_retries i P false false)|]. intros u'. cbn beta.
  eapply ht_bind.
  { apply (ht_base_load i P _ (λ l c, l = ls ∧ P c)). apply ht_load; [done|].
    intros c Hc HPc. pose proof HPc as (_ & Hl & _). simpl. auto. }
  intros l. cbn beta. apply ht_at_pure. intros ->.
  eapply (ht_bind _ _ _ _ _ _ (λ _, at_vars i (λ c, issued ls (clock c.1) ∧ local_is i ls c ∧
    ptrs_exist k c ∧ F c) false false)).
  { apply ht_base_clock. eapply ht_weaken; [apply (ht_on_clock i P (increment i ls) (λ _ s, issued ls s))| |].
    - unfold P. apply frame_and; [apply frame_global; auto with stab|].
      apply frame_and; [apply frame_local|apply frame_global; auto with stab].
    - intros c Hc [(s0 & s1 & H0 & Hg & Ha) _]. pose proof (inv_ok _ Hc) as Hok.
      eapply wprg_of_erun; [by apply (lazy_increment_guarantee i ls)|].
      intros v s _ Hi t s4 w s5 Ha4 H4 Hw. exact (lazy_incremented s0 ls s1 i _ v s t s4 w s5 H0 Hok H4 Hg Ha Hi Ha4 Hw).
    - done.
    - by intros v c ((_ & ? & ?) & ?). }
  intros v. eapply ht_weaken; [by apply (ht_body i k ns ls ls false false F fuel)|done|].
  intros r c (vs & a & [-> _] & (([[? ?]|Hs] & ? & ? & ?) & Hv)); [done|]. exists a. split; [|done].
  split_and!; [done| |done..]. exists ls. auto.
Qed.
Lemma ht_speculate i k ns a F fuel : Forall (λ n, (n < k)%nat) ns → (∀ j, stable j F) →
  ht i (at_vars i (λ c, local_is i (-1) c ∧ ptrs_exist k c ∧ F c) a false)
    (take_snapshot fuel i true ns)
    (λ r c, ∃ a', at_vars i (λ c, local_is i (-1) c ∧ lazy_ok r c ∧ ptrs_exist k c ∧ F c) a' false c).
Proof.
  intros Hns HF. set (F' := λ c, ptrs_exist k c ∧ F c).
  assert (∀ j, stable j F') as HF' by (unfold F'; auto with stab).
  unfold LazySnapshot.take_snapshot, with_snapshot_lazy. eapply ht_bind.
  { apply ht_base_clock. eapply ht_weaken; [by apply (ht_get i F')|by intros c (_ & ?)|intros ls c H; exact H]. }
  intros ls. cbn beta. apply ht_at_pure. intros (Hz & Ht & Hl).
  pose proof (cuts_speculative ls Hz Ht Hl) as Hspec. pose proof (cuts_sure ls false Hz Ht Hl) as Hsure.
  set (G := λ c, got ls (clock c.1) ∧ F' c).
  assert (∀ j, stable j G) as HG by (unfold G; auto with stab).
  set (P := λ c, issued (prev ls) (clock c.1) ∧ local_is i ls c ∧ ptrs_exist k c ∧ got ls (clock c.1) ∧ F c).
  assert (stable i P) as HP by (unfold P; auto 8 with stab).
  eapply (ht_bind _ _ _ _ _ _ (λ _, at_vars i P a false)).
  { apply ht_base_store. eapply ht_weaken; [apply (ht_set_local i ls (λ c, issued (prev ls) (clock c.1) ∧ G c));
      auto with stab| |].
    - by intros c (? & ? & ?).
    - by intros u c (? & ? & ? & ? & ?). }
  intros _. eapply ht_bind; [by apply (ht_set_aborted i P a false false)|]. intros u. cbn beta.
  eapply ht_bind; [by apply (ht_set_speculative i P false false true)|]. intros u'. cbn beta.
  eapply ht_bind.
  { apply (ht_body i k ns ls (prev ls) false true (λ c, got ls (clock c.1) ∧ F c) fuel Hspec Hns). auto with stab. }
  intros r. apply ht_exists. intros vs. apply ht_exists. intros a'. apply ht_pure. intros [-> _].
  set (P' := λ c, reads_ok true a' (prev ls) vs c ∧ local_is i ls c ∧ ptrs_exist k c ∧ got ls (clock c.1) ∧ F c).
  assert (stable i P') as HP'.
  { unfold P'. apply stable_and; [|auto 8 with stab]. intros c c' [?|Hs] Hc Ho; [by left|right].
    by eapply stable_all_see. }
  eapply ht_bind; [by apply (ht_set_speculative i P' a' true false)|]. intros u1. cbn beta.
  eapply ht_bind; [apply (ht_get_var i P' a' false (aborted_c i) a' HP'); by intros d (_ & <- & _)|].
  intros v. apply ht_pure. intros ->.
  eapply (ht_bind _ _ _ _ _ _ (λ r c, ∃ a1, at_vars i (λ c, local_is i ls c ∧ lazy_ok r c ∧ F' c) a1 false c)).
  { destruct a'.
    - eapply ht_weaken; [by apply (ht_again i k ns ls F fuel)| |done].
      intros c ((_ & ? & ? & ? & ?) & Hv). by split.
    - apply ht_ret. intros c ((Hr & ? & ? & ? & ?) & Hv). exists false. split; [|done].
      split; [done|]. split; [|done]. destruct Hr as [[_ ?]|?]; [done|]. exists (prev ls). auto. }
  intros r. apply ht_exists. intros a1. eapply ht_weaken; [apply (ht_leave i ls a1 r (λ c, lazy_ok r c ∧ F' c));
    auto with stab|done|]. by intros r' c [-> H].
Qed.

Lemma ht_sure i k ns a F fuel : Forall (λ n, (n < k)%nat) ns → (∀ j, stable j F) →
  ht i (at_vars i (λ c, local_is i (-1) c ∧ ptrs_exist k c ∧ F c) a false)
    (take_snapshot fuel i false ns)
    (λ r c, ∃ a', at_vars i (λ c, local_is i (-1) c ∧ lazy_ok r c ∧ ptrs_exist k c ∧ F c) a' false c).
Proof.
  intros Hns HF. set (F' := λ c, ptrs_exist k c ∧ F c).
  assert (∀ j, stable j F') as HF' by (unfold F'; auto with stab).
  unfold LazySnapshot.take_snapshot, with_snapshot_lazy, with_snapshot. eapply ht_bind.
  { apply ht_base_clock. eapply ht_weaken; [apply (ht_on_clock i F' (rd i) (λ r s', issued r s' ∧
      less r zero_stamp = false ∧ less r tbd = true ∧ r ≠ -1)); [by apply frame_global|]| |].
    - intros c Hc _. apply clock_issue, Hc.
    - by intros c (_ & ?).
    - intros ls c H. exact (conj (proj2 (proj2 H)) (conj (proj1 (proj2 H)) (proj1 H))). }
  intros ls. cbn beta. apply ht_at_pure. intros (Hz & Ht & Hl).
  pose proof (cuts_sure ls false Hz Ht Hl) as Hsure. eapply ht_bind.
  { apply ht_base_store, (ht_set_local i ls (λ c, issued ls (clock c.1) ∧ F' c)). auto with stab. }
  intros u. cbn beta. eapply ht_bind.
  { eapply ht_weaken; [by apply (ht_body i k ns ls ls a false F fuel)| |intros r c H; exact H].
    intros c ((? & ? & ? & ?) & Hv). by split. }
  intros r. apply ht_exists. intros vs. apply ht_exists. intros a'. apply ht_pure. intros [-> _].
  eapply ht_weaken; [apply (ht_leave i ls a' (RSnapshot ls vs) (λ c, lazy_ok (RSnapshot ls vs) c ∧ F' c))| |].
  - auto with stab.
  - intros c (([[? ?]|Hs] & ? & ? & ?) & Hv); [done|]. split; [|done]. split; [done|]. split; [|done].
    exists ls. auto.
  - by intros r' c [-> H].
Qed.

Lemma ht_lazy_commands i k cs fuel : Forall (ptr_of_lazy_command k) cs → ∀ a F, (∀ j, stable j F) →
  ht i (at_vars i (λ c, local_is i (-1) c ∧ ptrs_exist k c ∧ F c) a false)
    (exec_all less equal rd wr get increment alloc fuel i cs)
    (λ rs d, Forall (λ r, lazy_ok r (base d.1, d.2)) rs ∧ F (base d.1, d.2)).
Proof.
  intros Hcs. induction Hcs as [|cmd cs Hcmd Hcs IH]; intros a F HF; cbn [exec_all].
  { apply ht_ret. intros c ((_ & _ & HFc) & _). by split; [constructor|]. }
  eapply (ht_bind _ _ _ _ _ _ (λ r c, ∃ a', at_vars i (λ c, local_is i (-1) c ∧ lazy_ok r c ∧
    ptrs_exist k c ∧ F c) a' false c)).
  { destruct cmd as [n o v|[] ns]; simpl in Hcmd; [|by apply ht_speculate|by apply ht_sure].
    eapply ht_bind.
    - apply ht_base. eapply ht_weaken; [apply (ht_cas alloc alloc_fresh i n o v (λ c, ptrs_exist k c ∧ F c));
        auto with stab| |intros b c H; exact H].
      intros c (? & Hp & ?). split; [by apply Hp|done].
    - intros b. apply ht_ret. intros c ((? & ? & ?) & Hv). by exists a. }
  intros r. apply ht_exists. intros a'. eapply ht_bind.
  { eapply ht_weaken; [apply (IH a' (λ c, lazy_ok r c ∧ F c)); auto with stab| |intros rs c H; exact H].
    intros c ((? & ? & ? & ?) & Hv). by split. }
  intros rs. apply ht_ret. intros c (? & ? & ?). split; [by constructor|done].
Qed.
End proof.

(** C2: With LazyStamp, threads that update versioned pointers with cas and take
    snapshots, speculative or not, interleaved at every atomic access, meet no
    error (loops may run out of fuel), and all values that a finished snapshot
    returns are those of one cut of the histories of the pointers, selected in
    the version lists of the state reached now by the snapshot's stamp or by
    the one just before it, although a speculative snapshot does not move the
    clock: a version with the snapshot's very stamp makes it run again. *)
Theorem lazy_snapshots_consistent {C : Type} {okC : C → Prop} {adv : relation C}
    {less : Z → Z → bool} {rd wr : nat → prog C Z} {equal : Z → Z → bool} {get : prog C Z}
    {increment : nat → Z → prog C unit} {prev : Z → Z}
    `{Hlazy : !LazyClock okC adv less rd wr equal get increment prev}
    (alloc : gmap Z version_link → Z) (fuel : nat) (t0 : C) (vs : list Z)
    (cmds : list (list lazy_command))
    (alloc_fresh : ∀ m, m !! alloc m = None ∧ alloc m ≠ 0)
    (start_ok : okC t0)
    (in_range : Forall (Forall (ptr_of_lazy_command (length vs))) cmds) :
  ∀ s ts, rtc (step_ok (λ s, okC (clock (base s))))
      (lazy_init t0 vs, imap (exec_all less equal rd wr get increment alloc fuel) cmds) (s, ts) →
    (∀ i e, goes_wrong i e (s, ts) → e = OutOfFuel) ∧
    ∀ i rs ls vals, ts !! i = Some (Ret rs) → RSnapshot ls vals ∈ rs →
      ∃ x, (x = ls ∨ x = prev ls) ∧
        Forall (λ p, ∃ head k, ptrs (base s) !! p.1 = Some head ∧
                               value_at less k (heap (base s)) x head = Some p.2) vals.
Proof.
  intros s ts Hsteps.
  destruct (protocol_sound (lazy_protocol (Hlazy := Hlazy)) only_fuel
    (λ i, at_vars i (λ c, local_is i (-1) c ∧ ptrs_exist (length vs) c ∧ True) false false)
    (λ i rs d, Forall (λ r, lazy_ok (less := less) (prev := prev) r (base d.1, d.2)) rs ∧ True)
    (lazy_init t0 vs) (init_ghost vs) (imap (exec_all less equal rd wr get increment alloc fuel) cmds))
    with s ts as (g & Hg & Hwrong & Hret); [done|by apply init_inv| |done|].
  - intros i p Hp. rewrite list_lookup_imap in Hp.
    destruct (cmds !! i) as [cs|] eqn:Hi; simpl in Hp; [|done]. injection Hp as <-.
    split; [split; [split_and!; [done|apply init_ptrs|done]|done]|].
    apply ht_lazy_commands; [done|by eapply Forall_lookup_1 in in_range|intros j; apply stable_pure].
  - split; [done|]. intros i rs ls vals Hrs Hin.
    destruct (Hret i rs Hrs) as (c0 & [Hall _] & [Ho _]).
    rewrite Forall_forall in Hall. destruct (Hall _ Hin) as (x & Hx & Hs). exists x. split; [done|].
    eapply Forall_impl; [exact Hs|]. intros [n v] Hsee. simpl in *.
    destruct (sees_value_at (less := less) (wr := wr) (okC := okC) (adv := adv) x n v (base s, g))
      as (p & Hp & k & Hk); [done|by eapply stable_sees|]. eauto.
Qed.

(** Two snapshots with the reader-incremented clock.  The first meets the
    initial versions, which have its stamp, so it runs again.  During the
    second, when it has read pointer 0, both pointers are updated with its
    stamp; it notices at pointer 1 and reads both again. *)
Definition lazy_cmds : list (list lazy_command) :=
  [[LCas 0 10 11; LCas 1 20 21]; [LSnapshot true [1; 0; 1]%nat; LSnapshot true [0; 1]%nat]].
Definition lazy_pool : config (lazy_state (Indirect.state timestamp_read.state)) (list result) :=
  (lazy_init (timestamp_read.init (-1)) [10; 20],
   imap (exec_all timestamp_read.less timestamp_read.equal timestamp_read.get_read_stamp
     timestamp_read.get_write_stamp timestamp_read.get_stamp timestamp_read.increment_stamp next_addr 5)
     lazy_cmds).

Lemma lazy_snapshots_consistent_witness :
  ∃ s ts x, rtc (step_ok (λ s, read_clock.ok (clock (base s)))) lazy_pool (s, ts) ∧
    ts !! 1%nat = Some (Ret [RSnapshot 1 [(1%nat, 20); (0%nat, 10); (1%nat, 20)];
                             RSnapshot 2 [(0%nat, 11); (1%nat, 21)]]) ∧
    (x = 2 ∨ x = 1) ∧
    Forall (λ p, ∃ head k, ptrs (base s) !! p.1 = Some head ∧
                           value_at timestamp_read.less k (heap (base s)) x head = Some p.2)
      [(0%nat, 11); (1%nat, 21)].
Proof.
  edestruct (after_sched_steps_ok (λ s, read_clock.ok (clock (base s)))
    (λ s : lazy_state (Indirect.state timestamp_read.state),
       (1 <=? timestamp_read.stamp (clock (base s))) && (timestamp_read.stamp (clock (base s)) <? 100))
    (replicate 88 1%nat ++ replicate 22 0%nat ++ replicate 39 1%nat) lazy_pool
    (λ c, c.2 !! 1%nat = Some (Ret [RSnapshot 1 [(1%nat, 20); (0%nat, 10); (1%nat, 20)];
                                    RSnapshot 2 [(0%nat, 11); (1%nat, 21)]])))
    as ([s ts] & Hsteps & Hret).
  - intros s [H1 H2]%andb_prop. apply Z.leb_le in H1. apply Z.ltb_lt in H2.
    unfold read_clock.ok. lia.
  - vm_compute. reflexivity.
  - destruct (proj2 (lazy_snapshots_consistent (Hlazy := lazy_read_clock.read_is_lazy_clock) next_addr 5
      (timestamp_read.init (-1)) [10; 20] lazy_cmds next_addr_fresh ltac:(vm_compute; split; [discriminate|reflexivity])
      ltac:(repeat constructor) s ts Hsteps) 1%nat _ 2 [(0%nat, 11); (1%nat, 21)] Hret
      ltac:(right; left)) as (x & Hx & Hall).
    exists s, ts, x. split; [exact Hsteps|]. split; [exact Hret|]. split; [exact Hx|exact Hall].
Defined.
