(* ===== verification/Hybrid.v ===== *)
(** * Hybrid: versioned pointers that are direct when they can be
    (include/verlib/versioned_hybrid.h, the default), in the configuration
    with regular locks (NoHelp).

    A pointer to an object that has never been recorded is stored directly,
    and the object's own header is the version; otherwise, and for null, an
    indirect link is stored, marked by the lowest bit.  [shortcut] replaces a
    link by its value once nobody can need an older version. *)

From stdpp Require Import prelude list gmap.
From Stdlib Require Import ZArith Lia.
From S2P Require Import Prelude Conc Timestamps Snapshot SpinLock.
Local Open Scope Z_scope.

(** struct versioned, and ver_link when [value] is there *)
Record versioned := mkVersioned { time_stamp : Z; next_version : Z; value : option Z }.

Record state (C : Type) := mkState {
  clock : C;
  heap : gmap Z versioned;
  ptrs : gmap nat Z;          (* the field v of each versioned_ptr *)
  local_stamp : gmap nat Z;
  done_stamp : Z;
  retired : list Z;           (* given to link_pool.retire *)
}.
Arguments mkState {C} _ _ _ _ _ _. Arguments clock {C} _. Arguments heap {C} _.
Arguments ptrs {C} _. Arguments local_stamp {C} _. Arguments done_stamp {C} _.
Arguments retired {C} _.

(** ** The indirect bit *)
Definition add_indirect (ptr : Z) : Z := Z.lor 1 ptr.
Definition strip_indirect (ptr : Z) : Z := Z.land ptr (not64 1).
Definition is_indirect (ptr : Z) : bool := negb (Z.land ptr 1 =? 0).

Section hybrid.
Context {C : Type} (less : Z → Z → bool) (get_write_stamp : nat → prog C Z).
Context (alloc : gmap Z versioned → Z).
#[local] Abbreviation state := (state C).

Definition set_clock (t : C) (s : state) : state :=
  mkState t (heap s) (ptrs s) (local_stamp s) (done_stamp s) (retired s).
Definition set_heap (h : gmap Z versioned) (s : state) : state :=
  mkState (clock s) h (ptrs s) (local_stamp s) (done_stamp s) (retired s).
Definition set_ptrs (m : gmap nat Z) (s : state) : state :=
  mkState (clock s) (heap s) m (local_stamp s) (done_stamp s) (retired s).
Definition set_local (l : gmap nat Z) (s : state) : state :=
  mkState (clock s) (heap s) (ptrs s) l (done_stamp s) (retired s).

Definition at_addr (s : state) (p : Z) : err + versioned :=
  if p =? 0 then inl NullDeref
  else match heap s !! p with Some x => inr x | None => inl UseAfterFree end.
Definition field {T} (get : versioned → err + T) (set : T → versioned → versioned) (p : Z)
  : cell state T :=
  Cell (λ s, match at_addr s p with inr x => get x | inl e => inl e end)
       (λ t s, match heap s !! p with
               | Some x => set_heap (<[p := set t x]> (heap s)) s
               | None => s
               end).
Definition ts_c : Z → cell state Z :=
  field (λ x, inr (time_stamp x)) (λ t x, mkVersioned t (next_version x) (value x)).
Definition next_c : Z → cell state Z :=
  field (λ x, inr (next_version x)) (λ n x, mkVersioned (time_stamp x) n (value x)).
(** the value of a link; reading it from an object that is not one is a bad cast *)
Definition value_c : Z → cell state Z :=
  field (λ x, match value x with Some v => inr v | None => inl BadCast end)
        (λ v x, mkVersioned (time_stamp x) (next_version x) (Some v)).
Definition ptr_c (n : nat) : cell state Z :=
  Cell (λ s, match ptrs s !! n with Some p => inr p | None => inl UseAfterFree end)
       (λ p s, set_ptrs (<[n := p]> (ptrs s)) s).
Definition local_stamp_c (tid : nat) : cell state Z :=
  thread_local local_stamp set_local (-1) tid.

(** link_pool *)
Definition new_link (next v : Z) : prog state Z :=
  Act (λ s, let p := alloc (heap s) in
            Ok p (set_heap (<[p := mkVersioned tbd next (Some v)]> (heap s)) s)) Ret.
Definition retire (p : Z) : prog state unit :=
  modify (λ s, mkState (clock s) (heap s) (ptrs s) (local_stamp s) (done_stamp s) (p :: retired s)).
Definition destruct_ (p : Z) : prog state unit := modify (λ s, set_heap (delete p (heap s)) s).

Definition shortcut (n : nat) (ptr : Z) : prog state unit :=
  let ptr_ := strip_indirect ptr in
  t ← load (ts_c ptr_);
  done ← gets done_stamp;
  when (t <=? done)
    (v ← load (value_c ptr_);
     b ← atomic.cas (ptr_c n) ptr v;
     when b (retire ptr_)).

Definition get_ptr (ptr : Z) : prog state Z :=
  let ptr_ := strip_indirect ptr in
  if negb (is_indirect ptr) then mret ptr_ else load (value_c ptr_).

Definition get_ptr_shortcut (n : nat) (ptr : Z) : prog state Z :=
  let ptr_ := strip_indirect ptr in
  if negb (is_indirect ptr) then mret ptr_
  else shortcut n ptr ;; load (value_c ptr_).

Definition set_stamp (tid : nat) (ptr : Z) : prog state Z :=
  let ptr_ := strip_indirect ptr in
  (if negb (ptr =? 0) then
     t0 ← load (ts_c ptr_);
     when (t0 =? tbd)
       (t ← zoom clock set_clock (get_write_stamp tid);
        t1 ← load (ts_c ptr_);
        when (t1 =? tbd) (cas (ts_c ptr_) tbd t ;; mret tt))
   else mret tt) ;;
  mret ptr.

Definition set_zero_stamp (ptr : Z) : prog state Z :=
  (if negb (ptr =? 0) then
     t ← load (ts_c ptr);
     when (t =? tbd) (store (ts_c ptr) zero_stamp)
   else mret tt) ;;
  mret ptr.

Definition cas_from_cam (n : nat) (old_v new_v : Z) : prog state bool :=
  atomic.cas (ptr_c n) old_v new_v.

(** the destructor of a versioned_ptr *)
Definition drop (n : nat) : prog state unit :=
  ptr ← load (ptr_c n);
  when (is_indirect ptr) (destruct_ (strip_indirect ptr)).

Definition init (n : nat) (ptr : Z) : prog state unit :=
  p ← set_zero_stamp ptr; store (ptr_c n) p.

(** the chase of read_snapshot, up to the version that is read *)
Definition find_version (fuel tid n : nat) (ls : Z) : prog state Z :=
  p ← load (ptr_c n);
  head ← set_stamp tid p;
  iter fuel (λ head,
    if head =? 0 then mret (inr head)
    else
      t ← load (ts_c (strip_indirect head));
      if less ls t then h ← load (next_c (strip_indirect head)); mret (inl h)
      else mret (inr head)) head.
Definition version_value (head : Z) : prog state Z :=
  if is_indirect head then load (value_c (strip_indirect head)) else mret head.

Definition read_snapshot (fuel tid n : nat) : prog state Z :=
  ls ← load (local_stamp_c tid);
  head ← find_version fuel tid n ls;
  version_value head.

(** with LazyStamp *)
Definition read_snapshot_lazy (equal : Z → Z → bool) (fuel tid n : nat) : prog (lazy_state state) Z :=
  ls ← load (base_c (local_stamp_c tid));
  head ← on_base (find_version fuel tid n ls);
  when (negb (head =? 0))
    (t ← load (base_c (ts_c (strip_indirect head))); abort_test equal tid t ls) ;;
  on_base (version_value head).

Definition load_ (fuel tid n : nat) : prog state Z :=
  ls ← load (local_stamp_c tid);
  if negb (ls =? -1) then read_snapshot fuel tid n
  else
    p ← load (ptr_c n);
    p' ← set_stamp tid p;
    get_ptr_shortcut n p'.

Definition read (n : nat) : prog state Z := p ← load (ptr_c n); get_ptr_shortcut n p.

Definition validate (tid n : nat) : prog state unit :=
  p ← load (ptr_c n); set_stamp tid p ;; mret tt.

(** does storing [ptr] need a link? *)
Definition use_indirect (ptr : Z) : prog state bool :=
  if ptr =? 0 then mret true else t ← load (ts_c ptr); mret (negb (t =? tbd)).

(** the pointer to store for [ptr], with the version [old_v] behind it *)
Definition make_version (indirect : bool) (old_v ptr : Z) : prog state Z :=
  if indirect then l ← new_link old_v ptr; mret (add_indirect l)
  else store (next_c ptr) old_v ;; mret ptr.

Definition store_ (tid n : nat) (ptr : Z) : prog state unit :=
  old_v ← load (ptr_c n);
  indirect ← use_indirect ptr;
  new_v ← make_version indirect old_v ptr;
  atomic.cam (ptr_c n) old_v new_v ;;
  when (is_indirect old_v)
    (val ← load (ptr_c n);
     let old_l := strip_indirect old_v in
     old_val ← load (value_c old_l);
     if negb (val =? old_val) then retire old_l
     else atomic.cam (ptr_c n) val new_v) ;;
  set_stamp tid new_v ;;
  when indirect (shortcut n new_v).

Definition cas_ (tid n : nat) (exp ptr : Z) : prog state bool :=
  old_v ← load (ptr_c n);
  old ← get_ptr old_v;
  set_stamp tid old_v ;;
  if negb (old =? exp) then mret false
  else if exp =? ptr then mret true
  else
    indirect ← use_indirect ptr;
    new_v ← make_version indirect old_v ptr;
    succeeded ← cas_from_cam n old_v new_v;
    '(succeeded, old_v) ←
      (if negb succeeded && is_indirect old_v then
         old_v' ← load (value_c (strip_indirect old_v));
         cur ← load (ptr_c n);
         if old_v' =? cur then b ← cas_from_cam n old_v' new_v; mret (b : bool, old_v')
         else mret (false, old_v')
       else mret (succeeded, old_v));
    if (succeeded : bool) then
      set_stamp tid new_v ;;
      when (is_indirect old_v) (retire (strip_indirect old_v)) ;;
      when indirect (shortcut n new_v) ;;
      mret true
    else
      when indirect (destruct_ (strip_indirect new_v)) ;;
      p ← load (ptr_c n);
      set_stamp tid p ;;
      mret false.

(** casz: the same with a second attempt instead of the second cas; [None]
    when the attempt failed *)
Definition casz_attempt (tid n : nat) (exp ptr : Z) : prog state (option bool) :=
  old_v ← load (ptr_c n);
  old ← get_ptr old_v;
  set_stamp tid old_v ;;
  if negb (old =? exp) then mret (Some false)
  else if exp =? ptr then mret (Some true)
  else
    indirect ← use_indirect ptr;
    new_v ← make_version indirect old_v ptr;
    b ← cas_from_cam n old_v new_v;
    if (b : bool) then
      set_stamp tid new_v ;;
      when (is_indirect old_v) (retire (strip_indirect old_v)) ;;
      when indirect (shortcut n new_v) ;;
      mret (Some true)
    else
      when indirect (destruct_ (strip_indirect new_v)) ;;
      mret None.

Definition casz (tid n : nat) (exp ptr : Z) : prog state bool :=
  r1 ← casz_attempt tid n exp ptr;
  match r1 with
  | Some b => mret b
  | None =>
      r2 ← casz_attempt tid n exp ptr;
      match r2 with
      | Some b => mret b
      | None => p ← load (ptr_c n); set_stamp tid p ;; mret false
      end
  end.

(** store when SlowStore is defined *)
Definition store_slow (fuel tid n : nat) (newv : Z) : prog state unit :=
  oldv ← load_ fuel tid n; cas_ tid n oldv newv ;; mret tt.
End hybrid.

(** ** The indirect bit, arithmetically *)
Section bits.
Definition aligned (p : Z) : Prop := is_w64 p ∧ p mod 2 = 0.

Lemma add_indirect_aligned p : aligned p → add_indirect p = p + 1.
Proof.
  intros [Hp He]. unfold add_indirect. rewrite Z.lor_comm.
  replace p with (p / 2 * 2 ^ 1) at 1 by (pose proof (Z.div_mod p 2); lia).
  rewrite lor_disjoint by lia. pose proof (Z.div_mod p 2). lia.
Qed.

Lemma strip_aligned p : aligned p → strip_indirect p = p.
Proof.
  intros [Hp He]. unfold strip_indirect. change (not64 1) with (not64 (2 ^ 1 - 1)).
  rewrite (land_high p 1) by (done || lia). change (2 ^ 1) with 2. lia.
Qed.

Lemma is_indirect_aligned p : aligned p → is_indirect p = false.
Proof.
  intros [Hp He]. unfold is_indirect. change (Z.land p 1) with (Z.land p (2 ^ 1 - 1)).
  rewrite (land_low p 1) by lia. change (2 ^ 1) with 2.
  by rewrite He.
Qed.

Lemma strip_add p : aligned p → strip_indirect (add_indirect p) = p.
Proof.
  intros Hp. rewrite add_indirect_aligned by done. destruct Hp as [[Hp1 Hp2] He].
  unfold strip_indirect. change (not64 1) with (not64 (2 ^ 1 - 1)).
  rewrite (land_high _ 1); [|unfold is_w64|lia].
  - change (2 ^ 1) with 2. rewrite Z.add_mod by lia. rewrite He. change ((0 + 1 mod 2) mod 2) with 1. lia.
  - pose proof (Z.div_mod p 2). split; [lia|]. change (2 ^ 64) with (2 * 2 ^ 63) in *. lia.
Qed.

Lemma is_indirect_add p : aligned p → is_indirect (add_indirect p) = true.
Proof.
  intros Hp. rewrite add_indirect_aligned by done. destruct Hp as [_ He].
  unfold is_indirect. change (Z.land ?x 1) with (Z.land x (2 ^ 1 - 1)).
  rewrite (land_low _ 1) by lia. change (2 ^ 1) with 2.
  rewrite Z.add_mod by lia. by rewrite He.
Qed.

Lemma aligned_0 : aligned 0.
Proof. split; [unfold is_w64; lia|done]. Qed.
End bits.

(** ** What a pointer holds, now and for a snapshot *)
Section spec.
Context {C : Type} (get_write_stamp : nat → prog C Z) (alloc : gmap Z versioned → Z).
#[local] Abbreviation state := (state C).
Implicit Types s : state.

(** the allocator has room for one more link *)
Definition fresh_in (m : gmap Z versioned) : Prop :=
  m !! alloc m = None ∧ alloc m ≠ 0 ∧ aligned (alloc m).

(** the object that a snapshot at [ls] finds from pointer [p] on (null is 0);
    the versions on the way are stamped *)
Fixpoint value_at (fuel : nat) (h : gmap Z versioned) (ls p : Z) : option Z :=
  match fuel with
  | O => None
  | Datatypes.S k =>
      if p =? 0 then Some 0
      else match h !! strip_indirect p with
           | None => None
           | Some x =>
               if time_stamp x =? tbd then None
               else if ls <? time_stamp x then value_at k h ls (next_version x)
               else if is_indirect p then value x else Some p
           end
  end.

(** the object that the pointer [p] stands for now *)
Definition points_to (h : gmap Z versioned) (p v : Z) : Prop :=
  if is_indirect p then ∃ x, h !! strip_indirect p = Some x ∧ value x = Some v
  else strip_indirect p = v.

Definition is_object (h : gmap Z versioned) (p : Z) : Prop :=
  p = 0 ∨ ∃ x, h !! p = Some x ∧ value x = None.

Record wf (s : state) : Prop := {
  wf_addr : ∀ p x, heap s !! p = Some x → p ≠ 0 ∧ aligned p;
  wf_ptrs : ∀ n p, ptrs s !! n = Some p → p = 0 ∨
    ∃ x, heap s !! strip_indirect p = Some x ∧ time_stamp x ≠ tbd ∧ strip_indirect p ≠ 0 ∧
         (is_indirect p = true → is_Some (value x));
}.

(** Changing what has no stamp yet does not change the past. *)
Lemma value_at_frame h a y k ls p v :
  (∀ x, h !! a = Some x → time_stamp x = tbd) →
  value_at k h ls p = Some v → value_at k (<[a := y]> h) ls p = Some v.
Proof.
  intros Ha. revert p. induction k as [|k IH]; intros p; simpl; [done|].
  destruct (p =? 0); [done|]. destruct (h !! strip_indirect p) as [x|] eqn:Hx; [|done].
  destruct (decide (a = strip_indirect p)) as [->|Hne].
  - rewrite (Ha x Hx). by rewrite Z.eqb_refl.
  - rewrite lookup_insert_ne, Hx by done. destruct (time_stamp x =? tbd); [done|].
    destruct (ls <? time_stamp x); [apply IH|done].
Qed.

Lemma value_at_mono h ls p v k : value_at k h ls p = Some v → value_at (Datatypes.S k) h ls p = Some v.
Proof.
  revert p. induction k as [|k IH]; intros p; [done|]. intros H.
  cbn [value_at] in H. change (value_at (Datatypes.S (Datatypes.S k)) h ls p) with
    (if p =? 0 then Some 0 else match h !! strip_indirect p with
       | None => None
       | Some x => if time_stamp x =? tbd then None
                   else if ls <? time_stamp x then value_at (Datatypes.S k) h ls (next_version x)
                   else if is_indirect p then value x else Some p end).
  destruct (p =? 0); [done|]. destruct (h !! strip_indirect p) as [x|]; [|done].
  destruct (time_stamp x =? tbd); [done|]. destruct (ls <? time_stamp x); [by apply IH|done].
Qed.

Lemma recorded_or_not (h : gmap Z versioned) p :
  (∃ x, h !! p = Some x ∧ time_stamp x = tbd) ∨ ∀ x, h !! p = Some x → time_stamp x ≠ tbd.
Proof.
  destruct (h !! p) as [x|]; [|by right]. destruct (decide (time_stamp x = tbd)); [left; eauto|].
  right. by intros ? [= <-].
Qed.

(** *** The pieces, run alone *)
Lemma peek_field {T} (get : versioned → err + T) set s p x :
  p ≠ 0 → heap s !! p = Some x → peek (field get set p) s = get x.
Proof. intros Hp Hx. simpl. unfold at_addr. by rewrite (proj2 (Z.eqb_neq _ _) Hp), Hx. Qed.

Lemma run_ts s p x : p ≠ 0 → heap s !! p = Some x → run (load (ts_c p)) s = Ok (time_stamp x) s.
Proof. intros. apply run_load. unfold ts_c. by erewrite peek_field. Qed.

Lemma run_ptr s n p : ptrs s !! n = Some p → run (load (ptr_c n)) s = Ok p s.
Proof. intros H. apply run_load. simpl. by rewrite H. Qed.

Lemma run_cam s n old new : ptrs s !! n = Some old →
  run (atomic.cam (ptr_c n) old new) s = Ok tt (set_ptrs (<[n := new]> (ptrs s)) s).
Proof.
  intros H. unfold atomic.cam. rewrite run_bind, (run_ptr _ _ old) by done.
  rewrite bool_decide_true by done. cbn [when]. rewrite run_bind.
  rewrite (run_cas _ _ old) by (simpl; by rewrite H). by rewrite decide_True.
Qed.

Lemma run_use_indirect s ptr : is_object (heap s) ptr → (∀ p x, heap s !! p = Some x → p ≠ 0) →
  run (use_indirect ptr) s = Ok (match heap s !! ptr with
                                 | Some x => negb (time_stamp x =? tbd)
                                 | None => true
                                 end) s.
Proof.
  intros Hobj Hne. unfold use_indirect. destruct (Z.eqb_spec ptr 0) as [->|Hp].
  - destruct (heap s !! 0) eqn:E; [|done]. by apply Hne in E.
  - destruct Hobj as [|(x & Hx & _)]; [done|]. rewrite run_bind, (run_ts s ptr x) by done.
    by rewrite Hx.
Qed.

(** stamping the version that [p] designates *)
Definition with_stamp (t : Z) (x : versioned) : versioned := mkVersioned t (next_version x) (value x).

Lemma run_set_stamp s tid p x t c' : p ≠ 0 → strip_indirect p ≠ 0 →
  heap s !! strip_indirect p = Some x → time_stamp x = tbd →
  run (get_write_stamp tid) (clock s) = Ok t c' →
  run (set_stamp get_write_stamp tid p) s =
    Ok p (set_heap (<[strip_indirect p := with_stamp t x]> (heap s)) (set_clock c' s)).
Proof.
  intros Hp Hs Hx Ht Hwr. unfold set_stamp. rewrite (proj2 (Z.eqb_neq _ _) Hp). cbn [negb].
  rewrite !run_bind, (run_ts _ _ x) by done. rewrite Ht, Z.eqb_refl. cbn [when].
  rewrite run_bind, run_zoom, Hwr by (done || by intros []).
  rewrite run_bind, (run_ts _ _ x) by done. rewrite Ht, Z.eqb_refl. cbn [when].
  rewrite run_bind, (run_cas _ _ tbd) by (unfold ts_c; erewrite peek_field; [by rewrite <-Ht|done..]).
  rewrite decide_True by done. cbn [run mret prog_ret]. do 2 f_equal. simpl. by rewrite Hx.
Qed.

Lemma run_shortcut_at s n p x v : strip_indirect p ≠ 0 → heap s !! strip_indirect p = Some x →
  value x = Some v → ptrs s !! n = Some p →
  run (shortcut n p) s = Ok tt
    (if time_stamp x <=? done_stamp s then
       mkState (clock s) (heap s) (<[n := v]> (ptrs s)) (local_stamp s) (done_stamp s)
               (strip_indirect p :: retired s)
     else s).
Proof.
  intros Hl0 Hx Hv Hn. unfold shortcut.
  rewrite run_bind, (run_ts _ _ x) by done. rewrite run_bind. cbn [run gets].
  destruct (time_stamp x <=? done_stamp s); cbn [when]; [|done].
  rewrite run_bind, (run_load _ _ v) by (unfold value_c; erewrite peek_field by done; by rewrite Hv).
  rewrite run_bind. unfold atomic.cas. rewrite run_bind, (run_ptr _ _ p) by done.
  rewrite decide_True by done. rewrite (run_cas _ _ p) by (simpl; by rewrite Hn).
  by rewrite decide_True.
Qed.

Lemma run_shortcut s n l x v : aligned l → l ≠ 0 → heap s !! l = Some x → value x = Some v →
  ptrs s !! n = Some (add_indirect l) →
  run (shortcut n (add_indirect l)) s = Ok tt
    (if time_stamp x <=? done_stamp s then
       mkState (clock s) (heap s) (<[n := v]> (ptrs s)) (local_stamp s) (done_stamp s)
               (l :: retired s)
     else s).
Proof.
  intros Hl Hl0 Hx Hv Hn. rewrite (run_shortcut_at s n _ x v); by rewrite ?strip_add.
Qed.

Lemma run_new_link s next v : run (new_link alloc next v) s =
  Ok (alloc (heap s)) (set_heap (<[alloc (heap s) := mkVersioned tbd next (Some v)]> (heap s)) s).
Proof. done. Qed.

Lemma run_store_next s p x v : p ≠ 0 → heap s !! p = Some x →
  run (store (next_c p) v) s =
    Ok tt (set_heap (<[p := mkVersioned (time_stamp x) v (value x)]> (heap s)) s).
Proof.
  intros Hp Hx. rewrite (run_store _ _ (next_version x)).
  - do 2 f_equal. simpl. by rewrite Hx.
  - unfold next_c. by erewrite peek_field.
Qed.

Definition set_retired (r : list Z) (s : state) : state :=
  mkState (clock s) (heap s) (ptrs s) (local_stamp s) (done_stamp s) r.

(** the old link is retired, or the pointer is redirected where it already
    points *)
Lemma run_drop_old s n old new : ptrs s !! n = Some new →
  (is_indirect old = true → strip_indirect old ≠ 0 ∧
     ∃ x, heap s !! strip_indirect old = Some x ∧ is_Some (value x)) →
  ∃ r, run (when (is_indirect old)
    (val ← load (ptr_c n);
     old_val ← load (value_c (strip_indirect old));
     if negb (val =? old_val) then retire (strip_indirect old)
     else atomic.cam (ptr_c n) val new)) s = Ok tt (set_retired r s).
Proof.
  intros Hn Hold. destruct (is_indirect old); cbn [when]; [|exists (retired s); by destruct s].
  destruct Hold as (H0 & x & Hx & v & Hv); [done|].
  rewrite run_bind, (run_ptr _ _ new) by done.
  rewrite run_bind, (run_load _ _ v) by (unfold value_c; erewrite peek_field by done; by rewrite Hv).
  destruct (new =? v); cbn [negb].
  - rewrite (run_cam _ _ new) by done. exists (retired s). do 2 f_equal.
    unfold set_ptrs, set_retired. by rewrite insert_id.
  - by exists (strip_indirect old :: retired s).
Qed.

Section store.
Context (s : state) (tid n : nat) (ptr old_v t : Z) (c' : C).
Context (alloc_fresh : fresh_in (heap s)).
Context (Hwf : wf s) (Hn : ptrs s !! n = Some old_v) (Hobj : is_object (heap s) ptr).
Context (Hwr : run (get_write_stamp tid) (clock s) = Ok t c') (Ht : t ≠ tbd).

#[local] Abbreviation l := (alloc (heap s)).

Lemma old_link : is_indirect old_v = true → strip_indirect old_v ≠ 0 ∧
  ∃ x, heap s !! strip_indirect old_v = Some x ∧ is_Some (value x).
Proof.
  intros Hi. destruct (wf_ptrs s Hwf n old_v Hn) as [->|(x & Hx & _ & H0 & Hv)]; [done|].
  split; [done|]. exists x. eauto.
Qed.

(** storing an object that was never recorded *)
Lemma run_store_direct x : ptr ≠ 0 → heap s !! ptr = Some x → time_stamp x = tbd →
  ∃ r, run (store_ get_write_stamp alloc tid n ptr) s =
    Ok tt (mkState c' (<[ptr := mkVersioned t old_v (value x)]> (heap s)) (<[n := ptr]> (ptrs s))
             (local_stamp s) (done_stamp s) r).
Proof.
  intros Hp Hx Hx'. pose proof (proj2 (wf_addr s Hwf _ _ Hx)) as Hal.
  assert (value x = None) as Hnone by (destruct Hobj as [?|(x' & Hx1 & ?)]; [done|congruence]).
  unfold store_. rewrite run_bind, (run_ptr _ _ old_v) by done.
  rewrite run_bind, run_use_indirect by first [done | by apply Hobj | intros ?? Hq; by destruct (wf_addr s Hwf _ _ Hq)].
  rewrite Hx, Hx', Z.eqb_refl. cbn [negb].
  rewrite run_bind. unfold make_version. rewrite run_bind, (run_store_next _ _ x) by done.
  cbn [run mret prog_ret]. rewrite run_bind, (run_cam _ _ old_v) by done. rewrite run_bind.
  match goal with |- context [run (when _ _) ?st] =>
    destruct (run_drop_old st n old_v ptr) as [r ->] end.
  { simpl. by rewrite lookup_insert_eq. }
  { intros Hi. destruct (old_link Hi) as (H0 & y & Hy & Hyv). split; [done|]. simpl.
    destruct (decide (ptr = strip_indirect old_v)) as [Heq|].
    - assert (x = y) as <- by congruence. rewrite Hnone in Hyv. by destruct Hyv.
    - rewrite lookup_insert_ne by done. eauto. }
  rewrite run_bind. erewrite run_set_stamp; [|done| |simpl; rewrite strip_aligned by done;
    by rewrite lookup_insert_eq|done|done]; [|by rewrite strip_aligned].
  exists r. cbn [when run]. do 2 f_equal. simpl. rewrite strip_aligned by done.
  unfold set_heap, with_stamp; simpl. by rewrite insert_insert_eq.
Qed.

(** storing null or an object that was recorded before goes through a link *)
Lemma run_store_indirect :
  (∀ x, heap s !! ptr = Some x → time_stamp x ≠ tbd) →
  ∃ r, run (store_ get_write_stamp alloc tid n ptr) s =
    Ok tt (mkState c' (<[l := mkVersioned t old_v (Some ptr)]> (heap s))
             (<[n := if t <=? done_stamp s then ptr else add_indirect l]> (ptrs s))
             (local_stamp s) (done_stamp s) r).
Proof.
  intros Hst. destruct alloc_fresh as (Hf & Hl0 & Hal).
  unfold store_. rewrite run_bind, (run_ptr _ _ old_v) by done.
  rewrite run_bind, run_use_indirect by first [done | by apply Hobj | intros ?? Hq; by destruct (wf_addr s Hwf _ _ Hq)].
  replace (match heap s !! ptr with Some x => negb (time_stamp x =? tbd) | None => true end) with true
    by (destruct (heap s !! ptr) as [x|] eqn:E; [|done]; specialize (Hst x eq_refl);
        by rewrite (proj2 (Z.eqb_neq _ _) Hst)).
  rewrite run_bind. unfold make_version. rewrite run_bind, run_new_link.
  cbn [run mret prog_ret]. rewrite run_bind, (run_cam _ _ old_v) by done. rewrite run_bind.
  match goal with |- context [run (when _ _) ?st] =>
    destruct (run_drop_old st n old_v (add_indirect l)) as [r ->] end.
  { simpl. by rewrite lookup_insert_eq. }
  { intros Hi. destruct (old_link Hi) as (H0 & y & Hy & Hyv). split; [done|]. simpl.
    exists y. rewrite lookup_insert_ne by congruence. done. }
  assert (add_indirect l ≠ 0) as Ha0.
  { rewrite add_indirect_aligned by done. destruct Hal as [[]]. lia. }
  rewrite run_bind. erewrite run_set_stamp; [|done| |simpl; rewrite strip_add by done;
    by rewrite lookup_insert_eq|done|done]; try by rewrite strip_add.
  cbn [when]. erewrite run_shortcut; [|exact Hal|done|simpl; rewrite strip_add by done;
    by rewrite lookup_insert_eq|simpl; reflexivity|simpl; by rewrite lookup_insert_eq].
  simpl. rewrite strip_add by done. unfold with_stamp; simpl. rewrite insert_insert_eq.
  destruct (t <=? done_stamp s); eexists; [|done]. do 2 f_equal. by rewrite insert_insert_eq.
Qed.
End store.

(** *** What a store or a successful cas does to the past and the present *)
Record adds_version (s : state) (n : nat) (ptr old_v t : Z) (s' : state) (p' : Z) : Prop := {
  av_wf : wf s';
  av_ptr : ptrs s' !! n = Some p';
  av_others : ∀ m, m ≠ n → ptrs s' !! m = ptrs s !! m;
  av_now : points_to (heap s') p' ptr;
  av_before : ∀ k ls v, value_at k (heap s) ls old_v = Some v → done_stamp s ≤ ls < t →
    value_at (Datatypes.S k) (heap s') ls p' = Some v;
  av_after : ∀ k ls, t ≤ ls → value_at (Datatypes.S k) (heap s') ls p' = Some ptr;
  av_past : ∀ m q k ls v, ptrs s !! m = Some q → value_at k (heap s) ls q = Some v →
    value_at k (heap s') ls q = Some v;
}.

Section adds.
Context (s : state) (n : nat) (ptr old_v t : Z) (c' : C) (r : list Z).
Context (alloc_fresh : fresh_in (heap s)).
Context (Hwf : wf s) (Hn : ptrs s !! n = Some old_v) (Hobj : is_object (heap s) ptr).
Context (Ht : t ≠ tbd).
Context (Hle : ∀ p x, heap s !! p = Some x → time_stamp x = tbd ∨ time_stamp x ≤ t).
#[local] Abbreviation l := (alloc (heap s)).

Lemma wf_insert a y h' (m : gmap nat Z) :
  a ≠ 0 → aligned a → time_stamp y ≠ tbd → (∀ x, heap s !! a = Some x → time_stamp x = tbd) →
  h' = <[a := y]> (heap s) →
  (∀ k p, m !! k = Some p → ptrs s !! k = Some p ∨ p = 0 ∨
     ∃ x, h' !! strip_indirect p = Some x ∧ time_stamp x ≠ tbd ∧ strip_indirect p ≠ 0 ∧
          (is_indirect p = true → is_Some (value x))) →
  wf (mkState c' h' m (local_stamp s) (done_stamp s) r).
Proof.
  intros Ha Hal Hy Htbd -> Hm. split; simpl.
  - intros p x. destruct (decide (a = p)) as [->|]; [done|].
    rewrite lookup_insert_ne by done. apply (wf_addr s Hwf).
  - intros k p Hk. destruct (Hm k p Hk) as [Hk'|H]; [|exact H].
    destruct (wf_ptrs s Hwf k p Hk') as [|(x & Hx & Hst & H0 & Hv)]; [by left|right].
    exists x. rewrite lookup_insert_ne; [done|]. intros ->. by apply Hst, Htbd.
Qed.

Lemma adds_direct x : ptr ≠ 0 → heap s !! ptr = Some x → time_stamp x = tbd →
  adds_version s n ptr old_v t
    (mkState c' (<[ptr := mkVersioned t old_v (value x)]> (heap s)) (<[n := ptr]> (ptrs s))
             (local_stamp s) (done_stamp s) r) ptr.
Proof.
  intros Hp Hx Hx'. pose proof (proj2 (wf_addr s Hwf _ _ Hx)) as Hal.
  split; simpl.
  - eapply (wf_insert ptr (mkVersioned t old_v (value x))); [done|done|done| |done|].
    { intros. by simplify_eq. }
    intros k p [[-> <-]|[_ Hk]]%lookup_insert_Some; [right; right|by left].
    rewrite strip_aligned, is_indirect_aligned by done. rewrite lookup_insert_eq. by eexists.
  - by rewrite lookup_insert_eq.
  - intros. by rewrite lookup_insert_ne.
  - unfold points_to. by rewrite is_indirect_aligned, strip_aligned.
  - intros k ls v Hv [_ Hls]. rewrite (proj2 (Z.eqb_neq _ _) Hp), strip_aligned by done.
    rewrite lookup_insert_eq. simpl. rewrite (proj2 (Z.eqb_neq _ _) Ht), (proj2 (Z.ltb_lt _ _) Hls).
    apply value_at_frame; [|done]. intros. by simplify_eq.
  - intros k ls Hls. rewrite (proj2 (Z.eqb_neq _ _) Hp), strip_aligned by done.
    rewrite lookup_insert_eq. simpl. rewrite (proj2 (Z.eqb_neq _ _) Ht), (proj2 (Z.ltb_ge _ _) Hls).
    by rewrite is_indirect_aligned.
  - intros m q k ls v _ Hv. apply value_at_frame; [|done]. intros. by simplify_eq.
Qed.

Lemma adds_indirect : (∀ x, heap s !! ptr = Some x → time_stamp x ≠ tbd) →
  adds_version s n ptr old_v t
    (mkState c' (<[l := mkVersioned t old_v (Some ptr)]> (heap s))
             (<[n := if t <=? done_stamp s then ptr else add_indirect l]> (ptrs s))
             (local_stamp s) (done_stamp s) r)
    (if t <=? done_stamp s then ptr else add_indirect l).
Proof.
  intros Hst. destruct alloc_fresh as (Hf & Hl0 & Hal).
  assert (add_indirect l ≠ 0) as Ha0.
  { rewrite add_indirect_aligned by done. destruct Hal as [[]]. lia. }
  assert (ptr = 0 ∨ ∃ x, ptr ≠ 0 ∧ aligned ptr ∧ heap s !! ptr = Some x ∧ value x = None
           ∧ time_stamp x ≠ tbd ∧ time_stamp x ≤ t ∧ ptr ≠ l) as Hptr.
  { destruct Hobj as [|(x & Hx & Hvx)]; [by left|right]. exists x.
    destruct (wf_addr s Hwf _ _ Hx), (Hle _ _ Hx); try congruence.
    - by destruct (Hst _ Hx).
    - split_and!; try done; [by apply Hst|congruence]. }
  split; simpl.
  - eapply (wf_insert l (mkVersioned t old_v (Some ptr))); [done|done|done|congruence|done|].
    intros k p [[-> <-]|[_ Hk]]%lookup_insert_Some; [right|by left].
    destruct (t <=? _).
    + destruct Hptr as [|(x & Hp & Ha & Hx & Hvx & Hts & _ & Hpl)]; [by left|right].
      rewrite strip_aligned, is_indirect_aligned by done. rewrite lookup_insert_ne by done.
      by exists x.
    + right. rewrite strip_add by done. rewrite lookup_insert_eq. by eexists.
  - by rewrite lookup_insert_eq.
  - intros. by rewrite lookup_insert_ne.
  - unfold points_to. destruct (t <=? _).
    + destruct Hptr as [->|(x & Hp & Ha & _)]; [done|].
      by rewrite is_indirect_aligned, strip_aligned.
    + rewrite is_indirect_add, strip_add by done. rewrite lookup_insert_eq. by eexists.
  - intros k ls v Hv [Hd Hls]. rewrite (proj2 (Z.leb_gt t (done_stamp s))) by lia.
    rewrite (proj2 (Z.eqb_neq _ _) Ha0), strip_add by done.
    rewrite lookup_insert_eq. simpl. rewrite (proj2 (Z.eqb_neq _ _) Ht), (proj2 (Z.ltb_lt _ _) Hls).
    apply value_at_frame; [|done]. congruence.
  - intros k ls Hls. destruct (t <=? _).
    + destruct Hptr as [->|(x & Hp & Ha & Hx & _ & Hts & Hxt & Hpl)]; [done|].
      rewrite (proj2 (Z.eqb_neq _ _) Hp), strip_aligned, is_indirect_aligned by done.
      rewrite lookup_insert_ne, Hx by done.
      rewrite (proj2 (Z.eqb_neq _ _) Hts), (proj2 (Z.ltb_ge _ _)) by lia. done.
    + rewrite (proj2 (Z.eqb_neq _ _) Ha0), strip_add, is_indirect_add by done.
      rewrite lookup_insert_eq. simpl.
      by rewrite (proj2 (Z.eqb_neq _ _) Ht), (proj2 (Z.ltb_ge _ _) Hls).
  - intros m q k ls v _ Hv. apply value_at_frame; [|done]. congruence.
Qed.
End adds.

(** *** Reading *)
Lemma run_get_ptr s p v : wf s → points_to (heap s) p v → run (get_ptr p) s = Ok v s.
Proof.
  intros Hwf. unfold points_to, get_ptr. destruct (is_indirect p); cbn [negb].
  - intros (x & Hx & Hv). apply run_load. unfold value_c. erewrite peek_field; [by rewrite Hv| |done].
    by apply (wf_addr s Hwf) in Hx as [? _].
  - by intros <-.
Qed.

Lemma run_set_stamp_done s tid p : p = 0 ∨ (strip_indirect p ≠ 0 ∧
    ∃ x, heap s !! strip_indirect p = Some x ∧ time_stamp x ≠ tbd) →
  run (set_stamp get_write_stamp tid p) s = Ok p s.
Proof.
  intros [->|(H0 & x & Hx & Ht)]; [done|]. unfold set_stamp. rewrite run_bind.
  destruct (p =? 0); [done|]. cbn [negb]. rewrite run_bind, (run_ts _ _ x) by done.
  by rewrite (proj2 (Z.eqb_neq _ _) Ht).
Qed.

Lemma wf_stamped s n p : wf s → ptrs s !! n = Some p → p = 0 ∨ (strip_indirect p ≠ 0 ∧
    ∃ x, heap s !! strip_indirect p = Some x ∧ time_stamp x ≠ tbd).
Proof. intros Hwf Hn. destruct (wf_ptrs s Hwf n p Hn) as [|(x & Hx & Ht & H0 & _)]; eauto 10. Qed.

(** the chase ends at a version that the snapshot may see, and so does that of
    a snapshot one stamp earlier unless that version has the very stamp *)
Definition found (s : state) (ls head v : Z) : Prop :=
  run (version_value head) s = Ok v s ∧
  (head ≠ 0 → ∃ x, strip_indirect head ≠ 0 ∧ heap s !! strip_indirect head = Some x ∧ time_stamp x ≤ ls).

Lemma run_chase ls s p v k fuel : wf s → value_at k (heap s) ls p = Some v → (k ≤ fuel)%nat →
  ∃ head, run (iter fuel (λ head,
    if head =? 0 then mret (inr head)
    else
      t ← load (ts_c (strip_indirect head));
      if Z.ltb ls t then h ← load (next_c (strip_indirect head)); mret (inl h)
      else mret (inr head)) p) s = Ok head s ∧ found s ls head v ∧
    ((∃ x, head ≠ 0 ∧ heap s !! strip_indirect head = Some x ∧ time_stamp x = ls) ∨
     value_at k (heap s) (ls - 1) p = Some v).
Proof.
  intros Hwf. revert p fuel. induction k as [|k IH]; intros p [|fuel] Hv Hk; [done|done|lia|].
  simpl in Hv. cbn [iter]. rewrite run_bind. cbn [value_at].
  destruct (Z.eqb_spec p 0) as [->|Hp].
  { injection Hv as <-. exists 0. split; [done|]. split; [by split|by right]. }
  destruct (heap s !! strip_indirect p) as [x|] eqn:Hx; [|done].
  destruct (wf_addr s Hwf _ _ Hx) as [H0 _].
  rewrite run_bind, (run_ts _ _ x) by done. destruct (time_stamp x =? tbd); [done|].
  destruct (Z.ltb_spec ls (time_stamp x)) as [Hlt|Hge].
  - rewrite run_bind, (run_load _ _ (next_version x)) by (unfold next_c; by erewrite peek_field).
    cbn [run mret prog_ret]. rewrite (proj2 (Z.ltb_lt (ls - 1) _)) by lia. apply IH; [done|lia].
  - cbn [run mret prog_ret]. exists p. split; [done|]. split.
    + split; [|intros _; by exists x]. unfold version_value.
      destruct (is_indirect p); [|by injection Hv as <-].
      apply run_load. unfold value_c. erewrite peek_field by done. by rewrite Hv.
    + destruct (Z.eq_dec (time_stamp x) ls); [left; by exists x|right].
      by rewrite (proj2 (Z.ltb_ge _ _)) by lia.
Qed.

Lemma run_find_version ls s tid n p v k fuel : wf s → ptrs s !! n = Some p →
  value_at k (heap s) ls p = Some v → (k ≤ fuel)%nat →
  ∃ head, run (find_version Z.ltb get_write_stamp fuel tid n ls) s = Ok head s ∧ found s ls head v ∧
    ((∃ x, head ≠ 0 ∧ heap s !! strip_indirect head = Some x ∧ time_stamp x = ls) ∨
     value_at k (heap s) (ls - 1) p = Some v).
Proof.
  intros Hwf Hn Hv Hk. unfold find_version. rewrite run_bind, (run_ptr _ _ p) by done.
  rewrite run_bind, run_set_stamp_done by (by apply (wf_stamped _ n)). by apply run_chase.
Qed.

(** with LazyStamp, run alone: the same value, and [aborted] is set unless the
    snapshot one stamp earlier finds it too *)
Lemma run_read_lazy z tid n p v k fuel : let s := base z in
  let ls := default (-1) (local_stamp s !! tid) in
  wf s → ptrs s !! n = Some p → value_at k (heap s) ls p = Some v → (k ≤ fuel)%nat →
  default false (speculative z !! tid) = true →
  ∃ z', run (read_snapshot_lazy Z.ltb get_write_stamp Z.eqb fuel tid n) z = Ok v z' ∧ base z' = s ∧
    (default false (aborted z' !! tid) = true ∨ value_at k (heap s) (ls - 1) p = Some v).
Proof.
  intros s ls Hwf Hn Hv Hk Hsp.
  destruct (run_find_version ls s tid n p v k fuel) as (head & Hrun & [Hval Hst] & Hor); [done..|].
  assert (set_base s z = z) as Hz by by destruct z.
  unfold read_snapshot_lazy. rewrite run_bind, (run_base_load _ _ ls) by done.
  rewrite run_bind, run_base. change (base z) with s. rewrite Hrun, Hz. rewrite run_bind.
  destruct (Z.eqb_spec head 0) as [->|Hh]; cbn [negb when].
  - cbn [run mret prog_ret]. rewrite run_base. change (base z) with s. rewrite Hval, Hz. exists z.
    split; [done|]. split; [done|]. right. destruct Hor as [(x & ? & _)|?]; [done|exact H].
  - destruct (Hst Hh) as (x & H0 & Hx & _). rewrite run_bind.
    rewrite (run_base_load _ _ (time_stamp x)) by (unfold ts_c; by erewrite peek_field).
    rewrite run_abort_test, run_base. cbn [base after_abort_test]. change (base z) with s. rewrite Hval.
    eexists. split; [done|]. split; [done|]. destruct Hor as [(x' & _ & Hx' & Heq)|?]; [left|by right].
    assert (x' = x) as -> by congruence. simpl. fold ls. rewrite (proj2 (Z.eqb_eq _ _) Heq), Hsp. simpl. by rewrite lookup_insert_eq.
Qed.

(** *** cas, run alone *)
Section cas.
Context (s : state) (tid n : nat) (exp ptr old_v t : Z) (c' : C).
Context (alloc_fresh : fresh_in (heap s)).
Context (Hwf : wf s) (Hn : ptrs s !! n = Some old_v) (Hobj : is_object (heap s) ptr).
Context (Hwr : run (get_write_stamp tid) (clock s) = Ok t c') (Ht : t ≠ tbd).
Context (Hnow : points_to (heap s) old_v exp) (Hne : exp ≠ ptr).
#[local] Abbreviation l := (alloc (heap s)).
#[local] Abbreviation retired' :=
  (if is_indirect old_v then strip_indirect old_v :: retired s else retired s).

Lemma run_cas_direct x : ptr ≠ 0 → heap s !! ptr = Some x → time_stamp x = tbd →
  run (cas_ get_write_stamp alloc tid n exp ptr) s =
    Ok true (mkState c' (<[ptr := mkVersioned t old_v (value x)]> (heap s)) (<[n := ptr]> (ptrs s))
             (local_stamp s) (done_stamp s) retired').
Proof.
  intros Hp Hx Hx'. pose proof (proj2 (wf_addr s Hwf _ _ Hx)) as Hal.
  unfold cas_. rewrite run_bind, (run_ptr _ _ old_v) by done.
  rewrite run_bind, (run_get_ptr _ _ exp) by done.
  rewrite run_bind, run_set_stamp_done by (by apply (wf_stamped _ n)).
  rewrite Z.eqb_refl. cbn [negb]. rewrite (proj2 (Z.eqb_neq _ _) Hne).
  rewrite run_bind, run_use_indirect by first [done | by apply Hobj | intros ?? Hq; by destruct (wf_addr s Hwf _ _ Hq)].
  rewrite Hx, Hx', Z.eqb_refl. cbn [negb].
  rewrite run_bind. unfold make_version. rewrite run_bind, (run_store_next _ _ x) by done.
  cbn [run mret prog_ret]. rewrite run_bind. unfold cas_from_cam, atomic.cas.
  rewrite run_bind, (run_ptr _ _ old_v) by done. rewrite decide_True by done.
  rewrite (run_cas _ _ old_v) by (simpl; by rewrite Hn). rewrite decide_True by done.
  rewrite run_bind. cbn [run mret prog_ret negb andb].
  rewrite run_bind. erewrite run_set_stamp; [|done| |simpl; rewrite strip_aligned by done;
    by rewrite lookup_insert_eq|done|done]; [|by rewrite strip_aligned].
  rewrite run_bind. simpl. rewrite (strip_aligned ptr) by done. unfold with_stamp; simpl.
  rewrite insert_insert_eq. by destruct (is_indirect old_v).
Qed.

Lemma run_cas_indirect : (∀ x, heap s !! ptr = Some x → time_stamp x ≠ tbd) →
  ∃ r, run (cas_ get_write_stamp alloc tid n exp ptr) s =
    Ok true (mkState c' (<[l := mkVersioned t old_v (Some ptr)]> (heap s))
             (<[n := if t <=? done_stamp s then ptr else add_indirect l]> (ptrs s))
             (local_stamp s) (done_stamp s) r).
Proof.
  intros Hst. destruct alloc_fresh as (Hf & Hl0 & Hal).
  unfold cas_. rewrite run_bind, (run_ptr _ _ old_v) by done.
  rewrite run_bind, (run_get_ptr _ _ exp) by done.
  rewrite run_bind, run_set_stamp_done by (by apply (wf_stamped _ n)).
  rewrite Z.eqb_refl. cbn [negb]. rewrite (proj2 (Z.eqb_neq _ _) Hne).
  rewrite run_bind, run_use_indirect by first [done | by apply Hobj | intros ?? Hq; by destruct (wf_addr s Hwf _ _ Hq)].
  replace (match heap s !! ptr with Some x => negb (time_stamp x =? tbd) | None => true end) with true
    by (destruct (heap s !! ptr) as [x|] eqn:E; [|done]; specialize (Hst x eq_refl);
        by rewrite (proj2 (Z.eqb_neq _ _) Hst)).
  rewrite run_bind. unfold make_version. rewrite run_bind, run_new_link.
  cbn [run mret prog_ret]. rewrite run_bind. unfold cas_from_cam, atomic.cas.
  rewrite run_bind, (run_ptr _ _ old_v) by done. rewrite decide_True by done.
  rewrite (run_cas _ _ old_v) by (simpl; by rewrite Hn). rewrite decide_True by done.
  rewrite run_bind. cbn [run mret prog_ret negb andb].
  assert (add_indirect l ≠ 0) as Ha0.
  { rewrite add_indirect_aligned by done. destruct Hal as [[]]. lia. }
  rewrite run_bind. erewrite run_set_stamp; [|done| |simpl; rewrite strip_add by done;
    by rewrite lookup_insert_eq|done|done]; [|by rewrite strip_add].
  rewrite run_bind. rewrite strip_add by done. unfold with_stamp.
  match goal with |- context [run (when _ (retire _)) ?st] =>
    assert (∃ r, run (when (is_indirect old_v) (retire (strip_indirect old_v))) st
                 = Ok tt (set_retired r st)) as [r ->] end.
  { destruct (is_indirect old_v); eexists; reflexivity. }
  rewrite run_bind. cbn [when]. erewrite run_shortcut; [|exact Hal|done|simpl;
    by rewrite lookup_insert_eq|simpl; reflexivity|simpl; by rewrite lookup_insert_eq].
  simpl. rewrite insert_insert_eq.
  destruct (t <=? done_stamp s); eexists; [|done]. do 2 f_equal. by rewrite insert_insert_eq.
Qed.
End cas.

(** C10: Storing through a versioned pointer keeps the past and sets the present
    (versioned_hybrid.h, [store]).  Run alone from a well-formed state, with a
    clock that gives a stamp not below those already set, [store] finishes
    without an error and leaves a well-formed state in which the pointer stands
    for the new object; a snapshot older than the store finds what it found
    before it, a later one finds the new object, other pointers and what
    snapshots find from them are unchanged.  This holds for objects that are
    recorded once (stored directly) and for null and objects that are recorded
    again (stored through a link), whether or not the link is shortcut. *)
Theorem store_adds_version s tid n ptr old_v t c' :
  wf s → fresh_in (heap s) → ptrs s !! n = Some old_v → is_object (heap s) ptr →
  run (get_write_stamp tid) (clock s) = Ok t c' → t ≠ tbd →
  (∀ p x, heap s !! p = Some x → time_stamp x = tbd ∨ time_stamp x ≤ t) →
  ∃ s' p', run (store_ get_write_stamp alloc tid n ptr) s = Ok tt s'
    ∧ adds_version s n ptr old_v t s' p'.
Proof.
  intros Hwf Hfr Hn Hobj Hwr Ht Hle.
  destruct (recorded_or_not (heap s) ptr) as [(x & Hx & Hx')|Hst].
  - destruct (wf_addr s Hwf _ _ Hx) as [Hp _].
    edestruct (run_store_direct s tid n ptr old_v t c') as [r Hr]; [done..|].
    eexists _, _. split; [exact Hr|]. by apply adds_direct.
  - edestruct (run_store_indirect s tid n ptr old_v t c') as [r Hr]; [done..|].
    eexists _, _. split; [exact Hr|]. by apply adds_indirect.
Qed.

(** C22: Compare-and-swap on a versioned pointer (versioned_hybrid.h, [cas]).  Run
    alone, [cas] returns false and changes nothing when the pointer does not
    stand for [exp]; it returns true and changes nothing when [exp] is the new
    object; otherwise it returns true and adds a version as [store] does. *)
Theorem cas_correct s tid n old exp ptr old_v t c' :
  wf s → fresh_in (heap s) → ptrs s !! n = Some old_v → points_to (heap s) old_v old → is_object (heap s) ptr →
  run (get_write_stamp tid) (clock s) = Ok t c' → t ≠ tbd →
  (∀ p x, heap s !! p = Some x → time_stamp x = tbd ∨ time_stamp x ≤ t) →
  if decide (old ≠ exp) then run (cas_ get_write_stamp alloc tid n exp ptr) s = Ok false s
  else if decide (exp = ptr) then run (cas_ get_write_stamp alloc tid n exp ptr) s = Ok true s
  else ∃ s' p', run (cas_ get_write_stamp alloc tid n exp ptr) s = Ok true s'
    ∧ adds_version s n ptr old_v t s' p'.
Proof.
  intros Hwf Hfr Hn Hnow Hobj Hwr Ht Hle. repeat case_decide.
  - unfold cas_. rewrite run_bind, (run_ptr _ _ old_v) by done.
    rewrite run_bind, (run_get_ptr _ _ old) by done.
    rewrite run_bind, run_set_stamp_done by (by apply (wf_stamped _ n)).
    by rewrite (proj2 (Z.eqb_neq _ _)).
  - unfold cas_. rewrite run_bind, (run_ptr _ _ old_v) by done.
    rewrite run_bind, (run_get_ptr _ _ old) by done.
    rewrite run_bind, run_set_stamp_done by (by apply (wf_stamped _ n)).
    rewrite (proj2 (Z.eqb_eq old exp)) by (destruct (decide (old = exp)); tauto).
    cbn [negb]. by rewrite (proj2 (Z.eqb_eq _ _)).
  - assert (old = exp) as -> by (destruct (decide (old = exp)); tauto).
    destruct (recorded_or_not (heap s) ptr) as [(x & Hx & Hx')|Hst].
    + destruct (wf_addr s Hwf _ _ Hx) as [Hp _].
      eexists _, _. split; [by eapply run_cas_direct|]. by apply adds_direct.
    + destruct (run_cas_indirect s tid n exp ptr old_v t c') as [r Hr]; [done..|].
      eexists _, _. split; [exact Hr|]. by apply adds_indirect.
Qed.

(** C23: Reading (versioned_hybrid.h, [load] and [read_snapshot]).  Inside a
    snapshot, [load] walks the versions back to the value of the snapshot's
    stamp, needs no more rounds than there are versions and changes nothing;
    outside, it returns the object the pointer stands for, which it goes on to
    stand for when the link was shortcut.  In a speculative snapshot
    (LazyStamp) it returns the same value and sets [aborted], unless a snapshot
    one stamp earlier finds that value too. *)
Theorem load_correct s fuel tid n p v k : wf s → ptrs s !! n = Some p →
  let ls := default (-1) (local_stamp s !! tid) in
  (ls ≠ -1 → value_at k (heap s) ls p = Some v → (k ≤ fuel)%nat →
     run (load_ Z.ltb get_write_stamp fuel tid n) s = Ok v s)
  ∧ (ls = -1 → is_object (heap s) v → points_to (heap s) p v →
     ∃ s' p', run (load_ Z.ltb get_write_stamp fuel tid n) s = Ok v s' ∧ heap s' = heap s
       ∧ ptrs s' !! n = Some p' ∧ points_to (heap s') p' v
       ∧ ∀ m, m ≠ n → ptrs s' !! m = ptrs s !! m)
  ∧ (ls ≠ -1 → value_at k (heap s) ls p = Some v → (k ≤ fuel)%nat →
     ∀ z, base z = s → default false (speculative z !! tid) = true →
     ∃ z', run (read_snapshot_lazy Z.ltb get_write_stamp Z.eqb fuel tid n) z = Ok v z' ∧ base z' = s ∧
       (default false (aborted z' !! tid) = true ∨ value_at k (heap s) (ls - 1) p = Some v)).
Proof.
  intros Hwf Hn ls. unfold load_. split; [|split].
  - intros Hls Hv Hk. rewrite run_bind. change (run (load (local_stamp_c tid)) s) with (Ok ls s).
    cbv beta iota. rewrite (proj2 (Z.eqb_neq _ _) Hls). cbn [negb].
    unfold read_snapshot. rewrite run_bind. change (run (load (local_stamp_c tid)) s) with (Ok ls s).
    destruct (run_find_version ls s tid n p v k fuel) as (head & Hrun & [Hval _] & _); [done..|].
    cbv beta iota. by rewrite run_bind, Hrun.
  - intros Hls Hobj Hv. rewrite run_bind. change (run (load (local_stamp_c tid)) s) with (Ok ls s).
    cbv beta iota. rewrite Hls. change (negb (-1 =? -1)) with false. cbv iota.
    rewrite run_bind, (run_ptr _ _ p) by done.
    rewrite run_bind, run_set_stamp_done by (by apply (wf_stamped _ n)).
    unfold get_ptr_shortcut. pose proof Hv as Hv'. unfold points_to in Hv'.
    destruct (is_indirect p) eqn:Hi; cbn [negb].
    2:{ rewrite Hv'. by exists s, p. }
    destruct Hv' as (x & Hx & Hxv). destruct (wf_addr s Hwf _ _ Hx) as [H0 _].
    rewrite run_bind, (run_shortcut_at _ _ _ x v) by done.
    assert (∀ s', heap s' = heap s → run (load (value_c (strip_indirect p))) s' = Ok v s') as Hld.
    { intros s' Hs'. apply run_load. unfold value_c. erewrite peek_field; [by rewrite Hxv|done|].
      by rewrite Hs'. }
    rewrite Hld by (by destruct (_ <=? _)).
    destruct (_ <=? _); eexists; [exists v|exists p]; split_and!; try done; simpl.
    + by rewrite lookup_insert_eq.
    + destruct Hobj as [->|(y & Hy & _)]; [done|]. destruct (wf_addr s Hwf _ _ Hy) as [_ Ha].
      unfold points_to. by rewrite is_indirect_aligned, strip_aligned.
    + intros. by rewrite lookup_insert_ne.
  - intros _ Hv Hk z <- Hsp. by apply run_read_lazy.
Qed.
End spec.

(** ** Witnesses: two objects, one not yet recorded; clock [timestamp_read] *)
Module example.
Definition wr (tid : nat) : prog timestamp_read.state Z := timestamp_read.get_write_stamp tid.
Definition alloc (h : gmap Z versioned) : Z := 2 * next_addr h.
Definition heap0 : gmap Z versioned :=
  {[ 16 := mkVersioned 3 0 None; 32 := mkVersioned tbd 0 None ]}.
(** pointer 0 holds the object 16; thread 0 is in a snapshot at 4 *)
Definition s0 : state timestamp_read.state :=
  mkState (timestamp_read.State 5 0 ∅) heap0 {[ 0%nat := 16; 1%nat := 0 ]} {[ 0%nat := 4 ]} 3 [].

Lemma heap0_cases p x : heap0 !! p = Some x →
  (p = 16 ∧ x = mkVersioned 3 0 None) ∨ (p = 32 ∧ x = mkVersioned tbd 0 None).
Proof.
  unfold heap0. intros [[<- <-]|[_ [<- <-]%lookup_singleton_Some]]%lookup_insert_Some; auto.
Qed.

Lemma s0_wf : wf s0.
Proof.
  split; simpl.
  - intros p x [[-> ->]|[-> ->]]%heap0_cases; by vm_compute.
  - intros n p [[<- <-]|[_ [<- <-]%lookup_singleton_Some]]%lookup_insert_Some; [right|by left].
    exists (mkVersioned 3 0 None). by vm_compute.
Qed.

Lemma s0_stamps p x : heap s0 !! p = Some x → time_stamp x = tbd ∨ time_stamp x ≤ 5.
Proof. intros [[-> ->]|[-> ->]]%heap0_cases; [right|by left]. simpl. lia. Qed.

Lemma s0_fresh : fresh_in alloc (heap s0).
Proof. by vm_compute. Qed.
End example.

Lemma store_adds_version_witness : ∃ s' p',
  run (store_ example.wr example.alloc 0 0 32) example.s0 = Ok tt s' ∧
  adds_version example.s0 0 32 16 5 s' p'.
Proof.
  apply (store_adds_version example.wr example.alloc example.s0 0 0 32 16 5
           (timestamp_read.State 5 0 ∅)).
  - exact example.s0_wf.
  - exact example.s0_fresh.
  - reflexivity.
  - right. exists (mkVersioned tbd 0 None). split; reflexivity.
  - reflexivity.
  - discriminate.
  - exact example.s0_stamps.
Defined.

Lemma cas_correct_witness : ∃ s' p',
  run (cas_ example.wr example.alloc 0 0 16 0) example.s0 = Ok true s' ∧
  adds_version example.s0 0 0 16 5 s' p'.
Proof.
  apply (cas_correct example.wr example.alloc example.s0 0 0 16 16 0 16 5
           (timestamp_read.State 5 0 ∅)).
  - exact example.s0_wf.
  - exact example.s0_fresh.
  - reflexivity.
  - reflexivity.
  - by left.
  - reflexivity.
  - discriminate.
  - exact example.s0_stamps.
Defined.

Lemma load_correct_witness :
  run (load_ Z.ltb example.wr 9 0 0) example.s0 = Ok 16 example.s0.
Proof.
  apply (load_correct example.wr example.s0 9 0 0 16 16 1 example.s0_wf); [reflexivity|..].
  - discriminate.
  - reflexivity.
  - lia.
Defined.
