(* ===== verification/RecordedOnce.v ===== *)
(** * RecordedOnce: versioned pointers to objects that are recorded once
    (include/verlib/versioned_recorded_once.h), in the configuration with
    regular locks (NoHelp).

    The object itself is the version: its header has the stamp and the
    pointer to the version before, so an object may be stored to one
    versioned pointer only, and only once. *)

From stdpp Require Import prelude list gmap.
From Stdlib Require Import ZArith Lia.
From S2P Require Import Prelude Conc Timestamps Snapshot SpinLock.
Local Open Scope Z_scope.

Record versioned := mkVersioned { time_stamp : Z; next_version : Z }.
Definition bad_ptr : Z := Z.shiftl 1 48 - 1.

Record state (C : Type) := mkState {
  clock : C;
  heap : gmap Z versioned;
  ptrs : gmap nat Z;          (* the field v of each versioned_ptr *)
  local_stamp : gmap nat Z;
}.
Arguments mkState {C} _ _ _ _. Arguments clock {C} _. Arguments heap {C} _.
Arguments ptrs {C} _. Arguments local_stamp {C} _.

Section recorded_once.
Context {C : Type} (less : Z → Z → bool) (get_read_stamp get_write_stamp : nat → prog C Z).
#[local] Abbreviation state := (state C).

Definition set_clock (t : C) (s : state) : state := mkState t (heap s) (ptrs s) (local_stamp s).
Definition set_heap (h : gmap Z versioned) (s : state) : state :=
  mkState (clock s) h (ptrs s) (local_stamp s).
Definition set_local (l : gmap nat Z) (s : state) : state :=
  mkState (clock s) (heap s) (ptrs s) l.

Definition at_addr (s : state) (p : Z) : err + versioned :=
  if p =? 0 then inl NullDeref
  else match heap s !! p with Some x => inr x | None => inl UseAfterFree end.
Definition field (get : versioned → Z) (set : Z → versioned → versioned) (p : Z) : cell state Z :=
  Cell (λ s, match at_addr s p with inr x => inr (get x) | inl e => inl e end)
       (λ t s, match heap s !! p with
               | Some x => set_heap (<[p := set t x]> (heap s)) s
               | None => s
               end).
Definition ts_c : Z → cell state Z := field time_stamp (λ t x, mkVersioned t (next_version x)).
Definition next_c : Z → cell state Z := field next_version (λ n x, mkVersioned (time_stamp x) n).
Definition ptr_c (n : nat) : cell state Z :=
  Cell (λ s, match ptrs s !! n with Some p => inr p | None => inl UseAfterFree end)
       (λ p s, mkState (clock s) (heap s) (<[n := p]> (ptrs s)) (local_stamp s)).
Definition local_stamp_c (tid : nat) : cell state Z :=
  thread_local local_stamp set_local (-1) tid.

(** the constructor of versioned, at address [p] *)
Definition new_versioned (p : Z) : prog state unit :=
  modify (λ s, set_heap (<[p := mkVersioned tbd bad_ptr]> (heap s)) s).

Definition set_stamp (tid : nat) (x : Z) : prog state Z :=
  assert_ (negb (x =? 0)) ;;
  t ← load (ts_c x);
  when (t =? tbd)
    (ts ← zoom clock set_clock (get_write_stamp tid);
     t' ← load (ts_c x);
     when (t' =? tbd) (cas (ts_c x) tbd ts ;; mret tt)) ;;
  mret x.

Definition set_zero (x : Z) : prog state Z :=
  (if negb (x =? 0) then
     t ← load (ts_c x);
     when (t =? tbd) (store (ts_c x) zero_stamp)
   else mret tt) ;;
  mret x.

Definition init (n : nat) (vv : Z) : prog state unit := x ← set_zero vv; store (ptr_c n) x.

Definition read_snapshot (fuel tid n : nat) : prog state Z :=
  head ← load (ptr_c n);
  if head =? 0 then mret 0
  else
    set_stamp tid head ;;
    ls ← load (local_stamp_c tid);
    iter fuel (λ head,
      t ← load (ts_c head);
      if less ls t then h ← load (next_c head); mret (inl h) else mret (inr head)) head.

(** with LazyStamp: the test is skipped when the pointer is null *)
Definition read_snapshot_lazy (equal : Z → Z → bool) (fuel tid n : nat) : prog (lazy_state state) Z :=
  head ← on_base (read_snapshot fuel tid n);
  when (negb (head =? 0))
    (t ← load (base_c (ts_c head));
     ls ← load (base_c (local_stamp_c tid));
     abort_test equal tid t ls) ;;
  mret head.

Definition load_ (fuel tid n : nat) : prog state Z :=
  ls ← load (local_stamp_c tid);
  if negb (ls =? -1) then read_snapshot fuel tid n
  else
    head ← load (ptr_c n);
    when (negb (head =? 0)) (set_stamp tid head ;; mret tt) ;;
    mret head.

Definition read (fuel tid n : nat) : prog state Z :=
  ls ← load (local_stamp_c tid);
  if negb (ls =? -1) then read_snapshot fuel tid n else load (ptr_c n).

Definition read_cur (n : nat) : prog state Z := load (ptr_c n).

Definition validate (tid n : nat) : prog state unit :=
  head ← load (ptr_c n);
  when (negb (head =? 0)) (set_stamp tid head ;; mret tt).

Definition store_ (tid n : nat) (newv : Z) : prog state unit :=
  oldv ← load (ptr_c n);
  (if newv =? 0 then fail Abort else mret tt) ;;
  t ← load (ts_c newv);
  (if negb (t =? tbd) then fail Abort else mret tt) ;;
  no_log.skip_if_done_no_log
    (store (next_c newv) oldv ;;
     cas (ptr_c n) oldv newv ;;
     set_stamp tid newv ;;
     mret tt) ;;
  mret tt.

Definition cas_ (tid n : nat) (expv newv : Z) : prog state bool :=
  (if newv =? 0 then fail Abort else mret tt) ;;
  oldv ← load (ptr_c n);
  when (negb (oldv =? 0)) (set_stamp tid oldv ;; mret tt) ;;
  if negb (oldv =? expv) then mret false
  else if oldv =? newv then mret true
  else
    store (next_c newv) expv ;;
    b ← cas (ptr_c n) oldv newv;
    if (b : bool) then set_stamp tid newv ;; mret true
    else
      p ← load (ptr_c n);
      set_stamp tid p ;;
      mret false.

(** store when SlowStore is defined *)
Definition store_slow (fuel tid n : nat) (newv : Z) : prog state unit :=
  oldv ← load_ fuel tid n; cas_ tid n oldv newv ;; mret tt.
End recorded_once.

(** ** Properties *)
Section proofs.
Context {C : Type} (get_write_stamp : nat → prog C Z).
#[local] Abbreviation state := (state C).
Implicit Types s : state.

(** the object that a snapshot at [ls] finds from the object [p] on *)
Fixpoint value_at (k : nat) (h : gmap Z versioned) (ls p : Z) : option Z :=
  match k with
  | O => None
  | Datatypes.S k' =>
      match h !! p with
      | None => None
      | Some x => if time_stamp x =? tbd then None
                  else if ls <? time_stamp x then value_at k' h ls (next_version x)
                  else Some p
      end
  end.

Lemma value_at_once_frame h a y k ls p v : (∀ x, h !! a = Some x → time_stamp x = tbd) →
  value_at k h ls p = Some v → value_at k (<[a := y]> h) ls p = Some v.
Proof.
  intros Ha. revert p. induction k as [|k IH]; intros p; simpl; [done|].
  destruct (h !! p) as [x|] eqn:Hx; [|done]. destruct (decide (a = p)) as [->|Hne].
  - by rewrite (Ha x Hx), Z.eqb_refl.
  - rewrite lookup_insert_ne, Hx by done. destruct (time_stamp x =? tbd); [done|].
    destruct (ls <? time_stamp x); [apply IH|done].
Qed.

Lemma peek_once (get : versioned → Z) set s p x :
  p ≠ 0 → heap s !! p = Some x → peek (field get set p) s = inr (get x).
Proof. intros Hp Hx. simpl. unfold at_addr. by rewrite (proj2 (Z.eqb_neq _ _) Hp), Hx. Qed.

Lemma run_once_ts s p x : p ≠ 0 → heap s !! p = Some x → run (load (ts_c p)) s = Ok (time_stamp x) s.
Proof. intros. apply run_load. unfold ts_c. by erewrite peek_once. Qed.

Lemma run_once_ptr s n p : ptrs s !! n = Some p → run (load (ptr_c n)) s = Ok p s.
Proof. intros H. apply run_load. simpl. by rewrite H. Qed.

Lemma run_once_set_stamp s tid p x t c' : p ≠ 0 → heap s !! p = Some x → time_stamp x = tbd →
  run (get_write_stamp tid) (clock s) = Ok t c' →
  run (set_stamp get_write_stamp tid p) s =
    Ok p (set_heap (<[p := mkVersioned t (next_version x)]> (heap s)) (set_clock c' s)).
Proof.
  intros Hp Hx Ht Hwr. unfold set_stamp. rewrite (proj2 (Z.eqb_neq _ _) Hp). cbn [negb assert_].
  rewrite run_bind. cbn [run]. rewrite run_bind, (run_once_ts _ _ x) by done.
  rewrite Ht, Z.eqb_refl. cbn [when]. rewrite !run_bind, run_zoom, Hwr by (done || by intros []).
  rewrite run_bind, (run_once_ts _ _ x) by done. rewrite Ht, Z.eqb_refl. cbn [when].
  rewrite run_bind, (run_cas _ _ tbd) by (unfold ts_c; erewrite peek_once; [by rewrite <-Ht|done..]).
  rewrite decide_True by done. cbn [run mret prog_ret]. do 2 f_equal. simpl. by rewrite Hx.
Qed.

(** C26: Storing an object for the first time (versioned_recorded_once.h, [store]).
    Run alone, [store] of an object without a stamp installs it with a stamp;
    what older snapshots find from this pointer and from any other object is
    unchanged, later ones find the new object.  The premise on the old value
    is needed: see [null_then_stored]. *)
Theorem store_once_correct s tid n oldv newv x t c' :
  ptrs s !! n = Some oldv → newv ≠ 0 → heap s !! newv = Some x → time_stamp x = tbd →
  run (get_write_stamp tid) (clock s) = Ok t c' → t ≠ tbd →
  ∃ s', run (store_ get_write_stamp tid n newv) s = Ok tt s' ∧ ptrs s' = <[n := newv]> (ptrs s) ∧
    (∀ k ls, t ≤ ls → value_at (Datatypes.S k) (heap s') ls newv = Some newv) ∧
    (∀ k ls v, ls < t → value_at k (heap s) ls oldv = Some v →
       value_at (Datatypes.S k) (heap s') ls newv = Some v) ∧
    (∀ k ls p v, value_at k (heap s) ls p = Some v → value_at k (heap s') ls p = Some v).
Proof.
  intros Hn Hp Hx Hx' Hwr Ht. exists (mkState c' (<[newv := mkVersioned t oldv]> (heap s))
    (<[n := newv]> (ptrs s)) (local_stamp s)).
  assert (∀ k ls p v, value_at k (heap s) ls p = Some v →
    value_at k (<[newv := mkVersioned t oldv]> (heap s)) ls p = Some v) as Hpast.
  { intros k ls p v. apply value_at_once_frame. intros. by simplify_eq. }
  split_and!; [|done|..|done]; cbn [heap].
  - unfold store_. rewrite run_bind, (run_once_ptr _ _ oldv) by done.
    rewrite (proj2 (Z.eqb_neq _ _) Hp). rewrite run_bind. cbn [run mret prog_ret].
    rewrite run_bind, (run_once_ts _ _ x) by done. rewrite Hx', Z.eqb_refl. cbn [negb].
    rewrite run_bind. cbn [run mret prog_ret]. unfold no_log.skip_if_done_no_log.
    rewrite run_bind, run_bind, run_bind, (run_store _ _ (next_version x)) by (unfold next_c; by erewrite peek_once).
    rewrite run_bind, (run_cas _ _ oldv) by (simpl; rewrite Hx; simpl; by rewrite Hn).
    rewrite decide_True by done. rewrite run_bind.
    erewrite run_once_set_stamp; [|done|simpl; rewrite Hx; apply lookup_insert_eq|done|
      simpl; rewrite Hx; done].
    cbn [run mret prog_ret]. simpl. rewrite Hx. unfold set_heap, set_clock. simpl.
    by rewrite insert_insert_eq.
  - intros k ls Hls. simpl. rewrite lookup_insert_eq. simpl.
    by rewrite (proj2 (Z.eqb_neq _ _) Ht), (proj2 (Z.ltb_ge _ _) Hls).
  - intros k ls v Hls Hv. simpl. rewrite lookup_insert_eq. simpl.
    rewrite (proj2 (Z.eqb_neq _ _) Ht), (proj2 (Z.ltb_lt _ _) Hls). by apply Hpast.
Qed.

(** with LazyStamp a read gives what it gives without, and the test is made
    with the stamp of that version *)
Lemma run_read_once_lazy (less : Z → Z → bool) equal z fuel tid n head s x :
  run (read_snapshot less get_write_stamp fuel tid n) (base z) = Ok head s →
  head ≠ 0 → heap s !! head = Some x →
  run (read_snapshot_lazy less get_write_stamp equal fuel tid n) z =
    Ok head (after_abort_test equal tid (time_stamp x) (default (-1) (local_stamp s !! tid)) s z).
Proof.
  intros Hrun Hh Hx. unfold read_snapshot_lazy. rewrite run_bind, run_base, Hrun.
  rewrite (proj2 (Z.eqb_neq _ _) Hh). cbn [negb when].
  rewrite run_bind, run_bind, (run_base_load _ _ (time_stamp x)) by (by apply (peek_once time_stamp)).
  rewrite run_bind, (run_base_load _ _ (default (-1) (local_stamp s !! tid))) by done.
  by rewrite run_abort_test.
Qed.
End proofs.

(** ** A pointer that was null when the snapshot began

    Thread 0 stores the object 16 to a null pointer; thread 1 reads the
    pointer in a snapshot. *)
Definition rd (tid : nat) : prog timestamp_read.state Z := timestamp_read.get_read_stamp tid.
Definition wr (tid : nat) : prog timestamp_read.state Z := timestamp_read.get_write_stamp tid.
Definition start : state timestamp_read.state :=
  mkState (timestamp_read.State 1 0 ∅) {[ 16 := mkVersioned tbd bad_ptr ]} {[ 0%nat := 0 ]} ∅.
Definition writer : prog (state timestamp_read.state) Z := store_ wr 0 0 16 ;; mret 0.
Definition reader : prog (state timestamp_read.state) Z :=
  with_snapshot clock set_clock rd local_stamp_c (λ _ _ p, p) 1 (load_ Z.ltb wr 9 1 0).

(** C27: A snapshot that began before the first store to a null pointer
    dereferences null when it reads the pointer after the store: the loop of
    [read_snapshot] (versioned_recorded_once.h) walks from the new object to
    the version before it without looking for null. *)
Theorem null_then_stored :
  ∃ c, rtc step (start, [writer; reader]) c ∧ goes_wrong 1 NullDeref c.
Proof.
  apply (after_sched_steps (replicate 5 1%nat ++ replicate 8 0%nat ++ replicate 6 1%nat)).
  vm_compute. reflexivity.
Qed.

Lemma store_once_correct_witness : ∃ s', run (store_ wr 0 0 16) start = Ok tt s' ∧
  value_at 1 (heap s') 1 16 = Some 16.
Proof.
  destruct (store_once_correct wr start 0 0 0 16 (mkVersioned tbd bad_ptr) 1
    (timestamp_read.State 1 0 ∅)) as (s' & Hrun & _ & Hnew & _);
    [reflexivity|discriminate|reflexivity|reflexivity|reflexivity|discriminate|].
  exists s'. split; [exact Hrun|]. apply Hnew. lia.
Defined.
