(* ===== verification/LfLog.v ===== *)
(** * LfLog: the log of a lock-free critical section (include/flock/lf_log.h).

    The thunk of a lock-free lock is run by its owner and by helpers.  Every
    event they must agree on is committed to a shared log, an unbounded chain
    of arrays of write-once entries; each thread walks through it with its own
    position. *)

From stdpp Require Import prelude list gmap.
From Stdlib Require Import ZArith Lia.
From S2P Require Import Prelude Conc.
Local Open Scope Z_scope.

Definition Log_Len : Z := 8.

Record log_array := mkArray { log_entries : list Z; next : Z }.
Record Log := mkLog { vals : Z; count : Z }.

(** the shared memory [mem] of the program, the log arrays and each thread's
    variables [lg] and [helping] *)
Record state (M : Type) := mkState {
  mem : M;
  arrays : gmap Z log_array;
  lgs : gmap nat Log;
  helpings : gmap nat bool;
}.
Arguments mkState {M} _ _ _ _. Arguments mem {M} _. Arguments arrays {M} _.
Arguments lgs {M} _. Arguments helpings {M} _.

(** constructor of an empty log *)
Definition empty_log : Log := mkLog 0 0.
Definition is_empty (l : Log) : bool := vals l =? 0.

#[export] Instance Log_eq_dec : EqDecision Log.
Proof. solve_decision. Defined.

Section log.
Context {M : Type}.
(** the log-array pool: where the next array goes and what is in it *)
Context (alloc : gmap Z log_array → Z) (junk : Z → log_array).
#[local] Abbreviation state := (state M).

Definition set_mem (m : M) (s : state) : state := mkState m (arrays s) (lgs s) (helpings s).
Definition set_arrays (h : gmap Z log_array) (s : state) : state :=
  mkState (mem s) h (lgs s) (helpings s).

Definition lg_c (tid : nat) : cell state Log :=
  total_cell (λ s, default empty_log (lgs s !! tid))
             (λ l s, mkState (mem s) (arrays s) (<[tid := l]> (lgs s)) (helpings s)).
Definition helping_c (tid : nat) : cell state bool :=
  total_cell (λ s, default false (helpings s !! tid))
             (λ b s, mkState (mem s) (arrays s) (lgs s) (<[tid := b]> (helpings s))).

Definition at_array (s : state) (p : Z) : err + log_array :=
  if p =? 0 then inl NullDeref
  else match arrays s !! p with Some a => inr a | None => inl UseAfterFree end.
Definition next_c (p : Z) : cell state Z :=
  Cell (λ s, match at_array s p with inr a => inr (next a) | inl e => inl e end)
       (λ n s, match arrays s !! p with
               | Some a => set_arrays (<[p := mkArray (log_entries a) n]> (arrays s)) s
               | None => s
               end).
(** a log entry: an array and an index in it *)
Definition entry_c (e : Z * Z) : cell state Z :=
  Cell (λ s, match at_array s e.1 with
             | inr a => if e.2 <? 0 then inl OutOfBounds
                        else match log_entries a !! Z.to_nat e.2 with
                             | Some v => inr v
                             | None => inl OutOfBounds
                             end
             | inl x => inl x
             end)
       (λ v s, match arrays s !! e.1 with
               | Some a => set_arrays
                   (<[e.1 := mkArray (<[Z.to_nat e.2 := v]> (log_entries a)) (next a)]> (arrays s)) s
               | None => s
               end).

(** the log-array pool *)
Definition new_array : prog state Z :=
  Act (λ s, let p := alloc (arrays s) in
            Ok p (set_arrays (<[p := junk p]> (arrays s)) s)) Ret.
Definition free_array (p : Z) : prog state unit := modify (λ s, set_arrays (delete p (arrays s)) s).

Definition init (p : Z) : prog state unit :=
  for_each (seqZ 0 Log_Len) (λ i,
    v ← load (entry_c (p, i));
    when (negb (v =? 0)) (store (entry_c (p, i)) 0)) ;;
  n ← load (next_c p);
  when (negb (n =? 0)) (store (next_c p) 0).

(** destruct, with the destructor ~log_array *)
Fixpoint destruct_array (fuel : nat) (p : Z) : prog state unit :=
  match fuel with
  | O => fail OutOfFuel
  | Datatypes.S k =>
      n ← load (next_c p);
      when (negb (n =? 0)) (n' ← load (next_c p); destruct_array k n') ;;
      free_array p
  end.

Definition next_entry (fuel tid : nat) : prog state (Z * Z) :=
  l0 ← load (lg_c tid);
  assert_ (negb (is_empty l0)) ;;
  when (count l0 =? Log_Len)
    (store (lg_c tid) (mkLog (vals l0) 0) ;;
     next_log_array ← load (next_c (vals l0));
     if negb (next_log_array =? 0) then store (lg_c tid) (mkLog next_log_array 0)
     else
       new_log_array ← new_array;
       init new_log_array ;;
       '(b, seen) ← cmpxchg (next_c (vals l0)) next_log_array new_log_array;
       if (b : bool) then store (lg_c tid) (mkLog new_log_array 0)
       else
         store (lg_c tid) (mkLog seen 0) ;;
         destruct_array fuel new_log_array) ;;
  l ← load (lg_c tid);
  store (lg_c tid) (mkLog (vals l) (count l + 1)) ;;
  mret (vals l, count l).

Definition current_entry (tid : nat) : prog state (Z * Z) :=
  l ← load (lg_c tid); mret (vals l, count l - 1).

Definition commit_value (fuel tid : nat) (newv : Z) : prog state (Z * bool) :=
  l ← load (lg_c tid);
  if is_empty l then mret (newv, true)
  else
    assert_ (negb (newv =? 0)) ;;
    e ← next_entry fuel tid;
    oldv ← load (entry_c e);
    if oldv =? 0 then
      '(b, seen) ← cmpxchg (entry_c e) oldv newv;
      mret (if (b : bool) then (newv, true) else (seen, false))
    else mret (oldv, false).

Definition check_synchronized (fuel tid : nat) (i : Z) : prog state bool :=
  l ← load (lg_c tid);
  if is_empty l then mret true
  else r ← commit_value fuel tid i; mret (r.1 =? i).

Definition set_bit : Z := Z.shiftl 1 48.
Definition commit_value_safe (fuel tid : nat) (val : Z) : prog state (Z * bool) :=
  l ← load (lg_c tid);
  if is_empty l then mret (val, true)
  else
    e ← next_entry fuel tid;
    oldv ← load (entry_c e);
    let newv := Z.lor (wrap64 val) set_bit in
    if oldv =? 0 then
      '(b, seen) ← cmpxchg (entry_c e) oldv newv;
      mret (if (b : bool) then (val, true) else (Z.land seen (not64 set_bit), false))
    else mret (Z.land oldv (not64 set_bit), false).

Definition with_log {A} (tid : nat) (newlg : Log) (f : prog state A) : prog state A :=
  holdlg ← load (lg_c tid);
  store (lg_c tid) newlg ;;
  r ← f;
  store (lg_c tid) holdlg ;;
  mret r.
Definition with_empty_log {A} (tid : nat) (f : prog state A) : prog state A :=
  with_log tid empty_log f.

Definition skip_if_done_no_log (fuel tid : nat) (f : prog state unit) : prog state bool :=
  l ← load (lg_c tid);
  if is_empty l then f ;; mret true
  else
    e ← next_entry fuel tid;
    v ← load (entry_c e);
    if v =? 0 then f ;; store (entry_c e) 1 ;; mret true
    else mret false.

(** the position and the array packed in one word *)
Definition pack (l : Log) : Z := Z.lor (wrap64 (Z.shiftl (count l) 48)) (vals l).
Definition unpack (x : Z) : Log := mkLog (Z.land x (2 ^ 48 - 1)) (Z.shiftr x 48).

Definition skip_if_done (fuel tid : nat) (f : prog state unit) : prog state bool :=
  l ← load (lg_c tid);
  if is_empty l then f ;; mret true
  else
    e ← next_entry fuel tid;
    v ← load (entry_c e);
    if v =? 0 then
      f ;;
      l' ← load (lg_c tid);
      store (entry_c e) (pack l') ;;
      mret true
    else
      store (lg_c tid) (unpack v) ;;
      mret false.

Definition read_only (fuel tid : nat) (f : prog state Z) : prog state Z :=
  r ← with_log tid empty_log f;
  c ← commit_value_safe fuel tid r;
  mret c.1.
End log.
