(* ===== verification/LogProof.v ===== *)
(** * LogProof: helpers that run the same thunk on one log agree.

    Any number of threads run the same thunk: a sequence of events, each of
    which reads and writes shared memory in any way and then commits what it
    found to the log.  What an event does may depend on the results of the
    commits before it, never on what the thread itself saw. *)

From stdpp Require Import prelude list gmap.
From Stdlib Require Import ZArith Lia.
From S2P Require Import Prelude Conc LfLog.
Local Open Scope Z_scope.

(** all results of [p], whatever the memory does meanwhile, satisfy [Q] *)
Fixpoint yields {S A} (Q : A → Prop) (p : prog S A) : Prop :=
  match p with
  | Ret a => Q a
  | Act f k => ∀ s, match f s with Ok x _ => yields Q (k x) | Err _ => False end
  end.

Section proof.
Context {M : Type} (alloc : gmap Z log_array → Z) (junk : Z → log_array).
Context (alloc_fresh : ∀ m, m !! alloc m = None ∧ alloc m ≠ 0).
Context (junk_len : ∀ p, length (log_entries (junk p)) = 8%nat).
Context (a0 : Z) (fuel : nat).
(** what the memory has to do with the values committed so far, and how it may
    change *)
Context (J : M → list Z → Prop) (grows : relation M) `{!PreOrder grows}.
#[local] Abbreviation state := (state M).

(** ** The protocol *)

(** [chain]: the log arrays in order; [log]: the committed values and who
    committed them; [priv]: the array a thread is about to append *)
Record hist := mkHist { chain : list Z; log : list (nat * Z); priv : gmap nat Z }.
Implicit Types c : state * hist.

Record inv c : Prop := {
  inv_first : chain c.2 !! 0%nat = Some a0;
  inv_nodup : NoDup (chain c.2);
  inv_arr : ∀ j a, chain c.2 !! j = Some a → a ≠ 0 ∧ ∃ ar, arrays c.1 !! a = Some ar ∧
    next ar = default 0 (chain c.2 !! Datatypes.S j) ∧
    (∀ k, (k < 8)%nat → log_entries ar !! k = Some (default 0 (snd <$> (log c.2 !! (8 * j + k)%nat))));
  inv_log : ∀ k w v, log c.2 !! k = Some (w, v) → v ≠ 0;
  inv_len : (length (log c.2) ≤ 8 * length (chain c.2))%nat;
  inv_priv : ∀ i p, priv c.2 !! i = Some p → (p ∉ chain c.2) ∧ p ≠ 0 ∧ is_Some (arrays c.1 !! p);
  inv_inj : ∀ i j p, priv c.2 !! i = Some p → priv c.2 !! j = Some p → i = j;
  inv_mem : J (mem c.1) (log c.2).*2;
}.

Record keeps (i : nat) c c' : Prop := {
  keeps_chain : prefix (chain c.2) (chain c'.2);
  keeps_log : prefix (log c.2) (log c'.2);
  keeps_mine : ∀ k v, log c'.2 !! k = Some (i, v) → log c.2 !! k = Some (i, v);
  keeps_lg : lgs c'.1 !! i = lgs c.1 !! i;
  keeps_priv : priv c'.2 !! i = priv c.2 !! i;
  keeps_array : ∀ p, priv c.2 !! i = Some p → arrays c'.1 !! p = arrays c.1 !! p;
  keeps_mem : grows (mem c.1) (mem c'.1);
}.

Lemma keeps_refl i c : keeps i c c.
Proof. by split. Qed.

Lemma log_keeps_preorder i : PreOrder (keeps i).
Proof.
  split; [intros c; apply keeps_refl|].
  intros c1 c2 c3 [H1 H2 H3 H4 H5 H6 H7] [K1 K2 K3 K4 K5 K6 K7]. split.
  - by etrans.
  - by etrans.
  - auto.
  - congruence.
  - congruence.
  - intros p Hp. rewrite K6 by congruence. by apply H6.
  - by etrans.
Qed.

Definition log_protocol : protocol state hist :=
  Protocol _ _ (λ _, True) inv keeps log_keeps_preorder.
#[local] Abbreviation ht := (Conc.ht log_protocol (λ _, False)).
#[local] Abbreviation stable := (Conc.stable log_protocol).
#[local] Abbreviation update := (Conc.update log_protocol).

(** ** What a thread knows *)

(** the results [rs] of thread [i] are the first entries of the log, and it
    has committed no other *)
Definition agreed (i : nat) (rs : list (Z * bool)) c : Prop :=
  (∀ k r, rs !! k = Some r → ∃ w v, log c.2 !! k = Some (w, v) ∧ r = (v, bool_decide (w = i))) ∧
  (∀ k v, log c.2 !! k = Some (i, v) → (k < length rs)%nat).

(** the thread's log stands at entry [cn] of array [j] of the chain *)
Definition standing (i j : nat) (a : Z) (cn : nat) c : Prop :=
  lgs c.1 !! i = Some (mkLog a (Z.of_nat cn)) ∧ chain c.2 !! j = Some a.

Definition ready (i : nat) (rs : list (Z * bool)) c : Prop :=
  ∃ j a cn, (cn ≤ 8)%nat ∧ length rs = (8 * j + cn)%nat ∧
    standing i j a cn c ∧ priv c.2 !! i = None ∧ agreed i rs c.

(** before the next array, with the private array [p] holding [ar] *)
Definition extending (i : nat) (rs : list (Z * bool)) (j : nat) (a p : Z) (ar : log_array) c : Prop :=
  length rs = (8 * j + 8)%nat ∧ standing i j a 0 c ∧ priv c.2 !! i = Some p ∧
  arrays c.1 !! p = Some ar ∧ agreed i rs c.

(** at the entry [e] for the next result *)
Definition slot (i : nat) (rs : list (Z * bool)) (e : Z * Z) c : Prop :=
  ∃ j a cn, e = (a, Z.of_nat cn) ∧ (cn < 8)%nat ∧ length rs = (8 * j + cn)%nat ∧
    standing i j a (Datatypes.S cn) c ∧ priv c.2 !! i = None ∧ agreed i rs c.

Lemma agreed_log i rs c : agreed i rs c → ∃ l, (log c.2).*2 = rs.*1 ++ l.
Proof.
  intros [Hg _]. exists (drop (length rs) (log c.2).*2).
  rewrite <-(take_drop (length rs) (log c.2).*2) at 1. f_equal. apply list_eq. intros k.
  destruct (decide (k < length rs)%nat) as [Hk|Hk].
  - rewrite lookup_take_lt by done. rewrite !list_lookup_fmap.
    destruct (lookup_lt_is_Some_2 _ _ Hk) as [r Hr]. destruct (Hg _ _ Hr) as (w & v & Hlk & ->).
    by rewrite Hr, Hlk.
  - rewrite lookup_take_ge by lia. rewrite lookup_ge_None_2; [done|]. rewrite length_fmap. lia.
Qed.

Lemma stable_agreed i rs : stable i (agreed i rs).
Proof.
  intros c c' [H1 H2] _ [_ Hl Hm _ _ _ _]. split; [|intros k v Hk; by eapply H2, Hm].
  intros k r Hk. destruct (H1 k r Hk) as (w & v & Hlk & ->). exists w, v.
  split; [|done]. by eapply prefix_lookup_Some.
Qed.
Lemma stable_standing i j a cn : stable i (standing i j a cn).
Proof.
  intros c c' [H1 H2] _ [Hc _ _ Hl _ _ _]. split; [congruence|]. by eapply prefix_lookup_Some.
Qed.
Lemma stable_priv i o : stable i (λ c, priv c.2 !! i = o).
Proof. intros c c' H _ [_ _ _ _ Hp _ _]. congruence. Qed.
Lemma stable_extending i rs j a p ar : stable i (extending i rs j a p ar).
Proof.
  intros c c' (Hl & Hs & Hp & Ha & Hg) Hc' Hk. unfold extending. split; [done|].
  split; [by eapply stable_standing|]. split; [by eapply (stable_priv i (Some p))|].
  split; [|by eapply stable_agreed]. by rewrite (keeps_array _ _ _ Hk).
Qed.

Lemma stable_ready i rs : stable i (ready i rs).
Proof.
  intros c c' (j & a & cn & Hcn & Hl & Hs & Hp & Hg) Hc' Hk. exists j, a, cn.
  do 2 (split; [done|]). split; [by eapply stable_standing|].
  split; [by eapply (stable_priv i None)|by eapply stable_agreed].
Qed.
Lemma stable_slot i rs e : stable i (slot i rs e).
Proof.
  intros c c' (j & a & cn & -> & Hcn & Hl & Hs & Hp & Hg) Hc' Hk. exists j, a, cn.
  do 3 (split; [done|]). split; [by eapply stable_standing|].
  split; [by eapply (stable_priv i None)|by eapply stable_agreed].
Qed.
Hint Resolve stable_extending stable_ready stable_slot : stab.

(** ** Updates *)

(** changes of the thread's own variables and of the memory *)
Lemma upd_thread i c m lgs' hs : inv c → (∀ k, k ≠ i → lgs' !! k = lgs c.1 !! k) →
  J m (log c.2).*2 → grows (mem c.1) m →
  update i c (LfLog.mkState m (arrays c.1) lgs' hs, c.2).
Proof.
  intros [H1 H2 H3 H4 H5 H6 H7 H8] Hl HJ Hm. split; [by split|]. intros k Hk. split; simpl; auto.
Qed.

Lemma upd_lg i c l : inv c → update i c (poke (lg_c i) l c.1, c.2).
Proof.
  intros Hc. apply upd_thread; [done| |by apply inv_mem|done]. intros k Hk. simpl. by rewrite lookup_insert_ne.
Qed.

(** changes of the array under construction *)
Lemma upd_own_array i c p ar : inv c → priv c.2 !! i = Some p →
  update i c (set_arrays (<[p := ar]> (arrays c.1)) c.1, c.2).
Proof.
  intros [H1 H2 H3 H4 H5 H6 H7 H8] Hp. destruct (H6 _ _ Hp) as (Hnc & Hp0 & _).
  split; [split|]; simpl; try done.
  - intros j a Ha. destruct (H3 j a Ha) as (? & ar' & ?). split; [done|]. exists ar'.
    rewrite lookup_insert_ne; [done|]. intros ->. apply Hnc. by eapply list_elem_of_lookup_2.
  - intros k q Hq. destruct (H6 k q Hq) as (? & ? & Hs). split; [done|]. split; [done|].
    destruct (decide (p = q)) as [->|]; [rewrite lookup_insert_eq; eauto|by rewrite lookup_insert_ne].
  - intros k Hk. split; simpl; try done. intros q Hq.
    rewrite lookup_insert_ne; [done|]. intros ->. apply Hk. by eapply H7.
Qed.

(** a new array, not in the chain *)
Lemma upd_new_array i c : inv c → priv c.2 !! i = None →
  let p := alloc (arrays c.1) in
  update i c (set_arrays (<[p := junk p]> (arrays c.1)) c.1,
              mkHist (chain c.2) (log c.2) (<[i := p]> (priv c.2))).
Proof.
  intros [H1 H2 H3 H4 H5 H6 H7 H8] Hi p. destruct (alloc_fresh (arrays c.1)) as [Hf Hp0].
  assert (∀ q, is_Some (arrays c.1 !! q) → p ≠ q) as Hne.
  { intros q [x Hx] <-. unfold p in Hx. congruence. }
  split; [split|]; simpl; try done.
  - intros j a Ha. destruct (H3 j a Ha) as (? & ar' & Har & ?). split; [done|]. exists ar'.
    rewrite lookup_insert_ne; [done|]. apply Hne. by rewrite Har.
  - intros k q [[-> <-]|[Hk Hq]]%lookup_insert_Some.
    + split_and!; [|done|rewrite lookup_insert_eq; eauto].
      intros (j & Hj)%list_elem_of_lookup_1. destruct (H3 _ _ Hj) as (_ & ar & Har & _).
      by destruct (Hne p (mk_is_Some _ _ Har)).
    + destruct (H6 k q Hq) as (? & ? & Hs). split_and!; [done|done|].
      rewrite lookup_insert_ne by by apply Hne. done.
  - intros k j q [[<- <-]|[Hk Hq]]%lookup_insert_Some [[<- E]|[Hj Hq']]%lookup_insert_Some.
    + done.
    + destruct (H6 _ _ Hq') as (_ & _ & Hs). by destruct (Hne _ Hs).
    + subst q. destruct (H6 _ _ Hq) as (_ & _ & Hs). by destruct (Hne _ Hs).
    + by eapply H7.
  - intros k Hk. split; simpl; try done; [by rewrite lookup_insert_ne|].
    intros q Hq. rewrite lookup_insert_ne; [done|]. apply Hne. by destruct (H6 _ _ Hq) as (_ & _ & ?).
Qed.

(** giving the array under construction back *)
Lemma upd_free_array i c p : inv c → priv c.2 !! i = Some p →
  update i c (set_arrays (delete p (arrays c.1)) c.1,
              mkHist (chain c.2) (log c.2) (delete i (priv c.2))).
Proof.
  intros [H1 H2 H3 H4 H5 H6 H7 H8] Hp. destruct (H6 _ _ Hp) as (Hnc & Hp0 & _).
  split; [split|]; simpl; try done.
  - intros j a Ha. destruct (H3 j a Ha) as (? & ar' & ?). split; [done|]. exists ar'.
    rewrite lookup_delete_ne; [done|]. intros ->. apply Hnc. by eapply list_elem_of_lookup_2.
  - intros k q [Hk Hq]%lookup_delete_Some. destruct (H6 k q Hq) as (? & ? & Hs).
    split_and!; [done|done|]. rewrite lookup_delete_ne; [done|]. intros ->. apply Hk. by eapply H7.
  - intros k j q [_ Hq]%lookup_delete_Some [_ Hq']%lookup_delete_Some. by eapply H7.
  - intros k Hk. split; simpl; try done; [by rewrite lookup_delete_ne|]. intros q Hq.
    rewrite lookup_delete_ne; [done|]. intros ->. apply Hk. by eapply H7.
Qed.

(** appending it to the chain *)
Lemma upd_append i c rs j a p ar : inv c → extending i rs j a p (mkArray (replicate 8 0) 0) c →
  arrays c.1 !! a = Some ar → next ar = 0 →
  update i c (set_arrays (<[a := mkArray (log_entries ar) p]> (arrays c.1)) c.1,
              mkHist (chain c.2 ++ [p]) (log c.2) (delete i (priv c.2))) ∧
  chain c.2 !! Datatypes.S j = None.
Proof.
  intros [H1 H2 H3 H4 H5 H6 H7 H8] (Hl & [Hlg Ha] & Hp & Hpa & Hg) Har Hn.
  destruct (H3 _ _ Ha) as (Ha0 & ar' & Har' & Hnx & Hent). simplify_eq.
  assert (chain c.2 !! Datatypes.S j = None) as Hlast.
  { destruct (chain c.2 !! Datatypes.S j) as [a'|] eqn:E; [|done]. simpl in Hnx.
    destruct (H3 _ _ E); congruence. }
  split; [|done]. apply lookup_ge_None in Hlast. pose proof (lookup_lt_Some _ _ _ Ha) as Hlt.
  assert (length (chain c.2) = Datatypes.S j) as Hlen by lia.
  destruct (H6 _ _ Hp) as (Hnc & Hp0 & _).
  assert (a ≠ p) as Hap by (intros ->; apply Hnc; by eapply list_elem_of_lookup_2).
  split; [split|]; simpl.
  - by apply lookup_app_l_Some.
  - apply NoDup_app. split_and!; [done| |apply NoDup_singleton]. intros x Hx ->%list_elem_of_singleton.
    done.
  - intros j' b [Hb|[Hge Hb]]%lookup_app_Some.
    + destruct (H3 _ _ Hb) as (Hb0 & br & Hbr & Hbn & Hbe). split; [done|].
      destruct (decide (a = b)) as [->|Hab].
      * assert (j' = j) as -> by by eapply NoDup_lookup.
        eexists. rewrite lookup_insert_eq. split; [done|]. simpl. split.
        { rewrite lookup_app_r by lia. by rewrite Hlen, Nat.sub_diag. }
        by simplify_eq.
      * exists br. rewrite lookup_insert_ne by done. split; [done|]. split; [|done].
        rewrite Hbn. assert (j' ≠ j) by (intros ->; congruence).
        apply lookup_lt_Some in Hb. by rewrite lookup_app_l by lia.
    + apply list_lookup_singleton_Some in Hb as [Hz <-]. assert (j' = Datatypes.S j) as -> by lia.
      split; [done|]. eexists. rewrite lookup_insert_ne by done. split; [done|]. simpl. split.
      * by rewrite lookup_ge_None_2 by (rewrite length_app; simpl; lia).
      * intros k Hk. rewrite (lookup_ge_None_2 (log c.2)) by lia. by apply (lookup_replicate_2 8 0 k).
  - done.
  - rewrite length_app. simpl. lia.
  - intros k q [Hk Hq]%lookup_delete_Some. destruct (H6 k q Hq) as (? & ? & Hs). split_and!; [|done|].
    + intros [?| ->%list_elem_of_singleton]%elem_of_app; [done|]. apply Hk. by eapply H7.
    + destruct (decide (a = q)) as [->|]; [rewrite lookup_insert_eq; eauto|by rewrite lookup_insert_ne].
  - intros k k' q [_ Hq]%lookup_delete_Some [_ Hq']%lookup_delete_Some. by eapply H7.
  - done.
  - intros k Hk. split; simpl; try done; [by apply prefix_app_r|by rewrite lookup_delete_ne|].
    intros q Hq. rewrite lookup_insert_ne; [done|]. intros ->. destruct (H6 _ _ Hq) as [Hq' _].
    apply Hq'. by eapply list_elem_of_lookup_2.
Qed.

(** committing a value *)
Lemma entry_free rs c : inv c → default 0 (snd <$> (log c.2 !! length rs)) = 0 → log c.2 !! length (A := Z * bool) rs = None.
Proof.
  intros Hc Hz. destruct (log c.2 !! length rs) as [[w u]|] eqn:E; simpl in *; [|done].
  by destruct (inv_log _ Hc _ _ _ E).
Qed.

Lemma slot_entry i rs e c : inv c → slot i rs e c →
  ∃ ar, arrays c.1 !! e.1 = Some ar ∧
    peek (entry_c e) c.1 = inr (default 0 (snd <$> (log c.2 !! length rs))) ∧
    (log c.2 !! length rs = None → length (log c.2) = length rs).
Proof.
  intros [H1 H2 H3 H4 H5 H6 H7 H8] (j & a & cn & -> & Hcn & Hl & [Hlg Ha] & _ & [Hg _]).
  destruct (H3 _ _ Ha) as (Ha0 & ar & Har & _ & Hent). exists ar. split; [done|]. split.
  - simpl. unfold at_array. rewrite (proj2 (Z.eqb_neq _ _) Ha0), Har.
    rewrite (proj2 (Z.ltb_ge _ _)) by lia. rewrite Nat2Z.id, Hent by done. by rewrite Hl.
  - intros Hnone%lookup_ge_None. destruct (decide (length (log c.2) = length rs)); [done|].
    destruct (lookup_lt_is_Some_2 rs (length (log c.2))) as [r Hr]; [lia|].
    destruct (Hg _ _ Hr) as (w & v & Hlk & _). apply lookup_lt_Some in Hlk. lia.
Qed.

Lemma upd_commit i rs e c v : inv c → slot i rs e c → log c.2 !! length rs = None → v ≠ 0 →
  J (mem c.1) ((log c.2).*2 ++ [v]) →
  let g' := mkHist (chain c.2) (log c.2 ++ [(i, v)]) (priv c.2) in
  update i c (poke (entry_c e) v c.1, g') ∧
  ready i (rs ++ [(v, true)]) (poke (entry_c e) v c.1, g').
Proof.
  intros Hc Hslot Hnone Hv HJ g'. destruct (slot_entry _ _ _ _ Hc Hslot) as (ar & Har & _ & Hlen).
  specialize (Hlen Hnone).
  destruct Hc as [H1 H2 H3 H4 H5 H6 H7 H8], Hslot as (j & a & cn & -> & Hcn & Hl & [Hlg Ha] & Hp & [Hg Hm]).
  pose proof (lookup_lt_Some _ _ _ Ha) as Hj. simpl in *. rewrite Har, Nat2Z.id.
  split; [split; [split|]|]; simpl; try done.
  - intros j' b Hb. destruct (H3 _ _ Hb) as (Hb0 & br & Hbr & Hbn & Hbe). split; [done|].
    destruct (decide (a = b)) as [->|Hab].
    + assert (j' = j) as -> by by eapply NoDup_lookup. simplify_eq.
      eexists. rewrite lookup_insert_eq. split; [done|]. simpl. split; [done|]. intros k Hk.
      destruct (decide (k = cn)) as [->|Hne].
      * rewrite list_lookup_insert_eq by by apply lookup_lt_is_Some; rewrite Hbe by done; eauto.
        rewrite lookup_app_r by lia. by rewrite Hlen, Hl, Nat.sub_diag.
      * rewrite list_lookup_insert_ne, Hbe by done. f_equal. f_equal. f_equal.
        destruct (decide (8 * j + k < length (log c.2))%nat); [by rewrite lookup_app_l|].
        rewrite !lookup_ge_None_2; [done|rewrite length_app; simpl; lia|lia].
    + exists br. rewrite lookup_insert_ne by done. split; [done|]. split; [done|]. intros k Hk.
      rewrite Hbe by done. f_equal. f_equal. f_equal.
      assert (j' ≠ j) by (intros ->; congruence).
      destruct (decide (8 * j' + k < length (log c.2))%nat); [by rewrite lookup_app_l|].
      rewrite !lookup_ge_None_2; [done|rewrite length_app; simpl; lia|lia].
  - intros k w u [Hk|[_ Hk]]%lookup_app_Some; [by eapply H4|].
    by apply list_lookup_singleton_Some in Hk as [_ [= <- <-]].
  - rewrite length_app. simpl. lia.
  - intros k q Hq. destruct (H6 _ _ Hq) as (? & ? & ?). split_and!; [done|done|].
    destruct (decide (a = q)) as [->|]; [rewrite lookup_insert_eq; eauto|by rewrite lookup_insert_ne].
  - by rewrite fmap_app.
  - intros k Hk. split; simpl; try done; [by apply prefix_app_r| |].
    + intros n u [Hn|[_ Hn]]%lookup_app_Some; [done|].
      by apply list_lookup_singleton_Some in Hn as [_ [= -> _]].
    + intros q Hq. rewrite lookup_insert_ne; [done|]. intros ->. destruct (H6 _ _ Hq) as [Hq' _].
      apply Hq'. by eapply list_elem_of_lookup_2.
  - exists j, a, (Datatypes.S cn). split; [lia|]. rewrite length_app. simpl.
    split; [lia|]. split; [done|]. split; [done|]. split.
    + intros k r [Hk|[Hge Hk]]%lookup_app_Some.
      * destruct (Hg _ _ Hk) as (w & u & Hlk & ->). exists w, u. split; [|done].
        simpl. by apply lookup_app_l_Some.
      * apply list_lookup_singleton_Some in Hk as [Hz <-]. exists i, v. simpl.
        rewrite lookup_app_r by lia. rewrite Hlen, Hz. split; [done|]. by rewrite bool_decide_true.
    + simpl. intros k u [Hk|[Hge Hk]]%lookup_app_Some; rewrite length_app; simpl.
      * specialize (Hm _ _ Hk). lia.
      * apply list_lookup_singleton_Some in Hk as [Hz _]. lia.
Qed.

(** finding a value that another thread committed *)
Lemma slot_taken i rs e c v : inv c → slot i rs e c →
  peek (entry_c e) c.1 = inr v → v ≠ 0 → ready i (rs ++ [(v, false)]) c.
Proof.
  intros Hc Hslot Hpk Hv. destruct (slot_entry _ _ _ _ Hc Hslot) as (ar & Har & Hpk' & _).
  rewrite Hpk' in Hpk. destruct (log c.2 !! length rs) as [[w u]|] eqn:Hlk; simplify_eq/=.
  destruct Hslot as (j & a & cn & -> & Hcn & Hl & Hs & Hp & [Hg Hm]).
  assert (w ≠ i) as Hwi by (intros ->; specialize (Hm _ _ Hlk); lia).
  exists j, a, (Datatypes.S cn). split; [lia|]. rewrite length_app. simpl.
  split; [lia|]. split; [done|]. split; [done|]. split.
  - intros k r [Hk|[Hge Hk]]%lookup_app_Some; [by apply Hg|].
    apply list_lookup_singleton_Some in Hk as [Hz <-]. exists w, v.
    replace k with (length rs) by lia. split; [done|]. by rewrite bool_decide_false.
  - intros k u Hk. rewrite length_app. simpl. specialize (Hm _ _ Hk). lia.
Qed.

Lemma poke_entry_id (e : Z * Z) v (s : state) : peek (entry_c e) s = inr v → poke (entry_c e) v s = s.
Proof.
  simpl. unfold at_array. destruct (e.1 =? 0); [done|].
  destruct (arrays s !! e.1) as [ar|] eqn:Har; [|done]. destruct (e.2 <? 0); [done|].
  destruct (log_entries ar !! Z.to_nat e.2) as [u|] eqn:Hu; [|done]. intros [= ->].
  rewrite list_insert_id by done. destruct s, ar; unfold set_arrays; simpl in *.
  by rewrite insert_id.
Qed.

(** ** The code *)
Lemma ht_set_lg i (P Q : state * hist → Prop) l : stable i P →
  (∀ c, inv c → P c → Q (poke (lg_c i) l c.1, c.2)) → ht i P (store (lg_c i) l) (λ _, Q).
Proof.
  intros HP HQ. apply ht_store; [done|]. intros c Hc HPc. simpl.
  exists c.2. split; [by apply (upd_lg i c l)|by apply HQ].
Qed.

Lemma ht_lg i (P : state * hist → Prop) l (Q : Log → state * hist → Prop) : stable i P →
  (∀ c, P c → lgs c.1 !! i = Some l) → (∀ c, P c → Q l c) → ht i P (load (lg_c i)) Q.
Proof.
  intros HP Hl HQ. apply ht_load; [done|]. intros c Hc HPc. simpl. rewrite (Hl c HPc). by apply HQ.
Qed.

Lemma standing_set_lg i j a cn cn' c : standing i j a cn c →
  standing i j a cn' (poke (lg_c i) (mkLog a (Z.of_nat cn')) c.1, c.2).
Proof. intros [_ H]. split; [|done]. simpl. apply lookup_insert_eq. Qed.

(** a step on the private array *)
Lemma ht_private i rs j a p ar ar' {T} (cl : cell state T) v v' :
  (∀ c, inv c → extending i rs j a p ar c → peek cl c.1 = inr v ∧
     poke cl v' c.1 = set_arrays (<[p := ar']> (arrays c.1)) c.1) →
  ht i (extending i rs j a p ar) (store cl v') (λ _, extending i rs j a p ar').
Proof.
  intros Hcl. apply ht_store; [apply stable_extending|]. intros c Hc Hx.
  destruct (Hcl c Hc Hx) as [-> ->]. exists c.2.
  destruct Hx as (Hl & Hs & Hp & Ha & Hg). split; [by apply upd_own_array|].
  do 3 (split; [done|]). split; [|done]. simpl. apply lookup_insert_eq.
Qed.

Lemma private_facts i rs j a p ar c : inv c → extending i rs j a p ar c →
  p ≠ 0 ∧ at_array c.1 p = inr ar.
Proof.
  intros Hc (_ & _ & Hp & Ha & _). destruct (inv_priv _ Hc _ _ Hp) as (_ & Hp0 & _).
  split; [done|]. unfold at_array. by rewrite (proj2 (Z.eqb_neq _ _) Hp0), Ha.
Qed.

Lemma ht_init_entry i rs j a p ar k : (k < length (log_entries ar))%nat →
  ht i (extending i rs j a p ar)
    (v ← load (entry_c (p, Z.of_nat k)); when (negb (v =? 0)) (store (entry_c (p, Z.of_nat k)) 0))
    (λ _, extending i rs j a p (mkArray (<[k := 0]> (log_entries ar)) (next ar))).
Proof.
  intros Hk. destruct (lookup_lt_is_Some_2 _ _ Hk) as [v Hv].
  assert (∀ c, inv c → extending i rs j a p ar c → peek (entry_c (p, Z.of_nat k)) c.1 = inr v) as Hpk.
  { intros c Hc Hx. destruct (private_facts _ _ _ _ _ _ _ Hc Hx) as [Hp0 Hat]. simpl.
    rewrite Hat, (proj2 (Z.ltb_ge _ _)) by lia. by rewrite Nat2Z.id, Hv. }
  eapply (ht_bind _ _ _ _ _ _ (λ u c, u = v ∧ extending i rs j a p ar c)).
  { apply ht_load; [apply stable_extending|]. intros c Hc Hx. by rewrite Hpk. }
  intros u. apply ht_pure. intros ->. destruct (Z.eqb_spec v 0) as [->|Hne]; cbn [negb when].
  - apply ht_ret. intros c. rewrite list_insert_id by done. by destruct ar.
  - apply (ht_private _ _ _ _ _ _ _ _ v). intros c Hc Hx. split; [by apply Hpk|].
    pose proof Hx as (_ & _ & _ & Ha & _). simpl. by rewrite Ha, Nat2Z.id.
Qed.

Lemma ht_init i rs j a p : ht i (extending i rs j a p (junk p)) (init p)
  (λ _, extending i rs j a p (mkArray (replicate 8 0) 0)).
Proof.
  unfold init. eapply (ht_bind _ _ _ _ _ _
    (λ _, extending i rs j a p (mkArray (replicate 8 0) (next (junk p))))).
  - assert (∀ l ar, length (log_entries ar) = 8%nat → (∀ k, k ∈ l → (k < 8)%nat) →
      ht i (extending i rs j a p ar)
        (for_each (Z.of_nat <$> l) (λ i,
           v ← load (entry_c (p, i)); when (negb (v =? 0)) (store (entry_c (p, i)) 0)))
        (λ _, extending i rs j a p
           (mkArray (foldl (λ es k, <[k := 0]> es) (log_entries ar) l) (next ar)))) as Hall.
    { intros l. induction l as [|k l IH]; intros ar Har Hl; cbn [fmap list_fmap for_each].
      - apply ht_ret. intros c. by destruct ar.
      - eapply ht_bind; [apply ht_init_entry; rewrite Har; apply Hl; by left|]. intros [].
        apply (IH (mkArray _ _)); [cbn [log_entries]; by rewrite length_insert|]. intros k' Hk'. apply Hl. by right. }
    assert (seqZ 0 Log_Len = Z.of_nat <$> seq 0 8) as -> by done.
    eapply ht_weaken; [apply (Hall _ (junk p)); [apply junk_len|]|by auto|].
    + intros k Hk. apply elem_of_seq in Hk. lia.
    + intros [] c Hx. pose proof (junk_len p) as Hlen. destruct (log_entries (junk p)) as
        [|?[|?[|?[|?[|?[|?[|?[|?[|??]]]]]]]]]; try done.
  - intros _. set (ar := mkArray (replicate 8 0) (next (junk p))).
    assert (∀ c, inv c → extending i rs j a p ar c → peek (next_c p) c.1 = inr (next ar)) as Hpk.
    { intros c Hc Hx. destruct (private_facts _ _ _ _ _ _ _ Hc Hx) as [_ Hat]. simpl. by rewrite Hat. }
    eapply (ht_bind _ _ _ _ _ _ (λ u c, u = next ar ∧ extending i rs j a p ar c)).
    { apply ht_load; [apply stable_extending|]. intros c Hc Hx. by rewrite Hpk. }
    intros u. apply ht_pure. intros ->. destruct (Z.eqb_spec (next ar) 0) as [Hz|Hne]; cbn [negb when].
    + apply ht_ret. intros c. unfold ar. simpl in Hz. by rewrite Hz.
    + apply (ht_private _ _ _ _ _ ar _ _ (next ar)). intros c Hc Hx. split; [by apply Hpk|].
      pose proof Hx as (_ & _ & _ & Ha & _). simpl. by rewrite Ha.
Qed.

Definition placed (i : nat) (rs : list (Z * bool)) (j : nat) (a : Z) (cn : nat) c : Prop :=
  standing i j a cn c ∧ priv c.2 !! i = None ∧ agreed i rs c.
(** after losing the race to append: [p] is to be given back *)
Definition losing (i : nat) (rs : list (Z * bool)) (j : nat) (a p : Z) c : Prop :=
  standing i j a 0 c ∧ agreed i rs c ∧
  priv c.2 !! i = Some p ∧ arrays c.1 !! p = Some (mkArray (replicate 8 0) 0).
(** the next array of the chain is [n] *)
Definition follows (j : nat) (n : Z) c : Prop := chain c.2 !! Datatypes.S j = Some n.

Lemma stable_placed i rs j a cn : stable i (placed i rs j a cn).
Proof.
  intros c c' (Hs & Hp & Hg) Hc' Hk. split; [by eapply stable_standing|].
  split; [by eapply (stable_priv i None)|by eapply stable_agreed].
Qed.
Lemma stable_losing i rs j a p : stable i (losing i rs j a p).
Proof.
  intros c c' (Hs & Hg & Hp & Ha) Hc' Hk. split; [by eapply stable_standing|].
  split; [by eapply stable_agreed|]. split; [by eapply (stable_priv i (Some p))|].
  by rewrite (keeps_array _ _ _ Hk).
Qed.
Lemma stable_follows i j n : stable i (follows j n).
Proof. intros c c' H _ [Hc _ _ _ _ _ _]. by eapply prefix_lookup_Some. Qed.
Lemma stable_follows_if i (φ : Prop) j n : stable i (λ c, φ → follows j n c).
Proof. intros c c' H Hc Hk Hφ. eapply stable_follows; eauto. Qed.
Hint Resolve stable_placed stable_losing stable_follows stable_follows_if : stab.

Lemma chain_next i rs j a cn c : inv c → placed i rs j a cn c →
  a ≠ 0 ∧ ∃ ar, arrays c.1 !! a = Some ar ∧ peek (next_c a) c.1 = inr (next ar) ∧
    (next ar ≠ 0 → follows j (next ar) c).
Proof.
  intros Hc [[_ Ha] _]. destruct (inv_arr _ Hc _ _ Ha) as (Ha0 & ar & Har & Hn & _).
  split; [done|]. exists ar. split; [done|]. split.
  - simpl. unfold at_array. by rewrite (proj2 (Z.eqb_neq _ _) Ha0), Har.
  - intros Hne. unfold follows. destruct (chain c.2 !! Datatypes.S j); simpl in Hn; congruence.
Qed.

(** moving on to the next array *)
Lemma ht_move_on i rs j a n : length rs = (8 * j + 8)%nat →
  ht i (λ c, follows j n c ∧ placed i rs j a 0 c) (store (lg_c i) (mkLog n 0))
     (λ _ c, placed i rs (Datatypes.S j) n 0 c).
Proof.
  intros Hl. apply ht_set_lg; [auto with stab|]. intros c Hc (Hn & [_ Ha] & Hp & Hg).
  split; [|done]. split; [|done]. simpl. apply lookup_insert_eq.
Qed.

(** appending a new array *)
Lemma ht_extend i rs j a : length rs = (8 * j + 8)%nat →
  ht i (placed i rs j a 0)
    (new_log_array ← new_array alloc junk;
     init new_log_array ;;
     '(b, seen) ← cmpxchg (next_c a) 0 new_log_array;
     if (b : bool) then store (lg_c i) (mkLog new_log_array 0)
     else store (lg_c i) (mkLog seen 0) ;; destruct_array (Datatypes.S fuel) new_log_array)
    (λ _ c, ∃ n, placed i rs (Datatypes.S j) n 0 c).
Proof.
  intros Hl. eapply (ht_bind _ _ _ _ _ _ (λ p, extending i rs j a p (junk p))).
  { apply ht_act; [auto with stab|]. intros [s g] Hc (Hs & Hp & Hg). simpl.
    eexists. split; [by apply (upd_new_array i (s, g))|]. split; [done|].
    split; [done|]. simpl. split; [apply lookup_insert_eq|]. split; [apply lookup_insert_eq|done]. }
  intros p. eapply ht_bind; [apply ht_init|]. intros [].
  eapply (ht_bind _ _ _ _ _ _ (λ r c, if r.1 : bool then follows j p c ∧ placed i rs j a 0 c
    else follows j r.2 c ∧ extending i rs j a p (mkArray (replicate 8 0) 0) c)).
  { apply ht_act; [auto with stab|]. intros [s g] Hc Hx.
    pose proof Hx as (_ & [Hlg Ha] & Hp & Hpa & Hg).
    destruct (inv_arr _ Hc _ _ Ha) as (Ha0 & ar & Har & Hn & _). simpl in Har.
    unfold on_cell, next_c, at_array; cbn [peek poke fst snd].
    rewrite (proj2 (Z.eqb_neq _ _) Ha0), Har. case_decide as Hz.
    - destruct (upd_append _ _ _ _ _ _ _ Hc Hx Har Hz) as [Hu Hlast]. simpl in Hu.
      eexists. split; [exact Hu|]. apply lookup_ge_None in Hlast. simpl in *.
      apply lookup_lt_Some in Ha as Hlt. unfold follows; simpl.
      assert (length (chain g) = Datatypes.S j) as Hlen by lia.
      split; [by rewrite lookup_app_r, Hlen, Nat.sub_diag by lia|].
      split; [split; [done|by apply lookup_app_l_Some]|]. split; [apply lookup_delete_eq|done].
    - exists g. split; [by apply update_refl|]. simpl. split; [|done]. unfold follows. simpl in *.
      destruct (chain g !! Datatypes.S j); simpl in Hn; congruence. }
  intros [[] seen]; cbn [fst snd].
  - eapply ht_weaken; [by apply ht_move_on|intros c Hq; exact Hq|]. intros [] c Hq. by exists p.
  - eapply (ht_bind _ _ _ _ _ _ (λ _, losing i rs (Datatypes.S j) seen p)).
    { apply ht_set_lg; [auto with stab|]. intros c Hc (Hf & _ & [_ Ha] & Hp & Hpa & Hg).
      split; [split; [apply lookup_insert_eq|done]|]. done. }
    intros _. cbn [destruct_array].
    eapply (ht_bind _ _ _ _ _ _ (λ n c, n = 0 ∧ losing i rs (Datatypes.S j) seen p c)).
    { apply ht_load; [auto with stab|]. intros c Hc Hx. pose proof Hx as (_ & _ & Hp & Hpa).
      destruct (inv_priv _ Hc _ _ Hp) as (_ & Hp0 & _). simpl. unfold at_array.
      by rewrite (proj2 (Z.eqb_neq _ _) Hp0), Hpa. }
    intros n. apply ht_pure. intros ->. cbn [Z.eqb negb when].
    apply ht_act; [auto with stab|]. intros [s g] Hc (Hs & Hg & Hp & Hpa). simpl.
    eexists. split; [by apply (upd_free_array i (s, g) p)|]. exists seen.
    split; [done|]. split; [apply lookup_delete_eq|done].
Qed.

Lemma ht_next_entry i rs : ht i (ready i rs) (next_entry alloc junk (Datatypes.S fuel) i) (slot i rs).
Proof.
  apply ht_exists; intros j. apply ht_exists; intros a. apply ht_exists; intros cn.
  apply ht_pure; intros Hcn. apply ht_pure; intros Hl. unfold next_entry.
  eapply (ht_bind _ _ _ _ _ _ (λ l0 c, (l0 = mkLog a (Z.of_nat cn) ∧ a ≠ 0) ∧ placed i rs j a cn c)).
  { apply ht_load; [apply (stable_placed i rs j a cn)|]. intros c Hc Hx.
    destruct (chain_next _ _ _ _ _ _ Hc Hx) as [Ha0 _]. simpl.
    by rewrite (proj1 (proj1 Hx)). }
  intros l0. apply ht_pure. intros [-> Ha0].
  apply (ht_assert _ _ _ _ _ (λ _, _)).
  { unfold is_empty. simpl. by rewrite (proj2 (Z.eqb_neq _ _) Ha0). }
  eapply (ht_bind _ _ _ _ _ _ (λ _ c, ∃ j a cn, ((cn < 8)%nat ∧ length rs = (8 * j + cn)%nat) ∧
    placed i rs j a cn c)).
  - cbn [count vals]. unfold Log_Len. destruct (Z.eqb_spec (Z.of_nat cn) 8) as [H8|Hne]; cbn [when].
    2:{ apply ht_ret. intros c Hx. exists j, a, cn. split; [lia|done]. }
    assert (cn = 8%nat) as -> by lia.
    eapply (ht_bind _ _ _ _ _ _ (λ _, placed i rs j a 0)).
    { apply ht_set_lg; [auto with stab|]. intros c Hc (Hs & Hp & Hg).
      split; [|done]. by apply (standing_set_lg i j a 8 0). }
    intros _. eapply (ht_bind _ _ _ _ _ _ (λ n c, (n ≠ 0 → follows j n c) ∧ placed i rs j a 0 c)).
    { apply ht_load; [auto with stab|]. intros c Hc Hx.
      by destruct (chain_next _ _ _ _ _ _ Hc Hx) as (_ & ar & _ & -> & Hf). }
    intros n. destruct (Z.eqb_spec n 0) as [->|Hn0]; cbn [negb].
    + eapply ht_weaken; [by apply ht_extend|by intros c [_ ?]|].
      intros [] c (n & Hx). exists (Datatypes.S j), n, 0%nat. split; [lia|done].
    + eapply ht_weaken; [by apply ht_move_on|intros c [Hf Hx]; split; [by apply Hf|exact Hx]|].
      intros [] c Hx. exists (Datatypes.S j), n, 0%nat. split; [lia|done].
  - intros _. apply ht_exists; intros j'. apply ht_exists; intros a'. apply ht_exists; intros cn'.
    apply ht_pure; intros [Hcn' Hl'].
    eapply (ht_bind _ _ _ _ _ _ (λ l c, l = mkLog a' (Z.of_nat cn') ∧ placed i rs j' a' cn' c)).
    { apply (ht_lg _ _ (mkLog a' (Z.of_nat cn'))); [auto with stab|by intros c [[? _] _]|done]. }
    intros l. apply ht_pure. intros ->. cbn [vals count].
    eapply (ht_bind _ _ _ _ _ _ (λ _, slot i rs (a', Z.of_nat cn'))); [|intros _; by apply ht_ret].
    apply ht_set_lg; [auto with stab|]. intros c Hc (Hs & Hp & Hg).
    exists j', a', cn'. do 3 (split; [done|]). split; [|done].
    replace (Z.of_nat cn' + 1) with (Z.of_nat (Datatypes.S cn')) by lia.
    by apply (standing_set_lg i j' a' cn').
Qed.

(** Facts about the memory and the log that no thread can undo. *)
Definition lasting (K : M → list Z → Prop) c : Prop := K (mem c.1) (log c.2).*2.
Definition kept_fact (K : M → list Z → Prop) : Prop :=
  ∀ m m' l l', K m l → J m' l' → grows m m' → prefix l l' → K m' l'.

Lemma stable_lasting i K : kept_fact K → stable i (lasting K).
Proof.
  intros HK c c' H Hc' [_ [l Hl] _ _ _ _ Hm]. eapply HK; [exact H|by apply inv_mem|done|].
  rewrite Hl, fmap_app. by apply prefix_app_r.
Qed.
Lemma ht_lasting {A} i K P (p : prog state A) Q : kept_fact K →
  ht i P p Q → ht i (λ c, P c ∧ lasting K c) p (λ a c, Q a c ∧ lasting K c).
Proof. intros HK. apply ht_frame. intros k. by apply stable_lasting. Qed.

(** the commit may be made only where it agrees with the memory *)
Definition may_commit (rs : list (Z * bool)) (v : Z) (m : M) (l : list Z) : Prop :=
  length l = length rs → J m l → J m (l ++ [v]).

Lemma ht_commit_value i rs v K : v ≠ 0 → kept_fact K → (∀ m l, K m l → may_commit rs v m l) →
  ht i (λ c, ready i rs c ∧ lasting K c) (commit_value alloc junk (Datatypes.S fuel) i v)
    (λ r, ready i (rs ++ [r])).
Proof.
  intros Hv HK Hmay. pose proof (stable_lasting i K HK) as HKs. unfold commit_value.
  eapply (ht_bind _ _ _ _ _ _ (λ l c, is_empty l = false ∧ ready i rs c ∧ lasting K c)).
  { apply ht_load; [auto with stab|]. intros c Hc Hx. split; [|done].
    destruct Hx as [(j & a & cn & _ & _ & [Hlg Ha] & _) _]. simpl. rewrite Hlg.
    destruct (inv_arr _ Hc _ _ Ha) as (Ha0 & _). by apply Z.eqb_neq. }
  intros l. apply ht_pure. intros ->.
  apply (ht_assert _ _ _ _ _ (λ _, _)); [by rewrite (proj2 (Z.eqb_neq _ _) Hv)|].
  eapply ht_bind; [apply ht_lasting; [done|apply ht_next_entry]|]. intros e. cbn beta.
  eapply (ht_bind _ _ _ _ _ _ (λ o c, if o =? 0 then slot i rs e c ∧ lasting K c
                                       else ready i (rs ++ [(o, false)]) c)).
  { apply ht_load; [auto with stab|]. intros c Hc [Hx HKc].
    destruct (slot_entry _ _ _ _ Hc Hx) as (_ & _ & Hpk & _). rewrite Hpk.
    destruct (Z.eqb_spec (default 0 (snd <$> (log c.2 !! length rs))) 0); [done|].
    by eapply slot_taken. }
  intros o. destruct (Z.eqb_spec o 0) as [->|Ho].
  2:{ by apply ht_ret. }
  eapply (ht_bind _ _ _ _ _ _ (λ p c, ready i (rs ++ [if p.1 : bool then (v, true) else (p.2, false)]) c)).
  - apply ht_act; [auto with stab|]. intros [s g] Hc [Hx HKc].
    destruct (slot_entry _ _ _ _ Hc Hx) as (_ & _ & Hpk & Hlen). cbn [fst] in *.
    unfold on_cell. rewrite Hpk. case_decide as Hz.
    + assert (log g !! length rs = None) as Hnone by by apply (entry_free rs (s, g)).
      destruct (upd_commit i rs e (s, g) v Hc Hx Hnone Hv) as [Hu Hr].
      { apply (Hmay _ _ HKc); [rewrite length_fmap; by apply Hlen|by apply inv_mem]. }
      eexists. split; [exact Hu|exact Hr].
    + exists g. split; [by apply update_refl|]. by apply (slot_taken i rs e (s, g)).
  - intros [[] seen]; apply ht_ret; by intros c.
Qed.

(** a flag of the log: whoever finds it unset sets it, after some work; the
    others skip the work *)
Lemma ht_set_flag i rs e v K : v ≠ 0 → kept_fact K → (∀ m l, K m l → may_commit rs v m l) →
  (∀ m l u, K m l → J m l → l !! length rs = Some u → u = v) →
  ht i (λ c, slot i rs e c ∧ lasting K c) (store (entry_c e) v)
    (λ _ c, ∃ r, ready i (rs ++ [r]) c).
Proof.
  intros Hv HK Hmay Hsame. pose proof (stable_lasting i K HK) as HKs.
  apply ht_store; [auto with stab|]. intros [s g] Hc [Hx HKc].
  destruct (slot_entry _ _ _ _ Hc Hx) as (ar & Har & Hpk & Hlen). cbn [fst snd] in *. rewrite Hpk.
  destruct (log g !! length rs) as [[w u]|] eqn:Hlk.
  - assert (u = v) as ->.
    { eapply Hsame; [exact HKc|by apply inv_mem|]. rewrite list_lookup_fmap. cbn [snd]. by rewrite Hlk. }
    cbn [default from_option snd fmap option_fmap option_map] in Hpk. rewrite (poke_entry_id e v s) by done.
    exists g. split; [by apply update_refl|]. exists (v, false). by eapply slot_taken.
  - destruct (upd_commit i rs e (s, g) v Hc Hx Hlk Hv) as [Hu Hr].
    { apply (Hmay _ _ HKc); [rewrite length_fmap; by apply Hlen|by apply inv_mem]. }
    eexists. split; [exact Hu|]. eauto.
Qed.

(** outside the log, before having committed anything *)
Definition idle (i : nat) c : Prop :=
  priv c.2 !! i = None ∧ ∀ k v, log c.2 !! k ≠ Some (i, v).

Lemma stable_log_idle i : stable i (idle i).
Proof.
  intros c c' [Hp Hm] _ [_ _ Hk _ Hp' _ _]. split; [congruence|]. intros k v Hlk.
  by apply (Hm k v), Hk.
Qed.

(** work with the log at [a0] *)
Lemma ht_with_log {A} i (p : prog state A) (R : list (Z * bool) → A → Prop) :
  ht i (ready i []) p (λ a c, ∃ rs, ready i rs c ∧ R rs a) →
  ht i (idle i) (with_log i (mkLog a0 0) p) (λ a c, ∃ rs, agreed i rs c ∧ R rs a).
Proof.
  intros Hp. unfold with_log.
  eapply (ht_bind _ _ _ _ _ _ (λ _, idle i)).
  { apply ht_load; [apply stable_log_idle|]. by intros c Hc. }
  intros hold. eapply (ht_bind _ _ _ _ _ _ (λ _, ready i [])).
  { apply ht_set_lg; [apply stable_log_idle|]. intros c Hc [Hpr Hm]. exists 0%nat, a0, 0%nat.
    split; [lia|]. split; [done|]. split; [split; [apply lookup_insert_eq|apply (inv_first _ Hc)]|].
    split; [done|]. split; [done|]. intros k v Hk. by destruct (Hm k v). }
  intros _. eapply ht_bind; [exact Hp|]. intros a.
  eapply (ht_bind _ _ _ _ _ _ (λ _ c, ∃ rs, agreed i rs c ∧ R rs a)); [|intros _; by apply ht_ret].
  apply ht_set_lg; [auto with stab|].
  intros c Hc (rs & (j & b & cn & _ & _ & _ & _ & Hg) & HR). by exists rs.
Qed.

Definition start_state (m : M) : state :=
  LfLog.mkState m {[ a0 := mkArray (replicate 8 0) 0 ]} ∅ ∅.

Lemma start_inv m : a0 ≠ 0 → J m [] → inv (start_state m, mkHist [a0] [] ∅).
Proof.
  intros Ha0 HJ. split; simpl.
  - done.
  - apply NoDup_singleton.
  - intros j a [-> <-]%list_lookup_singleton_Some. split; [done|].
    eexists. rewrite lookup_singleton_eq. split; [done|]. split; [done|]. intros k Hk.
    by apply (lookup_replicate_2 8 0 k).
  - done.
  - lia.
  - done.
  - done.
  - done.
Qed.
End proof.

(** ** The thunk of arbitrary events *)
Section agree.
Context {M : Type} (alloc : gmap Z log_array → Z) (junk : Z → log_array).
Context (a0 : Z) (fuel : nat) (event : list Z → prog M Z).
#[local] Abbreviation state := (state M).

Fixpoint thunk (tid : nat) (n : nat) (acc : list (Z * bool)) : prog state (list (Z * bool)) :=
  match n with
  | O => mret acc
  | Datatypes.S k =>
      v ← zoom mem set_mem (event acc.*1);
      r ← commit_value alloc junk (Datatypes.S fuel) tid v;
      thunk tid k (acc ++ [r])
  end.

(** a thread runs the first [n] events with the log at [a0] *)
Definition helper (tid n : nat) : prog state (list (Z * bool)) :=
  with_log tid (mkLog a0 0) (thunk tid n []).

Context (alloc_fresh : ∀ m, m !! alloc m = None ∧ alloc m ≠ 0).
Context (junk_len : ∀ p, length (log_entries (junk p)) = 8%nat).
Context (events_yield : ∀ rs, yields (λ v, v ≠ 0) (event rs)).

(** nothing is said about the memory *)
Definition any_memory : M → list Z → Prop := λ _ _, True.
Definition any_change : relation M := λ _ _, True.
#[export] Instance any_change_preorder : PreOrder any_change.
Proof. by split. Qed.
#[local] Abbreviation ht := (Conc.ht (log_protocol a0 any_memory any_change) (λ _, False)).

(** the thread's own steps on the memory *)
Lemma ht_event i rs (Q : Z → Prop) (p : prog M Z) : yields Q p →
  ht i (ready i rs) (zoom mem set_mem p) (λ v c, Q v ∧ ready i rs c).
Proof.
  induction p as [v|X f k IH]; simpl; intros Hp; [intros c Hc Hx; simpl; auto|].
  intros c Hc Hx c1 HR Hok. destruct (HR Hc) as [Hc1 Ho].
  pose proof (stable_ready a0 any_memory any_change i rs c c1 Hx Hc1 Ho) as Hx1. specialize (Hp (mem c1.1)).
  destruct (f (mem c1.1)) as [x m|e]; [|done]. simpl. intros _. exists c1.2.
  destruct (upd_thread a0 any_memory any_change i c1 m (lgs c1.1) (helpings c1.1) Hc1
    (λ _ _, eq_refl) I I) as [Hc2 Hk].
  split; [by intros _|]. by apply IH.
Qed.

Lemma ht_thunk i n : ∀ rs,
  ht i (ready i rs) (thunk i n rs) (λ rs' c, ∃ rs'', ready i rs'' c ∧ rs'' = rs' ∧ length rs' = (length rs + n)%nat).
Proof.
  induction n as [|n IH]; intros rs.
  { apply ht_ret. intros c Hc. exists rs. split_and!; [done|done|lia]. }
  cbn [thunk]. eapply ht_bind; [by apply ht_event|]. intros v. apply ht_pure. intros Hv.
  eapply ht_bind.
  { eapply ht_weaken; [by apply (ht_commit_value alloc junk alloc_fresh junk_len a0 fuel
      any_memory any_change i rs v (λ _ _, True))|by split|intros r c Hr; exact Hr]. }
  intros r. eapply ht_weaken; [apply IH|by auto|]. intros rs' c (? & Hr & -> & Hl). exists rs'.
  split_and!; [done|done|]. rewrite Hl, length_app. simpl. lia.
Qed.
End agree.


(** C8: Helpers agree (lf_log.h).  Threads run the same thunk, a sequence of
    events that read and write shared memory in any way and commit what they
    found with [commit_value], on the log that starts at one array, interleaved
    at every atomic access; the log grows by arrays that they allocate and race
    to append.  No thread meets an error (the log never reads a dangling or
    null array and never leaves its bounds); two threads that have finished got
    the same value for every event both ran, and a value is reported as
    committed to at most one of them; a thread that ran more events than one
    array has entries got a result for each. *)
Theorem helpers_agree {M : Type} (alloc : gmap Z log_array → Z) (junk : Z → log_array)
    (a0 : Z) (fuel : nat) (event : list Z → prog M Z) (m : M) (ns : list nat)
    (alloc_fresh : ∀ h, h !! alloc h = None ∧ alloc h ≠ 0)
    (junk_len : ∀ p, length (log_entries (junk p)) = 8%nat)
    (first_array : a0 ≠ 0)
    (events_yield : ∀ rs, yields (λ v, v ≠ 0) (event rs)) :
  ∀ s ts, rtc step (start_state a0 m, imap (helper alloc junk a0 fuel event) ns) (s, ts) →
    (∀ i e, ¬ goes_wrong i e (s, ts)) ∧
    (∀ i n rs, ns !! i = Some n → ts !! i = Some (Ret rs) → length rs = n) ∧
    ∀ i j rs rs', i ≠ j → ts !! i = Some (Ret rs) → ts !! j = Some (Ret rs') →
      ∀ k v b v' b', rs !! k = Some (v, b) → rs' !! k = Some (v', b') →
        v = v' ∧ ¬ (b = true ∧ b' = true).
Proof.
  intros s ts Hsteps.
  destruct (protocol_sound (log_protocol a0 any_memory any_change) (λ _, False) idle
    (λ i rs c, ∃ rs', agreed i rs' c ∧ rs' = rs ∧ ∀ n, ns !! i = Some n → length rs = n)
    (start_state a0 m) (mkHist [a0] [] ∅) (imap (helper alloc junk a0 fuel event) ns))
    with s ts as (g & Hg & Hwrong & Hret); [done|by apply start_inv| |by apply steps_ok|].
  - intros i p Hp. rewrite list_lookup_imap in Hp.
    destruct (ns !! i) as [n|] eqn:Hi; simpl in Hp; [|done]. injection Hp as <-.
    split; [split; [apply lookup_empty|done]|]. apply ht_with_log.
    eapply ht_weaken; [by apply ht_thunk|by auto|].
    intros rs c (rs' & Hr & -> & Hl). exists rs. split_and!; [done|done|]. by intros ? [= <-].
  - assert (∀ i rs, ts !! i = Some (Ret rs) → agreed i rs (s, g)) as Hag.
    { intros i rs Hi. destruct (Hret i rs Hi) as (c & (? & Ha & -> & _) & Hk). by eapply stable_agreed. }
    split; [exact Hwrong|]. split.
    + intros i n rs Hn Hi. destruct (Hret i rs Hi) as (c & (? & _ & _ & Hl) & _). by apply Hl.
    + intros i j rs rs' Hij Hi Hj k v b v' b' Hk Hk'.
      destruct (proj1 (Hag i rs Hi) _ _ Hk) as (w & u & Hlk & [= -> ->]).
      destruct (proj1 (Hag j rs' Hj) _ _ Hk') as (w' & u' & Hlk' & [= -> ->]).
      simplify_eq. split; [done|]. intros [?%bool_decide_eq_true ?%bool_decide_eq_true]. congruence.
Qed.

(** Two threads add the memory's value to what they have agreed on so far and
    advance the memory; thread 1 overtakes thread 0. *)
Definition tick (rs : list Z) : prog Z Z :=
  x ← gets id; modify (λ _, Z.max 1 (x + 1)) ;; mret (Z.max 1 (foldr Z.add x rs)).

Definition two_helpers : config (LfLog.state Z) (list (Z * bool)) :=
  (start_state 1 5,
   imap (helper next_addr (λ _, mkArray (replicate 8 7) 9) 1 0 tick) [10; 9]%nat).

Lemma helpers_agree_witness : ∃ s ts rs rs', rtc step two_helpers (s, ts) ∧
  ts !! 0%nat = Some (Ret rs) ∧ ts !! 1%nat = Some (Ret rs') ∧
  rs !! 8%nat = Some (1623, false) ∧ rs' !! 8%nat = Some (1623, true) ∧ length rs = 10%nat ∧
  ∀ k v b v' b', rs !! k = Some (v, b) → rs' !! k = Some (v', b') → v = v' ∧ ¬ (b = true ∧ b' = true).
Proof.
  destruct (after_sched_steps
    (replicate 40 1%nat ++ replicate 45 0%nat ++ replicate 57 1%nat ++ replicate 34 0%nat)
    two_helpers
    (λ c, ∃ rs rs', c.2 !! 0%nat = Some (Ret rs) ∧ c.2 !! 1%nat = Some (Ret rs') ∧
      rs !! 8%nat = Some (1623, false) ∧ rs' !! 8%nat = Some (1623, true)))
    as ([s ts] & Hsteps & rs & rs' & H0 & H1 & H2 & H3).
  { vm_compute. eexists _, _. split_and!; reflexivity. }
  exists s, ts, rs, rs'. do 5 (split; [done|]).
  destruct (helpers_agree next_addr (λ _, mkArray (replicate 8 7) 9) 1 0 tick 5 [10; 9]%nat)
    with s ts as (_ & Hlen & Hagree).
  - apply next_addr_fresh.
  - reflexivity.
  - discriminate.
  - intros rs0 m m'. simpl. lia.
  - exact Hsteps.
  - split; [by apply (Hlen 0%nat)|]. by apply (Hagree 0%nat 1%nat).
Defined.
