(* ===== verification/LfTypes.v ===== *)
(** * LfTypes: shared variables and allocation inside lock-free critical
    sections (include/flock/lf_types.h and the compare-and-swap of
    include/flock/tagged.h).

    A load commits the word it read to the log; a store is a compare-and-swap
    from a committed word to a word with a fresh tag; an allocation commits the
    address, and whoever loses the commit gives its object back. *)

From stdpp Require Import prelude list gmap.
From Stdlib Require Import ZArith Lia.
From S2P Require Import Prelude Conc Tagged LfLog.
Local Open Scope Z_scope.

Section types.
Context {M : Type} (alloc : gmap Z log_array → Z) (junk : Z → log_array) (fuel : nat).
#[local] Abbreviation state := (LfLog.state M).

#[local] Abbreviation commit_value := (LfLog.commit_value alloc junk fuel).
#[local] Abbreviation commit_value_safe := (LfLog.commit_value_safe alloc junk fuel).
#[local] Abbreviation skip_if_done_no_log := (LfLog.skip_if_done_no_log alloc junk fuel).

(** a word of the shared memory *)
Definition mem_c {T} (c : cell M T) : cell state T :=
  Cell (λ s, peek c (mem s)) (λ v s, set_mem (poke c v (mem s)) s).

(** lg.is_empty() *)
Definition no_log (tid : nat) : prog state bool := l ← load (lg_c tid); mret (is_empty l).
End types.

(** ** tagged.h: compare-and-swap with tags *)
Module tagged_cas.
Section tagged_cas.
Context {M : Type} (alloc : gmap Z log_array → Z) (junk : Z → log_array) (fuel : nat).
Context (num_workers : nat) (get_ann : M → announce_write.state)
  (set_ann : announce_write.state → M → M).
#[local] Abbreviation state := (LfLog.state M).

Definition on_ann {A} (p : prog announce_write.state A) : prog state A :=
  zoom mem LfLog.set_mem (zoom get_ann set_ann p).

(** [loc] is the location, [addr] its address *)
Definition cas_tagged_ (tid : nat) (loc : cell M Z) (addr oldv newv : Z) (aba_free : bool)
  : prog state bool :=
  e ← no_log tid;
  if (e : bool) || aba_free then cas (mem_c loc) oldv newv
  else
    on_ann (announce_write.set tid (tagged.add_tag oldv addr)) ;;
    (* skip_if_done_no_log, whose thunk sets the variable [r] *)
    r ← (l ← load (lg_c tid);
         if is_empty l then cas (mem_c loc) oldv newv
         else
           en ← next_entry alloc junk fuel tid;
           v ← load (entry_c en);
           if v =? 0 then
             r ← cas (mem_c loc) oldv newv; store (entry_c en) 1 ;; mret r
           else mret false);
    on_ann (announce_write.clear tid) ;;
    mret r.

Definition cas_ (tid : nat) (loc : cell M Z) (addr oldv v : Z) (aba_free : bool) : prog state bool :=
  newv ← on_ann (tagged.next num_workers oldv v addr);
  cas_tagged_ tid loc addr oldv newv aba_free.

Definition cas_with_same_tag (tid : nat) (loc : cell M Z) (addr oldv v : Z) (aba_free : bool)
  : prog state bool :=
  cas_tagged_ tid loc addr oldv (tagged.add_tag oldv v) aba_free.
End tagged_cas.
End tagged_cas.

(** ** atomic: a variable with a tagged word *)
Module lf_atomic.
Section lf_atomic.
Context {M : Type} (alloc : gmap Z log_array → Z) (junk : Z → log_array) (fuel : nat).
Context (num_workers : nat) (get_ann : M → announce_write.state)
  (set_ann : announce_write.state → M → M).
Context (v : cell M Z) (addr : Z).
#[local] Abbreviation state := (LfLog.state M).
#[local] Abbreviation cas_ := (tagged_cas.cas_ alloc junk fuel num_workers get_ann set_ann).

Definition init (vv : Z) : prog state unit := Prelude.store (mem_c v) (tagged.init vv).
Definition get_val (tid : nat) : prog state Z :=
  x ← Prelude.load (mem_c v); r ← commit_value alloc junk fuel tid x; mret r.1.
Definition load (tid : nat) : prog state Z := x ← get_val tid; mret (tagged.value x).
Definition load_ni : prog state Z := x ← Prelude.load (mem_c v); mret (tagged.value x).
Definition read : prog state Z := x ← Prelude.load (mem_c v); mret (tagged.value x).
Definition read_snapshot : prog state Z := x ← Prelude.load (mem_c v); mret (tagged.value x).
Definition store (tid : nat) (vv : Z) : prog state unit :=
  old ← get_val tid; cas_ tid v addr old vv false ;; mret tt.
Definition cas_ni (tid : nat) (old_v new_v : Z) : prog state bool :=
  old_t ← Prelude.load (mem_c v);
  if tagged.value old_t =? old_v then cas_ tid v addr old_t new_v true else mret false.
Definition cas (tid : nat) (old_v new_v : Z) : prog state bool :=
  e ← no_log tid; assert_ e ;; cas_ni tid old_v new_v.
Definition cam (tid : nat) (oldv newv : Z) : prog state unit :=
  old_t ← get_val tid;
  when (tagged.value old_t =? oldv) (cas_ tid v addr old_t newv false ;; mret tt).
End lf_atomic.
End lf_atomic.

(** ** atomic_double: a variable with a count in a second word *)
Module atomic_double.
Section atomic_double.
Context {M : Type} (alloc : gmap Z log_array → Z) (junk : Z → log_array) (fuel : nat).
#[local] Abbreviation state := (LfLog.state M).
(** the 16-byte word (count, val) *)
Context (v : cell M (Z * Z)).

Definition init_value (vv : Z) : Z * Z := (1, vv).
Definition val : cell state Z :=
  Cell (λ s, match peek v (mem s) with inr w => inr w.2 | inl e => inl e end)
       (λ x s, match peek v (mem s) with
               | inr w => LfLog.set_mem (poke v (w.1, x) (mem s)) s
               | inl _ => s
               end).
Definition count : cell state Z :=
  Cell (λ s, match peek v (mem s) with inr w => inr w.1 | inl e => inl e end)
       (λ x s, match peek v (mem s) with
               | inr w => LfLog.set_mem (poke v (x, w.2) (mem s)) s
               | inl _ => s
               end).

Definition cam (oldv newv : Z * Z) : prog state unit := cas (mem_c v) oldv newv ;; mret tt.
Definition load (tid : nat) : prog state Z :=
  x ← Prelude.load val; r ← commit_value_safe alloc junk fuel tid x; mret r.1.
Definition read : prog state Z := Prelude.load val.
Definition init (vv : Z) : prog state unit := Prelude.store val vv.
Definition store (tid : nat) (newv : Z) : prog state unit :=
  c ← Prelude.load count;
  r ← commit_value alloc junk fuel tid c;
  skip_if_done_no_log alloc junk fuel tid
    (x ← Prelude.load val; cam (r.1, x) (wrap64 (r.1 + 1), newv)) ;;
  mret tt.
End atomic_double.
End atomic_double.

(** ** Variables whose plain values cannot suffer from ABA *)
Definition high_bit : Z := 2 ^ 63.

Module atomic_aba_free.
Section atomic_aba_free.
Context {M : Type} (alloc : gmap Z log_array → Z) (junk : Z → log_array) (fuel : nat).
Context (v : cell M Z).
#[local] Abbreviation state := (LfLog.state M).

Definition log_value (tid : nat) (x : Z) : prog state Z :=
  r ← commit_value alloc junk fuel tid (Z.lor x high_bit);
  mret (Z.land r.1 (not64 high_bit)).
Definition load (tid : nat) : prog state Z := x ← Prelude.load (mem_c v); log_value tid x.
Definition store (tid : nat) (vv : Z) : prog state unit :=
  old_v ← Prelude.load (mem_c v);
  x ← log_value tid old_v;
  when (x =? old_v) (Prelude.cas (mem_c v) old_v vv ;; mret tt).
Definition cam (tid : nat) (expected new_v : Z) : prog state unit :=
  old_v ← Prelude.load (mem_c v);
  when (old_v =? expected)
    (x ← log_value tid old_v;
     when (x =? old_v) (Prelude.cas (mem_c v) old_v new_v ;; mret tt)).
Definition load_ni : prog state Z := Prelude.load (mem_c v).
Definition store_ni (vv : Z) : prog state unit := Prelude.store (mem_c v) vv.
Definition cas_ni (exp_v new_v : Z) : prog state bool := Prelude.cas (mem_c v) exp_v new_v.
End atomic_aba_free.
End atomic_aba_free.

Module lf_write_once.
Section lf_write_once.
Context {M : Type} (alloc : gmap Z log_array → Z) (junk : Z → log_array) (fuel : nat).
Context (v : cell M Z).
#[local] Abbreviation state := (LfLog.state M).

Definition load (tid : nat) : prog state Z :=
  y ← Prelude.load (mem_c v);
  r ← commit_value alloc junk fuel tid (Z.lor y high_bit);
  mret (Z.land r.1 (not64 high_bit)).
Definition init (vv : Z) : prog state unit := Prelude.store (mem_c v) vv.
Definition store (vv : Z) : prog state unit := Prelude.store (mem_c v) vv.
Definition load_ni : prog state Z := Prelude.load (mem_c v).
Definition store_ni (vv : Z) : prog state unit := Prelude.store (mem_c v) vv.
Definition cas_ni (exp_v new_v : Z) : prog state bool := Prelude.cas (mem_c v) exp_v new_v.
End lf_write_once.
End lf_write_once.

(** ** Results of thunks, packed in the word that held the descriptor

    A size_t: 1 in bits [48-64) marks a result, 2 marks that there is none. *)
Module results.
Definition is_done_flag (p : Z) : bool := 0 <? Z.shiftr p 48.
Definition tag_bool (result : bool) : Z := if result then Z.shiftl 1 48 else Z.shiftl 2 48.
Definition extract_bool (p : Z) : bool := Z.shiftr p 48 =? 1.
Definition tag_result (result : option Z) : Z :=
  match result with
  | None => Z.shiftl 2 48
  | Some v => Z.lor (Z.shiftl 1 48) (wrap64 v)
  end.
Definition extract_result (p : Z) : option Z :=
  if extract_bool p then Some (Z.land p (Z.shiftl 1 48 - 1)) else None.
End results.

(** ** memory_pool over any pool of objects *)
Module memory_pool.
Section memory_pool.
Context {M : Type} (alloc : gmap Z log_array → Z) (junk : Z → log_array) (fuel : nat).
#[local] Abbreviation state := (LfLog.state M).
(** the pool (Epoch): new_obj, destruct, retire and acquire *)
Context (pool_new_obj : prog state Z) (pool_destruct pool_acquire : Z → prog state unit)
  (pool_retire : Z → prog state Z).

Definition new_obj_fl (tid : nat) : prog state (Z * bool) :=
  newv ← with_log tid empty_log pool_new_obj;
  r ← commit_value alloc junk fuel tid newv;
  when (negb r.2) (with_empty_log tid (pool_destruct newv)) ;;
  mret r.
Definition new_obj (tid : nat) : prog state Z := r ← new_obj_fl tid; mret r.1.

Definition new_init (tid : nat) (f : Z → prog state unit) : prog state Z :=
  newv ← with_log tid empty_log (x ← pool_new_obj; f x ;; mret x);
  r ← commit_value alloc junk fuel tid newv;
  when (negb r.2) (with_empty_log tid (pool_destruct newv)) ;;
  ok ← check_synchronized alloc junk fuel tid 13;
  assert_ ok ;;
  mret r.1.

Definition acquire (p : Z) : prog state unit := pool_acquire p.
Definition retire (tid : nat) (p : Z) : prog state Z :=
  assert_ (negb (p =? 0)) ;;
  h ← load (helping_c tid);
  if negb h then with_empty_log tid (pool_retire p) else mret 0.
Definition retire_ni (tid : nat) (p : Z) : prog state Z :=
  assert_ (negb (p =? 0)) ;; with_empty_log tid (pool_retire p).
Definition destruct_ (tid : nat) (p : Z) : prog state unit :=
  assert_ (negb (p =? 0)) ;;
  x ← commit_value_safe alloc junk fuel tid p;
  when x.2 (with_empty_log tid (pool_destruct p)).
Definition destruct_ni (tid : nat) (p : Z) : prog state unit :=
  assert_ (negb (p =? 0)) ;; with_empty_log tid (pool_destruct p).

(** the object and, for the thread that allocated it, its log entry *)
Definition new_obj_acquired (tid : nat) : prog state (Z * option (Z * Z)) :=
  '(ptr, fl) ← new_obj_fl tid;
  e ← no_log tid;
  if (e : bool) then mret (ptr, None)
  else
    l ← current_entry tid;
    if negb fl && negb (results.is_done_flag ptr) then
      pool_acquire ptr ;;
      x ← load (entry_c l);
      mret (x, None)
    else mret (ptr, if (fl : bool) then Some l else None).

Definition retire_acquired_result (tid : nat) (p : Z) (le : option (Z * Z)) (result : option Z)
  : prog state unit :=
  e ← no_log tid;
  if (e : bool) then pool_retire p ;; mret tt
  else match le with
       | Some l =>
           store (entry_c l) (results.tag_result result) ;;
           with_empty_log tid (pool_retire p) ;; mret tt
       | None => mret tt
       end.

Definition is_done (p : Z) : bool := results.is_done_flag p.
Definition done_val_result (p : Z) : option Z := results.extract_result p.
End memory_pool.
End memory_pool.

Section logged.
Context {M : Type} (alloc : gmap Z log_array → Z) (junk : Z → log_array) (fuel : nat).
#[local] Abbreviation state := (LfLog.state M).
Definition commit (tid : nat) (v : Z) : prog state Z :=
  r ← commit_value alloc junk fuel tid v; mret r.1.
Definition non_idempotent {A} (tid : nat) (f : prog state A) : prog state A := with_empty_log tid f.
End logged.

(** ** Results of thunks *)
Section results.
Import results.

Lemma done_word v : 0 ≤ v < 2 ^ 48 → Z.lor (Z.shiftl 1 48) v = 2 ^ 48 + v.
Proof.
  intros Hv. replace (Z.shiftl 1 48) with (1 * 2 ^ 48) by done. rewrite lor_disjoint by lia. lia.
Qed.

(** C28: The result of a thunk survives in the word of its descriptor
    (lf_types.h, [tag_result], [extract_result]): a word so tagged is
    recognised as done, no result is found where there was none, and a result
    that fits in 48 bits is found again; but a negative one, whose conversion
    to size_t sets the high bits, is taken for no result. *)
Theorem result_roundtrip (v : Z) :
  (is_done_flag (tag_result None) = true ∧ extract_result (tag_result None) = None) ∧
  (0 ≤ v < 2 ^ 48 → is_done_flag (tag_result (Some v)) = true ∧
                    extract_result (tag_result (Some v)) = Some v) ∧
  (- 2 ^ 31 ≤ v < 0 → is_done_flag (tag_result (Some v)) = true ∧
                      extract_result (tag_result (Some v)) = None).
Proof.
  split; [done|]. split.
  - intros Hv. unfold tag_result. rewrite wrap64_small by (unfold is_w64; lia).
    rewrite done_word by done. unfold is_done_flag, extract_result, extract_bool.
    rewrite Z.shiftr_div_pow2 by lia.
    replace ((2 ^ 48 + v) / 2 ^ 48) with 1
      by (replace (2 ^ 48 + v) with (v + 1 * 2 ^ 48) by lia; rewrite Z_div_plus_full, Z.div_small; lia).
    split; [done|]. f_equal. change (Z.shiftl 1 48 - 1) with (2 ^ 48 - 1).
    rewrite (land_low _ 48) by lia. replace (2 ^ 48 + v) with (v + 1 * 2 ^ 48) by lia.
    rewrite Z.mod_add by lia. by apply Z.mod_small.
  - intros Hv. unfold tag_result.
    assert (wrap64 v = v + 2 ^ 64) as ->.
    { unfold wrap64. rewrite <-(Z.mod_add v 1) by lia. apply Z.mod_small. lia. }
    assert (Z.shiftr (Z.lor (Z.shiftl 1 48) (v + 2 ^ 64)) 48 = 2 ^ 16 - 1) as Hs.
    { rewrite Z.shiftr_lor. rewrite (Z.shiftr_div_pow2 (v + _)) by lia.
      replace ((v + 2 ^ 64) / 2 ^ 48) with (2 ^ 16 - 1); [done|].
      apply Z.div_unique_pos with (v + 2 ^ 48); lia. }
    unfold is_done_flag, extract_result, extract_bool. by rewrite Hs.
Qed.

Lemma result_roundtrip_witness :
  extract_result (tag_result (Some 7)) = Some 7 ∧ extract_result (tag_result (Some (-1))) = None.
Proof.
  split.
  - apply (proj1 (proj2 (result_roundtrip 7))). lia.
  - apply (proj2 (proj2 (result_roundtrip (-1)))). lia.
Defined.
End results.

(** ** A store that a helper repeats *)

(** a memory of tagged words, with the announcements *)
Record memory := mkMemory { words : gmap Z Z; ann : announce_write.state }.
Definition set_ann (a : announce_write.state) (m : memory) : memory := mkMemory (words m) a.
Definition word_c (addr : Z) : cell memory Z :=
  Cell (λ m, match words m !! addr with Some w => inr w | None => inl UseAfterFree end)
       (λ w m, mkMemory (<[addr := w]> (words m)) (ann m)).

Section idempotent.
Context (alloc : gmap Z log_array → Z) (junk : Z → log_array) (fuel n : nat) (addr : Z).
#[local] Abbreviation state := (LfLog.state memory).
Implicit Types s : state.

Definition stands (tid : nat) (a c : Z) s : Prop :=
  lgs s !! tid = Some (mkLog a c) ∧ a ≠ 0 ∧ 0 ≤ c.
Definition entry_is (a c v : Z) s : Prop :=
  ∃ ar, arrays s !! a = Some ar ∧ log_entries ar !! Z.to_nat c = Some v.
Definition put_lg (tid : nat) (l : Log) s : state := poke (lg_c tid) l s.

Lemma run_lg tid a c s : stands tid a c s → run (load (lg_c tid)) s = Ok (mkLog a c) s.
Proof. intros (H & _). apply run_load. simpl. by rewrite H. Qed.

Lemma peek_entry a c v s : a ≠ 0 → 0 ≤ c → entry_is a c v s → peek (entry_c (a, c)) s = inr v.
Proof.
  intros Ha Hc (ar & Har & Hv). simpl. unfold at_array.
  by rewrite (proj2 (Z.eqb_neq _ _) Ha), Har, (proj2 (Z.ltb_ge _ _) Hc), Hv.
Qed.

Lemma run_next_entry tid a c s : stands tid a c s → c < 8 →
  run (next_entry alloc junk fuel tid) s = Ok (a, c) (put_lg tid (mkLog a (c + 1)) s).
Proof.
  intros Hs Hc. pose proof Hs as (_ & Ha & _). unfold next_entry.
  rewrite run_bind, (run_lg _ a c) by done. unfold is_empty; cbn [vals count].
  rewrite (proj2 (Z.eqb_neq _ _) Ha). cbn [negb assert_]. rewrite run_bind. cbn [run].
  rewrite (proj2 (Z.eqb_neq c Log_Len)) by (unfold Log_Len; lia).
  rewrite run_bind. cbn [when run]. rewrite run_bind, (run_lg _ a c) by done. done.
Qed.

(** the entry is free: the value is committed *)
Lemma run_commit_free tid a c v s : stands tid a c s → c < 8 → entry_is a c 0 s → v ≠ 0 →
  run (commit_value alloc junk fuel tid v) s =
    Ok (v, true) (poke (entry_c (a, c)) v (put_lg tid (mkLog a (c + 1)) s)).
Proof.
  intros Hs Hc He Hv. pose proof Hs as (_ & Ha & Hc0). unfold commit_value.
  rewrite run_bind, (run_lg _ a c) by done. unfold is_empty; cbn [vals].
  rewrite (proj2 (Z.eqb_neq _ _) Ha), (proj2 (Z.eqb_neq _ _) Hv). cbn [negb assert_].
  rewrite run_bind. cbn [run]. rewrite run_bind, (run_next_entry _ a c) by done.
  assert (peek (entry_c (a, c)) (put_lg tid (mkLog a (c + 1)) s) = inr 0) as Hpk by by apply peek_entry.
  rewrite run_bind, (run_load _ _ 0 Hpk), Z.eqb_refl, run_bind.
  simpl in Hpk |- *. unfold on_cell; simpl. by rewrite Hpk.
Qed.

(** the entry is taken: its value is the result *)
Lemma run_commit_taken tid a c v w s : stands tid a c s → c < 8 → entry_is a c w s → w ≠ 0 → v ≠ 0 →
  run (commit_value alloc junk fuel tid v) s = Ok (w, false) (put_lg tid (mkLog a (c + 1)) s).
Proof.
  intros Hs Hc He Hw Hv. pose proof Hs as (_ & Ha & Hc0). unfold commit_value.
  rewrite run_bind, (run_lg _ a c) by done. unfold is_empty; cbn [vals].
  rewrite (proj2 (Z.eqb_neq _ _) Ha), (proj2 (Z.eqb_neq _ _) Hv). cbn [negb assert_].
  rewrite run_bind. cbn [run]. rewrite run_bind, (run_next_entry _ a c) by done.
  assert (peek (entry_c (a, c)) (put_lg tid (mkLog a (c + 1)) s) = inr w) as Hpk by by apply peek_entry.
  rewrite run_bind, (run_load _ _ w Hpk). by rewrite (proj2 (Z.eqb_neq _ _) Hw).
Qed.

Lemma run_on_ann {A} (p : prog announce_write.state A) s :
  run (tagged_cas.on_ann ann set_ann p) s =
    match run p (ann (mem s)) with
    | Ok x a' => Ok x (LfLog.set_mem (set_ann a' (mem s)) s)
    | Err e => Err e
    end.
Proof.
  unfold tagged_cas.on_ann. rewrite run_zoom by (done || by intros []).
  rewrite run_zoom by (done || by intros []). by destruct (run p _).
Qed.

Lemma run_announce tid v m : announce_write.wf n m → (tid < n)%nat →
  run (announce_write.set tid v) m = Ok tt (<[(tid * 16)%nat := v]> m).
Proof.
  intros Hwf Ht. unfold announce_write.set, announce_write.stride.
  destruct (lookup_lt_is_Some_2 m (tid * 16)%nat) as [x Hx].
  { rewrite Hwf. unfold announce_write.stride. lia. }
  rewrite (run_store _ _ x); [done|]. simpl. by rewrite Hx.
Qed.

(** the word [w0] was read by whoever committed first, the store is done *)
Definition store_done (a c w0 : Z) s : Prop := entry_is a c w0 s ∧ entry_is a (c + 1) 1 s ∧ w0 ≠ 0.
Definition quiet (tid : nat) s : Prop :=
  announce_write.wf n (ann (mem s)) ∧ (tid < n)%nat ∧ ann (mem s) !! (tid * 16)%nat = Some 0.

#[local] Abbreviation store := (lf_atomic.store alloc junk fuel n ann set_ann (word_c addr) addr).

Lemma set_mem_id s : LfLog.set_mem (set_ann (ann (mem s)) (mem s)) s = s.
Proof. by destruct s as [[]]. Qed.

Lemma quiet_insert tid v s : quiet tid s →
  <[(tid * 16)%nat := 0]> (<[(tid * 16)%nat := v]> (ann (mem s))) = ann (mem s).
Proof. intros (_ & _ & H). by rewrite list_insert_insert_eq, list_insert_id. Qed.

Lemma wf_insert_ann tid v m : announce_write.wf n m → announce_write.wf n (<[tid := v]> m).
Proof. unfold announce_write.wf. by rewrite length_insert. Qed.

Lemma run_store_skipped tid a c w0 w w1 vv s : stands tid a c s → c + 2 ≤ 8 →
  store_done a c w0 s → quiet tid s → words (mem s) !! addr = Some w → w ≠ 0 →
  run (tagged.next n w0 vv addr) (ann (mem s)) = Ok w1 (ann (mem s)) →
  run (store tid vv) s = Ok tt (put_lg tid (mkLog a (c + 2)) s).
Proof.
  intros Hs Hc (He & He1 & Hw0) Hq Hw Hw' Hnext.
  pose proof Hs as (_ & Ha & Hc0). pose proof Hq as (Hwf & Hn & _).
  unfold store, lf_atomic.get_val. rewrite !run_bind.
  rewrite (run_load _ _ w) by (simpl; by rewrite Hw).
  rewrite run_bind, (run_commit_taken _ a c _ w0) by (done || lia). cbn [run mret prog_ret fst].
  set (s1 := put_lg tid (mkLog a (c + 1)) s).
  unfold tagged_cas.cas_. rewrite run_bind, run_bind, run_on_ann.
  change (ann (mem s1)) with (ann (mem s)). rewrite Hnext.
  change (ann (mem s)) with (ann (mem s1)) at 1. rewrite (set_mem_id s1).
  assert (stands tid a (c + 1) s1) as Hs1 by (split; [apply lookup_insert_eq|split; [done|lia]]).
  unfold tagged_cas.cas_tagged_, no_log. rewrite run_bind, run_bind, (run_lg _ a (c + 1)) by done.
  cbn [run mret prog_ret]. unfold is_empty; cbn [vals].
  rewrite (proj2 (Z.eqb_neq _ _) Ha). cbn [orb].
  rewrite run_bind, run_on_ann, run_announce by done.
  set (s2 := LfLog.set_mem _ s1).
  assert (stands tid a (c + 1) s2) as Hs2 by exact Hs1.
  rewrite run_bind, run_bind, (run_lg _ a (c + 1)) by done. unfold is_empty; cbn [vals].
  rewrite (proj2 (Z.eqb_neq _ _) Ha).
  rewrite run_bind, (run_next_entry _ a (c + 1)) by (done || lia).
  rewrite run_bind, (run_load _ _ 1) by (apply peek_entry; [done|lia|exact He1]).
  cbn [Z.eqb run mret prog_ret]. rewrite run_bind, run_on_ann.
  change (announce_write.clear tid) with (announce_write.set tid 0).
  cbn [mem put_lg poke lg_c total_cell s2 LfLog.set_mem ann set_ann].
  rewrite run_announce by (done || by apply wf_insert_ann).
  cbn [run mret prog_ret]. do 2 f_equal. simpl. rewrite quiet_insert by done.
  destruct s as [[] ? ? ?]; simpl. unfold put_lg, LfLog.set_mem; simpl. rewrite insert_insert_eq.
  by replace (c + 1 + 1) with (c + 2) by lia.
Qed.

Lemma run_store_first tid a c w0 w1 vv s : stands tid a c s → c + 2 ≤ 8 →
  entry_is a c 0 s → entry_is a (c + 1) 0 s → quiet tid s →
  words (mem s) !! addr = Some w0 → w0 ≠ 0 →
  run (tagged.next n w0 vv addr) (ann (mem s)) = Ok w1 (ann (mem s)) →
  ∃ s', run (store tid vv) s = Ok tt s' ∧ store_done a c w0 s' ∧
    mem s' = mkMemory (<[addr := w1]> (words (mem s))) (ann (mem s)) ∧
    lgs s' = <[tid := mkLog a (c + 2)]> (lgs s).
Proof.
  intros Hs Hc He He1 Hq Hw Hw0 Hnext.
  pose proof Hs as (_ & Ha & Hc0). pose proof Hq as (Hwf & Hn & _).
  destruct He as (ar & Har & Hv), He1 as (ar' & Har' & Hv'). simplify_eq.
  unfold store, lf_atomic.get_val. rewrite !run_bind.
  rewrite (run_load _ _ w0) by (simpl; by rewrite Hw).
  rewrite run_bind, (run_commit_free _ a c) by (done || lia || by eexists). cbn [run mret prog_ret fst].
  unfold tagged_cas.cas_. rewrite run_bind, run_bind, run_on_ann.
  set (s1 := poke (entry_c (a, c)) w0 _).
  assert (s1 = LfLog.mkState (mem s)
    (<[a := mkArray (<[Z.to_nat c := w0]> (log_entries ar)) (next ar)]> (arrays s))
    (<[tid := mkLog a (c + 1)]> (lgs s)) (helpings s)) as Hs1 by (unfold s1; simpl; by rewrite Har).
  rewrite Hs1. clear s1 Hs1. set (s1 := LfLog.mkState _ _ _ _).
  change (ann (mem s1)) with (ann (mem s)). rewrite Hnext.
  change (ann (mem s)) with (ann (mem s1)) at 1. rewrite (set_mem_id s1).
  assert (stands tid a (c + 1) s1) as Hs1 by (split; [apply lookup_insert_eq|split; [done|lia]]).
  unfold tagged_cas.cas_tagged_, no_log. rewrite run_bind, run_bind, (run_lg _ a (c + 1)) by done.
  cbn [run mret prog_ret]. unfold is_empty; cbn [vals].
  rewrite (proj2 (Z.eqb_neq _ _) Ha). cbn [orb].
  rewrite run_bind, run_on_ann, run_announce by done.
  set (s2 := LfLog.set_mem _ s1).
  assert (stands tid a (c + 1) s2) as Hs2 by exact Hs1.
  rewrite run_bind, run_bind, (run_lg _ a (c + 1)) by done. unfold is_empty; cbn [vals].
  rewrite (proj2 (Z.eqb_neq _ _) Ha).
  rewrite run_bind, (run_next_entry _ a (c + 1)) by (done || lia).
  assert (entry_is a (c + 1) 0 s2) as He2.
  { exists (mkArray (<[Z.to_nat c := w0]> (log_entries ar)) (next ar)).
    split; [apply lookup_insert_eq|]. simpl. rewrite list_lookup_insert_ne by lia. done. }
  rewrite run_bind, (run_load _ _ 0) by (apply peek_entry; [done|lia|exact He2]).
  rewrite Z.eqb_refl. rewrite run_bind, (run_cas _ _ w0) by (simpl; by rewrite Hw).
  rewrite decide_True by done.
  rewrite run_bind, (run_store _ _ 0) by (apply peek_entry; [done|lia|exact He2]).
  cbn [run mret prog_ret]. rewrite run_bind, run_on_ann.
  change (announce_write.clear tid) with (announce_write.set tid 0).
  cbn -[announce_write.set]. rewrite lookup_insert_eq. cbn -[announce_write.set].
  rewrite run_announce by (done || by apply wf_insert_ann).
  cbn [run mret prog_ret]. eexists. split; [done|]. split; [|split].
  - assert (Z.to_nat c < length (log_entries ar))%nat by by eapply lookup_lt_Some.
    assert (Z.to_nat (c + 1) < length (log_entries ar))%nat by by eapply lookup_lt_Some.
    split; [|split; [|done]]; eexists; (split; [simpl; apply lookup_insert_eq|]); simpl.
    + rewrite list_lookup_insert_ne by lia. by rewrite list_lookup_insert_eq.
    + by rewrite list_lookup_insert_eq by by rewrite length_insert.
  - simpl. f_equal. by rewrite quiet_insert.
  - simpl. rewrite insert_insert_eq. by replace (c + 1 + 1) with (c + 2) by lia.
Qed.
End idempotent.

(** A store inside a lock is done once (lf_types.h [atomic::store], tagged.h
    [cas_tagged_]).  Two threads run the same store at the same position of one
    log, one after the other.  The first commits the word it read, installs a
    word with the new value and a tag that no announcement of the location
    holds, and withdraws its announcement; the second, although it finds the
    location changed, commits nothing, changes neither the location nor the
    announcements, and both logs end at the same position. *)
Theorem store_idempotent alloc junk fuel n addr (s : LfLog.state memory) t1 t2 a c w0 vv :
  t1 ≠ t2 → stands t1 a c s → stands t2 a c s → c + 2 ≤ 8 →
  entry_is a c 0 s → entry_is a (c + 1) 0 s → quiet n t1 s → quiet n t2 s →
  words (mem s) !! addr = Some w0 → is_w64 w0 → w0 ≠ 0 → 0 < vv < 2 ^ 48 →
  Forall is_w64 (announce_write.announced n (ann (mem s))) → Z.of_nat n < 32766 →
  next_pre (announce_write.announced n (ann (mem s))) addr w0 →
  let store tid := lf_atomic.store alloc junk fuel n ann set_ann (word_c addr) addr tid vv in
  ∃ s1 w1, run (store t1) s = Ok tt s1 ∧
    mem s1 = mkMemory (<[addr := w1]> (words (mem s))) (ann (mem s)) ∧
    fresh_tag (announce_write.announced n (ann (mem s))) addr vv w1 ∧
    lgs s1 = <[t1 := mkLog a (c + 2)]> (lgs s) ∧
    run (store t2) s1 = Ok tt (put_lg t2 (mkLog a (c + 2)) s1).
Proof.
  intros Ht Hs1 Hs2 Hc He1 He2 Hq1 Hq2 Hw Hw64 Hw0 Hv Hanns Hn Hpre store.
  pose proof Hq1 as (Hwf & _ & _).
  destruct (next_fresh_word n (ann (mem s)) w0 vv addr) as (w1 & Hnext & Hfresh); [done..|lia|done|].
  destruct (run_store_first alloc junk fuel n addr t1 a c w0 w1 vv s) as (s1 & Hrun & Hdone & Hmem & Hlg);
    [done..|].
  exists s1, w1. do 4 (split; [done|]).
  destruct Hs2 as (Hl2 & Ha & Hc0), Hq2 as (_ & Hn2 & Hz2).
  apply (run_store_skipped alloc junk fuel n addr t2 a c w0 w1 w1); try done.
  - split; [|done]. rewrite Hlg. by rewrite lookup_insert_ne.
  - unfold quiet. by rewrite Hmem.
  - rewrite Hmem. simpl. apply lookup_insert_eq.
  - destruct Hfresh as (_ & Hval & _). intros ->. change (tagged.value 0) with 0 in Hval. lia.
  - by rewrite Hmem.
Qed.

(** Two workers; the location 4096 holds 7 and gets 9. *)
Definition store_start : LfLog.state memory :=
  LfLog.mkState (mkMemory {[ 4096 := tagged.init 7 ]} (announce_write.init 2))
    {[ 64 := mkArray (replicate 8 0) 0 ]} {[ 0%nat := mkLog 64 0; 1%nat := mkLog 64 0 ]} ∅.

Lemma store_idempotent_witness : ∃ s1 w1,
  run (lf_atomic.store next_addr (λ _, mkArray [] 0) 1 2 ann set_ann (word_c 4096) 4096 0 9) store_start
    = Ok tt s1 ∧ words (mem s1) !! 4096 = Some w1 ∧ tagged.value w1 = 9 ∧
  run (lf_atomic.store next_addr (λ _, mkArray [] 0) 1 2 ann set_ann (word_c 4096) 4096 1 9) s1
    = Ok tt (put_lg 1 (mkLog 64 2) s1).
Proof.
  destruct (store_idempotent next_addr (λ _, mkArray [] 0) 1 2 4096 store_start 0 1 64 0
    (tagged.init 7) 9) as (s1 & w1 & H1 & H2 & H3 & H4 & H5).
  - discriminate.
  - split; [reflexivity|split; [discriminate|lia]].
  - split; [reflexivity|split; [discriminate|lia]].
  - lia.
  - eexists. split; reflexivity.
  - eexists. split; reflexivity.
  - split; [reflexivity|split; [lia|reflexivity]].
  - split; [reflexivity|split; [lia|reflexivity]].
  - reflexivity.
  - vm_compute. split; [discriminate|reflexivity].
  - vm_compute. discriminate.
  - lia.
  - by repeat constructor.
  - lia.
  - right. intros x Hin Ha.
    assert (x = 0) as -> by (change (x ∈ [0; 0]) in Hin; rewrite !elem_of_cons, elem_of_nil in Hin; tauto).
    split; [reflexivity|intros _; vm_compute; discriminate].
  - exists s1, w1. split; [exact H1|]. split; [rewrite H2; apply lookup_insert_eq|].
    split; [apply H3|exact H5].
Defined.
