(* ===== verification/Idempotence.v ===== *)
(** * Idempotence: a critical section that several threads run has the effect
    of one run (include/flock/lf_log.h, include/flock/lf_types.h,
    include/flock/tagged.h).

    The code of a critical section, as a tree of its loads, stores and
    compare-and-modify operations on shared variables, is run by any number of
    helpers on one log, with the operations of [LfTypes.lf_atomic].  The
    invariant [agrees] relates the words in memory and the committed values to
    one sequential run of the section. *)

From stdpp Require Import prelude list gmap.
From Stdlib Require Import ZArith Lia.
From S2P Require Import Prelude Conc Tagged LfLog LogProof LfTypes.
Local Open Scope Z_scope.

(** ** Critical sections *)
Inductive code (A : Type) :=
  | Done (a : A)
  | Load (p : Z) (k : Z → code A)
  | Store (p v : Z) (k : code A)
  | Cam (p oldv newv : Z) (k : code A).
Arguments Done {A} _.
Arguments Load {A} _ _.
Arguments Store {A} _ _ _.
Arguments Cam {A} _ _ _ _.

(** the section as the library runs it, on the shared words *)
Section run.
Context (alloc : gmap Z log_array → Z) (junk : Z → log_array) (fuel : nat) (num_workers : nat).
#[local] Abbreviation state := (LfLog.state memory).

Fixpoint perform {A} (tid : nat) (σ : code A) : prog state A :=
  match σ with
  | Done a => mret a
  | Load p k => x ← lf_atomic.load alloc junk fuel (word_c p) tid; perform tid (k x)
  | Store p v k =>
      lf_atomic.store alloc junk fuel num_workers ann set_ann (word_c p) p tid v ;; perform tid k
  | Cam p oldv newv k =>
      lf_atomic.cam alloc junk fuel num_workers ann set_ann (word_c p) p tid oldv newv ;;
      perform tid k
  end.

(** a thread that helps: it runs the section with the log at [a0] *)
Definition help {A} (a0 : Z) (σ : code A) (tid : nat) : prog state A :=
  with_log tid (mkLog a0 0) (perform tid σ).
End run.

(** ** What one sequential run does

    [exec] runs the section on the values of the variables: the result, the
    values at the end and the number of updates; there is none if it uses a
    variable that does not exist or stores a value that does not fit. *)
Definition fits48 (v : Z) : bool := (0 <=? v) && (v <? 2 ^ 48).

Definition updated {A} (r : option (A * gmap Z Z * nat)) : option (A * gmap Z Z * nat) :=
  match r with Some (a, m, n) => Some (a, m, S n) | None => None end.

Fixpoint exec {A} (σ : code A) (m : gmap Z Z) : option (A * gmap Z Z * nat) :=
  match σ with
  | Done a => Some (a, m, 0%nat)
  | Load p k => match m !! p with Some x => exec (k x) m | None => None end
  | Store p v k =>
      match m !! p with
      | Some _ => if fits48 v then updated (exec k (<[p := v]> m)) else None
      | None => None
      end
  | Cam p oldv newv k =>
      match m !! p with
      | Some x =>
          if x =? oldv
          then if fits48 newv then updated (exec k (<[p := newv]> m)) else None
          else exec k m
      | None => None
      end
  end.

(** the memories a sequential run goes through *)
Fixpoint memories {A} (σ : code A) (m : gmap Z Z) : list (gmap Z Z) :=
  match σ with
  | Done _ => [m]
  | Load p k => memories (k (m !!! p)) m
  | Store p v k => m :: memories k (<[p := v]> m)
  | Cam p oldv newv k =>
      if m !!! p =? oldv then m :: memories k (<[p := newv]> m) else memories k m
  end.

(** ** Words whose count stays within its half of the range *)
Definition plain (n : nat) (w : Z) : Prop :=
  is_w64 w ∧ 0 < tagno w ∧ Z.odd (tagno w) = false ∧
  (tagno w + 2 * Z.of_nat n) / 32768 = tagno w / 32768.

Definition bump (w v : Z) : Z := tagged.next_no_overflow w v.

Section plain.
Import tagged.

Lemma plain_weaken n n' w : (n' ≤ n)%nat → plain n w → plain n' w.
Proof.
  intros Hn (Hw & Ht & Ho & Hh). split_and!; [done..|].
  apply Z.le_antisymm; [|apply Z.div_le_mono; lia].
  rewrite <-Hh. apply Z.div_le_mono; lia.
Qed.

Lemma plain_nonzero n w : plain n w → w ≠ 0.
Proof. intros (_ & Ht & _) ->. done. Qed.

Lemma plain_inc n w : plain (S n) w →
  inc_tag w = (tagno w + 2) * 2 ^ 48 ∧ tagno w + 2 < 65536 ∧
  (tagno w + 2) / 32768 = tagno w / 32768.
Proof.
  intros Hp. pose proof Hp as (Hw & Ht & Ho & Hh). pose proof (tagno_range w Hw) as Hr.
  assert ((tagno w + 2) / 32768 = tagno w / 32768) as Hh1.
  { destruct (plain_weaken (S n) 1 w) as (_ & _ & _ & H); [lia|done|]. exact H. }
  assert (tagno w + 2 < 65536) as Hlt by (Z.div_mod_to_equations; lia).
  split; [|done]. rewrite inc_tag_word by done. f_equal. unfold tinc.
  rewrite Z.mod_small by lia. case_bool; lia.
Qed.

Lemma plain_bump n w v : plain (S n) w → fits48 v = true →
  plain n (bump w v) ∧ value (bump w v) = v ∧ tagno w < tagno (bump w v).
Proof.
  intros Hp Hv. unfold fits48 in Hv. pose proof Hp as (Hw & Ht & Ho & Hh).
  destruct (plain_inc n w Hp) as (Hi & Hlt & Hh1).
  destruct (tagged_word_facts (tagno w + 2) v) as (Hor & Hw' & Hval & Htag & _); [lia|lia|].
  unfold bump, next_no_overflow. rewrite Hi, Hor. split_and!; [|done|lia]. split_and!.
  - done.
  - lia.
  - rewrite Htag, Z.odd_add, Ho. done.
  - rewrite Htag, Hh1. rewrite <-Hh. f_equal. lia.
Qed.

(** no announcement is looked at *)
Lemma next_plain nw n w v p : plain (S n) w → fits48 v = true → next nw w v p = mret (bump w v).
Proof.
  intros Hp Hv. unfold fits48 in Hv. pose proof Hp as (Hw & Ht & Ho & Hh).
  destruct (plain_inc n w Hp) as (Hi & Hlt & Hh1).
  assert (is_w64 ((tagno w + 2) * 2 ^ 48)) as Hw2 by (unfold is_w64; lia).
  unfold next. assert (must_scan w (inc_tag w) = false) as ->.
  { unfold must_scan. rewrite top_bit_eq, panic_bit_eq, testbit48, Ho, Hi, orb_false_r.
    rewrite same_half_tagno, tagno_mul by done. pose proof (tagno_range w Hw).
    apply negb_false_iff, eqb_true_iff. repeat case_bool; Z.div_mod_to_equations; lia. }
  cbn [mbind prog_bind pbind mret prog_ret]. f_equal. unfold bump, next_no_overflow. rewrite Hi.
  rewrite clear_panic by lia. rewrite Z.odd_add, Ho. simpl Z.b2z. by rewrite Z.sub_0_r.
Qed.
End plain.

(** ** The log and the memory of a run

    [agrees σ m cur l]: the section started on the words [m], the values [l]
    have been committed and the words are now [cur].  A store commits the word
    it read and, once the location holds the new word, the flag 1; in between
    the location holds either word. *)
Definition after_put (K : gmap Z Z → gmap Z Z → list Z → Prop) (p w v : Z) (m cur : gmap Z Z) (l : list Z)
  : Prop :=
  match l with
  | [] => cur = m ∨ cur = <[p := bump w v]> m
  | f :: l' => f = 1 ∧ K (<[p := bump w v]> m) cur l'
  end.

Fixpoint agrees {A} (σ : code A) (m cur : gmap Z Z) (l : list Z) : Prop :=
  match σ with
  | Done _ => cur = m ∧ l = []
  | Load p k =>
      match l with
      | [] => cur = m
      | w :: l' => m !! p = Some w ∧ agrees (k (tagged.value w)) m cur l'
      end
  | Store p v k =>
      match l with
      | [] => cur = m
      | w :: l' => m !! p = Some w ∧ after_put (agrees k) p w v m cur l'
      end
  | Cam p oldv newv k =>
      match l with
      | [] => cur = m
      | w :: l' => m !! p = Some w ∧
          if tagged.value w =? oldv then after_put (agrees k) p w newv m cur l' else agrees k m cur l'
      end
  end.

(** the sequential run from here, with room for its updates *)
Definition good {A} (σ : code A) (m : gmap Z Z) (a : A) (vals : gmap Z Z) (n : nat) : Prop :=
  exec σ (tagged.value <$> m) = Some (a, vals, n) ∧ ∀ p w, m !! p = Some w → plain n w.

Section agrees.
Context {A : Type}.
Implicit Types (σ : code A) (a : A).

Lemma agrees_start σ m : agrees σ m m [].
Proof. by destruct σ. Qed.

Lemma updated_Some (r : option (A * gmap Z Z * nat)) a vals n : updated r = Some (a, vals, n) →
  ∃ n', n = S n' ∧ r = Some (a, vals, n').
Proof. destruct r as [[[? ?] ?]|]; simpl; [|done]. intros [= -> -> <-]. eauto. Qed.

(** the memory after an update *)
Lemma good_put k (m : gmap Z Z) p w v a vals n : (∀ q x, m !! q = Some x → plain n x) →
  m !! p = Some w →
  (if fits48 v then updated (exec k (<[p := v]> (tagged.value <$> m))) else None) = Some (a, vals, n) →
  ∃ n', n = S n' ∧ fits48 v = true ∧ good k (<[p := bump w v]> m) a vals n'.
Proof.
  intros Hm Hw. destruct (fits48 v) eqn:Hv; [|done]. intros (n' & -> & He)%updated_Some.
  exists n'. split; [done|]. split; [done|]. destruct (plain_bump n' w v) as (Hp & Hval & _); [by eapply Hm|done|].
  split; [by rewrite fmap_insert, Hval|]. intros q x [[<- <-]|[_ Hx]]%lookup_insert_Some; [done|].
  apply (plain_weaken (S n')); [lia|by eapply Hm].
Qed.

Lemma good_load p k m a vals n : good (Load p k) m a vals n →
  ∃ w, m !! p = Some w ∧ good (k (tagged.value w)) m a vals n.
Proof.
  intros [He Hm]. simpl in He. rewrite lookup_fmap in He.
  destruct (m !! p) as [w|]; simpl in He; [|done]. by exists w.
Qed.
Lemma good_store p v (k : code A) m a vals n : good (Store p v k) m a vals n →
  ∃ w n', m !! p = Some w ∧ n = S n' ∧ fits48 v = true ∧ good k (<[p := bump w v]> m) a vals n'.
Proof.
  intros [He Hm]. simpl in He. rewrite lookup_fmap in He.
  destruct (m !! p) as [w|] eqn:Hw; cbn [fmap option_fmap option_map] in He; [|done].
  destruct (good_put k m p w v a vals n) as (n' & ? & ? & ?); [done..|]. by exists w, n'.
Qed.
Lemma good_cam p oldv newv (k : code A) m a vals n : good (Cam p oldv newv k) m a vals n →
  ∃ w, m !! p = Some w ∧
    if tagged.value w =? oldv
    then ∃ n', n = S n' ∧ fits48 newv = true ∧ good k (<[p := bump w newv]> m) a vals n'
    else good k m a vals n.
Proof.
  intros [He Hm]. simpl in He. rewrite lookup_fmap in He.
  destruct (m !! p) as [w|] eqn:Hw; cbn [fmap option_fmap option_map] in He; [|done].
  exists w. split; [done|]. destruct (tagged.value w =? oldv); [|done]. by apply good_put.
Qed.

(** ** Words only move on *)
Definition ahead (m m' : gmap Z Z) : Prop :=
  ∀ p w, m !! p = Some w → ∃ w', m' !! p = Some w' ∧ tagno w ≤ tagno w'.

#[export] Instance ahead_preorder : PreOrder ahead.
Proof.
  split; [intros m p w Hw; exists w; split; [done|lia]|].
  intros m1 m2 m3 H12 H23 p w Hw. destruct (H12 p w Hw) as (w2 & Hw2 & ?).
  destruct (H23 p w2 Hw2) as (w3 & ? & ?). exists w3. split; [done|lia].
Qed.

Lemma ahead_bump n m p w v : plain (S n) w → fits48 v = true → m !! p = Some w →
  ahead m (<[p := bump w v]> m).
Proof.
  intros Hp Hv Hw q x Hx. destruct (plain_bump n w v Hp Hv) as (_ & _ & Hlt).
  destruct (decide (p = q)) as [<-|Hne].
  - rewrite lookup_insert_eq. simplify_eq. eexists. split; [done|lia].
  - rewrite lookup_insert_ne by done. exists x. split; [done|lia].
Qed.

Definition fine (cur : gmap Z Z) : Prop := ∀ p w, cur !! p = Some w → w ≠ 0.

Lemma good_fine σ m a vals n : good σ m a vals n → fine m.
Proof. intros [_ Hm] p w Hw. eapply plain_nonzero. by eapply Hm. Qed.

Lemma agrees_ahead σ : ∀ m cur l a vals n, good σ m a vals n → agrees σ m cur l →
  ahead m cur ∧ fine cur.
Proof.
  assert (∀ (k : code A) p w v m cur l a vals n,
    (∀ m cur l a vals n, good k m a vals n → agrees k m cur l → ahead m cur ∧ fine cur) →
    plain (S n) w → fits48 v = true → m !! p = Some w → fine m →
    good k (<[p := bump w v]> m) a vals n → after_put (agrees k) p w v m cur l →
    ahead m cur ∧ fine cur) as Hput.
  { intros k p w v m cur l a vals n IH Hp Hv Hw Hm Hg Hl. pose proof (ahead_bump n m p w v Hp Hv Hw) as Hb.
    destruct l as [|f l]; cbn [after_put] in Hl.
    - destruct Hl as [->| ->]; [by split|]. split; [done|by eapply good_fine].
    - destruct Hl as [_ Hl]. destruct (IH _ _ _ _ _ _ Hg Hl) as [Ha Hf]. split; [by etrans|done]. }
  induction σ as [x|p k IH|p v k IH|p oldv newv k IH]; intros m cur l a vals n Hg Hl;
    pose proof (good_fine _ _ _ _ _ Hg) as Hf.
  - destruct Hl as [-> _]. by split.
  - destruct l as [|w l]; cbn [agrees] in Hl; [subst; by split|]. destruct Hl as [Hw Hl].
    destruct (good_load _ _ _ _ _ _ Hg) as (w' & Hw' & Hg'). simplify_eq. by eapply IH.
  - destruct l as [|w l]; cbn [agrees] in Hl; [subst; by split|]. destruct Hl as [Hw Hl].
    destruct (good_store _ _ _ _ _ _ _ Hg) as (w' & n' & Hw' & -> & Hv & Hg'). simplify_eq.
    eapply Hput; try done. by apply Hg in Hw.
  - destruct l as [|w l]; cbn [agrees] in Hl; [subst; by split|]. destruct Hl as [Hw Hl].
    destruct (good_cam _ _ _ _ _ _ _ _ Hg) as (w' & Hw' & Hg'). simplify_eq.
    destruct (tagged.value w =? oldv); [|by eapply IH].
    destruct Hg' as (n' & -> & Hv & Hg'). eapply Hput; try done. by apply Hg in Hw.
Qed.

Lemma memories_first σ : ∀ m, m ∈ memories σ m.
Proof.
  induction σ as [x|p k IH|p v k IH|p oldv newv k IH]; intros m; simpl; [by left|done|by left|].
  destruct (m !!! p =? oldv); [by left|done].
Qed.

(** the values are those of a moment of the sequential run *)
Lemma agrees_memories σ : ∀ m cur l a vals n, good σ m a vals n → agrees σ m cur l →
  tagged.value <$> cur ∈ memories σ (tagged.value <$> m).
Proof.
  assert (∀ (k : code A) p w v m cur l a vals n,
    (∀ m cur l a vals n, good k m a vals n → agrees k m cur l →
       tagged.value <$> cur ∈ memories k (tagged.value <$> m)) →
    plain (S n) w → fits48 v = true →
    good k (<[p := bump w v]> m) a vals n → after_put (agrees k) p w v m cur l →
    tagged.value <$> cur ∈ (tagged.value <$> m) :: memories k (<[p := v]> (tagged.value <$> m))) as Hput.
  { intros k p w v m cur l a vals n IH Hp Hv Hg Hl. destruct (plain_bump n w v Hp Hv) as (_ & Hval & _).
    assert (<[p := v]> (tagged.value <$> m) = tagged.value <$> <[p := bump w v]> m) as ->
      by by rewrite fmap_insert, Hval.
    destruct l as [|f l]; cbn [after_put] in Hl.
    - destruct Hl as [->| ->]; [by left|]. right. apply memories_first.
    - destruct Hl as [_ Hl]. right. by eapply IH. }
  induction σ as [x|p k IH|p v k IH|p oldv newv k IH]; intros m cur l a vals n Hg Hl.
  - destruct Hl as [-> _]. by left.
  - destruct l as [|w l]; cbn [agrees] in Hl; [subst; apply memories_first|]. destruct Hl as [Hw Hl].
    destruct (good_load _ _ _ _ _ _ Hg) as (w' & Hw' & Hg'). simplify_eq.
    cbn [memories]. rewrite (lookup_total_correct _ p (tagged.value w)) by (by rewrite lookup_fmap, Hw).
    by eapply IH.
  - destruct l as [|w l]; cbn [agrees] in Hl; [subst; apply memories_first|]. destruct Hl as [Hw Hl].
    destruct (good_store _ _ _ _ _ _ _ Hg) as (w' & n' & Hw' & -> & Hv & Hg'). simplify_eq.
    eapply Hput; try done. by apply Hg in Hw.
  - destruct l as [|w l]; cbn [agrees] in Hl; [subst; apply memories_first|]. destruct Hl as [Hw Hl].
    destruct (good_cam _ _ _ _ _ _ _ _ Hg) as (w' & Hw' & Hg'). simplify_eq.
    cbn [memories]. rewrite (lookup_total_correct _ p (tagged.value w)) by (by rewrite lookup_fmap, Hw).
    destruct (tagged.value w =? oldv); [|by eapply IH].
    destruct Hg' as (n' & -> & Hv & Hg'). eapply Hput; try done. by apply Hg in Hw.
Qed.
End agrees.

(** ** The helpers *)
Section helpers.
Context (alloc : gmap Z log_array → Z) (junk : Z → log_array).
Context (alloc_fresh : ∀ m, m !! alloc m = None ∧ alloc m ≠ 0).
Context (junk_len : ∀ p, length (log_entries (junk p)) = 8%nat).
Context (a0 : Z) (fuel nw : nat) {A : Type} (σ0 : code A) (w0 : gmap Z Z).
#[local] Abbreviation state := (LfLog.state memory).
Implicit Types c : state * hist.

Definition run_inv (mm : memory) (l : list Z) : Prop :=
  agrees σ0 w0 (words mm) l ∧ announce_write.wf nw (ann mm).
Definition moves_on (mm mm' : memory) : Prop := ahead (words mm) (words mm').
#[export] Instance moves_on_preorder : PreOrder moves_on.
Proof.
  unfold moves_on. split; [by intros mm|]. intros m1 m2 m3 H12 H23. by etrans.
Qed.

#[local] Abbreviation π := (log_protocol a0 run_inv moves_on).
#[local] Abbreviation ht := (Conc.ht π (λ _, False)).
#[local] Abbreviation ready := (LogProof.ready).
#[local] Hint Extern 1 (stable _ _ (LogProof.ready _ _)) => apply stable_ready : stab.
#[local] Hint Extern 1 (stable _ _ (slot _ _ _)) => apply stable_slot : stab.
#[local] Hint Extern 1 (stable _ _ (λ c, LogProof.ready _ _ c)) => apply stable_ready : stab.
#[local] Hint Extern 1 (stable _ _ (λ c, slot _ _ _ c)) => apply stable_slot : stab.

(** what the memory may be, and what else may be in the log, after the commits
    of [rs] *)
Definition path (rs : list (Z * bool)) (K : gmap Z Z → list Z → Prop) : Prop :=
  ∀ cur l, agrees σ0 w0 cur (rs.*1 ++ l) ↔ K cur l.

Lemma path_at i rs K c : path rs K → pinv π c → agreed i rs c →
  ∃ l, (log c.2).*2 = rs.*1 ++ l ∧ K (words (mem c.1)) l.
Proof.
  intros HK Hc Hg. destruct (agreed_log i rs c Hg) as [l Hl]. exists l. split; [done|].
  apply HK. rewrite <-Hl. by apply (inv_mem _ _ _ Hc).
Qed.
Lemma ready_agreed i rs c : ready i rs c → agreed i rs c.
Proof. by intros (? & ? & ? & _ & _ & _ & _ & ?). Qed.
Lemma slot_agreed i rs e c : slot i rs e c → agreed i rs c.
Proof. by intros (? & ? & ? & _ & _ & _ & _ & _ & ?). Qed.

(** the values committed begin with those of [rs], and [φ] unless others have
    committed more *)
Definition not_later (rs : list (Z * bool)) (φ : Prop) (_ : memory) (l : list Z) : Prop :=
  prefix rs.*1 l ∧ (φ ∨ (length rs < length l)%nat).
Lemma not_later_kept rs φ : kept_fact run_inv moves_on (not_later rs φ).
Proof.
  intros m m' l l' [Hp Hor] _ _ Hl. split; [by etrans|]. apply prefix_length in Hl.
  destruct Hor; [by left|right; lia].
Qed.
Lemma not_later_exact rs φ m l : not_later rs φ m l → length l = length rs → l = rs.*1 ∧ φ.
Proof.
  intros [[k ->] Hor] Hlen. rewrite length_app, length_fmap in *. destruct k; simpl in *; [|lia].
  rewrite app_nil_r. destruct Hor; [done|lia].
Qed.

Lemma ht_read_word i rs K p w : path rs K → (∀ cur, K cur [] → cur !! p = Some w) →
  (∀ cur l, K cur l → ∃ x, cur !! p = Some x ∧ x ≠ 0) →
  ht i (ready i rs) (load (mem_c (word_c p)))
    (λ x c, x ≠ 0 ∧ ready i rs c ∧ lasting (not_later rs (x = w)) c).
Proof.
  intros HK Hw Hx. apply ht_load; [auto with stab|]. intros c Hc Hr.
  destruct (path_at i rs K c HK Hc (ready_agreed _ _ _ Hr)) as (l & Hl & HKl).
  destruct (Hx _ _ HKl) as (x & Hxp & Hx0). simpl. rewrite Hxp. split_and!; [done..|].
  unfold lasting, not_later. rewrite Hl. split; [by apply prefix_app_r|].
  destruct l as [|u l]; [left; apply Hw in HKl; congruence|right].
  rewrite length_app, length_fmap. simpl. lia.
Qed.

Lemma ht_get_val i rs K p w : path rs K → (∀ cur, K cur [] → cur !! p = Some w) →
  (∀ cur l, K cur l → ∃ x, cur !! p = Some x ∧ x ≠ 0) →
  (∀ cur, K cur [] → K cur [w]) → (∀ cur u l, K cur (u :: l) → u = w) →
  ht i (ready i rs) (lf_atomic.get_val alloc junk (S fuel) (word_c p) i)
    (λ x c, x = w ∧ ∃ b, ready i (rs ++ [(w, b)]) c).
Proof.
  intros HK Hw Hx Hgo Hone. unfold lf_atomic.get_val.
  eapply ht_bind; [by apply (ht_read_word i rs K p w)|]. intros x. cbn beta.
  apply ht_pure. intros Hx0.
  eapply ht_bind.
  - apply (ht_commit_value alloc junk alloc_fresh junk_len a0 fuel run_inv moves_on i rs x
      (not_later rs (x = w))); [done|apply not_later_kept|].
    intros m l Hl Hlen [Hag Hwf]. destruct (not_later_exact _ _ _ _ Hl Hlen) as [-> ->].
    split; [|done]. apply HK, Hgo, HK. by rewrite app_nil_r.
  - intros r. cbn beta. apply ht_conseq with (P' := ready i (rs ++ [r])) (Q' := λ x c, x = r.1 ∧ ready i (rs ++ [r]) c).
    + by apply ht_ret.
    + done.
    + intros a c Hc [-> Hr]. destruct (agreed_log _ _ _ (ready_agreed _ _ _ Hr)) as [l Hl].
      destruct Hc as [_ _ _ _ _ _ _ [Hag _]]. simpl in *. rewrite Hl, fmap_app, <-app_assoc in Hag.
      apply HK in Hag. simpl in Hag. apply Hone in Hag as <-. split; [done|]. exists r.2. by destruct r.
Qed.
(** ** An update *)
Lemma ht_announcing i rs v : (i < nw)%nat →
  ht i (ready i rs) (tagged_cas.on_ann ann LfTypes.set_ann (announce_write.set i v)) (λ _, ready i rs).
Proof.
  intros Hi. apply ht_act; [auto with stab|]. intros [s g] Hc Hr. simpl.
  pose proof (inv_mem _ _ _ Hc) as [Hag Hwf]. simpl in Hag, Hwf.
  unfold on_cell; simpl.
  destruct (lookup_lt_is_Some_2 (ann (mem s)) (i * announce_write.stride)%nat) as [x Hx].
  { rewrite Hwf. unfold announce_write.stride. lia. }
  rewrite Hx. exists g. split; [|done].
  apply (upd_thread a0 run_inv moves_on i (s, g) _ (lgs s) (helpings s) Hc);
    [done| |by unfold moves_on].
  split; [done|]. by apply wf_insert_ann.
Qed.

(** the log is in use *)
Lemma ht_in_log i rs {B} (p : Log → prog state B) Q :
  (∀ l, is_empty l = false → ht i (ready i rs) (p l) Q) →
  ht i (ready i rs) (l ← load (lg_c i); p l) Q.
Proof.
  intros Hp. eapply (ht_bind _ _ _ _ _ _ (λ l c, is_empty l = false ∧ ready i rs c)).
  - apply ht_load; [auto with stab|]. intros c Hc Hr. split; [|done].
    destruct Hr as (j & a & cn & _ & _ & [Hlg Ha] & _). simpl. rewrite Hlg.
    destruct (inv_arr _ _ _ Hc _ _ Ha) as (Ha0 & _). by apply Z.eqb_neq.
  - intros l. apply ht_pure. apply Hp.
Qed.

(** the location has been updated *)
Definition put_done (rs : list (Z * bool)) (p t : Z) (m : memory) (l : list Z) : Prop :=
  prefix rs.*1 l ∧ ∃ x, words m !! p = Some x ∧ t < tagno x.
Lemma put_done_kept rs p t : kept_fact run_inv moves_on (put_done rs p t).
Proof.
  intros m m' l l' [Hp (x & Hx & Ht)] _ Hm Hl. split; [by etrans|].
  destruct (Hm p x Hx) as (x' & Hx' & ?). exists x'. split; [done|lia].
Qed.

Lemma ht_put_cas i rs e (k : code A) m p w v a vals n :
  path rs (λ cur l, after_put (agrees k) p w v m cur l) → m !! p = Some w →
  plain (S n) w → fits48 v = true → good k (<[p := bump w v]> m) a vals n →
  ht i (slot i rs e) (cas (mem_c (word_c p)) w (bump w v))
    (λ _ c, slot i rs e c ∧ lasting (put_done rs p (tagno w)) c).
Proof.
  intros HK Hw Hp Hv Hg. unfold cas.
  eapply (ht_bind _ _ _ _ _ _ (λ _ c, slot i rs e c ∧ lasting (put_done rs p (tagno w)) c));
    [|intros r; by apply ht_ret].
  apply ht_act; [auto with stab|]. intros [s g] Hc Hs.
  destruct (path_at i rs _ _ HK Hc (slot_agreed _ _ _ _ Hs)) as (l & Hl & HKl). cbn [fst snd] in *.
  pose proof (inv_mem _ _ _ Hc) as [_ Hwf]. simpl in Hwf.
  destruct (plain_bump n w v Hp Hv) as (_ & _ & Hlt).
  assert (∀ x, words (mem s) !! p = Some x → tagno w < tagno x →
    ∃ g', Conc.update π i (s, g) (s, g') ∧ slot i rs e (s, g') ∧
      lasting (put_done rs p (tagno w)) (s, g')) as Hdone.
  { intros x Hx Ht. exists g. split; [by apply update_refl|]. split; [done|].
    split; [simpl; rewrite Hl; by apply prefix_app_r|]. by exists x. }
  unfold on_cell. simpl. destruct l as [|f l]; cbn [after_put] in HKl.
  - destruct HKl as [Hcur|Hcur]; rewrite Hcur.
    + rewrite Hw. rewrite decide_True by done.
      exists g. split; [|split].
      * apply (upd_thread a0 run_inv moves_on i (s, g) _ (lgs s) (helpings s) Hc); [done| |].
        -- split; [|done]. simpl. rewrite Hl. apply HK. cbn [after_put]. by right.
        -- unfold moves_on. simpl. rewrite Hcur. by eapply ahead_bump.
      * exact Hs.
      * split; [simpl; rewrite Hl; by apply prefix_app_r|]. exists (bump w v). simpl.
        split; [apply lookup_insert_eq|done].
    + rewrite lookup_insert_eq. rewrite decide_False by (intros E; rewrite E in Hlt; lia).
      apply (Hdone (bump w v)); [by rewrite Hcur, lookup_insert_eq|done].
  - destruct HKl as [_ HKl]. destruct (agrees_ahead _ _ _ _ _ _ _ Hg HKl) as [Ha _].
    destruct (Ha p (bump w v)) as (x & Hx & Hle); [apply lookup_insert_eq|].
    rewrite Hx. rewrite decide_False by (intros ->; lia). apply (Hdone x); [done|lia].
Qed.
(** the flag is set, by this thread or by another *)
Lemma ht_put_flag i rs (k : code A) m p w v a vals n :
  path rs (λ cur l, after_put (agrees k) p w v m cur l) → m !! p = Some w →
  plain (S n) w → fits48 v = true → good k (<[p := bump w v]> m) a vals n →
  ht i (ready i rs)
    (l ← load (lg_c i);
     if is_empty l then cas (mem_c (word_c p)) w (bump w v)
     else
       en ← next_entry alloc junk (S fuel) i;
       x ← load (entry_c en);
       if x =? 0 then
         r ← cas (mem_c (word_c p)) w (bump w v); store (entry_c en) 1 ;; mret r
       else mret false)
    (λ _ c, ∃ r, ready i (rs ++ [r]) c).
Proof.
  intros HK Hw Hp Hv Hg. apply ht_in_log. intros l ->.
  eapply ht_bind; [by apply (ht_next_entry alloc junk alloc_fresh junk_len a0 fuel run_inv moves_on)|].
  intros en. eapply (ht_bind _ _ _ _ _ _ (λ x c, if x =? 0 then slot i rs en c
                                                 else ready i (rs ++ [(x, false)]) c)).
  { apply ht_load; [auto with stab|]. intros c Hc Hs.
    destruct (slot_entry _ _ _ _ _ _ Hc Hs) as (_ & _ & Hpk & _). rewrite Hpk.
    destruct (Z.eqb_spec (default 0 (snd <$> (log c.2 !! length rs))) 0); [done|].
    by apply (slot_taken a0 run_inv i rs en c). }
  intros x. destruct (x =? 0).
  - eapply ht_bind; [by eapply ht_put_cas|]. intros b. cbn beta.
    eapply (ht_bind _ _ _ _ _ _ (λ _ c, ∃ r, ready i (rs ++ [r]) c)); [|intros _; by apply ht_ret].
    apply (ht_set_flag a0 run_inv moves_on i rs en 1 (put_done rs p (tagno w))); [done|apply put_done_kept| |].
    + intros mm L [[l' ->] (u & Hu & Ht)] Hlen [Hag Hwf]. split; [|done].
      rewrite length_app, length_fmap in Hlen. destruct l' as [|]; simpl in Hlen; [|lia].
      rewrite app_nil_r in *. apply HK. rewrite <-(app_nil_r rs.*1) in Hag. apply HK in Hag.
      destruct Hag as [Hcur|Hcur]; rewrite Hcur in *; [simplify_eq; lia|].
      split; [done|apply agrees_start].
    + intros mm L u [[l' ->] _] [Hag _] Hu. apply HK in Hag. rewrite lookup_app_r in Hu
        by (by rewrite length_fmap). rewrite length_fmap, Nat.sub_diag in Hu.
      destruct l' as [|f l']; [done|]. injection Hu as <-. apply Hag.
  - apply ht_ret. intros c Hr. eauto.
Qed.

Lemma ht_cas_put i rs (k : code A) m p w v a vals n : (i < nw)%nat →
  path rs (λ cur l, after_put (agrees k) p w v m cur l) → m !! p = Some w →
  plain (S n) w → fits48 v = true → good k (<[p := bump w v]> m) a vals n →
  ht i (ready i rs)
    (tagged_cas.cas_ alloc junk (S fuel) nw ann LfTypes.set_ann i (word_c p) p w v false)
    (λ _ c, ∃ rs', ready i rs' c ∧ path rs' (agrees k (<[p := bump w v]> m))).
Proof.
  intros Hi HK Hw Hp Hv Hg. unfold tagged_cas.cas_. rewrite (next_plain nw n w v p Hp Hv).
  unfold tagged_cas.on_ann at 1. cbn [zoom mret prog_ret mbind prog_bind pbind].
  unfold tagged_cas.cas_tagged_, no_log.
  apply (ht_bind _ _ _ _ _ _ (λ e c, e = false ∧ ready i rs c)).
  { apply ht_in_log. intros l Hl. apply ht_ret. done. }
  intros e. apply ht_pure. intros ->. cbn [orb].
  eapply ht_bind; [by apply ht_announcing|]. intros [].
  eapply ht_bind; [by eapply ht_put_flag|]. intros b. cbn beta. apply ht_exists. intros r.
  eapply ht_bind; [by apply (ht_announcing i _ 0)|]. intros [].
  eapply ht_conseq; [apply (ht_ret _ _ _ (ready i (rs ++ [r])) _ (λ _, ready i (rs ++ [r]))); done|done|].
  intros b0 c Hc Hr. exists (rs ++ [r]). split; [done|].
  destruct (agreed_log _ _ _ (ready_agreed _ _ _ Hr)) as [l Hl].
  destruct Hc as [_ _ _ _ _ _ _ [Hag _]]. simpl in Hag. rewrite Hl, fmap_app, <-app_assoc in Hag.
  apply HK in Hag. destruct Hag as [Hr1 _].
  intros cur l'. rewrite fmap_app, <-app_assoc. rewrite (HK cur _). simpl. rewrite Hr1. tauto.
Qed.
(** ** The whole section *)

(** after the commits [rs] there are no more, and the values are [vals] *)
Definition final (vals : gmap Z Z) (rs : list (Z * bool)) : Prop :=
  ∀ cur l, agrees σ0 w0 cur (rs.*1 ++ l) → l = [] ∧ tagged.value <$> cur = vals.

(** the word that an operation of [σ] on [p] commits *)
Lemma ht_operand i rs (σ : code A) m p w a vals n : path rs (agrees σ m) → good σ m a vals n →
  m !! p = Some w → (∀ cur, agrees σ m cur [] → cur = m) → agrees σ m m [w] →
  (∀ cur u l, agrees σ m cur (u :: l) → m !! p = Some u) →
  ht i (ready i rs) (lf_atomic.get_val alloc junk (S fuel) (word_c p) i)
    (λ x c, x = w ∧ ∃ b, ready i (rs ++ [(w, b)]) c).
Proof.
  intros HK Hg Hw Hnil Hgo Hone. apply (ht_get_val i rs (agrees σ m)); [done| | | |].
  - by intros cur ->%Hnil.
  - intros cur l Hl. destruct (agrees_ahead _ _ _ _ _ _ _ Hg Hl) as [Ha Hf].
    destruct (Ha p w Hw) as (x & Hx & _). exists x. split; [done|by eapply Hf].
  - by intros cur ->%Hnil.
  - intros cur u l Hl%Hone. congruence.
Qed.

Lemma path_next rs (K K' : gmap Z Z → list Z → Prop) w b : path rs K →
  (∀ cur l, K cur (w :: l) ↔ K' cur l) → path (rs ++ [(w, b)]) K'.
Proof. intros HK HK' cur l. rewrite fmap_app, <-app_assoc. by rewrite (HK cur _), <-HK'. Qed.

(** the thread has done an operation of a section that goes on with [σ] *)
Definition then_at (i : nat) (σ : code A) m c : Prop := ∃ rs, ready i rs c ∧ path rs (agrees σ m).

Lemma ht_load_op i rs p k m a vals n : path rs (agrees (Load p k) m) → good (Load p k) m a vals n →
  ht i (ready i rs) (lf_atomic.load alloc junk (S fuel) (word_c p) i)
    (λ x c, ∃ w, x = tagged.value w ∧ good (k x) m a vals n ∧ then_at i (k x) m c).
Proof.
  intros HK Hg. destruct (good_load _ _ _ _ _ _ Hg) as (w & Hw & Hg').
  eapply ht_bind.
  { apply (ht_operand i rs _ m p w a vals n HK Hg Hw); simpl; [done| |by intros ? ? ? []].
    split; [done|apply agrees_start]. }
  intros x. apply ht_pure. intros ->. apply ht_exists. intros b. apply ht_ret. intros c Hr.
  exists w. split; [done|]. split; [done|]. exists (rs ++ [(w, b)]). split; [done|].
  eapply path_next; [exact HK|]. intros cur l. simpl. by split; [intros []|].
Qed.

Lemma ht_store_op i rs p v k m a vals n : (i < nw)%nat →
  path rs (agrees (Store p v k) m) → good (Store p v k) m a vals n →
  ht i (ready i rs) (lf_atomic.store alloc junk (S fuel) nw ann LfTypes.set_ann (word_c p) p i v)
    (λ _ c, ∃ m' n', good k m' a vals n' ∧ then_at i k m' c).
Proof.
  intros Hi HK Hg. destruct (good_store _ _ _ _ _ _ _ Hg) as (w & n' & Hw & -> & Hv & Hg').
  eapply ht_bind.
  { apply (ht_operand i rs _ m p w a vals (S n') HK Hg Hw); simpl; [done| |by intros ? ? ? []].
    split; [done|by left]. }
  intros x. apply ht_pure. intros ->. apply ht_exists. intros b.
  eapply ht_bind; [eapply (ht_cas_put i _ k m p w v); try done|].
  - eapply path_next; [exact HK|]. intros cur l. simpl. by split; [intros []|].
  - by apply Hg in Hw.
  - intros b'. apply ht_ret. intros c (rs' & Hr & HK'). eexists _, n'. split; [exact Hg'|]. by exists rs'.
Qed.

Lemma ht_cam_op i rs p oldv newv k m a vals n : (i < nw)%nat →
  path rs (agrees (Cam p oldv newv k) m) → good (Cam p oldv newv k) m a vals n →
  ht i (ready i rs)
    (lf_atomic.cam alloc junk (S fuel) nw ann LfTypes.set_ann (word_c p) p i oldv newv)
    (λ _ c, ∃ m' n', good k m' a vals n' ∧ then_at i k m' c).
Proof.
  intros Hi HK Hg. destruct (good_cam _ _ _ _ _ _ _ _ Hg) as (w & Hw & Hg').
  eapply ht_bind.
  { apply (ht_operand i rs _ m p w a vals n HK Hg Hw); simpl; [done| |by intros ? ? ? []].
    split; [done|]. destruct (tagged.value w =? oldv); [by left|apply agrees_start]. }
  intros x. apply ht_pure. intros ->. apply ht_exists. intros b.
  assert (path (rs ++ [(w, b)]) (λ cur l, if tagged.value w =? oldv
    then after_put (agrees k) p w newv m cur l else agrees k m cur l)) as HKb.
  { eapply path_next; [exact HK|]. intros cur l. simpl. by split; [intros []|]. }
  destruct (tagged.value w =? oldv); cbn [when].
  - destruct Hg' as (n' & -> & Hv & Hg').
    eapply ht_bind; [eapply (ht_cas_put i _ k m p w newv); try done; by apply Hg in Hw|].
    intros b'. apply ht_ret. intros c (rs' & Hr & HK'). eexists _, n'. split; [exact Hg'|]. by exists rs'.
  - apply ht_ret. intros c Hr. exists m, n. split; [done|]. by exists (rs ++ [(w, b)]).
Qed.

#[local] Abbreviation perform := (perform alloc junk (S fuel) nw).
Lemma ht_perform i : (i < nw)%nat → ∀ σ m a vals n, good σ m a vals n →
  ht i (then_at i σ m) (perform i σ) (λ a' c, ∃ rs, ready i rs c ∧ a' = a ∧ final vals rs).
Proof.
  intros Hi σ. induction σ as [x|p k IH|p v k IH|p oldv newv k IH]; intros m a vals n Hg;
    apply ht_exists; intros rs; intros c0 Hc0 [Hr0 HK]; revert c0 Hc0 Hr0.
  - apply ht_ret. intros c Hr. exists rs. split; [done|]. destruct Hg as [[= -> <- _] _].
    split; [done|]. by intros cur l [-> ->]%HK.
  - eapply ht_bind; [by eapply ht_load_op|]. intros x. apply ht_exists. intros w.
    apply ht_pure. intros ->. apply ht_pure. intros Hg'. by eapply IH.
  - eapply ht_bind; [by eapply ht_store_op|]. intros []. apply ht_exists. intros m'.
    apply ht_exists. intros n'. apply ht_pure. intros Hg'. by eapply IH.
  - eapply ht_bind; [by eapply ht_cam_op|]. intros []. apply ht_exists. intros m'.
    apply ht_exists. intros n'. apply ht_pure. intros Hg'. by eapply IH.
Qed.

Lemma ht_help i a vals n : (i < nw)%nat → good σ0 w0 a vals n →
  ht i (idle i) (help alloc junk (S fuel) nw a0 σ0 i) (λ a' c, ∃ rs, agreed i rs c ∧ a' = a ∧ final vals rs).
Proof.
  intros Hi Hg. unfold help. apply ht_with_log.
  eapply ht_weaken; [by eapply ht_perform| |by auto].
  intros c Hr. exists []. by split.
Qed.

(** all helpers together *)
Lemma helping an a vals n helpers : a0 ≠ 0 → announce_write.wf nw an → (helpers ≤ nw)%nat →
  good σ0 w0 a vals n → ∀ s ts, rtc step (start_state a0 (mkMemory w0 an),
      help alloc junk (S fuel) nw a0 σ0 <$> seq 0 helpers) (s, ts) →
    (∀ i e, ¬ goes_wrong i e (s, ts)) ∧
    tagged.value <$> words (mem s) ∈ memories σ0 (tagged.value <$> w0) ∧
    ∀ i r, ts !! i = Some (Ret r) → r = a ∧ tagged.value <$> words (mem s) = vals.
Proof.
  intros Ha0 Han Henough Hg s ts Hsteps.
  destruct (protocol_sound π (λ _, False) idle
    (λ i a' c, ∃ rs, agreed i rs c ∧ a' = a ∧ final vals rs)
    (start_state a0 (mkMemory w0 an)) (mkHist [a0] [] ∅)
    (help alloc junk (S fuel) nw a0 σ0 <$> seq 0 helpers))
    with s ts as (g & Hinv & Hwrong & Hret); [done| | |by apply steps_ok|].
  - apply start_inv; [done|]. split; [apply agrees_start|done].
  - intros i p Hp. apply list_lookup_fmap_Some in Hp as (j & -> & [-> Hj]%lookup_seq).
    split; [split; [apply lookup_empty|done]|]. eapply ht_help; [lia|done].
  - pose proof (inv_mem _ _ _ Hinv) as [Hag _]. simpl in Hag. split_and!; [done| |].
    + by eapply agrees_memories.
    + intros i r Hi. destruct (Hret i r Hi) as (c & (rs & Hrs & -> & Hf) & Hk).
      pose proof (stable_agreed a0 _ moves_on _ _ _ _ Hrs Hinv Hk) as Hrs'.
      destruct (agreed_log _ _ _ Hrs') as [l Hl]. simpl in Hl. rewrite Hl in Hag.
      by apply Hf in Hag as [_ ?].
Qed.
End helpers.

(** C5: A critical section that any number of threads run has the effect of one
    run (lf_log.h, [atomic::load], [atomic::store] and [atomic::cam] of
    lf_types.h, tagged.h).  The helpers run the same loads, stores and
    compare-and-modify operations with one log, interleaved at every atomic
    access, and a helper may be stopped anywhere and go on when the others have
    long finished.  No helper meets an error; at every moment the variables
    hold the values of some moment of one sequential run; when some helper has
    finished, its result is that of the sequential run, the variables hold the
    values the sequential run ends with, and no helper that goes on changes
    them; and every helper, run alone from there, finishes with that result.
    The bound: the counts of the words do not leave their half of the range
    during the section. *)
Theorem section_runs_once {A : Type} (alloc : gmap Z log_array → Z) (junk : Z → log_array)
    (fuel nw : nat) (a0 : Z) (σ : code A) (w0 : gmap Z Z) (an : announce_write.state)
    (a : A) (vals : gmap Z Z) (updates helpers : nat)
    (alloc_fresh : ∀ h, h !! alloc h = None ∧ alloc h ≠ 0)
    (junk_len : ∀ p, length (log_entries (junk p)) = 8%nat)
    (first_array : a0 ≠ 0)
    (slots : announce_write.wf nw an) (enough : (helpers ≤ nw)%nat)
    (sequential : exec σ (tagged.value <$> w0) = Some (a, vals, updates))
    (counts : ∀ p w, w0 !! p = Some w → plain updates w) :
  ∀ s ts, rtc step (start_state a0 (mkMemory w0 an), help alloc junk (S fuel) nw a0 σ <$> seq 0 helpers) (s, ts) →
    (∀ i e, ¬ goes_wrong i e (s, ts)) ∧
    tagged.value <$> words (mem s) ∈ memories σ (tagged.value <$> w0) ∧
    (∀ i r, ts !! i = Some (Ret r) → r = a ∧ tagged.value <$> words (mem s) = vals) ∧
    ∀ i, (i < helpers)%nat →
      ∃ n s' ts', run_sched (replicate n i) (s, ts) = Some (s', ts') ∧ ts' !! i = Some (Ret a) ∧
        tagged.value <$> words (mem s') = vals.
Proof.
  assert (good σ w0 a vals updates) as Hg by done.
  pose proof (helping alloc junk alloc_fresh junk_len a0 fuel nw σ w0 an a vals updates helpers
    first_array slots enough Hg) as Hall.
  intros s ts Hsteps. destruct (Hall s ts Hsteps) as (Hwrong & Hmem & Hret). do 3 (split; [done|]).
  intros i Hi. assert (length ts = helpers) as Hlen.
  { pose proof (rtc_step_length _ _ Hsteps) as Hlen. cbn [snd] in Hlen.
    by rewrite Hlen, length_fmap, length_seq. }
  destruct (lookup_lt_is_Some_2 ts i) as [p Hp]; [lia|].
  destruct (runs_alone i (s, ts) p Hp) as (n & [s' ts'] & r & Hrun & Hr).
  { intros [s1 ts1] e Hc1. apply (Hall s1 ts1). by etrans. }
  destruct (Hall s' ts') as (_ & _ & Hret').
  { etrans; [exact Hsteps|]. by eapply run_sched_steps. }
  destruct (Hret' i r Hr) as [-> Hv]. by exists n, s', ts'.
Qed.

(** Two accounts: 30 goes from the first to the second if the first has it, a
    counter is raised, one compare-and-modify misses and one hits; thirteen
    entries, more than one array of the log.  Helper 1 finishes
    while helper 0 is in the middle; helper 0 goes on afterwards. *)
Definition transfer : code Z :=
  Load 4096 (λ x, Load 8192 (λ y,
    if 30 <=? x
    then Store 4096 (x - 30) (Store 8192 (y + 30)
           (Load 16384 (λ n, Store 16384 (n + 1) (Cam 16384 n 0 (Cam 8192 (y + 30) (y + 31)
             (Load 8192 (λ z, Done z)))))))
    else Done 0)).
Definition accounts : gmap Z Z :=
  <[4096 := tagged.init 100]> (<[8192 := tagged.init 5]> {[16384 := tagged.init 7]}).
Definition two_transfers : config (LfLog.state memory) Z :=
  (start_state 1 (mkMemory accounts (announce_write.init 2)),
   help next_addr (λ _, mkArray (replicate 8 7) 9) 1 2 1 transfer <$> seq 0 2).
Definition accounts_end : gmap Z Z := <[4096 := 70]> (<[8192 := 36]> {[16384 := 8]}).

Definition running (p : option (prog (LfLog.state memory) Z)) : bool :=
  match p with Some (Act _ _) => true | _ => false end.
Definition returned (p : option (prog (LfLog.state memory) Z)) : option Z :=
  match p with Some (Ret r) => Some r | _ => None end.
Lemma returned_Ret p r : returned p = Some r → p = Some (Ret r).
Proof. destruct p as [[]|]; simpl; congruence. Qed.

Lemma section_runs_once_witness : ∃ s ts s' ts' n, rtc step two_transfers (s, ts) ∧
  ts !! 1%nat = Some (Ret 36) ∧ running (ts !! 0%nat) = true ∧
  tagged.value <$> words (mem s) = accounts_end ∧
  run_sched (replicate n 0%nat) (s, ts) = Some (s', ts') ∧ ts' !! 0%nat = Some (Ret 36) ∧
  tagged.value <$> words (mem s') = accounts_end.
Proof.
  destruct (after_sched_steps (replicate 40 0%nat ++ replicate 123 1%nat) two_transfers
    (λ c, returned (c.2 !! 1%nat) = Some 36 ∧ running (c.2 !! 0%nat) = true))
    as ([s ts] & Hsteps & H1%returned_Ret & H0).
  { vm_compute. split; reflexivity. }
  destruct (section_runs_once next_addr (λ _, mkArray (replicate 8 7) 9) 0 2 1 transfer accounts
    (announce_write.init 2) 36 accounts_end 4 2) with s ts as (_ & _ & Hret & Halone).
  - apply next_addr_fresh.
  - reflexivity.
  - discriminate.
  - reflexivity.
  - lia.
  - vm_compute. reflexivity.
  - intros p w. unfold accounts.
    intros [[_ <-]|[_ [[_ <-]|[_ [_ <-]%lookup_singleton_Some]]%lookup_insert_Some]]%lookup_insert_Some.
    all: vm_compute; split_and!; congruence.
  - exact Hsteps.
  - destruct (Hret 1%nat 36 H1) as [_ Hv]. destruct (Halone 0%nat) as (n & s' & ts' & Hrun & Hr & Hv'); [lia|].
    by exists s, ts, s', ts', n.
Defined.
