(* ===== verification/LfLock.v ===== *)
(** * LfLock: lock-free locks (include/flock/lf_lock.h).

    To take a lock is to install a descriptor of the critical section; whoever
    finds the lock taken runs the descriptor's thunk to the end, with its log,
    and releases the lock.  A lock word is a descriptor's address when locked
    and a count with its highest bit set when not.

    The thunks are code: a descriptor names one of [thunks].  The epoch of the
    thread and the descriptor pool are those of [Epoch], here parameters. *)

From stdpp Require Import prelude list gmap.
From Stdlib Require Import ZArith Lia.
From S2P Require Import Prelude Conc LfLog LfTypes.
Local Open Scope Z_scope.

Record descriptor := mkDescriptor {
  f : nat;               (* the thunk *)
  done : bool;
  freed : bool;
  acquired : bool;
  thread_id : Z;
  counter : Z;
  epoch_num : Z;
  lg_array : Z;          (* the address of the log array inside *)
}.

(** lock words and descriptors, the threads' ids and the rest of the memory *)
Record memory (D : Type) := mkMemory {
  locks : gmap Z Z;
  descs : gmap Z descriptor;
  current_id : gmap nat Z;
  rest : D;
}.
Arguments mkMemory {D} _ _ _ _. Arguments locks {D} _. Arguments descs {D} _.
Arguments current_id {D} _. Arguments rest {D} _.

Definition unlocked : Z := 2 ^ 63.

Section lock.
Context {D : Type}.
#[local] Abbreviation state := (LfLog.state (memory D)).
Context (alloc : gmap Z log_array → Z) (junk : Z → log_array) (fuel : nat).
Context (get_my_epoch : nat → prog state Z) (set_my_epoch : nat → Z → prog state unit).
(** the pool of descriptors: allocation of the memory, destruct and retire *)
Context (pool_alloc : prog state Z) (pool_destruct : Z → prog state unit) (pool_retire : Z → prog state Z).
Context (thunks : nat → nat → prog state Z).

(** ** Cells *)
Definition set_locks (l : gmap Z Z) (s : state) : state :=
  LfLog.set_mem (mkMemory l (descs (mem s)) (current_id (mem s)) (rest (mem s))) s.
Definition set_descs (d : gmap Z descriptor) (s : state) : state :=
  LfLog.set_mem (mkMemory (locks (mem s)) d (current_id (mem s)) (rest (mem s))) s.
Definition set_ids (i : gmap nat Z) (s : state) : state :=
  LfLog.set_mem (mkMemory (locks (mem s)) (descs (mem s)) i (rest (mem s))) s.

(** the word of the lock at address [l] *)
Definition lck_c (l : Z) : cell state Z :=
  Cell (λ s, match locks (mem s) !! l with Some w => inr w | None => inl UseAfterFree end)
       (λ w s, set_locks (<[l := w]> (locks (mem s))) s).
Definition at_desc (s : state) (d : Z) : err + descriptor :=
  if d =? 0 then inl NullDeref
  else match descs (mem s) !! d with Some x => inr x | None => inl UseAfterFree end.
Definition field {T} (get : descriptor → T) (set : T → descriptor → descriptor) (d : Z) : cell state T :=
  Cell (λ s, match at_desc s d with inr x => inr (get x) | inl e => inl e end)
       (λ t s, match descs (mem s) !! d with
               | Some x => set_descs (<[d := set t x]> (descs (mem s))) s
               | None => s
               end).
Definition done_c : Z → cell state bool := field done (λ b x,
  mkDescriptor (f x) b (freed x) (acquired x) (thread_id x) (counter x) (epoch_num x) (lg_array x)).
Definition acquired_c : Z → cell state bool := field acquired (λ b x,
  mkDescriptor (f x) (done x) (freed x) b (thread_id x) (counter x) (epoch_num x) (lg_array x)).
Definition counter_c : Z → cell state Z := field counter (λ n x,
  mkDescriptor (f x) (done x) (freed x) (acquired x) (thread_id x) n (epoch_num x) (lg_array x)).
Definition desc_c : Z → cell state descriptor := field id (λ x _, x).
Definition current_id_c (tid : nat) : cell state Z :=
  total_cell (λ s, default 1000000 (current_id (mem s) !! tid))
             (λ i s, set_ids (<[tid := i]> (current_id (mem s))) s).

Definition get_current_id (tid : nat) : prog state Z :=
  i ← load (current_id_c tid);
  when (i =? 1000000) (store (current_id_c tid) (Z.of_nat tid)) ;;
  load (current_id_c tid).
Definition set_current_id (tid : nat) (i : Z) : prog state unit := store (current_id_c tid) i.

(** ** Descriptors *)

(** the constructor, on the memory that the pool gave *)
Definition new_descriptor (tid k : nat) (count : Z) : prog state Z :=
  d ← pool_alloc;
  a ← new_array alloc junk;
  init a ;;
  e ← get_my_epoch tid;
  i ← get_current_id tid;
  modify (λ s, set_descs (<[d := mkDescriptor k false false false i count e a]> (descs (mem s))) s) ;;
  mret d.

Definition run_descriptor (tid : nat) (d : Z) : prog state unit :=
  x ← load (desc_c d);
  assert_ (negb (freed x)) ;;
  with_log tid (mkLog (lg_array x) 0) (thunks (f x) tid) ;;
  store (done_c d) true.

Definition acquire (d : Z) : prog state unit := store (acquired_c d) true.

(** ** The lock word *)
Definition load_ (tid : nat) (l : Z) : prog state Z :=
  x ← load (lck_c l); r ← commit_value alloc junk fuel tid x; mret r.1.
Definition read (l : Z) : prog state Z := load (lck_c l).

Definition cas_ (l oldl d : Z) : prog state bool :=
  current ← read l;
  if negb (current =? oldl) then mret false else cas (lck_c l) oldl d.

Definition clear (l d : Z) : prog state unit :=
  current ← load (lck_c l);
  when (current =? d)
    (n ← load (counter_c d); cas (lck_c l) current (wrap64 (n + 1)) ;; mret tt).

Definition unlock (tid : nat) (l : Z) : prog state unit :=
  current ← load_ tid l;
  n ← load (counter_c current);
  cas (lck_c l) current (wrap64 (n + 1)) ;; mret tt.

Definition is_locked_ (le : Z) : bool := Z.land le (2 ^ 63) =? 0.
Definition remove_tag (le : Z) : Z := le.
Definition lock_is_self (tid : nat) (le : Z) : prog state bool :=
  i ← get_current_id tid;
  x ← load (desc_c (remove_tag le));
  mret (i =? thread_id x).

Definition help_descriptor (tid : nat) (l le : Z) (recursive_help : bool) : prog state bool :=
  h ← load (helping_c tid);
  if negb recursive_help && h then mret false
  else
    let desc := remove_tag le in
    w ← read l;
    if negb (w =? le) then mret false
    else
      my_epoch ← get_my_epoch tid;
      x ← load (desc_c desc);
      when (epoch_num x <? my_epoch) (set_my_epoch tid (epoch_num x)) ;;
      my_id ← get_current_id tid;
      x' ← load (desc_c desc);
      set_current_id tid (thread_id x') ;;
      acquire desc ;;
      w' ← read l;
      let still_locked := w' =? le in
      when still_locked
        (hold_h ← load (helping_c tid);
         store (helping_c tid) true ;;
         run_descriptor tid desc ;;
         clear l desc ;;
         store (helping_c tid) hold_h) ;;
      set_current_id tid my_id ;;
      set_my_epoch tid my_epoch ;;
      mret still_locked.

Definition wait_lock (tid : nat) (l : Z) : prog state unit :=
  current ← load_ tid l;
  if negb (is_locked_ current) then mret tt
  else
    b ← lock_is_self tid current;
    if (b : bool) then mret tt else help_descriptor tid l current true ;; mret tt.

Definition is_locked (tid : nat) (l : Z) : prog state bool := le ← load_ tid l; mret (is_locked_ le).
Definition is_self_locked (tid : nat) (l : Z) : prog state bool :=
  current ← load_ tid l;
  if is_locked_ current then lock_is_self tid current else mret false.
Definition lock_load (tid : nat) (l : Z) : prog state Z := load_ tid l.
Definition unchanged (tid : nat) (l le : Z) : prog state bool := x ← load_ tid l; mret (le =? x).

(** ** Taking the lock *)
Definition new_obj_acquired (tid k : nat) (count : Z) : prog state (Z * option (Z * Z)) :=
  memory_pool.new_obj_acquired alloc junk fuel (new_descriptor tid k count) pool_destruct acquire tid.
Definition retire_acquired_result (tid : nat) (d : Z) (le : option (Z * Z)) (r : option Z)
  : prog state unit :=
  memory_pool.retire_acquired_result pool_retire tid d le r.

(** run the thunk with the descriptor's log, mark it done and release *)
Definition run_and_clear (tid : nat) (l d : Z) (k : nat) : prog state Z :=
  x ← load (desc_c d);
  result ← with_log tid (mkLog (lg_array x) 0) (thunks k tid);
  store (done_c d) true ;;
  clear l d ;;
  mret result.

Definition with_lock (tid : nat) (l : Z) (k : nat) : prog state Z :=
  current ← read l;
  let locked := is_locked_ current in
  '(my_descriptor, i_own) ← new_obj_acquired tid k (if locked then 0 else current);
  if memory_pool.is_done my_descriptor then
    let ret_val := memory_pool.done_val_result my_descriptor in
    assert_ (bool_decide (is_Some ret_val)) ;;
    mret (default 0 ret_val)
  else
    iter fuel (λ '(current, locked),
      old_count ← load (counter_c my_descriptor);
      '(current, locked) ←
        (if negb locked && (old_count <? current) then
           '(b, seen) ← cmpxchg (counter_c my_descriptor) old_count current;
           if (b : bool) then mret (current, locked) else mret (seen, is_locked_ seen)
         else mret (current, locked));
      d ← load (done_c my_descriptor);
      mine ← (if (d : bool) || (remove_tag current =? my_descriptor) then mret true
              else if negb locked then cas_ l current my_descriptor else mret false);
      if (mine : bool) then
        result ← run_and_clear tid l my_descriptor k;
        retire_acquired_result tid my_descriptor i_own (Some result) ;;
        mret (inr result)
      else
        when locked (help_descriptor tid l current false ;; mret tt) ;;
        current' ← read l;
        mret (inl (current', is_locked_ current'))) (current, locked).

Definition try_lock_result (tid : nat) (l : Z) (k : nat) (do_help : bool) : prog state (option Z) :=
  current ← load_ tid l;
  self ← (if is_locked_ current then lock_is_self tid current else mret false);
  if (self : bool) then r ← thunks k tid; mret (Some r)
  else
    '(my_descriptor, i_own) ← new_obj_acquired tid k (if is_locked_ current then 0 else current);
    if memory_pool.is_done my_descriptor then mret (memory_pool.done_val_result my_descriptor)
    else
      result ←
        (if negb (is_locked_ current) then
           cas_ l current my_descriptor ;;
           current' ← read l;
           d ← load (done_c my_descriptor);
           if (d : bool) || (remove_tag current' =? my_descriptor)
           then r ← run_and_clear tid l my_descriptor k; mret (Some r)
           else mret None
         else
           when do_help (help_descriptor tid l current false ;; mret tt) ;;
           mret None);
      retire_acquired_result tid my_descriptor i_own result ;;
      mret result.

Definition try_lock (tid : nat) (l : Z) (k : nat) (do_help : bool) : prog state bool :=
  r ← try_lock_result tid l k do_help;
  mret (match r with Some x => negb (x =? 0) | None => false end).

Definition read_lock {A} (g : prog state A) : prog state A := g.
End lock.

(** ** Whoever waits for a lock runs the critical section and releases it *)
Section helping.
Context {D : Type} (alloc : gmap Z log_array → Z) (junk : Z → log_array) (fuel : nat).
#[local] Abbreviation state := (LfLog.state (memory D)).
Context (get_my_epoch : nat → prog state Z) (set_my_epoch : nat → Z → prog state unit).
Context (thunks : nat → nat → prog state Z).
(** in the rest of the memory: when it is well formed, and what of it is not
    the announcements of the epoch *)
Context (rest_ok : D → Prop) {E : Type} (data : D → E).
Context (tid : nat) (l d : Z) (k : nat) (id cnt arr : Z).
Implicit Types s : state.

Definition set_rest (x : D) s : state :=
  LfLog.set_mem (mkMemory (locks (mem s)) (descs (mem s)) (current_id (mem s)) x) s.
(** code that stops and changes nothing but the announcements *)
Definition epoch_only {A} (p : prog state A) : Prop := ∀ s, rest_ok (rest (mem s)) →
  ∃ a x, run p s = Ok a (set_rest x s) ∧ rest_ok x ∧ data x = data (rest (mem s)).

(** the lock [l] is held by the descriptor [d] of thunk [k] *)
Definition held s : Prop :=
  locks (mem s) !! l = Some d ∧
  ∃ b a e, descs (mem s) !! d = Some (mkDescriptor k b false a id cnt e arr).
Definition released s : Prop :=
  locks (mem s) !! l = Some (wrap64 (cnt + 1)) ∧
  ∃ x, descs (mem s) !! d = Some x ∧ done x = true.

(** what critical sections work on: the data and the logs *)
Definition view s : E * gmap Z log_array := (data (rest (mem s)), arrays s).
(** the thread's own variables: its id, its log and whether it is helping *)
Definition own s : Z * Log * bool :=
  (default 1000000 (current_id (mem s) !! tid), default empty_log (lgs s !! tid),
   default false (helpings s !! tid)).

Definition at_ (v : E * gmap Z log_array) (w : Z * Log * bool) s : Prop :=
  held s ∧ rest_ok (rest (mem s)) ∧ view s = v ∧ own s = w.
(** The thunk has run, once, from where the view is [v], under the id of the
    holder and at the head of the descriptor's log, and what it did is there. *)
Definition ran (v : E * gmap Z log_array) s : Prop := ∃ s1 r s2,
  at_ v (id, mkLog arr 0, true) s1 ∧ run (thunks k tid) s1 = Ok r s2 ∧ view s = view s2.

Definition keeps {A} (P : state → Prop) (p : prog state A) : Prop := ∀ s, P s → wp p (λ _, P) s.

Context (d_ok : 0 < d < 2 ^ 63).
Context (get_epoch : epoch_only (get_my_epoch tid)) (set_epoch : ∀ e, epoch_only (set_my_epoch tid e)).
(** the critical section stops and leaves its lock held *)
Definition section_ok s : Prop := held s ∧ rest_ok (rest (mem s)).
Context (thunk_keeps : keeps section_ok (thunks k tid)).

Lemma keeps_bind {A B} P (p : prog state A) (g : A → prog state B) :
  keeps P p → (∀ a, keeps P (g a)) → keeps P (p ≫= g).
Proof. intros Hp Hg s Hs. rewrite wp_bind. eapply wp_mono; [|by apply Hp]. intros a s' H. by apply Hg. Qed.
Lemma keeps_when P b p : keeps P p → keeps P (when b p).
Proof. intros Hp s Hs. destruct b; [by apply Hp|done]. Qed.
Lemma keeps_load {T} P (c : cell state T) : (∀ s, P s → ∃ v, peek c s = inr v) → keeps P (load c).
Proof. intros Hc s Hs. destruct (Hc s Hs) as [v Hv]. by apply (wp_of_run _ _ _ v s); [apply run_load|]. Qed.
Lemma wp_put {T} (P : state → Prop) (c : cell state T) v s :
  (∃ u, peek c s = inr u) → P (poke c v s) → wp (store c v) (λ _, P) s.
Proof. intros [u Hu] HP. apply (wp_of_run _ _ _ tt (poke c v s)); [by apply (run_store _ _ u)|done]. Qed.
Lemma wp_keep {A B} P (p : prog state A) (g : A → prog state B) Q s :
  keeps P p → P s → (∀ a s', P s' → wp (g a) Q s') → wp (p ≫= g) Q s.
Proof. intros Hp Hs Hg. rewrite wp_bind. eapply wp_mono; [|by apply Hp]. intros a s'. apply Hg. Qed.
Lemma wp_get {T B} (c : cell state T) v (g : T → prog state B) Q s :
  peek c s = inr v → wp (g v) Q s → wp (load c ≫= g) Q s.
Proof. intros Hv HQ. rewrite wp_bind. by apply (wp_of_run _ _ _ v s); [apply run_load|]. Qed.
Lemma wp_set {T B} (P : state → Prop) (c : cell state T) v (g : unit → prog state B) Q s :
  (∃ u, peek c s = inr u) → P (poke c v s) → (∀ s', P s' → wp (g tt) Q s') → wp (store c v ≫= g) Q s.
Proof. intros Hc HP HQ. rewrite wp_bind. eapply wp_mono; [|by apply (wp_put P)]. intros [] s'. apply HQ. Qed.

(** setting the epoch concerns neither the locks nor what sections work on *)
Lemma keeps_epoch {A} v w (p : prog state A) : epoch_only p → keeps (at_ v w) p.
Proof.
  intros Hp s (Hh & Hr & Hv & Hw). destruct (Hp s Hr) as (a & x & Hrun & Hx & Hd).
  eapply wp_of_run; [exact Hrun|]. split; [exact Hh|]. split; [exact Hx|]. split; [|exact Hw].
  rewrite <-Hv. unfold view. cbn. by rewrite Hd.
Qed.

(** a lock held by the descriptor: the fields of the descriptor *)
Lemma held_desc s : held s → ∃ b a e, at_desc s d = inr (mkDescriptor k b false a id cnt e arr) ∧
  descs (mem s) !! d = Some (mkDescriptor k b false a id cnt e arr).
Proof.
  intros (_ & b & a & e & Hx). exists b, a, e. split; [|done].
  unfold at_desc. rewrite (proj2 (Z.eqb_neq d 0)) by lia. by rewrite Hx.
Qed.
Lemma field_there {T} (get : descriptor → T) set s : held s → ∃ u, peek (field get set d) s = inr u.
Proof. intros Hs. destruct (held_desc s Hs) as (b & a & e & Hx & _). eexists. simpl. by rewrite Hx. Qed.

Lemma wp_desc {B} (g : descriptor → prog state B) Q s : held s →
  (∀ b a e, wp (g (mkDescriptor k b false a id cnt e arr)) Q s) → wp (load (desc_c d) ≫= g) Q s.
Proof.
  intros Hs HQ. destruct (held_desc s Hs) as (b & a & e & Hx & _).
  eapply wp_get; [|apply (HQ b a e)]. simpl. by rewrite Hx.
Qed.
Lemma lf_wp_read {B} (g : Z → prog state B) Q s : held s → wp (g d) Q s → wp (read l ≫= g) Q s.
Proof. intros [Hl _]. apply wp_get. simpl. by rewrite Hl. Qed.

Lemma keeps_acquire v w : keeps (at_ v w) (acquire d).
Proof.
  intros s Hs. apply wp_put; [by apply field_there, Hs|]. destruct Hs as ((Hl & b & a & e & Hx) & Hr & Hv & Hw).
  split; [|simpl; by rewrite Hx]. split; simpl; rewrite Hx; [done|]. exists b, true, e. apply lookup_insert_eq.
Qed.

(** the thunk runs with the descriptor's log, under the id of the holder *)
Lemma wp_thunk v lg0 s : at_ v (id, lg0, true) s →
  wp (with_log tid (mkLog arr 0) (thunks k tid))
    (λ _ s', section_ok s' ∧ ran v s' ∧ default empty_log (lgs s' !! tid) = lg0) s.
Proof.
  intros (Hh & Hr & Hv & Hw). injection Hw as Hi Hl Hp. unfold with_log. eapply wp_get; [simpl; by rewrite Hl|].
  apply (wp_set (at_ v (id, mkLog arr 0, true))); [by eexists| |].
  { split; [exact Hh|]. split; [exact Hr|]. split; [exact Hv|]. unfold own. simpl. by rewrite Hi, lookup_insert_eq, Hp. }
  intros s1 Hs1. rewrite wp_bind.
  assert (section_ok s1) as Hok1 by (split; apply Hs1). specialize (thunk_keeps s1 Hok1).
  apply wp_run in thunk_keeps as (r & s2 & Hrun & Hok2). apply (wp_of_run _ _ _ r s2); [done|].
  rewrite wp_bind. apply (wp_mono _ (λ _ s', section_ok s' ∧ ran v s' ∧ default empty_log (lgs s' !! tid) = lg0)); [by intros [] s'|].
  apply wp_put; [by eexists|]. split; [exact Hok2|]. split; [by exists s1, r, s2|]. simpl. by rewrite lookup_insert_eq.
Qed.

(** running the descriptor and clearing the lock *)
Definition cleared v lg0 s : Prop :=
  released s ∧ rest_ok (rest (mem s)) ∧ ran v s ∧ default empty_log (lgs s !! tid) = lg0.
Lemma wp_run_and_clear v lg0 s : at_ v (id, lg0, true) s →
  wp (run_descriptor thunks tid d ;; clear l d) (λ _, cleared v lg0) s.
Proof.
  intros Hs. rewrite wp_bind. unfold run_descriptor. apply wp_desc; [apply Hs|]. intros b a e.
  cbn [freed f lg_array negb assert_]. rewrite wp_bind, wp_ret, wp_bind.
  eapply wp_mono; [|by apply (wp_thunk v lg0)]. clear s Hs. intros r s (Hok & Hran & Hlg). pose proof Hok as [Hh Hr].
  destruct (held_desc s Hh) as (b' & a' & e' & _ & Hx). destruct Hh as [Hl _].
  pose (y := mkDescriptor k true false a' id cnt e' arr).
  apply (wp_of_run _ _ _ tt (set_descs (<[d := y]> (descs (mem s))) s)).
  { rewrite (run_store _ _ b'); simpl; [by rewrite Hx|]. unfold at_desc. rewrite (proj2 (Z.eqb_neq d 0)) by lia. by rewrite Hx. }
  unfold clear. apply (wp_get _ d); [simpl; by rewrite Hl|]. rewrite Z.eqb_refl. cbn [when].
  apply (wp_get _ cnt).
  { simpl. unfold at_desc. rewrite (proj2 (Z.eqb_neq d 0)) by lia. simpl. by rewrite lookup_insert_eq. }
  rewrite wp_bind. eapply wp_of_run; [rewrite (run_cas _ _ d) by (simpl; by rewrite Hl); by rewrite decide_True|].
  unfold wp; cbn [run mret prog_ret]. split; [|split; [exact Hr|split; [exact Hran|exact Hlg]]].
  split; simpl; [apply lookup_insert_eq|]. exists y. by rewrite lookup_insert_eq.
Qed.

(** the whole of [help_descriptor] *)
Definition helped v w s : Prop := released s ∧ rest_ok (rest (mem s)) ∧ ran v s ∧ own s = w.
Lemma wp_help v me lg0 h0 s : me ≠ 1000000 → at_ v (me, lg0, h0) s →
  wp (help_descriptor get_my_epoch set_my_epoch thunks tid l d true) (λ b s', b = true ∧ helped v (me, lg0, h0) s') s.
Proof.
  intros Hme Hs. unfold help_descriptor. apply (wp_keep (at_ v (me, lg0, h0))); [apply keeps_load; eauto|done|]. clear s Hs.
  intros h s Hs. cbn [negb andb]. apply lf_wp_read; [apply Hs|]. rewrite Z.eqb_refl. cbn [negb].
  apply (wp_keep (at_ v (me, lg0, h0))); [by apply keeps_epoch|done|]. clear s Hs. intros e s Hs.
  apply wp_desc; [apply Hs|]. intros b a e'.
  apply (wp_keep (at_ v (me, lg0, h0))); [by apply keeps_when, keeps_epoch|done|]. clear s Hs b a e'. intros _ s Hs.
  rewrite wp_bind. apply (wp_of_run _ _ _ me s).
  { destruct Hs as (_ & _ & _ & [= Hi _ _]). unfold get_current_id.
    assert (run (load (current_id_c tid)) s = Ok me s) as Hid by (apply run_load; simpl; by rewrite Hi).
    by rewrite run_bind, Hid, (proj2 (Z.eqb_neq _ _) Hme). }
  apply wp_desc; [apply Hs|]. intros b a e'. cbn [thread_id].
  apply (wp_set (at_ v (id, lg0, h0))); [by eexists| |].
  { destruct Hs as (Hh & Hr & Hv & [= _ Hl Hp]). split; [exact Hh|]. split; [exact Hr|]. split; [exact Hv|].
    unfold own. simpl. by rewrite lookup_insert_eq, Hl, Hp. }
  clear s Hs b a e'. intros s Hs. apply (wp_keep (at_ v (id, lg0, h0))); [apply keeps_acquire|done|]. clear s Hs. intros _ s Hs.
  apply lf_wp_read; [apply Hs|]. rewrite Z.eqb_refl. cbn [when]. rewrite wp_bind.
  apply (wp_mono _ (λ _ s, cleared v lg0 s ∧ default false (helpings s !! tid) = h0)).
  - clear s Hs. intros _ s ((Hrel & Hr & Hran & Hl) & Hp).
    apply (wp_set (helped v (me, lg0, h0))); [by eexists| |].
    { split; [exact Hrel|]. split; [exact Hr|]. split; [exact Hran|]. unfold own. simpl. by rewrite lookup_insert_eq, Hl, Hp. }
    clear s Hrel Hr Hran Hl Hp. intros s (Hrel & Hr & (s1 & r & s2 & H1 & H2 & Hvw) & Hown).
    rewrite wp_bind. destruct (set_epoch e s Hr) as (a & x & Hrun & Hx & Hd). eapply wp_of_run; [exact Hrun|].
    split; [done|]. split; [exact Hrel|]. split; [exact Hx|]. split; [|exact Hown]. exists s1, r, s2.
    split; [done|]. split; [done|]. rewrite <-Hvw. unfold view. cbn. by rewrite Hd.
  - eapply wp_get; [simpl; reflexivity|]. destruct Hs as (Hh & Hr & Hv & [= Hi Hl Hp]). rewrite Hp.
    apply (wp_set (at_ v (id, lg0, true))); [by eexists| |].
    { split; [exact Hh|]. split; [exact Hr|]. split; [exact Hv|]. unfold own. simpl. by rewrite Hi, Hl, lookup_insert_eq. }
    intros s1 Hs1. pose proof (wp_run_and_clear v lg0 s1 Hs1) as H. rewrite wp_bind in H. rewrite wp_bind.
    eapply wp_mono; [|exact H]. clear H. intros [] s2 H. rewrite wp_bind. eapply wp_mono; [|exact H]. clear H. intros [] s3 H.
    apply wp_put; [by eexists|]. split; [exact H|]. simpl. by rewrite lookup_insert_eq.
Qed.
End helping.


(** Thread 1 waits for the lock 8, which thread 0 took with descriptor 16 and
    whose thunk increments a word; the threads' epochs lie beside it. *)
Definition bump (_ _ : nat) : prog (LfLog.state (memory (Z * Z))) Z :=
  modify (λ s, set_rest ((rest (mem s)).1 + 1, (rest (mem s)).2) s) ;; mret 5.
Definition epoch_cell : cell (LfLog.state (memory (Z * Z))) Z :=
  total_cell (λ s, (rest (mem s)).2) (λ e s, set_rest ((rest (mem s)).1, e) s).
Definition waiting : LfLog.state (memory (Z * Z)) :=
  LfLog.mkState (mkMemory {[ 8 := 16 ]} {[ 16 := mkDescriptor 0 false false false 0 unlocked 7 64 ]}
    {[ 0%nat := 0; 1%nat := 1 ]} (0, 9)) {[ 64 := mkArray (replicate 8 0) 0 ]} ∅ ∅.

