(* ===== verification/Store.v ===== *)
(** * Store: the memory of a data structure, and its locks.

    The structures of structures/ are linked nodes, each with its own lock,
    allocated and retired through memory pools; they are modelled in the
    configuration with regular locks (NoHelp) and without versions, where
    verlib.h makes a versioned_ptr a plain atomic pointer.  Retiring a node
    records it: when it is freed is the subject of [Epoch] and [Reclaim]. *)

From stdpp Require Import prelude list gmap.
From Stdlib Require Import ZArith Lia.
From S2P Require Import Prelude Conc SpinLock.
Local Open Scope Z_scope.

(** a pool's choice of the next address *)
Class Allocator {T} (alloc : gmap Z T → Z) : Prop :=
  alloc_fresh : ∀ m, m !! alloc m = None ∧ alloc m ≠ 0.
#[export] Instance next_addr_allocator {T} : Allocator (@next_addr T).
Proof. intros m. apply next_addr_fresh. Qed.

(** [with_epoch] around code that runs alone changes nothing that the code
    sees: it announces and withdraws an epoch ([Epoch.with_epoch]). *)
Class EpochTransparent {S} (with_epoch : ∀ A, prog S A → prog S A) : Prop :=
  with_epoch_wp : ∀ A (p : prog S A) Q s, wp p Q s → wp (with_epoch A p) Q s.
#[export] Instance id_transparent {S} : EpochTransparent (λ A (p : prog S A), p).
Proof. by intros A p Q s. Qed.

(** [nodes] by address; the lock word in the node at each address, 0 as its
    constructor leaves it until it is first taken; the nodes given to retire *)
Record store_state (N : Type) := mkStore {
  nodes : gmap Z N;
  locks : gmap Z Z;
  retired : list Z;
}.
Arguments mkStore {N} _ _ _. Arguments nodes {N} _. Arguments locks {N} _. Arguments retired {N} _.

Section store.
Context {N : Type} (alloc : gmap Z N → Z).
#[local] Abbreviation state := (store_state N).
Implicit Types s : state.

Definition set_nodes (m : gmap Z N) s : state := mkStore m (locks s) (retired s).

Definition at_node s (p : Z) : err + N :=
  match nodes s !! p with
  | Some n => inr n
  | None => inl (if p =? 0 then NullDeref else UseAfterFree)
  end.

(** a field of the node at [p] *)
Definition field {T} (get : N → err + T) (set : T → N → N) (p : Z) : cell state T :=
  Cell (λ s, match at_node s p with inr n => get n | inl e => inl e end)
       (λ t s, match nodes s !! p with
               | Some n => set_nodes (<[p := set t n]> (nodes s)) s
               | None => s
               end).
(** the fields that a node keeps for its life, read together *)
Definition node_c (p : Z) : cell state N := field inr (λ n _, n) p.

(** the lock of the node at [p] *)
Definition lck_c (p : Z) : cell state Z :=
  Cell (λ s, match at_node s p with inr _ => inr (default 0 (locks s !! p)) | inl e => inl e end)
       (λ w s, mkStore (nodes s) (<[p := w]> (locks s)) (retired s)).

Definition new_obj (n : N) : prog state Z :=
  Act (λ s, let p := alloc (nodes s) in
            Ok p (mkStore (<[p := n]> (nodes s)) (<[p := 0]> (locks s)) (retired s))) Ret.
Definition retire (p : Z) : prog state unit :=
  modify (λ s, mkStore (nodes s) (locks s) (p :: retired s)).

Definition try_lock (tid : nat) (p : Z) (f : prog state bool) : prog state bool :=
  lock.try_lock (lck_c p) tid f.
Definition read_lock {A} (f : prog state A) : prog state A := lock.read_lock f.
End store.

(** ** Rules for code that runs alone *)
Section rules.
Context {N : Type} (alloc : gmap Z N → Z) {fresh : Allocator alloc}.
#[local] Abbreviation state := (store_state N).
Implicit Types s : state.

Lemma peek_node s p n {T} (get : N → err + T) set :
  nodes s !! p = Some n → peek (field get set p) s = get n.
Proof. intros H. simpl. unfold at_node. by rewrite H. Qed.

Lemma wp_read {T A} (get : N → err + T) set p n v (k : T → prog state A) Q s :
  nodes s !! p = Some n → get n = inr v → wp (k v) Q s → wp (load (field get set p) ≫= k) Q s.
Proof.
  intros Hn Hv Hk. rewrite wp_bind. eapply wp_of_run; [|exact Hk].
  apply run_load. by rewrite (peek_node s p n).
Qed.

Lemma wp_write {T A} (get : N → err + T) set p n v t (k : unit → prog state A) Q s :
  nodes s !! p = Some n → get n = inr v →
  wp (k tt) Q (set_nodes (<[p := set t n]> (nodes s)) s) → wp (store (field get set p) t ≫= k) Q s.
Proof.
  intros Hn Hv Hk. rewrite wp_bind. eapply wp_of_run.
  - apply (run_store _ _ v). by rewrite (peek_node s p n).
  - simpl. by rewrite Hn.
Qed.

(** a compare-and-swap of the current value *)
Lemma wp_cas {T A} `{EqDecision T} (get : N → err + T) set p n v t (k : bool → prog state A) Q s :
  nodes s !! p = Some n → get n = inr v →
  wp (k true) Q (set_nodes (<[p := set t n]> (nodes s)) s) →
  wp (atomic.cas (field get set p) v t ≫= k) Q s.
Proof.
  intros Hn Hv Hk. assert (peek (field get set p) s = inr v) as Hp by (by rewrite (peek_node s p n)).
  unfold atomic.cas. rewrite wp_bind, wp_bind. eapply wp_of_run; [by apply run_load|].
  rewrite decide_True by done. eapply wp_of_run; [by rewrite (run_cas _ _ v), decide_True|].
  simpl. by rewrite Hn.
Qed.

Lemma wp_new {A} n (k : Z → prog state A) Q s :
  (∀ p, nodes s !! p = None → p ≠ 0 →
     wp (k p) Q (mkStore (<[p := n]> (nodes s)) (<[p := 0]> (locks s)) (retired s))) →
  wp (new_obj alloc n ≫= k) Q s.
Proof. intros Hk. destruct (fresh (nodes s)). rewrite wp_bind. eapply wp_of_run; [reflexivity|auto]. Qed.

Lemma wp_retire {A} p (k : unit → prog state A) Q s :
  wp (k tt) Q (mkStore (nodes s) (locks s) (p :: retired s)) → wp (retire p ≫= k) Q s.
Proof. intros Hk. rewrite wp_bind. by eapply wp_of_run. Qed.

Lemma wp_when {A} (b : bool) p (k : unit → prog state A) Q s :
  (b = true → wp (p ≫= k) Q s) → (b = false → wp (k tt) Q s) → wp (when b p ≫= k) Q s.
Proof. destruct b; intros H1 H2; [by apply H1|]. rewrite wp_bind. by apply H2. Qed.

(** a retry loop whose first attempt succeeds *)
Lemma wp_try_loop {S' A} fuel (f : prog S' (option A)) Q (σ : S') :
  wp f (λ r σ', ∃ v, r = Some v ∧ Q v σ') σ → wp (flock.try_loop (S fuel) f) Q σ.
Proof.
  intros Hf. unfold flock.try_loop. cbn [iter]. rewrite wp_bind, wp_bind.
  eapply wp_mono; [|exact Hf]. by intros r s' (v & -> & HQ).
Qed.

End rules.

Section locks.
Context {N : Type} (tid : nat).
#[local] Abbreviation state := (store_state N).
Implicit Types s : state.

(** *** Locks: the thread holds exactly the locks [H], nobody holds others *)
Definition word s (p : Z) : Z := default 0 (locks s !! p).
Definition holding (H : gset Z) s : Prop :=
  ∀ p, if decide (p ∈ H) then ∃ w, w mod 2 = 0 ∧ word s p = lock_entry.take_lock tid w
       else word s p mod 2 = 0.

Definition empty_store : state := mkStore ∅ ∅ [].
Lemma holding_empty : holding ∅ empty_store.
Proof. intros p. by rewrite decide_False by set_solver. Qed.

Lemma holding_same_locks H s s' : locks s' = locks s → holding H s → holding H s'.
Proof. unfold holding, word. by intros ->. Qed.

Lemma holding_new H s s' p : (p ∉ H) → locks s' = <[p := 0]> (locks s) → holding H s → holding H s'.
Proof.
  intros Hp Hl Hs q. specialize (Hs q). unfold word in *; rewrite Hl.
  destruct (decide (p = q)) as [->|Hne]; [|by rewrite lookup_insert_ne].
  rewrite decide_False by done. by rewrite lookup_insert_eq.
Qed.

(** [s'] is [s] with the new objects [new] *)
Record extends s (new : list Z) s' : Prop := {
  ex_keep : ∀ y o, nodes s !! y = Some o → nodes s' !! y = Some o;
  ex_new : ∀ y, y ∈ new → nodes s !! y = None ∧ is_Some (nodes s' !! y) ∧ y ≠ 0;
  ex_nodup : NoDup new;
  ex_holding : ∀ H, (∀ y, y ∈ H → is_Some (nodes s !! y)) → holding H s → holding H s';
}.
Lemma extends_refl s : extends s [] s.
Proof. split; [done|by intros y ?%elem_of_nil|constructor|done]. Qed.
Lemma extends_trans s l1 s1 l2 s2 : extends s l1 s1 → extends s1 l2 s2 → extends s (l1 ++ l2) s2.
Proof.
  intros [K1 N1 D1 H1] [K2 N2 D2 H2]. split.
  - auto.
  - intros y [Hy|Hy]%elem_of_app.
    + destruct (N1 y Hy) as (? & [o Ho] & ?). split; [done|]. split; [eauto|done].
    + destruct (N2 y Hy) as (Hn & ? & ?). split; [|done]. destruct (nodes s !! y) as [o|] eqn:E; [|done].
      apply K1 in E. congruence.
  - apply NoDup_app. split; [done|]. split; [|done]. intros y Hy Hy2.
    destruct (N1 y Hy) as (_ & [o Ho] & _). destruct (N2 y Hy2) as (Hn & _). congruence.
  - intros H HH Hh. apply H2; [|by apply H1]. intros y Hy. destruct (HH y Hy) as [o Ho]. eauto.
Qed.
Lemma extends_one s a (o : N) : nodes s !! a = None → a ≠ 0 →
  extends s [a] (mkStore (<[a := o]> (nodes s)) (<[a := 0]> (locks s)) (retired s)).
Proof.
  intros Ha Ha0. split; simpl.
  - intros y o' Hy. rewrite lookup_insert_ne by congruence. done.
  - intros y ->%list_elem_of_singleton. rewrite lookup_insert_eq. eauto.
  - apply NoDup_singleton.
  - intros H HH Hh. eapply (holding_new H s _ a); [|done|done]. intros Hin.
    destruct (HH a Hin). congruence.
Qed.


(** a lock that nobody holds *)
Lemma wp_wait_lock {A} H p n fuel (k : unit → prog state A) Q s :
  holding H s → (p ∉ H) → nodes s !! p = Some n → wp (k tt) Q s →
  wp (lock.wait_lock (lck_c p) (S fuel) tid ≫= k) Q s.
Proof.
  intros Hs Hp Hn Hk. specialize (Hs p). rewrite decide_False in Hs by done.
  unfold lock.wait_lock. rewrite wp_bind, wp_bind.
  eapply wp_of_run. { apply (run_load _ _ (word s p)). simpl. unfold at_node. by rewrite Hn. }
  cbn [iter]. unfold lock_entry.is_locked. by rewrite Hs.
Qed.
Lemma wp_is_locked {A} H p n (k : bool → prog state A) Q s :
  holding H s → (p ∉ H) → nodes s !! p = Some n → wp (k false) Q s →
  wp (lock.is_locked (lck_c p) ≫= k) Q s.
Proof.
  intros Hs Hp Hn Hk. specialize (Hs p). rewrite decide_False in Hs by done.
  unfold lock.is_locked. rewrite wp_bind, wp_bind.
  eapply wp_of_run. { apply (run_load _ _ (word s p)). simpl. unfold at_node. by rewrite Hn. }
  unfold lock_entry.is_locked. by rewrite Hs.
Qed.

Context (tid_ok : small_tid tid).

(** taking a free lock: the critical section runs with it, and it is free
    again afterwards *)
Lemma wp_try_lock {A} H p n f (k : bool → prog state A) Q s :
  holding H s → (p ∉ H) → nodes s !! p = Some n →
  (∀ s1, nodes s1 = nodes s → retired s1 = retired s → holding ({[p]} ∪ H) s1 →
     wp f (λ b s2, holding ({[p]} ∪ H) s2 ∧ is_Some (nodes s2 !! p) ∧
       ∀ s3, nodes s3 = nodes s2 → retired s3 = retired s2 → holding H s3 → wp (k b) Q s3) s1) →
  wp (try_lock tid p f ≫= k) Q s.
Proof.
  intros Hs Hp Hn Hf. set (w := word s p).
  assert (w mod 2 = 0) as Hw by (specialize (Hs p); by rewrite decide_False in Hs).
  destruct (take_lock_facts tid w tid_ok Hw) as (Hlk & Hid & Hrel).
  assert (peek (lck_c p) s = inr w) as Hpk by (simpl; unfold at_node; by rewrite Hn).
  unfold try_lock, lock.try_lock, lock.try_lock_result.
  rewrite wp_bind, wp_bind, wp_bind. eapply wp_of_run; [by apply run_load|].
  assert (lock_entry.is_locked w = false) as -> by (unfold lock_entry.is_locked; by rewrite Hw).
  cbn [negb]. rewrite wp_bind. eapply wp_of_run; [by rewrite (run_cas _ _ w), decide_True|].
  cbv iota. rewrite wp_bind. set (s1 := poke (lck_c p) (lock_entry.take_lock tid w) s).
  eapply wp_mono; [|apply (Hf s1); [done|done|]].
  - intros b s2 (Hs2 & [n2 Hn2] & Hk). rewrite wp_bind, wp_bind.
    pose proof (Hs2 p) as Hs2p.
    rewrite decide_True in Hs2p by set_solver. destruct Hs2p as (w2 & Hw2 & Hwd2).
    destruct (take_lock_facts tid w2 tid_ok Hw2) as (_ & Hid2 & _).
    eapply wp_of_run. { apply (run_load _ _ (word s2 p)). simpl. unfold at_node. by rewrite Hn2. }
    assert (lock_entry.is_self_locked tid (word s2 p) = true) as ->.
    { unfold lock_entry.is_self_locked. rewrite Hwd2, Hid2. apply Z.eqb_refl. }
    cbn [when]. eapply wp_of_run.
    { apply (run_store _ _ (word s2 p)). simpl. unfold at_node. by rewrite Hn2. }
    apply Hk; [done|done|]. intros q. unfold word; simpl.
    destruct (decide (p = q)) as [->|Hne].
    + rewrite decide_False by done. rewrite lookup_insert_eq. simpl. rewrite Hrel. by apply release_even.
    + rewrite lookup_insert_ne by done. specialize (Hs2 q).
      destruct (decide (q ∈ H)); [rewrite decide_True in Hs2 by set_solver|
        rewrite decide_False in Hs2 by set_solver]; done.
  - intros q. unfold word; simpl. destruct (decide (p = q)) as [->|Hne].
    + rewrite decide_True by set_solver. rewrite lookup_insert_eq. by exists w.
    + rewrite lookup_insert_ne by done. specialize (Hs q).
      destruct (decide (q ∈ H)); [rewrite decide_True by set_solver|
        rewrite decide_False by set_solver]; done.
Qed.

(** *** Nested critical sections *)
Fixpoint held (ps : list Z) : gset Z := match ps with [] => ∅ | p :: ps' => {[p]} ∪ held ps' end.
Lemma elem_held p ps : p ∈ held ps ↔ p ∈ ps.
Proof.
  induction ps as [|q ps IH]; simpl; [by rewrite elem_of_empty, elem_of_nil|].
  by rewrite elem_of_union, elem_of_singleton, elem_of_cons, IH.
Qed.
(** what the innermost section has to establish, the innermost lock first *)
Fixpoint locked (ps : list Z) (Q : state → Prop) (b : bool) s : Prop :=
  match ps with
  | [] => Q s
  | p :: ps' => holding (held ps) s ∧ is_Some (nodes s !! p) ∧
      ∀ s3, nodes s3 = nodes s → retired s3 = retired s → holding (held ps') s3 → locked ps' Q b s3
  end.
Lemma wp_locked p ps n f Q s : holding (held ps) s → (p ∉ ps) → nodes s !! p = Some n →
  (∀ s1, nodes s1 = nodes s → holding (held (p :: ps)) s1 → wp f (locked (p :: ps) Q) s1) →
  wp (try_lock tid p f) (locked ps Q) s.
Proof.
  intros Hh Hp Hn Hf. refine (proj1 (wp_bind_ret _ _ _) _).
  eapply (wp_try_lock (held ps)); [exact Hh|by rewrite elem_held|exact Hn|]. intros s1 Hs1 _ Hh1. exact (Hf s1 Hs1 Hh1).
Qed.
(** the locks do not matter to a condition on the nodes *)
Lemma locked_nodes (P : gmap Z N → Prop) ps b : ∀ s, P (nodes s) → (∀ p, p ∈ ps → is_Some (nodes s !! p)) →
  holding (held ps) s → locked ps (λ s', P (nodes s') ∧ holding ∅ s') b s.
Proof.
  induction ps as [|p ps IH]; intros s HP Hps Hh; simpl; [done|]. split; [done|]. split; [apply Hps; by left|].
  intros s3 Hs3 _ Hh3. apply IH; rewrite ?Hs3; [done| |done]. intros q Hq. apply Hps. by right.
Qed.

(** what was in the store before is there after assignments *)
Lemma still_there s new s' ps (m2 : gmap Z N) : extends s new s' → Forall (λ p, is_Some (nodes s !! p)) ps →
  (∀ y, is_Some (nodes s' !! y) → is_Some (m2 !! y)) → ∀ p, p ∈ ps → is_Some (m2 !! p).
Proof.
  intros He Hps Hm p Hp. rewrite Forall_forall in Hps. destruct (Hps p Hp) as [o Ho]. apply Hm.
  exists o. by apply (ex_keep _ _ _ He).
Qed.

Lemma locks_held s new s' ps s2 : extends s new s' → holding (held ps) s → Forall (λ p, is_Some (nodes s !! p)) ps →
  locks s2 = locks s' → holding (held ps) s2.
Proof.
  intros He Hh Hps Hl. eapply holding_same_locks; [exact Hl|]. apply (ex_holding _ _ _ He); [|done].
  intros y Hy%elem_held. rewrite Forall_forall in Hps. by apply Hps.
Qed.
End locks.
