(* ===== verification/MapSpec.v ===== *)
(** * MapSpec: what the maps of structures/ promise.

    The structures have one interface: [find], [insert] of a key that is not
    there, [remove], each telling whether it did something.  [Dictionary] is
    that promise, over a relation between the memory and the finite map it
    represents; [dictionary_refines] draws the consequence for any sequence of
    operations. *)

From stdpp Require Import prelude list gmap.
From Stdlib Require Import ZArith Lia Sorted.
From S2P Require Import Prelude.
Local Open Scope Z_scope.

Record dict_ops (S : Type) := DictOps {
  d_find : nat → Z → prog S (option Z);
  d_insert : nat → Z → Z → prog S bool;
  d_remove : nat → Z → prog S bool;
}.
Arguments DictOps {S} _ _ _. Arguments d_find {S} _ _ _. Arguments d_insert {S} _ _ _ _. Arguments d_remove {S} _ _ _.

(** loops take [fuel]; it is enough when it is above the number of keys *)
Definition enough (fuel : nat) (m : gmap Z Z) : Prop := (size m + 4 ≤ fuel)%nat.

Class Dictionary {S} (ops : dict_ops S) (repr : gmap Z Z → S → Prop) : Prop := {
  dict_find fuel k m s : enough fuel m → repr m s →
    wp (d_find ops fuel k) (λ r s', r = m !! k ∧ repr m s') s;
  dict_insert fuel k v m s : enough fuel m → repr m s →
    wp (d_insert ops fuel k v) (λ b s', b = bool_decide (m !! k = None) ∧
      repr (if b then <[k := v]> m else m) s') s;
  dict_remove fuel k m s : enough fuel m → repr m s →
    wp (d_remove ops fuel k) (λ b s', b = bool_decide (is_Some (m !! k)) ∧ repr (delete k m) s') s;
}.

(** ** Sequences of operations *)
Inductive dict_command := Find (k : Z) | Insert (k v : Z) | Remove (k : Z).
Inductive answer := AFind (r : option Z) | AInsert (b : bool) | ARemove (b : bool).
#[export] Instance command_eq_dec : EqDecision dict_command.
Proof. solve_decision. Defined.
#[export] Instance answer_eq_dec : EqDecision answer.
Proof. solve_decision. Defined.

Definition perform {S} (ops : dict_ops S) (fuel : nat) (c : dict_command) : prog S answer :=
  match c with
  | Find k => r ← d_find ops fuel k; mret (AFind r)
  | Insert k v => b ← d_insert ops fuel k v; mret (AInsert b)
  | Remove k => b ← d_remove ops fuel k; mret (ARemove b)
  end.
Fixpoint perform_all {S} (ops : dict_ops S) (fuel : nat) (cs : list dict_command) : prog S (list answer) :=
  match cs with
  | [] => mret []
  | c :: cs' => a ← perform ops fuel c; l ← perform_all ops fuel cs'; mret (a :: l)
  end.

(** the same on finite maps *)
Definition meaning (c : dict_command) (m : gmap Z Z) : answer * gmap Z Z :=
  match c with
  | Find k => (AFind (m !! k), m)
  | Insert k v => match m !! k with
                  | None => (AInsert true, <[k := v]> m)
                  | Some _ => (AInsert false, m)
                  end
  | Remove k => match m !! k with
                | Some _ => (ARemove true, delete k m)
                | None => (ARemove false, m)
                end
  end.
Fixpoint meaning_all (cs : list dict_command) (m : gmap Z Z) : list answer * gmap Z Z :=
  match cs with
  | [] => ([], m)
  | c :: cs' => let '(a, m1) := meaning c m in
                let '(l, m2) := meaning_all cs' m1 in (a :: l, m2)
  end.

Section refines.
Context {S : Type} (ops : dict_ops S) (repr : gmap Z Z → S → Prop) `{!Dictionary ops repr}.

Lemma meaning_size c m : (size (meaning c m).2 ≤ 1 + size m)%nat.
Proof.
  destruct c as [k|k v|k]; simpl; [lia| |]; destruct (m !! k) as [x|] eqn:E; simpl; try lia.
  - by rewrite map_size_insert_None.
  - rewrite map_size_delete_Some by eauto. lia.
Qed.

Lemma perform_refines fuel c m s : enough fuel m → repr m s →
  wp (perform ops fuel c) (λ a s', a = (meaning c m).1 ∧ repr (meaning c m).2 s') s.
Proof.
  intros Hf Hr. destruct c as [k|k v|k]; simpl; rewrite wp_bind.
  - eapply wp_mono; [|by apply dict_find]. intros r s' [-> Hr']. done.
  - eapply wp_mono; [|by apply dict_insert]. intros b s' [-> Hr'].
    destruct (m !! k) eqn:E; simpl in *; done.
  - eapply wp_mono; [|by apply dict_remove]. intros b s' [-> Hr'].
    destruct (m !! k) eqn:E; simpl in *; [done|]. by rewrite delete_id in Hr'.
Qed.

Lemma dictionary_refines fuel cs : ∀ m s, (size m + length cs + 4 ≤ fuel)%nat → repr m s →
  ∃ s', run (perform_all ops fuel cs) s = Ok (meaning_all cs m).1 s' ∧ repr (meaning_all cs m).2 s'.
Proof.
  induction cs as [|c cs IH]; intros m s Hf Hr; [by exists s|].
  pose proof (meaning_size c m) as Hsize. simpl in Hf.
  assert (enough fuel m) as Hen by (unfold enough; lia).
  pose proof (perform_refines fuel c m s Hen Hr) as Hc.
  apply wp_run in Hc as (a & s1 & Hrun & -> & Hr1). simpl.
  destruct (meaning c m) as [a m1] eqn:Hm; simpl in *.
  destruct (IH m1 s1) as (s2 & Hrun2 & Hr2); [lia|done|].
  destruct (meaning_all cs m1) as [l m2] eqn:Hm2. simpl in *.
  exists s2. split; [|done]. by rewrite run_bind, Hrun, run_bind, Hrun2.
Qed.
End refines.

(** a new structure, used by one thread from its construction on *)
Definition session {S R} (make : prog S R) (ops : R → dict_ops S) (fuel : nat) (cs : list dict_command)
  : prog S (list answer) :=
  root ← make; perform_all (ops root) fuel cs.

Lemma session_refines {S R} make (ops : R → dict_ops S) (repr : R → gmap Z Z → S → Prop)
    `{!∀ root, Dictionary (ops root) (repr root)} fuel cs s :
  wp make (λ root s', repr root ∅ s') s → (length cs + 4 ≤ fuel)%nat →
  wp (session make ops fuel cs) (λ answers s', answers = (meaning_all cs ∅).1 ∧
    ∃ root, repr root (meaning_all cs ∅).2 s') s.
Proof.
  intros Hmake Hfuel. unfold session. rewrite wp_bind. eapply wp_mono; [|exact Hmake].
  intros root s1 Hr. destruct (dictionary_refines (ops root) (repr root) fuel cs ∅ s1) as (s2 & Hrun & Hr2);
    [by rewrite map_size_empty|done|].
  eapply wp_of_run; [exact Hrun|]. eauto.
Qed.

(** ** Sorted association lists

    What an ordered structure holds, from left to right. *)
Definition sorted (l : list (Z * Z)) : Prop := StronglySorted Z.lt l.*1.
Definition to_map (l : list (Z * Z)) : gmap Z Z := list_to_map l.
Definition below (k : Z) (l : list (Z * Z)) : Prop := Forall (λ p, p.1 < k) l.
Definition above (k : Z) (l : list (Z * Z)) : Prop := Forall (λ p, k < p.1) l.

Section sorted.
Implicit Types l : list (Z * Z).

Lemma increasing_nodup (ks : list Z) : StronglySorted Z.lt ks → NoDup ks.
Proof.
  induction 1 as [|k ks Hs IH Hk]; constructor; [|done].
  intros Hin. rewrite Forall_forall in Hk. specialize (Hk k Hin). lia.
Qed.
Lemma sorted_nodup l : sorted l → NoDup l.*1.
Proof. apply increasing_nodup. Qed.

Lemma sorted_app l1 l2 : sorted (l1 ++ l2) ↔
  sorted l1 ∧ sorted l2 ∧ ∀ p q, p ∈ l1 → q ∈ l2 → p.1 < q.1.
Proof.
  unfold sorted. induction l1 as [|[k v] l1 IH]; simpl.
  - split; [intros H; split_and!; [constructor|done|by intros p q ?%elem_of_nil]|by intros (_ & ? & _)].
  - split.
    + intros [Hs Hk]%StronglySorted_inv. apply IH in Hs as (H1 & H2 & H3).
      rewrite fmap_app in Hk. apply Forall_app in Hk as [Hk1 Hk2].
      split; [by constructor|]. split; [done|]. intros p q [->|Hp]%elem_of_cons Hq; [|auto]. simpl.
      rewrite Forall_forall in Hk2. apply Hk2. apply list_elem_of_fmap. eauto.
    + intros ([Hs Hk]%StronglySorted_inv & H2 & H3). constructor.
      * apply IH. split_and!; [done|done|]. intros p q Hp. apply H3. by right.
      * rewrite fmap_app. apply Forall_app. split; [done|]. apply Forall_forall.
        intros x (q & -> & Hq)%list_elem_of_fmap. apply (H3 (k, v) q); [by left|done].
Qed.

Lemma sorted_cons k v l : sorted ((k, v) :: l) ↔ above k l ∧ sorted l.
Proof.
  unfold sorted, above. simpl. split.
  - intros [Hs Hk]%StronglySorted_inv. split; [|done]. rewrite Forall_fmap in Hk. exact Hk.
  - intros [Hk Hs]. constructor; [done|]. rewrite Forall_fmap. exact Hk.
Qed.

Lemma below_app k l1 l2 : below k (l1 ++ l2) ↔ below k l1 ∧ below k l2.
Proof. apply Forall_app. Qed.
Lemma above_app k l1 l2 : above k (l1 ++ l2) ↔ above k l1 ∧ above k l2.
Proof. apply Forall_app. Qed.

(** an entry in its place *)
Lemma sorted_insert k v l1 l2 : sorted (l1 ++ l2) → below k l1 → above k l2 →
  sorted (l1 ++ (k, v) :: l2).
Proof.
  intros (H1 & H2 & H3)%sorted_app Hb Ha. apply sorted_app.
  split_and!; [done|by apply sorted_cons|]. intros p q Hp [->|Hq]%elem_of_cons; [|auto].
  unfold below in Hb. rewrite Forall_forall in Hb. by apply Hb.
Qed.
Lemma sorted_delete k v l1 l2 : sorted (l1 ++ (k, v) :: l2) →
  sorted (l1 ++ l2) ∧ below k l1 ∧ above k l2.
Proof.
  intros (H1 & (Ha & H2)%sorted_cons & H3)%sorted_app. split; [|split; [|done]].
  - apply sorted_app. split_and!; [done|done|]. intros p q Hp Hq. apply H3; [done|by right].
  - apply Forall_forall. intros p Hp. apply (H3 p (k, v)); [done|by left].
Qed.

Lemma to_map_none k l1 l2 : below k l1 → above k l2 → to_map (l1 ++ l2) !! k = None.
Proof.
  unfold below, above. rewrite !Forall_forall. intros Hb Ha. apply not_elem_of_list_to_map_1.
  rewrite fmap_app, elem_of_app. intros [(p & -> & Hp)%list_elem_of_fmap|(p & -> & Hp)%list_elem_of_fmap].
  - specialize (Hb p Hp). lia.
  - specialize (Ha p Hp). lia.
Qed.
Lemma to_map_insert k v l1 l2 : sorted (l1 ++ (k, v) :: l2) →
  to_map (l1 ++ (k, v) :: l2) = <[k := v]> (to_map (l1 ++ l2)).
Proof.
  intros Hs%sorted_nodup. unfold to_map.
  rewrite (list_to_map_proper (l1 ++ (k, v) :: l2) ((k, v) :: l1 ++ l2)); [done|done|].
  by rewrite <-Permutation_middle.
Qed.
Lemma to_map_some k v l1 l2 : sorted (l1 ++ (k, v) :: l2) → to_map (l1 ++ (k, v) :: l2) !! k = Some v.
Proof. intros Hs. rewrite to_map_insert by done. by rewrite lookup_insert_eq. Qed.
Lemma to_map_delete k v l1 l2 : sorted (l1 ++ (k, v) :: l2) →
  delete k (to_map (l1 ++ (k, v) :: l2)) = to_map (l1 ++ l2).
Proof.
  intros Hs. rewrite to_map_insert by done. apply sorted_delete in Hs as (_ & Hb & Ha).
  rewrite delete_insert_id; [done|]. by apply to_map_none.
Qed.
Lemma filter_agree {A} (P Q : A → Prop) `{!∀ x, Decision (P x), !∀ x, Decision (Q x)} (xs : list A) :
  (∀ x, x ∈ xs → P x ↔ Q x) → filter P xs = filter Q xs.
Proof.
  induction xs as [|x xs IH]; intros Heq; [done|]. rewrite !filter_cons.
  rewrite IH by (intros y Hy; apply Heq; by right).
  assert (P x ↔ Q x) by (apply Heq; by left). do 2 case_decide; tauto.
Qed.
Lemma filter_none {A} (P : A → Prop) `{!∀ x, Decision (P x)} (xs : list A) :
  (∀ x, x ∈ xs → ¬ P x) → filter P xs = [].
Proof.
  induction xs as [|x xs IH]; intros Heq; [done|]. rewrite filter_cons_False by (apply Heq; by left).
  apply IH. intros y Hy. apply Heq. by right.
Qed.

(** the entries with keys in a range *)
Definition in_range (a b : Z) (l : list (Z * Z)) : list (Z * Z) := filter (λ p, a ≤ p.1 ≤ b) l.
Lemma in_range_app a b l1 l2 : in_range a b (l1 ++ l2) = in_range a b l1 ++ in_range a b l2.
Proof. apply filter_app. Qed.
Lemma in_range_none a b l : (∀ p, p ∈ l → p.1 < a ∨ b < p.1) → in_range a b l = [].
Proof. intros H. apply filter_none. intros p Hp. destruct (H p Hp); lia. Qed.
Lemma in_range_elem a b l p : sorted l →
  p ∈ in_range a b l ↔ a ≤ p.1 ≤ b ∧ to_map l !! p.1 = Some p.2.
Proof.
  intros Hs. unfold in_range, to_map. rewrite list_elem_of_filter.
  destruct p as [k v]. simpl. by rewrite elem_of_list_to_map by by apply sorted_nodup.
Qed.
Lemma in_range_sorted a b l : sorted l → sorted (in_range a b l).
Proof.
  induction l as [|[k v] l IH]; [done|]. intros [Ha Hs]%sorted_cons. unfold in_range.
  rewrite filter_cons. case_decide; [|by apply IH]. apply sorted_cons. split; [|by apply IH].
  apply Forall_forall. intros q [_ Hq]%list_elem_of_filter. unfold above in Ha.
  rewrite Forall_forall in Ha. by apply Ha.
Qed.

Lemma to_map_size l : sorted l → size (to_map l) = length l.
Proof. intros Hs%sorted_nodup. by apply map_size_list_to_map. Qed.

(** the place of a key *)
Lemma sorted_place k l : sorted l →
  match to_map l !! k with
  | Some v => ∃ l1 l2, l = l1 ++ (k, v) :: l2 ∧ below k l1 ∧ above k l2
  | None => ∃ l1 l2, l = l1 ++ l2 ∧ below k l1 ∧ above k l2
  end.
Proof.
  intros Hs. destruct (to_map l !! k) as [v|] eqn:E.
  - apply elem_of_list_to_map_2 in E. apply list_elem_of_split in E as (l1 & l2 & ->).
    apply sorted_delete in Hs as (_ & Hb & Ha). eauto.
  - apply not_elem_of_list_to_map_2 in E. induction l as [|[k' v'] l IH].
    + exists [], []. split; [done|]. split; constructor.
    + apply sorted_cons in Hs as [Hk Hs]. apply not_elem_of_cons in E as [Hne E]. simpl in Hne.
      destruct (decide (k' < k)) as [Hlt|Hge].
      * destruct (IH Hs E) as (l1 & l2 & -> & Hb & Ha). exists ((k', v') :: l1), l2.
        split; [done|]. split; [by constructor|done].
      * exists [], ((k', v') :: l). split; [done|]. split; [constructor|].
        constructor; [simpl; lia|]. eapply Forall_impl; [exact Hk|]. simpl. lia.
Qed.
End sorted.
