(* ===== verification/ListMap.v ===== *)
(** * ListMap: the sorted linked list (structures/list/ordered_map.h).

    Keys are integers compared with std::less.  Between the head [root] and an
    end node the keys increase; an update locks the node before the place it
    changes and validates what it read without a lock. *)

From stdpp Require Import prelude list gmap.
From Stdlib Require Import ZArith Lia Sorted.
From S2P Require Import Prelude Conc SpinLock Store MapSpec.
Local Open Scope Z_scope.

Record node := mkNode { next : Z; key : Z; value : Z; is_end : bool; removed : bool }.

Section list.
Context (alloc : gmap Z node → Z) (tid : nat).
Context (with_epoch : ∀ A, prog (store_state node) A → prog (store_state node) A).
#[local] Abbreviation state := (store_state node).

Definition next_c : Z → cell state Z :=
  field (λ n, inr (next n)) (λ x n, mkNode x (key n) (value n) (is_end n) (removed n)).
Definition removed_c : Z → cell state bool :=
  field (λ n, inr (removed n)) (λ b n, mkNode (next n) (key n) (value n) (is_end n) b).

(** the constructors: a node with a key; head and tail, whose key and value
    are never read *)
Definition new_node (k v nxt : Z) : prog state Z := new_obj alloc (mkNode nxt k v false false).
Definition new_sentinel (nxt : Z) (e : bool) : prog state Z := new_obj alloc (mkNode nxt 0 0 e false).

Definition find_location (fuel : nat) (root k : Z) : prog state (Z * Z) :=
  nxt ← load (next_c root);
  iter fuel (λ '(cur, nxt),
    nxt_nxt ← load (next_c nxt);
    n ← load (node_c nxt);
    mret (if is_end n || negb (key n <? k) then inr (cur, nxt) else inl (nxt, nxt_nxt))) (root, nxt).

(** the test under read_lock: [cur] is still there and still before [nxt] *)
Definition still_before (cur nxt : Z) : prog state bool :=
  read_lock
    (x ← load (next_c cur);
     if negb (x =? nxt) then mret false else r ← load (removed_c cur); mret (negb r)).

Definition try_insert (fuel : nat) (root k v : Z) : prog state (option bool) :=
  '(cur, nxt) ← find_location fuel root k;
  n ← load (node_c nxt);
  if negb (is_end n) && negb (k <? key n) then
    b ← still_before cur nxt;
    mret (if (b : bool) then Some false else None)
  else
    b ← try_lock tid cur
      (r ← load (removed_c cur);
       x ← (if negb (r : bool) then load (next_c cur) else mret 0);
       if negb r && (x =? nxt) then
         n ← new_node k v nxt;
         store (next_c cur) n ;;
         mret true
       else mret false);
    mret (if (b : bool) then Some true else None).

Definition insert_ (fuel : nat) (root k v : Z) : prog state bool :=
  flock.try_loop fuel (try_insert fuel root k v).
Definition insert (fuel : nat) (root k v : Z) : prog state bool :=
  with_epoch bool (insert_ fuel root k v).

Definition try_remove (fuel : nat) (root k : Z) : prog state (option bool) :=
  '(cur, nxt) ← find_location fuel root k;
  n ← load (node_c nxt);
  if is_end n || (k <? key n) then
    b ← still_before cur nxt;
    mret (if (b : bool) then Some false else None)
  else
    b ← try_lock tid cur
      (r ← load (removed_c cur);
       x ← (if (r : bool) then mret 0 else load (next_c cur));
       if r || negb (x =? nxt) then mret false
       else try_lock tid nxt
         (nxtnxt ← load (next_c nxt);
          store (removed_c nxt) true ;;
          store (next_c cur) nxtnxt ;;
          retire nxt ;;
          mret true));
    mret (if (b : bool) then Some true else None).

(** the same when objects are recorded once: the node after is copied *)
Definition try_remove_copy (fuel : nat) (root k : Z) : prog state (option bool) :=
  '(cur, nxt) ← find_location fuel root k;
  n ← load (node_c nxt);
  if is_end n || (k <? key n) then
    b ← still_before cur nxt;
    mret (if (b : bool) then Some false else None)
  else
    b ← try_lock tid cur
      (r ← load (removed_c cur);
       x ← (if (r : bool) then mret 0 else load (next_c cur));
       if r || negb (x =? nxt) then mret false
       else try_lock tid nxt
         (nxtnxt ← load (next_c nxt);
          try_lock tid nxtnxt
            (store (removed_c nxt) true ;;
             store (removed_c nxtnxt) true ;;
             n ← load (node_c nxtnxt);
             x ← load (next_c nxtnxt);
             c ← new_obj alloc (mkNode x (key n) (value n) (is_end n) false);
             store (next_c cur) c ;;
             retire nxt ;;
             retire nxtnxt ;;
             mret true)));
    mret (if (b : bool) then Some true else None).

Definition remove_ (fuel : nat) (root k : Z) : prog state bool :=
  flock.try_loop fuel (try_remove fuel root k).
Definition remove (fuel : nat) (root k : Z) : prog state bool :=
  with_epoch bool (remove_ fuel root k).

Definition try_find (fuel : nat) (root k : Z) : prog state (option (option Z)) :=
  '(cur, nxt) ← find_location fuel root k;
  b ← still_before cur nxt;
  if (b : bool) then
    n ← load (node_c nxt);
    mret (Some (if negb (is_end n) && negb (k <? key n) then Some (value n) else None))
  else mret None.
Definition find_locked (fuel : nat) (root k : Z) : prog state (option Z) :=
  flock.try_loop fuel (try_find fuel root k).

Definition find_ (fuel : nat) (root k : Z) : prog state (option Z) :=
  '(cur, nxt) ← find_location fuel root k;
  n ← load (node_c nxt);
  mret (if negb (is_end n) && negb (k <? key n) then Some (value n) else None).
Definition find (fuel : nat) (root k : Z) : prog state (option Z) :=
  with_epoch (option Z) (find_ fuel root k).

(** the keys and values given to [add], in order *)
Definition range_ (fuel : nat) (root first last : Z) : prog state (list (Z * Z)) :=
  nxt ← load (next_c root);
  nxt ← iter fuel (λ nxt,
    nxt_nxt ← load (next_c nxt);
    n ← load (node_c nxt);
    mret (if is_end n || negb (key n <? first) then inr nxt else inl nxt_nxt)) nxt;
  iter fuel (λ '(nxt, added),
    n ← load (node_c nxt);
    if negb (is_end n) && negb (last <? key n) then
      x ← load (next_c nxt);
      mret (inl (x, added ++ [(key n, value n)]))
    else mret (inr added)) (nxt, []).

Definition ordered_map : prog state Z := t ← new_sentinel 0 true; new_sentinel t false.

Fixpoint retire_recursive (fuel : nat) (p : Z) : prog state unit :=
  match fuel with
  | O => fail OutOfFuel
  | S k =>
      n ← load (node_c p);
      when (negb (is_end n)) (x ← load (next_c p); retire_recursive k x) ;;
      retire p
  end.

(** aborts when the keys do not increase, otherwise counts them *)
Definition check (fuel : nat) (root : Z) : prog state Z :=
  ptr ← load (next_c root);
  n ← load (node_c ptr);
  if is_end n then mret 0
  else
    ptr' ← load (next_c ptr);
    iter fuel (λ '(ptr, k, i),
      n ← load (node_c ptr);
      if is_end n then mret (inr i)
      else if negb (k <? key n) then fail Abort
      else x ← load (next_c ptr); mret (inl (x, key n, i + 1))) (ptr', key n, 1).
End list.

(** ** The list in memory *)
Section repr.
Implicit Types m : gmap Z node.
Implicit Types l : list (Z * (Z * Z)).

(** the nodes with addresses, keys and values [l], linked from [p] to [q] *)
Fixpoint seg m (p : Z) l (q : Z) : Prop :=
  match l with
  | [] => p = q
  | (a, (k, v)) :: l' => p = a ∧ ∃ nx, m !! a = Some (mkNode nx k v false false) ∧ seg m nx l' q
  end.

(** the whole list: the head [root] with its unused key, the entries, the end *)
Record list_at (root : Z) l (e : Z) m : Prop := {
  la_seg : ∃ kv, seg m root ((root, kv) :: l) e;
  la_end : ∃ n, m !! e = Some n ∧ is_end n = true;
  la_nodup : NoDup (root :: l.*1);
  la_sorted : sorted l.*2;
}.

Lemma seg_app m p l1 l2 q : seg m p (l1 ++ l2) q ↔ ∃ r, seg m p l1 r ∧ seg m r l2 q.
Proof.
  revert p. induction l1 as [|[a [k v]] l1 IH]; intros p; simpl.
  - split; [by exists p|by intros (r & -> & ?)].
  - split.
    + intros (-> & nx & Hm & (r & H1 & H2)%IH). eauto 10.
    + intros (r & (-> & nx & Hm & H1) & H2). split; [done|]. exists nx. split; [done|]. apply IH. eauto.
Qed.

Lemma seg_frame m p l q a n : (a ∉ l.*1) → seg m p l q → seg (<[a := n]> m) p l q.
Proof.
  revert p. induction l as [|[b [k v]] l IH]; intros p; simpl; [done|].
  intros Ha (-> & nx & Hm & Hs). split; [done|]. exists nx.
  rewrite lookup_insert_ne by (intros ->; apply Ha; by left). split; [done|].
  apply IH; [|done]. intros ?. apply Ha. by right.
Qed.

Lemma seg_in m p l q a k v : seg m p l q → (a, (k, v)) ∈ l →
  ∃ nx, m !! a = Some (mkNode nx k v false false).
Proof.
  revert p. induction l as [|[b [k' v']] l IH]; intros p; simpl; [by intros _ ?%elem_of_nil|].
  intros (-> & nx & Hm & Hs) [[= <- <- <-]|Hin]%elem_of_cons; eauto.
Qed.

(** a place in the list: the node [cur] before the entries [l2] *)
Lemma seg_place m p l1 cur kv l2 q : seg m p (l1 ++ (cur, kv) :: l2) q →
  ∃ nxt, seg m p l1 cur ∧ m !! cur = Some (mkNode nxt kv.1 kv.2 false false) ∧ seg m nxt l2 q.
Proof.
  intros (r & H1 & H2)%seg_app. destruct kv as [k v]. destruct H2 as (-> & nx & Hm & H2). eauto.
Qed.

(** linking [cur] to other nodes *)
Lemma seg_relink m p l1 cur kc l2 q nx l2' : seg m p (l1 ++ (cur, kc) :: l2) q →
  (cur ∉ l1.*1) → (cur ∉ l2'.*1) → seg m nx l2' q →
  seg (<[cur := mkNode nx kc.1 kc.2 false false]> m) p (l1 ++ (cur, kc) :: l2') q.
Proof.
  intros (nxt & H1 & _ & _)%seg_place Hc1 Hc2 H2. apply seg_app. exists cur.
  split; [by apply seg_frame|]. destruct kc as [kc vc]. split; [done|]. exists nx.
  rewrite lookup_insert_eq. split; [done|]. by apply seg_frame.
Qed.

(** the first node of [l2], or the end *)
Definition heads m (nxt : Z) l2 (e : Z) : Prop :=
  match l2 with
  | [] => nxt = e
  | (a, (k, v)) :: _ => nxt = a ∧ ∃ nx, m !! a = Some (mkNode nx k v false false)
  end.
Lemma seg_heads m nxt l2 e : seg m nxt l2 e → heads m nxt l2 e.
Proof. destruct l2 as [|[a [k v]] l2]; simpl; [done|]. intros (-> & nx & Hm & _). eauto. Qed.

(** the keys below [k], and the others *)
Fixpoint lower (k : Z) l : list (Z * (Z * Z)) :=
  match l with
  | [] => []
  | e :: l' => if e.2.1 <? k then e :: lower k l' else []
  end.
Fixpoint upper (k : Z) l : list (Z * (Z * Z)) :=
  match l with
  | [] => []
  | e :: l' => if e.2.1 <? k then upper k l' else l
  end.

Lemma lower_upper k l : lower k l ++ upper k l = l.
Proof. induction l as [|e l IH]; simpl; [done|]. case_match; [|done]. simpl. by rewrite IH. Qed.
Lemma lower_upper_entries k l : (lower k l).*2 ++ (upper k l).*2 = l.*2.
Proof. rewrite <-(lower_upper k l) at 3. by rewrite fmap_app. Qed.
Lemma lower_below k l : below k (lower k l).*2.
Proof.
  induction l as [|e l IH]; simpl; [constructor|].
  destruct (Z.ltb_spec e.2.1 k); [by constructor|constructor].
Qed.
Lemma upper_head k l e l' : upper k l = e :: l' → k ≤ e.2.1.
Proof.
  induction l as [|e' l IH]; simpl; [done|].
  destruct (Z.ltb_spec e'.2.1 k); [done|]. by intros [= <- <-].
Qed.
(** the node after the place tells whether [k] is there *)
Lemma node_after k root l e nxt m : list_at root l e m → seg m nxt (upper k l) e →
  ∃ n, m !! nxt = Some n ∧
    if negb (is_end n) && negb (k <? key n)
    then key n = k ∧ ∃ l2, upper k l = (nxt, (k, value n)) :: l2 ∧ removed n = false
    else above k (upper k l).*2.
Proof.
  intros [_ (ne & Hne & Hend) _ Hsort] Hs.
  destruct (upper k l) as [|[a [k' v']] l2] eqn:Hu; simpl in Hs.
  - subst nxt. exists ne. rewrite Hend. split; [done|constructor].
  - destruct Hs as (-> & nx & Hm & Hs). exists (mkNode nx k' v' false false). split; [done|]. simpl.
    pose proof (upper_head _ _ _ _ Hu) as Hle. simpl in Hle.
    rewrite <-(lower_upper k l), Hu, fmap_app in Hsort. simpl in Hsort.
    apply sorted_app in Hsort as (_ & (Hab & _)%sorted_cons & _).
    destruct (Z.ltb_spec k k'); simpl.
    + constructor; [done|]. eapply Forall_impl; [exact Hab|]. simpl. lia.
    + assert (k' = k) as -> by lia. split; [done|]. eauto.
Qed.

Lemma lookup_place k l : below k (lower k l).*2 → above k (upper k l).*2 → to_map l.*2 !! k = None.
Proof. intros Hb Ha. rewrite <-(lower_upper k l), fmap_app. by apply to_map_none. Qed.
Lemma lookup_found k v a l l2 : sorted l.*2 → upper k l = (a, (k, v)) :: l2 → to_map l.*2 !! k = Some v.
Proof.
  intros Hs Hu. rewrite <-(lower_upper k l), fmap_app, Hu in Hs |- *. by apply to_map_some.
Qed.

(** the parts of a list around a place *)
Lemma place_nodup root kv l k l1 cur kc : NoDup (root :: l.*1) →
  (root, kv) :: lower k l = l1 ++ [(cur, kc)] →
  (root, kv) :: l = l1 ++ (cur, kc) :: upper k l ∧ NoDup (l1.*1 ++ cur :: (upper k l).*1).
Proof.
  intros Hnd Hl1. assert ((root, kv) :: l = l1 ++ (cur, kc) :: upper k l) as Heq.
  { rewrite <-(lower_upper k l) at 1. rewrite app_comm_cons, Hl1. by rewrite <-app_assoc. }
  split; [done|]. change (root :: l.*1) with (((root, kv) :: l).*1) in Hnd.
  by rewrite Heq, fmap_app in Hnd.
Qed.

(** the node before the first of the others is the last of the lower ones *)
Lemma located root l e m k nxt : list_at root l e m → seg m nxt (upper k l) e →
  ∃ l1 cur kc kv, List.last (root :: (lower k l).*1) 0 = cur ∧
    (root, kv) :: lower k l = l1 ++ [(cur, kc)] ∧ seg m root ((root, kv) :: l) e ∧
    m !! cur = Some (mkNode nxt kc.1 kc.2 false false).
Proof.
  intros [(kv & Hseg) _ Hnd _] Hnxt.
  destruct (exists_last (l := (root, kv) :: lower k l)) as (l1 & [cur kc] & Hl1); [done|].
  exists l1, cur, kc, kv. split; [|split; [done|split; [done|]]].
  - change (root :: (lower k l).*1) with (((root, kv) :: lower k l).*1).
    rewrite Hl1, fmap_app. apply List.last_last.
  - destruct (place_nodup _ _ _ _ _ _ _ Hnd Hl1) as [Heq _]. rewrite Heq in Hseg.
    apply seg_place in Hseg as (nxt' & _ & Hcur & Hnxt').
    assert (nxt' = nxt) as ->; [|done].
    apply seg_heads in Hnxt, Hnxt'. destruct (upper k l) as [|[a [k1 v1]] l2]; simpl in *; [congruence|].
    destruct Hnxt, Hnxt'. congruence.
Qed.

Lemma list_insert root l e k v p l1 kv cur kc nxt m :
  list_at root l e m → (root, kv) :: lower k l = l1 ++ [(cur, kc)] → seg m root ((root, kv) :: l) e →
  seg m nxt (upper k l) e → above k (upper k l).*2 → m !! p = None →
  list_at root (lower k l ++ (p, (k, v)) :: upper k l) e
    (<[cur := mkNode p kc.1 kc.2 false false]> (<[p := mkNode nxt k v false false]> m)).
Proof.
  intros [_ (ne & Hne & Hend) Hnd Hsort] Hl1 Hseg Hnxt Hab Hp.
  destruct (place_nodup _ _ _ _ _ _ _ Hnd Hl1) as [Heq Hnd'].
  assert (p ∉ ((root, kv) :: l).*1) as Hpl.
  { intros ([a [ka va]] & -> & Hin)%list_elem_of_fmap.
    destruct (seg_in _ _ _ _ _ _ _ Hseg Hin) as (nx & Hx). simpl in Hp. congruence. }
  assert (∀ q, (p, (k, v)) :: upper k l = q → (root, kv) :: lower k l ++ q = l1 ++ (cur, kc) :: q) as Happ.
  { intros q _. rewrite app_comm_cons, Hl1. by rewrite <-app_assoc. }
  assert ((p ∉ (upper k l).*1) ∧ p ≠ cur) as [Hpu Hpc].
  { rewrite Heq, fmap_app in Hpl. split; [intros ?|intros ->]; apply Hpl; apply elem_of_app; right;
      [by right|by left]. }
  apply NoDup_app in Hnd' as (Hnd1 & Hnd2 & [Hnd3 Hnd4]%NoDup_cons).
  split.
  - exists kv. rewrite (Happ _ eq_refl). rewrite Heq in Hseg.
    apply (seg_relink _ _ _ _ _ (upper k l)).
    + apply seg_frame; [|done]. by rewrite <-Heq.
    + intros Hin. apply (Hnd2 cur Hin). by left.
    + intros [->|Hin]%elem_of_cons; done.
    + split; [done|]. exists nxt. rewrite lookup_insert_eq. split; [done|]. by apply seg_frame.
  - destruct (decide (cur = e)) as [->|Hce].
    { rewrite Heq in Hseg. apply seg_place in Hseg as (? & _ & Hc & _). rewrite Hne in Hc.
      injection Hc as ->. by simpl in Hend. }
    exists ne. rewrite !lookup_insert_ne; [done| |done]. intros ->. congruence.
  - apply NoDup_cons in Hnd as [Hr Hnd]. rewrite <-(lower_upper k l), fmap_app in Hr, Hnd.
    rewrite fmap_app, fmap_cons. change ((p, (k, v)).1) with p.
    rewrite <-Permutation_middle. simpl in Hpl. apply not_elem_of_cons in Hpl as [Hpr Hpl].
    rewrite <-(lower_upper k l), fmap_app in Hpl.
    apply NoDup_cons. split; [|by apply NoDup_cons].
    intros [?|?]%elem_of_cons; [congruence|done].
  - rewrite fmap_app. apply sorted_insert; [|apply lower_below|done].
    by rewrite lower_upper_entries.
Qed.

Lemma list_delete root l e k v l1 kv cur kc nxt nx l2 n m :
  list_at root l e m → (root, kv) :: lower k l = l1 ++ [(cur, kc)] → seg m root ((root, kv) :: l) e →
  upper k l = (nxt, (k, v)) :: l2 → m !! nxt = Some (mkNode nx k v false false) →
  list_at root (lower k l ++ l2) e
    (<[cur := mkNode nx kc.1 kc.2 false false]> (<[nxt := n]> m)).
Proof.
  intros [_ (ne & Hne & Hend) Hnd Hsort] Hl1 Hseg Hu Hnxt.
  destruct (place_nodup _ _ _ _ _ _ _ Hnd Hl1) as [Heq Hnd']. rewrite Hu in Heq, Hnd'. rewrite Heq in Hseg.
  pose proof Hseg as (nx' & H1 & Hcur & (-> & nx'' & Hnx & H2))%seg_place.
  rewrite Hnxt in Hnx. injection Hnx as <-. simpl in Hnd'.
  apply NoDup_app in Hnd' as (Hnd1 & Hnd2 & [Hnd3 [Hnd4 Hnd5]%NoDup_cons]%NoDup_cons).
  apply not_elem_of_cons in Hnd3 as [Hcn Hcl].
  split.
  - exists kv. replace ((root, kv) :: lower k l ++ l2) with (l1 ++ (cur, kc) :: l2)
      by (rewrite app_comm_cons, Hl1; by rewrite <-app_assoc).
    assert (cur ∉ l1.*1) as Hc1 by (intros Hin; apply (Hnd2 cur Hin); by left).
    assert (nxt ∉ l1.*1) as Hn1 by (intros Hin; apply (Hnd2 nxt Hin); right; by left).
    apply seg_app. exists cur. split; [by repeat apply seg_frame|]. destruct kc as [kc vc].
    split; [done|]. exists nx. rewrite lookup_insert_eq. split; [done|]. by repeat apply seg_frame.
  - exists ne. rewrite !lookup_insert_ne; [done| |].
    + intros ->. rewrite Hne in Hnxt. injection Hnxt as ->. done.
    + intros ->. rewrite Hne in Hcur. injection Hcur as ->. done.
  - eapply sublist_NoDup; [exact Hnd|]. apply sublist_skip.
    rewrite <-(lower_upper k l) at 2. rewrite Hu, !fmap_app. apply sublist_app; [done|].
    by apply sublist_cons.
  - rewrite <-(lower_upper k l), Hu, fmap_app in Hsort. rewrite fmap_app.
    by apply sorted_delete in Hsort as [? _].
Qed.
End repr.

Section proofs.
Context (alloc : gmap Z node → Z) {fresh : Allocator alloc} (tid : nat) (tid_ok : small_tid tid).
Context (with_epoch : ∀ A, prog (store_state node) A → prog (store_state node) A)
  {transparent : EpochTransparent with_epoch}.
#[local] Abbreviation state := (store_state node).
Implicit Types s : state.
Implicit Types l : list (Z * (Z * Z)).

(** from [cur], before the entries [l2], the loop stops before the first key
    that is not below [k] *)
Lemma wp_find_from fuel k s e : (∃ n, nodes s !! e = Some n ∧ is_end n = true) →
  ∀ l2 cur nxt Q, seg (nodes s) nxt l2 e → (length l2 < fuel)%nat →
  (∀ nxt', seg (nodes s) nxt' (upper k l2) e →
     Q (List.last (cur :: (lower k l2).*1) 0, nxt') s) →
  wp (iter fuel (λ '(cur, nxt),
    nxt_nxt ← load (next_c nxt);
    n ← load (node_c nxt);
    mret (if is_end n || negb (key n <? k) then inr (cur, nxt) else inl (nxt, nxt_nxt))) (cur, nxt)) Q s.
Proof.
  intros (ne & Hne & Hend) l2. revert fuel.
  induction l2 as [|[a [k' v']] l2 IH]; intros [|fuel] cur nxt Q Hs Hf HQ; simpl in Hf; try lia;
    cbn [iter]; rewrite wp_bind.
  - simpl in Hs. subst nxt. eapply wp_read; [done..|]. eapply wp_read; [done..|].
    rewrite wp_bind || idtac. rewrite Hend. by apply HQ.
  - destruct Hs as (-> & nx & Hm & Hs). eapply wp_read; [done..|]. eapply wp_read; [done..|].
    cbn [is_end orb key lower upper fst snd] in *. destruct (k' <? k) eqn:E; cbn [negb].
    + apply IH; [done|lia|]. intros nxt' Hs'. by apply HQ.
    + apply HQ. split; [done|]. eauto.
Qed.

Lemma wp_locate {A} fuel root k l e (K : Z * Z → prog state A) Q s :
  list_at root l e (nodes s) → (length l < fuel)%nat →
  (∀ l1 cur kc kv nxt, (root, kv) :: lower k l = l1 ++ [(cur, kc)] →
     seg (nodes s) root ((root, kv) :: l) e →
     nodes s !! cur = Some (mkNode nxt kc.1 kc.2 false false) →
     seg (nodes s) nxt (upper k l) e → wp (K (cur, nxt)) Q s) →
  wp (find_location fuel root k ≫= K) Q s.
Proof.
  intros Hl Hf HK. destruct (la_seg _ _ _ _ Hl) as ([k0 v0] & (_ & nx & Hroot & Hs)).
  unfold find_location. rewrite wp_bind. eapply wp_read; [done..|].
  apply (wp_find_from fuel k s e (la_end _ _ _ _ Hl) l); [done..|]. intros nxt' Hnxt.
  destruct (located root l e (nodes s) k nxt' Hl Hnxt) as (l1 & cur & kc & kv' & -> & Hl1 & Hseg' & Hcur).
  eauto.
Qed.

Lemma wp_still_before {A} cur nxt kc (K : bool → prog state A) Q s :
  nodes s !! cur = Some (mkNode nxt kc.1 kc.2 false false) →
  wp (K true) Q s → wp (still_before cur nxt ≫= K) Q s.
Proof.
  intros Hcur HK. unfold still_before, read_lock, lock.read_lock. rewrite wp_bind.
  eapply wp_read; [done..|]. simpl next. rewrite Z.eqb_refl. cbn [negb].
  by eapply wp_read.
Qed.

(** *** The list as a finite map *)
Definition repr (root : Z) (M : gmap Z Z) s : Prop :=
  ∃ l e, list_at root l e (nodes s) ∧ M = to_map l.*2 ∧ holding tid ∅ s.

Lemma repr_length root l e M fuel s : list_at root l e (nodes s) → M = to_map l.*2 →
  enough fuel M → (length l + 4 ≤ fuel)%nat.
Proof.
  intros [_ _ _ Hs] ->. unfold enough. rewrite to_map_size by done. by rewrite length_fmap.
Qed.

Lemma try_insert_wp fuel root k v M s : enough fuel M → repr root M s →
  wp (try_insert alloc tid fuel root k v) (λ r s', ∃ b, r = Some b ∧
    b = bool_decide (M !! k = None) ∧ repr root (if b then <[k := v]> M else M) s') s.
Proof.
  intros Hf (l & e & Hl & HM & Hlk). pose proof (repr_length _ _ _ _ _ _ Hl HM Hf) as Hlen.
  unfold try_insert. apply (wp_locate fuel root k l e); [done|lia|].
  intros l1 cur kc kv nxt Hl1 Hseg Hcur Hnxt.
  destruct (node_after k root l e nxt (nodes s) Hl Hnxt) as (n & Hn & Hcase).
  eapply wp_read; [done..|].
  destruct (negb (is_end n) && negb (k <? key n)) eqn:E.
  - destruct Hcase as (Hk & l2 & Hu & _). apply (wp_still_before _ _ kc); [done|].
    exists false. split; [done|]. subst M.
    assert (to_map l.*2 !! k = Some (value n)) as Hin by (eapply lookup_found; [apply Hl|exact Hu]).
    rewrite bool_decide_false by (rewrite Hin; done). split; [done|]. by exists l, e.
  - assert (M !! k = None) as HMk by (subst M; apply lookup_place; [apply lower_below|done]).
    eapply (wp_try_lock tid tid_ok ∅); [exact Hlk|set_solver|exact Hcur|].
    intros s1 Hs1 Hr1 Hh1. eapply wp_read; [by rewrite Hs1|done|]. cbn [negb removed].
    eapply wp_read; [by rewrite Hs1|done|]. cbn [next andb]. rewrite Z.eqb_refl.
    apply (wp_new alloc). intros p Hp Hp0. rewrite Hs1 in *.
    eapply wp_write; [simpl; rewrite lookup_insert_ne; [exact Hcur|congruence]|done|].
    unfold wp; cbn [run mret prog_ret nodes locks set_nodes next key value is_end removed].
    split; [|split].
    + apply (holding_new tid _ s1 _ p); [|done|done].
      intros [->%elem_of_singleton|?%elem_of_empty]%elem_of_union; congruence.
    + rewrite lookup_insert_eq. eauto.
    + intros s3 Hs3 _ Hh3. exists true. split; [done|].
      rewrite bool_decide_true by done. split; [done|].
      eexists _, e. split; [rewrite Hs3; by apply (list_insert root l e k v p l1 kv cur kc nxt)|].
      split; [|done]. rewrite HM, fmap_app. simpl. rewrite to_map_insert.
      * by rewrite lower_upper_entries.
      * apply sorted_insert; [rewrite lower_upper_entries; apply Hl|apply lower_below|done].
Qed.

Lemma try_remove_wp fuel root k M s : enough fuel M → repr root M s →
  wp (try_remove tid fuel root k) (λ r s', ∃ b, r = Some b ∧
    b = bool_decide (is_Some (M !! k)) ∧ repr root (delete k M) s') s.
Proof.
  intros Hf (l & e & Hl & HM & Hlk). pose proof (repr_length _ _ _ _ _ _ Hl HM Hf) as Hlen.
  unfold try_remove. apply (wp_locate fuel root k l e); [done|lia|].
  intros l1 cur kc kv nxt Hl1 Hseg Hcur Hnxt.
  destruct (node_after k root l e nxt (nodes s) Hl Hnxt) as (n & Hn & Hcase).
  eapply wp_read; [done..|].
  replace (is_end n || (k <? key n)) with (negb (negb (is_end n) && negb (k <? key n)))
    by (by destruct (is_end n), (k <? key n)).
  destruct (negb (is_end n) && negb (k <? key n)) eqn:E; cbn [negb].
  - destruct Hcase as (Hk & l2 & Hu & Hrem).
    assert (nxt ≠ cur) as Hnc.
    { intros ->. destruct (place_nodup _ _ _ _ _ _ _ (la_nodup _ _ _ _ Hl) Hl1) as [_ Hnd].
      rewrite Hu in Hnd. apply NoDup_app in Hnd as (_ & _ & [Hnd _]%NoDup_cons). apply Hnd. by left. }
    rewrite Hu in Hnxt. destruct Hnxt as (_ & nx & Hnx & _). destruct n as [nx' k' v e' r']. rewrite Hn in Hnx. simpl in Hnx, Hu. injection Hnx as -> -> -> ->.
    simpl in Hn.
    eapply (wp_try_lock tid tid_ok ∅); [exact Hlk|set_solver|exact Hcur|].
    intros s1 Hs1 Hr1 Hh1. eapply wp_read; [by rewrite Hs1|done|]. cbn [removed].
    eapply wp_read; [by rewrite Hs1|done|]. cbn [next orb]. rewrite Z.eqb_refl. cbn [negb].
    apply wp_bind_ret.
    eapply (wp_try_lock tid tid_ok); [exact Hh1|set_solver|by rewrite Hs1|].
    intros s2 Hs2 Hr2 Hh2. rewrite <-Hs1, <-Hs2 in *.
    eapply wp_read; [done..|]. cbn [next]. eapply wp_write; [done..|].
    eapply wp_write; [simpl; rewrite lookup_insert_ne; [exact Hcur|done]|done|].
    apply wp_retire. unfold wp; cbn [run mret prog_ret nodes locks set_nodes next key value is_end removed].
    split; [by apply (holding_same_locks tid _ s2)|].
    split; [rewrite lookup_insert_ne, lookup_insert_eq by done; eauto|].
    intros s3 Hs3 _ Hh3. unfold wp; cbn [run mret prog_ret].
    split; [done|]. split; [rewrite Hs3, lookup_insert_eq; eauto|].
    intros s4 Hs4 _ Hh4. exists true. split; [done|].
    rewrite HM. rewrite (lookup_found k v nxt l l2) by (apply Hl || exact Hu).
    split; [by rewrite bool_decide_true by eauto|].
    eexists _, e. split; [rewrite Hs4, Hs3; by eapply (list_delete root l e k)|].
    split; [|done].
    rewrite <-(lower_upper_entries k l), Hu, fmap_app. simpl. rewrite to_map_delete; [done|].
    pose proof (la_sorted _ _ _ _ Hl) as Hsort. by rewrite <-(lower_upper_entries k l), Hu in Hsort.
  - assert (M !! k = None) as HMk by (subst M; apply lookup_place; [apply lower_below|done]).
    apply (wp_still_before _ _ kc); [done|].
    exists false. split; [done|]. rewrite HMk, bool_decide_false by (by intros [? ?]).
    rewrite delete_id by done. split; [done|]. by exists l, e.
Qed.

Lemma find_wp fuel root k M s : enough fuel M → repr root M s →
  wp (find_ fuel root k) (λ r s', r = M !! k ∧ repr root M s') s.
Proof.
  intros Hf (l & e & Hl & HM & Hlk). pose proof (repr_length _ _ _ _ _ _ Hl HM Hf) as Hlen.
  unfold find_. apply (wp_locate fuel root k l e); [done|lia|].
  intros l1 cur kc kv nxt Hl1 Hseg Hcur Hnxt.
  destruct (node_after k root l e nxt (nodes s) Hl Hnxt) as (n & Hn & Hcase).
  eapply wp_read; [done..|]. unfold wp; cbn [run mret prog_ret].
  split; [|by exists l, e]. subst M.
  destruct (negb (is_end n) && negb (k <? key n)).
  - destruct Hcase as (Hk & l2 & Hu & _). symmetry. eapply lookup_found; [apply Hl|exact Hu].
  - symmetry. apply lookup_place; [apply lower_below|done].
Qed.

Definition ops (root : Z) : dict_ops state :=
  DictOps (λ fuel, find with_epoch fuel root) (λ fuel, insert alloc tid with_epoch fuel root)
    (λ fuel, remove tid with_epoch fuel root).

#[export] Instance list_dictionary root : Dictionary (ops root) (repr root).
Proof.
  split; intros [|fuel]; intros; try (by unfold enough in *; lia);
    simpl; unfold find, insert, remove; apply with_epoch_wp;
    [by apply find_wp|apply wp_try_loop..].
  - by apply try_insert_wp.
  - by apply try_remove_wp.
Qed.

Lemma ordered_map_wp s : holding tid ∅ s →
  wp (ordered_map alloc) (λ root s', repr root ∅ s') s.
Proof.
  intros Hlk. unfold ordered_map. apply (wp_new alloc). intros p Hp Hp0.
  unfold new_sentinel. apply wp_bind_ret. apply (wp_new alloc). intros q Hq Hq0.
  unfold wp; cbn [run mret prog_ret]. simpl in Hq. exists [], p. split; [split|].
  - exists (0, 0). simpl. split; [done|]. exists p. by rewrite lookup_insert_eq.
  - eexists. simpl. rewrite lookup_insert_ne, lookup_insert_eq; [done|]. intros ->.
    by rewrite lookup_insert_eq in Hq.
  - repeat constructor. by intros ?%elem_of_nil.
  - constructor.
  - split; [done|]. apply (holding_new tid ∅ (mkStore ∅ (<[p := 0]> (locks s)) []) _ q); [apply not_elem_of_empty|done|].
    by apply (holding_new tid ∅ s _ p); [apply not_elem_of_empty|..].
Qed.

(** C18: a newly made list, used by one thread through any sequence of finds,
    inserts and removes, answers each as a finite map does (an insert of a key
    that is there, and a remove of one that is not, report false and change
    nothing), never fails, and stops with fuel above the number of operations. *)
Theorem list_refines_map fuel cs s : holding tid ∅ s → (length cs + 4 ≤ fuel)%nat →
  wp (session (ordered_map alloc) ops fuel cs) (λ answers s',
    answers = (meaning_all cs ∅).1 ∧ ∃ root, repr root (meaning_all cs ∅).2 s') s.
Proof. intros Hlk Hf. eapply session_refines; [apply _|by apply ordered_map_wp|done]. Qed.

(** the nodes from [p] on, collected while the key is at most [b] *)
Lemma wp_collect s e b : (∃ n, nodes s !! e = Some n ∧ is_end n = true) →
  ∀ l fuel p acc, seg (nodes s) p l e → (length l < fuel)%nat → sorted l.*2 →
  wp (iter fuel (λ '(nxt, added),
    n ← load (node_c nxt);
    if negb (is_end n) && negb (b <? key n) then
      x ← load (next_c nxt);
      mret (inl (x, added ++ [(key n, value n)]))
    else mret (inr added)) (p, acc))
  (λ r s', r = acc ++ filter (λ p, p.1 ≤ b) l.*2 ∧ s' = s) s.
Proof.
  intros (ne & Hne & Hend) l. induction l as [|[a [k v]] l IH]; intros [|fuel] p acc Hs Hf Hsort;
    simpl in Hf; try lia; cbn [iter]; rewrite wp_bind.
  - simpl in Hs. subst p. eapply wp_read; [done..|]. rewrite Hend. cbn [negb andb].
    unfold wp; cbn. by rewrite app_nil_r.
  - destruct Hs as (-> & nx & Hm & Hs). eapply wp_read; [done..|]. cbn [is_end key negb andb].
    rewrite fmap_cons in Hsort |- *. apply sorted_cons in Hsort as [Hab Hsort].
    destruct (Z.ltb_spec b k) as [Hlt|Hge]; cbn [negb].
    + unfold wp; cbn [run mret prog_ret]. split; [|done]. simpl.
      rewrite filter_cons_False by (simpl; lia).
      replace (filter _ _) with (@nil (Z * Z)); [by rewrite app_nil_r|]. symmetry.
      apply filter_none. intros q Hq. unfold above in Hab. rewrite Forall_forall in Hab.
      specialize (Hab q Hq). simpl in Hab. lia.
    + rewrite wp_bind || idtac. eapply wp_read; [done..|]. cbn [next].
      unfold wp; cbn [run mret prog_ret]. eapply wp_mono; [|apply (IH fuel)]; [|done|lia|done].
      intros r s' [-> ->]. split; [|done]. simpl. rewrite filter_cons_True by (simpl; lia).
      by rewrite <-app_assoc.
Qed.

(** C29: a range query passes to [add] exactly the entries of the map whose
    keys are between the two bounds, both included, in increasing order. *)
Theorem list_range_correct fuel root a b M s : repr root M s → enough fuel M →
  wp (range_ fuel root a b) (λ r s', s' = s ∧ sorted r ∧
    ∀ k v, (k, v) ∈ r ↔ a ≤ k ≤ b ∧ M !! k = Some v) s.
Proof.
  intros (l & e & Hl & HM & Hlk) Hf. pose proof (repr_length _ _ _ _ _ _ Hl HM Hf) as Hlen.
  pose proof (la_sorted _ _ _ _ Hl) as Hsort. pose proof (la_end _ _ _ _ Hl) as Hend.
  destruct (la_seg _ _ _ _ Hl) as ([k0 v0] & (_ & nx & Hroot & Hs)).
  unfold range_. eapply wp_read; [done..|]. cbn [next]. rewrite wp_bind.
  assert (∀ l fuel p, seg (nodes s) p l e → (length l < fuel)%nat →
    wp (iter fuel (λ nxt, nxt_nxt ← load (next_c nxt); n ← load (node_c nxt);
          mret (if is_end n || negb (key n <? a) then inr nxt else inl nxt_nxt)) p)
       (λ p' s', s' = s ∧ seg (nodes s) p' (upper a l) e) s) as Hskip.
  { clear -Hend. destruct Hend as (ne & Hne & Hend).
    induction l as [|[x [k v]] l IH]; intros [|fuel] p Hs Hf; simpl in Hf; try lia;
      cbn [iter]; rewrite wp_bind.
    - simpl in Hs. subst p. do 2 (eapply wp_read; [done..|]). by rewrite Hend.
    - destruct Hs as (-> & nx & Hm & Hs). do 2 (eapply wp_read; [done..|]).
      cbn [is_end key orb upper fst snd]. destruct (k <? a) eqn:E; cbn [negb].
      + apply IH; [done|lia].
      + unfold wp; cbn. split; [done|]. eauto. }
  eapply wp_mono; [|apply (Hskip l fuel nx Hs); lia].
  intros p s' [-> Hp].
  pose proof (lower_upper_entries a l) as Hlu. rewrite <-Hlu in Hsort.
  pose proof Hsort as (_ & Hup & _)%sorted_app.
  eapply wp_mono; [|apply (wp_collect s e b Hend (upper a l)); [done| |done]].
  2: { rewrite <-(length_fmap snd), <-Hlu in Hlen. rewrite length_app, !length_fmap in Hlen. lia. }
  intros r s' [-> ->]. split; [done|]. simpl.
  assert (filter (λ p, p.1 ≤ b) (upper a l).*2 = in_range a b l.*2) as ->.
  { rewrite <-Hlu, in_range_app. rewrite (in_range_none a b (lower a l).*2).
    - simpl. unfold in_range. apply filter_agree. intros q Hq.
      assert (a ≤ q.1); [|lia]. destruct (upper a l) as [|[x [k v]] l2] eqn:Hu; [by apply elem_of_nil in Hq|].
      pose proof (upper_head _ _ _ _ Hu) as Hk. simpl in Hk, Hup, Hq.
      apply sorted_cons in Hup as [Hab _]. apply elem_of_cons in Hq as [->|Hq]; [done|].
      unfold above in Hab. rewrite Forall_forall in Hab. specialize (Hab q Hq). simpl in Hab. lia.
    - intros q Hq. left. pose proof (lower_below a l) as Hb. unfold below in Hb.
      rewrite Forall_forall in Hb. by apply Hb. }
  split; [rewrite <-Hlu; by apply in_range_sorted|].
  intros k v. rewrite in_range_elem by (by rewrite <-Hlu). by subst M.
Qed.
End proofs.

Example list_refines_map_witness : small_tid 0 ∧
  wp (session (ordered_map next_addr) (ops next_addr 0 (λ A p, p)) 9
        [Insert 5 50; Insert 3 30; Insert 5 51; Remove 3; Find 3])
     (λ answers _, answers = [AInsert true; AInsert true; AInsert false; ARemove true; AFind None])
     empty_store.
Proof.
  assert (small_tid 0) as Ht by (unfold small_tid; lia). split; [exact Ht|].
  eapply wp_mono; [|apply (list_refines_map next_addr 0 Ht (λ A p, p)); [apply holding_empty|simpl; lia]].
  intros r s' [-> _]. reflexivity.
Defined.

(** a list with one entry *)
Definition one_entry : store_state node :=
  mkStore (list_to_map [(1, mkNode 0 0 0 true false); (2, mkNode 1 5 50 false false);
                        (3, mkNode 2 0 0 false false)]) ∅ [].
Lemma one_entry_repr : repr 0 3 {[5 := 50]} one_entry.
Proof.
  exists [(2, (5, 50))], 1. split; [split|split].
  - exists (0, 0). simpl. eauto 10.
  - eexists. split; [reflexivity|done].
  - apply (bool_decide_unpack _). reflexivity.
  - repeat constructor.
  - reflexivity.
  - intros p. by rewrite decide_False by set_solver.
Qed.

Example list_range_correct_witness :
  wp (range_ 5 3 0 10) (λ r s', s' = one_entry ∧ sorted r ∧
    ∀ k v, (k, v) ∈ r ↔ 0 ≤ k ≤ 10 ∧ ({[5 := 50]} : gmap Z Z) !! k = Some v) one_entry.
Proof.
  apply (list_range_correct 0 5 3 0 10 {[5 := 50]}); [apply one_entry_repr|].
  unfold enough. rewrite map_size_singleton. lia.
Defined.
