(* ===== verification/Linear.v ===== *)
(** * Linear: linearizability of a shared object.

    Threads call the operations of an object and record every call and every
    return in a log.  The log is linearizable when one can place, between the
    call and the return of each operation, a moment at which the operation
    happens at once on the abstract value of the object, with the result that
    it returned ([linearizable]).

    An operation that changes the object happens when it does so.  One that
    only reads may be known to have happened in the past: the object had such
    a value at some moment since the call, so the moment is placed there
    ([hindsight]).  [hist] keeps what this needs, [object] states what the
    proof of an implementation has to give, and [clients_linearizable] is the
    consequence for all threads together. *)

From stdpp Require Import prelude list gmap.
From S2P Require Import Prelude Conc.

(** ** Histories *)
Inductive event (C A : Type) := Call (i : nat) (c : C) | Return (i : nat) (a : A).
Arguments Call {C A} i c. Arguments Return {C A} i a.
#[export] Instance event_eq_dec {C A} `{!EqDecision C, !EqDecision A} : EqDecision (event C A).
Proof. solve_decision. Defined.

(** what the object does: the events of its interface, and the moment at
    which the operation of a thread happens *)
Inductive label (C A : Type) := Ev (e : event C A) | Lin (i : nat).
Arguments Ev {C A} e. Arguments Lin {C A} i.

(** a thread between its call and its return: the operation is yet to happen,
    or has happened with a result *)
Inductive phase (C A : Type) := Pending (c : C) | Done (a : A).
Arguments Pending {C A} c. Arguments Done {C A} a.

Section history.
Context {C A M : Type} `{!EqDecision A} (sem : C → M → A * M).
#[local] Abbreviation event := (event C A).
#[local] Abbreviation label := (label C A).
#[local] Abbreviation phase := (phase C A).
Implicit Types (ls : list label) (ph : gmap nat phase) (m : M).

Definition thread_of (l : label) : nat :=
  match l with Ev (Call i _) => i | Ev (Return i _) => i | Lin i => i end.
Definition erase ls : list event :=
  omap (λ l, match l with Ev e => Some e | Lin _ => None end) ls.

(** the atomic object: its value, and the threads that are in an operation *)
Definition astep (l : label) (st : M * gmap nat phase) : option (M * gmap nat phase) :=
  match l with
  | Ev (Call i c) =>
      match st.2 !! i with None => Some (st.1, <[i := Pending c]> st.2) | Some _ => None end
  | Lin i =>
      match st.2 !! i with
      | Some (Pending c) => Some ((sem c st.1).2, <[i := Done (sem c st.1).1]> st.2)
      | _ => None
      end
  | Ev (Return i a) =>
      match st.2 !! i with
      | Some (Done a') => if decide (a = a') then Some (st.1, delete i st.2) else None
      | _ => None
      end
  end.
Fixpoint arun (st : M * gmap nat phase) ls : option (M * gmap nat phase) :=
  match ls with
  | [] => Some st
  | l :: ls' => match astep l st with Some st' => arun st' ls' | None => None end
  end.

Definition linearizes (m0 : M) (h : list event) (m : M) : Prop :=
  ∃ ls ph, erase ls = h ∧ arun (m0, ∅) ls = Some (m, ph).
Definition linearizable (m0 : M) (h : list event) : Prop := ∃ m, linearizes m0 h m.

Lemma erase_app ls1 ls2 : erase (ls1 ++ ls2) = erase ls1 ++ erase ls2.
Proof. apply omap_app. Qed.

Lemma arun_app st ls1 ls2 :
  arun st (ls1 ++ ls2) = match arun st ls1 with Some st' => arun st' ls2 | None => None end.
Proof. revert st. induction ls1 as [|l ls1 IH]; intros st; simpl; [done|]. by destruct (astep l st). Qed.

(** labels of other threads *)
Definition others (i : nat) ls : Prop := Forall (λ l, thread_of l ≠ i) ls.

Lemma astep_other i p l m ph : thread_of l ≠ i →
  astep l (m, <[i := p]> ph) = (λ st, (st.1, <[i := p]> st.2)) <$> astep l (m, ph).
Proof.
  destruct l as [[j c|j a]|j]; simpl; intros Hj; rewrite lookup_insert_ne by done;
    destruct (ph !! j) as [[c'|a']|]; simpl; try done; try case_decide; simpl; try done.
  - by rewrite insert_insert_ne.
  - by rewrite delete_insert_ne.
  - by rewrite insert_insert_ne.
Qed.
Lemma arun_other i p ls : ∀ m ph, others i ls →
  arun (m, <[i := p]> ph) ls = (λ st, (st.1, <[i := p]> st.2)) <$> arun (m, ph) ls.
Proof.
  induction ls as [|l ls IH]; intros m ph; simpl; [done|]. intros [Hl Hls]%Forall_cons.
  rewrite astep_other by done. destruct (astep l (m, ph)) as [[m' ph']|]; simpl; [by apply IH|done].
Qed.
Lemma astep_phase i l m ph m' ph' : thread_of l ≠ i → astep l (m, ph) = Some (m', ph') →
  ph' !! i = ph !! i.
Proof.
  destruct l as [[j c|j a]|j]; simpl; intros Hj;
    destruct (ph !! j) as [[c'|a']|]; simpl; try done; try case_decide; simpl; try done;
    intros [= <- <-]; by rewrite ?lookup_insert_ne, ?lookup_delete_ne.
Qed.
Lemma arun_phase i ls : ∀ m ph m' ph', others i ls → arun (m, ph) ls = Some (m', ph') →
  ph' !! i = ph !! i.
Proof.
  induction ls as [|l ls IH]; intros m ph m' ph'; simpl; [by intros _ [= <- <-]|].
  intros [Hl Hls]%Forall_cons. destruct (astep l (m, ph)) as [[m1 ph1]|] eqn:E; [|done].
  intros H. rewrite (IH _ _ _ _ Hls H). by eapply astep_phase.
Qed.

(** since the call of [c] by thread [i], the value was once [m] *)
Definition since (m0 : M) (i : nat) (c : C) (m : M) ls : Prop :=
  ∃ ls1 ls2 ph, ls = ls1 ++ ls2 ∧ others i ls2 ∧ arun (m0, ∅) ls1 = Some (m, ph) ∧
    ph !! i = Some (Pending c).

Lemma since_snoc m0 i c m ls l : thread_of l ≠ i → since m0 i c m ls → since m0 i c m (ls ++ [l]).
Proof.
  intros Hl (ls1 & ls2 & ph & -> & Ho & Hr & Hph). exists ls1, (ls2 ++ [l]), ph.
  rewrite <-app_assoc. split; [done|]. split; [|done]. apply Forall_app. split; [done|]. by constructor.
Qed.
Lemma since_now m0 i c m ls ph : arun (m0, ∅) ls = Some (m, ph) → ph !! i = Some (Pending c) →
  since m0 i c m ls.
Proof. intros Hr Hph. exists ls, [], ph. rewrite app_nil_r. split; [done|]. split; [constructor|done]. Qed.
Lemma since_pending m0 i c m m' ls ph : since m0 i c m ls → arun (m0, ∅) ls = Some (m', ph) →
  ph !! i = Some (Pending c).
Proof.
  intros (ls1 & ls2 & ph1 & -> & Ho & Hr & Hph). rewrite arun_app, Hr. intros H.
  by rewrite (arun_phase i _ _ _ _ _ Ho H).
Qed.

(** An operation that changes nothing may be placed where the value explains
    its result: later labels do not notice, and neither do other threads. *)
Lemma hindsight m0 i c m a ls m' ph : since m0 i c m ls → arun (m0, ∅) ls = Some (m', ph) →
  sem c m = (a, m) →
  ∃ ls', erase ls' = erase ls ∧ arun (m0, ∅) ls' = Some (m', <[i := Done a]> ph) ∧
    ∀ j c' m1, j ≠ i → since m0 j c' m1 ls → since m0 j c' m1 ls'.
Proof.
  intros (ls1 & ls2 & ph1 & -> & Ho & Hr & Hph) Hrun Ha. rewrite arun_app, Hr in Hrun.
  assert (arun (m0, ∅) (ls1 ++ [Lin i]) = Some (m, <[i := Done a]> ph1)) as Hlin.
  { rewrite arun_app, Hr. simpl. by rewrite Hph, Ha. }
  exists (ls1 ++ [Lin i] ++ ls2). split; [by rewrite !erase_app|]. split.
  { rewrite app_assoc, arun_app, Hlin, arun_other by done. by rewrite Hrun. }
  intros j c' m1 Hj (la & lb & pha & Heq & Hoj & Hra & Hpa).
  apply app_eq_inv in Heq as [(x & -> & ->)|(x & -> & ->)].
  - exists la, (x ++ [Lin i] ++ ls2), pha. rewrite <-app_assoc. split; [done|]. split; [|done].
    unfold others in *. apply Forall_app in Hoj as [? ?]. apply Forall_app. split; [done|].
    constructor; [|done]. simpl. congruence.
  - apply Forall_app in Ho as [Hox _]. rewrite arun_app, Hr in Hra.
    exists (ls1 ++ [Lin i] ++ x), lb, (<[i := Done a]> pha). rewrite <-!app_assoc. split; [done|].
    split; [done|]. split; [|by rewrite lookup_insert_ne by congruence].
    rewrite app_assoc, arun_app, Hlin, arun_other by done. by rewrite Hra.
Qed.
End history.

(** ** What the proofs keep about the past

    [labels] explain the log; [now] is what the object holds, in the detail
    that its proof needs, with [value] its abstract value; [seen i] is what it
    held at the moments since the call of thread [i] at which the operation
    can still be placed. *)
Record hist (C A L : Type) := Hist {
  labels : list (label C A);
  now : L;
  seen : nat → L → Prop;
}.
Arguments Hist {C A L} _ _ _. Arguments labels {C A L} _. Arguments now {C A L} _.
Arguments seen {C A L} _ _ _.

Section hist.
Context {C A M L : Type} `{!EqDecision A} (sem : C → M → A * M) (value : L → M) (m0 : M).
#[local] Abbreviation hist := (hist C A L).
Implicit Types g : hist.

Definition doing g (i : nat) : option (phase C A) :=
  match arun sem (m0, ∅) (labels g) with Some st => st.2 !! i | None => None end.

Record hist_ok (log : list (event C A)) g : Prop := {
  ho_log : erase (labels g) = log;
  ho_run : ∃ ph, arun sem (m0, ∅) (labels g) = Some (value (now g), ph);
  ho_seen : ∀ i x, seen g i x → ∃ c, since sem m0 i c (value x) (labels g);
  ho_now : ∀ i c, doing g i = Some (Pending c) → seen g i (now g);
}.

(** what a step of another thread leaves to thread [i] *)
Definition kept (i : nat) g g' : Prop :=
  doing g' i = doing g i ∧ ∀ x, seen g i x → seen g' i x.
#[export] Instance kept_preorder i : PreOrder (kept i).
Proof. split; [by split|]. intros g1 g2 g3 [D1 S1] [D2 S2]. split; [congruence|auto]. Qed.

(** the call of an operation, or its return, changes nothing in the object *)
Definition reseen g g' : Prop :=
  now g' = now g ∧
  ∀ i, (∀ x, seen g' i x ↔ seen g i x) ∨ (∀ x, seen g' i x ↔ x = now g) ∨ (∀ x, ¬ seen g' i x).

Lemma seen_pending log g i x : hist_ok log g → seen g i x → ∃ c, doing g i = Some (Pending c).
Proof.
  intros [_ [ph Hr] Hs _] Hx. destruct (Hs i x Hx) as [c Hc]. exists c. unfold doing. rewrite Hr.
  by apply (since_pending _ _ _ _ _ _ _ _ Hc Hr).
Qed.

Lemma doing_run g st : arun sem (m0, ∅) (labels g) = Some st → ∀ i, doing g i = st.2 !! i.
Proof. unfold doing. by intros ->. Qed.

(** a label of thread [i] put at the end *)
Lemma hist_snoc log g i l x' (s' : nat → L → Prop) m' ph ph' :
  hist_ok log g → thread_of l = i → arun sem (m0, ∅) (labels g) = Some (value (now g), ph) →
  astep sem l (value (now g), ph) = Some (m', ph') → m' = value x' →
  (∀ j x, j ≠ i → s' j x → seen g j x ∨ x = x' ∧ ∃ c, doing g j = Some (Pending c)) →
  (∀ x, s' i x → x = x' ∧ ∃ c, ph' !! i = Some (Pending c)) →
  (∀ j c, ph' !! j = Some (Pending c) → s' j x') →
  hist_ok (log ++ erase [l]) (Hist (labels g ++ [l]) x' s').
Proof.
  intros [Hl _ Hs _] Hi Hr Hst -> Hother Hown Hnow.
  assert (arun sem (m0, ∅) (labels g ++ [l]) = Some (value x', ph')) as Hr'.
  { rewrite arun_app, Hr. simpl. by rewrite Hst. }
  split; simpl.
  - by rewrite erase_app, Hl.
  - by exists ph'.
  - intros j x Hx. destruct (decide (j = i)) as [->|Hj].
    + destruct (Hown x Hx) as (-> & c & Hc). exists c. by eapply since_now.
    + destruct (Hother j x Hj Hx) as [Hx'|(-> & c & Hc)].
      * destruct (Hs j x Hx') as [c Hc]. exists c. apply since_snoc; [congruence|done].
      * exists c. eapply since_now; [exact Hr'|]. rewrite (doing_run g _ Hr) in Hc. simpl in Hc.
        rewrite (astep_phase sem j l _ _ _ _) by (congruence || exact Hst). done.
  - intros j c. rewrite (doing_run (Hist (labels g ++ [l]) x' s') _ Hr'). apply Hnow.
Qed.

Lemma doing_snoc g l ph m' ph' j x' (s' : nat → L → Prop) :
  arun sem (m0, ∅) (labels g) = Some (value (now g), ph) →
  astep sem l (value (now g), ph) = Some (m', ph') →
  doing (Hist (labels g ++ [l]) x' s') j = ph' !! j.
Proof.
  intros Hr Hst. apply (doing_run (Hist (labels g ++ [l]) x' s') (m', ph')). simpl.
  rewrite arun_app, Hr. simpl. by rewrite Hst.
Qed.

(** thread [i] calls [c] *)
Definition called (i : nat) (c : C) g : hist :=
  Hist (labels g ++ [Ev (Call i c)]) (now g) (λ j x, if decide (j = i) then x = now g else seen g j x).

Lemma hist_call log g i c : hist_ok log g → doing g i = None →
  hist_ok (log ++ [Call i c]) (called i c g) ∧ reseen g (called i c g) ∧
  doing (called i c g) i = Some (Pending c) ∧ ∀ j, j ≠ i → kept j g (called i c g).
Proof.
  intros Hg Hi. pose proof Hg as [_ [ph Hr] _ Hnow]. rewrite (doing_run g _ Hr) in Hi. simpl in Hi.
  assert (astep sem (Ev (Call i c)) (value (now g), ph) =
    Some (value (now g), <[i := Pending c]> ph)) as Hst by (simpl; by rewrite Hi).
  assert (∀ j, doing (called i c g) j = <[i := Pending c]> ph !! j) as Hd.
  { intros j. by apply (doing_snoc g _ ph _ _ j _ _ Hr Hst). }
  split; [|split; [|split]].
  - change [Call i c] with (erase [@Ev C A (Call i c)]).
    eapply (hist_snoc log g i _ (now g) _ _ ph _ Hg); [done|done|exact Hst|done|..].
    + intros j x Hj. rewrite decide_False by done. auto.
    + intros x. rewrite decide_True by done. intros ->. rewrite lookup_insert_eq. eauto.
    + intros j c'. case_decide as Hj; [done|]. rewrite lookup_insert_ne by done. intros Hc.
      apply (Hnow j c'). by rewrite (doing_run g _ Hr).
  - split; [done|]. intros j. simpl. case_decide; [right; left|left]; done.
  - by rewrite Hd, lookup_insert_eq.
  - intros j Hj. split.
    + rewrite Hd, lookup_insert_ne by done. by rewrite (doing_run g _ Hr).
    + intros x. simpl. by rewrite decide_False.
Qed.

(** its operation happens now, and leaves [x'] in the object *)
Definition committed (i : nat) (x' : L) g : hist :=
  Hist (labels g ++ [Lin i]) x'
    (λ j x, j ≠ i ∧ (seen g j x ∨ x = x' ∧ ∃ c, doing g j = Some (Pending c))).

Lemma hist_commit log g i c a x' : hist_ok log g → doing g i = Some (Pending c) →
  sem c (value (now g)) = (a, value x') →
  hist_ok log (committed i x' g) ∧ doing (committed i x' g) i = Some (Done a) ∧
  ∀ j, j ≠ i → kept j g (committed i x' g).
Proof.
  intros Hg Hi Hc. pose proof Hg as [_ [ph Hr] _ Hnow]. rewrite (doing_run g _ Hr) in Hi. simpl in Hi.
  assert (astep sem (Lin i) (value (now g), ph) = Some (value x', <[i := Done a]> ph)) as Hst
    by (simpl; by rewrite Hi, Hc).
  assert (∀ j, doing (committed i x' g) j = <[i := Done a]> ph !! j) as Hd.
  { intros j. by apply (doing_snoc g _ ph _ _ j _ _ Hr Hst). }
  split; [|split].
  - rewrite <-(app_nil_r log). change [] with (erase [@Lin C A i]).
    eapply (hist_snoc log g i _ x' _ _ ph _ Hg); [done|done|exact Hst|done|..].
    + intros j x Hj [_ H]. done.
    + by intros x [? _].
    + intros j c'. destruct (decide (j = i)) as [->|Hj]; [by rewrite lookup_insert_eq|].
      rewrite lookup_insert_ne by done. intros Hc'. split; [done|]. right. split; [done|].
      exists c'. by rewrite (doing_run g _ Hr).
  - by rewrite Hd, lookup_insert_eq.
  - intros j Hj. split; [|by intros x Hx; split; [|left]].
    rewrite Hd, lookup_insert_ne by done. by rewrite (doing_run g _ Hr).
Qed.

(** its result is explained: the operation has happened, or could have at
    some moment since the call *)
Definition answered (i : nat) (c : C) (a : A) g : Prop :=
  doing g i = Some (Done a) ∨
  doing g i = Some (Pending c) ∧ ∃ x, seen g i x ∧ sem c (value x) = (a, value x).

Lemma answered_kept i c a g g' : kept i g g' → answered i c a g → answered i c a g'.
Proof. intros [Hd Hs] [H|(H & x & Hx & Ha)]; [left|right]; rewrite Hd; eauto. Qed.

(** the operation is placed, in the past if it has not happened *)
Lemma hist_settle log g i c a : hist_ok log g → answered i c a g →
  ∃ ls, hist_ok log (Hist ls (now g) (λ j x, j ≠ i ∧ seen g j x)) ∧
    doing (Hist ls (now g) (λ j x, j ≠ i ∧ seen g j x)) i = Some (Done a) ∧
    ∀ j, j ≠ i → kept j g (Hist ls (now g) (λ j x, j ≠ i ∧ seen g j x)).
Proof.
  intros Hg Ha. pose proof Hg as [Hl [ph Hr] Hs Hnow]. destruct Ha as [Ha|(Hp & x & Hx & Ha)].
  { exists (labels g). split; [|split; [done|]].
    - split; simpl; [done|by exists ph|by intros j x [_ Hx]; apply Hs|].
      intros j c' Hc. split; [intros ->; unfold doing in *; simpl in Hc; congruence|by apply (Hnow j c')].
    - intros j Hj. split; [done|]. intros x Hx. by split. }
  destruct (Hs i x Hx) as [c' Hsince].
  rewrite (doing_run g _ Hr) in Hp. simpl in Hp.
  assert (c' = c) as -> by (pose proof (since_pending _ _ _ _ _ _ _ _ Hsince Hr); congruence).
  destruct (hindsight sem m0 i c _ a _ _ _ Hsince Hr Ha) as (ls & Her & Hrun & Hother).
  assert (∀ j, doing (Hist ls (now g) (λ j x, j ≠ i ∧ seen g j x)) j = <[i := Done a]> ph !! j) as Hd.
  { intros j. exact (doing_run (Hist ls (now g) _) (value (now g), <[i := Done a]> ph) Hrun j). }
  exists ls. split; [|split].
  - split; simpl; [congruence|eauto| |].
    + intros j y [Hj Hy]. destruct (Hs j y Hy) as [c2 Hc2]. eauto.
    + intros j c2. rewrite Hd. destruct (decide (j = i)) as [->|Hj]; [by rewrite lookup_insert_eq|].
      rewrite lookup_insert_ne by done. intros Hc2. split; [done|]. apply (Hnow j c2).
      by rewrite (doing_run g _ Hr).
  - by rewrite Hd, lookup_insert_eq.
  - intros j Hj. split; [|by intros y Hy; split].
    rewrite Hd, lookup_insert_ne by done. by rewrite (doing_run g _ Hr).
Qed.

(** thread [i] returns [a] *)
Lemma hist_return log g i c a : hist_ok log g → answered i c a g →
  ∃ g', hist_ok (log ++ [Return i a]) g' ∧ reseen g g' ∧ doing g' i = None ∧
    ∀ j, j ≠ i → kept j g g'.
Proof.
  intros Hg Ha. destruct (hist_settle log g i c a Hg Ha) as (ls & Hg1 & Hd1 & Hk1).
  set (g1 := Hist ls (now g) (λ j x, j ≠ i ∧ seen g j x)) in *.
  pose proof Hg1 as [_ [ph Hr] _ Hnow]. rewrite (doing_run g1 _ Hr) in Hd1. simpl in Hd1.
  assert (astep sem (Ev (Return i a)) (value (now g1), ph) = Some (value (now g1), delete i ph)) as Hst.
  { simpl. rewrite Hd1. by rewrite decide_True. }
  set (g2 := Hist (labels g1 ++ [Ev (Return i a)]) (now g1) (seen g1)).
  assert (∀ j, doing g2 j = delete i ph !! j) as Hd.
  { intros j. by apply (doing_snoc g1 _ ph _ _ j _ _ Hr Hst). }
  exists g2. split; [|split; [|split]].
  - change [Return i a] with (erase [@Ev C A (Return i a)]).
    eapply (hist_snoc log g1 i _ (now g1) _ _ ph _ Hg1); [done|done|exact Hst|done|..].
    + auto.
    + by intros x [? _].
    + intros j c'. destruct (decide (j = i)) as [->|Hj]; [by rewrite lookup_delete_eq|].
      rewrite lookup_delete_ne by done. intros Hc. apply (Hnow j c'). by rewrite (doing_run g1 _ Hr).
  - split; [done|]. intros j. simpl. destruct (decide (j = i)) as [->|Hj].
    + right; right. by intros x [? _].
    + left. intros x. split; [by intros [_ ?]|by split].
  - by rewrite Hd, lookup_delete_eq.
  - intros j Hj. etrans; [by apply Hk1|]. split; [|done].
    rewrite Hd, lookup_delete_ne by done. by rewrite (doing_run g1 _ Hr).
Qed.
End hist.

(** ** Threads that call an object, and record it *)
Record world (S E : Type) := mkWorld { mem : S; log : list E }.
Arguments mkWorld {S E} _ _. Arguments mem {S E} _. Arguments log {S E} _.

Section clients.
Context {S C A : Type}.
#[local] Abbreviation world := (world S (event C A)).

(** the code of the object, which knows nothing of the log *)
Definition lift {B} (p : prog S B) : prog world B := zoom mem (λ m w, mkWorld m (log w)) p.
Definition note (e : event C A) : prog world unit := modify (λ w, mkWorld (mem w) (log w ++ [e])).

Definition serve (i : nat) (c : C) (body : prog S A) : prog world A :=
  note (Call i c) ;; a ← lift body; note (Return i a) ;; mret a.
Fixpoint client (op : C → prog S A) (i : nat) (cs : list C) : prog world (list A) :=
  match cs with
  | [] => mret []
  | c :: cs' => a ← serve i c (op c); l ← client op i cs'; mret (a :: l)
  end.
End clients.

(** ** What the proof of an implementation gives

    [inside] is the invariant of the memory, the history and further auxiliary
    state; [spares i] is what the steps of other threads leave alone of what
    thread [i] relies on; [rests i] is what thread [i] knows of the memory
    between its operations. *)
Record object (S C A L X : Type) := Object {
  inside : S → hist C A L → X → Prop;
  spares : nat → relation (S * hist C A L * X);
  rests : nat → S * X → Prop;
  spares_preorder : ∀ i, PreOrder (spares i);
  inside_reseen : ∀ m g g' x, inside m g x → reseen g g' → inside m g' x;
  spares_reseen : ∀ i m g g' x, reseen g g' → spares i (m, g, x) (m, g', x);
  rests_stable : ∀ i m g x m' g' x', rests i (m, x) → inside m' g' x' →
    spares i (m, g, x) (m', g', x') → rests i (m', x');
}.
Arguments inside {S C A L X} _ _ _ _. Arguments spares {S C A L X} _ _ _ _.
Arguments rests {S C A L X} _ _ _. Arguments spares_preorder {S C A L X} _ _.
Arguments inside_reseen {S C A L X} _. Arguments spares_reseen {S C A L X} _.
Arguments rests_stable {S C A L X} _.

Section object.
Context {S C A M L X : Type} `{!EqDecision A} (sem : C → M → A * M) (value : L → M) (m0 : M).
Context (ob : object S C A L X) (E : err → Prop).
#[local] Abbreviation world := (world S (event C A)).
#[local] Abbreviation Γ := (hist C A L * X)%type.
Implicit Types σ : world * Γ.
Implicit Types c : C.
Implicit Types g : hist C A L.

Definition linear_inv σ : Prop :=
  hist_ok sem value m0 (log σ.1) σ.2.1 ∧ inside ob (mem σ.1) σ.2.1 σ.2.2.
Definition linear_own (i : nat) : relation (world * Γ) := λ σ σ',
  kept sem m0 i σ.2.1 σ'.2.1 ∧ spares ob i (mem σ.1, σ.2.1, σ.2.2) (mem σ'.1, σ'.2.1, σ'.2.2).

Lemma linear_own_preorder i : PreOrder (linear_own i).
Proof.
  pose proof (spares_preorder ob i). split.
  - intros σ. split; reflexivity.
  - intros σ1 σ2 σ3 [K1 S1] [K2 S2]. split; [by etrans|by etrans].
Qed.
Definition linear : protocol world Γ := Protocol _ _ (λ _, True) linear_inv linear_own linear_own_preorder.

(** triples of the object's code *)
Definition oht {B} (i : nat) (P : world * Γ → Prop) (p : prog S B) (Q : B → world * Γ → Prop) : Prop :=
  ht linear E i P (lift p) Q.

Lemma wpg_lift_bind {B D} ok R G (p : prog S B) (h : B → prog S D) (Q : D → world * Γ → Prop) σ :
  wpg ok R G E (lift p) (λ b σ', wpg ok R G E (lift (h b)) Q σ') σ →
  wpg ok R G E (lift (p ≫= h)) Q σ.
Proof.
  unfold mbind, prog_bind. revert σ. induction p as [b|Y f k IH]; intros σ; simpl; [done|].
  intros H c1 HR Hok. specialize (H c1 HR Hok). destruct (zoom_res _ _ _) as [y s2|e]; [|done].
  intros Hok2. destruct (H Hok2) as (g2 & HG & Hk). exists g2. split; [done|]. by apply IH.
Qed.

Lemma oht_bind {B D} i P (p : prog S B) (h : B → prog S D) Q R :
  oht i P p Q → (∀ b, oht i (Q b) (h b) R) → oht i P (p ≫= h) R.
Proof.
  intros Hp Hh c Hc HP. apply wpg_lift_bind. eapply wpg_mono; [|by apply Hp].
  intros b c' [Hc' HQ]. by apply Hh.
Qed.
Lemma oht_ret {B} i (P : world * Γ → Prop) (b : B) Q : (∀ σ, P σ → Q b σ) → oht i P (mret b) Q.
Proof. intros H c Hc HP. simpl. auto. Qed.
Lemma oht_weaken {B} i (P P' : world * Γ → Prop) (p : prog S B) (Q Q' : B → world * Γ → Prop) :
  oht i P' p Q' → (∀ σ, linear_inv σ → P σ → P' σ) → (∀ b σ, linear_inv σ → Q' b σ → Q b σ) → oht i P p Q.
Proof.
  intros H HP HQ c Hc HPc. eapply wpg_mono; [|by apply H, HP].
  intros b c' [? ?]. split; [done|]. by apply HQ.
Qed.
Lemma oht_pure {B} i (φ : Prop) (P : world * Γ → Prop) (p : prog S B) Q :
  (φ → oht i P p Q) → oht i (λ σ, φ ∧ P σ) p Q.
Proof. apply ht_pure. Qed.
Lemma oht_exists {Y B} i (P : Y → world * Γ → Prop) (p : prog S B) Q :
  (∀ y, oht i (P y) p Q) → oht i (λ σ, ∃ y, P y σ) p Q.
Proof. apply ht_exists. Qed.

Lemma oht_iter {Y B} i (I : Y → world * Γ → Prop) (body : Y → prog S (Y + B)) Q :
  E OutOfFuel →
  (∀ y, oht i (I y) (body y) (λ r, match r with inl y' => I y' | inr b => Q b end)) →
  ∀ fuel y, oht i (I y) (iter fuel body y) Q.
Proof.
  intros HE Hb fuel. induction fuel as [|n IH]; intros y; simpl.
  { intros c Hc HI c1 HR Hok. exact HE. }
  eapply oht_bind; [apply Hb|]. intros [y'|b]; [apply IH|by apply oht_ret].
Qed.

(** one atomic access, seen from the memory of the object *)
Lemma oht_act {Y} i (P : world * Γ → Prop) (f : S → res S Y) Q :
  stable linear i P →
  (∀ w g x, linear_inv (w, (g, x)) → P (w, (g, x)) → match f (mem w) with
     | Ok y m' => ∃ g' x', hist_ok sem value m0 (log w) g' ∧ inside ob m' g' x' ∧
         (∀ j, j ≠ i → linear_own j (w, (g, x)) (mkWorld m' (log w), (g', x'))) ∧
         Q y (mkWorld m' (log w), (g', x'))
     | Err e => E e
     end) →
  oht i P (Act f Ret) Q.
Proof.
  intros Hst Hf. unfold oht, lift. cbn [zoom].
  apply (ht_act linear E i P (λ s, zoom_res _ s (f (mem s)))); [done|].
  intros [w [g x]] Hc HP. specialize (Hf w g x Hc HP). simpl. destruct (f (mem w)) as [y m'|e]; simpl; [|done].
  destruct Hf as (g' & x' & Hg & Hin & Hown & HQ). exists (g', x'). split; [|done]. split; [by split|done].
Qed.
Lemma oht_load {T} i (P : world * Γ → Prop) (cl : cell S T) Q :
  stable linear i P →
  (∀ w g x, linear_inv (w, (g, x)) → P (w, (g, x)) → match peek cl (mem w) with
     | inr v => Q v (w, (g, x))
     | inl e => E e
     end) →
  oht i P (load cl) Q.
Proof.
  intros Hst Hf. apply oht_act; [done|]. intros [m l] g x Hc HP. specialize (Hf _ g x Hc HP).
  unfold on_cell. simpl in *. destruct (peek cl m); [done|]. exists g, x. destruct Hc as [Hg Hin].
  split; [done|]. split; [done|]. split; [|done]. intros j _. by destruct (linear_own_preorder j).
Qed.

Lemma stable_answered i c a : stable linear i (λ s, answered sem value m0 i c a s.2.1).
Proof. intros s s' Ha _ [Hk _]. by eapply answered_kept. Qed.
Lemma stable_doing i p : stable linear i (λ s, doing sem m0 s.2.1 i = p).
Proof. intros s s' Ha _ [[Hd _] _]. congruence. Qed.
Lemma stable_rests i : stable linear i (λ s, rests ob i (mem s.1, s.2.2)).
Proof. intros s s' Ha [_ Hin] [_ Hs]. by eapply (rests_stable ob). Qed.

(** between operations *)
Definition idle (i : nat) σ : Prop := doing sem m0 σ.2.1 i = None ∧ rests ob i (mem σ.1, σ.2.2).

Lemma reseen_own j i w g x l' g' : j ≠ i → (∀ j, j ≠ i → kept sem m0 j g g') → reseen g g' →
  linear_own j (w, (g, x)) (mkWorld (mem w) l', (g', x)).
Proof. intros Hj Hk Hr. split; [by apply Hk|]. by apply (spares_reseen ob). Qed.

Lemma ht_serve i c (body : prog S A) :
  oht i (λ s, doing sem m0 s.2.1 i = Some (Pending c) ∧ rests ob i (mem s.1, s.2.2)) body
    (λ a s, answered sem value m0 i c a s.2.1 ∧ rests ob i (mem s.1, s.2.2)) →
  ht linear E i (idle i) (serve i c body) (λ _, idle i).
Proof.
  intros Hbody. unfold serve.
  eapply ht_bind; [apply ht_act with (Q := λ _ s,
    doing sem m0 s.2.1 i = Some (Pending c) ∧ rests ob i (mem s.1, s.2.2))|intros []].
  - apply stable_and; [apply stable_doing|apply stable_rests].
  - intros [w [g x]] [Hg Hin] [Hd Hr]. simpl in *.
    destruct (hist_call sem value m0 (log w) g i c Hg Hd) as (Hg' & Hre & Hd' & Hk).
    exists (called i c g, x). split; [|done]. split.
    + split; [done|]. by apply (inside_reseen ob _ g).
    + intros j Hj. by apply (reseen_own j i).
  - eapply ht_bind; [exact Hbody|]. intros a.
    eapply (ht_bind _ _ _ _ _ _ (λ _, idle i)); [|by intros _; apply ht_ret].
    apply ht_act; [apply stable_and; [apply stable_answered|apply stable_rests]|].
    intros [w [g x]] [Hg Hin] [Ha Hr]. simpl in *.
    destruct (hist_return sem value m0 (log w) g i c a Hg Ha) as (g' & Hg' & Hre & Hd' & Hk).
    exists (g', x). split; [|done]. split.
    + split; [done|]. by apply (inside_reseen ob _ g).
    + intros j Hj. by apply (reseen_own j i).
Qed.

Lemma ht_client i op cs :
  (∀ c, oht i (λ s, doing sem m0 s.2.1 i = Some (Pending c) ∧ rests ob i (mem s.1, s.2.2)) (op c)
    (λ a s, answered sem value m0 i c a s.2.1 ∧ rests ob i (mem s.1, s.2.2))) →
  ht linear E i (idle i) (client op i cs) (λ _, idle i).
Proof.
  intros Hop. induction cs as [|c cs IH]; [by apply ht_ret|].
  eapply ht_bind; [by apply ht_serve|]. intros a.
  eapply ht_bind; [exact IH|]. intros l. by apply ht_ret.
Qed.

(** All threads together: in every interleaving no error outside [E] occurs,
    the log is linearizable, and the object holds the value that the
    linearization ends in. *)
Lemma clients_linearizable ops (css : list (list C)) m (l0 : L) x :
  value l0 = m0 → inside ob m (Hist [] l0 (λ _ _, False)) x →
  (∀ i, i < length css → rests ob i (m, x)) →
  (∀ i c, i < length css →
    oht i (λ s, doing sem m0 s.2.1 i = Some (Pending c) ∧ rests ob i (mem s.1, s.2.2)) (ops i c)
      (λ a s, answered sem value m0 i c a s.2.1 ∧ rests ob i (mem s.1, s.2.2))) →
  ∀ w ts, rtc step (mkWorld m [], imap (λ i, client (ops i) i) css) (w, ts) →
    (∀ i e, goes_wrong i e (w, ts) → E e) ∧
    ∃ g x', inside ob (mem w) g x' ∧ linearizes sem m0 (log w) (value (now g)) ∧
      ∀ i rs, ts !! i = Some (Ret rs) → rests ob i (mem w, x').
Proof.
  intros Hl0 Hin Hrests Hops w ts Hsteps.
  destruct (protocol_sound linear E idle (λ i _, idle i) (mkWorld m []) (Hist [] l0 (λ _ _, False), x)
    (imap (λ i, client (ops i) i) css)) with w ts as ([g x'] & [Hg Hin'] & Hwrong & Hret).
  - done.
  - split; [|done]. split; simpl; [done|exists ∅; by rewrite Hl0|done|done].
  - intros i p Hp. rewrite list_lookup_imap in Hp.
    destruct (css !! i) as [cs|] eqn:Hi; simpl in Hp; [|done]. injection Hp as <-.
    apply lookup_lt_Some in Hi. split; [by split; [|apply Hrests]|]. apply ht_client. auto.
  - by apply steps_ok.
  - split; [done|]. simpl in Hg. pose proof Hg as [Hlog [ph Hr] _ _].
    exists g, x'. split; [done|]. split; [by exists (labels g), ph|].
    intros i rs Hrs. destruct (Hret i rs Hrs) as (c0 & [_ Hr0] & Hown).
    assert (linear_inv (w, (g, x'))) as Hc by done.
    exact (stable_rests i _ _ Hr0 Hc Hown).
Qed.
End object.
