(* ===== verification/StoreConc.v ===== *)
(** * StoreConc: nodes with locks under interleaving.

    The store of a structure ([Store]) used by several threads at once.  A
    thread changes a node only while it holds its lock, or before it has linked
    it; nodes keep what [life] says; a node that is marked as removed and still
    linked is locked.  Over an invariant [shape] of the nodes and the history
    this makes an [object] of [Linear], with rules for taking locks, making
    nodes and writing to them. *)

From stdpp Require Import prelude list gmap.
From Stdlib Require Import ZArith Lia.
From S2P Require Import Prelude Conc SpinLock Store Linear.
Local Open Scope Z_scope.

Section locked.
Context {N : Type} (threads : nat) (threads_fit : Z.of_nat threads ≤ 2 ^ 16 - 1).
Implicit Types s : store_state N.

Definition locked_by s (p : Z) (j : nat) : Prop :=
  (j < threads)%nat ∧ ∃ w, w mod 2 = 0 ∧ word s p = lock_entry.take_lock j w.

Lemma thread_small j : (j < threads)%nat → small_tid j.
Proof using threads_fit. unfold small_tid. lia. Qed.

Lemma locked_by_word s p j : locked_by s p j →
  lock_entry.is_locked (word s p) = true ∧ lock_entry.is_self_locked j (word s p) = true ∧
  (∀ i, lock_entry.is_self_locked i (word s p) = true → i = j).
Proof using threads_fit.
  intros (Hj & w & Hw & ->). apply thread_small in Hj. destruct (held_word j w Hj Hw) as [H1 H2].
  split; [done|]. split; [|done]. unfold lock_entry.is_self_locked.
  destruct (take_lock_facts j w Hj Hw) as (_ & -> & _). apply Z.eqb_refl.
Qed.
Lemma locked_by_unique s p i j : locked_by s p i → locked_by s p j → i = j.
Proof using threads_fit.
  intros Hi Hj. apply locked_by_word in Hi as (_ & Hi & _). apply locked_by_word in Hj as (_ & _ & Hj). auto.
Qed.
Lemma unlocked_even s p j : word s p mod 2 = 0 → ¬ locked_by s p j.
Proof using threads_fit.
  intros Hev Hl. apply locked_by_word in Hl as (Hl & _). unfold lock_entry.is_locked in Hl.
  apply Z.eqb_eq in Hl. lia.
Qed.
Lemma locked_by_same s s' p j : word s' p = word s p → locked_by s' p j ↔ locked_by s p j.
Proof. unfold locked_by. by intros ->. Qed.
End locked.

Section conc.
Context {N L C A : Type} (threads : nat) (threads_fit : Z.of_nat threads ≤ 2 ^ 16 - 1).
Context (life : relation N) {life_preorder : PreOrder life}.
(** the nodes with a lock that are linked, and all that are linked *)
Context (marked : N → bool) (members linked : L → list Z).
Context (members_linked : ∀ l p, p ∈ members l → p ∈ linked l).
#[local] Abbreviation hist := (hist C A L).
#[local] Abbreviation state := (store_state N).
#[local] Abbreviation X := (nat → list Z).
#[local] Abbreviation locked_by := (locked_by threads).
Context (shape : gmap Z N → hist → Prop).
Context (shape_reseen : ∀ m g g', shape m g → reseen g g' → shape m g').
Implicit Types (s : state) (g : hist) (x : X).

(** the nodes that a thread may come across *)
Definition visible g (p : Z) : Prop :=
  p ∈ linked (now g) ∨ ∃ i l, seen g i l ∧ p ∈ linked l.
Context (shape_allocated : ∀ m g p, shape m g → visible g p → is_Some (m !! p)).

(** [x i] are the nodes that thread [i] has made and not yet linked *)
Record conc_inside s g x : Prop := {
  ci_shape : shape (nodes s) g;
  ci_words : ∀ p, word s p mod 2 = 0 ∨ is_Some (nodes s !! p) ∧ ∃ j, locked_by s p j;
  ci_private : ∀ i p, p ∈ x i → is_Some (nodes s !! p) ∧ ¬ visible g p ∧
    word s p mod 2 = 0 ∧ ∀ j, p ∈ x j → j = i;
  ci_marked : ∀ p n, p ∈ members (now g) → nodes s !! p = Some n → marked n = true →
    ∃ j, locked_by s p j;
}.

Record conc_spares (i : nat) (c c' : state * hist * X) : Prop := {
  cs_life : ∀ p n, nodes c.1.1 !! p = Some n → ∃ n', nodes c'.1.1 !! p = Some n' ∧ life n n';
  cs_locks : ∀ p, locked_by c'.1.1 p i ↔ locked_by c.1.1 p i;
  cs_held : ∀ p, locked_by c.1.1 p i → nodes c'.1.1 !! p = nodes c.1.1 !! p ∧
    (p ∈ members (now c'.1.2) ↔ p ∈ members (now c.1.2));
  cs_mine : c'.2 i = c.2 i;
  cs_private : ∀ p, p ∈ c.2 i → nodes c'.1.1 !! p = nodes c.1.1 !! p;
}.

Definition conc_rests (i : nat) (c : state * X) : Prop :=
  (∀ p, ¬ locked_by c.1 p i) ∧ c.2 i = [].

Lemma conc_spares_preorder i : PreOrder (conc_spares i).
Proof using life_preorder.
  split.
  - intros c. split; [|done..]. intros p n Hn. exists n. split; [done|reflexivity].
  - intros c1 c2 c3 [H1 H2 H3 H4 H5] [K1 K2 K3 K4 K5]. split.
    + intros p n Hn. destruct (H1 p n Hn) as (n2 & Hn2 & Hl). destruct (K1 p n2 Hn2) as (n3 & Hn3 & Hl').
      exists n3. split; [done|by etrans].
    + intros p. by rewrite K2, H2.
    + intros p Hp. destruct (H3 p Hp) as [E1 E2]. apply H2 in Hp. destruct (K3 p Hp) as [F1 F2].
      split; [congruence|by rewrite F2].
    + congruence.
    + intros p Hp. rewrite <-H4 in Hp. rewrite (K5 p Hp). rewrite H4 in Hp. by apply H5.
Qed.

Lemma visible_reseen g g' p : reseen g g' → visible g' p → visible g p.
Proof.
  intros [Hn Hs] [Hp|(i & l & Hl & Hp)]; [left; by rewrite <-Hn|].
  destruct (Hs i) as [H|[H|H]].
  - right. exists i, l. by rewrite <-H.
  - apply H in Hl as ->. by left.
  - by apply H in Hl.
Qed.

Lemma conc_inside_reseen s g g' x : conc_inside s g x → reseen g g' → conc_inside s g' x.
Proof using shape_reseen.
  intros [H1 H2 H3 H4] Hre. split; [by eapply shape_reseen|done| |].
  - intros i p Hp. destruct (H3 i p Hp) as (? & Hv & ?). split; [done|]. split; [|done].
    intros Hv'. by apply Hv, (visible_reseen g g').
  - destruct Hre as [-> _]. exact H4.
Qed.
Lemma conc_spares_reseen i s g g' x : reseen g g' → conc_spares i (s, g, x) (s, g', x).
Proof using life_preorder.
  intros [Hn _]. split; simpl; [|done| |done..].
  - intros p n Hp. exists n. split; [done|reflexivity].
  - intros p _. by rewrite Hn.
Qed.
Lemma conc_rests_stable i s g x s' g' x' : conc_rests i (s, x) → conc_inside s' g' x' →
  conc_spares i (s, g, x) (s', g', x') → conc_rests i (s', x').
Proof.
  intros [Hl Hx] _ [_ H2 _ H4 _]. split; simpl in *.
  - intros p Hp. apply H2 in Hp. by apply (Hl p).
  - by rewrite H4.
Qed.

Definition conc_object : object state C A L X :=
  Object _ _ _ _ _ conc_inside conc_spares conc_rests conc_spares_preorder
    conc_inside_reseen conc_spares_reseen conc_rests_stable.

(** *** Rules *)
Context {M : Type} `{!EqDecision A} (sem : C → M → A * M) (value : L → M) (m0 : M) (E : err → Prop).
#[local] Abbreviation config := (world state (event C A) * (hist * X))%type.
#[local] Abbreviation π := (linear sem value m0 conc_object).
#[local] Abbreviation stable := (Conc.stable π).
#[local] Abbreviation oht := (Linear.oht sem value m0 conc_object E).
#[local] Abbreviation linear_inv := (Linear.linear_inv sem value m0 conc_object).
#[local] Abbreviation linear_own := (Linear.linear_own sem m0 conc_object).
Implicit Types σ : config.
Implicit Types P Q R : config → Prop.

(** thread [i] holds exactly the locks [ps] *)
Definition holds (i : nat) (ps : list Z) σ : Prop := ∀ p, locked_by (mem σ.1) p i ↔ p ∈ ps.
(** [p] is not both linked and marked *)
Definition clean (p : Z) σ : Prop :=
  ∀ n, p ∈ members (now σ.2.1) → nodes (mem σ.1) !! p = Some n → marked n = false.
(** an assertion that does not mention the locks *)
Definition lockless P : Prop :=
  ∀ w w' γ, nodes (mem w') = nodes (mem w) → P (w, γ) → P (w', γ).
Definition owns (i : nat) (ps : list Z) σ : Prop := σ.2.2 i = ps.
Definition node_is (p : Z) (n : N) σ : Prop := nodes (mem σ.1) !! p = Some n.

Lemma holds_stable i ps : stable i (holds i ps).
Proof. intros σ σ' H _ [_ Hs] p. specialize (H p). rewrite <-H. apply (cs_locks _ _ _ Hs). Qed.
Lemma stable_owns i o : stable i (owns i o).
Proof. intros σ σ' H _ [_ Hs]. etrans; [exact (cs_mine _ _ _ Hs)|exact H]. Qed.
(** an assertion that other threads keep while thread [i] has the locks [ps] *)
Definition guarded (i : nat) (ps : list Z) P : Prop :=
  ∀ σ σ', P σ → holds i ps σ → linear_inv σ' → linear_own i σ σ' → P σ'.

Lemma guarded_stable i ps P : stable i P → guarded i ps P.
Proof. intros H σ σ' HP _. by apply H. Qed.
Lemma guarded_and i ps P Q : guarded i ps P → guarded i ps Q → guarded i ps (λ σ, P σ ∧ Q σ).
Proof. intros HP HQ σ σ' [??] ???. split; [by eapply HP|by eapply HQ]. Qed.
Lemma guarded_node i ps p n : p ∈ ps → guarded i ps (node_is p n).
Proof.
  intros Hp σ σ' Hn Hh _ [_ Hs]. destruct (cs_held _ _ _ Hs p) as [H _]; [by apply Hh|]. by etrans.
Qed.
Lemma guarded_clean i ps p : p ∈ ps → guarded i ps (clean p).
Proof.
  intros Hp σ σ' Hc Hh _ [_ Hs] n. destruct (cs_held _ _ _ Hs p) as [Hn Hm]; [by apply Hh|].
  simpl in Hn, Hm. rewrite Hn, Hm. apply Hc.
Qed.
Lemma guarded_private i ps xs p n : p ∈ xs → guarded i ps (λ σ, owns i xs σ ∧ node_is p n σ).
Proof.
  intros Hp σ σ' [Ho Hn] _ Hc Hown. split; [by eapply stable_owns|]. destruct Hown as [_ Hs].
  etrans; [apply (cs_private _ _ _ Hs p); by rewrite Ho|exact Hn].
Qed.

Lemma lockless_and P Q : lockless P → lockless Q → lockless (λ σ, P σ ∧ Q σ).
Proof. intros HP HQ w w' γ Hn [??]. split; [by eapply HP|by eapply HQ]. Qed.
Lemma lockless_ghost (φ : hist * X → Prop) : lockless (λ σ, φ σ.2).
Proof. by intros w w' γ _. Qed.
Lemma lockless_node p n : lockless (node_is p n).
Proof. intros w w' γ Hn. unfold node_is. simpl. by rewrite Hn. Qed.
Lemma lockless_clean p : lockless (clean p).
Proof. intros w w' γ Hn. unfold clean. simpl. by rewrite Hn. Qed.

Lemma oht_read {T} i P (get : N → err + T) set p (Q : T → config → Prop) : stable i P →
  (∀ σ, linear_inv σ → P σ → ∃ n v, node_is p n σ ∧ get n = inr v ∧ Q v σ) →
  oht i P (load (field get set p)) Q.
Proof.
  intros Hst H. apply oht_load; [done|]. intros w g x Hc HP. destruct (H _ Hc HP) as (n & v & Hn & Hv & HQ).
  unfold node_is in Hn. simpl in Hn |- *. unfold at_node. by rewrite Hn, Hv.
Qed.

(** changing the lock word of [p], which thread [i] takes or releases *)
Lemma set_lock i p w s g x (s' := mkStore (nodes s) (<[p := w]> (locks s)) (retired s)) :
  conc_inside s g x → is_Some (nodes s !! p) → (∀ k, p ∉ x k) →
  (∀ j, locked_by s p j → j = i) → (∀ j, locked_by s' p j → j = i) →
  (w mod 2 = 0 ∨ ∃ j, locked_by s' p j) →
  (w mod 2 = 0 → ∀ n, p ∈ members (now g) → nodes s !! p = Some n → marked n = false) →
  conc_inside s' g x ∧ ∀ j, j ≠ i → conc_spares j (s, g, x) (s', g, x).
Proof using life_preorder.
  intros [H1 H2 H3 H4] Hp Hx Hl Hl' Hw Hm.
  assert (∀ q, q ≠ p → word s' q = word s q) as Hne.
  { intros q Hq. unfold word, s'; simpl. by rewrite lookup_insert_ne. }
  assert (word s' p = w) as Heq by (unfold word, s'; simpl; by rewrite lookup_insert_eq).
  assert (∀ q j, q ≠ p → locked_by s' q j ↔ locked_by s q j) as Hlq.
  { intros q j Hq. apply locked_by_same. by apply Hne. }
  split; [split|]; simpl.
  - done.
  - intros q. destruct (decide (q = p)) as [->|Hq].
    + rewrite Heq. destruct Hw as [?|[j Hj]]; [by left|right; eauto].
    + rewrite Hne by done. destruct (H2 q) as [?|[? [j Hj]]]; [by left|right]. split; [done|].
      exists j. by apply Hlq.
  - intros k q Hk. destruct (H3 k q Hk) as (? & ? & ? & ?).
    assert (q ≠ p) by (intros ->; by apply (Hx k)). rewrite Hne by done. done.
  - intros q n Hq Hn Hmk. destruct (decide (q = p)) as [->|Hqp].
    + destruct Hw as [Hev|?]; [|done]. by rewrite (Hm Hev n Hq Hn) in Hmk.
    + destruct (H4 q n Hq Hn Hmk) as [j Hj]. exists j. by apply Hlq.
  - intros j Hj. split; simpl; [|..|done|done|done].
    + intros q n Hn. exists n. split; [done|reflexivity].
    + intros q. destruct (decide (q = p)) as [->|Hq]; [|by apply Hlq].
      split; intros H; [apply Hl' in H|apply Hl in H]; congruence.
Qed.

(** making a node *)
Lemma oht_new (alloc : gmap Z N → Z) `{!Allocator alloc} i P xs n (Q : Z → config → Prop) :
  stable i P → (∀ σ, P σ → owns i xs σ) →
  (∀ w g x p, linear_inv (w, (g, x)) → P (w, (g, x)) → nodes (mem w) !! p = None → p ≠ 0 →
     shape (<[p := n]> (nodes (mem w))) g ∧
     ∀ w' x', nodes (mem w') = <[p := n]> (nodes (mem w)) →
       (∀ q j, locked_by (mem w') q j ↔ locked_by (mem w) q j) → x' i = p :: xs → Q p (w', (g, x'))) →
  oht i P (new_obj alloc n) Q.
Proof using life_preorder threads_fit shape_allocated members_linked.
  intros Hst Hown H. unfold new_obj. apply oht_act; [done|]. intros w g x [Hg Hin] HP.
  set (s := mem w) in *. set (p := alloc (nodes s)).
  assert (nodes s !! p = None ∧ p ≠ 0) as [Hp Hp0] by apply alloc_fresh.
  destruct (H w g x p (conj Hg Hin) HP Hp Hp0) as [Hsh HQ].
  set (s' := mkStore (<[p := n]> (nodes s)) (<[p := 0]> (locks s)) (retired s)).
  pose proof (Hown _ HP) as Hxi. unfold owns in Hxi; simpl in Hxi.
  destruct Hin as [H1 H2 H3 H4]. simpl in H1, H2, H3, H4. fold s in H1, H2, H3, H4.
  assert (∀ q, q ≠ p → nodes s' !! q = nodes s !! q) as Hn by (intros q Hq; simpl; by rewrite lookup_insert_ne).
  assert (∀ q, q ≠ p → word s' q = word s q) as Hw by (intros q Hq; unfold word; simpl; by rewrite lookup_insert_ne).
  assert (word s' p = 0) as Hwp by (unfold word; simpl; by rewrite lookup_insert_eq).
  assert (word s p mod 2 = 0) as Hev by (destruct (H2 p) as [?|[[? ?] _]]; [done|congruence]).
  assert (∀ q j, locked_by s' q j ↔ locked_by s q j) as Hl.
  { intros q j. destruct (decide (q = p)) as [->|Hq]; [|by apply locked_by_same, Hw].
    split; intros Hlk; exfalso; [|by apply (unlocked_even threads threads_fit s p j)].
    apply (unlocked_even threads threads_fit s' p j); [by rewrite Hwp|done]. }
  assert (∀ q, visible g q → q ≠ p) as Hvis.
  { intros q Hq ->. destruct (shape_allocated _ g p H1 Hq). congruence. }
  exists g, (λ j, if decide (j = i) then p :: xs else x j).
  split; [done|]. split; [split; simpl|split].
  - exact Hsh.
  - intros q. destruct (decide (q = p)) as [->|Hq]; [left; by rewrite Hwp|].
    rewrite (Hw q Hq). destruct (H2 q) as [?|[[o Ho] [j Hj]]]; [by left|right].
    rewrite lookup_insert_ne by done. split; [by exists o|]. exists j. by apply Hl.
  - assert (∀ j q, q ∈ x j → q ≠ p ∧ is_Some (nodes s !! q) ∧ ¬ visible g q ∧ word s q mod 2 = 0 ∧
      ∀ k, q ∈ x k → k = j) as H3'.
    { intros j q Hq. destruct (H3 j q Hq) as ([o Ho] & ? & ? & ?).
      split; [intros ->; congruence|]. split; [by exists o|done]. }
    intros j q Hq. assert (q = p ∧ j = i ∨ q ∈ x j) as Hqj.
    { case_decide as Hj; [subst j|by right]. apply elem_of_cons in Hq as [->|Hq]; [by left|right]. by rewrite Hxi. }
    clear Hq. destruct Hqj as [[-> ->]|Hq'].
    + split; [rewrite lookup_insert_eq; by eexists|]. split; [by intros ?%Hvis|].
      split; [by rewrite Hwp|]. intros k. case_decide; [by intros _|]. intros Hk.
      by destruct (H3' k p Hk) as (? & _).
    + destruct (H3' j q Hq') as (Hqp & [o Ho] & ? & ? & Hu).
      rewrite lookup_insert_ne, Hw by done. split; [by eexists|]. split; [done|]. split; [done|].
      intros k. case_decide; [subst k|by apply Hu]. intros [?|Hk]%elem_of_cons; [done|].
      apply Hu. by rewrite Hxi.
  - intros q o Hq. rewrite lookup_insert_ne by (apply not_eq_sym, Hvis; left; by apply members_linked). intros Ho Hm.
    destruct (H4 q o Hq Ho Hm) as [j Hj]. exists j. by apply Hl.
  - intros j Hj. split; [reflexivity|]. split; simpl; fold s.
    + intros q o Ho. exists o. rewrite lookup_insert_ne by congruence. split; [done|reflexivity].
    + intros q. apply Hl.
    + intros q Hq. split; [|done]. apply Hn. intros ->. by apply (unlocked_even threads threads_fit s p j).
    + by rewrite decide_False.
    + intros q Hq. apply Hn. destruct (H3 j q Hq) as ([o Ho] & _). congruence.
  - apply HQ; [done| |by rewrite decide_True]. exact Hl.
Qed.

(** what a write may do to the structure: unlink nodes that the thread has
    locked, and link the node that it has made *)
Record relinked (i : nat) s g x g' x' : Prop := {
  rl_others : ∀ j, j ≠ i → x' j = x j;
  rl_mine : ∀ q, q ∈ x' i → q ∈ x i;
  rl_out : ∀ q, q ∈ members (now g) → q ∈ members (now g') ∨ locked_by s q i;
  rl_in : ∀ q, q ∈ members (now g') → q ∈ members (now g) ∨
    q ∈ x i ∧ ∀ n, nodes s !! q = Some n → marked n = false;
  rl_visible : ∀ q, visible g' q → visible g q ∨ q ∈ x i ∧ (q ∉ x' i);
}.
Lemma relinked_refl i s g x : relinked i s g x g x.
Proof. split; auto. Qed.

Lemma oht_write {T} i P (get : N → err + T) set p t (Q : unit → config → Prop) : stable i P →
  (∀ w g x, linear_inv (w, (g, x)) → P (w, (g, x)) → ∃ n v,
     nodes (mem w) !! p = Some n ∧ get n = inr v ∧ locked_by (mem w) p i ∧ life n (set t n) ∧
     ∃ g' x', hist_ok sem value m0 (log w) g' ∧ (∀ j, j ≠ i → kept sem m0 j g g') ∧
       shape (<[p := set t n]> (nodes (mem w))) g' ∧ relinked i (mem w) g x g' x' ∧
       ∀ w', nodes (mem w') = <[p := set t n]> (nodes (mem w)) → locks (mem w') = locks (mem w) →
         Q tt (w', (g', x'))) →
  oht i P (store (field get set p) t) Q.
Proof using life_preorder threads_fit.
  intros Hst H. unfold store. apply oht_act; [done|]. intros w g x [Hg Hin] HP.
  destruct (H w g x (conj Hg Hin) HP) as (n & v & Hn & Hv & Hlk & Hlife & g' & x' & Hg' & Hk & Hsh & Hre & HQ).
  unfold on_cell. simpl. unfold at_node. rewrite Hn, Hv. set (s := mem w) in *.
  destruct Hin as [H1 H2 H3 H4]. simpl in H1, H2, H3, H4. fold s in H1, H2, H3, H4. destruct Hre as [R1 R2 R3 R4 R5].
  assert (∀ q, q ≠ p → <[p := set t n]> (nodes s) !! q = nodes s !! q) as Hne.
  { intros q Hq. by rewrite lookup_insert_ne. }
  assert (∀ j q, q ∈ x j → q ≠ p) as Hxp.
  { intros j q Hq ->. destruct (H3 j p Hq) as (_ & _ & Hev & _).
    by apply (unlocked_even threads threads_fit s p i). }
  assert (∀ q, is_Some (nodes s !! q) → is_Some (<[p := set t n]> (nodes s) !! q)) as Hsome.
  { intros q Hq. destruct (decide (q = p)) as [->|Hqp]; [rewrite lookup_insert_eq; by eexists|by rewrite Hne]. }
  assert (∀ j q, q ∈ x' j → q ∈ x j) as Hx'.
  { intros j q Hq. destruct (decide (j = i)) as [->|Hj]; [by apply R2|by rewrite <-R1]. }
  exists g', x'. split; [done|]. split; [split; simpl|split].
  - exact Hsh.
  - intros q. destruct (H2 q) as [?|[Hq Hj]]; [by left|right]. split; [by apply Hsome|done].
  - intros j q Hq. destruct (H3 j q (Hx' j q Hq)) as (Hs & Hvis & Hw & Hu).
    split; [by apply Hsome|]. split; [|split; [done|]].
    + intros [?|[Hi Hni]]%R5; [done|]. by assert (i = j) as <- by by apply Hu.
    + intros k Hk'. by apply Hu, Hx'.
  - intros q o Hq Ho Hm. destruct (decide (q = p)) as [->|Hqp]; [by exists i|].
    rewrite Hne in Ho by done. destruct (R4 q Hq) as [Hq'|[_ Hq']]; [by apply (H4 q o)|].
    by rewrite (Hq' o Ho) in Hm.
  - intros j Hj. split; [by apply Hk|]. split; simpl; fold s.
    + intros q o Ho. destruct (decide (q = p)) as [->|Hqp].
      * rewrite Hn in Ho. injection Ho as <-. exists (set t n). by rewrite lookup_insert_eq.
      * exists o. rewrite Hne by done. split; [done|reflexivity].
    + done.
    + intros q Hq. assert (q ≠ p) as Hqp.
      { intros ->. apply Hj. by apply (locked_by_unique threads threads_fit s p). }
      split; [by apply Hne|]. split.
      * intros [?|[Hx _]]%R4; [done|]. destruct (H3 i q Hx) as (_ & _ & Hev & _).
        by destruct (unlocked_even threads threads_fit s q j Hev).
      * intros Hm. destruct (R3 q Hm) as [?|Hqi]; [done|]. destruct Hj.
        by apply (locked_by_unique threads threads_fit s q).
    + by apply R1.
    + intros q Hq. by apply Hne, (Hxp j).
  - apply HQ; done.
Qed.

Lemma oht_retire i P p (Q : unit → config → Prop) : stable i P →
  (∀ w w' γ, nodes (mem w') = nodes (mem w) → locks (mem w') = locks (mem w) → P (w, γ) → Q tt (w', γ)) →
  oht i P (retire p) Q.
Proof using life_preorder.
  intros Hst H. unfold retire, modify. apply oht_act; [done|]. intros w g x [Hg Hin] HP. exists g, x.
  split; [done|]. split; [destruct Hin as [H1 H2 H3 H4]; split; [exact H1|exact H2|exact H3|exact H4]|]. split; [|by eapply H; [..|exact HP]].
  intros j Hj. split; [reflexivity|]. split; simpl; try done. intros q o Ho. exists o. split; [done|reflexivity].
Qed.

(** taking the lock of [p], in the scope of the locks [ps]: inside, [p] is
    clean, and it has to be clean at the end *)
Definition in_section (i : nat) (p : Z) (ps : list Z) P σ : Prop := (P σ ∧ clean p σ) ∧ holds i (p :: ps) σ.
Definition in_scope (i : nat) (ps : list Z) P σ : Prop := P σ ∧ holds i ps σ.

Lemma stable_in_scope i ps P : guarded i ps P → stable i (in_scope i ps P).
Proof. intros HP σ σ' [H Hh] Hc Ho. split; [by eapply HP|by eapply holds_stable]. Qed.
Lemma in_section_stable i p ps P : guarded i (p :: ps) P → stable i (in_section i p ps P).
Proof.
  intros HP. apply stable_in_scope. apply guarded_and; [done|]. apply guarded_clean. by left.
Qed.

Lemma holds_set i p ps w s g x γ' (s' := mkStore (nodes s) (<[p := w]> (locks s)) (retired s)) l :
  holds i ps (mkWorld s l, (g, x)) → locked_by s' p i → holds i (p :: ps) (mkWorld s' l, γ').
Proof.
  intros Hh Hp q. simpl. specialize (Hh q). simpl in Hh. rewrite elem_of_cons, <-Hh.
  destruct (decide (q = p)) as [->|Hq]; [split; auto|]. rewrite (locked_by_same threads s s').
  - split; [by right|]. by intros [?|?].
  - unfold word; simpl. by rewrite lookup_insert_ne.
Qed.
Lemma holds_reset i p ps w s g x γ' (s' := mkStore (nodes s) (<[p := w]> (locks s)) (retired s)) l :
  (p ∉ ps) → holds i (p :: ps) (mkWorld s l, (g, x)) → ¬ locked_by s' p i → holds i ps (mkWorld s' l, γ').
Proof.
  intros Hps Hh Hp q. simpl. specialize (Hh q). simpl in Hh. rewrite elem_of_cons in Hh.
  destruct (decide (q = p)) as [->|Hq]; [by split; intros ?|]. rewrite (locked_by_same threads s s').
  - rewrite Hh. split; [by intros [?|?]|by right].
  - unfold word; simpl. by rewrite lookup_insert_ne.
Qed.

(** an unlocked, visible node may be taken *)
Lemma take_word i p ps w l g x : (i < threads)%nat →
  linear_inv (mkWorld w l, (g, x)) → is_Some (nodes w !! p) → visible g p → word w p mod 2 = 0 →
  holds i ps (mkWorld w l, (g, x)) →
  let s' := mkStore (nodes w) (<[p := lock_entry.take_lock i (word w p)]> (locks w)) (retired w) in
  conc_inside s' g x ∧ (∀ j, j ≠ i → linear_own j (mkWorld w l, (g, x)) (mkWorld s' l, (g, x))) ∧
  clean p (mkWorld s' l, (g, x)) ∧ holds i (p :: ps) (mkWorld s' l, (g, x)).
Proof using life_preorder threads_fit.
  intros Hi [Hg Hin] Hp Hvis Hev Hh s'. simpl in Hg, Hin.
  assert (locked_by s' p i) as Hlk.
  { split; [done|]. exists (word w p). split; [done|]. unfold word, s'; simpl. by rewrite lookup_insert_eq. }
  destruct (set_lock i p (lock_entry.take_lock i (word w p)) w g x Hin) as [Hin' Hsp].
  - done.
  - intros k Hk. by destruct (ci_private _ _ _ Hin k p Hk) as (_ & ? & _).
  - intros j Hj. by destruct (unlocked_even threads threads_fit w p j Hev).
  - intros j Hj. by apply (locked_by_unique threads threads_fit s' p).
  - right. by exists i.
  - intros Hev' n _ _. destruct (locked_by_word threads threads_fit s' p i Hlk) as (Hl & _).
    unfold lock_entry.is_locked, word, s' in Hl. simpl in Hl. rewrite lookup_insert_eq in Hl. simpl in Hl.
    rewrite Hev' in Hl. done.
  - split; [done|]. split; [intros j Hj; split; [reflexivity|by apply Hsp]|].
    split; [|by apply (holds_set i p ps _ w g x)]. intros n Hm Hn. simpl in *.
    destruct (marked n) eqn:Em; [|done]. destruct (ci_marked _ _ _ Hin p n Hm Hn Em) as [j Hj].
    by destruct (unlocked_even threads threads_fit w p j Hev).
Qed.
Lemma release_word i p ps z w l g x : (p ∉ ps) → z mod 2 = 0 →
  linear_inv (mkWorld w l, (g, x)) → is_Some (nodes w !! p) →
  clean p (mkWorld w l, (g, x)) → holds i (p :: ps) (mkWorld w l, (g, x)) →
  let s' := mkStore (nodes w) (<[p := z]> (locks w)) (retired w) in
  conc_inside s' g x ∧ (∀ j, j ≠ i → linear_own j (mkWorld w l, (g, x)) (mkWorld s' l, (g, x))) ∧
  holds i ps (mkWorld s' l, (g, x)).
Proof using life_preorder threads_fit.
  intros Hps Hz [Hg Hin] Hp Hcl Hh s'. simpl in Hg, Hin.
  assert (locked_by w p i) as Hlk by (apply (Hh p); by left).
  assert (∀ j, ¬ locked_by s' p j) as Hno.
  { intros j. apply (unlocked_even threads threads_fit). unfold word, s'; simpl. by rewrite lookup_insert_eq. }
  destruct (set_lock i p z w g x Hin) as [Hin' Hsp].
  - done.
  - intros k Hk. destruct (ci_private _ _ _ Hin k p Hk) as (_ & _ & Hev & _).
    by destruct (unlocked_even threads threads_fit w p i Hev).
  - intros j Hj. by apply (locked_by_unique threads threads_fit w p).
  - intros j Hj. by destruct (Hno j).
  - by left.
  - intros _ n Hm Hn. by apply Hcl.
  - split; [done|]. split; [intros j Hj; split; [reflexivity|by apply Hsp]|].
    by apply (holds_reset i p ps z w g x).
Qed.

Lemma peek_lock s p : is_Some (nodes s !! p) → peek (lck_c p) s = inr (word s p).
Proof. intros [n Hn]. simpl. unfold at_node. by rewrite Hn. Qed.

(** the three accesses of [try_lock] to the lock word *)
Lemma oht_load_word i p ps P : (p ∉ ps) → stable i (in_scope i ps P) →
  (∀ σ, linear_inv σ → P σ → is_Some (nodes (mem σ.1) !! p)) →
  oht i (in_scope i ps P) (load (lck_c p)) (λ le σ,
    (lock_entry.is_locked le = true → lock_entry.is_self_locked i le = false) ∧ in_scope i ps P σ).
Proof using threads_fit.
  intros Hps HstP Hvis. apply oht_load; [done|]. intros w g x Hc [HP Hh]. pose proof (Hvis _ Hc HP) as Hp.
  simpl in Hp. rewrite peek_lock by done. split; [|done]. intros Hlk.
  destruct (lock_entry.is_self_locked i (word (mem w) p)) eqn:Es; [|done].
  destruct Hc as [_ Hin]. destruct (ci_words _ _ _ Hin p) as [Hev|[_ [j Hj]]].
  { simpl in Hev. unfold lock_entry.is_locked in Hlk. rewrite Hev in Hlk. done. }
  destruct (locked_by_word threads threads_fit _ _ _ Hj) as (_ & _ & Hu). apply Hu in Es as ->.
  apply (Hh p) in Hj. done.
Qed.

Lemma oht_cas_word i p ps P le : (i < threads)%nat → stable i (in_scope i ps P) → lockless P →
  (∀ σ, linear_inv σ → P σ → is_Some (nodes (mem σ.1) !! p) ∧ visible σ.2.1 p) →
  lock_entry.is_locked le = false →
  oht i (in_scope i ps P) (cas (lck_c p) le (lock_entry.take_lock i le))
    (λ (b : bool) σ, if b then le mod 2 = 0 ∧ in_section i p ps P σ else in_scope i ps P σ).
Proof using life_preorder threads_fit.
  intros Hi HstP HlP Hvis Hle.
  apply (oht_bind _ _ _ _ _ _ _ _ _ (λ r σ, if r.1 : bool then le mod 2 = 0 ∧ in_section i p ps P σ
                                             else in_scope i ps P σ)).
  2: { intros [b v]. by apply oht_ret. }
  apply oht_act; [done|]. intros [w l] g x Hc [HP Hh]. destruct (Hvis _ Hc HP) as [Hp Hv].
  unfold on_cell. cbn [mem]. rewrite (peek_lock w p Hp). case_decide as Hw; [|].
  - assert (word w p mod 2 = 0) as Hev.
    { unfold lock_entry.is_locked in Hle. rewrite Hw. apply Z.eqb_neq in Hle.
      pose proof (Z.mod_pos_bound le 2). lia. }
    rewrite Hw in Hev. subst le.
    destruct (take_word i p ps w l g x Hi Hc Hp Hv Hev Hh) as (Hin & Hown & Hcl & Hh').
    destruct Hc as [Hg _]. exists g, x. split; [done|]. split; [done|]. split; [done|].
    split; [done|]. split; [|done]. split; [|exact Hcl]. apply (HlP (mkWorld w l)); [reflexivity|exact HP].
  - destruct Hc as [Hg Hin]. exists g, x. split; [done|]. split; [done|]. split; [|done].
    intros j _. by destruct (linear_own_preorder sem m0 conc_object j).
Qed.

Lemma held_allocated i p w g x : linear_inv (w, (g, x)) → locked_by (mem w) p i →
  is_Some (nodes (mem w) !! p).
Proof using threads_fit.
  intros [_ Hin] Hlk. destruct (ci_words _ _ _ Hin p) as [Hev|[Hp _]]; [|done].
  by destruct (unlocked_even threads threads_fit _ _ i Hev).
Qed.

Lemma oht_release i p ps le (B : config → Prop) : (i < threads)%nat → (p ∉ ps) → le mod 2 = 0 →
  stable i (in_section i p ps B) → lockless B →
  oht i (in_section i p ps B)
    (le' ← load (lck_c p);
     when (lock_entry.is_self_locked i le')
       (store (lck_c p) (lock_entry.release_lock (lock_entry.take_lock i le))))
    (λ _, in_scope i ps B).
Proof using life_preorder threads_fit.
  intros Hi Hps Hev HstB HlB.
  apply (oht_bind _ _ _ _ _ _ _ _ _ (λ v σ, lock_entry.is_self_locked i v = true ∧ in_section i p ps B σ)).
  { apply oht_load; [done|]. intros w g x Hc [HB Hh].
    assert (locked_by (mem w) p i) as Hlk by (apply (Hh p); by left).
    rewrite peek_lock by (by eapply held_allocated). split; [|done].
    by destruct (locked_by_word threads threads_fit _ _ _ Hlk) as (_ & ? & _). }
  intros v. apply oht_pure. intros ->. cbn [when].
  apply oht_act; [done|]. intros [w l] g x Hc [[HB Hcl] Hh].
  assert (is_Some (nodes w !! p)) as Hp by (apply (held_allocated i p _ _ _ Hc), (Hh p); by left).
  unfold on_cell. cbn [mem]. rewrite (peek_lock w p Hp).
  destruct (take_lock_facts i le (thread_small threads threads_fit i Hi) Hev) as (_ & _ & ->).
  destruct (release_word i p ps (le mod 2 ^ 32 + 2) w l g x Hps (release_even le Hev) Hc Hp Hcl Hh)
    as (Hin & Hown & Hh').
  destruct Hc as [Hg _]. exists g, x. split; [done|]. split; [done|]. split; [done|].
  split; [|exact Hh']. apply (HlB (mkWorld w l)); [reflexivity|exact HB].
Qed.

Lemma oht_try_lock i p ps P (B : bool → config → Prop) f :
  (i < threads)%nat → (p ∉ ps) →
  guarded i ps P → lockless P →
  (∀ σ, linear_inv σ → P σ → is_Some (nodes (mem σ.1) !! p) ∧ visible σ.2.1 p) →
  (∀ b, guarded i (p :: ps) (B b)) → (∀ b, lockless (B b)) → (∀ σ, P σ → B false σ) →
  oht i (in_section i p ps P) f (λ b, in_section i p ps (B b)) →
  oht i (in_scope i ps P) (try_lock i p f) (λ b, in_scope i ps (B b)).
Proof using life_preorder threads_fit.
  intros Hi Hps HgP HlP Hvis HgB HlB HPB Hf. pose proof (stable_in_scope i ps P HgP) as HstP.
  unfold try_lock, lock.try_lock, lock.try_lock_result.
  apply (oht_bind _ _ _ _ _ _ _ _ _ (λ o, in_scope i ps (B (default false o)))).
  2: { intros [b|]; by apply oht_ret. }
  assert (∀ σ, in_scope i ps P σ → in_scope i ps (B false) σ) as Hfail.
  { intros σ [HP Hh]. split; [by apply HPB|done]. }
  eapply oht_bind; [apply (oht_load_word i p ps P); [done..|]; intros σ Hc HP; by destruct (Hvis σ Hc HP)|].
  intros le. apply oht_pure. intros Hself. destruct (lock_entry.is_locked le) eqn:Hle; cbn [negb].
  { rewrite Hself by done. by apply oht_ret. }
  eapply oht_bind; [by apply oht_cas_word|]. intros [|]; [|by apply oht_ret].
  apply oht_pure. intros Hev. eapply oht_bind; [exact Hf|]. intros b.
  eapply oht_bind; [apply oht_release; try done; by apply in_section_stable|].
  intros []. by apply oht_ret.
Qed.
End conc.

(** what other threads keep, and what does not mention the locks *)
Create HintDb conc.
#[export] Hint Resolve guarded_stable guarded_and guarded_node guarded_clean guarded_private
  lockless_and lockless_node lockless_clean stable_owns stable_doing stable_in_scope in_section_stable : conc.
