(* ===== verification/MapConc.v ===== *)
(** * MapConc: the operations of a concurrent map made of locked nodes.

    What the proofs of the concurrent structures share: the phases of an
    operation ([working] before it happens, [finished] after), reading a node
    under its lock, attempts that lock one node, the retry loop, and the
    consequence for all threads ([map_linearizable]). *)

From stdpp Require Import prelude list gmap.
From Stdlib Require Import ZArith Lia.
From S2P Require Import Prelude Conc SpinLock Store MapSpec Linear StoreConc.
Local Open Scope Z_scope.

Section map.
Context {N L : Type} (threads : nat) (threads_fit : Z.of_nat threads ≤ 2 ^ 16 - 1).
Context (life : relation N) {life_preorder : PreOrder life}.
Context (marked : N → bool) (members linked : L → list Z).
Context (shape : gmap Z N → hist dict_command answer L → Prop).
Context (shape_reseen : ∀ m g g', shape m g → reseen g g' → shape m g').
Context (value : L → gmap Z Z) (M0 : gmap Z Z).
#[local] Abbreviation hist := (hist dict_command answer L).
#[local] Abbreviation config :=
  (world (store_state N) (event dict_command answer) * (hist * (nat → list Z)))%type.
Implicit Types (σ : config) (g : hist) (P Q : config → Prop).

Definition map_object := conc_object threads life marked members linked shape shape_reseen.
Definition only_fuel (er : err) : Prop := er = OutOfFuel.
#[local] Abbreviation oht := (Linear.oht meaning value M0 map_object only_fuel).
#[local] Abbreviation stable := (Conc.stable (linear meaning value M0 map_object)).
#[local] Abbreviation linear_inv := (Linear.linear_inv meaning value M0 map_object).
#[local] Abbreviation linear_own := (Linear.linear_own meaning M0 map_object).
#[local] Abbreviation in_scope := (StoreConc.in_scope threads).
#[local] Abbreviation in_section := (StoreConc.in_section threads marked members).
#[local] Abbreviation guarded :=
  (StoreConc.guarded threads life marked members linked shape shape_reseen meaning value M0).

(** inside the operation [c], which has not happened yet *)
Definition pending (i : nat) (c : dict_command) σ : Prop := doing meaning M0 σ.2.1 i = Some (Pending c).
Definition working (i : nat) (c : dict_command) σ : Prop :=
  pending i c σ ∧ rests map_object i (mem σ.1, σ.2.2).
(** the map once had [r] at [k] since the call *)
Definition knows (i : nat) (k : Z) (r : option Z) σ : Prop := ∃ l, seen σ.2.1 i l ∧ value l !! k = r.
(** what thread [i] read at [p] still describes it *)
Definition reads (p : Z) (n0 : N) σ : Prop := ∃ n, nodes (mem σ.1) !! p = Some n ∧ life n0 n.
(** inside an attempt, whatever locks it has *)
Definition base (i : nat) (c : dict_command) σ : Prop := pending i c σ ∧ owns i [] σ.
(** an attempt succeeded, and the operation has happened, or nothing has *)
Definition outcome (i : nat) (c : dict_command) (a : answer) (b : bool) σ : Prop :=
  (if b then doing meaning M0 σ.2.1 i = Some (Done a) else pending i c σ) ∧ owns i [] σ.
Definition finished (i : nat) (c : dict_command) (a : answer) σ : Prop :=
  answered meaning value M0 i c a σ.2.1 ∧ rests map_object i (mem σ.1, σ.2.2).

(** what is in memory stays, up to [life] *)
Definition persists (m m' : gmap Z N) : Prop := ∀ p n, m !! p = Some n → ∃ n', m' !! p = Some n' ∧ life n n'.
Lemma persists_insert m p n n' : m !! p = Some n → life n n' → persists m (<[p := n']> m).
Proof using life_preorder.
  intros Hn Hl q o Hq. destruct (decide (q = p)) as [->|Hne].
  - rewrite Hn in Hq. injection Hq as <-. exists n'. by rewrite lookup_insert_eq.
  - exists o. rewrite lookup_insert_ne by done. split; [done|reflexivity].
Qed.
Lemma persists_new m p n : m !! p = None → persists m (<[p := n]> m).
Proof using life_preorder.
  intros Hn q o Hq. exists o. rewrite lookup_insert_ne by congruence. split; [done|reflexivity].
Qed.

Lemma own_persists i σ σ' : linear_own i σ σ' → persists (nodes (mem σ.1)) (nodes (mem σ'.1)).
Proof. intros [_ Hs]. exact (cs_life _ _ _ _ _ _ Hs). Qed.
Lemma own_seen i l σ σ' : linear_own i σ σ' → seen σ.2.1 i l → seen σ'.2.1 i l.
Proof. intros [[_ Hs] _]. apply Hs. Qed.
Lemma inv_shape σ : linear_inv σ → shape (nodes (mem σ.1)) σ.2.1.
Proof. intros [_ Hin]. exact (ci_shape _ _ _ _ _ _ _ _ Hin). Qed.
Lemma pending_seen i c σ : linear_inv σ → pending i c σ → seen σ.2.1 i (now σ.2.1).
Proof. intros [Hg _] Hp. by eapply (ho_now _ _ _ _ _ Hg). Qed.

Lemma stable_pending i c : stable i (pending i c).
Proof. apply stable_doing. Qed.
Lemma stable_working i c : stable i (working i c).
Proof. apply stable_and; [apply stable_doing|apply (stable_rests meaning value M0 map_object)]. Qed.
Lemma stable_knows i k r : stable i (knows i k r).
Proof. intros σ σ' (l & Hl & Hr) _ Ho. exists l. split; [exact (own_seen _ _ _ _ Ho Hl)|done]. Qed.
Lemma stable_reads i p n : stable i (reads p n).
Proof.
  intros σ σ' (n1 & Hn & Hs) _ Ho. destruct (own_persists _ _ _ Ho p n1 Hn) as (n2 & ? & ?).
  exists n2. split; [done|by etrans].
Qed.
Lemma stable_base i c : stable i (base i c).
Proof. apply stable_and; [apply stable_pending|apply stable_owns]. Qed.
Lemma stable_outcome i c a b : stable i (outcome i c a b).
Proof. apply stable_and; [destruct b; apply stable_doing|apply stable_owns]. Qed.
Lemma lockless_base i c : lockless (base i c).
Proof. by intros w w' γ _. Qed.
Lemma lockless_outcome i c a b : lockless (outcome i c a b).
Proof. intros w w' γ _. by destruct b. Qed.

Lemma working_base i c σ : working i c σ ↔ in_scope i [] (base i c) σ.
Proof.
  split.
  - intros (Hp & Hl & Hx). split; [done|]. intros p. split; [intros H; by destruct (Hl p)|by intros ?%elem_of_nil].
  - intros [[Hp Hx] Hh]. split; [done|]. split; [|done]. intros p Hl. apply (Hh p) in Hl. by apply elem_of_nil in Hl.
Qed.
Lemma outcome_false i c a ps P (p : Z) σ :
  (∀ σ, P σ → base i c σ) → in_section i p ps P σ → in_section i p ps (outcome i c a false) σ.
Proof. intros HP [[H Hc] Hh]. split; [|done]. split; [|done]. by apply HP in H. Qed.

Lemma holds_same_locks i ps (w w' : world (store_state N) (event dict_command answer))
    (γ γ' : hist * (nat → list Z)) :
  locks (mem w') = locks (mem w) → holds threads i ps (w, γ) → holds threads i ps (w', γ').
Proof.
  intros Hl Hh p. specialize (Hh p). simpl in *. rewrite <-Hh. apply locked_by_same.
  unfold word. by rewrite Hl.
Qed.
(** what a thread can see after an update *)
Lemma visible_committed i l' g q : visible linked (committed meaning M0 i l' g) q →
  q ∈ linked l' ∨ visible linked g q.
Proof.
  intros [Hq|(j & l & [_ [Hl|[-> _]]] & Hq)]; [by left|right; right; eauto|by left].
Qed.

(** reading a field of a node that thread [i] has locked *)
Lemma oht_read_held {T} i p ps P (get : N → err + T) set : p ∈ ps → guarded i ps P →
  (∀ σ, linear_inv σ → P σ → ∃ n v, nodes (mem σ.1) !! p = Some n ∧ get n = inr v) →
  oht i (in_scope i ps P) (load (field get set p))
    (λ v σ, ∃ n, get n = inr v ∧ in_scope i ps (λ σ, P σ ∧ node_is p n σ) σ).
Proof.
  intros Hp HP Hsome. apply oht_read; [by apply stable_in_scope|]. intros σ Hc [HPs Hh].
  destruct (Hsome σ Hc HPs) as (n & v & Hn & Hv). exists n, v. split; [done|]. split; [done|]. by exists n.
Qed.

Lemma oht_read_known {T} i ps P (get : N → err + T) set p n v : guarded i ps P →
  (∀ σ, P σ → node_is p n σ) → get n = inr v →
  oht i (in_scope i ps P) (load (field get set p)) (λ v' σ, v' = v ∧ in_scope i ps P σ).
Proof.
  intros HP Hn Hv. apply oht_read; [by apply stable_in_scope|]. intros σ Hc [HPs Hh].
  exists n, v. split; [by apply Hn|]. by split.
Qed.

(** assertions that stay when nodes change as they may, and when nodes are made *)
Definition monotone P : Prop := ∀ w w' g x x', persists (nodes (mem w)) (nodes (mem w')) → P (w, (g, x)) → P (w', (g, x')).
Definition growing P : Prop := ∀ w w' g x x', nodes (mem w) ⊆ nodes (mem w') → P (w, (g, x)) → P (w', (g, x')).
Lemma monotone_growing P : monotone P → growing P.
Proof using life_preorder.
  intros H w w' g x x' Hsub. apply H. intros p n Hn. exists n. split; [by eapply lookup_weaken|reflexivity].
Qed.
Lemma monotone_and P Q : monotone P → monotone Q → monotone (λ σ, P σ ∧ Q σ).
Proof. intros HP HQ w w' g x x' H [??]. split; [by eapply HP|by eapply HQ]. Qed.
Lemma monotone_pending i c : monotone (pending i c).
Proof. by intros w w' g x x' _. Qed.
Lemma monotone_knows i k r : monotone (knows i k r).
Proof. by intros w w' g x x' _. Qed.
Lemma monotone_reads p n : monotone (reads p n).
Proof using life_preorder.
  intros w w' g x x' H (n1 & Hn1 & Hs). destruct (H p n1 Hn1) as (n2 & ? & ?). exists n2. split; [done|by etrans].
Qed.
Lemma growing_and P Q : growing P → growing Q → growing (λ σ, P σ ∧ Q σ).
Proof. intros HP HQ w w' g x x' H [??]. split; [by eapply HP|by eapply HQ]. Qed.
Lemma growing_node p n : growing (node_is p n).
Proof. intros w w' g x x' H Hn. unfold node_is in *. simpl in *. by eapply lookup_weaken. Qed.

(** making a node while some locks are held *)
Lemma oht_new_held (alloc : gmap Z N → Z) `{!Allocator alloc} i p ps P xs n :
  (∀ l q, q ∈ members l → q ∈ linked l) → (∀ m g q, shape m g → visible linked g q → is_Some (m !! q)) →
  (∀ m g q o, shape m g → m !! q = None → shape (<[q := o]> m) g) →
  guarded i (p :: ps) (λ σ, P σ ∧ owns i xs σ) → growing P →
  oht i (in_section i p ps (λ σ, P σ ∧ owns i xs σ)) (new_obj alloc n)
    (λ q, in_section i p ps (λ σ, (P σ ∧ (q ∉ xs)) ∧ owns i (q :: xs) σ ∧ node_is q n σ)).
Proof using threads_fit.
  intros Hml Hall Hgrow Hgd HP.
  apply (oht_new threads threads_fit life marked members linked Hml shape shape_reseen Hall meaning value M0 only_fuel
    alloc i _ xs).
  { by apply in_section_stable. }
  { by intros σ [[[_ ?] _] _]. }
  intros w g x q Hc [[[HPσ Ho] Hcl] Hh] Hfresh Hq0. split; [by apply Hgrow; [exact (inv_shape _ Hc)|]|].
  intros w' x' Hn Hl Hx. unfold owns in Ho. simpl in Ho.
  assert (nodes (mem w) ⊆ nodes (mem w')) as Hsub by (rewrite Hn; by apply insert_subseteq).
  split; [split; [split; [split|split]|]|].
  - by eapply HP.
  - intros Hin. destruct Hc as [_ Hin']. rewrite <-Ho in Hin.
    destruct (ci_private _ _ _ _ _ _ _ _ Hin' i q Hin) as ([o Ho'] & _). simpl in Ho'. congruence.
  - exact Hx.
  - unfold node_is. simpl. by rewrite Hn, lookup_insert_eq.
  - intros o Hm Ho'. assert (locked_by threads (mem w) p i) as Hlk by (apply (Hh p); by left).
    destruct (held_allocated threads threads_fit life marked members linked shape shape_reseen meaning value M0 i p w g x Hc Hlk) as [o1 Ho1].
    apply (Hcl o Hm). simpl in *. rewrite (lookup_weaken _ _ _ _ Ho1 Hsub) in Ho'. congruence.
  - intros r. simpl. rewrite Hl. apply Hh.
Qed.

(** *** Attempts and operations *)
Lemma knows_finished i c k r a σ : working i c σ → knows i k r σ →
  (∀ M : gmap Z Z, M !! k = r → meaning c M = (a, M)) → finished i c a σ.
Proof.
  intros [Hp Hr] (l & Hl & Hk) Hm. split; [|done]. right. split; [done|]. exists l. split; [done|]. by apply Hm.
Qed.
Lemma outcome_finished i c a σ : in_scope i [] (outcome i c a true) σ → finished i c a σ.
Proof.
  intros [[Hd Hx] Hh]. split; [by left|]. split; [|done]. intros p Hp. apply (Hh p) in Hp. by apply elem_of_nil in Hp.
Qed.

(** an attempt that locks the node at [p], where [F] holds *)
Lemma changing_spec i c p F a (body : prog (store_state N) bool) : (i < threads)%nat →
  stable i F → lockless F →
  (∀ σ, linear_inv σ → F σ → is_Some (nodes (mem σ.1) !! p) ∧ visible linked σ.2.1 p) →
  oht i (in_section i p [] (λ σ, base i c σ ∧ F σ)) body (λ b, in_section i p [] (outcome i c a b)) →
  oht i (λ σ, working i c σ ∧ F σ) (try_lock i p body)
    (λ b σ, if b : bool then finished i c a σ else working i c σ).
Proof using threads_fit.
  intros Hi HF HlF Hvis Hbody. eapply oht_weaken.
  - apply (oht_try_lock threads threads_fit life marked members linked shape shape_reseen
      meaning value M0 only_fuel i p [] (λ σ, base i c σ ∧ F σ) (outcome i c a));
      [done|apply not_elem_of_nil| | | | | | |exact Hbody].
    + apply guarded_stable, stable_and; [apply stable_base|exact HF].
    + apply lockless_and; [apply lockless_base|exact HlF].
    + intros σ Hc [_ HFσ]. by apply Hvis.
    + intros b. apply guarded_stable, stable_outcome.
    + intros b. apply lockless_outcome.
    + by intros σ [[? ?] _].
  - intros σ _ [Hw Hf]. apply working_base in Hw as [HB Hh]. by split.
  - intros [|] σ _ H; [by apply outcome_finished|]. by apply working_base.
Qed.

Lemma try_loop_spec {B} i c fuel (f : prog (store_state N) (option B)) (Q : B → config → Prop) :
  oht i (working i c) f (λ r σ, match r with Some b => Q b σ | None => working i c σ end) →
  oht i (working i c) (flock.try_loop fuel f) Q.
Proof.
  intros Hf. unfold flock.try_loop.
  refine (oht_iter _ _ _ _ _ _ (λ _ : unit, working i c) _ _ _ _ fuel tt); [done|]. intros _.
  eapply oht_bind; [exact Hf|]. by intros [b|]; apply oht_ret.
Qed.

(** an operation of an interface, from the specifications of its code *)
Lemma perform_spec (ops : dict_ops (store_state N)) fuel i c :
  (∀ k, oht i (working i (Find k)) (d_find ops fuel k) (λ r σ, working i (Find k) σ ∧ knows i k r σ)) →
  (∀ k v, oht i (working i (Insert k v)) (d_insert ops fuel k v) (λ b, finished i (Insert k v) (AInsert b))) →
  (∀ k, oht i (working i (Remove k)) (d_remove ops fuel k) (λ b, finished i (Remove k) (ARemove b))) →
  oht i (working i c) (perform ops fuel c) (λ a, finished i c a).
Proof.
  intros Hf Hi Hr. destruct c as [k|k v|k]; unfold perform.
  - eapply oht_bind; [apply Hf|]. intros r. apply oht_ret. intros σ [Hw Hk].
    eapply knows_finished; [done|done|]. intros M HM. simpl. by rewrite HM.
  - eapply oht_bind; [apply Hi|]. intros b. by apply oht_ret.
  - eapply oht_bind; [apply Hr|]. intros b. by apply oht_ret.
Qed.
End map.
#[global] Arguments own_seen {N L threads life life_preorder marked members linked shape shape_reseen M0} i l σ σ' _ _.
#[global] Arguments own_persists {N L threads life life_preorder marked members linked shape shape_reseen M0} i σ σ' _ p n _.
#[global] Arguments working_base {N L threads life life_preorder marked members linked shape shape_reseen M0} i c σ.
#[global] Arguments inv_shape {N L threads life life_preorder marked members linked shape shape_reseen value M0} σ _.
#[global] Arguments pending_seen {N L threads life life_preorder marked members linked shape shape_reseen value M0} i c σ _ _.
#[global] Arguments knows_finished {N L threads life life_preorder marked members linked shape shape_reseen value M0} i c k r a σ _ _ _.
#[global] Arguments oht_read_held {N L threads life life_preorder marked members linked shape shape_reseen value M0 T} i p ps P get set _ _ _.
#[global] Arguments changing_spec {N L threads} threads_fit {life life_preorder marked members linked shape shape_reseen value M0} i c p F a body.
#[global] Arguments oht_read_known {N L threads life life_preorder marked members linked shape shape_reseen value M0 T} i ps P get set p n v _ _ _.
#[global] Arguments oht_new_held {N L threads} threads_fit {life life_preorder marked members linked shape shape_reseen value M0} alloc {_} i p ps P xs n.
#[global] Arguments outcome_finished {N L threads life life_preorder marked members linked shape shape_reseen value M0} i c a σ _.
(** stability of the assertions above *)
#[export] Hint Extern 1 (Conc.stable _ _ (pending _ _ _)) => apply stable_pending : stab.
#[export] Hint Extern 1 (Conc.stable _ _ (working _ _ _ _ _ _ _ _ _ _)) => apply stable_working : stab.
#[export] Hint Extern 1 (Conc.stable _ _ (knows _ _ _ _)) => apply stable_knows : stab.
#[export] Hint Extern 1 (Conc.stable _ _ (reads _ _ _)) => apply stable_reads : stab.
#[export] Hint Extern 1 (Conc.stable _ _ (base _ _ _)) => apply stable_base : stab.
#[export] Hint Extern 1 (Conc.stable _ _ (outcome _ _ _ _ _)) => apply stable_outcome : stab.

(** All threads together, from a state where no lock is held and nothing is
    marked: no errors, a linearizable log, and at the end no locks again. *)
Lemma map_linearizable {N L : Type} (life : relation N) `{!PreOrder life} (marked : N → bool)
    (members linked : L → list Z) (shape : gmap Z N → hist dict_command answer L → Prop)
    (shape_reseen : ∀ m g g', shape m g → reseen g g' → shape m g') (value : L → gmap Z Z)
    (ops : nat → dict_command → prog (store_state N) answer) (css : list (list dict_command))
    (s : store_state N) (l0 : L) (M := value l0) :
  Z.of_nat (length css) ≤ 2 ^ 16 - 1 →
  shape (nodes s) (Hist [] l0 (λ _ _, False)) → (∀ p, word s p mod 2 = 0) →
  (∀ p n, p ∈ members l0 → nodes s !! p = Some n → marked n = false) →
  (∀ i c, (i < length css)%nat →
    let ob := map_object (length css) life marked members linked shape shape_reseen in
    oht meaning value M ob only_fuel i
      (working (length css) life marked members linked shape shape_reseen M i c) (ops i c)
      (λ a, finished (length css) life marked members linked shape shape_reseen value M i c a)) →
  ∀ w ts, rtc step (mkWorld s [], imap (λ i, client (ops i) i) css) (w, ts) →
    (∀ i er, goes_wrong i er (w, ts) → er = OutOfFuel) ∧
    ∃ g, linearizes meaning M (log w) (value (now g)) ∧ shape (nodes (mem w)) g ∧
      ((∀ i, (i < length css)%nat → ∃ rs, ts !! i = Some (Ret rs)) →
       (∀ p, word (mem w) p mod 2 = 0) ∧
       ∀ p n, p ∈ members (now g) → nodes (mem w) !! p = Some n → marked n = false).
Proof.
  intros Hfit Hshape Hev Hmk0 Hops w ts Hsteps.
  destruct (clients_linearizable meaning value M (map_object (length css) life marked members linked shape shape_reseen)
    only_fuel ops css s l0 (λ _, [])) with w ts as (Hwrong & g & x & Hin & Hlin & Hrest).
  - done.
  - split; simpl; [done|by left|by intros ? ? ?%elem_of_nil|].
    intros p n Hp Hn Hr. by rewrite (Hmk0 p n Hp Hn) in Hr.
  - intros i Hi. split; [|done]. intros p. by apply unlocked_even.
  - intros i c Hi. by apply Hops.
  - done.
  - split; [done|]. destruct Hin as [Hsh Hwords _ Hmk]. exists g. split; [done|]. split; [done|]. intros Hdone.
    assert (∀ p j, ¬ locked_by (length css) (mem w) p j) as Hno.
    { intros p j Hp. pose proof Hp as [Hj _]. destruct (Hdone j Hj) as [rs Hrs].
      destruct (Hrest j rs Hrs) as [Hr _]. by apply (Hr p). }
    split.
    + intros p. destruct (Hwords p) as [?|[_ [j Hj]]]; [done|]. by destruct (Hno p j).
    + intros p n Hp Hn. destruct (marked n) eqn:Hr; [|done].
      destruct (Hmk p n Hp Hn Hr) as [j Hj]. by destruct (Hno p j).
Qed.

(** ** Runs of a schedule, for the witnesses *)
Definition ends_with {S C A} `{!EqDecision C, !EqDecision A} (n : nat) (h : list (event C A))
    (c : config (world S (event C A)) (list A)) : bool :=
  bool_decide (log c.1 = h) && (length c.2 =? n)%nat &&
  forallb (λ t : prog _ _, match t with Ret _ => true | Act _ _ => false end) c.2.
Lemma run_to_end {S C A} `{!EqDecision C, !EqDecision A} n h sched (start : config (world S (event C A)) (list A)) :
  match run_sched sched start with Some c => ends_with n h c | None => false end = true →
  ∃ w ts, rtc step start (w, ts) ∧ log w = h ∧ ∀ i, (i < n)%nat → ∃ rs, ts !! i = Some (Ret rs).
Proof.
  destruct (run_sched sched start) as [[w ts]|] eqn:Hrun; [|done]. unfold ends_with. cbn [fst snd].
  intros [[Hlog Hlen]%andb_prop Hts]%andb_prop. apply bool_decide_eq_true in Hlog. apply Nat.eqb_eq in Hlen.
  exists w, ts. split; [by eapply run_sched_steps|]. split; [done|]. intros i Hi.
  destruct (lookup_lt_is_Some_2 ts i) as [t Ht]; [lia|]. rewrite forallb_forall in Hts.
  specialize (Hts t). destruct t as [rs|X f k]; [eauto|]. rewrite <-list_elem_of_In in Hts.
  by specialize (Hts (list_elem_of_lookup_2 _ _ _ Ht)).
Qed.
