(* ===== verification/ListConc.v ===== *)
(** * ListConc: the sorted list under interleaving.

    Threads insert into, remove from and search the list of [ListMap] at once,
    a search without any lock.  The list holds what is linked from the head;
    a node that is no longer linked keeps its successor, so whoever stands on
    it still goes on to a node that was linked after the operation began.
    Every link followed was therefore in the list at some moment since the
    call, and with the keys in order that moment decides the result. *)

From stdpp Require Import prelude list gmap.
From Stdlib Require Import ZArith Lia Sorted.
From S2P Require Import Prelude Conc SpinLock Store MapSpec ListMap Linear StoreConc MapConc.
Local Open Scope Z_scope.

(** ** The list as a sequence of linked nodes *)
Section path.
Context (root e : Z).
(** addresses, keys and values of the nodes between [root] and [e] *)
#[local] Abbreviation contents := (list (Z * (Z * Z))).
Implicit Types (m : gmap Z node) (l : contents).

Definition members l : list Z := root :: l.*1.
Definition contents_map l : gmap Z Z := to_map l.*2.

(** the last of some nodes, and the first; [b] comes after [a] *)
Definition tail_node l : Z := List.last l.*1 root.
Definition head_node l : Z := hd e l.*1.
Definition edge l (a b : Z) : Prop :=
  ∃ l1 l2, l = l1 ++ l2 ∧ tail_node l1 = a ∧ head_node l2 = b.

(** what a node keeps for its life *)
Definition same_node (n n' : node) : Prop :=
  key n' = key n ∧ value n' = value n ∧ is_end n' = is_end n.
#[export] Instance same_node_preorder : PreOrder same_node.
Proof. split; [done|]. intros n1 n2 n3 (?&?&?) (?&?&?). unfold same_node. split_and!; congruence. Qed.

Record well_formed m l : Prop := {
  wf_nodup : NoDup (members l);
  wf_sorted : sorted l.*2;
  wf_entry : ∀ a k v, (a, (k, v)) ∈ l → ∃ n, m !! a = Some n ∧ key n = k ∧ value n = v ∧ is_end n = false;
  wf_root : ∃ n, m !! root = Some n ∧ is_end n = false;
  wf_end : ∃ n, m !! e = Some n ∧ is_end n = true;
}.

#[local] Abbreviation persists := (MapConc.persists same_node).

Lemma wf_persists m m' l : persists m m' → well_formed m l → well_formed m' l.
Proof.
  intros Hp [H1 H2 H3 (nr & Hr & Hre) (ne & He & Hee)]. split; [done|done| | |].
  - intros a k v (n & Hn & <- & <- & Hend)%H3. destruct (Hp a n Hn) as (n' & Hn' & ? & ? & ?).
    exists n'. split_and!; congruence.
  - destruct (Hp _ _ Hr) as (n' & ? & _ & _ & ?). exists n'. split; congruence.
  - destruct (Hp _ _ He) as (n' & ? & _ & _ & ?). exists n'. split; congruence.
Qed.

Lemma wf_member m l a : well_formed m l → a ∈ members l → ∃ n, m !! a = Some n ∧ is_end n = false.
Proof.
  intros [_ _ H3 Hr _] [->|([a' [k v]] & -> & Hin)%list_elem_of_fmap]%elem_of_cons; [done|].
  destruct (H3 _ _ _ Hin) as (n & ? & _ & _ & ?). eauto.
Qed.

Lemma tail_snoc l a kv : tail_node (l ++ [(a, kv)]) = a.
Proof. unfold tail_node. rewrite fmap_app. apply List.last_last. Qed.
Lemma tail_app l x : x ≠ [] → tail_node (l ++ x) = tail_node x.
Proof.
  destruct x as [|[a kv] x _] using rev_ind; [done|]. intros _. by rewrite app_assoc, !tail_snoc.
Qed.
Lemma tail_in l : l ≠ [] → tail_node l ∈ l.*1.
Proof.
  destruct l as [|[a kv] l _] using rev_ind; [done|]. intros _. rewrite tail_snoc, fmap_app.
  apply elem_of_app. right. by left.
Qed.
Lemma tail_member l : tail_node l ∈ members l.
Proof. destruct l as [|x l]; [by left|right]. by apply tail_in. Qed.
Lemma head_app l x : l ≠ [] → head_node (l ++ x) = head_node l.
Proof. by destruct l. Qed.
Lemma members_app l1 l2 : members (l1 ++ l2) = members l1 ++ l2.*1.
Proof. unfold members. by rewrite fmap_app. Qed.

Lemma edge_intro l1 l2 : edge (l1 ++ l2) (tail_node l1) (head_node l2).
Proof. by exists l1, l2. Qed.
(** every node has a next one *)
Lemma edge_from l a : a ∈ members l → ∃ b, edge l a b.
Proof.
  intros [->|([a' kv] & -> & Hin)%list_elem_of_fmap]%elem_of_cons.
  - exists (head_node l), [], l. by split.
  - apply list_elem_of_split in Hin as (l1 & l2 & ->). exists (head_node l2), (l1 ++ [(a', kv)]), l2.
    split; [by rewrite <-app_assoc|]. by rewrite tail_snoc.
Qed.
Lemma edge_source l a b : edge l a b → a ∈ members l.
Proof.
  intros (l1 & l2 & -> & <- & _). rewrite members_app. apply elem_of_app. left. apply tail_member.
Qed.
Lemma edge_target m l a b n : well_formed m l → edge l a b → m !! b = Some n → is_end n = false → b ∈ l.*1.
Proof.
  intros Hwf (l1 & l2 & -> & _ & <-) Hn Hend. destruct l2 as [|[c kv] l2]; unfold head_node in Hn; simpl in *.
  - destruct (wf_end _ _ Hwf) as (n' & Hn' & ?). congruence.
  - rewrite fmap_app. apply elem_of_app. right. by left.
Qed.
Lemma edge_allocated m l a b : well_formed m l → edge l a b → is_Some (m !! b).
Proof.
  intros Hwf (l1 & l2 & -> & _ & <-). destruct l2 as [|[c [k v]] l2]; simpl.
  - destruct (wf_end _ _ Hwf) as (n & Hn & _). by eexists.
  - destruct (wf_entry _ _ Hwf c k v) as (n & Hn & _); [apply elem_of_app; right; by left|]. by eexists.
Qed.

(** [cur] is below the key [k] *)
Definition before m (k cur : Z) : Prop := cur = root ∨ ∃ n, m !! cur = Some n ∧ key n < k.
Lemma before_persists m m' k cur : persists m m' → before m k cur → before m' k cur.
Proof.
  intros Hp [?|(n & Hn & Hk)]; [by left|right]. destruct (Hp _ _ Hn) as (n' & ? & Hk' & _).
  exists n'. split; [done|lia].
Qed.

Lemma edge_place m l cur nxt k : well_formed m l → edge l cur nxt → before m k cur →
  ∃ l1 l2, l = l1 ++ l2 ∧ tail_node l1 = cur ∧ head_node l2 = nxt ∧ below k l1.*2.
Proof.
  intros Hwf (l1 & l2 & -> & Hlast & Hhd) Hb. exists l1, l2. split; [done|]. split; [done|]. split; [done|].
  destruct l1 as [|[a [ka va]] l0 _] using rev_ind; [constructor|].
  rewrite tail_snoc in Hlast. subst cur.
  assert ((a, (ka, va)) ∈ (l0 ++ [(a, (ka, va))]) ++ l2) as Hin by (apply elem_of_app; left; apply elem_of_app; right; by left).
  destruct Hb as [->|(n & Hn & Hk)].
  { pose proof (wf_nodup _ _ Hwf) as [Hnd _]%NoDup_cons. destruct Hnd. apply list_elem_of_fmap. by exists (root, (ka, va)). }
  destruct (wf_entry _ _ Hwf a ka va Hin) as (n' & Hn' & Hka & _). assert (ka < k) as Hlt by congruence.
  pose proof (wf_sorted _ _ Hwf) as Hs. rewrite !fmap_app in Hs. apply sorted_app in Hs as [Hs _].
  apply sorted_app in Hs as (_ & _ & Hs). rewrite fmap_app. apply below_app. split; [|by repeat constructor].
  apply Forall_forall. intros q Hq. assert (q.1 < ka); [|lia]. apply (Hs q (ka, va) Hq). by left.
Qed.

(** the node after the place *)
Lemma place_above m k l1 l2 n : well_formed m (l1 ++ l2) → m !! head_node l2 = Some n →
  is_end n = true ∨ k < key n → above k l2.*2.
Proof.
  intros Hwf Hn Hk. destruct l2 as [|[b [kb vb]] l2]; [constructor|]. unfold head_node in Hn; simpl in Hn.
  destruct (wf_entry _ _ Hwf b kb vb) as (n' & Hn' & Hkb & _ & Hend); [apply elem_of_app; right; by left|].
  assert (k < kb) as Hlt by (destruct Hk; congruence).
  pose proof (wf_sorted _ _ Hwf) as Hs. rewrite fmap_app in Hs. apply sorted_app in Hs as (_ & Hs & _).
  apply sorted_cons in Hs as [Hs _]. constructor; [done|]. eapply Forall_impl; [exact Hs|]. simpl. lia.
Qed.
Lemma place_at m l1 l2 n : well_formed m (l1 ++ l2) → m !! head_node l2 = Some n → is_end n = false →
  ∃ b l3, l2 = (b, (key n, value n)) :: l3.
Proof.
  intros Hwf Hn Hk. destruct l2 as [|[b [kb vb]] l2]; unfold head_node in *; simpl in *.
  - destruct (wf_end _ _ Hwf) as (n' & ? & ?). congruence.
  - destruct (wf_entry _ _ Hwf b kb vb) as (n' & Hn' & ? & ? & ?); [apply elem_of_app; right; by left|].
    exists b, l2. by simplify_eq.
Qed.

(** an edge around [k] tells what the map has at [k] *)
Definition reading (k : Z) (n : node) : option Z :=
  if negb (is_end n) && negb (k <? key n) then Some (value n) else None.
Lemma edge_lookup m l cur nxt k n : well_formed m l → edge l cur nxt → before m k cur →
  m !! nxt = Some n → is_end n = true ∨ k ≤ key n → contents_map l !! k = reading k n.
Proof.
  intros Hwf He Hb Hn Hk. destruct (edge_place _ _ _ _ _ Hwf He Hb) as (l1 & l2 & -> & _ & <- & Hbelow).
  unfold contents_map, reading. rewrite fmap_app. destruct (is_end n) eqn:Hend; simpl.
  { apply to_map_none; [done|]. eapply (place_above m k l1 l2 n); eauto. }
  destruct Hk as [?|Hk]; [done|]. destruct (Z.ltb_spec k (key n)); simpl.
  { apply to_map_none; [done|]. eapply (place_above m k l1 l2 n); eauto. }
  destruct (place_at _ _ _ _ Hwf Hn Hend) as (b & l3 & ->). pose proof (wf_sorted _ _ Hwf) as Hs.
  rewrite fmap_app in Hs. simpl in *. assert (key n = k) as Hkk by lia. rewrite Hkk in *. by apply to_map_some.
Qed.

(** *** Linking a node in, and unlinking one *)
Lemma edge_app_inv l1 l2 a b : edge (l1 ++ l2) a b →
  (∃ x y, l2 = x ++ y ∧ tail_node (l1 ++ x) = a ∧ head_node y = b) ∨
  (∃ x y, l1 = x ++ y ∧ y ≠ [] ∧ tail_node x = a ∧ head_node y = b).
Proof.
  intros (x & y & Heq & Hx & Hy). apply app_eq_inv in Heq as [(z & -> & ->)|(z & -> & ->)].
  - destruct z as [|c z]; [left; exists [], l2; by rewrite !app_nil_r|right]. exists x, (c :: z). eauto.
  - left. eauto.
Qed.

(** the links of the nodes [l] *)
Definition linked m l : Prop := ∀ a b, edge l a b → next <$> m !! a = Some b.

(** the nodes before a place, and after it, when its node is given another
    successor *)
Lemma linked_before m l1 l2 n x y : NoDup (members (l1 ++ l2)) → linked m (l1 ++ l2) →
  l1 = x ++ y → y ≠ [] → next <$> (<[tail_node l1 := n]> m) !! tail_node x = Some (head_node y).
Proof.
  intros Hnd Hl -> Hy. assert (tail_node (x ++ y) ≠ tail_node x) as Hne.
  { rewrite tail_app by done. intros Heq. rewrite !members_app in Hnd.
    apply NoDup_app in Hnd as ((_ & Hnd & _)%NoDup_app & _).
    apply (Hnd (tail_node x)); [apply tail_member|]. rewrite <-Heq. by apply tail_in. }
  rewrite lookup_insert_ne by done. apply Hl. exists x, (y ++ l2). rewrite <-app_assoc.
  split; [done|]. split; [done|]. by apply head_app.
Qed.
Lemma linked_after m l1 l2 n x y : NoDup (members (l1 ++ l2)) → linked m (l1 ++ l2) →
  l2 = x ++ y → x ≠ [] → next <$> (<[tail_node l1 := n]> m) !! tail_node x = Some (head_node y).
Proof.
  intros Hnd Hl -> Hx. assert (tail_node l1 ≠ tail_node x) as Hne.
  { intros Heq. rewrite members_app in Hnd. apply NoDup_app in Hnd as (_ & Hnd & _).
    apply (Hnd (tail_node l1)); [apply tail_member|]. rewrite Heq, fmap_app. apply elem_of_app.
    left. by apply tail_in. }
  rewrite lookup_insert_ne by done. apply Hl. exists (l1 ++ x), y. rewrite <-app_assoc.
  split; [done|]. split; [by apply tail_app|done].
Qed.

Lemma linked_insert m l1 l2 p kv n : NoDup (members (l1 ++ l2)) → linked m (l1 ++ l2) →
  next <$> m !! p = Some (head_node l2) → (p ∉ members (l1 ++ l2)) → next n = p →
  linked (<[tail_node l1 := n]> m) (l1 ++ (p, kv) :: l2).
Proof.
  intros Hnd Hl Hp Hpm Hn a b [(x & y & Heq & <- & <-)|(x & y & -> & Hy & <- & <-)]%edge_app_inv.
  2: { by eapply linked_before. }
  destruct x as [|[q kvq] x].
  { simpl in Heq. subst y. rewrite app_nil_r, lookup_insert_eq. simpl. by rewrite Hn. }
  injection Heq as <- <- ->. rewrite tail_app by done. destruct x as [|c x].
  - rewrite lookup_insert_ne; [done|]. intros Heq. apply Hpm. rewrite members_app. apply elem_of_app.
    left. change (tail_node [(p, kv)]) with p in Heq. rewrite <-Heq. apply tail_member.
  - change ((p, kv) :: c :: x) with ([(p, kv)] ++ c :: x). rewrite tail_app by done. by eapply linked_after.
Qed.

Lemma linked_delete m l1 l2 p kv n : NoDup (members (l1 ++ (p, kv) :: l2)) →
  linked m (l1 ++ (p, kv) :: l2) → next n = head_node l2 →
  linked (<[tail_node l1 := n]> m) (l1 ++ l2).
Proof.
  intros Hnd Hl Hn a b [(x & y & Heq & <- & <-)|(x & y & -> & Hy & <- & <-)]%edge_app_inv.
  2: { by eapply linked_before. }
  destruct x as [|c x].
  - simpl in Heq. subst y. rewrite app_nil_r, lookup_insert_eq. simpl. by rewrite Hn.
  - rewrite tail_app by done. rewrite <-(tail_app [(p, kv)]) by done.
    eapply linked_after; [exact Hnd|exact Hl| |done]. by rewrite Heq.
Qed.
End path.

(** ** The invariant of the nodes *)
Section shape.
Context (root e : Z).
#[local] Abbreviation contents := (list (Z * (Z * Z))).
#[local] Abbreviation hist := (hist dict_command answer contents).
#[local] Abbreviation edge := (edge root e).
#[local] Abbreviation members := (members root).
#[local] Abbreviation well_formed := (well_formed root e).
#[local] Abbreviation linked := (linked root e).
#[local] Abbreviation persists := (MapConc.persists same_node).
Implicit Types (m : gmap Z node) (g : hist) (l : contents).

(** The list is linked as it should be; every node that a thread may stand on
    leads to a node that was next to it in a list that the thread has seen,
    and is in the list still unless it is marked. *)
Record shape m g : Prop := {
  sh_now : well_formed m (now g);
  sh_linked : linked m (now g);
  sh_seen : ∀ i l, seen g i l → well_formed m l ∧ seen g i (now g);
  sh_next : ∀ i l a n, seen g i l → a ∈ members l → m !! a = Some n →
    ∃ l', seen g i l' ∧ edge l' a (next n);
  sh_gone : ∀ i l a n, seen g i l → a ∈ members l → m !! a = Some n → removed n = false →
    a ∈ members (now g);
}.

Lemma linked_edge m l a n : linked m l → a ∈ members l → m !! a = Some n → edge l a (next n).
Proof.
  intros Hl Ha Hn. destruct (edge_from root e l a Ha) as [b Hb]. pose proof (Hl a b Hb) as Hab.
  rewrite Hn in Hab. simpl in Hab. congruence.
Qed.

Lemma shape_reseen m g g' : shape m g → reseen g g' → shape m g'.
Proof.
  intros [H1 H2 H3 H4 H5] [Hn Hs].
  assert (∀ i l, seen g' i l → (∀ x, seen g' i x ↔ seen g i x) ∨ l = now g ∧ ∀ x, seen g' i x ↔ x = now g) as Hcase.
  { intros i l Hl. destruct (Hs i) as [H|[H|H]]; [by left|right; split; [by apply H|done]|by apply H in Hl]. }
  split; rewrite ?Hn; [done|done| | |].
  - intros i l Hl. destruct (Hcase i l Hl) as [H|[-> H]]; [rewrite !H in *; auto|]. by rewrite H.
  - intros i l a n Hl Ha Hm. destruct (Hcase i l Hl) as [H|[-> H]].
    + destruct (H4 i l a n) as (l' & ? & ?); [by apply H|done|done|]. exists l'. by rewrite H.
    + exists (now g). split; [by apply H|]. by eapply linked_edge.
  - intros i l a n Hl Ha Hm Hr. destruct (Hcase i l Hl) as [H|[-> H]]; [|done].
    apply (H5 i l a n); [by apply H|done..].
Qed.

Lemma shape_allocated m g p : shape m g → visible members g p → is_Some (m !! p).
Proof.
  intros Hsh Hv. assert (∃ l, well_formed m l ∧ p ∈ members l) as (l & Hwf & Hp).
  { destruct Hv as [Hp|(i & l & Hl & Hp)]; [exists (now g)|exists l]; split; try done; [apply Hsh|].
    by apply (sh_seen _ _ Hsh i l). }
  destruct (wf_member _ _ _ _ _ Hwf Hp) as (n & Hn & _). by exists n.
Qed.

(** links and marks that stay as they are *)
Definition same_links m m' (a : Z) : Prop := ∀ n', m' !! a = Some n' →
  ∃ n, m !! a = Some n ∧ next n' = next n ∧ (removed n' = false → removed n = false).

Lemma shape_same m m' g : shape m g → persists m m' →
  (∀ a, visible members g a → same_links m m' a) → shape m' g.
Proof.
  intros Hsh Hp Hs. pose proof Hsh as [H1 H2 H3 H4 H5].
  assert (∀ l, well_formed m l → well_formed m' l) as Hwf by (intros l; by apply wf_persists).
  split; [by apply Hwf| | | |].
  - intros a b Hab. pose proof (edge_source _ _ _ _ _ Hab) as Ha.
    destruct (wf_member _ _ _ _ _ (Hwf _ H1) Ha) as (n' & Hn' & _). rewrite Hn'.
    destruct (Hs a (or_introl Ha) n' Hn') as (n & Hn & Hnx & _).
    specialize (H2 a b Hab). rewrite Hn in H2. simpl in *. congruence.
  - intros i l Hl. destruct (H3 i l Hl). auto.
  - intros i l a n' Hl Ha Hn'. destruct (Hs a) with n' as (n & Hn & Hnx & _); [right; eauto|done|].
    rewrite Hnx. by apply (H4 i l a).
  - intros i l a n' Hl Ha Hn' Hr. destruct (Hs a) with n' as (n & Hn & _ & Hr'); [right; eauto|done|].
    apply (H5 i l a n); auto.
Qed.

Lemma shape_grow m g p n : shape m g → m !! p = None → shape (<[p := n]> m) g.
Proof.
  intros Hsh Hp. apply (shape_same m); [done|exact (persists_new same_node m p n Hp)|].
  intros a Ha n'. destruct (shape_allocated _ _ _ Hsh Ha) as [o Ho].
    rewrite lookup_insert_ne by congruence. eauto.
Qed.

(** an update that changes the list to [l'] *)
Lemma shape_commit {A} (sem : dict_command → A → answer * A) value v0 log m m' g i l' :
  hist_ok sem value v0 log g → shape m g → persists m m' → well_formed m' l' → linked m' l' →
  (∀ a, visible members g a → (a ∉ members l') → same_links m m' a) →
  (∀ a n', visible members g a → m' !! a = Some n' → removed n' = false →
     (∃ n, m !! a = Some n ∧ removed n = false) ∧ (a ∈ members (now g) → a ∈ members l')) →
  shape m' (committed sem v0 i l' g).
Proof.
  intros Hg Hsh Hp Hwf Hlk Hs Hgone. pose proof Hsh as [H1 H2 H3 H4 H5].
  split; simpl; [done|done| | |].
  - intros j l [Hj [Hl|[-> Hc]]]; [|by split; [|split; [|right]]].
    split; [by eapply wf_persists; [|apply (H3 j l)]|]. split; [done|]. right. split; [done|].
    by apply (seen_pending _ _ _ _ _ _ _ Hg Hl).
  - intros j l a n' [Hj Hl] Ha Hn'. assert (∃ c, doing sem v0 g j = Some (Pending c)) as Hc.
    { destruct Hl as [Hl|[_ Hc]]; [by apply (seen_pending _ _ _ _ _ _ _ Hg Hl)|done]. }
    destruct (decide (a ∈ members l')) as [Ha'|Ha'].
    { exists l'. split; [split; [done|by right]|]. by eapply linked_edge. }
    destruct Hl as [Hl|[-> _]]; [|done].
    destruct (Hs a) with n' as (n & Hn & -> & _); [right; eauto|done|done|].
    destruct (H4 j l a n Hl Ha Hn) as (l2 & ? & ?). exists l2. split; [split; [done|by left]|done].
  - intros j l a n' [Hj [Hl|[-> _]]] Ha Hn' Hr; [|done].
    destruct (Hgone a n') as [(n & Hn & Hrn) Hin]; [right; eauto|done|done|].
    apply Hin. by apply (H5 j l a n).
Qed.
End shape.

(** *** What the two kinds of update do to the list *)
Section updates.
Context (root e : Z) (M0 : gmap Z Z).
#[local] Abbreviation contents := (list (Z * (Z * Z))).
#[local] Abbreviation hist := (hist dict_command answer contents).
#[local] Abbreviation edge := (edge root e).
#[local] Abbreviation members := (members root).
#[local] Abbreviation shape := (shape root e).
#[local] Abbreviation hist_ok := (hist_ok meaning contents_map M0).
#[local] Abbreviation doing := (doing meaning M0).
#[local] Abbreviation committed := (committed meaning M0).
Implicit Types (m : gmap Z node) (g : hist) (l : contents).

Definition set_next (x : Z) (n : node) : node := mkNode x (key n) (value n) (is_end n) (removed n).
(** under its lock an unmarked node is in the list, at its place *)
Lemma place_now m g i l cur nxt k nc : shape m g → seen g i l → edge l cur nxt →
  before root m k cur → m !! cur = Some nc → removed nc = false → next nc = nxt →
  cur ∈ members (now g) ∧ ∃ l1 l2, now g = l1 ++ l2 ∧ tail_node root l1 = cur ∧ head_node e l2 = nxt ∧ below k l1.*2.
Proof.
  intros Hsh Hl He Hb Hcur Hrm Hnx. pose proof (edge_source _ _ _ _ _ He) as Hin.
  pose proof (sh_gone _ _ _ _ Hsh i l cur nc Hl Hin Hcur Hrm) as Hnow. split; [done|].
  apply (edge_place root e m); [apply Hsh| |done]. rewrite <-Hnx.
  by eapply linked_edge; [apply Hsh|..].
Qed.

(** a node linked in at the place of its key *)
Lemma insert_commit m g log i l cur nxt k v nc n p : hist_ok log g → shape m g →
  doing g i = Some (Pending (Insert k v)) → seen g i l → edge l cur nxt → before root m k cur →
  m !! nxt = Some n → is_end n = true ∨ k < key n →
  m !! cur = Some nc → removed nc = false → next nc = nxt →
  ¬ visible members g p → m !! p = Some (mkNode nxt k v false false) →
  ∃ l', hist_ok log (committed i l' g) ∧ doing (committed i l' g) i = Some (Done (AInsert true)) ∧
    (∀ j, j ≠ i → kept meaning M0 j g (committed i l' g)) ∧
    shape (<[cur := set_next p nc]> m) (committed i l' g) ∧
    cur ∈ members l' ∧ ∀ q, q ∈ members l' ↔ q = p ∨ q ∈ members (now g).
Proof.
  intros Hg Hsh Hd Hl He Hb Hn Hk Hcur Hrm Hnx Hp Hpn.
  destruct (place_now m g i l cur nxt k nc Hsh Hl He Hb Hcur Hrm Hnx) as (Hcn & l1 & l2 & Heq & Htail & Hhead & Hbelow).
  pose proof Hsh as [Hwf Hlk _ _ _]. rewrite Heq in Hwf, Hlk, Hcn.
  assert (above k l2.*2) as Habove by (eapply (place_above root e m k l1 l2 n); [done|by rewrite Hhead|done]).
  assert (p ∉ members (l1 ++ l2)) as Hpm by (intros ?; apply Hp; left; by rewrite Heq).
  set (l' := l1 ++ (p, (k, v)) :: l2).
  assert (∀ q, q ∈ members l' ↔ q = p ∨ q ∈ members (l1 ++ l2)) as Hmem.
  { intros q. unfold l'. rewrite !members_app, !elem_of_app, fmap_cons, elem_of_cons. cbn [fst]. tauto. }
  pose proof (wf_sorted _ _ _ _ Hwf) as Hsort. rewrite fmap_app in Hsort.
  assert (sorted l'.*2) as Hsort' by (unfold l'; rewrite fmap_app; by apply sorted_insert).
  assert (meaning (Insert k v) (contents_map (now g)) = (AInsert true, contents_map l')) as Hsem.
  { unfold contents_map, l' in *. rewrite Heq, !fmap_app. simpl. rewrite to_map_none by done.
    rewrite fmap_app in Hsort'. simpl in Hsort'. by rewrite to_map_insert. }
  destruct (hist_commit meaning contents_map M0 log g i _ _ l' Hg Hd Hsem) as (Hg' & Hd' & Hk').
  assert (MapConc.persists same_node m (<[cur := set_next p nc]> m)) as Hper by (apply (persists_insert same_node m cur nc _ Hcur); by split).
  exists l'. split; [done|]. split; [done|]. split; [done|]. split; [|split; [apply Hmem; by right|by rewrite Heq]].
  assert (p ≠ cur) as Hpc by (intros ->; done).
  eapply shape_commit; [exact Hg|exact Hsh|exact Hper| | | |].
  - destruct (wf_persists _ _ _ _ _ Hper Hwf) as [H1 _ H3 H4 H5]. split; [|done| |done|done].
    + unfold l'. rewrite members_app, fmap_cons. cbn [fst]. rewrite <-Permutation_middle, <-members_app.
      by apply NoDup_cons.
    + intros a k' v' [Hin|[[= -> -> ->]|Hin]%elem_of_cons]%elem_of_app.
      * apply H3. apply elem_of_app. by left.
      * exists (mkNode nxt k v false false). by rewrite lookup_insert_ne.
      * apply H3. apply elem_of_app. by right.
  - rewrite <-Htail. apply linked_insert; [apply Hwf|done| |done|done].
    rewrite Hpn. simpl. by rewrite Hhead.
  - intros a _ Ha n' Hn'. rewrite lookup_insert_ne in Hn' by (intros ->; apply Ha, Hmem; by right). eauto.
  - intros a n' _ Hn' Hr. split; [|intros ?; apply Hmem; right; by rewrite <-Heq].
    destruct (decide (a = cur)) as [->|Hne]; [by exists nc|].
    rewrite lookup_insert_ne in Hn' by done. by exists n'.
Qed.

(** a marked node unlinked *)
Lemma remove_commit m g log i l cur nxt k nc nn : hist_ok log g → shape m g →
  doing g i = Some (Pending (Remove k)) → seen g i l → edge l cur nxt → before root m k cur →
  m !! nxt = Some nn → is_end nn = false → key nn = k → removed nn = true →
  m !! cur = Some nc → removed nc = false → next nc = nxt →
  ∃ l', hist_ok log (committed i l' g) ∧ doing (committed i l' g) i = Some (Done (ARemove true)) ∧
    (∀ j, j ≠ i → kept meaning M0 j g (committed i l' g)) ∧
    shape (<[cur := set_next (next nn) nc]> m) (committed i l' g) ∧
    cur ∈ members l' ∧ (nxt ∉ members l') ∧ ∀ q, q ∈ members (now g) ↔ q = nxt ∨ q ∈ members l'.
Proof.
  intros Hg Hsh Hd Hl He Hb Hn Hend Hk Hrn Hcur Hrm Hnx.
  destruct (place_now m g i l cur nxt k nc Hsh Hl He Hb Hcur Hrm Hnx) as (Hcn & l1 & l2 & Heq & Htail & Hhead & _).
  pose proof Hsh as [Hwf Hlk _ _ _]. rewrite Heq in Hwf, Hlk.
  destruct (place_at root e m l1 l2 nn Hwf) as (b & l3 & ->); [by rewrite Hhead|done|].
  unfold head_node in Hhead; simpl in Hhead. subst b. rewrite Hk in *.
  set (l' := l1 ++ l3).
  assert (∀ q, q ∈ members (now g) ↔ q = nxt ∨ q ∈ members l') as Hmem.
  { intros q. unfold l'. rewrite Heq, !members_app, !elem_of_app, fmap_cons, elem_of_cons. cbn [fst]. tauto. }
  pose proof (wf_nodup _ _ _ _ Hwf) as Hnd. rewrite members_app, fmap_cons in Hnd. cbn [fst] in Hnd.
  rewrite <-Permutation_middle, <-members_app in Hnd. apply NoDup_cons in Hnd as [Hnot Hnd]. fold l' in Hnot, Hnd.
  assert (cur ∈ members l') as Hcl.
  { rewrite <-Htail. unfold l'. rewrite members_app. apply elem_of_app. left. apply tail_member. }
  assert (cur ≠ nxt) as Hne by (intros ->; done).
  pose proof (wf_sorted _ _ _ _ Hwf) as Hsort. rewrite fmap_app in Hsort. simpl in Hsort.
  assert (meaning (Remove k) (contents_map (now g)) = (ARemove true, contents_map l')) as Hsem.
  { unfold contents_map, l'. rewrite Heq, !fmap_app. simpl. rewrite to_map_some by done.
    by rewrite to_map_delete. }
  destruct (hist_commit meaning contents_map M0 log g i _ _ l' Hg Hd Hsem) as (Hg' & Hd' & Hk').
  assert (MapConc.persists same_node m (<[cur := set_next (next nn) nc]> m)) as Hper by (apply (persists_insert same_node m cur nc _ Hcur); by split).
  exists l'. do 3 (split; [done|]). split; [|done].
  eapply shape_commit; [exact Hg|exact Hsh|exact Hper| | | |].
  - destruct (wf_persists _ _ _ _ _ Hper Hwf) as [_ _ H3 H4 H5]. split; [done| | |done|done].
    + unfold l'. rewrite fmap_app. by apply sorted_delete in Hsort as [? _].
    + intros a k' v' [Hin|Hin]%elem_of_app; apply H3; apply elem_of_app; [by left|right; by right].
  - rewrite <-Htail. eapply linked_delete; [apply Hwf|exact Hlk|]. simpl.
    assert (edge (now g) nxt (head_node e l3)) as Hed.
    { exists (l1 ++ [(nxt, (k, value nn))]), l3. rewrite Heq, <-app_assoc. split; [done|]. by rewrite tail_snoc. }
    rewrite Heq in Hed. apply Hlk in Hed. rewrite Hn in Hed. simpl in Hed. congruence.
  - intros a _ Ha n' Hn'. rewrite lookup_insert_ne in Hn' by (intros ->; done). eauto.
  - intros a n' _ Hn' Hr. destruct (decide (a = cur)) as [->|Hac].
    { split; [by exists nc|done]. }
    rewrite lookup_insert_ne in Hn' by done. split; [by exists n'|].
    intros [->|?]%Hmem; [|done]. congruence.
Qed.
End updates.

(** ** The operations *)
Section conc.
Context (alloc : gmap Z node → Z) {fresh : Allocator alloc}.
Context (threads : nat) (threads_fit : Z.of_nat threads ≤ 2 ^ 16 - 1) (root e : Z) (M0 : gmap Z Z).
#[local] Abbreviation contents := (list (Z * (Z * Z))).
#[local] Abbreviation hist := (hist dict_command answer contents).
#[local] Abbreviation config :=
  (world (store_state node) (event dict_command answer) * (hist * (nat → list Z)))%type.
Implicit Types (σ : config) (l : contents) (g : hist).

#[local] Abbreviation life := same_node.
#[local] Abbreviation shape := (shape root e).
#[local] Abbreviation shape_reseen := (shape_reseen root e).
#[local] Abbreviation members := (members root).
#[local] Abbreviation list_object := (map_object threads same_node removed members members shape shape_reseen).
#[local] Abbreviation oht := (Linear.oht meaning contents_map M0 list_object only_fuel).
#[local] Abbreviation stable := (Conc.stable (linear meaning contents_map M0 list_object)).
#[local] Abbreviation linear_inv := (Linear.linear_inv meaning contents_map M0 list_object).
#[local] Abbreviation linear_own := (Linear.linear_own meaning M0 list_object).
#[local] Abbreviation holds := (StoreConc.holds threads).
#[local] Abbreviation in_scope := (StoreConc.in_scope threads).
#[local] Abbreviation in_section := (StoreConc.in_section threads removed members).
#[local] Abbreviation guarded :=
  (StoreConc.guarded threads same_node removed members members shape shape_reseen meaning contents_map M0).
#[local] Abbreviation pending := (MapConc.pending M0).
#[local] Abbreviation working := (MapConc.working threads same_node removed members members shape shape_reseen M0).
#[local] Abbreviation knows := (MapConc.knows contents_map).
#[local] Abbreviation reads := (MapConc.reads same_node).
#[local] Abbreviation base := (MapConc.base M0).
#[local] Abbreviation outcome := (MapConc.outcome M0).
#[local] Abbreviation finished := (MapConc.finished threads same_node removed members members shape shape_reseen contents_map M0).
#[local] Abbreviation persists := (MapConc.persists same_node).

(** thread [i] came to [nxt] from [cur], with [cur] below [k] *)
Definition around (i : nat) (k cur nxt : Z) σ : Prop :=
  ∃ l, seen σ.2.1 i l ∧ edge root e l cur nxt ∧ before root (nodes (mem σ.1)) k cur.
(** the search stops at the node [n] *)
Definition stops (k : Z) (n : node) : Prop := is_end n = true ∨ k ≤ key n.
(** [x] was after [p], unless [p] is the end *)
Definition onwards (i : nat) (p x : Z) σ : Prop :=
  ∃ n, nodes (mem σ.1) !! p = Some n ∧ (is_end n = true ∨ ∃ l, seen σ.2.1 i l ∧ edge root e l p x).

Lemma stable_around i k cur nxt : stable i (around i k cur nxt).
Proof.
  intros σ σ' (l & Hl & He & Hb) _ Ho. exists l. split; [exact (own_seen _ _ _ _ Ho Hl)|]. split; [done|].
  eapply before_persists; [exact (own_persists _ _ _ Ho)|done].
Qed.
Lemma stable_onwards i p x : stable i (onwards i p x).
Proof.
  intros σ σ' (n & Hn & Hs) _ Ho. destruct (own_persists _ _ _ Ho p n Hn) as (n2 & ? & ? & ? & Hend).
  exists n2. split; [done|]. destruct Hs as [?|(l & Hl & ?)]; [left; congruence|right].
  exists l. split; [exact (own_seen _ _ _ _ Ho Hl)|done].
Qed.
#[local] Hint Resolve stable_around stable_onwards : stab.

(** where a thread is, memory is *)
Lemma seen_wf i l σ : linear_inv σ → seen σ.2.1 i l → well_formed root e (nodes (mem σ.1)) l.
Proof. intros Hc Hl. by destruct (sh_seen _ _ _ _ (inv_shape _ Hc) i l Hl). Qed.
Lemma around_node i k cur nxt σ : linear_inv σ → around i k cur nxt σ →
  ∃ n, nodes (mem σ.1) !! nxt = Some n.
Proof. intros Hc (l & Hl & He & _). destruct (edge_allocated root e _ l _ _ (seen_wf _ _ _ Hc Hl) He) as [n Hn]. eauto. Qed.
Lemma around_knows i k cur nxt n σ : linear_inv σ → around i k cur nxt σ →
  nodes (mem σ.1) !! nxt = Some n → stops k n → knows i k (reading k n) σ.
Proof.
  intros Hc (l & Hl & He & Hb) Hn Hs. exists l. split; [done|].
  eapply edge_lookup; [by eapply seen_wf|done..].
Qed.

(** *** Searching *)
Lemma oht_next i c k cur nxt : oht i (λ σ, working i c σ ∧ around i k cur nxt σ) (load (next_c nxt))
  (λ x σ, (working i c σ ∧ around i k cur nxt σ) ∧ onwards i nxt x σ).
Proof.
  apply oht_read; [auto with stab|]. intros σ Hc [Hw Ha].
  destruct (around_node _ _ _ _ _ Hc Ha) as [n Hn]. exists n, (next n). split; [done|]. split; [done|].
  split; [done|]. exists n. split; [done|]. destruct (is_end n) eqn:Hend; [by left|right].
  destruct Ha as (l & Hl & He & _). pose proof (seen_wf _ _ _ Hc Hl) as Hwf.
  destruct (sh_next _ _ _ _ (inv_shape _ Hc) i l nxt n Hl) as (l' & ? & ?); [|done|by exists l'].
  right. by eapply edge_target.
Qed.

(** where a search has stopped *)
Definition located (i : nat) (c : dict_command) (k : Z) (p : Z * Z) σ : Prop :=
  working i c σ ∧ around i k p.1 p.2 σ ∧ ∃ n, nodes (mem σ.1) !! p.2 = Some n ∧ stops k n.
Lemma stable_located i c k p : stable i (located i c k p).
Proof.
  intros σ σ' (Hw & Ha & n & Hn & Hs) Hc Ho. split; [by eapply stable_working|].
  split; [by eapply stable_around|]. destruct (own_persists _ _ _ Ho _ n Hn) as (n' & Hn' & Hk & _ & He).
  exists n'. split; [done|]. unfold stops. by rewrite Hk, He.
Qed.

Lemma find_location_spec i c fuel k :
  oht i (working i c) (find_location fuel root k) (located i c k).
Proof.
  unfold find_location.
  apply (oht_bind _ _ _ _ _ _ _ _ _ (λ nxt σ, working i c σ ∧ around i k root nxt σ)).
  { apply oht_read; [auto with stab|]. intros σ Hc Hw. pose proof (inv_shape _ Hc) as Hsh.
    destruct (wf_root _ _ _ _ (sh_now _ _ _ _ Hsh)) as (n & Hn & _). exists n, (next n).
    split; [done|]. split; [done|]. split; [done|]. exists (now σ.2.1).
    split; [eapply pending_seen; [done|apply Hw]|]. split; [|by left].
    eapply linked_edge; [apply Hsh|by left|done]. }
  intros nxt. refine (oht_iter _ _ _ _ _ _ (λ p σ, working i c σ ∧ around i k p.1 p.2 σ) _ _ _ _ fuel (root, nxt)); [done|].
  clear nxt. intros [cur nxt]. cbn [fst snd]. eapply oht_bind; [apply oht_next|]. intros x.
  apply (oht_bind _ _ _ _ _ _ _ _ _ (λ n σ, ((working i c σ ∧ around i k cur nxt σ) ∧ onwards i nxt x σ) ∧
    nodes (mem σ.1) !! nxt = Some n)).
  { apply oht_read; [auto with stab|]. intros σ Hc H. destruct (around_node i k cur nxt σ Hc) as [n Hn]; [apply H|].
    exists n, n. split; [done|]. split; [done|]. split; [exact H|exact Hn]. }
  intros n. apply oht_ret. intros σ [[[Hw Ha] (n' & Hn' & Ho)] Hn]. assert (n' = n) as -> by congruence.
  destruct (is_end n) eqn:Hend; simpl.
  { split; [done|]. split; [done|]. exists n. split; [done|by left]. }
  destruct (Z.ltb_spec (key n) k); simpl; [|split; [done|]; split; [done|]; exists n; split; [done|by right]].
  split; [done|]. destruct Ho as [?|(l & Hl & He)]; [congruence|]. exists l. split; [done|]. split; [done|].
  right. eauto.
Qed.

(** reading the node found *)
Definition found (i : nat) (k cur nxt : Z) (n : node) σ : Prop :=
  (around i k cur nxt σ ∧ reads nxt n σ) ∧ knows i k (reading k n) σ.
Lemma stable_found i k cur nxt n : stable i (found i k cur nxt n).
Proof. unfold found. auto with stab. Qed.
#[local] Hint Resolve stable_found : stab conc.

Lemma node_spec i c k cur nxt :
  oht i (located i c k (cur, nxt)) (load (node_c nxt)) (λ n σ, stops k n ∧ working i c σ ∧ found i k cur nxt n σ).
Proof.
  apply oht_read; [apply stable_located|].
  intros σ Hc (Hw & Ha & n & Hn & Hs). exists n, n. split; [done|]. split; [done|]. split; [done|].
  split; [done|]. split; [split; [done|]; exists n; split; [done|reflexivity]|]. by eapply around_knows.
Qed.

Lemma find_spec i fuel k :
  oht i (working i (Find k)) (find_ fuel root k)
    (λ r σ, working i (Find k) σ ∧ knows i k r σ).
Proof.
  unfold find_. eapply oht_bind; [apply find_location_spec|]. intros [cur nxt]. cbn [fst snd].
  eapply oht_bind; [apply node_spec|]. intros n. apply oht_ret. intros σ (_ & Hw & _ & Hk). done.
Qed.

(** *** Updates *)
Lemma lockless_found i k cur nxt n : lockless (found i k cur nxt n).
Proof. intros w w' γ Hn. unfold found, around, reads, knows. simpl. by rewrite Hn. Qed.

(** where an update stands, there is a node that can be locked *)
Lemma around_visible i k cur nxt σ : linear_inv σ → around i k cur nxt σ →
  is_Some (nodes (mem σ.1) !! cur) ∧ StoreConc.visible members σ.2.1 cur.
Proof.
  intros Hc (l & Hl & He & _). pose proof (edge_source _ _ _ _ _ He) as Hin.
  destruct (wf_member _ _ _ _ _ (seen_wf _ _ _ Hc Hl) Hin) as (n & Hn & _). split; [by exists n|]. right. eauto.
Qed.
Lemma around_next i k cur nxt n σ : linear_inv σ → around i k cur nxt σ →
  nodes (mem σ.1) !! nxt = Some n → is_end n = false → StoreConc.visible members σ.2.1 nxt.
Proof.
  intros Hc (l & Hl & He & _) Hn Hend. right. exists i, l. split; [done|]. right.
  by eapply edge_target; [eapply seen_wf|..].
Qed.

Lemma monotone_found i k cur nxt n : MapConc.monotone same_node (found i k cur nxt n).
Proof.
  apply monotone_and; [apply monotone_and; [|apply (monotone_reads same_node)]|apply monotone_knows].
  intros w w' g x x' H (l & Hl & He & Hb). exists l. split; [done|]. split; [done|]. by eapply before_persists.
Qed.

(** what a thread knows of a node that it has made *)
Lemma own_new_node i c k v cur nxt n nc :
  oht i (in_section i cur [] (λ σ, (base i c σ ∧ found i k cur nxt n σ) ∧ node_is cur nc σ))
    (new_node alloc k v nxt)
    (λ p, in_section i cur [] (λ σ, ((pending i c σ ∧ found i k cur nxt n σ) ∧ node_is cur nc σ) ∧
       owns i [p] σ ∧ node_is p (mkNode nxt k v false false) σ)).
Proof.
  eapply oht_weaken; [apply (oht_new_held threads_fit alloc i cur []
    (λ σ, (pending i c σ ∧ found i k cur nxt n σ) ∧ node_is cur nc σ) [])| |].
  - done.
  - apply shape_allocated.
  - intros. by apply shape_grow.
  - apply guarded_and; [|apply guarded_stable, stable_owns]. apply guarded_and; [|by apply guarded_node; left].
    apply guarded_stable, stable_and; [apply stable_pending|apply stable_found].
  - apply growing_and; [|apply growing_node].
    apply (monotone_growing same_node), monotone_and; [apply monotone_pending|apply monotone_found].
  - intros σ _ [[[[[Hp Ho] Hf] Hn] Hcl] Hh]. by split; [split|].
  - intros p σ _ [[[[H _] Ho] Hcl] Hh]. by split; [split|].
Qed.

(** linking the node *)
Lemma link_spec i k v cur nxt n nc p : is_end n = true ∨ k < key n → removed nc = false → next nc = nxt →
  oht i (in_section i cur [] (λ σ, ((pending i (Insert k v) σ ∧ found i k cur nxt n σ) ∧ node_is cur nc σ) ∧
           owns i [p] σ ∧ node_is p (mkNode nxt k v false false) σ))
    (store (next_c cur) p) (λ _, in_section i cur [] (outcome i (Insert k v) (AInsert true) true)).
Proof.
  intros Hk Hrm Hnx. apply (oht_write threads threads_fit).
  { apply in_section_stable. apply guarded_and; [|apply guarded_private; by left].
    apply guarded_and; [|by apply guarded_node; left].
    apply guarded_stable, stable_and; [apply stable_pending|apply stable_found]. }
  intros w g x Hc [[[[[Hp [[(l & Hl & He & Hb) (n' & Hn' & Hs)] _]] Hcur] [Hx Hpn]] Hcl] Hh].
  pose proof (inv_shape _ Hc) as Hsh. destruct Hc as [Hg Hin]. unfold node_is, owns in *. simpl in *.
  assert (is_end n' = true ∨ k < key n') as Hk' by (destruct Hs as (E1 & _ & E3); rewrite E1, E3; done).
  assert (p ∈ x i) as Hxp by (rewrite Hx; by left).
  destruct (ci_private _ _ _ _ _ _ _ _ Hin i p Hxp) as (_ & Hpv & Hev & _).
  destruct (insert_commit root e M0 (nodes (mem w)) g (log w) i l cur nxt k v nc n' p) as
    (l' & Hg' & Hd' & Hk'' & Hsh' & Hcl' & Hmem); [done..|].
  assert (locked_by threads (mem w) cur i) as Hlk by (apply (Hh cur); by left).
  exists nc, (next nc). split; [done|]. split; [done|]. split; [done|]. split; [done|].
  exists (committed meaning M0 i l' g), (λ j, if decide (j = i) then [] else x j).
  split; [done|]. split; [done|]. split; [done|]. split; [split; simpl|].
  - intros j Hj. by rewrite decide_False.
  - intros q. rewrite decide_True by done. by intros ?%elem_of_nil.
  - intros q Hq. left. apply Hmem. by right.
  - intros q [->|?]%Hmem; [right|by left]. split; [done|]. intros o Ho. rewrite Hpn in Ho. by injection Ho as <-.
  - intros q [[->|Hq]%Hmem|Hq]%visible_committed; [right|left; by left|by left].
    split; [done|]. rewrite decide_True by done. apply not_elem_of_nil.
  - intros w' Hn Hlocks. split; [split; [split; [done|]|]|].
    + unfold owns. simpl. by rewrite decide_True.
    + intros o _ Ho. simpl in Ho. rewrite Hn, lookup_insert_eq in Ho. by injection Ho as <-.
    + by eapply holds_same_locks.
Qed.

(** the critical section of an insert *)
Lemma insert_section i k v cur nxt n : is_end n = true ∨ k < key n →
  oht i (in_section i cur [] (λ σ, base i (Insert k v) σ ∧ found i k cur nxt n σ))
    (r ← load (removed_c cur);
     x ← (if negb (r : bool) then load (next_c cur) else mret 0);
     if negb r && (x =? nxt) then
       n ← new_node alloc k v nxt;
       store (next_c cur) n ;;
       mret true
     else mret false)
    (λ b, in_section i cur [] (outcome i (Insert k v) (AInsert true) b)).
Proof.
  intros Hk. set (c := Insert k v). set (P σ := base i c σ ∧ found i k cur nxt n σ).
  assert (guarded i [cur] P) as HgP by (apply guarded_stable, stable_and; [apply stable_base|apply stable_found]).
  assert (∀ σ, P σ → base i c σ) as HPb by (by intros σ [? _]).
  assert (∀ σ, linear_inv σ → P σ → is_Some (nodes (mem σ.1) !! cur)) as Hsome.
  { intros σ Hc (_ & [Ha _] & _). by destruct (around_visible _ _ _ _ _ Hc Ha). }
  assert (guarded i [cur] (λ σ, P σ ∧ clean removed members cur σ)) as HgPc.
  { apply guarded_and; [done|]. apply guarded_clean. by left. }
  eapply oht_bind.
  { apply (oht_read_held i cur [cur] (λ σ, P σ ∧ clean removed members cur σ) (λ n, inr (removed n)));
      [by left|done|]. intros σ Hc [HP _]. destruct (Hsome σ Hc HP) as [n1 Hn1]. by exists n1, (removed n1). }
  intros r. apply oht_exists; intros nc. apply oht_pure; intros [= <-].
  eapply (oht_bind _ _ _ _ _ _ _ _ _ (λ x σ, (removed nc = false → x = next nc) ∧
    in_section i cur [] (λ σ, P σ ∧ node_is cur nc σ) σ)).
  { destruct (removed nc); cbn [negb].
    - apply oht_ret. intros σ [[[HP Hcl] Hn] Hh]. by repeat (split; [done|]).
    - apply oht_read.
      + apply stable_in_scope, guarded_and; [done|]. apply guarded_node. by left.
      + intros σ Hc [[[HP Hcl] Hn] Hh]. exists nc, (next nc). by repeat (split; [done|]). }
  intros x. apply oht_pure. intros Hx. destruct (removed nc) eqn:Hrm; cbn [negb andb].
  { apply oht_ret. intros σ H. eapply outcome_false; [|exact H]. intros σ' [HP _]. by apply HPb. }
  rewrite Hx by done. destruct (Z.eqb_spec (next nc) nxt) as [Hnx|_].
  - eapply oht_bind; [apply own_new_node|]. intros p.
    eapply oht_bind; [by apply link_spec|]. intros []. by apply oht_ret.
  - apply oht_ret. intros σ H. eapply outcome_false; [|exact H]. intros σ' [HP _]. by apply HPb.
Qed.

(** what a remove knows with [cur] locked, and with both nodes locked *)
Definition locked_cur (i : nat) (k cur nxt : Z) (n nc : node) σ : Prop :=
  ((base i (Remove k) σ ∧ found i k cur nxt n σ) ∧ clean removed members cur σ) ∧ node_is cur nc σ.
Definition remove_done (i : nat) (k cur : Z) (b : bool) σ : Prop :=
  outcome i (Remove k) (ARemove true) b σ ∧ clean removed members cur σ.

Lemma guarded_locked_cur i k cur nxt n nc ps : cur ∈ ps → guarded i ps (locked_cur i k cur nxt n nc).
Proof.
  intros Hin. apply guarded_and; [|by apply guarded_node]. apply guarded_and; [|by apply guarded_clean].
  apply guarded_stable, stable_and; [apply stable_base|apply stable_found].
Qed.
Lemma lockless_locked_cur i k cur nxt n nc : lockless (locked_cur i k cur nxt n nc).
Proof.
  apply lockless_and; [|apply lockless_node]. apply lockless_and; [|apply lockless_clean].
  apply lockless_and; [apply lockless_base|apply lockless_found].
Qed.
Lemma found_node i k cur nxt n σ : found i k cur nxt n σ →
  ∃ nn, nodes (mem σ.1) !! nxt = Some nn ∧ same_node n nn.
Proof. by intros [[_ ?] _]. Qed.

(** marking the node that is removed *)
Definition set_removed (n : node) : node := mkNode (next n) (key n) (value n) (is_end n) true.
Lemma mark_spec i k cur nxt n nc nn : nxt ≠ cur →
  oht i (in_scope i [nxt; cur] (λ σ, locked_cur i k cur nxt n nc σ ∧ node_is nxt nn σ))
    (store (removed_c nxt) true)
    (λ _, in_scope i [nxt; cur] (λ σ, locked_cur i k cur nxt n nc σ ∧ node_is nxt (set_removed nn) σ)).
Proof.
  intros Hne. apply (oht_write threads threads_fit).
  { apply stable_in_scope, guarded_and; [apply guarded_locked_cur; right; by left|apply guarded_node; by left]. }
  intros w g x Hc [[[[[Hp Hf] Hcl] Hcur] Hnn] Hh]. pose proof (inv_shape _ Hc) as Hsh.
  unfold node_is in *. simpl in *. exists nn, (removed nn). split; [done|]. split; [done|].
  split; [apply (Hh nxt); by left|]. split; [done|]. exists g, x. split; [by destruct Hc|].
  split; [intros j _; reflexivity|].
  assert (persists (nodes (mem w)) (<[nxt := set_removed nn]> (nodes (mem w)))) as Hper.
  { intros q o Hq. destruct (decide (q = nxt)) as [->|Hqn].
    - rewrite Hnn in Hq. injection Hq as <-. exists (set_removed nn). by rewrite lookup_insert_eq.
    - exists o. rewrite lookup_insert_ne by done. split; [done|reflexivity]. }
  split; [|split; [apply relinked_refl|]].
  - apply (shape_same root e (nodes (mem w))); [done|exact Hper|]. intros a _ o Ho.
    destruct (decide (a = nxt)) as [->|Ha].
    + rewrite lookup_insert_eq in Ho. injection Ho as <-. by exists nn.
    + rewrite lookup_insert_ne in Ho by done. by exists o.
  - intros w' Hn Hl. split; [split; [split; [split; [split; [exact Hp|]|]|]|]|].
    + destruct Hf as [[(l & Hl' & He & Hb) (n' & Hn' & Hs)] Hk]. assert (persists (nodes (mem w)) (nodes (mem w'))) as Hper' by (rewrite Hn; exact Hper).
      split; [split|exact Hk].
      * exists l. split; [done|]. split; [done|]. by eapply before_persists.
      * destruct (Hper' _ _ Hn') as (n2 & Hn2 & Hs2). exists n2. split; [done|]. by etrans.
    + intros o Hm. simpl in *. rewrite Hn, lookup_insert_ne by done. by apply Hcl.
    + unfold node_is. simpl. by rewrite Hn, lookup_insert_ne.
    + unfold node_is. simpl. by rewrite Hn, lookup_insert_eq.
    + by eapply holds_same_locks.
Qed.

(** unlinking it *)
Lemma unlink_spec i k cur nxt n nc nn : is_end n = false → key n = k → removed nc = false → next nc = nxt →
  oht i (in_scope i [nxt; cur] (λ σ, locked_cur i k cur nxt n nc σ ∧ node_is nxt (set_removed nn) σ))
    (store (next_c cur) (next nn)) (λ _, in_section i nxt [cur] (remove_done i k cur true)).
Proof.
  intros Hend Hk Hrm Hnx. apply (oht_write threads threads_fit).
  { apply stable_in_scope, guarded_and; [apply guarded_locked_cur; right; by left|apply guarded_node; by left]. }
  intros w g x Hc [[[[[[Hp Hx] [[(l & Hl & He & Hb) (n' & Hn' & Hs)] _]] Hcl] Hcur] Hnn] Hh].
  pose proof (inv_shape _ Hc) as Hsh. destruct Hc as [Hg Hin]. unfold node_is, owns in *. simpl in *.
  rewrite Hnn in Hn'. injection Hn' as <-. destruct Hs as (Hkn & _ & He').
  assert (locked_by threads (mem w) cur i ∧ locked_by threads (mem w) nxt i) as [Hlk Hlk'].
  { split; apply Hh; [right|]; by left. }
  destruct (remove_commit root e M0 (nodes (mem w)) g (log w) i l cur nxt k nc (set_removed nn)) as
    (l' & Hg' & Hd' & Hk'' & Hsh' & Hcl' & Hnot & Hmem); try done; [by etrans|by etrans|].
  exists nc, (next nc). split; [done|]. split; [done|]. split; [done|]. split; [done|].
  exists (committed meaning M0 i l' g), x. split; [done|]. split; [done|]. split; [done|]. split; [split; simpl|].
  - done.
  - done.
  - intros q [->|?]%Hmem; [by right|by left].
  - intros q Hq. left. apply Hmem. by right.
  - intros q [Hq|Hq]%visible_committed; [left; left; apply Hmem; by right|by left].
  - intros w' Hn Hlocks. split; [split; [split; [done|]|]|].
    + intros o _ Ho. simpl in Ho. rewrite Hn, lookup_insert_eq in Ho. by injection Ho as <-.
    + intros o Hm. simpl in Hm. done.
    + by eapply holds_same_locks.
Qed.

(** the inner critical section of a remove *)
Lemma unlink_section i k cur nxt n nc : nxt ≠ cur → is_end n = false → key n = k → removed nc = false → next nc = nxt →
  oht i (in_section i nxt [cur] (locked_cur i k cur nxt n nc))
    (nxtnxt ← load (next_c nxt);
     store (removed_c nxt) true ;;
     store (next_c cur) nxtnxt ;;
     retire nxt ;;
     mret true)
    (λ b, in_section i nxt [cur] (remove_done i k cur b)).
Proof.
  intros Hne Hend Hk Hrm Hnx.
  assert (cur ∈ [nxt; cur]) as Hcin by (right; by left). assert (nxt ∈ [nxt; cur]) as Hnin by by left.
  eapply oht_bind.
  { apply (oht_read_held i nxt [nxt; cur] (λ σ, locked_cur i k cur nxt n nc σ ∧ clean removed members nxt σ) (λ n, inr (next n)));
      [done|apply guarded_and; [by apply guarded_locked_cur|by apply guarded_clean]|].
    intros σ Hc [[[[_ Hf] _] _] _]. destruct (found_node _ _ _ _ _ _ Hf) as (nn & Hn & _). by exists nn, (next nn). }
  intros nxtnxt. apply oht_exists; intros nn. apply oht_pure; intros [= <-].
  eapply oht_bind.
  { eapply oht_weaken; [by apply mark_spec| |intros b σ _ H; exact H].
    intros σ _ [[[HL Hcl] Hn] Hh]. split; [split; [exact HL|exact Hn]|exact Hh]. }
  intros []. eapply oht_bind; [by apply unlink_spec|]. intros [].
  eapply (oht_bind _ _ _ _ _ _ _ _ _ (λ _, in_section i nxt [cur] (remove_done i k cur true)));
    [|intros []; by apply oht_ret].
  apply oht_retire.
  - apply in_section_stable, guarded_and; [apply guarded_stable, stable_outcome|by apply guarded_clean].
  - intros w w' γ Hn Hl [[[Ho Hcl] Hcl'] Hh]. split; [split; [split; [exact Ho|]|]|by eapply holds_same_locks].
    + intros o Hm. simpl in *. rewrite Hn. by apply Hcl.
    + intros o Hm. simpl in *. rewrite Hn. by apply Hcl'.
Qed.

Lemma apart i c k cur nxt n σ : linear_inv σ → base i c σ ∧ found i k cur nxt n σ →
  is_end n = false → key n = k → nxt ≠ cur.
Proof.
  intros Hc (_ & [(l & Hl & He & Hb) (n' & Hn' & Hs)] & _) Hend Hk ->. destruct Hs as (Hk' & _ & He').
  pose proof (seen_wf _ _ _ Hc Hl) as Hwf.
  assert (cur ∈ l.*1) as Hin by (eapply edge_target; [exact Hwf|exact He|exact Hn'|congruence]).
  destruct Hb as [->|(o & Ho & Hlt)].
  - pose proof (wf_nodup _ _ _ _ Hwf) as [? _]%NoDup_cons. done.
  - rewrite Hn' in Ho. injection Ho as <-. lia.
Qed.

(** the critical section of a remove *)
Lemma remove_section i k cur nxt n : (i < threads)%nat → nxt ≠ cur → is_end n = false → key n = k →
  oht i (in_section i cur [] (λ σ, base i (Remove k) σ ∧ found i k cur nxt n σ))
    (r ← load (removed_c cur);
     x ← (if (r : bool) then mret 0 else load (next_c cur));
     if r || negb (x =? nxt) then mret false
     else try_lock i nxt
       (nxtnxt ← load (next_c nxt);
        store (removed_c nxt) true ;;
        store (next_c cur) nxtnxt ;;
        retire nxt ;;
        mret true))
    (λ b, in_section i cur [] (outcome i (Remove k) (ARemove true) b)).
Proof.
  intros Hi Hne Hend Hk. set (c := Remove k). set (P σ := base i c σ ∧ found i k cur nxt n σ).
  assert (guarded i [cur] P) as HgP by (apply guarded_stable, stable_and; [apply stable_base|apply stable_found]).
  assert (cur ∈ [cur]) as Hcin by by left.
  assert (∀ σ, P σ → base i c σ) as HPb by (by intros σ [? _]).
  eapply oht_bind.
  { apply (oht_read_held i cur [cur] (λ σ, P σ ∧ clean removed members cur σ) (λ n, inr (removed n)));
      [done|apply guarded_and; [done|by apply guarded_clean]|].
    intros σ Hc [(_ & [Ha _] & _) _]. destruct (around_visible _ _ _ _ _ Hc Ha) as [[n1 Hn1] _].
    by exists n1, (removed n1). }
  intros r. apply oht_exists; intros nc. apply oht_pure; intros [= <-].
  eapply (oht_bind _ _ _ _ _ _ _ _ _ (λ x σ, (removed nc = false → x = next nc) ∧
    in_scope i [cur] (locked_cur i k cur nxt n nc) σ)).
  { destruct (removed nc).
    - apply oht_ret. by intros σ H.
    - apply oht_read; [apply stable_in_scope, guarded_locked_cur; done|].
      intros σ Hc H. pose proof H as [[_ Hn] _]. exists nc, (next nc). done. }
  intros x. apply oht_pure. intros Hx.
  assert (∀ σ, in_scope i [cur] (locked_cur i k cur nxt n nc) σ → in_section i cur [] (outcome i c (ARemove true) false) σ) as Hno.
  { intros σ [[[[HB Hf] Hcl] Hn] Hh]. by split; [split|]. }
  destruct (removed nc) eqn:Hrm; cbn [orb]; [by apply oht_ret|].
  rewrite Hx by done. destruct (Z.eqb_spec (next nc) nxt) as [Hnx|_]; cbn [negb]; [|by apply oht_ret].
  apply (oht_try_lock threads threads_fit same_node removed members members shape shape_reseen
    meaning contents_map M0 only_fuel i nxt [cur] (locked_cur i k cur nxt n nc) (remove_done i k cur)).
  - done.
  - by intros ?%list_elem_of_singleton.
  - by apply guarded_locked_cur.
  - apply lockless_locked_cur.
  - intros σ Hc [[[_ Hf] _] _]. pose proof Hf as [[Ha _] _]. destruct (found_node _ _ _ _ _ _ Hf) as (nn & Hn & Hs).
    split; [by exists nn|]. eapply around_next; [done|done|done|]. destruct Hs as (_ & _ & Hs). congruence.
  - intros b. apply guarded_and; [apply guarded_stable, stable_outcome|apply guarded_clean; right; by left].
  - intros b. apply lockless_and; [apply lockless_outcome|apply lockless_clean].
  - intros σ [[[HB _] Hcl] _]. by split.
  - by apply unlink_section.
Qed.

(** *** Attempts and operations *)
Lemma still_before_spec i (P : config → Prop) k cur nxt : stable i P →
  (∀ σ, linear_inv σ → P σ → around i k cur nxt σ) →
  oht i P (still_before cur nxt) (λ _, P).
Proof.
  intros Hst Ha.
  assert (∀ σ, linear_inv σ → P σ → is_Some (nodes (mem σ.1) !! cur)) as Hcur.
  { intros σ Hc HP. by destruct (around_visible _ _ _ _ _ Hc (Ha σ Hc HP)). }
  unfold still_before, read_lock, lock.read_lock. apply (oht_bind _ _ _ _ _ _ _ _ _ (λ _, P)).
  { apply oht_read; [done|]. intros σ Hc H. destruct (Hcur σ Hc H) as [o Ho]. by exists o, (next o). }
  intros x. destruct (negb (x =? nxt)); [by apply oht_ret|]. apply (oht_bind _ _ _ _ _ _ _ _ _ (λ _, P)).
  { apply oht_read; [done|]. intros σ Hc H. destruct (Hcur σ Hc H) as [o Ho]. by exists o, (removed o). }
  intros r. by apply oht_ret.
Qed.

(** an attempt that does not change the list, under its validation *)
Lemma unchanged_spec i c k cur nxt n (b0 : bool) a :
  (∀ M : gmap Z Z, M !! k = reading k n → meaning c M = (a, M)) →
  oht i (λ σ, working i c σ ∧ found i k cur nxt n σ)
    (b ← still_before cur nxt; mret (if (b : bool) then Some b0 else None))
    (λ r σ, match r with Some b => b = b0 ∧ finished i c a σ | None => working i c σ end).
Proof.
  intros Hm. eapply oht_bind; [apply (still_before_spec i _ k)|].
  { apply stable_and; [apply stable_working|apply stable_found]. }
  { by intros σ _ (_ & [? _] & _). }
  intros [|]; apply oht_ret.
  - intros σ (Hw & _ & Hk). split; [done|]. by eapply knows_finished.
  - by intros σ [Hw _].
Qed.

(** an attempt that changes the list at [cur] *)
Lemma updating_spec i c k cur nxt n a (body : prog (store_state node) bool) : (i < threads)%nat →
  oht i (in_section i cur [] (λ σ, base i c σ ∧ found i k cur nxt n σ)) body
    (λ b, in_section i cur [] (outcome i c a b)) →
  oht i (λ σ, working i c σ ∧ found i k cur nxt n σ)
    (b ← try_lock i cur body; mret (if (b : bool) then Some true else None))
    (λ r σ, match r with Some b => b = true ∧ finished i c a σ | None => working i c σ end).
Proof.
  intros Hi Hbody. eapply oht_bind.
  - apply (changing_spec threads_fit i c cur (found i k cur nxt n) a); [done|apply stable_found|apply lockless_found| |done].
    intros σ Hc [[Ha _] _]. by eapply around_visible.
  - by intros [|]; apply oht_ret.
Qed.

Lemma try_insert_spec i fuel k v : (i < threads)%nat →
  oht i (working i (Insert k v)) (try_insert alloc i fuel root k v)
    (λ r σ, match r with Some b => finished i (Insert k v) (AInsert b) σ | None => working i (Insert k v) σ end).
Proof.
  intros Hi. unfold try_insert. eapply oht_bind; [apply find_location_spec|]. intros [cur nxt]. cbn [fst snd].
  eapply oht_bind; [apply node_spec|]. intros n. apply oht_pure. intros Hstop.
  destruct (negb (is_end n) && negb (k <? key n)) eqn:Hc.
  - eapply oht_weaken; [apply (unchanged_spec i (Insert k v) k cur nxt n false (AInsert false))|done|].
    + unfold reading. rewrite Hc. intros M HM. simpl. by rewrite HM.
    + by intros [b|] σ _; [intros [-> ?]|].
  - assert (is_end n = true ∨ k < key n) as Hk.
    { destruct (is_end n); [by left|right]. destruct (Z.ltb_spec k (key n)); [done|discriminate Hc]. }
    eapply oht_weaken; [apply (updating_spec i (Insert k v) k cur nxt n (AInsert true)); [done|by apply insert_section]|done|].
    by intros [b|] σ _; [intros [-> ?]|].
Qed.

Lemma try_remove_spec i fuel k : (i < threads)%nat →
  oht i (working i (Remove k)) (try_remove i fuel root k)
    (λ r σ, match r with Some b => finished i (Remove k) (ARemove b) σ | None => working i (Remove k) σ end).
Proof.
  intros Hi. unfold try_remove. eapply oht_bind; [apply find_location_spec|]. intros [cur nxt]. cbn [fst snd].
  eapply oht_bind; [apply node_spec|]. intros n. apply oht_pure. intros Hstop.
  destruct (is_end n || (k <? key n)) eqn:Hc.
  - eapply oht_weaken; [apply (unchanged_spec i (Remove k) k cur nxt n false (ARemove false))|done|].
    + unfold reading. rewrite <-negb_orb, Hc. intros M HM. simpl. by rewrite HM.
    + by intros [b|] σ _; [intros [-> ?]|].
  - apply orb_false_iff in Hc as [Hend Hk]. apply Z.ltb_ge in Hk.
    assert (key n = k) as Hkn by (destruct Hstop; [congruence|lia]).
    eapply (oht_weaken _ _ _ _ _ _ _ (λ σ, nxt ≠ cur ∧ working i (Remove k) σ ∧ found i k cur nxt n σ)).
    + apply oht_pure. intros Hne. apply (updating_spec i (Remove k) k cur nxt n (ARemove true)); [done|].
      by apply remove_section.
    + intros σ Hinv [Hw Hf]. split; [|done]. eapply (apart i (Remove k)); [done| |done|done].
      split; [|done]. by apply working_base in Hw as [? _].
    + by intros [b|] σ _; [intros [-> ?]|].
Qed.

(** the operations of the structure, with the two searches it has *)
Definition list_ops (locking : bool) (i : nat) : dict_ops (store_state node) :=
  DictOps (λ fuel, (if locking then find_locked else find_) fuel root) (λ fuel, insert_ alloc i fuel root)
    (λ fuel, remove_ i fuel root).
Definition list_op (locking : bool) (fuel : nat) (i : nat) : dict_command → prog (store_state node) answer :=
  perform (list_ops locking i) fuel.

Lemma find_locked_spec i fuel k :
  oht i (working i (Find k)) (find_locked fuel root k) (λ r σ, working i (Find k) σ ∧ knows i k r σ).
Proof.
  apply try_loop_spec. unfold try_find. eapply oht_bind; [apply find_location_spec|]. intros [cur nxt]. cbn [fst snd].
  eapply oht_bind.
  { apply (still_before_spec i _ k cur nxt); [apply stable_located|]. by intros σ _ (_ & ? & _). }
  intros [|]; [|apply oht_ret; by intros σ [? _]].
  eapply oht_bind; [apply node_spec|]. intros n. apply oht_ret. intros σ (_ & Hw & _ & Hk). done.
Qed.

Lemma list_op_spec locking fuel i c : (i < threads)%nat →
  oht i (working i c) (list_op locking fuel i c) (λ a, finished i c a).
Proof.
  intros Hi. apply perform_spec; simpl.
  - intros k. destruct locking; [apply find_locked_spec|apply find_spec].
  - intros k v. apply try_loop_spec. by apply try_insert_spec.
  - intros k. apply try_loop_spec. by apply try_remove_spec.
Qed.
End conc.

(** ** Between the two views of a list *)
Section views.
Context (root e : Z).
Implicit Types (m : gmap Z node) (l : list (Z * (Z * Z))).

Lemma seg_head m p l : seg m p l e → p = head_node e l.
Proof. by destruct l as [|[a [k v]] l]; simpl; [|intros [-> _]]. Qed.

Lemma list_at_linked m l : list_at root l e m → well_formed root e m l ∧ linked root e m l ∧
  ∀ a n, a ∈ members root l → m !! a = Some n → removed n = false.
Proof.
  intros [([k0 v0] & Hseg) (ne & Hne & Hend) Hnd Hs].
  assert (∀ a k v, (a, (k, v)) ∈ (root, (k0, v0)) :: l → ∃ nx, m !! a = Some (mkNode nx k v false false)) as Hin
    by (intros a k v; by apply (seg_in _ _ _ _ _ _ _ Hseg)).
  split; [|split].
  - split; [done|done| | |by exists ne].
    + intros a k v Ha. destruct (Hin a k v) as [nx Hm]; [by right|]. by eexists.
    + destruct (Hin root k0 v0) as [nx Hm]; [by left|]. by eexists.
  - intros a b (l1 & l2 & -> & <- & <-). destruct l1 as [|[a [k v]] l0 _] using rev_ind.
    + destruct Hseg as (_ & nx & Hm & Hseg). unfold tail_node. simpl. rewrite Hm. simpl. by rewrite (seg_head _ _ _ Hseg).
    + rewrite tail_snoc. rewrite <-app_assoc, app_comm_cons in Hseg.
      apply seg_place in Hseg as (nxt & _ & Hm & Hseg). rewrite Hm. simpl. by rewrite (seg_head _ _ _ Hseg).
  - intros a n Ha Hn. assert (∃ k v, (a, (k, v)) ∈ (root, (k0, v0)) :: l) as (k & v & Hkv).
    { apply elem_of_cons in Ha as [->|([a' [k v]] & -> & Ha)%list_elem_of_fmap].
      - exists k0, v0. by left.
      - exists k, v. by right. }
    destruct (Hin a k v Hkv) as [nx Hm]. rewrite Hn in Hm. by injection Hm as ->.
Qed.

Lemma linked_list_at m l : well_formed root e m l → linked root e m l →
  (∀ a n, a ∈ members root l → m !! a = Some n → removed n = false) → list_at root l e m.
Proof.
  intros [Hnd Hs Hent (nr & Hr & Hre) Hend] Hlk Hrm.
  assert (∀ l2 l1, l = l1 ++ l2 → seg m (head_node e l2) l2 e) as Hseg.
  { induction l2 as [|[a [k v]] l2 IH]; intros l1 Heq; [done|]. split; [done|].
    destruct (Hent a k v) as ([nx k' v' en rm] & Hn & <- & <- & Hen); [rewrite Heq; apply elem_of_app; right; by left|].
    simpl in *. subst en. assert (rm = false) as ->.
    { refine (Hrm a _ _ Hn). rewrite Heq, members_app. apply elem_of_app. right. by left. }
    exists nx. split; [done|]. rewrite (cons_middle _ l1 l2), app_assoc in Heq.
    pose proof (edge_intro root e (l1 ++ [(a, (k', v'))]) l2) as Hed. rewrite <-Heq in Hed. apply Hlk in Hed.
    rewrite tail_snoc, Hn in Hed. simpl in Hed. injection Hed as ->. by eapply IH. }
  split; [|done..]. exists (key nr, value nr). split; [done|]. exists (next nr).
  pose proof (edge_intro root e [] l) as Hed. apply Hlk in Hed. unfold tail_node in Hed. simpl in Hed.
  rewrite Hr in Hed. simpl in Hed. injection Hed as Hed.
  split; [|rewrite Hed; exact (Hseg l [] eq_refl)].
  rewrite Hr. assert (removed nr = false) as Hr' by (apply (Hrm root); [by left|done]).
  clear Hed. destruct nr; simpl in *. by subst.
Qed.
End views.

(** C6: Any number of threads, each performing its own sequence of inserts,
    removes and searches (searches take no lock, or validate under one) on one
    list, interleaved at every access to memory: no thread follows a null or
    dangling pointer or meets any other error (loops may run out of fuel); the
    history of calls and returns is linearizable to the finite map; at every
    moment the linked nodes have increasing keys and hold the map that the
    linearization ends in; and when all threads are done the list is in the
    state that the sequential theorems start from. *)
Theorem list_linearizable (alloc : gmap Z node → Z) `{!Allocator alloc} (tid : nat) (root : Z) (M : gmap Z Z)
    (locking : bool) (fuel : nat) (css : list (list dict_command)) (s : store_state node)
    (ids_fit : Z.of_nat (length css) ≤ 2 ^ 16 - 1) (start : repr tid root M s) :
  ∀ w ts, rtc step (mkWorld s [], imap (λ i, client (list_op alloc root locking fuel i) i) css) (w, ts) →
    (∀ i er, goes_wrong i er (w, ts) → er = OutOfFuel) ∧
    ∃ l e, linearizes meaning M (log w) (contents_map l) ∧
      well_formed root e (nodes (mem w)) l ∧ linked root e (nodes (mem w)) l ∧
      ((∀ i, (i < length css)%nat → ∃ rs, ts !! i = Some (Ret rs)) → repr tid root (contents_map l) (mem w)).
Proof.
  intros w ts Hsteps. destruct start as (l0 & e & Hl & -> & Hlk).
  destruct (list_at_linked root e _ _ Hl) as (Hwf & Hlinked & Hunmarked).
  assert (∀ p, word s p mod 2 = 0) as Hev by (intros p; specialize (Hlk p); by rewrite decide_False in Hlk by apply not_elem_of_empty).
  destruct (map_linearizable same_node removed (members root) (members root) (shape root e) (shape_reseen root e) contents_map
    (list_op alloc root locking fuel) css s l0) with w ts as (Hwrong & g & Hlin & [Hnow Hlnow _ _ _] & Hrest).
  - done.
  - by split; simpl.
  - done.
  - done.
  - intros i c Hi. by apply list_op_spec.
  - done.
  - split; [done|]. exists (now g), e. split; [done|]. split; [done|]. split; [done|].
    intros Hdone. destruct (Hrest Hdone) as [Heven Hmk]. exists (now g), e. split; [by apply linked_list_at|].
    split; [done|]. intros p. by rewrite decide_False by apply not_elem_of_empty.
Qed.

(** A search without locks stands on the node of 5 while another thread
    removes 5 and returns; it then still answers 50, as of a moment before the
    removal. *)
Definition two_clients : list (list dict_command) := [[Find 5]; [Remove 5]].
Definition search_overtaken : list nat := [0; 0; 0]%nat ++ replicate 20 1%nat ++ [0; 0; 0]%nat.

Example list_linearizable_witness :
  ∃ w ts, rtc step (mkWorld one_entry [], imap (λ i, client (list_op next_addr 3 false 5 i) i) two_clients) (w, ts) ∧
    log w = [Call 0 (Find 5); Call 1 (Remove 5); Return 1 (ARemove true); Return 0 (AFind (Some 50))] ∧
    ∃ m, linearizes meaning {[5 := 50]} (log w) m ∧ repr 0 3 m (mem w).
Proof.
  destruct (run_to_end 2 [Call 0 (Find 5); Call 1 (Remove 5); Return 1 (ARemove true); Return 0 (AFind (Some 50))]
    search_overtaken (mkWorld one_entry [], imap (λ i, client (list_op next_addr 3 false 5 i) i) two_clients)) as (w & ts & Hrun & Hlog & Hdone).
  { vm_compute. reflexivity. }
  exists w, ts. split; [exact Hrun|]. split; [exact Hlog|].
  destruct (list_linearizable next_addr 0 3 {[5 := 50]} false 5 two_clients one_entry) with w ts as (_ & l & e & Hlin & _ & _ & Hrepr).
  - done.
  - apply one_entry_repr.
  - exact Hrun.
  - exists (contents_map l). split; [exact Hlin|]. apply Hrepr. exact Hdone.
Defined.
