(* ===== verification/DListMap.v ===== *)
(** * DListMap: the doubly linked list (structures/dlist/ordered_map.h).

    As [ListMap], with a pointer back from each node.  A search returns only
    the node it stops at, and the update finds the node to lock through the
    back pointer.  Each node is two locks: the one that it is (taken by the
    updates) and its field [lck], used only through read_lock, which does not
    touch it; [lck_c] is the first.  The head and the tail come from the same
    constructor, so [is_end] holds of both. *)

From stdpp Require Import prelude list gmap.
From Stdlib Require Import ZArith Lia Sorted.
From S2P Require Import Prelude Conc SpinLock Store MapSpec ListMap.
Local Open Scope Z_scope.

Module DList.
Record node := mkNode { next : Z; prev : Z; key : Z; value : Z; is_end : bool; removed : bool }.

Section dlist.
Context (alloc : gmap Z node → Z) (tid : nat).
Context (with_epoch : ∀ A, prog (store_state node) A → prog (store_state node) A).
#[local] Abbreviation state := (store_state node).

Definition next_c : Z → cell state Z :=
  field (λ n, inr (next n)) (λ x n, mkNode x (prev n) (key n) (value n) (is_end n) (removed n)).
Definition prev_c : Z → cell state Z :=
  field (λ n, inr (prev n)) (λ x n, mkNode (next n) x (key n) (value n) (is_end n) (removed n)).
Definition removed_c : Z → cell state bool :=
  field (λ n, inr (removed n)) (λ b n, mkNode (next n) (prev n) (key n) (value n) (is_end n) b).

Definition new_node (k v nxt prv : Z) : prog state Z := new_obj alloc (mkNode nxt prv k v false false).
(** for head and tail *)
Definition new_sentinel (nxt : Z) : prog state Z := new_obj alloc (mkNode nxt 0 0 0 true false).

Definition find_location (fuel : nat) (root k : Z) : prog state Z :=
  nxt ← load (next_c root);
  iter fuel (λ nxt,
    nxt_nxt ← load (next_c nxt);
    n ← load (node_c nxt);
    mret (if is_end n || negb (key n <? k) then inr nxt else inl nxt_nxt)) nxt.

(** the test under read_lock *)
Definition still_before (prv nxt : Z) : prog state bool :=
  read_lock
    (x ← load (next_c prv);
     if negb (x =? nxt) then mret false else r ← load (removed_c prv); mret (negb r)).

Definition try_insert (fuel : nat) (root k v : Z) : prog state (option bool) :=
  nxt ← find_location fuel root k;
  prv ← load (prev_c nxt);
  n ← load (node_c nxt);
  if negb (is_end n) && negb (k <? key n) then
    b ← still_before prv nxt;
    mret (if (b : bool) then Some false else None)
  else
    pn ← load (node_c prv);
    b ← (if is_end pn || (key pn <? k) then
           try_lock tid prv
             (r ← load (removed_c prv);
              x ← (if negb (r : bool) then load (next_c prv) else mret 0);
              if negb r && (x =? nxt) then
                n ← new_node k v nxt prv;
                store (next_c prv) n ;;
                store (prev_c nxt) n ;;
                mret true
              else mret false)
         else mret false);
    mret (if (b : bool) then Some true else None).

Definition insert_ (fuel : nat) (root k v : Z) : prog state bool :=
  flock.try_loop fuel (try_insert fuel root k v).
Definition insert (fuel : nat) (root k v : Z) : prog state bool :=
  with_epoch bool (insert_ fuel root k v).

Definition try_remove (fuel : nat) (root k : Z) : prog state (option bool) :=
  loc ← find_location fuel root k;
  prv ← load (prev_c loc);
  n ← load (node_c loc);
  if is_end n || (k <? key n) then
    b ← still_before prv loc;
    mret (if (b : bool) then Some false else None)
  else
    b ← try_lock tid prv
      (r ← load (removed_c prv);
       x ← (if (r : bool) then mret 0 else load (next_c prv));
       if r || negb (x =? loc) then mret false
       else try_lock tid loc
         (nxt ← load (next_c loc);
          store (removed_c loc) true ;;
          store (next_c prv) nxt ;;
          store (prev_c nxt) prv ;;
          retire loc ;;
          mret true));
    mret (if (b : bool) then Some true else None).

Definition remove_ (fuel : nat) (root k : Z) : prog state bool :=
  flock.try_loop fuel (try_remove fuel root k).
Definition remove (fuel : nat) (root k : Z) : prog state bool :=
  with_epoch bool (remove_ fuel root k).

Definition try_find (fuel : nat) (root k : Z) : prog state (option (option Z)) :=
  nxt ← find_location fuel root k;
  prv ← load (prev_c nxt);
  b ← still_before prv nxt;
  if (b : bool) then
    n ← load (node_c nxt);
    mret (Some (if negb (is_end n) && negb (k <? key n) then Some (value n) else None))
  else mret None.
Definition find_locked (fuel : nat) (root k : Z) : prog state (option Z) :=
  flock.try_loop fuel (try_find fuel root k).

Definition find_ (fuel : nat) (root k : Z) : prog state (option Z) :=
  nxt ← find_location fuel root k;
  n ← load (node_c nxt);
  mret (if negb (is_end n) && negb (k <? key n) then Some (value n) else None).
Definition find (fuel : nat) (root k : Z) : prog state (option Z) :=
  with_epoch (option Z) (find_ fuel root k).

(** the keys and values given to [add], in order *)
Definition range_ (fuel : nat) (root first last : Z) : prog state (list (Z * Z)) :=
  nxt ← load (next_c root);
  nxt ← iter fuel (λ nxt,
    nxt_nxt ← load (next_c nxt);
    n ← load (node_c nxt);
    mret (if is_end n || negb (key n <? first) then inr nxt else inl nxt_nxt)) nxt;
  iter fuel (λ '(nxt, added),
    n ← load (node_c nxt);
    if negb (is_end n) && negb (last <? key n) then
      x ← load (next_c nxt);
      mret (inl (x, added ++ [(key n, value n)]))
    else mret (inr added)) (nxt, []).

Definition init : prog state Z :=
  tail ← new_sentinel 0;
  head ← new_sentinel tail;
  store (prev_c tail) head ;;
  mret head.
Definition ordered_map : prog state Z := init.

Fixpoint retire_recursive (fuel : nat) (p : Z) : prog state unit :=
  match fuel with
  | O => fail OutOfFuel
  | S k =>
      n ← load (node_c p);
      when (negb (is_end n)) (x ← load (next_c p); retire_recursive k x) ;;
      retire p
  end.
Definition destructor (fuel : nat) (root : Z) : prog state unit := retire_recursive fuel root.

(** aborts when the keys do not increase, otherwise counts them *)
Definition check (fuel : nat) (root : Z) : prog state Z :=
  ptr ← load (next_c root);
  n ← load (node_c ptr);
  if is_end n then mret 0
  else
    ptr' ← load (next_c ptr);
    iter fuel (λ '(ptr, k, i),
      n ← load (node_c ptr);
      if is_end n then mret (inr i)
      else if negb (k <? key n) then fail Abort
      else x ← load (next_c ptr); mret (inl (x, key n, i + 1))) (ptr', key n, 1).
End dlist.

(** ** The list in memory

    Seen forwards it is the list of [ListMap], with the head, the only node
    without a node before it, unmarked. *)
Definition fwd (n : node) : ListMap.node :=
  ListMap.mkNode (next n) (key n) (value n) (is_end n && negb (prev n =? 0)) (removed n).

(** the nodes at [ps] point back to the one before, the first to [p] *)
Fixpoint back (m : gmap Z node) (p : Z) (ps : list Z) : Prop :=
  match ps with
  | [] => True
  | a :: ps' => (∃ n, m !! a = Some n ∧ prev n = p) ∧ back m a ps'
  end.

Record dlist_at (root : Z) (l : list (Z * (Z * Z))) (e : Z) (m : gmap Z node) : Prop := {
  da_list : list_at root l e (fwd <$> m);
  da_back : back m root (l.*1 ++ [e]);
  da_head : ∃ n, m !! root = Some n ∧ prev n = 0 ∧ is_end n = true;
  da_addr : Forall (λ a, a ≠ 0) (root :: l.*1);
}.

Section repr.
Implicit Types m : gmap Z node.
Implicit Types l : list (Z * (Z * Z)).

Lemma fwd_some m a n : m !! a = Some n → (fwd <$> m) !! a = Some (fwd n).
Proof. intros H. by rewrite lookup_fmap, H. Qed.
Lemma fwd_inv m a n : (fwd <$> m) !! a = Some n → ∃ n', m !! a = Some n' ∧ n = fwd n'.
Proof. rewrite lookup_fmap. destruct (m !! a) as [n'|]; [|done]. intros [= <-]. eauto. Qed.

(** back pointers survive writes that do not change them *)
Lemma back_agree m m' p ps :
  (∀ a n, a ∈ ps → m !! a = Some n → ∃ n', m' !! a = Some n' ∧ prev n' = prev n) →
  back m p ps → back m' p ps.
Proof.
  revert p. induction ps as [|a ps IH]; intros p; simpl; [done|]. intros H [(n & Hn & Hp) Hb]. split.
  - destruct (H a n) as (n' & Hn' & Hp'); [by left|done|]. exists n'. split; [done|congruence].
  - apply IH; [|done]. intros b nb Hin. apply H. by right.
Qed.
Lemma back_app m p ps1 c ps2 : back m p (ps1 ++ c :: ps2) ↔
  back m p ps1 ∧ (∃ n, m !! c = Some n ∧ prev n = List.last (p :: ps1) 0) ∧ back m c ps2.
Proof.
  revert p. induction ps1 as [|b ps IH]; intros p.
  - simpl. tauto.
  - change (List.last (p :: b :: ps) 0) with (List.last (b :: ps) 0). simpl back. rewrite IH. tauto.
Qed.
Lemma back_nonzero m p ps e a n : back m p (ps ++ [e]) → Forall (λ a, a ≠ 0) (p :: ps) →
  a ∈ ps ++ [e] → m !! a = Some n → prev n ≠ 0.
Proof.
  revert p. induction ps as [|b ps IH]; intros p; simpl.
  - intros [(n' & Hn & <-) _] [H0 _]%Forall_cons ->%list_elem_of_singleton Ha. congruence.
  - intros [(n' & Hn & <-) Hb] [H0 Hf]%Forall_cons [->|Hin]%elem_of_cons Ha; [congruence|eauto].
Qed.

Lemma list_at_nodup root l e (m : gmap Z ListMap.node) : list_at root l e m → NoDup (root :: l.*1 ++ [e]).
Proof.
  intros [(kv & Hseg) (ne & Hne & Hend) Hnd _]. rewrite app_comm_cons. apply NoDup_app.
  split; [done|]. split; [|apply NoDup_singleton].
  intros a Ha ->%list_elem_of_singleton.
  change (root :: l.*1) with (((root, kv) :: l).*1) in Ha.
  apply list_elem_of_fmap in Ha as ([a [k v]] & -> & Hin).
  destruct (seg_in _ _ _ _ _ _ _ Hseg Hin) as (nx & Hnx). simpl in Hne. rewrite Hne in Hnx.
  injection Hnx as ->. done.
Qed.
Lemma seg_hd (m : gmap Z ListMap.node) p l e : seg m p l e → ∃ ps, l.*1 ++ [e] = p :: ps.
Proof. destruct l as [|[a [k v]] l]; simpl; [by intros ->; eauto|]. intros (-> & _). eauto. Qed.

(** the nodes around the place of [k] *)
Record place root l e m (k cur nxt : Z) (kc kv : Z * Z) (l1 : list (Z * (Z * Z))) (nc nn : node)
    (ps : list Z) : Prop := {
  pl_split : (root, kv) :: lower k l = l1 ++ [(cur, kc)];
  pl_seg : seg (fwd <$> m) root ((root, kv) :: l) e;
  pl_cur : m !! cur = Some nc;
  pl_fwd : fwd nc = ListMap.mkNode nxt kc.1 kc.2 false false;
  pl_nxt : m !! nxt = Some nn;
  pl_prev : prev nn = cur;
  pl_upper : seg (fwd <$> m) nxt (upper k l) e;
  pl_addrs : l.*1 ++ [e] = (lower k l).*1 ++ nxt :: ps;
  pl_rest : (upper k l).*1 ++ [e] = nxt :: ps;
}.

Lemma find_place root l e m k : dlist_at root l e m → ∃ cur nxt kc kv l1 nc nn ps,
  place root l e m k cur nxt kc kv l1 nc nn ps.
Proof.
  intros [Hl Hb _ _]. destruct (la_seg _ _ _ _ Hl) as (kv & Hseg).
  destruct (exists_last (l := (root, kv) :: lower k l)) as (l1 & [cur kc] & Hl1); [done|].
  destruct (place_nodup _ _ _ _ _ _ _ (la_nodup _ _ _ _ Hl) Hl1) as [Heq _].
  pose proof Hseg as Hseg'. rewrite Heq in Hseg'.
  apply seg_place in Hseg' as (nxt & _ & Hcur & Hup).
  destruct (fwd_inv _ _ _ Hcur) as (nc & Hc & Hfc). destruct (seg_hd _ _ _ _ Hup) as (ps & Hps).
  assert (l.*1 ++ [e] = (lower k l).*1 ++ nxt :: ps) as Haddr.
  { rewrite <-(lower_upper k l) at 1. by rewrite fmap_app, <-app_assoc, Hps. }
  rewrite Haddr in Hb. apply back_app in Hb as (_ & (nn & Hnn & Hpn) & _).
  exists cur, nxt, kc, kv, l1, nc, nn, ps. split; try done.
  rewrite Hpn. change (root :: (lower k l).*1) with (((root, kv) :: lower k l).*1).
  rewrite Hl1, fmap_app. apply List.last_last.
Qed.

Lemma place_facts root l e m k cur nxt kc kv l1 nc nn ps : dlist_at root l e m →
  place root l e m k cur nxt kc kv l1 nc nn ps →
  cur ≠ 0 ∧ cur ≠ nxt ∧ (cur = root ∨ cur ∈ (lower k l).*1) ∧
  NoDup (root :: (lower k l).*1 ++ nxt :: ps) ∧ List.last (root :: (lower k l).*1) 0 = cur.
Proof.
  intros [Hl _ _ Ha] [Hl1 _ _ _ _ _ _ Haddr _].
  apply list_at_nodup in Hl as Hnd. rewrite Haddr in Hnd.
  assert (List.last (root :: (lower k l).*1) 0 = cur) as Hlast.
  { change (root :: (lower k l).*1) with (((root, kv) :: lower k l).*1).
    rewrite Hl1, fmap_app. apply List.last_last. }
  assert (cur ∈ root :: (lower k l).*1) as Hin.
  { change (root :: (lower k l).*1) with (((root, kv) :: lower k l).*1).
    rewrite Hl1, fmap_app. apply elem_of_app. right. by left. }
  split_and!; [| | |done|done].
  - rewrite Forall_forall in Ha. apply Ha. apply elem_of_cons in Hin as [->|Hin]; [by left|]. right.
    rewrite <-(lower_upper k l), fmap_app. apply elem_of_app. by left.
  - intros ->. rewrite app_comm_cons in Hnd. apply NoDup_app in Hnd as (_ & Hd & _).
    apply (Hd nxt Hin). by left.
  - by apply elem_of_cons.
Qed.

(** linking does not change which nodes look like an end *)
Lemma fwd_set_prev m a n p : m !! a = Some n → prev n ≠ 0 → p ≠ 0 →
  fwd <$> <[a := mkNode (next n) p (key n) (value n) (is_end n) (removed n)]> m = fwd <$> m.
Proof.
  intros Hn H0 Hp. rewrite fmap_insert. apply insert_id. rewrite lookup_fmap, Hn. simpl. f_equal.
  unfold fwd; simpl. by rewrite (proj2 (Z.eqb_neq (prev n) 0)), (proj2 (Z.eqb_neq p 0)).
Qed.

Lemma dlist_insert root l e m k cur nxt kc kv l1 nc nn ps p v :
  dlist_at root l e m → place root l e m k cur nxt kc kv l1 nc nn ps →
  above k (upper k l).*2 → m !! p = None → p ≠ 0 →
  dlist_at root (lower k l ++ (p, (k, v)) :: upper k l) e
    (<[nxt := mkNode (next nn) p (key nn) (value nn) (is_end nn) (removed nn)]>
     (<[cur := mkNode p (prev nc) (key nc) (value nc) (is_end nc) (removed nc)]>
      (<[p := mkNode nxt cur k v false false]> m))).
Proof.
  intros Hd Hpl Hab Hp Hp0.
  destruct (place_facts _ _ _ _ _ _ _ _ _ _ _ _ _ Hd Hpl) as (Hc0 & Hcn & Hcin & Hnd & Hlast).
  destruct Hpl as [Hl1 Hseg Hcur Hfc Hnn Hpn Hup Haddr Hrest]. destruct Hd as [Hl Hb Hh Ha].
  assert (p ≠ cur) as Hpc by congruence. assert (p ≠ nxt) as Hpx by congruence.
  set (m1 := <[cur := _]> (<[p := _]> m)).
  assert (m1 !! nxt = Some nn) as Hnn1 by (unfold m1; by rewrite !lookup_insert_ne by done).
  split.
  - rewrite (fwd_set_prev m1 nxt nn p Hnn1) by congruence. unfold m1. rewrite !fmap_insert.
    unfold fwd at 1 2; simpl. rewrite andb_false_l || idtac.
    injection Hfc as Hnx Hk Hv He Hr. rewrite Hk, Hv, He, Hr.
    apply (list_insert root l e k v p l1 kv cur kc nxt); try done. by rewrite lookup_fmap, Hp.
  - rewrite fmap_app, <-app_assoc. simpl. change (list_fmap _ _ fst (upper k l)) with (upper k l).*1.
    rewrite Hrest. rewrite Haddr in Hb. apply back_app in Hb as (Hb1 & _ & Hb2).
    apply NoDup_cons in Hnd as [Hroot Hnd]. apply NoDup_app in Hnd as (Hnd1 & Hnd2 & [Hnd3 Hnd4]%NoDup_cons).
    apply back_app. split; [|split].
    + eapply back_agree; [|exact Hb1]. intros a n Hin Hn. destruct (decide (a = nxt)) as [->|Hax].
      { exfalso. apply (Hnd2 nxt Hin). by left. }
      rewrite lookup_insert_ne by done. unfold m1. destruct (decide (a = cur)) as [->|Hac].
      * rewrite lookup_insert_eq. eexists. split; [done|]. simpl. congruence.
      * rewrite lookup_insert_ne, lookup_insert_ne by congruence. eauto.
    + eexists. rewrite lookup_insert_ne by done. unfold m1. rewrite lookup_insert_ne, lookup_insert_eq by done.
      split; [done|]. by rewrite Hlast.
    + simpl. split; [eexists; by rewrite lookup_insert_eq|].
      eapply back_agree; [|exact Hb2]. intros a n Hin Hn.
      rewrite lookup_insert_ne by (intros ->; done). unfold m1.
      rewrite lookup_insert_ne.
      * rewrite lookup_insert_ne by congruence. eauto.
      * intros ->. destruct Hcin as [->|Hcin]; [apply Hroot; apply elem_of_app; right; by right|].
        apply (Hnd2 _ Hcin). by right.
  - destruct Hh as (n & Hn & Hpr & Hie).
    assert (root ≠ nxt) as Hrx.
    { apply NoDup_cons in Hnd as [Hroot _]. intros ->. apply Hroot, elem_of_app. right. by left. }
    rewrite lookup_insert_ne by done. unfold m1. destruct (decide (cur = root)) as [->|Hcr].
    + rewrite lookup_insert_eq. eexists. split; [done|]. simpl. rewrite Hcur in Hn. by injection Hn as ->.
    + rewrite !lookup_insert_ne by congruence. eauto.
  - apply Forall_cons in Ha as [Hr0 Ha]. apply Forall_cons. split; [done|].
    rewrite <-(lower_upper k l), fmap_app in Ha. apply Forall_app in Ha as [Ha1 Ha2].
    rewrite fmap_app. apply Forall_app. split; [done|]. simpl. by apply Forall_cons.
Qed.

Lemma place_next_ne root l e m k cur nxt kc kv l1 nc nn ps v l2 nx :
  dlist_at root l e m → place root l e m k cur nxt kc kv l1 nc nn ps →
  upper k l = (nxt, (k, v)) :: l2 → fwd nn = ListMap.mkNode nx k v false false →
  nx ≠ nxt ∧ nx ≠ cur.
Proof.
  intros Hd Hpl Hu Hfn.
  destruct (place_facts _ _ _ _ _ _ _ _ _ _ _ _ _ Hd Hpl) as (_ & _ & Hcin & Hnd & _).
  destruct Hpl as [Hl1 Hseg Hcur Hfc Hnn Hpn Hup Haddr Hrest].
  rewrite Hu in Hrest, Hup. destruct Hup as (_ & nx' & Hnx' & Hl2).
  rewrite (fwd_some _ _ _ Hnn), Hfn in Hnx'. injection Hnx' as <-.
  simpl in Hrest. injection Hrest as Hps.
  destruct (seg_hd _ _ _ _ Hl2) as (ps' & Hps'). unfold fmap in Hps'. rewrite Hps' in Hps. subst ps.
  pose proof Hnd as [Hroot Hnd0]%NoDup_cons.
  apply NoDup_app in Hnd0 as (_ & Hnd2 & [Hnd3 _]%NoDup_cons).
  split; [intros ->; apply Hnd3; by left|].
  intros ->. destruct Hcin as [->|Hcin]; [|apply (Hnd2 _ Hcin); right; by left].
  apply Hroot, elem_of_app. right. right. by left.
Qed.

Lemma dlist_delete root l e m k cur nxt kc kv l1 nc nn ps v l2 nx nnx :
  dlist_at root l e m → place root l e m k cur nxt kc kv l1 nc nn ps →
  upper k l = (nxt, (k, v)) :: l2 → fwd nn = ListMap.mkNode nx k v false false →
  m !! nx = Some nnx →
  dlist_at root (lower k l ++ l2) e
    (<[nx := mkNode (next nnx) cur (key nnx) (value nnx) (is_end nnx) (removed nnx)]>
     (<[cur := mkNode nx (prev nc) (key nc) (value nc) (is_end nc) (removed nc)]>
      (<[nxt := mkNode (next nn) (prev nn) (key nn) (value nn) (is_end nn) true]> m))).
Proof.
  intros Hd Hpl Hu Hfn Hnx.
  destruct (place_facts _ _ _ _ _ _ _ _ _ _ _ _ _ Hd Hpl) as (Hc0 & Hcn & Hcin & Hnd & Hlast).
  destruct Hpl as [Hl1 Hseg Hcur Hfc Hnn Hpn Hup Haddr Hrest]. destruct Hd as [Hl Hb Hh Ha].
  rewrite Hu in Hrest, Hup. destruct Hup as (_ & nx' & Hnx' & Hl2).
  rewrite (fwd_some _ _ _ Hnn), Hfn in Hnx'. injection Hnx' as <-.
  simpl in Hrest. injection Hrest as Hps.
  destruct (seg_hd _ _ _ _ Hl2) as (ps' & Hps'). unfold fmap in Hps'. rewrite Hps' in Hps. subst ps.
  pose proof Hb as Hb'. rewrite Haddr in Hb'. apply back_app in Hb' as (Hb1 & _ & (nnx' & Hnx2 & Hpx) & Hb2).
  rewrite Hnx in Hnx2. injection Hnx2 as <-.
  pose proof Hnd as [Hroot Hnd0]%NoDup_cons.
  apply NoDup_app in Hnd0 as (Hnd1 & Hnd2 & [Hnd3 [Hnd4 Hnd5]%NoDup_cons]%NoDup_cons).
  apply not_elem_of_cons in Hnd3 as [Hxx Hxp].
  assert (nx ≠ cur) as Hxc.
  { intros ->. destruct Hcin as [->|Hcin]; [|apply (Hnd2 _ Hcin); right; by left].
    apply Hroot, elem_of_app. right. right. by left. }
  assert (nxt ≠ 0) as Hn0.
  { rewrite Forall_forall in Ha. apply Ha. right. rewrite <-(lower_upper k l), Hu, fmap_app.
    apply elem_of_app. right. by left. }
  set (m1 := <[cur := _]> (<[nxt := _]> m)).
  assert (m1 !! nx = Some nnx) as Hnx1 by (unfold m1; by rewrite !lookup_insert_ne by done).
  split.
  - rewrite (fwd_set_prev m1 nx nnx cur Hnx1) by congruence. unfold m1. rewrite !fmap_insert.
    injection Hfc as _ Hk Hv He Hr. unfold fwd at 1; simpl. rewrite Hk, Hv, He, Hr.
    apply (list_delete root l e k v l1 kv cur kc nxt nx l2); try done. by rewrite lookup_fmap, Hnn, <-Hfn.
  - rewrite fmap_app, <-app_assoc. unfold fmap at 2. rewrite Hps'. apply back_app. split; [|split].
    + eapply back_agree; [|exact Hb1]. intros a n Hin Hn.
      rewrite lookup_insert_ne by (intros ->; apply (Hnd2 _ Hin); right; by left). unfold m1.
      destruct (decide (a = cur)) as [->|Hac].
      * rewrite lookup_insert_eq. eexists. split; [done|]. simpl. congruence.
      * rewrite !lookup_insert_ne; [eauto|intros ->; apply (Hnd2 _ Hin); by left|done].
    + eexists. rewrite lookup_insert_eq. split; [done|]. by rewrite Hlast.
    + eapply back_agree; [|exact Hb2]. intros a n Hin Hn.
      rewrite lookup_insert_ne by (intros ->; done). unfold m1.
      rewrite lookup_insert_ne, lookup_insert_ne; [eauto|by intros ->|].
      intros ->. destruct Hcin as [->|Hcin].
      * apply Hroot, elem_of_app. right. by do 2 right.
      * apply (Hnd2 _ Hcin). by do 2 right.
  - destruct Hh as (n & Hn & Hpr & Hie).
    assert (root ≠ nx ∧ root ≠ nxt) as [Hr1 Hr2].
    { split; intros ->; apply Hroot, elem_of_app; right; [right|]; by left. }
    rewrite lookup_insert_ne by done. unfold m1. destruct (decide (cur = root)) as [->|Hcr].
    + rewrite lookup_insert_eq. eexists. split; [done|]. simpl. rewrite Hcur in Hn. by injection Hn as ->.
    + rewrite !lookup_insert_ne by congruence. eauto.
  - apply Forall_cons in Ha as [Hr0 Ha]. apply Forall_cons. split; [done|].
    rewrite <-(lower_upper k l), Hu, fmap_app in Ha. apply Forall_app in Ha as [Ha1 Ha2].
    rewrite fmap_app. apply Forall_app. split; [done|]. simpl in Ha2. by apply Forall_cons in Ha2 as [_ ?].
Qed.
End repr.

Section proofs.
Context (alloc : gmap Z node → Z) {fresh : Allocator alloc} (tid : nat) (tid_ok : small_tid tid).
Context (with_epoch : ∀ A, prog (store_state node) A → prog (store_state node) A)
  {transparent : EpochTransparent with_epoch}.
#[local] Abbreviation state := (store_state node).
Implicit Types s : state.
Implicit Types l : list (Z * (Z * Z)).

(** an end seen forwards, at the addresses after the head *)
Definition marked s (ps : list Z) : Prop := ∀ a n, a ∈ ps → nodes s !! a = Some n → prev n ≠ 0.
Lemma marked_end s ps a n : marked s ps → a ∈ ps → nodes s !! a = Some n →
  ListMap.is_end (fwd n) = is_end n.
Proof.
  intros Hm Ha Hn. simpl. rewrite (proj2 (Z.eqb_neq (prev n) 0)) by eauto. apply andb_true_r.
Qed.
Lemma dlist_marked root l e s : dlist_at root l e (nodes s) → marked s (l.*1 ++ [e]).
Proof. intros [_ Hb _ Ha] a n. by apply back_nonzero with (p := root). Qed.

Lemma dlist_wp_find_from fuel k s e : (∃ n, (fwd <$> nodes s) !! e = Some n ∧ ListMap.is_end n = true) →
  ∀ l2 nxt Q, seg (fwd <$> nodes s) nxt l2 e → marked s (l2.*1 ++ [e]) → (length l2 < fuel)%nat →
  (∀ nxt', seg (fwd <$> nodes s) nxt' (upper k l2) e → Q nxt' s) →
  wp (iter fuel (λ nxt,
    nxt_nxt ← load (next_c nxt);
    n ← load (node_c nxt);
    mret (if is_end n || negb (key n <? k) then inr nxt else inl nxt_nxt)) nxt) Q s.
Proof.
  intros (ne & Hne & Hend) l2. revert fuel.
  induction l2 as [|[a [k' v']] l2 IH]; intros [|fuel] nxt Q Hs Hm Hf HQ; simpl in Hf; try lia;
    cbn [iter]; rewrite wp_bind.
  - simpl in Hs. subst nxt. destruct (fwd_inv _ _ _ Hne) as (n & Hn & ->).
    rewrite (marked_end s _ e n Hm) in Hend by (by left || done).
    do 2 (eapply wp_read; [done..|]). rewrite Hend. by apply HQ.
  - destruct Hs as (-> & nx & Hx & Hs). destruct (fwd_inv _ _ _ Hx) as (n & Hn & Hfn).
    assert (is_end n = false) as He.
    { rewrite <-(marked_end s _ a n Hm) by (by left || done). by rewrite <-Hfn. }
    injection Hfn as Hfx Hk Hv _ Hr.
    do 2 (eapply wp_read; [done..|]). rewrite He, <-Hk. cbn [orb upper fst snd] in *.
    destruct (k' <? k) eqn:E; cbn [negb].
    + rewrite <-Hfx. apply IH; [done| |lia|]; [|done]. intros b nb Hb. apply Hm. by right.
    + apply HQ. split; [done|]. eauto.
Qed.

Lemma dlist_wp_locate {A} fuel root k l e (K : Z → prog state A) Q s :
  dlist_at root l e (nodes s) → (length l < fuel)%nat →
  (∀ cur nxt kc kv l1 nc nn ps, place root l e (nodes s) k cur nxt kc kv l1 nc nn ps → wp (K nxt) Q s) →
  wp (find_location fuel root k ≫= K) Q s.
Proof.
  intros Hd Hf HK. destruct (find_place root l e (nodes s) k Hd) as (cur & nxt & kc & [k0 v0] & l1 & nc & nn & ps & Hp).
  unfold find_location. rewrite wp_bind.
  destruct (pl_seg _ _ _ _ _ _ _ _ _ _ _ _ _ Hp) as (_ & nx & Hroot & Hs).
  destruct (fwd_inv _ _ _ Hroot) as (n & Hn & Hfn). injection Hfn as Hfx _ _ _ _.
  eapply wp_read; [done..|]. rewrite <-Hfx.
  apply (dlist_wp_find_from fuel k s e (la_end _ _ _ _ (da_list _ _ _ _ Hd)) l); [done|by eapply dlist_marked|done|].
  intros nxt' Hs'. destruct (seg_hd _ _ _ _ Hs') as (ps' & Hps').
  pose proof (pl_rest _ _ _ _ _ _ _ _ _ _ _ _ _ Hp) as Hps. rewrite Hps' in Hps. injection Hps as -> _.
  eauto.
Qed.

Lemma dlist_wp_still_before {A} cur nxt nc (K : bool → prog state A) Q s :
  nodes s !! cur = Some nc → next nc = nxt → removed nc = false →
  wp (K true) Q s → wp (still_before cur nxt ≫= K) Q s.
Proof.
  intros Hcur Hx Hr HK. unfold still_before, read_lock, lock.read_lock. rewrite wp_bind.
  eapply wp_read; [done..|]. rewrite Hx, Z.eqb_refl. cbn [negb].
  eapply wp_read; [done..|]. by rewrite Hr.
Qed.

(** what the node after the place tells, and what its neighbours hold *)
Lemma place_after root l e k cur nxt kc kv l1 nc nn ps s : dlist_at root l e (nodes s) →
  place root l e (nodes s) k cur nxt kc kv l1 nc nn ps →
  next nc = nxt ∧ removed nc = false ∧ is_end nc || (key nc <? k) = true ∧
  if negb (is_end nn) && negb (k <? key nn)
  then key nn = k ∧ ∃ l2 nx, upper k l = (nxt, (k, value nn)) :: l2 ∧
    fwd nn = ListMap.mkNode nx k (value nn) false false ∧ next nn = nx ∧ is_Some (nodes s !! nx)
  else above k (upper k l).*2.
Proof.
  intros Hd Hp. destruct (place_facts _ _ _ _ _ _ _ _ _ _ _ _ _ Hd Hp) as (_ & _ & Hcin & _ & _).
  destruct Hp as [Hl1 Hseg Hcur Hfc Hnn Hpn Hup Haddr Hrest]. pose proof Hfc as Hfc'.
  injection Hfc' as Hx Hk Hv He Hr. split; [done|]. split; [done|]. split.
  { destruct l1 as [|x l1].
    - injection Hl1 as -> _ _. destruct (da_head _ _ _ _ Hd) as (n & Hn & _ & Hie).
      rewrite Hcur in Hn. injection Hn as ->. by rewrite Hie.
    - injection Hl1 as _ Hl1. pose proof (lower_below k l) as Hb. rewrite Hl1 in Hb.
      rewrite fmap_app in Hb. unfold below in Hb. apply Forall_app in Hb as [_ [Hb _]%Forall_cons].
      simpl in Hb. rewrite Hk. apply orb_true_iff. right. by apply Z.ltb_lt. }
  destruct (node_after k root l e nxt _ (da_list _ _ _ _ Hd) Hup) as (n & Hn & Hcase).
  rewrite (fwd_some _ _ _ Hnn) in Hn. injection Hn as <-.
  rewrite (marked_end s (l.*1 ++ [e]) nxt nn) in Hcase; [|by eapply dlist_marked| |done].
  2: { rewrite Haddr. apply elem_of_app. right. by left. }
  simpl in Hcase. destruct (negb (is_end nn) && negb (k <? key nn)) eqn:E; [|done].
  destruct Hcase as (Hkk & l2 & Hu & Hrn). split; [done|]. exists l2.
  rewrite Hu in Hup. destruct Hup as (_ & nx & Hfx & Hl2).
  rewrite (fwd_some _ _ _ Hnn) in Hfx. injection Hfx as Hnx _ He2 _.
  exists nx. split_and!; [done| |done|].
  - unfold fwd. by rewrite Hkk, Hnx, He2, Hrn.
  - destruct (seg_hd _ _ _ _ Hl2) as (ps2 & Hps2).
    rewrite Hu in Hrest. simpl in Hrest. injection Hrest as Hrest. unfold fmap in Hps2. rewrite Hps2 in Hrest.
    subst ps. pose proof (da_back _ _ _ _ Hd) as Hb. rewrite Haddr in Hb.
    apply back_app in Hb as (_ & _ & (nnx & Hnnx & _) & _). eauto.
Qed.

(** *** The list as a finite map *)
Definition repr (root : Z) (M : gmap Z Z) s : Prop :=
  ∃ l e, dlist_at root l e (nodes s) ∧ M = to_map l.*2 ∧ holding tid ∅ s.

Lemma dlist_repr_length root l e M fuel s : dlist_at root l e (nodes s) → M = to_map l.*2 →
  enough fuel M → (length l + 4 ≤ fuel)%nat.
Proof. intros [Hl _ _ _]. by eapply ListMap.repr_length with (s := mkStore (fwd <$> nodes s) ∅ []). Qed.

Lemma dlist_find_wp fuel root k M s : enough fuel M → repr root M s →
  wp (find_ fuel root k) (λ r s', r = M !! k ∧ repr root M s') s.
Proof.
  intros Hf (l & e & Hl & HM & Hlk). pose proof (dlist_repr_length _ _ _ _ _ _ Hl HM Hf) as Hlen.
  unfold find_. apply (dlist_wp_locate fuel root k l e); [done|lia|].
  intros cur nxt kc kv l1 nc nn ps Hp.
  destruct (place_after _ _ _ _ _ _ _ _ _ _ _ _ _ Hl Hp) as (_ & _ & _ & Hcase).
  eapply wp_read; [apply Hp|done|]. unfold wp; cbn [run mret prog_ret].
  split; [|by exists l, e]. subst M.
  destruct (negb (is_end nn) && negb (k <? key nn)); symmetry.
  - destruct Hcase as (Hk & l2 & nx & Hu & _). eapply lookup_found; [apply Hl|exact Hu].
  - apply lookup_place; [apply lower_below|done].
Qed.

Lemma dlist_try_insert_wp fuel root k v M s : enough fuel M → repr root M s →
  wp (try_insert alloc tid fuel root k v) (λ r s', ∃ b, r = Some b ∧
    b = bool_decide (M !! k = None) ∧ repr root (if b then <[k := v]> M else M) s') s.
Proof.
  intros Hf (l & e & Hl & HM & Hlk). pose proof (dlist_repr_length _ _ _ _ _ _ Hl HM Hf) as Hlen.
  unfold try_insert. apply (dlist_wp_locate fuel root k l e); [done|lia|].
  intros cur nxt kc kv l1 nc nn ps Hp.
  destruct (place_after _ _ _ _ _ _ _ _ _ _ _ _ _ Hl Hp) as (Hnx & Hrem & Htest & Hcase).
  destruct (place_facts _ _ _ _ _ _ _ _ _ _ _ _ _ Hl Hp) as (Hc0 & Hcn & _).
  pose proof (pl_cur _ _ _ _ _ _ _ _ _ _ _ _ _ Hp) as Hcur.
  pose proof (pl_nxt _ _ _ _ _ _ _ _ _ _ _ _ _ Hp) as Hnn.
  eapply wp_read; [done..|]. rewrite (pl_prev _ _ _ _ _ _ _ _ _ _ _ _ _ Hp).
  eapply wp_read; [done..|].
  destruct (negb (is_end nn) && negb (k <? key nn)) eqn:E.
  - destruct Hcase as (Hk & l2 & nx & Hu & _). apply (dlist_wp_still_before _ _ nc); [done..|].
    exists false. split; [done|]. subst M.
    assert (to_map l.*2 !! k = Some (value nn)) as Hin by (eapply lookup_found; [apply Hl|exact Hu]).
    rewrite bool_decide_false by (rewrite Hin; done). split; [done|]. by exists l, e.
  - assert (M !! k = None) as HMk by (subst M; apply lookup_place; [apply lower_below|done]).
    eapply wp_read; [done..|]. rewrite Htest.
    eapply (wp_try_lock tid tid_ok ∅); [exact Hlk|set_solver|exact Hcur|].
    intros s1 Hs1 Hr1 Hh1. eapply wp_read; [by rewrite Hs1|done|]. rewrite Hrem. cbn [negb].
    eapply wp_read; [by rewrite Hs1|done|]. rewrite Hnx, Z.eqb_refl. cbn [andb].
    apply (wp_new alloc). intros p Hpf Hp0. rewrite Hs1 in *.
    eapply wp_write; [simpl; rewrite lookup_insert_ne by congruence; exact Hcur|done|].
    eapply wp_write; [simpl; rewrite !lookup_insert_ne by congruence; exact Hnn|done|].
    unfold wp; cbn [run mret prog_ret nodes locks set_nodes].
    split; [|split].
    + apply (holding_new tid _ s1 _ p); [|done|done].
      intros [->%elem_of_singleton|?%elem_of_empty]%elem_of_union; congruence.
    + rewrite lookup_insert_ne, lookup_insert_eq by done. eauto.
    + intros s3 Hs3 _ Hh3. exists true. split; [done|].
      rewrite bool_decide_true by done. split; [done|].
      eexists _, e. split; [rewrite Hs3; by eapply (dlist_insert root l e)|].
      split; [|done]. rewrite HM, fmap_app. simpl. rewrite to_map_insert.
      * by rewrite lower_upper_entries.
      * apply sorted_insert; [rewrite lower_upper_entries; apply Hl|apply lower_below|done].
Qed.

Lemma dlist_try_remove_wp fuel root k M s : enough fuel M → repr root M s →
  wp (try_remove tid fuel root k) (λ r s', ∃ b, r = Some b ∧
    b = bool_decide (is_Some (M !! k)) ∧ repr root (delete k M) s') s.
Proof.
  intros Hf (l & e & Hl & HM & Hlk). pose proof (dlist_repr_length _ _ _ _ _ _ Hl HM Hf) as Hlen.
  unfold try_remove. apply (dlist_wp_locate fuel root k l e); [done|lia|].
  intros cur nxt kc kv l1 nc nn ps Hp.
  destruct (place_after _ _ _ _ _ _ _ _ _ _ _ _ _ Hl Hp) as (Hnx & Hrem & Htest & Hcase).
  destruct (place_facts _ _ _ _ _ _ _ _ _ _ _ _ _ Hl Hp) as (Hc0 & Hcn & _ & Hnd & _).
  pose proof (pl_cur _ _ _ _ _ _ _ _ _ _ _ _ _ Hp) as Hcur.
  pose proof (pl_nxt _ _ _ _ _ _ _ _ _ _ _ _ _ Hp) as Hnn.
  eapply wp_read; [done..|]. rewrite (pl_prev _ _ _ _ _ _ _ _ _ _ _ _ _ Hp).
  eapply wp_read; [done..|].
  replace (is_end nn || (k <? key nn)) with (negb (negb (is_end nn) && negb (k <? key nn)))
    by (by destruct (is_end nn), (k <? key nn)).
  destruct (negb (is_end nn) && negb (k <? key nn)) eqn:E; cbn [negb].
  - destruct Hcase as (Hk & l2 & nx & Hu & Hfn & Hnnx & [nnx Hx]).
    assert (nx ≠ nxt ∧ nx ≠ cur) as [Hxn Hxc] by (by eapply place_next_ne).
    eapply (wp_try_lock tid tid_ok ∅); [exact Hlk|set_solver|exact Hcur|].
    intros s1 Hs1 Hr1 Hh1. eapply wp_read; [by rewrite Hs1|done|]. rewrite Hrem.
    eapply wp_read; [by rewrite Hs1|done|]. cbn [orb]. rewrite Hnx, Z.eqb_refl. cbn [negb].
    apply wp_bind_ret.
    eapply (wp_try_lock tid tid_ok); [exact Hh1|set_solver|by rewrite Hs1|].
    intros s2 Hs2 Hr2 Hh2. rewrite <-Hs1, <-Hs2 in *.
    eapply wp_read; [done..|]. rewrite Hnnx. eapply wp_write; [done..|].
    eapply wp_write; [simpl; rewrite lookup_insert_ne by done; exact Hcur|done|].
    eapply wp_write; [simpl; rewrite !lookup_insert_ne by done; exact Hx|done|].
    apply wp_retire. unfold wp; cbn [run mret prog_ret nodes locks set_nodes].
    split; [by apply (holding_same_locks tid _ s2)|].
    split; [rewrite lookup_insert_ne, lookup_insert_ne, lookup_insert_eq by done; eauto|].
    intros s3 Hs3 _ Hh3. unfold wp; cbn [run mret prog_ret].
    split; [done|]. split; [rewrite Hs3, lookup_insert_ne, lookup_insert_eq by done; eauto|].
    intros s4 Hs4 _ Hh4. exists true. split; [done|].
    rewrite HM. rewrite (lookup_found k (value nn) nxt l l2) by (apply Hl || exact Hu).
    split; [by rewrite bool_decide_true by eauto|].
    eexists _, e. split; [rewrite Hs4, Hs3; by eapply (dlist_delete root l e _ k)|].
    split; [|done].
    rewrite <-(lower_upper_entries k l), Hu, fmap_app. simpl. rewrite to_map_delete; [done|].
    pose proof (la_sorted _ _ _ _ (da_list _ _ _ _ Hl)) as Hsort. by rewrite <-(lower_upper_entries k l), Hu in Hsort.
  - assert (M !! k = None) as HMk by (subst M; apply lookup_place; [apply lower_below|done]).
    apply (dlist_wp_still_before _ _ nc); [done..|].
    exists false. split; [done|]. rewrite HMk, bool_decide_false by (by intros [? ?]).
    rewrite delete_id by done. split; [done|]. by exists l, e.
Qed.

Definition ops (root : Z) : dict_ops state :=
  DictOps (λ fuel, find with_epoch fuel root) (λ fuel, insert alloc tid with_epoch fuel root)
    (λ fuel, remove tid with_epoch fuel root).

#[export] Instance dlist_dictionary root : Dictionary (ops root) (repr root).
Proof.
  split; intros [|fuel]; intros; try (by unfold enough in *; lia);
    simpl; unfold find, insert, remove; apply with_epoch_wp;
    [by apply dlist_find_wp|apply wp_try_loop..].
  - by apply dlist_try_insert_wp.
  - by apply dlist_try_remove_wp.
Qed.

Lemma init_wp s : holding tid ∅ s → wp (ordered_map alloc) (λ root s', repr root ∅ s') s.
Proof.
  intros Hlk. unfold ordered_map, init. apply (wp_new alloc). intros p Hp Hp0.
  apply (wp_new alloc). intros q Hq Hq0. simpl in Hq.
  assert (p ≠ q) as Hpq by (intros ->; by rewrite lookup_insert_eq in Hq).
  eapply wp_write; [simpl; rewrite lookup_insert_ne, lookup_insert_eq by done; reflexivity|done|].
  unfold wp; cbn [run mret prog_ret nodes locks set_nodes next key value is_end removed].
  exists [], p. split; [|split; [done|]].
  - split; [split| | |].
    + exists (0, 0). simpl. split; [done|]. exists p.
      split; [|done]. rewrite lookup_fmap. by simplify_map_eq.
    + eexists. split; [apply fwd_some; simpl; by rewrite lookup_insert_eq|].
      simpl. by rewrite (proj2 (Z.eqb_neq q 0)).
    + repeat constructor. by intros ?%elem_of_nil.
    + constructor.
    + simpl. split; [|done]. eexists. by rewrite lookup_insert_eq.
    + eexists. simpl. rewrite lookup_insert_ne, lookup_insert_eq by done. done.
    + by repeat constructor.
  - apply (holding_new tid ∅ (mkStore ∅ (<[p := 0]> (locks s)) []) _ q); [set_solver|done|].
    by apply (holding_new tid ∅ s _ p); [set_solver|..].
Qed.

(** C30: a newly made doubly linked list answers any sequence of finds, inserts
    and removes of one thread as a finite map does; the back pointers through
    which the updates find the node to lock always lead to the node before. *)
Theorem dlist_refines_map fuel cs s : holding tid ∅ s → (length cs + 4 ≤ fuel)%nat →
  wp (session (ordered_map alloc) ops fuel cs) (λ answers s',
    answers = (meaning_all cs ∅).1 ∧ ∃ root, repr root (meaning_all cs ∅).2 s') s.
Proof. intros Hlk Hf. eapply session_refines; [apply _|by apply init_wp|done]. Qed.

(** C31: the destructor retires the head only, whatever the list holds: the head
    is itself marked as an end, where the recursion stops, so every entry and
    the tail leak. *)
Theorem dlist_destructor_leaks fuel root M s : repr root M s →
  wp (destructor (S fuel) root) (λ _ s', retired s' = root :: retired s) s.
Proof.
  intros (l & e & Hd & _). destruct (da_head _ _ _ _ Hd) as (n & Hn & _ & He).
  unfold destructor. cbn [retire_recursive]. eapply wp_read; [done..|]. rewrite He. cbn [negb when].
  rewrite wp_bind. unfold wp; cbn [run mret prog_ret]. done.
Qed.
End proofs.

Example dlist_refines_map_witness : small_tid 0 ∧
  wp (session (ordered_map next_addr) (ops next_addr 0 (λ A p, p)) 9
        [Insert 5 50; Insert 3 30; Insert 4 40; Remove 3; Find 4])
     (λ answers _, answers = [AInsert true; AInsert true; AInsert true; ARemove true; AFind (Some 40)])
     empty_store.
Proof.
  assert (small_tid 0) as Ht by (unfold small_tid; lia). split; [exact Ht|].
  eapply wp_mono; [|apply (dlist_refines_map next_addr 0 Ht (λ A p, p)); [apply holding_empty|simpl; lia]].
  intros r s' [-> _]. reflexivity.
Defined.

(** a list with one entry *)
Definition dlist_one_entry : store_state node :=
  mkStore (list_to_map [(1, mkNode 0 2 0 0 true false); (2, mkNode 1 3 5 50 false false);
                        (3, mkNode 2 0 0 0 true false)]) ∅ [].
Lemma dlist_one_entry_repr : repr 0 3 {[5 := 50]} dlist_one_entry.
Proof.
  exists [(2, (5, 50))], 1. split; [split; [split| | |]|split].
  - exists (0, 0). simpl. split; [done|]. exists 2. split; [reflexivity|]. split; [done|]. exists 1. split; reflexivity.
  - eexists. split; [reflexivity|done].
  - apply (bool_decide_unpack _). reflexivity.
  - repeat constructor.
  - simpl. eauto 10.
  - eexists. split; [reflexivity|done].
  - by repeat constructor.
  - reflexivity.
  - intros p. by rewrite decide_False by set_solver.
Qed.

Example dlist_destructor_leaks_witness : size (nodes dlist_one_entry) = 3%nat ∧
  wp (destructor 9 3) (λ _ s', retired s' = [3]) dlist_one_entry.
Proof. split; [reflexivity|]. exact (dlist_destructor_leaks 0 8 3 _ _ dlist_one_entry_repr). Defined.
End DList.
