(* ===== verification/ListOneLock.v ===== *)
(** * ListOneLock: the linked list that locks one node
    (structures/list_onelock/set.h).

    The nodes are those of [ListMap], but a remove locks only the node before
    the one it takes out.  It waits instead until nobody holds the lock of the
    node to remove, and of the node before the one it locks. *)

From stdpp Require Import prelude list gmap.
From Stdlib Require Import ZArith Lia Sorted.
From S2P Require Import Prelude Conc SpinLock Store MapSpec ListMap.
Local Open Scope Z_scope.

Module OneLock.
#[local] Abbreviation node := ListMap.node (only parsing).

Section onelock.
Context (alloc : gmap Z node → Z) (tid : nat).
Context (with_epoch : ∀ A, prog (store_state node) A → prog (store_state node) A).
#[local] Abbreviation state := (store_state node).

Definition new_node (k v nxt : Z) : prog state Z := new_obj alloc (mkNode nxt k v false false).
Definition new_sentinel (nxt : Z) (e : bool) : prog state Z := new_obj alloc (mkNode nxt 0 0 e false).

(** the node stopped at, the one before it, and the one before that or null *)
Definition find_location (fuel : nat) (root k : Z) : prog state (Z * Z * Z) :=
  nxt ← load (next_c root);
  iter fuel (λ '(prev, cur, nxt),
    nxt_nxt ← load (next_c nxt);
    n ← load (node_c nxt);
    mret (if is_end n || negb (key n <? k) then inr (prev, cur, nxt) else inl (cur, nxt, nxt_nxt)))
    (0, root, nxt).

Definition init_delay : Z := 200.
Definition max_delay : Z := 2000.

(** a round of the loops: [Some] answers; after a [None] the delay doubles *)
Definition with_delay {A} (fuel : nat) (round : prog state (option A)) : prog state A :=
  iter fuel (λ delay,
    r ← round;
    mret (match r with Some a => inr a | None => inl (Z.min (2 * delay) max_delay) end)) init_delay.

Definition insert_round (fuel : nat) (root k v : Z) : prog state (option bool) :=
  '(prev, cur, nxt) ← find_location fuel root k;
  n ← load (node_c nxt);
  if negb (is_end n) && negb (k <? key n) then mret (Some false)
  else
    when (negb (prev =? 0)) (lock.wait_lock (lck_c prev) fuel tid) ;;
    b ← try_lock tid cur
      (r ← load (removed_c cur);
       x ← (if (r : bool) then mret 0 else load (next_c cur));
       if r || negb (x =? nxt) then mret false
       else
         n ← new_node k v nxt;
         store (next_c cur) n ;;
         mret true);
    mret (if (b : bool) then Some true else None).

Definition insert (fuel : nat) (root k v : Z) : prog state bool :=
  with_epoch bool (with_delay fuel (insert_round fuel root k v)).

Definition remove_round (fuel : nat) (root k : Z) : prog state (option bool) :=
  '(prev, cur, nxt) ← find_location fuel root k;
  n ← load (node_c nxt);
  if is_end n || (k <? key n) then mret (Some false)
  else
    when (negb (prev =? 0)) (lock.wait_lock (lck_c prev) fuel tid) ;;
    lock.wait_lock (lck_c nxt) fuel tid ;;
    b ← try_lock tid cur
      (r ← load (removed_c cur);
       x ← (if (r : bool) then mret 0 else load (next_c cur));
       l ← (if r || negb (x =? nxt) then mret true else lock.is_locked (lck_c nxt));
       if (l : bool) then mret false
       else
         store (removed_c nxt) true ;;
         lock.wait_lock (lck_c nxt) fuel tid ;;
         a ← load (next_c nxt);
         store (next_c cur) a ;;
         retire nxt ;;
         mret true);
    mret (if (b : bool) then Some true else None).

Definition remove (fuel : nat) (root k : Z) : prog state bool :=
  with_epoch bool (with_delay fuel (remove_round fuel root k)).

Definition find_ (fuel : nat) (root k : Z) : prog state (option Z) :=
  '(prev, cur, nxt) ← find_location fuel root k;
  n ← load (node_c nxt);
  mret (if negb (is_end n) && negb (k <? key n) then Some (value n) else None).
Definition find (fuel : nat) (root k : Z) : prog state (option Z) :=
  with_epoch (option Z) (find_ fuel root k).

Definition empty : prog state Z := tail ← new_sentinel 0 true; new_sentinel tail false.

Fixpoint retire (fuel : nat) (p : Z) : prog state unit :=
  match fuel with
  | O => fail OutOfFuel
  | S k =>
      n ← load (node_c p);
      when (negb (is_end n)) (x ← load (next_c p); retire k x) ;;
      Store.retire p
  end.

Definition check (fuel : nat) (p : Z) : prog state Z :=
  ptr ← load (next_c p);
  n ← load (node_c ptr);
  if is_end n then mret 0
  else
    ptr' ← load (next_c ptr);
    iter fuel (λ '(ptr, k, i),
      n ← load (node_c ptr);
      if is_end n then mret (inr i)
      else if negb (k <? key n) then fail Abort
      else x ← load (next_c ptr); mret (inl (x, key n, i + 1))) (ptr', key n, 1).
End onelock.

Section proofs.
Context (alloc : gmap Z node → Z) {fresh : Allocator alloc} (tid : nat) (tid_ok : small_tid tid).
Context (with_epoch : ∀ A, prog (store_state node) A → prog (store_state node) A)
  {transparent : EpochTransparent with_epoch}.
#[local] Abbreviation state := (store_state node).
Implicit Types s : state.
Implicit Types l : list (Z * (Z * Z)).

Lemma wp_with_delay {A} fuel (round : prog state (option A)) Q s :
  wp round (λ r s', ∃ a, r = Some a ∧ Q a s') s → wp (with_delay (S fuel) round) Q s.
Proof.
  intros H. unfold with_delay. cbn [iter]. rewrite wp_bind, wp_bind.
  eapply wp_mono; [|exact H]. by intros r s' (a & -> & HQ).
Qed.

(** a node that can be waited for, or null *)
Definition waitable s (p : Z) : Prop := p = 0 ∨ is_Some (nodes s !! p).
Lemma wp_wait_if {A} p fuel (k : unit → prog state A) Q s : holding tid ∅ s → waitable s p →
  wp (k tt) Q s → wp (when (negb (p =? 0)) (lock.wait_lock (lck_c p) (S fuel) tid) ≫= k) Q s.
Proof.
  intros Hs Hp Hk. apply wp_when; intros Hb; [|done].
  destruct Hp as [->|[n Hn]]; [done|]. eapply wp_wait_lock; [done|set_solver|exact Hn|done].
Qed.

Lemma onelock_wp_find_from fuel k s e : (∃ n, nodes s !! e = Some n ∧ is_end n = true) →
  ∀ l2 prev cur nxt Q, seg (nodes s) nxt l2 e → (length l2 < fuel)%nat →
  waitable s prev → waitable s cur →
  (∀ prev' nxt', waitable s prev' → seg (nodes s) nxt' (upper k l2) e →
     Q (prev', List.last (cur :: (lower k l2).*1) 0, nxt') s) →
  wp (iter fuel (λ '(prev, cur, nxt),
    nxt_nxt ← load (next_c nxt);
    n ← load (node_c nxt);
    mret (if is_end n || negb (key n <? k) then inr (prev, cur, nxt) else inl (cur, nxt, nxt_nxt)))
    (prev, cur, nxt)) Q s.
Proof.
  intros (ne & Hne & Hend) l2. revert fuel.
  induction l2 as [|[a [k' v']] l2 IH]; intros [|fuel] prev cur nxt Q Hs Hf Hp Hc HQ; simpl in Hf; try lia;
    cbn [iter]; rewrite wp_bind.
  - simpl in Hs. subst nxt. do 2 (eapply wp_read; [done..|]). rewrite Hend. by apply HQ.
  - destruct Hs as (-> & nx & Hm & Hs). do 2 (eapply wp_read; [done..|]).
    cbn [is_end orb key lower upper fst snd] in *. destruct (k' <? k) eqn:E; cbn [negb].
    + apply IH; [done|lia|done|right; eauto|]. intros prev' nxt' Hp' Hs'. by apply HQ.
    + apply HQ; [done|]. split; [done|]. eauto.
Qed.

Lemma onelock_wp_locate {A} fuel root k l e (K : Z * Z * Z → prog state A) Q s :
  list_at root l e (nodes s) → (length l < fuel)%nat →
  (∀ prev l1 cur kc kv nxt, waitable s prev → (root, kv) :: lower k l = l1 ++ [(cur, kc)] →
     seg (nodes s) root ((root, kv) :: l) e →
     nodes s !! cur = Some (mkNode nxt kc.1 kc.2 false false) →
     seg (nodes s) nxt (upper k l) e → wp (K (prev, cur, nxt)) Q s) →
  wp (find_location fuel root k ≫= K) Q s.
Proof.
  intros Hl Hf HK. destruct (la_seg _ _ _ _ Hl) as ([k0 v0] & (_ & nx & Hroot & Hs)).
  unfold find_location. rewrite wp_bind. eapply wp_read; [done..|].
  apply (onelock_wp_find_from fuel k s e (la_end _ _ _ _ Hl) l); [done..|by left|right; eauto|].
  intros prev nxt' Hp Hnxt.
  destruct (located root l e (nodes s) k nxt' Hl Hnxt) as (l1 & cur & kc & kv' & -> & Hl1 & Hseg' & Hcur).
  eauto.
Qed.

Lemma onelock_find_wp fuel root k M s : enough fuel M → ListMap.repr tid root M s →
  wp (find_ fuel root k) (λ r s', r = M !! k ∧ ListMap.repr tid root M s') s.
Proof.
  intros Hf (l & e & Hl & HM & Hlk). pose proof (repr_length _ _ _ _ _ _ Hl HM Hf) as Hlen.
  unfold find_. apply (onelock_wp_locate fuel root k l e); [done|lia|].
  intros prev l1 cur kc kv nxt _ Hl1 Hseg Hcur Hnxt.
  destruct (node_after k root l e nxt (nodes s) Hl Hnxt) as (n & Hn & Hcase).
  eapply wp_read; [done..|]. unfold wp; cbn [run mret prog_ret].
  split; [|by exists l, e]. subst M.
  destruct (negb (is_end n) && negb (k <? key n)); symmetry.
  - destruct Hcase as (Hk & l2 & Hu & _). eapply lookup_found; [apply Hl|exact Hu].
  - apply lookup_place; [apply lower_below|done].
Qed.

Lemma insert_wp fuel root k v M s : enough fuel M → ListMap.repr tid root M s →
  wp (insert_round alloc tid fuel root k v) (λ r s', ∃ b, r = Some b ∧
    b = bool_decide (M !! k = None) ∧ ListMap.repr tid root (if b then <[k := v]> M else M) s') s.
Proof.
  intros Hf (l & e & Hl & HM & Hlk). pose proof (repr_length _ _ _ _ _ _ Hl HM Hf) as Hlen.
  unfold insert_round. apply (onelock_wp_locate fuel root k l e); [done|lia|].
  intros prev l1 cur kc kv nxt Hprev Hl1 Hseg Hcur Hnxt.
  destruct (node_after k root l e nxt (nodes s) Hl Hnxt) as (n & Hn & Hcase).
  eapply wp_read; [done..|].
  destruct (negb (is_end n) && negb (k <? key n)) eqn:E.
  - destruct Hcase as (Hk & l2 & Hu & _). exists false. split; [done|]. subst M.
    assert (to_map l.*2 !! k = Some (value n)) as Hin by (eapply lookup_found; [apply Hl|exact Hu]).
    rewrite bool_decide_false by (rewrite Hin; done). split; [done|]. by exists l, e.
  - assert (M !! k = None) as HMk by (subst M; apply lookup_place; [apply lower_below|done]).
    destruct fuel as [|fuel]; [lia|]. apply wp_wait_if; [done..|].
    eapply (wp_try_lock tid tid_ok ∅); [exact Hlk|set_solver|exact Hcur|].
    intros s1 Hs1 Hr1 Hh1. eapply wp_read; [by rewrite Hs1|done|]. cbn [removed].
    eapply wp_read; [by rewrite Hs1|done|]. cbn [next orb]. rewrite Z.eqb_refl. cbn [negb].
    apply (wp_new alloc). intros p Hp Hp0. rewrite Hs1 in *.
    eapply wp_write; [simpl; rewrite lookup_insert_ne; [exact Hcur|congruence]|done|].
    unfold wp; cbn [run mret prog_ret nodes locks set_nodes next key value is_end removed].
    split; [|split].
    + apply (holding_new tid _ s1 _ p); [|done|done].
      intros [->%elem_of_singleton|?%elem_of_empty]%elem_of_union; [congruence|done].
    + rewrite lookup_insert_eq. eauto.
    + intros s3 Hs3 _ Hh3. exists true. split; [done|].
      rewrite bool_decide_true by done. split; [done|].
      eexists _, e. split; [rewrite Hs3; by apply (list_insert root l e k v p l1 kv cur kc nxt)|].
      split; [|done]. rewrite HM, fmap_app. simpl. rewrite to_map_insert.
      * by rewrite lower_upper_entries.
      * apply sorted_insert; [rewrite lower_upper_entries; apply Hl|apply lower_below|done].
Qed.

Lemma remove_wp fuel root k M s : enough fuel M → ListMap.repr tid root M s →
  wp (remove_round tid fuel root k) (λ r s', ∃ b, r = Some b ∧
    b = bool_decide (is_Some (M !! k)) ∧ ListMap.repr tid root (delete k M) s') s.
Proof.
  intros Hf (l & e & Hl & HM & Hlk). pose proof (repr_length _ _ _ _ _ _ Hl HM Hf) as Hlen.
  unfold remove_round. apply (onelock_wp_locate fuel root k l e); [done|lia|].
  intros prev l1 cur kc kv nxt Hprev Hl1 Hseg Hcur Hnxt.
  destruct (node_after k root l e nxt (nodes s) Hl Hnxt) as (n & Hn & Hcase).
  eapply wp_read; [done..|].
  replace (is_end n || (k <? key n)) with (negb (negb (is_end n) && negb (k <? key n)))
    by (by destruct (is_end n), (k <? key n)).
  destruct (negb (is_end n) && negb (k <? key n)) eqn:E; cbn [negb].
  - destruct Hcase as (Hk & l2 & Hu & Hrem).
    assert (nxt ≠ cur) as Hnc.
    { intros ->. destruct (place_nodup _ _ _ _ _ _ _ (la_nodup _ _ _ _ Hl) Hl1) as [_ Hnd].
      rewrite Hu in Hnd. apply NoDup_app in Hnd as (_ & _ & [Hnd _]%NoDup_cons). apply Hnd. by left. }
    rewrite Hu in Hnxt. destruct Hnxt as (_ & nx & Hnx & _).
    destruct n as [nx' k' v e' r']. rewrite Hn in Hnx. simpl in Hnx, Hu. injection Hnx as -> -> -> ->.
    simpl in Hn. destruct fuel as [|fuel]; [lia|]. apply wp_wait_if; [done..|].
    eapply (wp_wait_lock tid ∅); [done|set_solver|done|].
    eapply (wp_try_lock tid tid_ok ∅); [exact Hlk|set_solver|exact Hcur|].
    intros s1 Hs1 Hr1 Hh1. rewrite <-Hs1 in *.
    assert (nxt ∉ ({[cur]} ∪ ∅ : gset Z)) as Hnin by (by intros [?%elem_of_singleton|?%elem_of_empty]%elem_of_union).
    eapply wp_read; [done..|]. cbn [removed].
    eapply wp_read; [done..|]. cbn [next orb]. rewrite Z.eqb_refl. cbn [negb].
    eapply wp_is_locked; [done..|]. eapply wp_write; [done..|].
    eapply (wp_wait_lock tid ({[cur]} ∪ ∅)); [by apply (holding_same_locks tid _ s1)|done|by simpl; rewrite lookup_insert_eq|].
    eapply wp_read; [by simpl; rewrite lookup_insert_eq|done|]. cbn [next].
    eapply wp_write; [simpl; rewrite lookup_insert_ne; [exact Hcur|done]|done|].
    apply wp_retire. unfold wp; cbn [run mret prog_ret nodes locks set_nodes next key value is_end removed].
    split; [by apply (holding_same_locks tid _ s1)|].
    split; [rewrite lookup_insert_eq; eauto|].
    intros s3 Hs3 _ Hh3. exists true. split; [done|].
    rewrite HM. rewrite (lookup_found k v nxt l l2) by (apply Hl || exact Hu).
    split; [by rewrite bool_decide_true by eauto|].
    eexists _, e. split; [rewrite Hs3; by eapply (list_delete root l e k)|].
    split; [|done].
    rewrite <-(lower_upper_entries k l), Hu, fmap_app. simpl. rewrite to_map_delete; [done|].
    pose proof (la_sorted _ _ _ _ Hl) as Hsort. by rewrite <-(lower_upper_entries k l), Hu in Hsort.
  - assert (M !! k = None) as HMk by (subst M; apply lookup_place; [apply lower_below|done]).
    exists false. split; [done|]. rewrite HMk, bool_decide_false by (by intros [? ?]).
    rewrite delete_id by done. split; [done|]. by exists l, e.
Qed.

Definition ops (root : Z) : dict_ops state :=
  DictOps (λ fuel, find with_epoch fuel root) (λ fuel, insert alloc tid with_epoch fuel root)
    (λ fuel, remove tid with_epoch fuel root).

#[export] Instance onelock_dictionary root : Dictionary (ops root) (ListMap.repr tid root).
Proof.
  split; intros [|fuel]; intros; try (by unfold enough in *; lia);
    simpl; unfold find, insert, remove; apply with_epoch_wp;
    [by apply onelock_find_wp|apply wp_with_delay..].
  - by apply insert_wp.
  - by apply remove_wp.
Qed.

(** C32: a newly made list of the one-lock kind answers any sequence of finds,
    inserts and removes of one thread as a finite map does; in particular it
    never waits for a lock that the thread itself holds. *)
Theorem onelock_refines_map fuel cs s : holding tid ∅ s → (length cs + 4 ≤ fuel)%nat →
  wp (session (empty alloc) ops fuel cs) (λ answers s',
    answers = (meaning_all cs ∅).1 ∧ ∃ root, ListMap.repr tid root (meaning_all cs ∅).2 s') s.
Proof. intros Hlk Hf. eapply session_refines; [apply _|by apply ListMap.ordered_map_wp|done]. Qed.
End proofs.

Example onelock_refines_map_witness : small_tid 0 ∧
  wp (session (empty next_addr) (ops next_addr 0 (λ A p, p)) 9
        [Insert 5 50; Insert 3 30; Insert 4 40; Remove 3; Find 4])
     (λ answers _, answers = [AInsert true; AInsert true; AInsert true; ARemove true; AFind (Some 40)])
     empty_store.
Proof.
  assert (small_tid 0) as Ht by (unfold small_tid; lia). split; [exact Ht|].
  eapply wp_mono; [|apply (onelock_refines_map next_addr 0 Ht (λ A p, p)); [apply holding_empty|simpl; lia]].
  intros r s' [-> _]. reflexivity.
Defined.
End OneLock.
