(* ===== verification/Arrays.v ===== *)
(** * Arrays: fixed arrays inside nodes.

    Nodes are filled before they are published; that is a computation on
    private memory, which goes wrong when it leaves an array. *)

From stdpp Require Import prelude list gmap.
From Stdlib Require Import ZArith Lia.
From S2P Require Import Prelude MapSpec.
Local Open Scope Z_scope.

#[export] Instance err_ret : MRet (sum err) := λ A a, inr a.
#[export] Instance err_bind : MBind (sum err) := λ A B f r, match r with inl e => inl e | inr a => f a end.

Section arrays.
Context {T : Type}.
(** [a[i]], and [a[i] = e] *)
Definition get (a : list T) (i : Z) : err + T :=
  if i <? 0 then inl OutOfBounds
  else match a !! Z.to_nat i with Some e => inr e | None => inl OutOfBounds end.
Definition put (a : list T) (i : Z) (e : T) : err + list T :=
  if (i <? 0) || (Z.of_nat (length a) <=? i) then inl OutOfBounds
  else inr (<[Z.to_nat i := e]> a).


(** [out[i] = entries[i + d]], [n] times *)
Fixpoint copy (out entries : list T) (d : Z) (n : nat) (i : Z) : err + list T :=
  match n with
  | O => inr out
  | S n' => e ← get entries (i + d);
            out' ← put out i e;
            copy out' entries d n' (i + 1)
  end.


Implicit Types c pad out : list T.

Lemma get_app c1 e c2 i : i = Z.of_nat (length c1) → get (c1 ++ e :: c2) i = inr e.
Proof.
  intros ->. unfold get. destruct (Z.ltb_spec (Z.of_nat (length c1)) 0); [lia|].
  by rewrite Nat2Z.id, list_lookup_middle.
Qed.
Lemma put_app c1 e c2 i e' : i = Z.of_nat (length c1) → put (c1 ++ e :: c2) i e' = inr (c1 ++ e' :: c2).
Proof.
  intros ->. unfold put. rewrite length_app. simpl.
  destruct (Z.ltb_spec (Z.of_nat (length c1)) 0); [lia|].
  destruct (Z.leb_spec (Z.of_nat (length c1 + S (length c2))) (Z.of_nat (length c1))); [lia|]. simpl.
  rewrite Nat2Z.id. by rewrite insert_app_r_alt, Nat.sub_diag by done.
Qed.

Lemma copy_spec c : ∀ out rest entries pre post d i,
  i = Z.of_nat (length out) → i + d = Z.of_nat (length pre) → entries = pre ++ c ++ post →
  (length c ≤ length rest)%nat →
  copy (out ++ rest) entries d (length c) i = inr (out ++ c ++ drop (length c) rest).
Proof.
  induction c as [|e c IH]; intros out rest entries pre post d i Hi Hd Hen Hr; [done|].
  destruct rest as [|x rest]; simpl in Hr; [lia|]. cbn [copy length].
  rewrite Hen. cbn [app]. rewrite get_app by done. unfold mbind, err_bind.
  rewrite put_app by done. replace (out ++ e :: rest) with ((out ++ [e]) ++ rest) by (by rewrite <-app_assoc).
  rewrite (IH (out ++ [e]) rest _ (pre ++ [e]) post).
  - by rewrite <-app_assoc.
  - rewrite length_app; simpl; lia.
  - rewrite length_app; simpl; lia.
  - rewrite <-app_assoc. done.
  - lia.
Qed.

Lemma get_lookup c pad i : 0 ≤ i < Z.of_nat (length c) →
  ∃ e, c !! Z.to_nat i = Some e ∧ get (c ++ pad) i = inr e.
Proof.
  intros Hi. unfold get. rewrite (proj2 (Z.ltb_ge i 0)) by lia.
  rewrite lookup_app_l by lia. destruct (lookup_lt_is_Some_2 c (Z.to_nat i)) as [e He]; [lia|].
  exists e. by rewrite He.
Qed.

End arrays.

(** an array of [cap] elements that begins with [l] *)
Definition fill {A} (cap : Z) (blank : A) (l : list A) : err + list A :=
  if Z.of_nat (length l) <=? cap then inr (l ++ replicate (Z.to_nat cap - length l) blank)
  else inl OutOfBounds.
Lemma fill_spec {A} c (b : A) l : Z.of_nat (length l) ≤ c →
  fill c b l = inr (l ++ replicate (Z.to_nat c - length l) b).
Proof. intros Hl. unfold fill. by rewrite (proj2 (Z.leb_le _ _)). Qed.

(** ** Entries in order *)
#[local] Abbreviation KV := (Z * Z)%type.
(** copying the entries with keys below [k]; the position where it stopped *)
Fixpoint copy_less (out keyvals : list KV) (size k : Z) (n : nat) (i : Z) : err + (list KV * Z) :=
  match n with
  | O => inl OutOfFuel
  | S n' =>
      if negb (i <? size) then inr (out, i)
      else
        e ← get keyvals i;
        if negb (e.1 <? k) then inr (out, i)
        else out' ← put out i e; copy_less out' keyvals size k n' (i + 1)
  end.

(** least and greatest key of a block *)
Fixpoint min_max (keyvals : list KV) (n : nat) (i minv maxv : Z) : err + (Z * Z) :=
  match n with
  | O => inr (minv, maxv)
  | S n' =>
      e ← get keyvals i;
      min_max keyvals n' (i + 1) (if e.1 <? minv then e.1 else minv) (if maxv <? e.1 then e.1 else maxv)
  end.
Lemma copy_less_spec k size e1 : ∀ out rest pre e2 pad n i,
  i = Z.of_nat (length out) → i = Z.of_nat (length pre) → size = i + Z.of_nat (length (e1 ++ e2)) →
  below k e1 → Forall (λ e, k ≤ e.1) e2 → (length e1 ≤ length rest)%nat → (length e1 < n)%nat →
  copy_less (out ++ rest) (pre ++ (e1 ++ e2) ++ pad) size k n i =
    inr (out ++ e1 ++ drop (length e1) rest, i + Z.of_nat (length e1)).
Proof.
  induction e1 as [|e e1 IH]; intros out rest pre e2 pad [|n] i Hi Hp Hsz Hb Ha Hr Hn; simpl in Hn; try lia;
    cbn [copy_less].
  - simpl. rewrite Z.add_0_r. destruct e2 as [|e e2].
    + simpl in Hsz. rewrite (proj2 (Z.ltb_ge i size)) by lia. done.
    + simpl in Hsz. rewrite (proj2 (Z.ltb_lt i size)) by lia. cbn [negb app]. rewrite get_app by done.
      unfold mbind, err_bind. apply Forall_cons in Ha as [Ha _]. rewrite (proj2 (Z.ltb_ge e.1 k)) by lia. done.
  - simpl in Hsz. rewrite (proj2 (Z.ltb_lt i size)) by lia. cbn [negb app]. rewrite get_app by done.
    unfold mbind, err_bind. apply Forall_cons in Hb as [He Hb]. rewrite (proj2 (Z.ltb_lt e.1 k)) by lia.
    cbn [negb]. destruct rest as [|x rest]; simpl in Hr; [lia|]. rewrite put_app by done.
    replace (out ++ e :: rest) with ((out ++ [e]) ++ rest) by (by rewrite <-app_assoc).
    replace (pre ++ e :: (e1 ++ e2) ++ pad) with ((pre ++ [e]) ++ (e1 ++ e2) ++ pad) by (by rewrite <-app_assoc).
    rewrite length_app in Hsz.
    rewrite (IH (out ++ [e]) rest (pre ++ [e]) e2 pad n (i + 1)); try done; rewrite ?length_app; simpl; try lia.
    rewrite <-app_assoc. simpl. by replace (i + 1 + Z.of_nat (length e1)) with (i + Z.of_nat (S (length e1))) by lia.
Qed.

(** such a computation as part of a program *)
Definition lift {S A} (r : err + A) : prog S A :=
  match r with inr a => mret a | inl e => fail e end.
Lemma wp_lift {S A B} (r : err + A) a (K : A → prog S B) Q s :
  r = inr a → wp (K a) Q s → wp (lift r ≫= K) Q s.
Proof. by intros ->. Qed.
