(* ===== verification/HashBlock.v ===== *)
(** * HashBlock: the hash map with arrays in its buckets
    (structures/hash_block/unordered_map.h).

    A bucket points to an immutable node: an array of 1, 3, 7 or 31 entries
    for up to 31 keys, a vector for more.  An update copies the node, into the
    size that fits, and installs the copy with the lock of the bucket or, when
    UseCAS is defined ([use_cas]), with a compare-and-swap.  All sizes are
    handled through pointers to [Node<0>], with casts chosen by [cnt]. *)

From stdpp Require Import prelude list gmap.
From Stdlib Require Import ZArith Lia.
From S2P Require Import Prelude Conc SpinLock Store MapSpec Arrays.
Local Open Scope Z_scope.

#[local] Abbreviation KV := (Z * Z)%type.

(** A bucket (with its lock), a [Node<Size>] with its array, a [BigNode] *)
Inductive obj :=
  | Bucket (ptr : Z)
  | Node (Size : Z) (cnt : Z) (entries : list KV)
  | BigNode (cnt : Z) (entries : list KV).

(** ** Ranges of entries *)
Section ranges.
(** the loop from [i], [n] times, over the entries from [off] on *)
Fixpoint find_from (entries : list KV) (off : Z) (n : nat) (i k : Z) : err + Z :=
  match n with
  | O => inr (-1)
  | S n' => e ← get entries (off + i);
            if e.1 =? k then inr i else find_from entries off n' (i + 1) k
  end.
Definition find_in_range (entries : list KV) (off cnt k : Z) : err + Z :=
  find_from entries off (Z.to_nat cnt) 0 k.

Definition copy_and_insert (out entries : list KV) (cnt k v : Z) : err + list KV :=
  out' ← copy out entries 0 (Z.to_nat cnt) 0;
  put out' cnt (k, v).

(** copying up to the key [k]; [guard] is the second test of the loop in
    copy_and_update *)
Fixpoint copy_until (guard : bool) (out entries : list KV) (cnt k : Z) (n : nat) (i : Z)
  : err + (list KV * Z) :=
  match n with
  | O => inl OutOfFuel
  | S n' =>
      e ← get entries i;
      if (k =? e.1) || (guard && negb (i <? cnt)) then inr (out, i)
      else if negb (i <? cnt) then inl AssertFailed
      else out' ← put out i e; copy_until guard out' entries cnt k n' (i + 1)
  end.

Definition copy_and_update (out entries : list KV) (cnt k : Z) (f : option Z → Z) : err + list KV :=
  r ← copy_until true out entries cnt k (S (Z.to_nat cnt)) 0;
  e ← get entries r.2;
  out' ← put r.1 r.2 (e.1, f (Some e.2));
  copy out' entries 0 (Z.to_nat (cnt - (r.2 + 1))) (r.2 + 1).

Definition copy_and_remove (out entries : list KV) (cnt k : Z) : err + list KV :=
  r ← copy_until false out entries cnt k (S (Z.to_nat cnt)) 0;
  copy r.1 entries 1 (Z.to_nat (cnt - 1 - r.2)) r.2.
End ranges.

(** ** Nodes *)
Section nodes.
Definition cnt_of (o : obj) : err + Z :=
  match o with Bucket _ => inl BadCast | Node _ cnt _ => inr cnt | BigNode cnt _ => inr cnt end.
(** [entries] through a pointer to Node<0>, and through a cast to BigNode *)
Definition node_entries (o : obj) : err + list KV :=
  match o with Node _ _ es => inr es | _ => inl BadCast end.
Definition big_entries (o : obj) : err + list KV :=
  match o with BigNode _ es => inr es | _ => inl BadCast end.

Definition find_index (o : obj) (k : Z) : err + Z :=
  cnt ← cnt_of o;
  if cnt <=? 31 then es ← node_entries o; find_in_range es 0 cnt k
  else es ← big_entries o; find_in_range es 0 cnt k.

(** [Node::find]: the search from the second entry on returns an index that
    starts there, which then indexes the whole array *)
Definition node_find (o : obj) (k : Z) : err + option Z :=
  cnt ← cnt_of o;
  if cnt <=? 31 then
    es ← node_entries o;
    e0 ← get es 0;
    if e0.1 =? k then inr (Some e0.2)
    else
      i ← find_in_range es 1 (cnt - 1) k;
      if i =? -1 then inr None else e ← get es i; inr (Some e.2)
  else
    es ← big_entries o;
    i ← find_in_range es 0 cnt k;
    if i =? -1 then inr None else e ← get es i; inr (Some e.2).

(** the arrays of new nodes, before their constructors fill them *)
Definition blank (n : Z) : list KV := replicate (Z.to_nat n) (0, 0).

(** the constructors of [Node<Size>]: copy and insert (from a null [old] too),
    copy and update, copy and remove *)
Definition Node_insert (Size : Z) (old : option obj) (k v : Z) : err + obj :=
  match old with
  | None => es ← copy_and_insert (blank Size) [] 0 k v; inr (Node Size 1 es)
  | Some o =>
      old_cnt ← cnt_of o;
      old_es ← node_entries o;
      es ← copy_and_insert (blank Size) old_es old_cnt k v;
      inr (Node Size (old_cnt + 1) es)
  end.
Definition Node_update (Size : Z) (old : obj) (k : Z) (f : option Z → Z) : err + obj :=
  cnt ← cnt_of old;
  old_es ← node_entries old;
  es ← copy_and_update (blank Size) old_es cnt k f;
  inr (Node Size cnt es).
Definition Node_remove (Size : Z) (old : obj) (k : Z) : err + obj :=
  old_cnt ← cnt_of old;
  old_es ← (if old_cnt - 1 =? 31 then big_entries old else node_entries old);
  es ← copy_and_remove (blank Size) old_es old_cnt k;
  inr (Node Size (old_cnt - 1) es).

(** those of [BigNode] *)
Definition BigNode_insert (old : obj) (k v : Z) : err + obj :=
  old_cnt ← cnt_of old;
  old_es ← (if old_cnt =? 31 then node_entries old else big_entries old);
  es ← copy_and_insert (blank (old_cnt + 1)) old_es old_cnt k v;
  inr (BigNode (old_cnt + 1) es).
Definition BigNode_update (old : obj) (k : Z) (f : option Z → Z) : err + obj :=
  cnt ← cnt_of old;
  old_es ← big_entries old;
  es ← copy_and_update (blank cnt) old_es cnt k f;
  inr (BigNode cnt es).
Definition BigNode_remove (old : obj) (k : Z) : err + obj :=
  old_cnt ← cnt_of old;
  old_es ← big_entries old;
  es ← copy_and_remove (blank (old_cnt - 1)) old_es old_cnt k;
  inr (BigNode (old_cnt - 1) es).

(** which of them the pools call *)
Definition insert_to_node (old : option obj) (k v : Z) : err + obj :=
  match old with
  | None => Node_insert 1 None k v
  | Some o =>
      cnt ← cnt_of o;
      if cnt <? 3 then Node_insert 3 old k v
      else if cnt <? 7 then Node_insert 7 old k v
      else if cnt <? 31 then Node_insert 31 old k v
      else BigNode_insert o k v
  end.
Definition update_node (old : obj) (k : Z) (f : option Z → Z) : err + obj :=
  cnt ← cnt_of old;
  if cnt =? 1 then Node_update 1 old k f
  else if cnt <=? 3 then Node_update 3 old k f
  else if cnt <=? 7 then Node_update 7 old k f
  else if cnt <=? 31 then Node_update 31 old k f
  else BigNode_update old k f.
(** update_node of new_unordered_map.h *)
Definition new_update_node (old : obj) (k : Z) (f : option Z → Z) : err + obj :=
  cnt ← cnt_of old;
  if cnt <? 3 then Node_update 3 old k f
  else if cnt <? 7 then Node_update 7 old k f
  else if cnt <? 31 then Node_update 31 old k f
  else BigNode_update old k f.
(** [None] is null *)
Definition remove_from_node (old : obj) (k : Z) : err + option obj :=
  cnt ← cnt_of old;
  if cnt =? 1 then inr None
  else
    o ← (if cnt =? 2 then Node_remove 1 old k
         else if cnt <=? 4 then Node_remove 3 old k
         else if cnt <=? 8 then Node_remove 7 old k
         else if cnt <=? 32 then Node_remove 31 old k
         else BigNode_remove old k);
    inr (Some o).

(** The pool that [cnt] selects, as the size it is for (0: big_node_pool);
    giving it an object of another type is an error. *)
Definition pool_of (cnt : Z) : Z :=
  if cnt =? 1 then 1 else if cnt <=? 3 then 3 else if cnt <=? 7 then 7 else if cnt <=? 31 then 31 else 0.
Definition cast_to_pool (o : obj) : err + unit :=
  cnt ← cnt_of o;
  match o with
  | Node Size _ _ => if Size =? pool_of cnt then inr tt else inl BadCast
  | BigNode _ _ => if pool_of cnt =? 0 then inr tt else inl BadCast
  | Bucket _ => inl BadCast
  end.
End nodes.

(** ** The table *)
Record Table := mkTable { table : list Z; size : Z }.

Section table.
Context (alloc : gmap Z obj → Z) (tid : nat) (use_cas : bool) (hash log2_up : Z → Z).
Context (with_epoch : ∀ A, prog (store_state obj) A → prog (store_state obj) A).
#[local] Abbreviation state := (store_state obj).

Definition ptr_c : Z → cell state Z :=
  field (λ o, match o with Bucket p => inr p | _ => inl BadCast end) (λ p _, Bucket p).

(** the object at [p], [None] when null *)
Definition deref (p : Z) : prog state (option obj) :=
  if p =? 0 then mret None else o ← load (node_c p); mret (Some o).

(** [&table[idx]] *)
Definition get_bucket (t : Table) (k : Z) : prog state Z :=
  match table t !! Z.to_nat (Z.land (hash k) (size t - 1)) with
  | Some b => mret b
  | None => fail OutOfBounds
  end.
Fixpoint new_buckets (n : nat) : prog state (list Z) :=
  match n with
  | O => mret []
  | S n' => b ← new_obj alloc (Bucket 0); bs ← new_buckets n'; mret (b :: bs)
  end.
(** the constructors [Table(n)] and [unordered_map(n)] *)
Definition new_table (n : Z) : prog state Table :=
  let sz := wrap64 (Z.shiftl 1 (log2_up n)) in
  bs ← new_buckets (Z.to_nat sz);
  mret (mkTable bs sz).
Definition unordered_map (n : Z) : prog state Table := new_table n.

Definition retire_node (old : Z) : prog state unit :=
  o ← deref old;
  match o with None => mret tt | Some o => lift (cast_to_pool o) ;; retire old end.
(** [destruct] of a pool frees at once *)
Definition destruct_node (old : Z) : prog state unit :=
  o ← deref old;
  match o with
  | None => mret tt
  | Some o => lift (cast_to_pool o) ;;
              modify (λ s, mkStore (delete old (nodes s)) (locks s) (retired s))
  end.

Definition try_update (s old_node new_node : Z) (ret_val : bool) : prog state (option bool) :=
  b ← (if use_cas then
         x ← load (ptr_c s);
         if x =? old_node then atomic.cas (ptr_c s) old_node new_node else mret false
       else
         try_lock tid s
           (x ← load (ptr_c s);
            if negb (x =? old_node) then mret false
            else store (ptr_c s) new_node ;; mret true));
  if (b : bool) then retire_node old_node ;; mret (Some ret_val)
  else destruct_node new_node ;; mret None.

(** the answer that the key is there, or is not, checked under read_lock *)
Definition answer_false (s old_node : Z) : prog state (option bool) :=
  if use_cas then mret (Some false)
  else
    b ← read_lock (x ← load (ptr_c s); mret (x =? old_node));
    mret (if (b : bool) then Some false else None).

(** [old_node != nullptr && old_node->find_index(k) != -1] *)
Definition found_in (old : option obj) (k : Z) : prog state bool :=
  match old with
  | None => mret false
  | Some o => i ← lift (find_index o k); mret (negb (i =? -1))
  end.

Definition try_insert_at (s k v : Z) : prog state (option bool) :=
  old_node ← load (ptr_c s);
  old ← deref old_node;
  found ← found_in old k;
  if (found : bool) then answer_false s old_node
  else
    o ← lift (insert_to_node old k v);
    new_node ← new_obj alloc o;
    try_update s old_node new_node true.

Definition new_update (old_node k : Z) (f : option Z → Z) : prog state Z :=
  o ← load (node_c old_node);
  o' ← lift (update_node o k f);
  new_obj alloc o'.

Definition try_upsert_at (s k : Z) (f : option Z → Z) : prog state (option bool) :=
  old_node ← load (ptr_c s);
  old ← deref old_node;
  found ← found_in old k;
  if negb found then
    o ← lift (insert_to_node old k (f None));
    new_node ← new_obj alloc o;
    try_update s old_node new_node true
  else if use_cas then
    new_node ← new_update old_node k f;
    try_update s old_node new_node false
  else
    b ← try_lock tid s
      (x ← load (ptr_c s);
       if negb (x =? old_node) then mret false
       else
         new_node ← new_update old_node k f;
         store (ptr_c s) new_node ;;
         mret true);
    if (b : bool) then retire_node old_node ;; mret (Some false) else mret None.

Definition try_remove_at (s k : Z) : prog state (option bool) :=
  old_node ← load (ptr_c s);
  old ← deref old_node;
  found ← found_in old k;
  match old with
  | Some old' =>
      if (found : bool) then
        o ← lift (remove_from_node old' k);
        new_node ← (match o with Some o' => new_obj alloc o' | None => mret 0 end);
        try_update s old_node new_node true
      else answer_false s old_node
  | None => answer_false s old_node
  end.

Definition find_at (x k : Z) : prog state (option Z) :=
  o ← deref x;
  match o with None => mret None | Some o => lift (node_find o k) end.

Definition find_ (t : Table) (k : Z) : prog state (option Z) :=
  s ← get_bucket t k; x ← load (ptr_c s); find_at x k.
Definition find (t : Table) (k : Z) : prog state (option Z) :=
  s ← get_bucket t k;
  with_epoch (option Z) (x ← load (ptr_c s); find_at x k).
Definition find_locked (t : Table) (k : Z) : prog state (option Z) :=
  s ← get_bucket t k; x ← read_lock (load (ptr_c s)); find_at x k.

Definition insert (fuel : nat) (t : Table) (k v : Z) : prog state bool :=
  s ← get_bucket t k;
  with_epoch bool (flock.try_loop fuel (try_insert_at s k v)).
Definition insert_ (fuel : nat) (t : Table) (k v : Z) : prog state bool :=
  s ← get_bucket t k; flock.try_loop fuel (try_insert_at s k v).
Definition upsert (fuel : nat) (t : Table) (k : Z) (f : option Z → Z) : prog state bool :=
  s ← get_bucket t k;
  with_epoch bool (flock.try_loop fuel (try_upsert_at s k f)).
Definition upsert_ (fuel : nat) (t : Table) (k : Z) (f : option Z → Z) : prog state bool :=
  s ← get_bucket t k; flock.try_loop fuel (try_upsert_at s k f).
Definition remove (fuel : nat) (t : Table) (k : Z) : prog state bool :=
  s ← get_bucket t k;
  with_epoch bool (flock.try_loop fuel (try_remove_at s k)).
Definition remove_ (fuel : nat) (t : Table) (k : Z) : prog state bool :=
  s ← get_bucket t k; flock.try_loop fuel (try_remove_at s k).

(** the sum of the counts, which are ints *)
Fixpoint sum_counts (bs : list Z) : prog state Z :=
  match bs with
  | [] => mret 0
  | b :: bs' =>
      x ← load (ptr_c b);
      o ← deref x;
      c ← lift (match o with None => inr 0 | Some o => cnt_of o end);
      r ← sum_counts bs';
      mret (s32 (c + r))
  end.
Definition size_ (t : Table) : prog state Z := sum_counts (table t).
Definition check (t : Table) : prog state Z := size_ t.

Definition destructor (t : Table) : prog state unit :=
  for_each (table t) (λ b, x ← load (ptr_c b); retire_node x).
End table.

(** ** The arrays *)
Section array_lemmas.
Implicit Types c pad out : list KV.

(** the first entry with key [k] *)
Definition index_of (k : Z) c : Z :=
  match list_find (λ p, p.1 = k) c with Some (i, _) => Z.of_nat i | None => -1 end.

Lemma find_from_spec k c : ∀ pre pad done_ off i,
  off + i = Z.of_nat (length (pre ++ done_)) → i = Z.of_nat (length done_) →
  find_from (pre ++ done_ ++ c ++ pad) off (length c) i k =
    inr (if index_of k c =? -1 then -1 else i + index_of k c).
Proof.
  induction c as [|e c IH]; intros pre pad dn off i Hoff Hi; [done|].
  cbn [find_from length]. rewrite (app_assoc pre dn). cbn [app].
  rewrite get_app by done. unfold mbind at 1, err_bind at 1. unfold index_of. cbn [list_find].
  destruct (Z.eqb_spec e.1 k) as [Heq|Hne].
  - rewrite decide_True by done. simpl. f_equal. lia.
  - rewrite decide_False by done. replace (e :: c ++ pad) with ([e] ++ c ++ pad) by done.
    rewrite <-(app_assoc pre dn), (app_assoc dn [e]).
    rewrite IH by (rewrite ?length_app in *; simpl; lia). unfold index_of.
    destruct (list_find _ c) as [[j p]|]; simpl; [|done].
    destruct (Z.eqb_spec (Z.of_nat j) (-1)); [lia|]. f_equal. lia.
Qed.

Lemma find_in_range_spec k pre c pad :
  find_in_range (pre ++ c ++ pad) (Z.of_nat (length pre)) (Z.of_nat (length c)) k = inr (index_of k c).
Proof.
  unfold find_in_range. rewrite Nat2Z.id.
  pose proof (find_from_spec k c pre pad [] (Z.of_nat (length pre)) 0) as Hf. simpl in Hf.
  rewrite Hf by (rewrite ?app_nil_r; lia).
  destruct (Z.eqb_spec (index_of k c) (-1)) as [->|]; [done|]. by rewrite Z.add_0_l.
Qed.

Lemma copy_and_insert_spec c pad n k v : (length c < n)%nat →
  copy_and_insert (replicate n (0, 0)) (c ++ pad) (Z.of_nat (length c)) k v =
    inr (c ++ (k, v) :: replicate (n - S (length c)) (0, 0)).
Proof.
  intros Hn. unfold copy_and_insert. rewrite Nat2Z.id.
  pose proof (copy_spec c [] (replicate n (0, 0)) (c ++ pad) [] pad 0 0) as Hc. simpl in Hc.
  rewrite Hc by (rewrite ?length_replicate; (done || lia)).
  unfold mbind, err_bind. rewrite drop_replicate.
  replace (n - length c)%nat with (S (n - S (length c))) by lia. cbn [replicate].
  by apply put_app.
Qed.

(** the loops that stop at the key *)
Lemma copy_until_spec guard k v c1 : ∀ out rest entries pre post cnt n i,
  Forall (λ p, p.1 ≠ k) c1 → i = Z.of_nat (length out) → i = Z.of_nat (length pre) →
  entries = pre ++ c1 ++ (k, v) :: post → (length c1 ≤ length rest)%nat →
  i + Z.of_nat (length c1) < cnt → (length c1 < n)%nat →
  copy_until guard (out ++ rest) entries cnt k n i =
    inr (out ++ c1 ++ drop (length c1) rest, i + Z.of_nat (length c1)).
Proof.
  induction c1 as [|e c1 IH]; intros out rest entries pre post cnt [|n] i Hk Hi Hp Hen Hr Hcnt Hn;
    simpl in Hcnt, Hn; try lia; cbn [copy_until]; rewrite Hen; cbn [app].
  - rewrite get_app by done. unfold mbind, err_bind. simpl. rewrite Z.eqb_refl, Z.add_0_r. done.
  - apply Forall_cons in Hk as [Hne Hk]. destruct rest as [|x rest]; simpl in Hr; [lia|].
    rewrite get_app by done. unfold mbind, err_bind.
    rewrite (proj2 (Z.eqb_neq k e.1)) by congruence. rewrite (proj2 (Z.ltb_lt i cnt)) by lia.
    rewrite andb_false_r. cbn [orb negb]. rewrite put_app by done.
    replace (out ++ e :: rest) with ((out ++ [e]) ++ rest) by (by rewrite <-app_assoc).
    rewrite (IH (out ++ [e]) rest _ (pre ++ [e]) post); try done; rewrite ?length_app; simpl; try lia.
    + rewrite <-app_assoc. simpl. by replace (i + 1 + Z.of_nat (length c1)) with (i + Z.of_nat (S (length c1))) by lia.
    + by rewrite <-app_assoc.
Qed.

Lemma copy_and_update_spec c1 k v c2 pad n f : Forall (λ p, p.1 ≠ k) c1 →
  (length c1 + S (length c2) ≤ n)%nat →
  copy_and_update (replicate n (0, 0)) ((c1 ++ (k, v) :: c2) ++ pad) (Z.of_nat (length (c1 ++ (k, v) :: c2))) k f =
    inr (c1 ++ (k, f (Some v)) :: c2 ++ replicate (n - length (c1 ++ (k, v) :: c2)) (0, 0)).
Proof.
  intros Hk Hn. unfold copy_and_update. rewrite Nat2Z.id.
  rewrite <-app_assoc. simpl.
  pose proof (copy_until_spec true k v c1 [] (replicate n (0, 0)) (c1 ++ (k, v) :: c2 ++ pad) [] (c2 ++ pad)
    (Z.of_nat (length (c1 ++ (k, v) :: c2))) (S (length (c1 ++ (k, v) :: c2))) 0) as Hu. simpl in Hu.
  rewrite Hu; clear Hu; try done; rewrite ?length_replicate, ?length_app; simpl; try lia.
  unfold mbind at 1, err_bind at 1. simpl fst; simpl snd.
  rewrite get_app by done. unfold mbind, err_bind. simpl fst; simpl snd.
  rewrite drop_replicate. replace (n - length c1)%nat with (S (n - S (length c1))) by lia. cbn [replicate].
  rewrite put_app by done.
  replace (Z.to_nat _) with (length c2) by lia.
  replace (c1 ++ (k, f (Some v)) :: replicate (n - S (length c1)) (0, 0)) with
    ((c1 ++ [(k, f (Some v))]) ++ replicate (n - S (length c1)) (0, 0)) by (by rewrite <-app_assoc).
  rewrite (copy_spec c2 _ _ _ (c1 ++ [(k, v)]) pad).
  - rewrite drop_replicate, <-app_assoc. simpl. do 3 f_equal.
    by replace (n - S (length c1) - length c2)%nat with (n - (length c1 + S (length c2)))%nat by lia.
  - rewrite length_app; simpl; lia.
  - rewrite length_app; simpl; lia.
  - by rewrite <-app_assoc.
  - rewrite length_replicate. lia.
Qed.

Lemma copy_and_remove_spec c1 k v c2 pad n : Forall (λ p, p.1 ≠ k) c1 →
  (length c1 + length c2 ≤ n)%nat →
  copy_and_remove (replicate n (0, 0)) ((c1 ++ (k, v) :: c2) ++ pad) (Z.of_nat (length (c1 ++ (k, v) :: c2))) k =
    inr (c1 ++ c2 ++ replicate (n - length (c1 ++ c2)) (0, 0)).
Proof.
  intros Hk Hn. unfold copy_and_remove. rewrite Nat2Z.id.
  rewrite <-app_assoc. simpl.
  pose proof (copy_until_spec false k v c1 [] (replicate n (0, 0)) (c1 ++ (k, v) :: c2 ++ pad) [] (c2 ++ pad)
    (Z.of_nat (length (c1 ++ (k, v) :: c2))) (S (length (c1 ++ (k, v) :: c2))) 0) as Hu. simpl in Hu.
  rewrite Hu; clear Hu; try done; rewrite ?length_replicate, ?length_app; simpl; try lia.
  unfold mbind, err_bind. simpl fst; simpl snd.
  replace (Z.to_nat _) with (length c2) by lia.
  rewrite drop_replicate.
  rewrite (copy_spec c2 _ _ _ (c1 ++ [(k, v)]) pad).
  - rewrite drop_replicate. by replace (n - length c1 - length c2)%nat with (n - (length c1 + length c2))%nat by lia.
  - lia.
  - rewrite length_app; simpl; lia.
  - by rewrite <-app_assoc.
  - rewrite length_replicate. lia.
Qed.
End array_lemmas.

(** ** The contents of a node

    [node_holds o c]: the entries of [o] are [c], and its size is the one that
    their number selects. *)
Definition node_holds (o : obj) (c : list KV) : Prop :=
  match o with
  | Bucket _ => False
  | Node Size cnt es => cnt = Z.of_nat (length c) ∧ 1 ≤ cnt ≤ 31 ∧ Size = pool_of cnt ∧
      ∃ pad, es = c ++ pad ∧ length es = Z.to_nat Size
  | BigNode cnt es => cnt = Z.of_nat (length c) ∧ 32 ≤ cnt ∧ es = c
  end.

Section node_lemmas.
Implicit Types c : list KV.

Lemma pool_of_cases cnt : 1 ≤ cnt →
  (cnt = 1 ∧ pool_of cnt = 1) ∨ (1 < cnt ≤ 3 ∧ pool_of cnt = 3) ∨ (3 < cnt ≤ 7 ∧ pool_of cnt = 7) ∨
  (7 < cnt ≤ 31 ∧ pool_of cnt = 31) ∨ (31 < cnt ∧ pool_of cnt = 0).
Proof. intros. unfold pool_of. repeat case_bool; lia. Qed.

Lemma holds_cnt o c : node_holds o c → cnt_of o = inr (Z.of_nat (length c)) ∧ (1 ≤ length c)%nat.
Proof. destruct o; simpl; [done|intros (-> & ? & _)|intros (-> & ? & _)]; split; (done || lia). Qed.

(** the array that the code picks for the count of [o] *)
Lemma holds_small o c : node_holds o c → (length c ≤ 31)%nat → ∃ pad, node_entries o = inr (c ++ pad).
Proof. destruct o; simpl; [done|intros (-> & ? & _ & pad & -> & _); eauto|intros (-> & ? & _); lia]. Qed.
Lemma holds_big o c : node_holds o c → (32 ≤ length c)%nat → big_entries o = inr c.
Proof. destruct o; simpl; [done|intros (-> & ? & _); lia|by intros (-> & ? & ->)]. Qed.

Lemma cast_ok o c : node_holds o c → cast_to_pool o = inr tt.
Proof.
  intros Ho. destruct (holds_cnt _ _ Ho) as [Hc _]. unfold cast_to_pool. rewrite Hc.
  unfold mbind, err_bind. destruct o as [|Size cnt es|cnt es]; simpl in Ho; [done| |].
  - destruct Ho as (<- & _ & -> & _). by rewrite Z.eqb_refl.
  - destruct Ho as (<- & Hle & _). destruct (pool_of_cases cnt) as [?|[?|[?|[?|[_ ->]]]]]; (done || lia).
Qed.

Lemma find_index_spec o c k : node_holds o c → find_index o k = inr (index_of k c).
Proof.
  intros Ho. destruct (holds_cnt _ _ Ho) as [Hc _]. unfold find_index. rewrite Hc.
  unfold mbind at 1, err_bind at 1. destruct (Z.leb_spec (Z.of_nat (length c)) 31).
  - destruct (holds_small _ _ Ho) as [pad ->]; [lia|]. apply (find_in_range_spec k [] c pad).
  - rewrite (holds_big _ _ Ho) by lia. unfold mbind, err_bind.
    pose proof (find_in_range_spec k [] c []) as Hf. by rewrite app_nil_r in Hf.
Qed.

(** what the constructors make *)
Lemma Node_insert_spec Size o c k v : node_holds o c → (length c < 31)%nat →
  Size = pool_of (Z.of_nat (length c) + 1) → Z.of_nat (length c) + 1 ≤ Size →
  ∃ o', Node_insert Size (Some o) k v = inr o' ∧ node_holds o' (c ++ [(k, v)]).
Proof.
  intros Ho Hlt HS Hle. destruct (holds_cnt _ _ Ho) as [Hc _]. destruct (holds_small _ _ Ho) as [pad Hes]; [lia|].
  unfold Node_insert. rewrite Hc. unfold mbind, err_bind. rewrite Hes. unfold blank.
  rewrite copy_and_insert_spec by lia. eexists. split; [done|]. simpl.
  rewrite length_app; simpl. split; [lia|]. split; [lia|]. split; [done|].
  eexists. split; [by rewrite <-app_assoc|]. rewrite length_app; simpl. rewrite length_replicate. lia.
Qed.
Lemma BigNode_insert_spec o c k v : node_holds o c → (31 ≤ length c)%nat →
  ∃ o', BigNode_insert o k v = inr o' ∧ node_holds o' (c ++ [(k, v)]).
Proof.
  intros Ho Hle. destruct (holds_cnt _ _ Ho) as [Hc _].
  assert (∃ pad, (if Z.of_nat (length c) =? 31 then node_entries o else big_entries o) = inr (c ++ pad)) as [pad Hes].
  { destruct (Z.eqb_spec (Z.of_nat (length c)) 31); [apply holds_small; [done|lia]|].
    exists []. rewrite app_nil_r. apply holds_big; [done|lia]. }
  unfold BigNode_insert. rewrite Hc. unfold mbind, err_bind. rewrite Hes. unfold blank.
  rewrite copy_and_insert_spec by lia. eexists. split; [done|]. simpl.
  rewrite length_app; simpl. split; [lia|]. split; [lia|].
  by replace (Z.to_nat _ - _)%nat with 0%nat by lia.
Qed.

Lemma insert_to_node_spec o c k v : node_holds o c →
  ∃ o', insert_to_node (Some o) k v = inr o' ∧ node_holds o' (c ++ [(k, v)]).
Proof.
  intros Ho. destruct (holds_cnt _ _ Ho) as [Hc Hge]. unfold insert_to_node. rewrite Hc.
  unfold mbind at 1, err_bind at 1.
  destruct (pool_of_cases (Z.of_nat (length c) + 1)) as [?|[?|[?|[?|?]]]]; [lia| | | | |];
    repeat case_bool; try lia;
    (apply Node_insert_spec; [done|lia..]) || (apply BigNode_insert_spec; [done|lia]).
Qed.
Lemma insert_to_null k v : ∃ o', insert_to_node None k v = inr o' ∧ node_holds o' [(k, v)].
Proof.
  eexists. split; [reflexivity|]. simpl. split; [done|]. split; [done|]. split; [done|]. by exists [].
Qed.

Lemma Node_update_spec Size o c1 k v c2 f : node_holds o (c1 ++ (k, v) :: c2) → Forall (λ p, p.1 ≠ k) c1 →
  let cnt := Z.of_nat (length (c1 ++ (k, v) :: c2)) in
  cnt ≤ 31 → Size = pool_of cnt → cnt ≤ Size →
  ∃ o', Node_update Size o k f = inr o' ∧ node_holds o' (c1 ++ (k, f (Some v)) :: c2).
Proof.
  intros Ho Hk cnt Hlt HS Hle. subst cnt. destruct (holds_cnt _ _ Ho) as [Hc Hge].
  destruct (holds_small _ _ Ho) as [pad Hes]; [lia|].
  unfold Node_update. rewrite Hc. unfold mbind, err_bind. rewrite Hes. unfold blank.
  pose proof (length_app c1 ((k, v) :: c2)) as Hlen. simpl in Hlen.
  assert (length (c1 ++ (k, f (Some v)) :: c2) = length (c1 ++ (k, v) :: c2)) as Hlen' by (by rewrite !length_app).
  rewrite copy_and_update_spec by (done || lia). eexists. split; [done|]. simpl.
  rewrite Hlen'. split; [done|]. split; [lia|]. split; [done|].
  eexists. split; [by rewrite <-app_assoc|]. rewrite length_app; simpl. rewrite length_app, length_replicate. lia.
Qed.
Lemma BigNode_update_spec o c1 k v c2 f : node_holds o (c1 ++ (k, v) :: c2) → Forall (λ p, p.1 ≠ k) c1 →
  (32 ≤ length (c1 ++ (k, v) :: c2))%nat →
  ∃ o', BigNode_update o k f = inr o' ∧ node_holds o' (c1 ++ (k, f (Some v)) :: c2).
Proof.
  intros Ho Hk Hle. destruct (holds_cnt _ _ Ho) as [Hc Hge].
  unfold BigNode_update. rewrite Hc. unfold mbind, err_bind. rewrite (holds_big _ _ Ho) by lia. unfold blank.
  pose proof (length_app c1 ((k, v) :: c2)) as Hlen. simpl in Hlen.
  assert (length (c1 ++ (k, f (Some v)) :: c2) = length (c1 ++ (k, v) :: c2)) as Hlen' by (by rewrite !length_app).
  pose proof (copy_and_update_spec c1 k v c2 [] (Z.to_nat (Z.of_nat (length (c1 ++ (k, v) :: c2)))) f) as Hu.
  rewrite app_nil_r in Hu. rewrite Hu by (done || lia). eexists. split; [done|]. simpl.
  rewrite Hlen'. split; [done|]. split; [lia|].
  replace (Z.to_nat _ - _)%nat with 0%nat by lia. by rewrite app_nil_r.
Qed.
Lemma update_node_spec o c1 k v c2 f : node_holds o (c1 ++ (k, v) :: c2) → Forall (λ p, p.1 ≠ k) c1 →
  ∃ o', update_node o k f = inr o' ∧ node_holds o' (c1 ++ (k, f (Some v)) :: c2).
Proof.
  intros Ho Hk. destruct (holds_cnt _ _ Ho) as [Hc Hge]. unfold update_node. rewrite Hc.
  unfold mbind at 1, err_bind at 1.
  destruct (pool_of_cases (Z.of_nat (length (c1 ++ (k, v) :: c2)))) as [?|[?|[?|[?|?]]]]; [lia| | | | |];
    repeat case_bool; try lia;
    (eapply Node_update_spec; [done|done|lia..]) || (eapply BigNode_update_spec; [done|done|lia]).
Qed.

Lemma Node_remove_spec Size o c1 k v c2 : node_holds o (c1 ++ (k, v) :: c2) → Forall (λ p, p.1 ≠ k) c1 →
  let cnt := Z.of_nat (length (c1 ++ c2)) in
  1 ≤ cnt ≤ 31 → Size = pool_of cnt → cnt ≤ Size →
  ∃ o', Node_remove Size o k = inr o' ∧ node_holds o' (c1 ++ c2).
Proof.
  intros Ho Hk cnt Hlt HS Hle. subst cnt. destruct (holds_cnt _ _ Ho) as [Hc Hge].
  assert (length (c1 ++ (k, v) :: c2) = S (length (c1 ++ c2))) as Hlen by (rewrite !length_app; simpl; lia).
  assert (∃ pad, (if Z.of_nat (length (c1 ++ (k, v) :: c2)) - 1 =? 31 then big_entries o else node_entries o)
    = inr ((c1 ++ (k, v) :: c2) ++ pad)) as [pad Hes].
  { case_bool; [|apply holds_small; [done|lia]].
    exists []. rewrite app_nil_r. apply holds_big; [done|lia]. }
  unfold Node_remove. rewrite Hc. unfold mbind, err_bind. rewrite Hes. unfold blank.
  rewrite copy_and_remove_spec by (done || (rewrite <-length_app; lia)). eexists. split; [done|]. simpl.
  split; [lia|]. split; [lia|]. split; [by rewrite Hlen, HS; f_equal; lia|].
  eexists. split; [by rewrite app_assoc|]. rewrite app_assoc, length_app, length_replicate. lia.
Qed.
Lemma BigNode_remove_spec o c1 k v c2 : node_holds o (c1 ++ (k, v) :: c2) → Forall (λ p, p.1 ≠ k) c1 →
  (32 ≤ length (c1 ++ c2))%nat →
  ∃ o', BigNode_remove o k = inr o' ∧ node_holds o' (c1 ++ c2).
Proof.
  intros Ho Hk Hle. destruct (holds_cnt _ _ Ho) as [Hc Hge].
  assert (length (c1 ++ (k, v) :: c2) = S (length (c1 ++ c2))) as Hlen by (rewrite !length_app; simpl; lia).
  unfold BigNode_remove. rewrite Hc. unfold mbind, err_bind. rewrite (holds_big _ _ Ho) by lia. unfold blank.
  pose proof (copy_and_remove_spec c1 k v c2 [] (Z.to_nat (Z.of_nat (length (c1 ++ (k, v) :: c2)) - 1))) as Hu.
  rewrite app_nil_r in Hu. rewrite Hu by (done || (rewrite <-length_app; lia)). eexists. split; [done|]. simpl.
  split; [lia|]. split; [lia|].
  replace (Z.to_nat _ - _)%nat with 0%nat by lia. by rewrite app_nil_r.
Qed.
Lemma remove_from_node_spec o c1 k v c2 : node_holds o (c1 ++ (k, v) :: c2) → Forall (λ p, p.1 ≠ k) c1 →
  ∃ r, remove_from_node o k = inr r ∧
    match r with None => c1 ++ c2 = [] | Some o' => node_holds o' (c1 ++ c2) end.
Proof.
  intros Ho Hk. destruct (holds_cnt _ _ Ho) as [Hc Hge]. unfold remove_from_node. rewrite Hc.
  unfold mbind at 1, err_bind at 1.
  assert (length (c1 ++ (k, v) :: c2) = S (length (c1 ++ c2))) as Hlen by (rewrite !length_app; simpl; lia).
  rewrite Hlen. destruct (Z.eqb_spec (Z.of_nat (S (length (c1 ++ c2)))) 1) as [H1|H1].
  { exists None. split; [done|]. apply length_zero_iff_nil. lia. }
  assert (∃ o', (if Z.of_nat (S (length (c1 ++ c2))) =? 2 then Node_remove 1 o k
         else if Z.of_nat (S (length (c1 ++ c2))) <=? 4 then Node_remove 3 o k
         else if Z.of_nat (S (length (c1 ++ c2))) <=? 8 then Node_remove 7 o k
         else if Z.of_nat (S (length (c1 ++ c2))) <=? 32 then Node_remove 31 o k
         else BigNode_remove o k) = inr o' ∧ node_holds o' (c1 ++ c2)) as (o' & -> & Ho').
  { destruct (pool_of_cases (Z.of_nat (length (c1 ++ c2)))) as [?|[?|[?|[?|?]]]]; [lia| | | | |];
      repeat case_bool; try lia;
      (eapply Node_remove_spec; [done|done|lia..]) || (eapply BigNode_remove_spec; [done|done|lia]). }
  by exists (Some o').
Qed.
End node_lemmas.

(** ** Keys in a bucket *)
Section contents.
Implicit Types c : list KV.

Lemma index_of_none k c : index_of k c = -1 ↔ k ∉ c.*1.
Proof.
  unfold index_of. destruct (list_find _ c) as [[i [k' v]]|] eqn:E.
  - apply list_find_Some in E as (Hi & Hk & _). simpl in Hk. subst k'. split; [lia|].
    intros Hn. exfalso. apply Hn. apply list_elem_of_fmap. exists (k, v). split; [done|].
    by eapply list_elem_of_lookup_2.
  - apply list_find_None in E. split; [|done]. intros _ (p & -> & Hp)%list_elem_of_fmap.
    rewrite Forall_forall in E. by apply (E p).
Qed.
Lemma index_of_some k c : index_of k c ≠ -1 → ∃ c1 v c2, c = c1 ++ (k, v) :: c2 ∧
  Forall (λ p, p.1 ≠ k) c1 ∧ index_of k c = Z.of_nat (length c1).
Proof.
  unfold index_of. destruct (list_find _ c) as [[i [k' v]]|] eqn:E; [|done]. intros _.
  apply list_find_Some in E as (Hi & Hk & Hlt). simpl in Hk. subst k'.
  exists (take i c), v, (drop (S i) c). split; [by rewrite take_drop_middle|].
  split.
  - apply Forall_forall. intros p (j & Hj)%list_elem_of_lookup.
    apply lookup_take_Some in Hj as [Hj ?]. by eapply Hlt.
  - rewrite length_take. apply lookup_lt_Some in Hi. lia.
Qed.

(** the first index of a key that is there *)
Lemma index_of_app k v c1 c2 : Forall (λ p, p.1 ≠ k) c1 →
  index_of k (c1 ++ (k, v) :: c2) = Z.of_nat (length c1).
Proof.
  intros Hc. unfold index_of.
  assert (list_find (λ p : KV, p.1 = k) (c1 ++ (k, v) :: c2) = Some (length c1, (k, v))) as ->; [|done].
  apply list_find_Some. split; [by apply list_lookup_middle|]. split; [done|].
  intros j y Hj Hlt. rewrite lookup_app_l in Hj by done. rewrite Forall_forall in Hc.
  apply Hc. by eapply list_elem_of_lookup_2.
Qed.

Lemma contents_none k c : (k ∉ c.*1) → to_map c !! k = None.
Proof. apply not_elem_of_list_to_map_1. Qed.
Lemma contents_mid k v c1 c2 : NoDup (c1 ++ (k, v) :: c2).*1 →
  to_map (c1 ++ (k, v) :: c2) = <[k := v]> (to_map (c1 ++ c2)) ∧ to_map (c1 ++ c2) !! k = None ∧
  NoDup (c1 ++ c2).*1.
Proof.
  intros Hnd. assert ((c1 ++ (k, v) :: c2).*1 ≡ₚ k :: (c1 ++ c2).*1) as Hp
    by (by rewrite !fmap_app, fmap_cons, <-Permutation_middle).
  pose proof Hnd as Hnd'. rewrite Hp in Hnd'. apply NoDup_cons in Hnd' as [Hk Hnd'].
  split; [|split; [by apply contents_none|done]].
  unfold to_map. rewrite (list_to_map_proper _ ((k, v) :: c1 ++ c2)); [done|done|].
  by rewrite <-Permutation_middle.
Qed.

(** what [Node::find] answers *)
Definition found_value (k : Z) c : option Z :=
  match c with
  | [] => None
  | e0 :: rest =>
      if e0.1 =? k then Some e0.2
      else if Z.of_nat (length c) <=? 31 then
        if index_of k rest =? -1 then None else snd <$> c !! Z.to_nat (index_of k rest)
      else if index_of k c =? -1 then None else snd <$> c !! Z.to_nat (index_of k c)
  end.

Lemma index_of_range k c : index_of k c ≠ -1 → 0 ≤ index_of k c < Z.of_nat (length c).
Proof.
  intros H. destruct (index_of_some k c H) as (c1 & v & c2 & -> & _ & ->).
  rewrite length_app. simpl. lia.
Qed.

Lemma node_find_spec o c k : node_holds o c → node_find o k = inr (found_value k c).
Proof.
  intros Ho. destruct (holds_cnt _ _ Ho) as [Hc Hge]. unfold node_find. rewrite Hc.
  unfold mbind at 1, err_bind at 1. destruct c as [|e0 rest]; simpl in Hge; [lia|].
  cbn [found_value]. destruct (Z.leb_spec (Z.of_nat (length (e0 :: rest))) 31) as [Hle|Hgt].
  - destruct (holds_small _ _ Ho) as [pad ->]; [lia|]. unfold mbind, err_bind.
    change ((e0 :: rest) ++ pad) with ([] ++ e0 :: (rest ++ pad)). rewrite get_app by done.
    destruct (e0.1 =? k); [done|].
    pose proof (find_in_range_spec k [e0] rest pad) as Hf.
    change ([e0] ++ rest ++ pad) with ([] ++ e0 :: (rest ++ pad)) in Hf. simpl length in *.
    replace (Z.of_nat (S (length rest)) - 1) with (Z.of_nat (length rest)) by lia.
    change (Z.of_nat 1) with 1 in Hf. rewrite Hf. destruct (Z.eqb_spec (index_of k rest) (-1)) as [|Hne]; [done|].
    apply index_of_range in Hne.
    destruct (get_lookup (e0 :: rest) pad (index_of k rest)) as (e & -> & Hg); [simpl; lia|].
    change ([] ++ e0 :: (rest ++ pad)) with ((e0 :: rest) ++ pad). by rewrite Hg.
  - rewrite (holds_big _ _ Ho) by lia. unfold mbind, err_bind.
    pose proof (find_in_range_spec k [] (e0 :: rest) []) as Hf. rewrite app_nil_r in Hf.
    change (([] : list KV) ++ e0 :: rest) with (e0 :: rest) in Hf. change (Z.of_nat (length ([] : list KV))) with 0 in Hf. rewrite Hf.
    destruct (Z.eqb_spec (e0.1) k) as [He|Hne0].
    + destruct e0 as [k0 v0]. simpl in He. subst k0.
      assert (index_of k ((k, v0) :: rest) = 0) as -> by (apply (index_of_app k v0 []); constructor).
      done.
    + destruct (Z.eqb_spec (index_of k (e0 :: rest)) (-1)) as [|Hne]; [done|].
      apply index_of_range in Hne.
      destruct (get_lookup (e0 :: rest) [] (index_of k (e0 :: rest))) as (e & -> & Hg); [lia|].
      rewrite app_nil_r in Hg. by rewrite Hg.
Qed.

(** it finds something exactly when the key is there *)
Lemma found_value_some k c : is_Some (found_value k c) ↔ k ∈ c.*1.
Proof.
  destruct c as [|e0 rest]; [simpl; split; [by intros [? ?]|by intros ?%elem_of_nil]|].
  cbn [found_value]. rewrite fmap_cons, elem_of_cons.
  destruct (Z.eqb_spec e0.1 k) as [->|Hne]; [split; eauto|].
  case_match.
  - destruct (Z.eqb_spec (index_of k rest) (-1)) as [Hi|Hi].
    + apply index_of_none in Hi. split; [by intros [? ?]|intros [?|?]; [congruence|done]].
    + pose proof (index_of_range _ _ Hi) as Hr. split.
      * intros _. right. destruct (decide (k ∈ rest.*1)); [done|]. by apply index_of_none in n.
      * intros _. destruct (lookup_lt_is_Some_2 (e0 :: rest) (Z.to_nat (index_of k rest))) as [e ->];
          [simpl; lia|eauto].
  - destruct (Z.eqb_spec (index_of k (e0 :: rest)) (-1)) as [Hi|Hi].
    + apply index_of_none in Hi. rewrite fmap_cons, elem_of_cons in Hi. split; [by intros [? ?]|tauto].
    + pose proof (index_of_range _ _ Hi) as Hr. split.
      * intros _. destruct (decide (k ∈ (e0 :: rest).*1)) as [Hk|Hk]; [by apply elem_of_cons in Hk|].
        by apply index_of_none in Hk.
      * intros _. destruct (lookup_lt_is_Some_2 (e0 :: rest) (Z.to_nat (index_of k (e0 :: rest)))) as [e ->];
          [lia|eauto].
Qed.
End contents.

(** ** The table in memory *)
Definition bucket_holds (m : gmap Z obj) (p : Z) (c : list KV) : Prop :=
  if p =? 0 then c = [] else ∃ o, m !! p = Some o ∧ node_holds o c.

Section proofs.
Context (alloc : gmap Z obj → Z) {fresh : Allocator alloc} (tid : nat) (tid_ok : small_tid tid)
  (use_cas : bool) (hash : Z → Z).
Context (with_epoch : ∀ A, prog (store_state obj) A → prog (store_state obj) A)
  {transparent : EpochTransparent with_epoch}.
#[local] Abbreviation state := (store_state obj).
Implicit Types s : state.
Implicit Types c : list KV.

Definition idx (t : Table) (k : Z) : nat := Z.to_nat (Z.land (hash k) (size t - 1)).

(** [C i] is what bucket [i] holds, keys that hash to it, each once *)
Record table_at (t : Table) (C : nat → list KV) (m : gmap Z obj) : Prop := {
  ta_nodup : NoDup (table t);
  ta_length : size t = Z.of_nat (length (table t));
  ta_pow : ∃ b, 0 ≤ b ∧ size t = 2 ^ b;
  ta_bucket : ∀ i b, table t !! i = Some b → ∃ p, m !! b = Some (Bucket p) ∧ bucket_holds m p (C i);
  ta_keys : ∀ i b, table t !! i = Some b → NoDup (C i).*1 ∧ ∀ k, k ∈ (C i).*1 → idx t k = i;
}.
Definition repr (t : Table) (M : gmap Z Z) s : Prop :=
  ∃ C, table_at t C (nodes s) ∧ (∀ k, M !! k = to_map (C (idx t k)) !! k) ∧ holding tid ∅ s.

Lemma idx_bucket t C m k : table_at t C m → ∃ b, table t !! idx t k = Some b.
Proof.
  intros [_ Hl (b & Hb & Hp) _ _]. apply lookup_lt_is_Some_2. unfold idx.
  rewrite Hp, land_low by done. pose proof (Z.mod_pos_bound (hash k) (2 ^ b)) as Hm.
  assert (0 < 2 ^ b) by lia. lia.
Qed.

Lemma bucket_frame m m' p c : (∀ a o, m !! a = Some o → node_holds o c → m' !! a = Some o) →
  bucket_holds m p c → bucket_holds m' p c.
Proof. unfold bucket_holds. case_match; [done|]. intros Hm (o & Ho & Hc). eauto. Qed.

(** installing a node in a bucket *)
Lemma table_update t C m i b p' c' old (m' : gmap Z obj) : table_at t C m → table t !! i = Some b →
  m !! b = Some (Bucket old) → (∀ a o, m !! a = Some o → m' !! a = Some o) →
  bucket_holds m' p' c' → NoDup c'.*1 → (∀ k, k ∈ c'.*1 → idx t k = i) →
  table_at t (λ j, if decide (j = i) then c' else C j) (<[b := Bucket p']> m').
Proof.
  intros [Hnd Hl Hpow Hb Hk] Hi Hbo Hm Hp Hc' Hidx.
  assert (∀ p c, bucket_holds m' p c → bucket_holds (<[b := Bucket p']> m') p c) as Hfr.
  { intros p c. apply bucket_frame. intros a o Ha Ho. rewrite lookup_insert_ne; [done|].
    intros ->. apply Hm in Hbo. rewrite Hbo in Ha. by injection Ha as <-. }
  split; [done|done|done| |].
  - intros j bj Hj. case_decide as Hji.
    + subst j. rewrite Hi in Hj. injection Hj as <-. exists p'. rewrite lookup_insert_eq. auto.
    + destruct (Hb j bj Hj) as (p & Hbj & Hcj). exists p.
      assert (b ≠ bj) by (intros <-; apply Hji; exact (NoDup_lookup _ j i b Hnd Hj Hi)).
      rewrite lookup_insert_ne by done. split; [by apply Hm|]. apply Hfr.
      eapply bucket_frame; [|exact Hcj]. intros a o Ha _. by apply Hm.
  - intros j bj Hj. case_decide as Hji; [subst j; by split|by eapply Hk].
Qed.

Lemma repr_update t C M i b p' c' old (m' : gmap Z obj) s s' (f : gmap Z Z → gmap Z Z) :
  table_at t C (nodes s) → (∀ k, M !! k = to_map (C (idx t k)) !! k) →
  table t !! i = Some b → nodes s !! b = Some (Bucket old) →
  (∀ a o, nodes s !! a = Some o → m' !! a = Some o) →
  bucket_holds m' p' c' → NoDup c'.*1 → (∀ k, k ∈ c'.*1 → idx t k = i) →
  (∀ k, idx t k = i → f M !! k = to_map c' !! k) → (∀ k, idx t k ≠ i → f M !! k = M !! k) →
  nodes s' = <[b := Bucket p']> m' → holding tid ∅ s' → repr t (f M) s'.
Proof.
  intros Hta HM Hi Hbo Hm Hp Hc' Hidx Hf1 Hf2 Hs' Hh.
  exists (λ j, if decide (j = i) then c' else C j). split; [rewrite Hs'; by eapply table_update|].
  split; [|done]. intros k. case_decide as Hk; [by apply Hf1|]. by rewrite Hf2, HM.
Qed.

(** ** Steps of the operations *)
Lemma wp_get_bucket {A} t C k (K : Z → prog state A) Q s : table_at t C (nodes s) →
  (∀ b, table t !! idx t k = Some b → wp (K b) Q s) → wp (get_bucket hash t k ≫= K) Q s.
Proof.
  intros Hta HK. destruct (idx_bucket t C _ k Hta) as [b Hb]. unfold get_bucket. fold (idx t k).
  rewrite Hb. by apply HK.
Qed.

(** following the pointer in a bucket *)
Definition points_to s (p : Z) (o : option obj) (c : list KV) : Prop :=
  match o with
  | None => p = 0 ∧ c = []
  | Some o' => p ≠ 0 ∧ nodes s !! p = Some o' ∧ node_holds o' c
  end.
Lemma bucket_points s p c : bucket_holds (nodes s) p c → ∃ o, points_to s p o c.
Proof.
  unfold bucket_holds. destruct (Z.eqb_spec p 0) as [->|Hne].
  - intros ->. by exists None.
  - intros (o & Ho & Hc). by exists (Some o).
Qed.
Lemma wp_deref {A} p o c (K : option obj → prog state A) Q s : points_to s p o c →
  wp (K o) Q s → wp (deref p ≫= K) Q s.
Proof.
  intros Hp HK. unfold deref. destruct o as [o|]; simpl in Hp.
  - destruct Hp as (Hne & Ho & _). rewrite (proj2 (Z.eqb_neq p 0)) by done.
    rewrite wp_bind. by eapply wp_read.
  - by destruct Hp as [-> _].
Qed.
Lemma wp_found_in {A} p o c k (K : bool → prog state A) Q s : points_to s p o c →
  wp (K (bool_decide (k ∈ c.*1))) Q s → wp (found_in o k ≫= K) Q s.
Proof.
  intros Hp HK. unfold found_in. destruct o as [o|]; simpl in Hp.
  - destruct Hp as (_ & _ & Hc). rewrite wp_bind. eapply wp_lift; [by apply find_index_spec|].
    unfold wp at 1; cbn [run mret prog_ret].
    replace (negb (index_of k c =? -1)) with (bool_decide (k ∈ c.*1)); [exact HK|].
    destruct (Z.eqb_spec (index_of k c) (-1)) as [Hi|Hi].
    + by rewrite bool_decide_false by by apply index_of_none.
    + rewrite bool_decide_true; [done|]. destruct (decide (k ∈ c.*1)) as [|Hn]; [done|].
      by apply index_of_none in Hn.
  - destruct Hp as [_ ->]. rewrite bool_decide_false in HK by by intros ?%elem_of_nil. done.
Qed.

Lemma wp_retire_node {A} p o c (K : unit → prog state A) Q s : points_to s p o c →
  (∀ s', nodes s' = nodes s → locks s' = locks s → wp (K tt) Q s') → wp (retire_node p ≫= K) Q s.
Proof.
  intros Hp HK. unfold retire_node. rewrite wp_bind. eapply wp_deref; [exact Hp|].
  destruct o as [o|]; simpl in Hp.
  - destruct Hp as (_ & _ & Hc). eapply wp_lift; [by eapply cast_ok|].
    eapply wp_of_run; [reflexivity|]. by apply HK.
  - by apply HK.
Qed.

Lemma wp_try_update b old o c new rv Q s : holding tid ∅ s → nodes s !! b = Some (Bucket old) →
  points_to s old o c →
  (∀ s', nodes s' = <[b := Bucket new]> (nodes s) → holding tid ∅ s' → Q (Some rv) s') →
  wp (try_update tid use_cas b old new rv) Q s.
Proof.
  intros Hh Hb Hp HQ.
  assert (∀ s', nodes s' = <[b := Bucket new]> (nodes s) → holding tid ∅ s' →
    wp (retire_node old ;; mret (Some rv)) Q s') as Hend.
  { intros s' Hs' Hh'. apply (wp_retire_node old o c).
    - unfold points_to in *. destruct o as [o|]; [|done]. destruct Hp as (? & Ho & ?).
      rewrite Hs', lookup_insert_ne; [done|]. intros ->. rewrite Hb in Ho. by injection Ho as <-.
    - intros s2 Hn2 Hl2. unfold wp; cbn [run mret prog_ret]. apply HQ; [congruence|].
      by eapply holding_same_locks. }
  unfold try_update. destruct use_cas.
  - rewrite wp_bind. eapply wp_read; [done..|]. rewrite Z.eqb_refl.
    apply wp_bind_ret. eapply wp_cas; [done..|]. unfold wp at 1; cbn [run mret prog_ret].
    apply Hend; [done|]. by apply (holding_same_locks tid ∅ s).
  - eapply (wp_try_lock tid tid_ok ∅); [exact Hh|set_solver|exact Hb|].
    intros s1 Hs1 Hr1 Hh1. eapply wp_read; [by rewrite Hs1|done|]. rewrite Z.eqb_refl. cbn [negb].
    eapply wp_write; [by rewrite Hs1|done|]. unfold wp at 1; cbn [run mret prog_ret].
    split; [by apply (holding_same_locks tid _ s1)|].
    split; [simpl; rewrite lookup_insert_eq; eauto|].
    intros s3 Hs3 _ Hh3. apply Hend; [|done]. rewrite Hs3. simpl. by rewrite Hs1.
Qed.

Lemma wp_answer_false b old Q s : nodes s !! b = Some (Bucket old) → Q (Some false) s →
  wp (answer_false use_cas b old) Q s.
Proof.
  intros Hb HQ. unfold answer_false. destruct use_cas; [done|].
  unfold read_lock, lock.read_lock. rewrite wp_bind. eapply wp_read; [done..|].
  unfold wp at 1; cbn [run mret prog_ret]. by rewrite Z.eqb_refl.
Qed.

(** ** Operations on a bucket [b] of [t] *)
Section bucket_ops.
Context (t : Table) (C : nat → list KV) (M : gmap Z Z) (k b p : Z) (o : option obj) (s : state).
Context (Hta : table_at t C (nodes s)) (HM : ∀ k, M !! k = to_map (C (idx t k)) !! k)
  (Hh : holding tid ∅ s) (Hb : table t !! idx t k = Some b) (Hbo : nodes s !! b = Some (Bucket p))
  (Hp : points_to s p o (C (idx t k))).
#[local] Abbreviation c := (C (idx t k)).

Lemma here_nodup : NoDup c.*1.
Proof. by apply (ta_keys _ _ _ Hta _ _ Hb). Qed.
Lemma here_absent : (k ∉ c.*1) ↔ M !! k = None.
Proof. rewrite HM. split; [apply contents_none|]. by apply not_elem_of_list_to_map_2. Qed.
Lemma here_repr : repr t M s.
Proof. by exists C. Qed.

(** installing a new node, made of [c'] *)
Lemma install p' c' (m' : gmap Z obj) s' M' : nodes s' = <[b := Bucket p']> m' → holding tid ∅ s' →
  (∀ a x, nodes s !! a = Some x → m' !! a = Some x) → bucket_holds m' p' c' →
  NoDup c'.*1 → (∀ k', k' ∈ c'.*1 → k' = k ∨ k' ∈ c.*1) →
  (∀ k', idx t k' = idx t k → M' !! k' = to_map c' !! k') → (∀ k', k' ≠ k → M' !! k' = M !! k') →
  repr t M' s'.
Proof.
  intros Hs' Hh' Hm Hc' Hnd Hk' H1 H2.
  apply (repr_update t C M (idx t k) b p' c' p m' s s' (λ _, M')); try done.
  - intros k' [->|Hin]%Hk'; [done|]. by apply (ta_keys _ _ _ Hta _ _ Hb).
  - intros k' Hne. apply H2. by intros ->.
Qed.

(** a new object in memory *)
Lemma fresh_points q x c' : nodes s !! q = None → q ≠ 0 → node_holds x c' →
  (∀ a y, nodes s !! a = Some y → <[q := x]> (nodes s) !! a = Some y) ∧
  bucket_holds (<[q := x]> (nodes s)) q c'.
Proof.
  intros Hq H0 Hx. split.
  - intros a y Ha. rewrite lookup_insert_ne; [done|]. by intros ->; rewrite Hq in Ha.
  - unfold bucket_holds. rewrite (proj2 (Z.eqb_neq q 0)) by done. exists x. by rewrite lookup_insert_eq.
Qed.

Lemma install_insert v q x s' : nodes s' = <[b := Bucket q]> (<[q := x]> (nodes s)) → holding tid ∅ s' →
  nodes s !! q = None → q ≠ 0 → node_holds x (c ++ [(k, v)]) → (k ∉ c.*1) → repr t (<[k := v]> M) s'.
Proof.
  intros Hs' Hh' Hq H0 Hx Hk. destruct (fresh_points q x _ Hq H0 Hx) as [Hm Hqc].
  assert (NoDup (c ++ [(k, v)]).*1) as Hnd.
  { rewrite fmap_app. apply NoDup_app. split; [apply here_nodup|]. split; [|apply NoDup_singleton].
    by intros k' Hk' ->%list_elem_of_singleton. }
  apply (install q (c ++ [(k, v)]) (<[q := x]> (nodes s))); try done.
  - intros k'. rewrite fmap_app, elem_of_app. intros [?| ->%list_elem_of_singleton]; auto.
  - intros k' Hi. destruct (contents_mid k v c [] Hnd) as [-> _]. rewrite app_nil_r.
    destruct (decide (k = k')) as [<-|Hne]; [by rewrite !lookup_insert_eq|].
    rewrite !lookup_insert_ne by done. by rewrite HM, Hi.
  - intros k' Hne. by rewrite lookup_insert_ne.
Qed.

Lemma install_update v v' q x s' c1 c2 : c = c1 ++ (k, v) :: c2 →
  nodes s' = <[b := Bucket q]> (<[q := x]> (nodes s)) → holding tid ∅ s' →
  nodes s !! q = None → q ≠ 0 → node_holds x (c1 ++ (k, v') :: c2) → repr t (<[k := v']> M) s'.
Proof.
  intros Hc Hs' Hh' Hq H0 Hx. destruct (fresh_points q x _ Hq H0 Hx) as [Hm Hqc].
  pose proof here_nodup as Hnd. rewrite Hc in Hnd. pose proof (contents_mid k v c1 c2 Hnd) as (Hc1 & _ & _).
  assert ((c1 ++ (k, v') :: c2).*1 = (c1 ++ (k, v) :: c2).*1) as Hkeys by (by rewrite !fmap_app).
  assert (NoDup (c1 ++ (k, v') :: c2).*1) as Hnd' by (by rewrite Hkeys).
  pose proof (contents_mid k v' c1 c2 Hnd') as (Hc2 & _ & _).
  apply (install q (c1 ++ (k, v') :: c2) (<[q := x]> (nodes s))); try done.
  - intros k'. rewrite Hkeys, <-Hc. auto.
  - intros k' Hi. rewrite Hc2. destruct (decide (k = k')) as [<-|Hne]; [by rewrite !lookup_insert_eq|].
    rewrite !lookup_insert_ne by done. rewrite HM, Hi, Hc, Hc1. by rewrite lookup_insert_ne.
  - intros k' Hne. by rewrite lookup_insert_ne.
Qed.

Lemma install_remove v q (m' : gmap Z obj) s' c1 c2 : c = c1 ++ (k, v) :: c2 →
  nodes s' = <[b := Bucket q]> m' → holding tid ∅ s' →
  (∀ a y, nodes s !! a = Some y → m' !! a = Some y) → bucket_holds m' q (c1 ++ c2) →
  repr t (delete k M) s'.
Proof.
  intros Hc Hs' Hh' Hm Hq. pose proof here_nodup as Hnd. rewrite Hc in Hnd.
  pose proof (contents_mid k v c1 c2 Hnd) as (Hc1 & Hno & Hnd').
  apply (install q (c1 ++ c2) m'); try done.
  - intros k' Hin. right. rewrite Hc, fmap_app, fmap_cons, elem_of_app, elem_of_cons.
    rewrite fmap_app, elem_of_app in Hin. tauto.
  - intros k' Hi. destruct (decide (k = k')) as [<-|Hne]; [by rewrite lookup_delete_eq|].
    rewrite lookup_delete_ne by done. rewrite HM, Hi, Hc, Hc1. by rewrite lookup_insert_ne.
  - intros k' Hne. by rewrite lookup_delete_ne.
Qed.

Lemma here_split : k ∈ c.*1 → ∃ c1 v c2, c = c1 ++ (k, v) :: c2 ∧ Forall (λ e, e.1 ≠ k) c1 ∧
  M !! k = Some v ∧ ∃ x, o = Some x ∧ p ≠ 0 ∧ nodes s !! p = Some x ∧ node_holds x c.
Proof.
  intros Hin. assert (index_of k c ≠ -1) as Hi by (by intros Hn%index_of_none).
  destruct (index_of_some k c Hi) as (c1 & v & c2 & Hc & Hf & _). exists c1, v, c2.
  split; [done|]. split; [done|]. split.
  - rewrite HM, Hc. pose proof here_nodup as Hnd. rewrite Hc in Hnd.
    destruct (contents_mid k v c1 c2 Hnd) as (-> & _). by rewrite lookup_insert_eq.
  - destruct o as [x|]; [exists x; by destruct Hp as (? & ? & ?)|].
    destruct Hp as [_ Hn]. rewrite Hn in Hin. by apply elem_of_nil in Hin.
Qed.

Definition says (P : Prop) `{!Decision P} (M' : gmap Z Z) : option bool → state → Prop :=
  λ r s', r = Some (bool_decide P) ∧ repr t M' s'.

(** a new node for an absent key *)
Lemma insert_new_wp v (Hk : k ∉ c.*1) :
  wp (x ← lift (insert_to_node o k v); q ← new_obj alloc x; try_update tid use_cas b p q true)
     (λ r s', r = Some true ∧ repr t (<[k := v]> M) s') s.
Proof.
  assert (∃ x, insert_to_node o k v = inr x ∧ node_holds x (c ++ [(k, v)])) as (x & Hx & Hxc).
  { destruct o as [x|]; [by apply insert_to_node_spec; destruct Hp as (? & ? & ?)|].
    destruct Hp as [_ ->]. apply insert_to_null. }
  eapply wp_lift; [exact Hx|]. apply (wp_new alloc). intros q Hq Hq0.
  eapply (wp_try_update b p o c).
  - eapply (holding_new tid ∅ s _ q); [apply not_elem_of_empty|done|done].
  - simpl. rewrite lookup_insert_ne; [done|]. intros ->. by rewrite Hbo in Hq.
  - unfold points_to in *. destruct o as [y|]; [|done]. destruct Hp as (? & Ho & ?).
    simpl. rewrite lookup_insert_ne; [done|]. intros ->. by rewrite Ho in Hq.
  - intros s' Hs' Hh'. split; [done|]. by eapply install_insert.
Qed.

Lemma hash_try_insert_wp v : wp (try_insert_at alloc tid use_cas b k v)
  (says (M !! k = None) (if bool_decide (M !! k = None) then <[k := v]> M else M)) s.
Proof.
  unfold try_insert_at. eapply wp_read; [done..|]. eapply wp_deref; [exact Hp|].
  eapply wp_found_in; [exact Hp|]. case_bool_decide as Hin.
  - apply (wp_answer_false _ p); [done|].
    assert (M !! k ≠ None) as Hk by (by intros Hn%here_absent).
    rewrite bool_decide_false by done. split; [by rewrite bool_decide_false|apply here_repr].
  - rewrite bool_decide_true by by apply here_absent.
    eapply wp_mono; [|by apply insert_new_wp]. intros r s' [-> Hr]. split; [|done].
    by rewrite bool_decide_true by by apply here_absent.
Qed.

Lemma hash_try_remove_wp : wp (try_remove_at alloc tid use_cas b k)
  (says (is_Some (M !! k)) (delete k M)) s.
Proof.
  unfold try_remove_at. eapply wp_read; [done..|]. eapply wp_deref; [exact Hp|].
  eapply wp_found_in; [exact Hp|]. case_bool_decide as Hin.
  - destruct (here_split Hin) as (c1 & v & c2 & Hc & Hf & HMk & x & -> & Hp0 & Hpx & Hx).
    rewrite Hc in Hx. destruct (remove_from_node_spec x c1 k v c2 Hx Hf) as (y & Hy & Hyc).
    eapply wp_lift; [exact Hy|].
    assert (∀ q (m' : gmap Z obj) s1, nodes s1 = m' → holding tid ∅ s1 →
      (∀ a z, nodes s !! a = Some z → m' !! a = Some z) → bucket_holds m' q (c1 ++ c2) →
      wp (try_update tid use_cas b p q true) (says (is_Some (M !! k)) (delete k M)) s1) as Hend.
    { intros q m' s1 Hs1 Hh1 Hm Hq. eapply (wp_try_update b p (Some x) c); [done|rewrite Hs1; by apply Hm| |].
      - split; [done|]. rewrite Hs1, Hc. split; [by apply Hm|done].
      - intros s' Hs' Hh'. split; [by rewrite bool_decide_true by eauto|].
        eapply install_remove; [exact Hc|exact Hs'|done|by rewrite Hs1|by rewrite Hs1]. }
    destruct y as [y|].
    + apply (wp_new alloc). intros q Hq Hq0. destruct (fresh_points q y _ Hq Hq0 Hyc) as [Hm Hqc].
      eapply Hend; [reflexivity| |done|done].
      eapply (holding_new tid ∅ s _ q); [apply not_elem_of_empty|done|done].
    + eapply Hend; [reflexivity|done|done|]. unfold bucket_holds. by rewrite Hyc.
  - assert (M !! k = None) as Hk by (by apply here_absent).
    assert (says (is_Some (M !! k)) (delete k M) (Some false) s) as Hsay.
    { split; [by rewrite bool_decide_false by (rewrite Hk; by intros [? ?])|].
      rewrite delete_id by done. apply here_repr. }
    destruct o as [x|]; by apply (wp_answer_false _ p).
Qed.

Lemma try_upsert_wp f : wp (try_upsert_at alloc tid use_cas b k f)
  (says (M !! k = None) (<[k := f (M !! k)]> M)) s.
Proof.
  unfold try_upsert_at. eapply wp_read; [done..|]. eapply wp_deref; [exact Hp|].
  eapply wp_found_in; [exact Hp|]. case_bool_decide as Hin; cbn [negb].
  - destruct (here_split Hin) as (c1 & v & c2 & Hc & Hf & HMk & x & Ho & Hp0 & Hpx & Hx).
    rewrite Hc in Hx. destruct (update_node_spec x c1 k v c2 f Hx Hf) as (y & Hy & Hyc).
    rewrite HMk.
    assert (∀ A s1 (K : Z → prog state A) Q, nodes s1 = nodes s → (∀ q, nodes s !! q = None → q ≠ 0 →
       wp (K q) Q (mkStore (<[q := y]> (nodes s1)) (<[q := 0]> (locks s1)) (retired s1))) →
      wp (new_update alloc p k f ≫= K) Q s1) as Hnew.
    { intros A s1 K Q Hs1 HK. unfold new_update. rewrite wp_bind.
      eapply wp_read; [by rewrite Hs1|done|]. eapply wp_lift; [exact Hy|].
      apply wp_bind_ret. apply (wp_new alloc). intros q. rewrite Hs1. intros Hq Hq0.
      unfold wp at 1; cbn [run mret prog_ret]. rewrite <-Hs1. by apply HK. }
    assert (∀ q s', nodes s' = <[b := Bucket q]> (<[q := y]> (nodes s)) → holding tid ∅ s' →
      nodes s !! q = None → q ≠ 0 → says (Some v = None) (<[k := f (Some v)]> M) (Some false) s') as Hend.
    { intros q s' Hs' Hh' Hq Hq0. split; [done|]. by eapply install_update. }
    destruct use_cas eqn:Ecas.
    + apply Hnew; [done|]. intros q Hq Hq0.
      replace (try_update tid true) with (try_update tid use_cas) by (by rewrite Ecas).
      eapply (wp_try_update b p o c).
      * eapply (holding_new tid ∅ s _ q); [apply not_elem_of_empty|done|done].
      * simpl. rewrite lookup_insert_ne; [done|]. intros ->. by rewrite Hbo in Hq.
      * rewrite Ho, Hc. simpl. split; [done|]. split; [|done].
        rewrite lookup_insert_ne; [done|]. intros ->. by rewrite Hpx in Hq.
      * intros s' Hs' Hh'. by apply (Hend q).
    + eapply (wp_try_lock tid tid_ok ∅); [exact Hh|set_solver|exact Hbo|].
      intros s1 Hs1 Hr1 Hh1. eapply wp_read; [by rewrite Hs1|done|]. rewrite Z.eqb_refl. cbn [negb].
      apply Hnew; [done|]. intros q Hq Hq0.
      assert (q ≠ b) as Hqb by (intros ->; by rewrite Hbo in Hq).
      eapply wp_write; [simpl; rewrite lookup_insert_ne by done; by rewrite Hs1|done|].
      unfold wp at 1; cbn [run mret prog_ret]. split; [|split].
      * apply (holding_new tid _ s1 _ q); [|done|done].
        intros [->%elem_of_singleton|?%elem_of_empty]%elem_of_union; done.
      * simpl. rewrite lookup_insert_eq. eauto.
      * intros s3 Hs3 _ Hh3. simpl in Hs3. rewrite Hs1 in Hs3. apply (wp_retire_node p o c).
        -- rewrite Ho, Hc. simpl. split; [done|]. split; [|done].
           rewrite Hs3, lookup_insert_ne, lookup_insert_ne; [done|intros ->; by rewrite Hpx in Hq|].
           intros ->. rewrite Hbo in Hpx. by injection Hpx as <-.
        -- intros s4 Hn4 Hl4. apply (Hend q); [congruence|by eapply holding_same_locks|done|done].
  - replace (M !! k) with (@None Z) by (symmetry; by apply here_absent).
    eapply wp_mono; [|by apply insert_new_wp]. intros r s' [-> Hr]. split; [|done].
    by rewrite bool_decide_true.
Qed.
End bucket_ops.

Lemma repr_bucket t M k s : repr t M s → ∃ C b p o, table_at t C (nodes s) ∧
  (∀ k, M !! k = to_map (C (idx t k)) !! k) ∧ holding tid ∅ s ∧ table t !! idx t k = Some b ∧
  nodes s !! b = Some (Bucket p) ∧ points_to s p o (C (idx t k)).
Proof.
  intros (C & Hta & HM & Hh). destruct (idx_bucket t C _ k Hta) as [b Hb].
  destruct (ta_bucket _ _ _ Hta _ _ Hb) as (p & Hbo & Hp).
  destruct (bucket_points _ _ _ Hp) as [o Ho]. eauto 12.
Qed.

(** ** The public updates *)
Inductive update := Ins (k v : Z) | Ups (k : Z) (f : option Z → Z) | Rem (k : Z).
Definition do_update (fuel : nat) (t : Table) (u : update) : prog state bool :=
  match u with
  | Ins k v => insert alloc tid use_cas hash with_epoch fuel t k v
  | Ups k f => upsert alloc tid use_cas hash with_epoch fuel t k f
  | Rem k => remove alloc tid use_cas hash with_epoch fuel t k
  end.
Definition update_meaning (u : update) (M : gmap Z Z) : bool * gmap Z Z :=
  match u with
  | Ins k v => (bool_decide (M !! k = None), if bool_decide (M !! k = None) then <[k := v]> M else M)
  | Ups k f => (bool_decide (M !! k = None), <[k := f (M !! k)]> M)
  | Rem k => (bool_decide (is_Some (M !! k)), delete k M)
  end.

Lemma update_wp fuel t u M s : repr t M s →
  wp (do_update (S fuel) t u) (λ b s', b = (update_meaning u M).1 ∧ repr t (update_meaning u M).2 s') s.
Proof.
  intros Hr. assert (∃ k f, do_update (S fuel) t u = (b ← get_bucket hash t k; with_epoch bool (flock.try_loop (S fuel) (f b))) ∧
    ∀ b C p o, table_at t C (nodes s) → (∀ k, M !! k = to_map (C (idx t k)) !! k) → holding tid ∅ s →
      table t !! idx t k = Some b → nodes s !! b = Some (Bucket p) → points_to s p o (C (idx t k)) →
      wp (f b) (λ r s', r = Some (update_meaning u M).1 ∧ repr t (update_meaning u M).2 s') s) as (k & f & -> & Hf).
  { destruct u as [k v|k f|k]; (eexists k, _; split; [reflexivity|]); intros b C p o Hta HM Hh Hb Hbo Hp.
    - by eapply hash_try_insert_wp.
    - by eapply try_upsert_wp.
    - by eapply hash_try_remove_wp. }
  destruct (repr_bucket t M k s Hr) as (C & b & p & o & Hta & HM & Hh & Hb & Hbo & Hp).
  eapply wp_get_bucket; [exact Hta|]. intros b' Hb'. rewrite Hb in Hb'. injection Hb' as <-.
  apply with_epoch_wp, wp_try_loop. eapply wp_mono; [|by eapply Hf].
  intros r s' [-> Hr']. eauto.
Qed.

Fixpoint do_all (fuel : nat) (t : Table) (us : list update) : prog state (list bool) :=
  match us with
  | [] => mret []
  | u :: us' => b ← do_update fuel t u; bs ← do_all fuel t us'; mret (b :: bs)
  end.
Fixpoint meaning_of_all (us : list update) (M : gmap Z Z) : list bool * gmap Z Z :=
  match us with
  | [] => ([], M)
  | u :: us' => let r := meaning_of_all us' (update_meaning u M).2 in ((update_meaning u M).1 :: r.1, r.2)
  end.

Lemma do_all_wp fuel t us : ∀ M s, repr t M s →
  wp (do_all (S fuel) t us) (λ bs s', bs = (meaning_of_all us M).1 ∧ repr t (meaning_of_all us M).2 s') s.
Proof.
  induction us as [|u us IH]; intros M s Hr; [by split|]. cbn [do_all]. rewrite wp_bind.
  eapply wp_mono; [|by apply update_wp]. intros b s1 [-> Hr1]. rewrite wp_bind.
  eapply wp_mono; [|by apply IH]. intros bs s2 [-> Hr2]. by split.
Qed.

(** *** A new table *)
Lemma new_buckets_wp n : ∀ s, holding tid ∅ s →
  wp (new_buckets alloc n) (λ bs s', length bs = n ∧ NoDup bs ∧ holding tid ∅ s' ∧
    (∀ b, b ∈ bs → nodes s !! b = None ∧ nodes s' !! b = Some (Bucket 0)) ∧
    (∀ a x, nodes s !! a = Some x → nodes s' !! a = Some x)) s.
Proof.
  induction n as [|n IH]; intros s Hh; cbn [new_buckets].
  { unfold wp; cbn [run mret prog_ret]. split_and!; [done|constructor|done|by intros b ?%elem_of_nil|done]. }
  apply (wp_new alloc). intros q Hq Hq0. rewrite wp_bind.
  eapply wp_mono; [|apply IH; eapply (holding_new tid ∅ s _ q); [apply not_elem_of_empty|done|done]].
  intros bs s' (Hlen & Hnd & Hh' & Hbs & Hold). unfold wp; cbn [run mret prog_ret].
  simpl in Hbs, Hold. split; [simpl; lia|]. split.
  { apply NoDup_cons. split; [|done]. intros Hin. apply Hbs in Hin as [Hin _]. by rewrite lookup_insert_eq in Hin. }
  split; [done|]. split.
  - intros b [->|Hin]%elem_of_cons; [split; [done|apply Hold; by rewrite lookup_insert_eq]|].
    destruct (Hbs b Hin) as [Hn Hb]. split; [|done].
    destruct (decide (q = b)) as [->|Hne]; [done|]. by rewrite lookup_insert_ne in Hn.
  - intros a x Ha. apply Hold. rewrite lookup_insert_ne; [done|]. intros ->. by rewrite Hq in Ha.
Qed.

Lemma new_table_wp log2_up n s : 0 ≤ log2_up n < 64 → holding tid ∅ s →
  wp (unordered_map alloc log2_up n) (λ t s', repr t ∅ s') s.
Proof.
  intros Hlog Hh. unfold unordered_map, new_table.
  assert (wrap64 (Z.shiftl 1 (log2_up n)) = 2 ^ log2_up n) as ->.
  { rewrite Z.shiftl_1_l. apply wrap64_small. split; [lia|]. apply Z.pow_lt_mono_r; lia. }
  rewrite wp_bind. eapply wp_mono; [|by apply new_buckets_wp].
  intros bs s' (Hlen & Hnd & Hh' & Hbs & _). unfold wp; cbn [run mret prog_ret].
  exists (λ _, []). split; [|split; [|done]].
  - assert (0 < 2 ^ log2_up n) by lia. split; simpl; [done|lia|exists (log2_up n); split; [lia|done]| |].
    + intros i b Hi%list_elem_of_lookup_2. exists 0. by destruct (Hbs b Hi).
    + intros i b _. split; [constructor|]. by intros k ?%elem_of_nil.
  - intros k. by rewrite lookup_empty.
Qed.

(** C15: a new hash table, with locks or with compare-and-swap, answers any
    sequence of inserts, upserts and removes of one thread as a finite map
    does, without errors (no array access out of bounds, no cast to the wrong
    node type), each in one round of its retry loop. *)
Theorem hash_block_updates_refine log2_up n fuel us s : 0 ≤ log2_up n < 64 → holding tid ∅ s →
  wp (t ← unordered_map alloc log2_up n; do_all (S fuel) t us) (λ bs s',
    bs = (meaning_of_all us ∅).1 ∧ ∃ t, repr t (meaning_of_all us ∅).2 s') s.
Proof.
  intros Hlog Hh. rewrite wp_bind. eapply wp_mono; [|by apply new_table_wp].
  intros t s1 Hr. eapply wp_mono; [|apply do_all_wp; exact Hr]. intros bs s2 [-> Hr2]. eauto.
Qed.

(** [find] tells correctly whether a key is there, and changes nothing. *)
Theorem hash_block_find_presence t M k s : repr t M s →
  wp (find hash with_epoch t k) (λ r s', (is_Some r ↔ is_Some (M !! k)) ∧ s' = s) s.
Proof.
  intros Hr. destruct (repr_bucket t M k s Hr) as (C & b & p & o & Hta & HM & Hh & Hb & Hbo & Hp).
  unfold find. eapply wp_get_bucket; [exact Hta|]. intros b' Hb'. rewrite Hb in Hb'. injection Hb' as <-.
  apply with_epoch_wp. eapply wp_read; [done..|]. unfold find_at. eapply wp_deref; [exact Hp|].
  rewrite HM. destruct o as [o|]; simpl in Hp.
  - destruct Hp as (_ & _ & Hc). unfold lift. rewrite (node_find_spec _ _ _ Hc).
    unfold wp; cbn [run mret prog_ret]. split; [|done]. rewrite found_value_some. split.
    + intros Hin. apply not_eq_None_Some. intros Hn. by apply not_elem_of_list_to_map_2 in Hn.
    + intros Hs. destruct (decide (k ∈ (C (idx t k)).*1)) as [|Hn]; [done|].
      apply contents_none in Hn. rewrite Hn in Hs. by destruct Hs.
  - destruct Hp as [_ ->]. unfold wp; cbn [run mret prog_ret]. split; [|done].
    unfold to_map; simpl. by rewrite lookup_empty.
Qed.

(** ** size() *)
Lemma sum_counts_wp t C s bs : table_at t C (nodes s) → ∀ i, (∀ j b, bs !! j = Some b → table t !! (i + j)%nat = Some b) →
  wp (sum_counts bs) (λ r s', r = s32 (Z.of_nat (length (mjoin (C <$> seq i (length bs))))) ∧ s' = s) s.
Proof.
  intros Hta. induction bs as [|b bs IH]; intros i Hbs; cbn [sum_counts]; [done|].
  assert (table t !! i = Some b) as Hb by (rewrite <-(Nat.add_0_r i); by apply Hbs).
  destruct (ta_bucket _ _ _ Hta _ _ Hb) as (p & Hbo & Hp).
  destruct (bucket_points _ _ _ Hp) as [o Ho].
  eapply wp_read; [done..|]. eapply wp_deref; [exact Ho|].
  eapply (wp_lift _ (Z.of_nat (length (C i)))).
  { destruct o as [o|]; simpl in Ho; [destruct Ho as (_ & _ & Hc); by apply holds_cnt|by destruct Ho as [_ ->]]. }
  rewrite wp_bind. eapply wp_mono; [|apply (IH (S i))].
  - intros r s' [-> ->]. unfold wp; cbn [run mret prog_ret]. split; [|done].
    rewrite s32_add. f_equal.
    assert (length (mjoin (C <$> seq i (length (b :: bs)))) =
      length (C i) + length (mjoin (C <$> seq (S i) (length bs))))%nat as -> by (simpl; by rewrite length_app).
    lia.
  - intros j b' Hj. replace (S i + j)%nat with (i + S j)%nat by lia. by apply Hbs.
Qed.

Lemma all_entries t C m : table_at t C m →
  NoDup (mjoin (C <$> seq 0 (length (table t)))).*1 ∧
  ∀ k, to_map (mjoin (C <$> seq 0 (length (table t)))) !! k = to_map (C (idx t k)) !! k.
Proof.
  intros Hta. set (all := mjoin _).
  assert (∀ e, e ∈ all ↔ e ∈ C (idx t e.1)) as Hall.
  { intros [k v]. unfold all. rewrite list_elem_of_join. simpl. split.
    - intros (l & Hin & (i & -> & Hi)%list_elem_of_fmap). apply elem_of_seq in Hi as [_ Hi].
      destruct (lookup_lt_is_Some_2 (table t) i) as [b Hb]; [lia|].
      destruct (ta_keys _ _ _ Hta _ _ Hb) as [_ Hk]. rewrite (Hk k); [done|].
      apply list_elem_of_fmap. by exists (k, v).
    - intros Hin. exists (C (idx t k)). split; [done|]. apply list_elem_of_fmap.
      exists (idx t k). split; [done|]. destruct (idx_bucket t C _ k Hta) as [b Hb].
      apply lookup_lt_Some in Hb. apply elem_of_seq. lia. }
  assert (NoDup all.*1) as Hnd.
  { unfold all. clear Hall all. assert (∀ n i, (i + n ≤ length (table t))%nat →
      NoDup (mjoin (C <$> seq i n)).*1 ∧ ∀ k, k ∈ (mjoin (C <$> seq i n)).*1 → (i ≤ idx t k)%nat) as H.
    { induction n as [|n IH]; intros i Hi; simpl; [split; [constructor|by intros k ?%elem_of_nil]|].
      destruct (lookup_lt_is_Some_2 (table t) i) as [b Hb]; [lia|].
      destruct (ta_keys _ _ _ Hta _ _ Hb) as [Hnd Hk]. destruct (IH (S i)) as [IH1 IH2]; [lia|].
      rewrite fmap_app. split.
      - apply NoDup_app. split; [done|]. split; [|done]. intros k Hk1 Hk2. apply Hk in Hk1.
        apply IH2 in Hk2. lia.
      - intros k [Hk1|Hk2]%elem_of_app; [by rewrite (Hk k)|]. apply IH2 in Hk2. lia. }
    by apply H. }
  split; [done|]. intros k. apply option_eq. intros v. unfold to_map.
  rewrite <-!elem_of_list_to_map; [by rewrite Hall| |done].
  destruct (idx_bucket t C _ k Hta) as [b Hb]. by apply (ta_keys _ _ _ Hta _ _ Hb).
Qed.

(** size() adds up the number of keys of the table, as a 32-bit int: it is
    the number of keys as long as that is below 2^31. *)
Theorem hash_block_size t M s : repr t M s → Z.of_nat (base.size M) < 2 ^ 31 →
  wp (size_ t) (λ r s', r = Z.of_nat (base.size M) ∧ s' = s) s.
Proof.
  intros (C & Hta & HM & _) Hlt. destruct (all_entries _ _ _ Hta) as [Hnd Hall].
  assert (M = to_map (mjoin (C <$> seq 0 (length (table t))))) as Heq.
  { apply map_eq. intros k. by rewrite Hall, HM. }
  unfold size_. eapply wp_mono; [|by apply (sum_counts_wp t C s (table t) Hta 0)].
  intros r s' [-> ->]. split; [|done].
  unfold to_map in Heq. rewrite Heq in Hlt |- *. rewrite map_size_list_to_map in Hlt |- * by done.
  apply s32_small. lia.
Qed.
End proofs.

(** a bucket's node, null for none, and a node that the pool of its count takes back *)
Definition contains (old : option obj) (c : list KV) : Prop :=
  match old with Some o => node_holds o c | None => c = [] end.
Definition poolable (o : obj) (c : list KV) : Prop := node_holds o c ∧ cast_to_pool o = inr tt.
Lemma poolable_holds o c : node_holds o c → poolable o c.
Proof. intros Ho. split; [done|by eapply cast_ok]. Qed.
Lemma insert_to_bucket old c k v : contains old c →
  ∃ o', insert_to_node old k v = inr o' ∧ node_holds o' (c ++ [(k, v)]).
Proof. destruct old as [o|]; simpl; [apply insert_to_node_spec|intros ->; apply insert_to_null]. Qed.

(** C19: every node that the updates make, the first one of an empty bucket
    included, has the size class that its count selects and holds the entries
    it should, so the casts by which nodes are retired and destructed, chosen
    by the count, always reach the pool that made the node; and the key lookup
    never reads outside the entries. *)
Theorem hash_block_nodes_fit old c k f : contains old c → NoDup c.*1 →
  (∃ o', insert_to_node old k (f None) = inr o' ∧ poolable o' (c ++ [(k, f None)])) ∧
  ∀ o, old = Some o →
    cast_to_pool o = inr tt ∧
    find_index o k = inr (index_of k c) ∧
    (k ∈ c.*1 → ∃ c1 v c2, c = c1 ++ (k, v) :: c2 ∧
      (∃ o', update_node o k f = inr o' ∧ poolable o' (c1 ++ (k, f (Some v)) :: c2)) ∧
      ∃ r, remove_from_node o k = inr r ∧
        match r with None => c1 ++ c2 = [] | Some o' => poolable o' (c1 ++ c2) end).
Proof.
  intros Hold Hnd. split.
  { destruct (insert_to_bucket old c k (f None) Hold) as (o' & ? & ?). exists o'. split; [done|by apply poolable_holds]. }
  intros o ->. simpl in Hold. split; [by eapply cast_ok|]. split; [by apply find_index_spec|]. intros Hin.
  assert (index_of k c ≠ -1) as Hi by (by intros Hn%index_of_none).
  destruct (index_of_some k c Hi) as (c1 & v & c2 & Hc & Hf & _). rewrite Hc in Hold.
  exists c1, v, c2. split; [done|]. split.
  - destruct (update_node_spec o c1 k v c2 f Hold Hf) as (o' & ? & ?). exists o'. split; [done|by apply poolable_holds].
  - destruct (remove_from_node_spec o c1 k v c2 Hold Hf) as (r & ? & Hr). exists r. split; [done|].
    destruct r; [by apply poolable_holds|done].
Qed.

(** C33: in a node with at most 31 entries, [find] of a key that is not the
    first answers the value of the entry before it, not its own. *)
Theorem find_answers_previous o c0 k0 v0 k v c2 : node_holds o (c0 ++ (k0, v0) :: (k, v) :: c2) →
  Forall (λ e, e.1 ≠ k) (c0 ++ [(k0, v0)]) → (length (c0 ++ (k0, v0) :: (k, v) :: c2) ≤ 31)%nat →
  node_find o k = inr (Some v0).
Proof.
  intros Ho Hk Hlen. rewrite (node_find_spec _ _ _ Ho). f_equal.
  destruct c0 as [|e c0]; simpl app in *; cbn [found_value].
  - apply Forall_cons in Hk as [Hk _]. rewrite (proj2 (Z.eqb_neq _ k)) by done.
    rewrite (proj2 (Z.leb_le _ 31)) by (simpl in *; lia).
    assert (index_of k ((k, v) :: c2) = 0) as -> by (apply (index_of_app k v []); constructor). done.
  - apply Forall_cons in Hk as [He Hk]. rewrite (proj2 (Z.eqb_neq _ k)) by done.
    rewrite (proj2 (Z.leb_le _ 31)) by (simpl in *; lia).
    assert (index_of k (c0 ++ (k0, v0) :: (k, v) :: c2) = Z.of_nat (S (length c0))) as ->.
    { replace (c0 ++ (k0, v0) :: (k, v) :: c2) with ((c0 ++ [(k0, v0)]) ++ (k, v) :: c2) by (by rewrite <-app_assoc).
      rewrite index_of_app by done. rewrite length_app. simpl. lia. }
    rewrite (proj2 (Z.eqb_neq _ (-1))) by lia. rewrite Nat2Z.id. simpl.
    by rewrite list_lookup_middle.
Qed.

(** update_node of new_unordered_map.h takes a full node of 31 entries for a
    BigNode. *)
Lemma new_update_node_bad_cast o c k f : node_holds o c → length c = 31%nat →
  new_update_node o k f = inl BadCast.
Proof.
  intros Ho Hl. destruct o as [|Size cnt es|cnt es]; simpl in Ho; [done| |lia].
  destruct Ho as (-> & _). unfold new_update_node. simpl. rewrite Hl. done.
Qed.

(** ** Witnesses *)
Definition one_bucket : Table := mkTable [1] 1.
Definition two_entries : obj := Node 3 2 [(5, 50); (7, 70); (0, 0)].
Definition hb_state : store_state obj := mkStore (list_to_map [(1, Bucket 2); (2, two_entries)]) ∅ [].
Lemma two_entries_holds : node_holds two_entries [(5, 50); (7, 70)].
Proof. simpl. split; [done|]. split; [lia|]. split; [done|]. by exists [(0, 0)]. Qed.
Lemma hb_state_repr : repr 0 (λ k, k) one_bucket {[5 := 50; 7 := 70]} hb_state.
Proof.
  assert (∀ k, idx (λ k, k) one_bucket k = 0%nat) as Hidx.
  { intros k. unfold idx. simpl. by rewrite Z.land_0_r. }
  exists (λ _, [(5, 50); (7, 70)]). split; [split|split].
  - apply NoDup_singleton.
  - done.
  - by exists 0.
  - intros [|i] b; simpl; [|by rewrite lookup_nil]. intros [= <-]. exists 2. split; [done|].
    exists two_entries. split; [done|]. apply two_entries_holds.
  - intros [|i] b; simpl; [|by rewrite lookup_nil]. intros _.
    split; [by apply (bool_decide_unpack _)|]. intros k _. apply Hidx.
  - intros k. reflexivity.
  - intros p. by rewrite decide_False by set_solver.
Qed.

Example hash_block_updates_refine_witness : small_tid 0 ∧
  wp (t ← unordered_map next_addr (λ _, 1) 2;
      do_all next_addr 0 true (λ k, k) (λ A p, p) 1 t
        [Ins 5 50; Ups 5 (λ v, default 0 v + 1); Ins 7 70; Rem 5; Rem 9])
     (λ bs _, bs = [true; false; true; true; false]) empty_store.
Proof.
  assert (small_tid 0) as Ht by (unfold small_tid; lia). split; [exact Ht|].
  eapply wp_mono; [|apply (hash_block_updates_refine next_addr 0 Ht true (λ k, k) (λ A p, p)
    (λ _, 1) 2 0); [simpl; lia|apply holding_empty]].
  intros bs s' [-> _]. vm_compute. reflexivity.
Defined.

Example hash_block_find_presence_witness :
  wp (find (λ k, k) (λ A p, p) one_bucket 7) (λ r s', is_Some r ∧ s' = hb_state) hb_state.
Proof.
  eapply wp_mono; [|apply (hash_block_find_presence 0 (λ k, k) (λ A p, p) _ _ 7 _ hb_state_repr)].
  intros r s' [Hr ->]. split; [apply Hr; by vm_compute; eauto|done].
Defined.

Example hash_block_size_witness : wp (size_ one_bucket) (λ r s', r = 2 ∧ s' = hb_state) hb_state.
Proof. apply (hash_block_size 0 (λ k, k) one_bucket _ _ hb_state_repr). vm_compute. reflexivity. Defined.

Example hash_block_nodes_fit_witness :
  (∃ o, insert_to_node None 7 70 = inr o ∧ poolable o [(7, 70)]) ∧ cast_to_pool two_entries = inr tt ∧
  ∃ o, remove_from_node two_entries 7 = inr (Some o) ∧ poolable o [(5, 50)].
Proof.
  destruct (hash_block_nodes_fit None [] 7 (λ _, 70) eq_refl) as [Hins _]; [constructor|]. split; [exact Hins|].
  destruct (hash_block_nodes_fit (Some two_entries) [(5, 50); (7, 70)] 7 (λ _, 0) two_entries_holds) as [_ H].
  { by apply (bool_decide_unpack _). }
  destruct (H two_entries eq_refl) as (Hc & _ & Hk). split; [exact Hc|].
  destruct Hk as (c1 & v & c2 & Hc12 & _ & r & Hr & Hrc).
  { right. by left. }
  injection Hr as <-. eexists. split; [reflexivity|]. split; [|reflexivity]. simpl.
  split; [done|]. split; [lia|]. split; [done|]. by exists [].
Defined.

Example find_answers_previous_witness : node_find two_entries 7 = inr (Some 50).
Proof.
  apply (find_answers_previous two_entries [] 5 50 7 70 [] two_entries_holds).
  - by repeat constructor.
  - simpl. lia.
Defined.
