(* ===== verification/HashChain.v ===== *)
(** * HashChain: the hash table with linked lists (structures/hash/set.h).

    A slot heads a list of nodes and is a lock, with a version number that
    every update of its list advances; an update searches without the lock and
    validates with the number.  A pointer to a link, [versioned_ptr<node>*], is
    the address of the slot or node that the link is a field of. *)

From stdpp Require Import prelude list gmap.
From Stdlib Require Import ZArith Lia.
From S2P Require Import Prelude Conc SpinLock Store MapSpec.
Local Open Scope Z_scope.

Module Chain.
Inductive obj :=
  | Slot (head : Z) (version_num : Z)
  | Node (key : Z) (value : Z) (next : Z).

Section chain.
Context (alloc : gmap Z obj → Z) (tid : nat) (hash log2_up : Z → Z).
Context (with_epoch : ∀ A, prog (store_state obj) A → prog (store_state obj) A).
#[local] Abbreviation state := (store_state obj).
(** [validate] of a versioned pointer (it sets the stamp of what it points to) *)
Context (validate : Z → prog state unit).

(** the slots of [parlay::sequence<slot>] *)
Definition Table : Type := list Z.

Definition link_c : Z → cell state Z :=
  field (λ o, inr match o with Slot h _ => h | Node _ _ n => n end)
        (λ p o, match o with Slot _ vn => Slot p vn | Node k v _ => Node k v p end).
Definition version_c : Z → cell state Z :=
  field (λ o, match o with Slot _ vn => inr vn | _ => inl BadCast end)
        (λ vn o, match o with Slot h _ => Slot h vn | Node _ _ _ => o end).
(** the key and the value of a node *)
Definition entry_c : Z → cell state (Z * Z) :=
  field (λ o, match o with Node k v _ => inr (k, v) | _ => inl BadCast end) (λ _ o, o).

Definition get_slot (t : Table) (k : Z) : prog state Z :=
  match t !! Z.to_nat (Z.land (hash k) (Z.of_nat (length t) - 1)) with
  | Some s => mret s
  | None => fail OutOfBounds
  end.

Definition find_in_slot (fuel : nat) (s k : Z) : prog state (Z * Z) :=
  nxt ← load (link_c s);
  iter fuel (λ '(cur, nxt),
    if nxt =? 0 then mret (inr (cur, nxt))
    else
      e ← load (entry_c nxt);
      if e.1 =? k then mret (inr (cur, nxt))
      else nxt' ← load (link_c nxt); mret (inl (nxt, nxt'))) (s, nxt).

Definition find_ (fuel : nat) (t : Table) (k : Z) : prog state (option Z) :=
  s ← get_slot t k;
  '(cur, nxt) ← find_in_slot fuel s k;
  validate cur ;;
  if negb (nxt =? 0) then e ← load (entry_c nxt); mret (Some e.2) else mret None.
Definition find (fuel : nat) (t : Table) (k : Z) : prog state (option Z) :=
  s ← get_slot t k;
  with_epoch (option Z)
    ('(cur, nxt) ← find_in_slot fuel s k;
     validate cur ;;
     if negb (nxt =? 0) then e ← load (entry_c nxt); mret (Some e.2) else mret None).

(** [vn+1] as an unsigned int *)
Definition next_version (vn : Z) : Z := (vn + 1) mod 2 ^ 32.

Definition insert_round (fuel : nat) (s k v : Z) : prog state (option bool) :=
  vn ← load (version_c s);
  '(cur, nxt) ← find_in_slot fuel s k;
  if negb (nxt =? 0) then mret (Some false)
  else
    b ← try_lock tid s
      (vn' ← load (version_c s);
       if negb (vn' =? vn) then mret false
       else
         n ← new_obj alloc (Node k v 0);
         store (link_c cur) n ;;
         store (version_c s) (next_version vn) ;;
         mret true);
    mret (if (b : bool) then Some true else None).
Definition insert_at (fuel : nat) (s k v : Z) : prog state bool :=
  flock.try_loop fuel (insert_round fuel s k v).
Definition insert (fuel : nat) (t : Table) (k v : Z) : prog state bool :=
  s ← get_slot t k; with_epoch bool (insert_at fuel s k v).

Definition remove_round (fuel : nat) (s k : Z) : prog state (option bool) :=
  vn ← load (version_c s);
  '(cur, nxt) ← find_in_slot fuel s k;
  if nxt =? 0 then mret (Some false)
  else
    b ← try_lock tid s
      (vn' ← load (version_c s);
       if negb (vn' =? vn) then mret false
       else
         n ← load (link_c nxt);
         store (link_c cur) n ;;
         retire nxt ;;
         store (version_c s) (next_version vn) ;;
         mret true);
    mret (if (b : bool) then Some true else None).
Definition remove_at (fuel : nat) (s k : Z) : prog state bool :=
  flock.try_loop fuel (remove_round fuel s k).
Definition remove (fuel : nat) (t : Table) (k : Z) : prog state bool :=
  s ← get_slot t k; with_epoch bool (remove_at fuel s k).

Fixpoint new_slots (n : nat) : prog state Table :=
  match n with
  | O => mret []
  | S n' => b ← new_obj alloc (Slot 0 0); bs ← new_slots n'; mret (b :: bs)
  end.
Definition empty (n : Z) : prog state Table :=
  new_slots (Z.to_nat (wrap64 (2 * wrap64 (Z.shiftl 1 (log2_up n))))).

Fixpoint retire_list (fuel : nat) (ptr : Z) : prog state unit :=
  if ptr =? 0 then mret tt
  else
    match fuel with
    | O => fail OutOfFuel
    | S n => x ← load (link_c ptr); retire_list n x ;; retire ptr
    end.
(** the loop over the slots; the table itself is then cleared *)
Definition retire_table (fuel : nat) (t : Table) : prog state unit :=
  for_each t (λ s, x ← load (link_c s); retire_list fuel x).

Definition count_slot (fuel : nat) (s : Z) : prog state Z :=
  ptr ← load (link_c s);
  iter fuel (λ '(ptr, cnt),
    if ptr =? 0 then mret (inr cnt)
    else x ← load (link_c ptr); mret (inl (x, s32 (cnt + 1)))) (ptr, 0).
Fixpoint check (fuel : nat) (t : Table) : prog state Z :=
  match t with
  | [] => mret 0
  | s :: t' => c ← count_slot fuel s; r ← check fuel t'; mret (s32 (c + r))
  end.
End chain.

(** ** The table in memory *)
Fixpoint chain (m : gmap Z obj) (p : Z) (c : list (Z * (Z * Z))) : Prop :=
  match c with
  | [] => p = 0
  | (a, (k, v)) :: c' => p = a ∧ a ≠ 0 ∧ ∃ nx, m !! a = Some (Node k v nx) ∧ chain m nx c'
  end.
#[local] Abbreviation keys c := ((c.*2).*1).

Section chain_lemmas.
Implicit Types c : list (Z * (Z * Z)).
Implicit Types m : gmap Z obj.

Lemma bucket_chain_frame m m' p c : (∀ a k v nx, a ∈ c.*1 → m !! a = Some (Node k v nx) → m' !! a = Some (Node k v nx)) →
  chain m p c → chain m' p c.
Proof.
  revert p. induction c as [|[a [k v]] c IH]; intros p; simpl; [done|].
  intros H (-> & Ha & nx & Hm & Hc). split; [done|]. split; [done|]. exists nx.
  split; [apply H; [by left|done]|]. apply IH; [|done]. intros b kb vb nb Hb. apply H. by right.
Qed.
Lemma chain_app m p c1 c2 : chain m p (c1 ++ c2) →
  ∃ q, chain m q c2 ∧ (c1 = [] → q = p) ∧
    (∀ c' a kv, c1 = c' ++ [(a, kv)] → a ≠ 0 ∧ m !! a = Some (Node kv.1 kv.2 q)).
Proof.
  revert p. induction c1 as [|[a [k v]] c1 IH]; intros p; simpl.
  - intros H. exists p. split; [done|]. split; [done|]. by intros [] ? ?.
  - intros (-> & Ha & nx & Hm & Hc). destruct (IH nx Hc) as (q & Hq & Hnil & Hlast). exists q.
    split; [done|]. split; [done|]. intros [|e c'] b kv; simpl.
    + intros [= -> <- ->]. simpl. split; [done|]. by rewrite Hnil.
    + intros [= <- ->]. by apply (Hlast c').
Qed.
Lemma chain_node m p c a k v : chain m p c → (a, (k, v)) ∈ c → a ≠ 0 ∧ ∃ nx, m !! a = Some (Node k v nx).
Proof.
  revert p. induction c as [|[b [k' v']] c IH]; intros p; simpl; [by intros _ ?%elem_of_nil|].
  intros (-> & Ha & nx & Hm & Hc) [[= <- <- <-]|Hin]%elem_of_cons; eauto.
Qed.
Lemma chain_addr m p c a : chain m p c → a ∈ c.*1 → ∃ k v nx, (a, (k, v)) ∈ c ∧ m !! a = Some (Node k v nx).
Proof.
  intros Hc ([b [k v]] & -> & Hin)%list_elem_of_fmap. destruct (chain_node _ _ _ _ _ _ Hc Hin) as (_ & nx & Hm).
  simpl. eauto.
Qed.
Lemma chain_nodup m p c : chain m p c → NoDup (keys c) → NoDup c.*1.
Proof.
  revert p. induction c as [|[a [k v]] c IH]; intros p; simpl; [constructor|].
  intros (-> & Ha & nx & Hm & Hc) [Hk Hnd]%NoDup_cons. apply NoDup_cons. split; [|by eapply IH].
  intros (k' & v' & nx' & Hin & Hm')%(chain_addr _ _ _ _ Hc). rewrite Hm in Hm'. injection Hm' as <- <- <-.
  apply Hk. apply list_elem_of_fmap. exists (k, v). split; [done|]. apply list_elem_of_fmap. by exists (a, (k, v)).
Qed.

Lemma fmap_app_keys c1 c2 k : k ∈ keys (c1 ++ c2) → k ∈ keys c1 ∨ k ∈ keys c2.
Proof. rewrite !fmap_app, elem_of_app. done. Qed.

(** the node or slot whose link is the place of [k] *)
Fixpoint before (k owner : Z) c : Z :=
  match c with
  | [] => owner
  | (a, (k', _)) :: c' => if k' =? k then owner else before k a c'
  end.
Fixpoint from (k : Z) c : list (Z * (Z * Z)) :=
  match c with
  | [] => []
  | (a, (k', v)) :: c' => if k' =? k then c else from k c'
  end.
Fixpoint upto (k : Z) c : list (Z * (Z * Z)) :=
  match c with
  | [] => []
  | (a, (k', v)) :: c' => if k' =? k then [] else (a, (k', v)) :: upto k c'
  end.
Lemma upto_from k c : upto k c ++ from k c = c.
Proof. induction c as [|[a [k' v]] c IH]; simpl; [done|]. case_match; [done|]. simpl. by rewrite IH. Qed.
Lemma before_last k s c : before k s c = List.last (s :: (upto k c).*1) 0.
Proof.
  revert s. induction c as [|[a [k' v]] c IH]; intros s; [done|]. cbn [before upto].
  case_match; [done|]. rewrite IH. done.
Qed.
Lemma from_head k c a k' v c' : from k c = (a, (k', v)) :: c' → k' = k.
Proof.
  induction c as [|[b [kb vb]] c IH]; simpl; [done|]. destruct (Z.eqb_spec kb k); [|done]. by intros [= <- <- <- <-].
Qed.
Lemma upto_keys k c : k ∉ keys (upto k c).
Proof.
  induction c as [|[a [k' v]] c IH]; simpl; [by intros ?%elem_of_nil|].
  destruct (Z.eqb_spec k' k); [by intros ?%elem_of_nil|]. simpl. intros [?|?]%elem_of_cons; [congruence|done].
Qed.
Lemma from_nil k c : from k c = [] → k ∉ keys c.
Proof.
  intros H. pose proof (upto_from k c) as Hc. rewrite H, app_nil_r in Hc. rewrite <-Hc. apply upto_keys.
Qed.

Definition relink (o : obj) (p : Z) : obj :=
  match o with Slot _ vn => Slot p vn | Node k v _ => Node k v p end.
Definition link (o : obj) : Z := match o with Slot h _ => h | Node _ _ n => n end.

Lemma chain_splice m p u a kv q c c' : chain m p (u ++ (a, kv) :: c) → (a ∉ u.*1) → (a ∉ c'.*1) →
  chain m q c' → chain (<[a := Node kv.1 kv.2 q]> m) p (u ++ (a, kv) :: c').
Proof.
  revert p. induction u as [|[b [k v]] u IH]; intros p; simpl.
  - destruct kv as [k v]. intros (-> & Ha & nx & Hm & _) _ Hc' Hq. split; [done|]. split; [done|].
    exists q. rewrite lookup_insert_eq. split; [done|]. eapply bucket_chain_frame; [|exact Hq].
    intros b kb vb nb Hb Hmb. rewrite lookup_insert_ne; [done|]. by intros ->.
  - intros (-> & Hb & nx & Hm & Hc) [Hab Hau]%not_elem_of_cons Hc' Hq. split; [done|]. split; [done|].
    exists nx. rewrite lookup_insert_ne by done. split; [done|]. by apply IH.
Qed.

(** the link at the place of [k] *)
Lemma place_link m s h vn k c : m !! s = Some (Slot h vn) → chain m h c →
  ∃ o, m !! before k s c = Some o ∧ chain m (link o) (from k c) ∧
    (before k s c = s ∧ upto k c = [] ∨ ∃ u kv, upto k c = u ++ [(before k s c, kv)] ∧
       o = Node kv.1 kv.2 (link o)).
Proof.
  intros Hs Hc. rewrite before_last. pose proof Hc as Hc'. rewrite <-(upto_from k c) in Hc'.
  destruct (chain_app _ _ _ _ Hc') as (q & Hq & Hnil & Hlast).
  destruct (upto k c) as [|e0 u0] eqn:Hu.
  - exists (Slot h vn). simpl. rewrite (Hnil eq_refl) in Hq. auto.
  - destruct (exists_last (l := e0 :: u0)) as (u & [a kv] & Hl); [done|].
    destruct (Hlast u a kv Hl) as [Ha Hm]. rewrite Hl.
    assert (List.last (s :: (u ++ [(a, kv)]).*1) 0 = a) as ->.
    { rewrite fmap_app, app_comm_cons. apply List.last_last. }
    exists (Node kv.1 kv.2 q). split; [done|]. split; [done|]. right. by exists u, kv.
Qed.

(** relinking it *)
Lemma place_relink m m' s h vn k c o p' c' : m !! s = Some (Slot h vn) → chain m h c → NoDup (keys c) →
  m !! before k s c = Some o → (∀ a x, m !! a = Some x → m' !! a = Some x) → chain m' p' c' →
  (before k s c ∉ c'.*1) →
  ∃ h', <[before k s c := relink o p']> m' !! s = Some (Slot h' vn) ∧
    chain (<[before k s c := relink o p']> m') h' (upto k c ++ c').
Proof.
  intros Hs Hc Hnd Ho Hm Hp' Hnc'.
  destruct (place_link m s h vn k c Hs Hc) as (o' & Ho' & _ & Hcase).
  rewrite Ho in Ho'. injection Ho' as <-.
  assert (chain m' h c) as Hc2 by (eapply bucket_chain_frame; [|exact Hc]; intros; by apply Hm).
  destruct Hcase as [[Hb Hu]|(u & kv & Hu & Hok)].
  - rewrite Hb in *. rewrite Hs in Ho. injection Ho as <-. rewrite Hu. simpl. exists p'.
    rewrite lookup_insert_eq. split; [done|]. eapply bucket_chain_frame; [|exact Hp'].
    intros a k' v' nx Ha Hn. rewrite lookup_insert_ne; [done|]. intros ->. done.
  - assert (NoDup c.*1) as Hndc by by eapply chain_nodup.
    rewrite <-(upto_from k c), Hu in Hc2, Hndc. rewrite <-app_assoc in Hc2.
    rewrite fmap_app, fmap_app in Hndc. apply NoDup_app in Hndc as ([_ [Hd _]]%NoDup_app & _).
    exists h. split.
    + rewrite lookup_insert_ne; [by apply Hm|]. intros Heq. rewrite Heq, Hs in Ho.
      injection Ho as <-. done.
    + rewrite Hu, <-app_assoc. simpl app. rewrite Hok. simpl relink.
      apply (chain_splice m' h u _ kv p' (from k c) c'); [done| |done|done].
      intros Hin. apply (Hd _ Hin). by left.
Qed.
End chain_lemmas.

Section proofs.
Context (alloc : gmap Z obj → Z) {fresh : Allocator alloc} (tid : nat) (tid_ok : small_tid tid)
  (hash : Z → Z).
Context (with_epoch : ∀ A, prog (store_state obj) A → prog (store_state obj) A)
  {transparent : EpochTransparent with_epoch}.
#[local] Abbreviation state := (store_state obj).
Context (validate : Z → prog state unit)
  (validate_wp : ∀ A p (k : unit → prog state A) Q s, wp (k tt) Q s → wp (validate p ≫= k) Q s).
Implicit Types s : state.
Implicit Types c : list (Z * (Z * Z)).

Definition idx (t : Table) (k : Z) : nat := Z.to_nat (Z.land (hash k) (Z.of_nat (length t) - 1)).

Record table_at (t : Table) (C : nat → list (Z * (Z * Z))) (m : gmap Z obj) : Prop := {
  ta_nodup : NoDup t;
  ta_pow : ∃ b, 0 ≤ b ∧ Z.of_nat (length t) = 2 ^ b;
  ta_slot : ∀ i b, t !! i = Some b → ∃ h vn, m !! b = Some (Slot h vn) ∧ chain m h (C i);
  ta_keys : ∀ i b, t !! i = Some b → NoDup (keys (C i)) ∧ ∀ k, k ∈ keys (C i) → idx t k = i;
}.
Definition repr (t : Table) (M : gmap Z Z) s : Prop :=
  ∃ C, table_at t C (nodes s) ∧ (∀ k, M !! k = to_map (C (idx t k)).*2 !! k) ∧ holding tid ∅ s.

Lemma idx_slot t C m k : table_at t C m → ∃ b, t !! idx t k = Some b.
Proof.
  intros [_ (b & Hb & Hp) _ _]. apply lookup_lt_is_Some_2. unfold idx.
  rewrite Hp, land_low by done. pose proof (Z.mod_pos_bound (hash k) (2 ^ b)) as Hm.
  assert (0 < 2 ^ b) by lia. lia.
Qed.

(** relinking at the place of [k] in the slot [b], which gets version [vn'] *)
Lemma table_relink t C m m' k b o p' c' : table_at t C m → t !! idx t k = Some b →
  let cur := before k b (C (idx t k)) in
  m !! cur = Some o → (∀ a x, m !! a = Some x → m' !! a = Some x) → chain m' p' c' →
  (cur ∉ c'.*1) → NoDup (keys (upto k (C (idx t k)) ++ c')) → (∀ k', k' ∈ keys c' → idx t k' = idx t k) →
  ∃ h vn, <[cur := relink o p']> m' !! b = Some (Slot h vn) ∧
    ∀ vn', table_at t (λ j, if decide (j = idx t k) then upto k (C (idx t k)) ++ c' else C j)
      (<[b := Slot h vn']> (<[cur := relink o p']> m')).
Proof.
  intros [Hnd Hpow Hb Hk] Hi cur Ho Hm Hp' Hnc' Hnd' Hidx.
  destruct (Hb _ _ Hi) as (h & vn & Hs & Hc). destruct (Hk _ _ Hi) as [Hndi Hki].
  destruct (place_relink m m' b h vn k _ o p' c' Hs Hc Hndi Ho Hm Hp' Hnc') as (h' & Hs' & Hc').
  fold cur in Hs', Hc'. set (m2 := <[cur := relink o p']> m') in *.
  exists h', vn. split; [done|]. intros vn'.
  assert (∀ p c, chain m2 p c → chain (<[b := Slot h' vn']> m2) p c) as Hfr.
  { intros p c. apply bucket_chain_frame. intros a k1 v1 nx _ Ha. rewrite lookup_insert_ne; [done|].
    intros <-. rewrite Hs' in Ha. done. }
  split; [done|done| |].
  - intros j bj Hj. case_decide as Hji.
    + subst j. rewrite Hi in Hj. injection Hj as <-. exists h', vn'. rewrite lookup_insert_eq. auto.
    + destruct (Hb j bj Hj) as (hj & vnj & Hbj & Hcj). exists hj, vnj.
      assert (b ≠ bj) as Hbb by (intros <-; apply Hji; exact (NoDup_lookup _ j _ b Hnd Hj Hi)).
      rewrite lookup_insert_ne by done.
      destruct (place_link m b h vn k _ Hs Hc) as (o' & Ho' & _ & Hcase). fold cur in Ho', Hcase.
      rewrite Ho in Ho'. injection Ho' as <-.
      assert (∀ a k1 v1 nx, a ∈ (C j).*1 → m !! a = Some (Node k1 v1 nx) → a ≠ cur) as Hne.
      { intros a k1 v1 nx Ha Hma ->. apply (chain_addr _ _ _ _ Hcj) in Ha as (k2 & v2 & nx2 & Hin & Hm2).
        rewrite Hma in Hm2. injection Hm2 as <- <- <-.
        assert (idx t k1 = j) as Hj1.
        { apply (Hk _ _ Hj). apply list_elem_of_fmap. exists (k1, v1). split; [done|].
          apply list_elem_of_fmap. by exists (cur, (k1, v1)). }
        destruct Hcase as [[Hcur _]|(u & [k3 v3] & Hu & Hok)].
        - rewrite Hcur, Hs in Hma. done.
        - rewrite Ho in Hma. rewrite Hok in Hma. injection Hma as -> -> _.
          apply Hji. rewrite <-Hj1. apply Hki. rewrite <-(upto_from k (C (idx t k))), Hu.
          rewrite !fmap_app. apply elem_of_app. left. apply elem_of_app. right. by left. }
      split.
      * unfold m2. rewrite lookup_insert_ne; [by apply Hm|]. intros Hcb.
        destruct Hcase as [[Hcur _]|(u & kv & _ & Hok)]; [congruence|].
        rewrite Hcb, Hbj in Ho. injection Ho as <-. done.
      * apply Hfr. eapply bucket_chain_frame; [|exact Hcj]. intros a k1 v1 nx Ha Hma. unfold m2.
        rewrite lookup_insert_ne; [by apply Hm|]. intros <-. by eapply Hne.
  - intros j bj Hj. case_decide as Hji; [subst j|by eapply Hk]. split; [done|].
    intros k' [Hin|Hin]%(fmap_app_keys _ _ _); [|by apply Hidx].
    apply Hki. rewrite <-(upto_from k (C (idx t k))). rewrite !fmap_app. apply elem_of_app. by left.
Qed.

(** ** Searching *)
Lemma bucket_wp_find_from k s : ∀ c fuel cur nxt Q, chain (nodes s) nxt c → (length c < fuel)%nat →
  (∀ nxt', chain (nodes s) nxt' (from k c) → Q (before k cur c, nxt') s) →
  wp (iter fuel (λ '(cur, nxt),
    if nxt =? 0 then mret (inr (cur, nxt))
    else
      e ← load (entry_c nxt);
      if e.1 =? k then mret (inr (cur, nxt))
      else nxt' ← load (link_c nxt); mret (inl (nxt, nxt'))) (cur, nxt)) Q s.
Proof.
  intros c. induction c as [|[a [k' v']] c IH]; intros [|fuel] cur nxt Q Hc Hf HQ; simpl in Hf; try lia;
    cbn [iter]; rewrite wp_bind.
  - simpl in Hc. subst nxt. by apply HQ.
  - destruct Hc as (-> & Ha & nx & Hm & Hc). rewrite (proj2 (Z.eqb_neq a 0)) by done.
    eapply wp_read; [done..|]. cbn [fst before from] in *. destruct (k' =? k).
    + apply HQ. simpl. eauto.
    + eapply wp_read; [done..|]. apply IH; [done|lia|done].
Qed.

Lemma wp_find_in_slot {A} fuel b h vn k c (K : Z * Z → prog state A) Q s :
  nodes s !! b = Some (Slot h vn) → chain (nodes s) h c → (length c < fuel)%nat →
  (∀ nxt, chain (nodes s) nxt (from k c) → wp (K (before k b c, nxt)) Q s) →
  wp (find_in_slot fuel b k ≫= K) Q s.
Proof.
  intros Hb Hc Hf HK. unfold find_in_slot. rewrite wp_bind. eapply wp_read; [done..|].
  by apply (bucket_wp_find_from k s c).
Qed.

Lemma wp_get_slot {A} t C k (K : Z → prog state A) Q s : table_at t C (nodes s) →
  (∀ b, t !! idx t k = Some b → wp (K b) Q s) → wp (get_slot hash t k ≫= K) Q s.
Proof.
  intros Hta HK. destruct (idx_slot t C _ k Hta) as [b Hb]. unfold get_slot. fold (idx t k).
  rewrite Hb. by apply HK.
Qed.

(** ** Operations on the slot [b] of the key [k] *)
Section slot_ops.
Context (t : Table) (C : nat → list (Z * (Z * Z))) (M : gmap Z Z) (k b h vn : Z) (s : state).
Context (Hta : table_at t C (nodes s)) (HM : ∀ k, M !! k = to_map (C (idx t k)).*2 !! k)
  (Hh : holding tid ∅ s) (Hb : t !! idx t k = Some b) (Hbo : nodes s !! b = Some (Slot h vn))
  (Hc : chain (nodes s) h (C (idx t k))).
#[local] Abbreviation c := (C (idx t k)).

Lemma bucket_here_nodup : NoDup (keys c).
Proof. by apply (ta_keys _ _ _ Hta _ _ Hb). Qed.
Lemma bucket_here_repr : repr t M s.
Proof. by exists C. Qed.

Lemma chain_short fuel : enough fuel M → (length c < fuel)%nat.
Proof.
  intros Hf. unfold enough in Hf. assert (length c ≤ size M)%nat; [|lia].
  rewrite <-(length_fmap snd), <-(map_size_list_to_map (M := gmap Z)) by apply bucket_here_nodup.
  apply map_subseteq_size. apply map_subseteq_spec. intros k' v' Hk'. rewrite HM.
  assert (k' ∈ keys c) as Hin.
  { apply elem_of_list_to_map_2 in Hk'. apply list_elem_of_fmap. by exists (k', v'). }
  destruct (ta_keys _ _ _ Hta _ _ Hb) as [_ Hidx]. by rewrite (Hidx k' Hin).
Qed.

(** the key is where the search stops, or nowhere *)
Lemma lookup_from : M !! k = match from k c with [] => None | (_, (_, v)) :: _ => Some v end.
Proof.
  rewrite HM. destruct (from k c) as [|[a [k' v]] c'] eqn:Hf.
  - apply not_elem_of_list_to_map_1. by apply from_nil.
  - pose proof (from_head _ _ _ _ _ _ Hf) as ->. apply elem_of_list_to_map_1; [apply bucket_here_nodup|].
    apply list_elem_of_fmap. exists (a, (k, v)). split; [done|].
    rewrite <-(upto_from k c), Hf. apply elem_of_app. right. by left.
Qed.

(** relinked, with the map [M'] that the new entries describe *)
Lemma repr_relink o p' c' (m' : gmap Z obj) s' M' vn' h' :
  let cur := before k b c in
  nodes s !! cur = Some o → (∀ a x, nodes s !! a = Some x → m' !! a = Some x) → chain m' p' c' →
  (cur ∉ c'.*1) → NoDup (keys (upto k c ++ c')) → (∀ k', k' ∈ keys c' → k' = k ∨ k' ∈ keys c) →
  <[cur := relink o p']> m' !! b = Some h' →
  nodes s' = <[b := match h' with Slot h _ => Slot h vn' | Node _ _ _ => h' end]> (<[cur := relink o p']> m') →
  holding tid ∅ s' →
  (∀ k', idx t k' = idx t k → M' !! k' = to_map (upto k c ++ c').*2 !! k') →
  (∀ k', k' ≠ k → M' !! k' = M !! k') → repr t M' s'.
Proof.
  intros cur Ho Hm Hp' Hcur Hnd Hk' Hh' Hs' Hhold H1 H2.
  destruct (table_relink t C (nodes s) m' k b o p' c' Hta Hb Ho Hm Hp' Hcur Hnd) as (h2 & vn2 & Hs2 & Hta2).
  { intros k' [->|Hin]%Hk'; [done|]. by apply (ta_keys _ _ _ Hta _ _ Hb). }
  fold cur in Hs2, Hta2. rewrite Hs2 in Hh'. injection Hh' as <-.
  exists (λ j, if decide (j = idx t k) then upto k c ++ c' else C j).
  split; [rewrite Hs'; apply Hta2|]. split; [|done].
  intros k'. case_decide as Hi; [by apply H1|]. rewrite H2, HM; [done|]. by intros ->.
Qed.

Lemma keys_mid a v c1 c2 : keys (c1 ++ (a, (k, v)) :: c2) = keys c1 ++ k :: keys c2.
Proof. by rewrite !fmap_app. Qed.

Lemma upto_mid a v c1 c2 : NoDup (keys (c1 ++ (a, (k, v)) :: c2)) →
  to_map (c1 ++ (a, (k, v)) :: c2).*2 = <[k := v]> (to_map (c1 ++ c2).*2) ∧ to_map (c1 ++ c2).*2 !! k = None ∧
  NoDup (keys (c1 ++ c2)).
Proof.
  intros Hnd. rewrite keys_mid in Hnd. rewrite <-Permutation_middle in Hnd. apply NoDup_cons in Hnd as [Hk Hnd].
  assert (keys (c1 ++ c2) = keys c1 ++ keys c2) as Hkeys by (by rewrite !fmap_app).
  rewrite <-Hkeys in Hk, Hnd. split; [|split; [by apply not_elem_of_list_to_map_1|done]].
  unfold to_map. rewrite (list_to_map_proper _ ((k, v) :: (c1 ++ c2).*2)); [done| |].
  - rewrite keys_mid, <-Permutation_middle. apply NoDup_cons. by rewrite <-Hkeys.
  - rewrite !fmap_app, fmap_cons. by rewrite <-Permutation_middle.
Qed.

Lemma bucket_insert_wp fuel v : enough fuel M → wp (insert_round alloc tid fuel b k v) (λ r s', ∃ ok, r = Some ok ∧
  ok = bool_decide (M !! k = None) ∧ repr t (if ok then <[k := v]> M else M) s') s.
Proof.
  intros Hf. unfold insert_round. eapply wp_read; [done..|].
  eapply wp_find_in_slot; [done|done|by apply chain_short|]. intros nxt Hnxt.
  pose proof lookup_from as Hlk. destruct (from k c) as [|[a [k' w]] c'] eqn:Hfr.
  - simpl in Hnxt. subst nxt. cbn [Z.eqb negb]. 
    destruct (place_link _ b h vn k c Hbo Hc) as (o & Ho & Hlink & _). set (cur := before k b c) in *.
    eapply (wp_try_lock tid tid_ok ∅); [exact Hh|set_solver|exact Hbo|].
    intros s1 Hs1 Hr1 Hh1. eapply wp_read; [by rewrite Hs1|done|]. rewrite Z.eqb_refl. cbn [negb].
    apply (wp_new alloc). intros q Hq Hq0. rewrite Hs1 in Hq.
    assert (q ≠ cur) as Hqc by congruence. assert (q ≠ b) as Hqb by congruence.
    eapply wp_write; [simpl; rewrite Hs1, lookup_insert_ne by done; exact Ho|done|].
    pose proof (upto_from k c) as Hup. rewrite Hfr, app_nil_r in Hup.
    assert (NoDup (keys (upto k c ++ [(q, (k, v))]))) as Hnd.
    { rewrite keys_mid, <-Permutation_middle, app_nil_r. apply NoDup_cons. split; [apply upto_keys|].
      rewrite Hup. apply bucket_here_nodup. }
    edestruct (table_relink t C (nodes s) (<[q := Node k v 0]> (nodes s)) k b o q [(q, (k, v))]) as (h2 & vn2 & Hs2 & _);
      try done.
    { intros a x Ha. rewrite lookup_insert_ne; [done|]. congruence. }
    { simpl. split; [done|]. split; [done|]. exists 0. by rewrite lookup_insert_eq. }
    { by intros ?%list_elem_of_singleton. }
    { by intros k' ->%list_elem_of_singleton. }
    fold cur in Hs2.
    eapply wp_write; [cbn [nodes set_nodes]; rewrite Hs1; exact Hs2|done|].
    unfold wp; cbn [run mret prog_ret nodes locks set_nodes]. split; [|split].
    + apply (holding_new tid _ s1 _ q); [|done|done].
      intros [->%elem_of_singleton|?%elem_of_empty]%elem_of_union; done.
    + rewrite lookup_insert_eq. eauto.
    + intros s3 Hs3 _ Hh3. exists true. split; [done|]. rewrite bool_decide_true by done. split; [done|].
      rewrite Hs1 in Hs3.
      eapply (repr_relink o q [(q, (k, v))] (<[q := Node k v 0]> (nodes s)) s3 _ _ (Slot h2 vn2)); try done.
      * intros a x Ha. rewrite lookup_insert_ne; [done|]. congruence.
      * simpl. split; [done|]. split; [done|]. exists 0. by rewrite lookup_insert_eq.
      * by intros ?%list_elem_of_singleton.
      * intros k' ->%list_elem_of_singleton. by left.
      * intros k' Hi. destruct (upto_mid q v (upto k c) [] Hnd) as [-> _]. rewrite app_nil_r, Hup.
        destruct (decide (k = k')) as [<-|Hne]; [by rewrite !lookup_insert_eq|].
        rewrite !lookup_insert_ne by done. by rewrite HM, Hi.
      * intros k' Hne. by rewrite lookup_insert_ne.
  - destruct Hnxt as (-> & Ha & _). rewrite (proj2 (Z.eqb_neq a 0)) by done. cbn [negb].
    exists false. split; [done|]. rewrite bool_decide_false by (by rewrite Hlk). split; [done|apply bucket_here_repr].
Qed.

Lemma bucket_remove_wp fuel : enough fuel M → wp (remove_round tid fuel b k) (λ r s', ∃ ok, r = Some ok ∧
  ok = bool_decide (is_Some (M !! k)) ∧ repr t (delete k M) s') s.
Proof.
  intros Hf. unfold remove_round. eapply wp_read; [done..|].
  eapply wp_find_in_slot; [done|done|by apply chain_short|]. intros nxt Hnxt.
  pose proof lookup_from as Hlk. destruct (from k c) as [|[a [k' w]] c'] eqn:Hfr.
  - simpl in Hnxt. subst nxt. cbn [Z.eqb negb]. exists false. split; [done|].
    rewrite Hlk, bool_decide_false by (by intros [? ?]). split; [done|].
    rewrite delete_id by done. apply bucket_here_repr.
  - destruct Hnxt as (-> & Ha & nx & Hm & Hc'). rewrite (proj2 (Z.eqb_neq a 0)) by done.
    pose proof (from_head _ _ _ _ _ _ Hfr) as ->.
    destruct (place_link _ b h vn k c Hbo Hc) as (o & Ho & Hlink & Hcase). set (cur := before k b c) in *.
    pose proof (upto_from k c) as Hup. rewrite Hfr in Hup.
    pose proof (chain_nodup _ _ _ Hc bucket_here_nodup) as Hnda. rewrite <-Hup, fmap_app in Hnda.
    apply NoDup_app in Hnda as (_ & Hnda1 & [Hnda2 _]%NoDup_cons).
    assert (cur ∉ c'.*1) as Hcur.
    { destruct Hcase as [[Hcb _]|(u & kv & Hu & _)].
      - rewrite Hcb. intros Hin. destruct (chain_addr _ _ _ _ Hc' Hin) as (? & ? & ? & _ & Hx). by rewrite Hbo in Hx.
      - intros Hin. apply (Hnda1 cur); [|by right]. rewrite Hu, fmap_app. apply elem_of_app. right. by left. }
    pose proof bucket_here_nodup as Hnd. rewrite <-Hup in Hnd.
    destruct (upto_mid a w _ _ Hnd) as (Hmid & Hnone & Hnd').
    edestruct (table_relink t C (nodes s) (nodes s) k b o nx c') as (h2 & vn2 & Hs2 & _); try done.
    { intros k' Hin. destruct (ta_keys _ _ _ Hta _ _ Hb) as [_ Hidx]. apply Hidx. rewrite <-Hup, keys_mid.
      apply elem_of_app. right. by right. }
    fold cur in Hs2.
    eapply (wp_try_lock tid tid_ok ∅); [exact Hh|set_solver|exact Hbo|].
    intros s1 Hs1 Hr1 Hh1. eapply wp_read; [by rewrite Hs1|done|]. rewrite Z.eqb_refl. cbn [negb].
    eapply wp_read; [by rewrite Hs1|done|].
    eapply wp_write; [rewrite Hs1; exact Ho|done|]. apply wp_retire.
    eapply wp_write; [cbn [nodes set_nodes]; rewrite Hs1; exact Hs2|done|].
    unfold wp; cbn [run mret prog_ret nodes locks set_nodes].
    split; [by apply (holding_same_locks tid _ s1)|]. split; [rewrite lookup_insert_eq; eauto|].
    intros s3 Hs3 _ Hh3. exists true. split; [done|]. rewrite Hlk, bool_decide_true by eauto. split; [done|].
    rewrite Hs1 in Hs3.
    eapply (repr_relink o nx c' (nodes s) s3 _ _ (Slot h2 vn2)); try done.
    + intros k' Hin. right. rewrite <-Hup, keys_mid. apply elem_of_app. right. by right.
    + intros k' Hi. destruct (decide (k = k')) as [<-|Hne]; [by rewrite lookup_delete_eq|].
      rewrite lookup_delete_ne by done. rewrite HM, Hi, <-Hup at 1. rewrite Hmid. by rewrite lookup_insert_ne.
    + intros k' Hne. by rewrite lookup_delete_ne.
Qed.

Lemma found_wp fuel : enough fuel M →
  wp ('(cur, nxt) ← find_in_slot fuel b k;
     validate cur ;;
     if negb (nxt =? 0) then e ← load (entry_c nxt); mret (Some e.2) else mret None)
    (λ r s', r = M !! k ∧ repr t M s') s.
Proof.
  intros Hf. eapply wp_find_in_slot; [done|done|by apply chain_short|]. intros nxt Hnxt.
  apply validate_wp. pose proof lookup_from as Hlk. destruct (from k c) as [|[a [k' w]] c'] eqn:Hfr.
  - simpl in Hnxt. subst nxt. split; [done|apply bucket_here_repr].
  - destruct Hnxt as (-> & Ha & nx & Hm & Hc'). rewrite (proj2 (Z.eqb_neq a 0)) by done. cbn [negb].
    eapply wp_read; [done..|]. unfold wp; cbn [run mret prog_ret]. split; [done|apply bucket_here_repr].
Qed.
End slot_ops.

Definition ops (t : Table) : dict_ops state :=
  DictOps (λ fuel, find hash with_epoch validate fuel t)
    (λ fuel, insert alloc tid hash with_epoch fuel t) (λ fuel, remove tid hash with_epoch fuel t).

Lemma repr_slot t M k s : repr t M s → ∃ C b h vn, table_at t C (nodes s) ∧
  (∀ k, M !! k = to_map (C (idx t k)).*2 !! k) ∧ holding tid ∅ s ∧ t !! idx t k = Some b ∧
  nodes s !! b = Some (Slot h vn) ∧ chain (nodes s) h (C (idx t k)).
Proof.
  intros (C & Hta & HM & Hh). destruct (idx_slot t C _ k Hta) as [b Hb].
  destruct (ta_slot _ _ _ Hta _ _ Hb) as (h & vn & Hbo & Hc). eauto 12.
Qed.

#[export] Instance chain_dictionary t : Dictionary (ops t) (repr t).
Proof.
  split; intros [|fuel] k; intros; try (by unfold enough in *; lia);
    match goal with H : repr _ _ _ |- _ =>
      destruct (repr_slot t m k s H) as (C & b & h & vn & Hta & HM & Hh & Hb & Hbo & Hc) end;
    (eapply wp_get_slot; [exact Hta|]); intros b' Hb'; rewrite Hb in Hb'; injection Hb' as <-;
    apply with_epoch_wp; [by eapply found_wp|apply wp_try_loop..].
  - by eapply bucket_insert_wp.
  - by eapply bucket_remove_wp.
Qed.

(** *** A new table *)
Lemma new_slots_wp n : ∀ s, holding tid ∅ s →
  wp (new_slots alloc n) (λ bs s', length bs = n ∧ NoDup bs ∧ holding tid ∅ s' ∧
    (∀ b, b ∈ bs → nodes s !! b = None ∧ nodes s' !! b = Some (Slot 0 0)) ∧
    (∀ a x, nodes s !! a = Some x → nodes s' !! a = Some x)) s.
Proof.
  induction n as [|n IH]; intros s Hh; cbn [new_slots].
  { unfold wp; cbn [run mret prog_ret]. split_and!; [done|constructor|done|by intros b ?%elem_of_nil|done]. }
  apply (wp_new alloc). intros q Hq Hq0. rewrite wp_bind.
  eapply wp_mono; [|apply IH; eapply (holding_new tid ∅ s _ q); [apply not_elem_of_empty|done|done]].
  intros bs s' (Hlen & Hnd & Hh' & Hbs & Hold). unfold wp; cbn [run mret prog_ret].
  simpl in Hbs, Hold. split; [simpl; lia|]. split.
  { apply NoDup_cons. split; [|done]. intros Hin. apply Hbs in Hin as [Hin _]. by rewrite lookup_insert_eq in Hin. }
  split; [done|]. split.
  - intros b [->|Hin]%elem_of_cons; [split; [done|apply Hold; by rewrite lookup_insert_eq]|].
    destruct (Hbs b Hin) as [Hn Hb]. split; [|done].
    destruct (decide (q = b)) as [->|Hne]; [done|]. by rewrite lookup_insert_ne in Hn.
  - intros a x Ha. apply Hold. rewrite lookup_insert_ne; [done|]. intros ->. by rewrite Hq in Ha.
Qed.

Lemma empty_wp log2_up n s : 0 ≤ log2_up n < 63 → holding tid ∅ s →
  wp (empty alloc log2_up n) (λ t s', repr t ∅ s') s.
Proof.
  intros Hlog Hh. unfold empty.
  assert (wrap64 (2 * wrap64 (Z.shiftl 1 (log2_up n))) = 2 ^ (log2_up n + 1)) as ->.
  { rewrite Z.shiftl_1_l. rewrite Z.pow_add_r by lia.
    assert (0 < 2 ^ log2_up n < 2 ^ 63) as Hb by (split; [lia|]; apply Z.pow_lt_mono_r; lia).
    rewrite (wrap64_small (2 ^ log2_up n)) by (unfold is_w64; lia).
    rewrite wrap64_small by (unfold is_w64; lia). lia. }
  eapply wp_mono; [|by apply new_slots_wp].
  intros bs s' (Hlen & Hnd & Hh' & Hbs & _).
  exists (λ _, []). split; [|split; [|done]].
  - assert (0 < 2 ^ (log2_up n + 1)) by lia. split; [done|exists (log2_up n + 1); split; lia| |].
    + intros i b Hi%list_elem_of_lookup_2. exists 0, 0. destruct (Hbs b Hi) as [_ ->]. by split.
    + intros i b _. split; [constructor|]. by intros k ?%elem_of_nil.
  - intros k. by rewrite lookup_empty.
Qed.

(** C34: a new chained hash table answers any sequence of finds, inserts and
    removes of one thread as a finite map does, for every hash function. *)
Theorem hash_chain_refines_map log2_up n fuel cs s : 0 ≤ log2_up n < 63 → holding tid ∅ s →
  (length cs + 4 ≤ fuel)%nat →
  wp (session (empty alloc log2_up n) ops fuel cs) (λ answers s',
    answers = (meaning_all cs ∅).1 ∧ ∃ t, repr t (meaning_all cs ∅).2 s') s.
Proof. intros Hlog Hh Hf. eapply session_refines; [apply _|by apply empty_wp|done]. Qed.
End proofs.

Example hash_chain_refines_map_witness : small_tid 0 ∧
  wp (session (empty next_addr (λ _, 1) 2) (ops next_addr 0 (λ k, k) (λ A p, p) (λ _, mret tt)) 9
        [Insert 5 50; Insert 9 90; Insert 5 51; Remove 5; Find 9])
     (λ answers _, answers = [AInsert true; AInsert true; AInsert false; ARemove true; AFind (Some 90)])
     empty_store.
Proof.
  assert (small_tid 0) as Ht by (unfold small_tid; lia). split; [exact Ht|].
  assert (∀ A (p : Z) (k : unit → prog (store_state obj) A) Q s,
    wp (k tt) Q s → wp ((mret tt : prog (store_state obj) unit) ≫= k) Q s) as Hv by done.
  eapply wp_mono; [|apply (hash_chain_refines_map next_addr 0 Ht (λ k, k) (λ A p, p) (λ _, mret tt)
    Hv (λ _, 1) 2 9); [simpl; lia|apply holding_empty|simpl; lia]].
  intros r s' [-> _]. reflexivity.
Defined.
End Chain.
