(* ===== verification/BTree.v ===== *)
(** * BTree: the balanced search tree with blocks of children and of entries
    (structures/btree/ordered_map.h).

    Nodes are split and joined on the way down, so that an update always finds
    a leaf that can take one more entry or lose one.  Keys and leaves never
    change once built; a node is copied to add, remove or rebalance children,
    and the copy is linked in under the locks of the nodes involved.

    The sizes of blocks follow from the sizes of the types, here parameters. *)

From stdpp Require Import prelude list gmap.
From Stdlib Require Import ZArith Lia Sorted.
From S2P Require Import Prelude Conc SpinLock Store MapSpec Arrays.
Local Open Scope Z_scope.

Module BTree.
#[local] Abbreviation KV := (Z * Z)%type.
Inductive Status := isOver | isUnder | OK.
#[export] Instance status_eq_dec : EqDecision Status.
Proof. solve_decision. Defined.

(** [struct node] and [struct leaf], with what they use of [struct header] *)
Inductive obj :=
  | node (status : Status) (removed : bool) (size : Z) (keys children : list Z)
  | leaf (status : Status) (size : Z) (keyvals : list KV).
Definition is_leaf (o : obj) : bool := match o with leaf _ _ _ => true | node _ _ _ _ _ => false end.
Definition size_of (o : obj) : Z := match o with leaf _ n _ => n | node _ _ n _ _ => n end.
Definition status_of (o : obj) : Status := match o with leaf st _ _ => st | node st _ _ _ _ => st end.

Section blocks.
(** the sizes of [header], [verlib::lock], [K] and [KV] *)
Context (sizeof_header sizeof_lock sizeof_K sizeof_KV : Z).

Definition leaf_block_bytes : Z := 64 * 8.
Definition kv_bytes : Z := leaf_block_bytes - sizeof_header.
Definition leaf_block_size : Z := Z.max (kv_bytes / sizeof_KV) 5.
Definition leaf_min_size : Z := leaf_block_size / 5.
Definition leaf_join_cutoff : Z := leaf_min_size * 4.
Definition node_block_bytes : Z := 64 * 6.
Definition entry_bytes : Z := node_block_bytes - sizeof_header - sizeof_lock + sizeof_K.
Definition node_block_size : Z := Z.max (entry_bytes / (sizeof_K + 8)) 5.
Definition node_min_size : Z := node_block_size / 5.
Definition node_join_cutoff : Z := node_min_size * 4.

(** the status that the constructors of [node] and [leaf] give *)
Definition node_status (size : Z) : Status :=
  if size =? node_min_size then isUnder else if size =? node_block_size then isOver else OK.
Definition leaf_status (size : Z) : Status :=
  if size =? leaf_min_size then isUnder else if size =? leaf_block_size then isOver else OK.

(** [while (i < bound && !less(k, keys[i])) i++], without the bound when it is
    [None] *)
Fixpoint skip_keys (bound : option Z) (keys : list Z) (k : Z) (n : nat) (i : Z) : err + Z :=
  match n with
  | O => inl OutOfFuel
  | S n' =>
      if match bound with Some b => negb (i <? b) | None => false end then inr i
      else
        x ← get keys i;
        if k <? x then inr i else skip_keys bound keys k n' (i + 1)
  end.
(** [node::find] *)
Definition node_find (size : Z) (keys : list Z) (k i : Z) : err + Z :=
  if size =? 1 then inr 0
  else
    let mid := (size - 1) / 2 in
    x ← get keys mid;
    if k <? x then skip_keys None keys k (S (length keys)) i
    else skip_keys (Some (size - 1)) keys k (S (length keys)) (Z.max i (mid + 1)).

(** [leaf::prev]: [while (i < size && less(keyvals[i].key, k)) i++], which is
    also the loop of [leaf::find] *)
Fixpoint prev_from (keyvals : list KV) (size k : Z) (n : nat) (i : Z) : err + Z :=
  match n with
  | O => inl OutOfFuel
  | S n' =>
      if i <? size then
        e ← get keyvals i;
        if e.1 <? k then prev_from keyvals size k n' (i + 1) else inr i
      else inr i
  end.
Definition prev (size : Z) (keyvals : list KV) (k i : Z) : err + Z :=
  prev_from keyvals size k (S (length keyvals)) i.
Definition leaf_find (size : Z) (keyvals : list KV) (k : Z) : err + option Z :=
  i ← prev size keyvals k 0;
  if i =? size then inr None
  else e ← get keyvals i; inr (if k <? e.1 then None else Some e.2).

(** the entries of the new leaf of insert_leaf, and its size *)
Definition insert_leaf (size : Z) (keyvals : list KV) (k v : Z) (upsert : bool) : err + (Z * list KV) :=
  if negb (size <? leaf_block_size) then inl AssertFailed
  else
    '(out, i) ← copy_less (replicate (Z.to_nat leaf_block_size) (0, 0)) keyvals size k (S (length keyvals)) 0;
    out' ← put out i (k, v);
    out'' ← (if i <? size then
               if upsert then copy out' keyvals 0 (Z.to_nat (size - (i + 1))) (i + 1)
               else copy out' keyvals (-1) (Z.to_nat (size - i)) (i + 1)
             else inr out');
    inr (if upsert then size else size + 1, out'').
(** those of remove_leaf *)
Definition remove_leaf (size : Z) (keyvals : list KV) (k : Z) : err + (Z * list KV) :=
  if negb (0 <? size) then inl AssertFailed
  else
    '(out, i) ← copy_less (replicate (Z.to_nat leaf_block_size) (0, 0)) keyvals size k (S (length keyvals)) 0;
    out' ← copy out keyvals 1 (Z.to_nat (size - 1 - i)) i;
    inr (size - 1, out').
End blocks.

Section btree.
Context (sizeof_header sizeof_lock sizeof_K sizeof_KV : Z).
Context (alloc : gmap Z obj → Z) (tid : nat).
Context (with_epoch : ∀ A, prog (store_state obj) A → prog (store_state obj) A).
#[local] Abbreviation state := (store_state obj).
#[local] Abbreviation leaf_block_size := (leaf_block_size sizeof_header sizeof_KV).
#[local] Abbreviation leaf_join_cutoff := (leaf_join_cutoff sizeof_header sizeof_KV).
#[local] Abbreviation leaf_status := (leaf_status sizeof_header sizeof_KV).
#[local] Abbreviation node_block_size := (node_block_size sizeof_header sizeof_lock sizeof_K).
#[local] Abbreviation node_min_size := (node_min_size sizeof_header sizeof_lock sizeof_K).
#[local] Abbreviation node_join_cutoff := (node_join_cutoff sizeof_header sizeof_lock sizeof_K).
#[local] Abbreviation node_status := (node_status sizeof_header sizeof_lock sizeof_K).
#[local] Abbreviation insert_leaf := (insert_leaf sizeof_header sizeof_KV).
#[local] Abbreviation remove_leaf := (remove_leaf sizeof_header sizeof_KV).

Definition child_c (p i : Z) : cell state Z :=
  field (λ o, match o with node _ _ _ _ ch => get ch i | leaf _ _ _ => inl BadCast end)
        (λ c o, match o with node st rm n ks ch => node st rm n ks (<[Z.to_nat i := c]> ch) | leaf _ _ _ => o end) p.
Definition removed_c : Z → cell state bool :=
  field (λ o, match o with node _ rm _ _ _ => inr rm | leaf _ _ _ => inl BadCast end)
        (λ rm o, match o with node st _ n ks ch => node st rm n ks ch | leaf _ _ _ => o end).

(** the size and the keys of the node at [p], the size and the entries of the
    leaf there *)
Definition as_node (p : Z) : prog state (Z * list Z) :=
  o ← load (node_c p);
  match o with node _ _ n ks _ => mret (n, ks) | leaf _ _ _ => fail BadCast end.
Definition as_leaf (p : Z) : prog state (Z * list KV) :=
  o ← load (node_c p);
  match o with leaf _ n kv => mret (n, kv) | node _ _ _ _ _ => fail BadCast end.

(** A new node is private until it is linked in: its arrays are computed, then
    it is allocated with them. *)
Definition new_node (st : Status) (size : Z) (ks ch : list Z) : prog state Z :=
  ch' ← lift (fill node_block_size 0 ch);
  ks' ← lift (fill (node_block_size - 1) 0 ks);
  new_obj alloc (node st false size ks' ch').
Definition new_root (l : Z) : prog state Z := new_node OK 1 [] [l].
Definition new_pair (nec : Z * Z * Z) : prog state Z :=
  let '(l, k, r) := nec in new_node OK 2 [k] [l; r].
Definition new_leaf (size : Z) (kv : list KV) : prog state Z :=
  kv' ← lift (fill leaf_block_size (0, 0) kv);
  new_obj alloc (leaf (leaf_status size) size kv').

(** ** Internal nodes *)
Definition copy_node_with (size : Z) (get_key get_child : Z → prog state Z) : prog state Z :=
  ch ← collect get_child (Z.to_nat size) 0;
  ks ← collect get_key (Z.to_nat (size - 1)) 0;
  new_node (node_status size) size ks ch.
Definition copy_node (p : Z) : prog state Z :=
  '(size, keys) ← as_node p;
  copy_node_with size (λ i, lift (get keys i)) (λ i, load (child_c p i)).

Definition split_mid (size : Z) (get_key get_child : Z → prog state Z) : prog state (Z * Z * Z) :=
  let lsize := size / 2 in
  new_l ← copy_node_with lsize get_key get_child;
  new_r ← copy_node_with (size - lsize) (λ i, get_key (i + lsize)) (λ i, get_child (i + lsize));
  mid ← get_key (lsize - 1);
  mret (new_l, mid, new_r).

Definition split (p : Z) : prog state (Z * Z * Z) :=
  '(size, keys) ← as_node p;
  if negb (size =? node_block_size) then fail AssertFailed
  else split_mid size (λ i, lift (get keys i)) (λ i, load (child_c p i)).

(** keys and children of two nodes side by side, with [k] between them *)
Definition both_keys (s1 : Z) (ks1 : list Z) (k : Z) (ks2 : list Z) (i : Z) : prog state Z :=
  if i <? s1 - 1 then lift (get ks1 i) else if i =? s1 - 1 then mret k else lift (get ks2 (i - s1)).
Definition both_children (c1 s1 c2 i : Z) : prog state Z :=
  if i <? s1 then load (child_c c1 i) else load (child_c c2 (i - s1)).
Definition rebalance (c1 k c2 : Z) : prog state (Z * Z * Z) :=
  '(s1, ks1) ← as_node c1; '(s2, ks2) ← as_node c2;
  split_mid (s1 + s2) (both_keys s1 ks1 k ks2) (both_children c1 s1 c2).
Definition join (c1 k c2 : Z) : prog state Z :=
  '(s1, ks1) ← as_node c1; '(s2, ks2) ← as_node c2;
  copy_node_with (s1 + s2) (both_keys s1 ks1 k ks2) (both_children c1 s1 c2).

(** copies of [p] with the child at [pos] split, with two adjacent children
    joined, with two adjacent children rebalanced *)
Definition add_child (p : Z) (newc : Z * Z * Z) (pos : Z) : prog state Z :=
  '(size, keys) ← as_node p;
  if negb (size <? node_block_size) then fail AssertFailed
  else
    let '(c1, k, c2) := newc in
    copy_node_with (size + 1)
      (λ i, if i <? pos then lift (get keys i) else if i =? pos then mret k else lift (get keys (i - 1)))
      (λ i, if i <? pos then load (child_c p i) else if i =? pos then mret c1
            else if i =? pos + 1 then mret c2 else load (child_c p (i - 1))).
Definition join_children (p c pos : Z) : prog state Z :=
  '(size, keys) ← as_node p;
  copy_node_with (size - 1)
    (λ i, if i <? pos then lift (get keys i) else lift (get keys (i + 1)))
    (λ i, if i <? pos then load (child_c p i) else if i =? pos then mret c else load (child_c p (i + 1))).
Definition rebalance_children (p : Z) (newc : Z * Z * Z) (pos : Z) : prog state Z :=
  '(size, keys) ← as_node p;
  let '(c1, k, c2) := newc in
  copy_node_with size
    (λ i, if i =? pos then mret k else lift (get keys i))
    (λ i, if i =? pos then mret c1 else if i =? pos + 1 then mret c2 else load (child_c p i)).

(** ** Leaves *)
Definition copy_leaf (l : Z) : prog state Z :=
  '(size, kv) ← as_leaf l;
  out ← collect (λ i, lift (get kv i)) (Z.to_nat size) 0;
  new_leaf size out.
Definition split_mid_leaf (size : Z) (get_kv : Z → prog state KV) : prog state (Z * Z * Z) :=
  let lsize := size / 2 in
  kvl ← collect get_kv (Z.to_nat lsize) 0;
  new_l ← new_leaf lsize kvl;
  let rsize := size - lsize in
  kvr ← collect (λ i, get_kv (i + lsize)) (Z.to_nat rsize) 0;
  new_r ← new_leaf rsize kvr;
  mid ← get_kv lsize;
  mret (new_l, mid.1, new_r).
Definition split_leaf (p : Z) : prog state (Z * Z * Z) :=
  '(size, kv) ← as_leaf p;
  if negb (size =? leaf_block_size) then fail AssertFailed
  else split_mid_leaf size (λ i, lift (get kv i)).
Definition both_entries (s1 : Z) (kv1 kv2 : list KV) (i : Z) : prog state KV :=
  if i <? s1 then lift (get kv1 i) else lift (get kv2 (i - s1)).
Definition rebalance_leaf (l r : Z) : prog state (Z * Z * Z) :=
  '(s1, kv1) ← as_leaf l; '(s2, kv2) ← as_leaf r;
  split_mid_leaf (s1 + s2) (both_entries s1 kv1 kv2).
Definition join_leaf (l r : Z) : prog state Z :=
  '(s1, kv1) ← as_leaf l; '(s2, kv2) ← as_leaf r;
  out ← collect (both_entries s1 kv1 kv2) (Z.to_nat (s1 + s2)) 0;
  new_leaf (s1 + s2) out.

(** ** Fixing nodes on the way down *)
(** under the lock of [gp]: is [p] still its child? *)
Definition still_child (gp pidx p : Z) : prog state bool :=
  rm ← load (removed_c gp);
  if (rm : bool) then mret false
  else x ← load (child_c gp pidx); mret (x =? p).

Definition overfull_node (gp pidx p cidx c : Z) : prog state bool :=
  try_lock tid gp
    (b ← still_child gp pidx p;
     if negb b then mret false
     else try_lock tid p
       (x ← load (child_c p cidx);
        if negb (x =? c) then mret false
        else
          o ← load (node_c c);
          if is_leaf o then
            new ← split_leaf c; n ← add_child p new cidx;
            store (child_c gp pidx) n ;;
            store (removed_c p) true ;;
            retire c ;; retire p ;;
            mret true
          else try_lock tid c
            (new ← split c; n ← add_child p new cidx;
             store (child_c gp pidx) n ;;
             store (removed_c c) true ;;
             store (removed_c p) true ;;
             retire c ;; retire p ;;
             mret true))).

Definition underfull_node (gp pidx p cidx c : Z) : prog state bool :=
  try_lock tid gp
    (b ← still_child gp pidx p;
     if negb b then mret false
     else try_lock tid p
       (other_c ← load (child_c p (if cidx =? 0 then cidx + 1 else cidx - 1));
        let '(li, lc, rc) := if cidx =? 0 then (0, c, other_c) else (cidx - 1, other_c, c) in
        o ← load (node_c c);
        ol ← load (node_c lc); or ← load (node_c rc);
        if is_leaf o then
          n ← (if size_of ol + size_of or <? leaf_join_cutoff then
                 j ← join_leaf lc rc; join_children p j li
               else
                 new ← rebalance_leaf lc rc; rebalance_children p new li);
          store (child_c gp pidx) n ;;
          store (removed_c p) true ;;
          retire p ;; retire lc ;; retire rc ;;
          mret true
        else
          '(_, keys) ← as_node p;
          k ← lift (get keys li);
          try_lock tid lc (try_lock tid rc
            (n ← (if size_of ol + size_of or <? node_join_cutoff then
                    j ← join lc k rc; join_children p j li
                  else
                    new ← rebalance lc k rc; rebalance_children p new li);
             store (child_c gp pidx) n ;;
             store (removed_c p) true ;;
             store (removed_c rc) true ;;
             store (removed_c lc) true ;;
             retire p ;; retire lc ;; retire rc ;;
             mret true)))).

Definition fix_node (gp pidx p cidx c : Z) : prog state bool :=
  o ← load (node_c c);
  if decide (status_of o = isOver) then overfull_node gp pidx p cidx c
  else underfull_node gp pidx p cidx c.

(** used when objects are recorded once *)
Definition copy_node_or_leaf (p : Z) : prog state Z :=
  o ← load (node_c p);
  if is_leaf o then r ← copy_leaf p; retire p ;; mret r
  else r ← copy_node p; store (removed_c p) true ;; retire p ;; mret r.

Definition fix_root (root c : Z) : prog state bool :=
  try_lock tid root
    (x ← load (child_c root 0);
     if negb (x =? c) then mret false
     else
       o ← load (node_c c);
       if decide (status_of o = isOver) then
         new ← (if is_leaf o then split_leaf c else split c);
         n ← new_pair new;
         store (child_c root 0) n ;;
         retire c ;;
         mret true
       else
         x ← load (child_c c 0);
         store (child_c root 0) x ;;
         retire c ;;
         mret true).
Definition fix_root_copy (root c : Z) : prog state bool :=
  try_lock tid root
    (x ← load (child_c root 0);
     if negb (x =? c) then mret false
     else
       o ← load (node_c c);
       if decide (status_of o = isOver) then
         new ← (if is_leaf o then split_leaf c else split c);
         n ← new_pair new;
         store (child_c root 0) n ;;
         retire c ;;
         mret true
       else try_lock tid c
         (x ← load (child_c c 0);
          r ← copy_node_or_leaf x;
          store (child_c root 0) r ;;
          retire c ;;
          mret true)).

(** One way down: parent, index and leaf, or, when it met a node that it fixed,
    whether that was below the root's child. *)
Definition step_down (k : Z) : Z * Z * Z → prog state ((Z * Z * Z) + ((Z * Z * Z) + bool)) := λ '(gp, pidx, p),
  op ← load (node_c p);
  if is_leaf op then mret (inr (inl (gp, pidx, p)))
  else
    '(size, keys) ← as_node p;
    cidx ← lift (node_find size keys k 0);
    c ← load (child_c p cidx);
    oc ← load (node_c c);
    if bool_decide (status_of oc = OK) then mret (inl (p, cidx, c))
    else fix_node gp pidx p cidx c ;; mret (inr (inr true)).
Definition down (fuel : nat) (root k : Z) : prog state ((Z * Z * Z) + bool) :=
  c ← load (child_c root 0);
  oc ← load (node_c c);
  if bool_decide (status_of oc = isOver) || (negb (is_leaf oc) && (size_of oc =? 1)) then
    fix_root root c ;; mret (inr false)
  else iter fuel (step_down k) (root, 0, c).
Definition down_again (fuel : nat) (root k cnt : Z) : prog state (Z + Z * Z * Z) :=
  r ← down fuel root k;
  match r with
  | inl place => mret (inr place)
  | inr false => mret (inl cnt)
  | inr true => if cnt =? 100000000 then fail Abort else mret (inl (cnt + 1))
  end.
Definition find_and_fix (fuel : nat) (root k : Z) : prog state (Z * Z * Z) :=
  iter fuel (down_again fuel root k) 0.

Definition step_find (k : Z) : Z * Z * Z → prog state ((Z * Z * Z) + (Z * Z * Z)) := λ '(p, cidx, c),
  oc ← load (node_c c);
  if is_leaf oc then mret (inr (p, cidx, c))
  else
    '(size, keys) ← as_node c;
    cidx ← lift (node_find size keys k 0);
    c' ← load (child_c c cidx);
    mret (inl (c, cidx, c')).
Definition find_no_fix (fuel : nat) (root k : Z) : prog state (Z * Z * Z) :=
  c ← load (child_c root 0);
  iter fuel (step_find k) (root, 0, c).

(** ** The operations *)
(** the test under read_lock: [l] is still the child of [p] *)
Definition still_leaf (p cidx l : Z) : prog state bool :=
  read_lock
    (x ← load (child_c p cidx);
     if negb (x =? l) then mret false else rm ← load (removed_c p); mret (negb rm)).

Definition try_insert (fuel : nat) (root k v : Z) (upsert : bool) : prog state (option bool) :=
  '(p, cidx, l) ← find_and_fix fuel root k;
  '(size, kv) ← as_leaf l;
  r ← (if upsert then mret None else lift (leaf_find size kv k));
  if negb upsert && bool_decide (is_Some (r : option Z)) then
    b ← still_leaf p cidx l;
    mret (if (b : bool) then Some false else None)
  else
    b ← try_lock tid p
      (rm ← load (removed_c p);
       x ← (if (rm : bool) then mret 0 else load (child_c p cidx));
       if rm || negb (x =? l) then mret false
       else
         r ← (if upsert then lift (leaf_find size kv k) else mret None);
         let upsert_leaf := upsert && bool_decide (is_Some (r : option Z)) in
         new ← lift (insert_leaf size kv k v upsert_leaf);
         n ← new_leaf new.1 new.2;
         store (child_c p cidx) n ;;
         retire l ;;
         mret true);
    mret (if (b : bool) then Some true else None).
Definition insert_ (fuel : nat) (root k v : Z) : prog state bool :=
  flock.try_loop fuel (try_insert fuel root k v false).
Definition insert (fuel : nat) (root k v : Z) : prog state bool := with_epoch bool (insert_ fuel root k v).
Definition upsert_ (fuel : nat) (root k v : Z) : prog state bool :=
  flock.try_loop fuel (try_insert fuel root k v true).
Definition upsert (fuel : nat) (root k v : Z) : prog state bool := with_epoch bool (upsert_ fuel root k v).

Definition try_remove (fuel : nat) (root k : Z) : prog state (option bool) :=
  '(p, cidx, l) ← find_and_fix fuel root k;
  '(size, kv) ← as_leaf l;
  r ← lift (leaf_find size kv k);
  if negb (bool_decide (is_Some (r : option Z))) then
    b ← still_leaf p cidx l;
    mret (if (b : bool) then Some false else None)
  else
    b ← try_lock tid p
      (rm ← load (removed_c p);
       x ← (if (rm : bool) then mret 0 else load (child_c p cidx));
       if rm || negb (x =? l) then mret false
       else
         new ← lift (remove_leaf size kv k);
         n ← new_leaf new.1 new.2;
         store (child_c p cidx) n ;;
         retire l ;;
         mret true);
    mret (if (b : bool) then Some true else None).
Definition remove_ (fuel : nat) (root k : Z) : prog state bool :=
  flock.try_loop fuel (try_remove fuel root k).
Definition remove (fuel : nat) (root k : Z) : prog state bool := with_epoch bool (remove_ fuel root k).

Definition find_ (fuel : nat) (root k : Z) : prog state (option Z) :=
  '(p, cidx, l) ← find_no_fix fuel root k;
  '(size, kv) ← as_leaf l;
  lift (leaf_find size kv k).
Definition find (fuel : nat) (root k : Z) : prog state (option Z) := with_epoch (option Z) (find_ fuel root k).
Definition try_find (fuel : nat) (root k : Z) : prog state (option (option Z)) :=
  '(p, cidx, l) ← find_no_fix fuel root k;
  b ← still_leaf p cidx l;
  if (b : bool) then '(size, kv) ← as_leaf l; r ← lift (leaf_find size kv k); mret (Some r)
  else mret None.
Definition find_locked (fuel : nat) (root k : Z) : prog state (option Z) :=
  flock.try_loop fuel (try_find fuel root k).

(** the entries given to [add], in order *)
Fixpoint range_internal (fuel : nat) (a first last : Z) : prog state (list KV) :=
  match fuel with
  | O => fail OutOfFuel
  | S f =>
      o ← load (node_c a);
      match o with
      | leaf _ size kv =>
          s ← lift (prev size kv first 0);
          e ← lift (prev size kv last s);
          collect (λ i, lift (get kv i)) (Z.to_nat (e - s)) s
      | node _ _ size keys _ =>
          s ← lift (node_find size keys first 0);
          e ← lift (node_find size keys last s);
          if s =? e then c ← load (child_c a s); range_internal f c first last
          else
            parts ← collect (λ i, c ← load (child_c a i); range_internal f c first last)
                      (Z.to_nat (e + 1 - s)) s;
            mret (concat parts)
      end
  end.
Definition range_ (fuel : nat) (root first last : Z) : prog state (list KV) :=
  range_internal fuel root first last.

Definition ordered_map : prog state Z := l ← new_leaf 0 []; new_root l.

Fixpoint retire_recursive (fuel : nat) (p : Z) : prog state unit :=
  match fuel with
  | O => fail OutOfFuel
  | S f =>
      if p =? 0 then mret tt
      else
        o ← load (node_c p);
        when (negb (is_leaf o))
          (collect (λ i, c ← load (child_c p i); retire_recursive f c) (Z.to_nat (size_of o)) 0 ;; mret tt) ;;
        retire p
  end.
Definition destructor (fuel : nat) (root : Z) : prog state unit := retire_recursive fuel root.

Fixpoint hrec (fuel : nat) (p depth : Z) : prog state Z :=
  match fuel with
  | O => fail OutOfFuel
  | S f =>
      o ← load (node_c p);
      if is_leaf o then mret (wrap64 (depth * size_of o))
      else
        ds ← collect (λ i, c ← load (child_c p i); hrec f c (depth + 1)) (Z.to_nat (size_of o)) 0;
        mret (wrap64 (foldr Z.add 0 ds))
  end.
Definition total_height (fuel : nat) (root : Z) : prog state Z := hrec fuel root 0.

(** are the children with least keys, greatest keys and sizes [r] apart at
    [keys]? *)
Fixpoint keys_ordered (keys : list Z) (r : list (Z * Z * Z)) (n : nat) : bool :=
  match n, r, keys with
  | S n', (_, maxv, _) :: (((minv, _, _) :: _) as r'), k :: keys' =>
      negb (negb (maxv <? k) || (minv <? k)) && keys_ordered keys' r' n'
  | _, _, _ => true
  end.
Fixpoint check_recursive (fuel : nat) (p : Z) (is_root : bool) : prog state (Z * Z * Z) :=
  match fuel with
  | O => fail OutOfFuel
  | S f =>
      o ← load (node_c p);
      match o with
      | leaf _ size kv =>
          e ← lift (get kv 0);
          '(minv, maxv) ← lift (min_max kv (Z.to_nat (size - 1)) 1 e.1 e.1);
          mret (minv, maxv, size)
      | node _ _ size keys _ =>
          if negb is_root && (size <? node_min_size) then fail Abort
          else
            r ← collect (λ i, c ← load (child_c p i); check_recursive f c false) (Z.to_nat size) 0;
            if negb (keys_ordered keys r (Z.to_nat (size - 1))) then fail Abort
            else
              r0 ← lift (get r 0);
              rn ← lift (get r (Z.of_nat (length r) - 1));
              mret (r0.1.1, rn.1.2, foldr (λ x n, x.2 + n) 0 r)
      end
  end.
Definition check (fuel : nat) (root : Z) : prog state Z :=
  c ← load (child_c root 0);
  r ← check_recursive fuel c true;
  mret r.2.
End btree.
End BTree.
