(* ===== verification/BTreeNodes.v ===== *)
(** * BTreeNodes: the searches and the copies of [BTree], one node at a time. *)

From stdpp Require Import prelude list gmap.
From Stdlib Require Import ZArith Lia Sorted.
From S2P Require Import Prelude Conc SpinLock Store MapSpec Arrays BTree.
Import BTree.
Local Open Scope Z_scope.
#[local] Abbreviation KV := (Z * Z)%type.

(** ** Searches *)
Definition upto (k : Z) (ks : list Z) : Prop := Forall (λ x, x ≤ k) ks.
Definition past (k : Z) (ks : list Z) : Prop := Forall (λ x, k < x) ks.

Lemma keys_split k ks : StronglySorted Z.le ks → ∃ k1 k2, ks = k1 ++ k2 ∧ upto k k1 ∧ past k k2.
Proof.
  induction 1 as [|x ks Hs (k1 & k2 & -> & H1 & H2) Hx].
  - exists [], []. split; [done|]. split; constructor.
  - destruct (decide (x ≤ k)) as [Hle|Hgt].
    + exists (x :: k1), k2. split; [done|]. split; [by constructor|done].
    + exists [], (x :: k1 ++ k2). split; [done|]. split; [constructor|]. constructor; [lia|].
      eapply Forall_impl; [exact Hx|]. simpl. lia.
Qed.

(** the common part of both loops of [node::find] *)
Lemma skip_keys_upto bound k k1b : ∀ k1a rest n i, i = Z.of_nat (length k1a) → upto k k1b →
  match bound with Some b => i + Z.of_nat (length k1b) ≤ b | None => True end → (length k1b ≤ n)%nat →
  skip_keys bound (k1a ++ k1b ++ rest) k n i =
    skip_keys bound (k1a ++ k1b ++ rest) k (n - length k1b) (i + Z.of_nat (length k1b)).
Proof.
  induction k1b as [|x k1b IH]; intros k1a rest n i Hi Hle Hb Hn.
  - simpl. by rewrite Nat.sub_0_r, Z.add_0_r.
  - destruct n as [|n]; simpl in Hn; [lia|]. apply Forall_cons in Hle as [Hx Hle]. cbn [skip_keys length Nat.sub].
    assert (match bound with Some b => negb (i <? b) | None => false end = false) as ->.
    { destruct bound; [|done]. simpl in Hb. by rewrite (proj2 (Z.ltb_lt i z)) by lia. }
    cbn [app]. rewrite get_app by done. unfold mbind, err_bind. rewrite (proj2 (Z.ltb_ge k x)) by lia.
    replace (k1a ++ x :: k1b ++ rest) with ((k1a ++ [x]) ++ k1b ++ rest) by (by rewrite <-app_assoc).
    rewrite IH; [|rewrite length_app; simpl; lia|done| |lia].
    + f_equal. lia.
    + destruct bound; [simpl in Hb; lia|done].
Qed.

Lemma skip_keys_spec bound k k1 k2 pad n i : upto k k1 → past k k2 → 0 ≤ i ≤ Z.of_nat (length k1) →
  (length k1 < n)%nat →
  match bound with Some b => b = Z.of_nat (length (k1 ++ k2)) | None => k2 ≠ [] end →
  skip_keys bound ((k1 ++ k2) ++ pad) k n i = inr (Z.of_nat (length k1)).
Proof.
  intros H1 H2 Hi Hn Hb. rewrite <-(take_drop (Z.to_nat i) k1), <-!app_assoc at 1.
  assert (length (take (Z.to_nat i) k1) = Z.to_nat i) as Hlt by (rewrite length_take; lia).
  assert (length (drop (Z.to_nat i) k1) = (length k1 - Z.to_nat i)%nat) as Hld by (by rewrite length_drop).
  rewrite skip_keys_upto; [|lia|by apply Forall_drop| |lia].
  2: { destruct bound; [|done]. rewrite length_app in Hb. lia. }
  rewrite Hld. replace (i + _) with (Z.of_nat (length k1)) by lia.
  rewrite !app_assoc, take_drop, <-app_assoc.
  destruct (n - (length k1 - Z.to_nat i))%nat as [|n'] eqn:E; [lia|]. cbn [skip_keys].
  destruct k2 as [|x k2].
  - destruct bound; [|done]. rewrite app_nil_r in Hb. subst. by rewrite Z.ltb_irrefl.
  - assert (match bound with Some b => negb (Z.of_nat (length k1) <? b) | None => false end = false) as ->.
    { destruct bound as [b|]; [|done]. rewrite length_app in Hb. simpl in Hb.
      by rewrite (proj2 (Z.ltb_lt _ b)) by lia. }
    cbn [app]. rewrite get_app by done. unfold mbind, err_bind. apply Forall_cons in H2 as [Hx _].
    by rewrite (proj2 (Z.ltb_lt k x)) by lia.
Qed.

(** [node::find] from [i] on gives the child whose keys surround [k] *)
Lemma btree_node_find_spec k k1 k2 pad i : upto k k1 → past k k2 → 0 ≤ i ≤ Z.of_nat (length k1) →
  node_find (Z.of_nat (S (length (k1 ++ k2)))) ((k1 ++ k2) ++ pad) k i = inr (Z.of_nat (length k1)).
Proof.
  intros H1 H2 Hi. unfold node_find. set (n := length (k1 ++ k2)).
  assert (n = length k1 + length k2)%nat as Hn by (unfold n; by rewrite length_app).
  destruct (Z.eqb_spec (Z.of_nat (S n)) 1) as [Hone|Hmany].
  - f_equal. lia.
  - replace (Z.of_nat (S n) - 1) with (Z.of_nat n) by lia.
    assert (0 ≤ Z.of_nat n / 2 < Z.of_nat n) as Hmid by (split; [apply Z.div_pos; lia|apply Z.div_lt; lia]).
    destruct (get_lookup (k1 ++ k2) pad (Z.of_nat n / 2)) as (x & Hx & Hg); [fold n; lia|].
    rewrite Hg. unfold mbind, err_bind.
    assert (length k1 < S (length ((k1 ++ k2) ++ pad)))%nat by (rewrite !length_app; lia).
    destruct (Z.ltb_spec k x) as [Hlt|Hge].
    + apply skip_keys_spec; [done..|]. intros ->. rewrite app_nil_r in Hx.
      unfold upto in H1. rewrite Forall_forall in H1. apply list_elem_of_lookup_2, H1 in Hx. lia.
    + apply skip_keys_spec; try done. split; [lia|]. apply Z.max_lub; [lia|].
      destruct (decide (Z.to_nat (Z.of_nat n / 2) < length k1)%nat); [lia|].
      rewrite lookup_app_r in Hx by lia. unfold past in H2. rewrite Forall_forall in H2.
      apply list_elem_of_lookup_2, H2 in Hx. lia.
Qed.

Lemma prev_from_spec k e1b : ∀ e1a e2 pad n i size, i = Z.of_nat (length e1a) →
  size = Z.of_nat (length (e1a ++ e1b ++ e2)) → below k e1b → Forall (λ e, k ≤ e.1) e2 → (length e1b < n)%nat →
  prev_from (e1a ++ (e1b ++ e2) ++ pad) size k n i = inr (i + Z.of_nat (length e1b)).
Proof.
  induction e1b as [|e e1b IH]; intros e1a e2 pad n i size Hi Hsz Hb Ha Hn; (destruct n as [|n]; [simpl in Hn; lia|]);
    cbn [prev_from]; rewrite !length_app in Hsz; simpl in Hsz.
  - simpl. rewrite Z.add_0_r. destruct e2 as [|e e2]; simpl in Hsz.
    + by rewrite (proj2 (Z.ltb_ge i size)) by lia.
    + rewrite (proj2 (Z.ltb_lt i size)) by lia. cbn [app]. rewrite get_app by done. unfold mbind, err_bind.
      apply Forall_cons in Ha as [Ha _]. by rewrite (proj2 (Z.ltb_ge e.1 k)) by lia.
  - simpl in Hn. rewrite (proj2 (Z.ltb_lt i size)) by lia. cbn [app]. rewrite get_app by done. unfold mbind, err_bind.
    apply Forall_cons in Hb as [He Hb]. rewrite (proj2 (Z.ltb_lt e.1 k)) by lia.
    replace (e1a ++ e :: (e1b ++ e2) ++ pad) with ((e1a ++ [e]) ++ (e1b ++ e2) ++ pad) by (by rewrite <-app_assoc).
    rewrite (IH (e1a ++ [e]) e2 pad n (i + 1) size); [simpl; f_equal; lia|rewrite length_app; simpl; lia| |done|done|lia].
    rewrite !length_app. simpl. lia.
Qed.

Lemma prev_spec k e1 e2 pad : below k e1 → Forall (λ e, k ≤ e.1) e2 →
  prev (Z.of_nat (length (e1 ++ e2))) ((e1 ++ e2) ++ pad) k 0 = inr (Z.of_nat (length e1)).
Proof.
  intros H1 H2. unfold prev.
  apply (prev_from_spec k e1 [] e2 pad _ 0); [done|done|done|done|]. rewrite !length_app. lia.
Qed.

Lemma leaf_find_spec k es pad : sorted es →
  leaf_find (Z.of_nat (length es)) (es ++ pad) k = inr (to_map es !! k).
Proof.
  intros Hs. pose proof (sorted_place k es Hs) as Hp. unfold leaf_find.
  destruct (to_map es !! k) as [v|].
  - destruct Hp as (e1 & e2 & -> & Hb & Ha). rewrite prev_spec; [|done|].
    2: { constructor; [simpl; lia|]. eapply Forall_impl; [exact Ha|]. simpl. lia. }
    unfold mbind, err_bind. rewrite length_app. simpl.
    rewrite (proj2 (Z.eqb_neq _ _)) by lia. rewrite <-app_assoc. cbn [app]. rewrite get_app by done.
    simpl. by rewrite Z.ltb_irrefl.
  - destruct Hp as (e1 & e2 & -> & Hb & Ha). rewrite prev_spec; [|done|].
    2: { eapply Forall_impl; [exact Ha|]. simpl. lia. }
    unfold mbind, err_bind. destruct e2 as [|e e2].
    + by rewrite app_nil_r, Z.eqb_refl.
    + rewrite length_app. simpl. rewrite (proj2 (Z.eqb_neq _ _)) by lia. rewrite <-app_assoc. cbn [app].
      rewrite get_app by done. apply Forall_cons in Ha as [Ha _]. by rewrite (proj2 (Z.ltb_lt k e.1)) by lia.
Qed.

(** ** The new leaves of an update *)
Section leaves.
Context (hd kvsz : Z).
#[local] Abbreviation cap := (leaf_block_size hd kvsz).

Lemma cap_large : 5 ≤ cap.
Proof. unfold leaf_block_size. lia. Qed.
Lemma blank_drop {A} (x : A) n m : length (drop m (replicate n x)) = (n - m)%nat.
Proof. by rewrite length_drop, length_replicate. Qed.

(** the new entry and the entries copied around it, in an array of [cap] *)
Lemma insert_leaf_spec k v e1 e2 pad : below k e1 → above k e2 → Z.of_nat (length (e1 ++ e2)) < cap →
  ∃ pad', insert_leaf hd kvsz (Z.of_nat (length (e1 ++ e2))) ((e1 ++ e2) ++ pad) k v false =
      inr (Z.of_nat (length (e1 ++ (k, v) :: e2)), (e1 ++ (k, v) :: e2) ++ pad') ∧
    Z.of_nat (length ((e1 ++ (k, v) :: e2) ++ pad')) = cap.
Proof.
  intros Hb Ha Hlt. pose proof cap_large as Hcap. unfold insert_leaf. rewrite (proj2 (Z.ltb_lt _ _)) by done. cbn [negb].
  rewrite length_app in Hlt.
  pose proof (copy_less_spec k (Z.of_nat (length (e1 ++ e2))) e1 [] (replicate (Z.to_nat cap) (0, 0)) [] e2 pad
    (S (length ((e1 ++ e2) ++ pad))) 0) as Hc. simpl app in Hc.
  rewrite Hc; clear Hc; try done; rewrite ?length_replicate, ?length_app; try lia.
  2: { eapply Forall_impl; [exact Ha|]. simpl. lia. }
  unfold mbind, err_bind. rewrite Z.add_0_l.
  pose proof (blank_drop (0, 0) (Z.to_nat cap) (length e1)) as Hd.
  destruct (drop (length e1) (replicate (Z.to_nat cap) (0, 0))) as [|x rest] eqn:E; [simpl in Hd; lia|].
  rewrite put_app by done. simpl in Hd.
  assert (length rest = Z.to_nat cap - length e1 - 1)%nat as Hr by lia.
  destruct e2 as [|e e2]; simpl in Hlt |- *.
  - rewrite Nat.add_0_r, Z.ltb_irrefl. exists rest. split; [|rewrite !length_app; simpl; lia].
    rewrite <-app_assoc. do 3 f_equal. lia.
  - rewrite (proj2 (Z.ltb_lt (Z.of_nat (length e1)) _)) by lia.
    replace (Z.to_nat _) with (length (e :: e2)) by (simpl; lia).
    replace (e1 ++ (k, v) :: rest) with ((e1 ++ [(k, v)]) ++ rest) by (by rewrite <-app_assoc).
    rewrite (copy_spec (e :: e2) (e1 ++ [(k, v)]) rest _ e1 pad).
    + exists (drop (length (e :: e2)) rest). split; [|rewrite !length_app, length_drop; simpl; lia].
      rewrite <-!app_assoc. simpl. do 3 f_equal. lia.
    + rewrite length_app. simpl. lia.
    + lia.
    + by rewrite <-app_assoc.
    + simpl. lia.
Qed.

Lemma upsert_leaf_spec k v w e1 e2 pad : below k e1 → above k e2 → Z.of_nat (length (e1 ++ (k, w) :: e2)) < cap →
  ∃ pad', insert_leaf hd kvsz (Z.of_nat (length (e1 ++ (k, w) :: e2))) ((e1 ++ (k, w) :: e2) ++ pad) k v true =
      inr (Z.of_nat (length (e1 ++ (k, v) :: e2)), (e1 ++ (k, v) :: e2) ++ pad') ∧
    Z.of_nat (length ((e1 ++ (k, v) :: e2) ++ pad')) = cap.
Proof.
  intros Hb Ha Hlt. pose proof cap_large as Hcap. unfold insert_leaf. rewrite (proj2 (Z.ltb_lt _ _)) by done. cbn [negb].
  rewrite length_app in Hlt. simpl in Hlt.
  pose proof (copy_less_spec k (Z.of_nat (length (e1 ++ (k, w) :: e2))) e1 [] (replicate (Z.to_nat cap) (0, 0)) []
    ((k, w) :: e2) pad (S (length ((e1 ++ (k, w) :: e2) ++ pad))) 0) as Hc. simpl app in Hc.
  rewrite Hc; clear Hc; try done; rewrite ?length_replicate, ?length_app; simpl; try lia.
  2: { constructor; [simpl; lia|]. eapply Forall_impl; [exact Ha|]. simpl. lia. }
  unfold mbind, err_bind. rewrite Z.add_0_l.
  pose proof (blank_drop (0, 0) (Z.to_nat cap) (length e1)) as Hd.
  destruct (drop (length e1) (replicate (Z.to_nat cap) (0, 0))) as [|x rest] eqn:E; [simpl in Hd; lia|].
  rewrite put_app by done. simpl in Hd.
  rewrite (proj2 (Z.ltb_lt (Z.of_nat (length e1)) _)) by lia.
  replace (Z.to_nat _) with (length e2) by lia.
  replace (e1 ++ (k, v) :: rest) with ((e1 ++ [(k, v)]) ++ rest) by (by rewrite <-app_assoc).
  rewrite (copy_spec e2 (e1 ++ [(k, v)]) rest _ (e1 ++ [(k, w)]) pad).
  - exists (drop (length e2) rest). split; [|rewrite !length_app, length_drop; simpl; lia].
    rewrite <-!app_assoc. simpl. done.
  - rewrite length_app. simpl. lia.
  - rewrite length_app. simpl. lia.
  - by rewrite <-!app_assoc.
  - lia.
Qed.

Lemma remove_leaf_spec k v e1 e2 pad : below k e1 → above k e2 → Z.of_nat (length (e1 ++ (k, v) :: e2)) ≤ cap →
  ∃ pad', remove_leaf hd kvsz (Z.of_nat (length (e1 ++ (k, v) :: e2))) ((e1 ++ (k, v) :: e2) ++ pad) k =
      inr (Z.of_nat (length (e1 ++ e2)), (e1 ++ e2) ++ pad') ∧
    Z.of_nat (length ((e1 ++ e2) ++ pad')) = cap.
Proof.
  intros Hb Ha Hle. pose proof cap_large as Hcap. unfold remove_leaf. rewrite length_app in Hle. simpl in Hle.
  rewrite (proj2 (Z.ltb_lt _ _)) by (rewrite length_app; simpl; lia). cbn [negb].
  pose proof (copy_less_spec k (Z.of_nat (length (e1 ++ (k, v) :: e2))) e1 [] (replicate (Z.to_nat cap) (0, 0)) []
    ((k, v) :: e2) pad (S (length ((e1 ++ (k, v) :: e2) ++ pad))) 0) as Hc. simpl app in Hc.
  rewrite Hc; clear Hc; try done; rewrite ?length_replicate, ?length_app; simpl; try lia.
  2: { constructor; [simpl; lia|]. eapply Forall_impl; [exact Ha|]. simpl. lia. }
  unfold mbind, err_bind. rewrite Z.add_0_l.
  pose proof (blank_drop (0, 0) (Z.to_nat cap) (length e1)) as Hd.
  replace (Z.to_nat (Z.of_nat (length e1 + S (length e2)) - 1 - Z.of_nat (length e1))) with (length e2) by lia.
  rewrite (copy_spec e2 e1 _ _ (e1 ++ [(k, v)]) pad).
  - eexists. split; [rewrite <-app_assoc; do 2 f_equal; lia|]. rewrite !length_app, length_drop. lia.
  - done.
  - rewrite length_app. simpl. lia.
  - by rewrite <-!app_assoc.
  - lia.
Qed.
End leaves.

(** ** Copying nodes *)
Section copies.
Context (hd lk ksz kvsz : Z) (alloc : gmap Z obj → Z) {fresh : Allocator alloc} (tid : nat).
#[local] Abbreviation state := (store_state obj).
#[local] Abbreviation lcap := (leaf_block_size hd kvsz).
#[local] Abbreviation ncap := (node_block_size hd lk ksz).
#[local] Abbreviation extends := (extends tid).
Implicit Types s : state.
Implicit Types m : gmap Z obj.

Lemma ncap_large : 5 ≤ ncap.
Proof. unfold node_block_size. lia. Qed.

(** a node that is not removed, a leaf, with the used parts of their arrays *)
Definition node_at m (p : Z) (st : Status) (ks cs : list Z) : Prop := ∃ pk pc,
  m !! p = Some (node st false (Z.of_nat (length cs)) (ks ++ pk) (cs ++ pc)) ∧ length cs = S (length ks).
Definition leaf_at m (p : Z) (es : list KV) : Prop := ∃ pad,
  m !! p = Some (leaf (leaf_status hd kvsz (Z.of_nat (length es))) (Z.of_nat (length es)) (es ++ pad)).

Lemma node_at_extends s new s' p st ks cs : extends s new s' → node_at (nodes s) p st ks cs → node_at (nodes s') p st ks cs.
Proof. intros He (pk & pc & Hm & Hl). exists pk, pc. split; [by apply (ex_keep _ _ _ _ He)|done]. Qed.
Lemma leaf_at_extends s new s' p es : extends s new s' → leaf_at (nodes s) p es → leaf_at (nodes s') p es.
Proof. intros He (pad & Hm). exists pad. by apply (ex_keep _ _ _ _ He). Qed.

(** [f] reads the elements of [l], in any state with more objects *)
Definition reads {A} s (f : Z → prog state A) (l : list A) : Prop :=
  ∀ s1 new, extends s new s1 → ∀ i j x, i = Z.of_nat j → l !! j = Some x → run (f i) s1 = Ok x s1.

Lemma reads_extends {A} s new s1 (f : Z → prog state A) l : extends s new s1 → reads s f l → reads s1 f l.
Proof. intros He Hr s2 new2 He2. eapply Hr. by eapply extends_trans. Qed.
Lemma reads_ret s {A} (x : A) : run (mret x : prog state A) s = Ok x s.
Proof. done. Qed.
Lemma reads_get {A} s (l pad : list A) : reads s (λ i, lift (get (l ++ pad) i)) l.
Proof.
  intros s1 new _ i j x -> Hj. unfold get. rewrite (proj2 (Z.ltb_ge _ 0)), Nat2Z.id by lia.
  by rewrite (lookup_app_l_Some _ _ _ _ Hj).
Qed.
Lemma reads_children s p st ks cs : node_at (nodes s) p st ks cs → reads s (λ i, load (child_c p i)) cs.
Proof.
  intros Hn s1 new He i j x -> Hj. destruct (node_at_extends _ _ _ _ _ _ _ He Hn) as (pk & pc & Hm & _).
  apply run_load. simpl. unfold at_node. rewrite Hm. unfold get.
  rewrite (proj2 (Z.ltb_ge _ 0)), Nat2Z.id by lia. by rewrite (lookup_app_l_Some _ _ _ _ Hj).
Qed.

Lemma reads_take {A} s (f : Z → prog state A) l1 l2 : reads s f (l1 ++ l2) → reads s f l1.
Proof. intros Hr s1 new He i j x Hi Hj. eapply Hr; [done..|]. by apply lookup_app_l_Some. Qed.
Lemma reads_shift {A} s (f : Z → prog state A) l1 l2 d : d = Z.of_nat (length l1) →
  reads s f (l1 ++ l2) → reads s (λ i, f (i + d)) l2.
Proof.
  intros -> Hr s1 new He i j x -> Hj. eapply (Hr _ _ He _ (length l1 + j)%nat); [lia|].
  rewrite lookup_app_r by lia. by replace (length l1 + j - length l1)%nat with j by lia.
Qed.

(** the element of a list with [y] put between its halves *)
Lemma lookup_middle_cases {A} (l1 : list A) y l2 j x : (l1 ++ y :: l2) !! j = Some x →
  ((j < length l1)%nat ∧ l1 !! j = Some x) ∨ (j = length l1 ∧ x = y) ∨
  ((length l1 < j)%nat ∧ l2 !! (j - S (length l1))%nat = Some x).
Proof.
  intros [Hj|[Hle Hj]]%lookup_app_Some; [left; split; [by eapply lookup_lt_Some|done]|right].
  destruct (j - length l1)%nat as [|n] eqn:E; simpl in Hj.
  - injection Hj as ->. left. split; [lia|done].
  - right. split; [lia|]. by replace (j - S (length l1))%nat with n by lia.
Qed.
(** reading around a new element *)
Lemma reads_add {A} s (f g : Z → prog state A) l1 y l2 pos : pos = Z.of_nat (length l1) →
  reads s f (l1 ++ l2) →
  (∀ i, g i = if i <? pos then f i else if i =? pos then mret y else f (i - 1)) →
  reads s g (l1 ++ y :: l2).
Proof.
  intros -> Hf Hg s1 new He i j x -> Hj. rewrite Hg.
  apply lookup_middle_cases in Hj as [[Hlt Hj]|[[-> ->]|[Hgt Hj]]].
  - rewrite (proj2 (Z.ltb_lt _ _)) by lia. eapply Hf; [done..|]. by apply lookup_app_l_Some.
  - by rewrite Z.ltb_irrefl, Z.eqb_refl.
  - rewrite (proj2 (Z.ltb_ge _ _)), (proj2 (Z.eqb_neq _ _)) by lia.
    eapply (Hf _ _ He _ (j - 1)%nat); [lia|]. rewrite lookup_app_r by lia.
    by replace (j - 1 - length l1)%nat with (j - S (length l1))%nat by lia.
Qed.
(** reading with an element left out *)
Lemma reads_drop {A} s (f g : Z → prog state A) l1 y l2 pos : pos = Z.of_nat (length l1) →
  reads s f (l1 ++ y :: l2) → (∀ i, g i = if i <? pos then f i else f (i + 1)) → reads s g (l1 ++ l2).
Proof.
  intros -> Hf Hg s1 new He i j x -> Hj. rewrite Hg. apply lookup_app_Some in Hj as [Hj|[Hle Hj]].
  - pose proof (lookup_lt_Some _ _ _ Hj). rewrite (proj2 (Z.ltb_lt _ _)) by lia.
    eapply Hf; [done..|]. by apply lookup_app_l_Some.
  - rewrite (proj2 (Z.ltb_ge _ _)) by lia. eapply (Hf _ _ He _ (S j)); [lia|].
    rewrite lookup_app_r by lia. by replace (S j - length l1)%nat with (S (j - length l1)) by lia.
Qed.
(** reading with an element replaced *)
Lemma reads_set {A} s (f g : Z → prog state A) l1 y z l2 pos : pos = Z.of_nat (length l1) →
  reads s f (l1 ++ y :: l2) → (∀ i, g i = if i =? pos then mret z else f i) → reads s g (l1 ++ z :: l2).
Proof.
  intros -> Hf Hg s1 new He i j x -> Hj. rewrite Hg.
  apply lookup_middle_cases in Hj as [[Hlt Hj]|[[-> ->]|[Hgt Hj]]].
  - rewrite (proj2 (Z.eqb_neq _ _)) by lia. eapply Hf; [done..|]. by apply lookup_app_l_Some.
  - by rewrite Z.eqb_refl.
  - rewrite (proj2 (Z.eqb_neq _ _)) by lia. eapply (Hf _ _ He _ j); [done|].
    rewrite lookup_app_r by lia. by replace (j - length l1)%nat with (S (j - S (length l1))) by lia.
Qed.
(** reading from two places in turn *)
Lemma reads_both {A} s (f1 f2 g : Z → prog state A) l1 l2 pos : pos = Z.of_nat (length l1) →
  reads s f1 l1 → reads s f2 l2 → (∀ i, g i = if i <? pos then f1 i else f2 (i - pos)) → reads s g (l1 ++ l2).
Proof.
  intros -> H1 H2 Hg s1 new He i j x -> Hj. rewrite Hg. apply lookup_app_Some in Hj as [Hj|[Hle Hj]].
  - pose proof (lookup_lt_Some _ _ _ Hj). rewrite (proj2 (Z.ltb_lt _ _)) by lia. by eapply H1.
  - rewrite (proj2 (Z.ltb_ge _ _)) by lia. eapply (H2 _ _ He _ (j - length l1)%nat); [lia|done].
Qed.

Lemma btree_wp_collect {A B} (f : Z → prog state A) l n (K : list A → prog state B) Q s :
  reads s f l → n = length l → wp (K l) Q s → wp (collect f n 0 ≫= K) Q s.
Proof.
  intros Hr -> HK. rewrite wp_bind. eapply wp_of_run; [apply collect_run|exact HK].
  intros j x Hj. by apply (Hr s [] (extends_refl tid s) _ j x).
Qed.
Lemma wp_reads {A B} (f : Z → prog state A) l i j x (K : A → prog state B) Q s :
  reads s f l → i = Z.of_nat j → l !! j = Some x → wp (K x) Q s → wp (f i ≫= K) Q s.
Proof.
  intros Hr Hi Hj HK. rewrite wp_bind. eapply wp_of_run; [by eapply (Hr s [] (extends_refl tid s))|exact HK].
Qed.

Lemma wp_new_node {A} st n ks cs (K : Z → prog state A) Q s : n = Z.of_nat (length cs) →
  length cs = S (length ks) → Z.of_nat (length cs) ≤ ncap →
  (∀ a s', extends s [a] s' → node_at (nodes s') a st ks cs → wp (K a) Q s') →
  wp (new_node hd lk ksz alloc st n ks cs ≫= K) Q s.
Proof.
  intros -> Hl Hle HK. unfold new_node. apply wp_assoc. eapply wp_lift; [by apply fill_spec|].
  apply wp_assoc. eapply wp_lift; [apply fill_spec; lia|]. apply (wp_new alloc). intros a Ha Ha0.
  apply HK; [by apply extends_one|]. eexists _, _. simpl. by rewrite lookup_insert_eq.
Qed.
(** a leaf from its entries, or from an array that is full *)
Lemma wp_new_leaf {A} n es pad (K : Z → prog state A) Q s : n = Z.of_nat (length es) →
  Z.of_nat (length (es ++ pad)) ≤ lcap →
  (∀ a s', extends s [a] s' → leaf_at (nodes s') a es → wp (K a) Q s') →
  wp (new_leaf hd kvsz alloc n (es ++ pad) ≫= K) Q s.
Proof.
  intros -> Hle HK. unfold new_leaf. apply wp_assoc. eapply wp_lift; [by apply fill_spec|]. apply (wp_new alloc). intros a Ha Ha0.
  apply HK; [by apply extends_one|]. eexists. simpl. by rewrite lookup_insert_eq, <-app_assoc.
Qed.

Lemma wp_copy_with {A} n gk gc ks cs (K : Z → prog state A) Q s : n = Z.of_nat (length cs) →
  length cs = S (length ks) → Z.of_nat (length cs) ≤ ncap → reads s gk ks → reads s gc cs →
  (∀ a s', extends s [a] s' → node_at (nodes s') a (node_status hd lk ksz n) ks cs → wp (K a) Q s') →
  wp (copy_node_with hd lk ksz alloc n gk gc ≫= K) Q s.
Proof.
  intros -> Hl Hle Hk Hc HK. unfold copy_node_with. apply wp_assoc. eapply btree_wp_collect; [exact Hc|lia|].
  apply wp_assoc. eapply btree_wp_collect; [exact Hk|lia|]. by apply wp_new_node.
Qed.

(** two nodes from the halves of a list of children *)
Lemma wp_split_mid {A} n gk gc ks cs (K : Z * Z * Z → prog state A) Q s : n = Z.of_nat (length cs) →
  length cs = S (length ks) → (2 ≤ length cs)%nat → Z.of_nat (length cs) - Z.of_nat (length cs) / 2 ≤ ncap →
  reads s gk ks → reads s gc cs →
  (∀ a1 a2 k1 k k2 c1 c2 s', extends s [a1; a2] s' → ks = k1 ++ k :: k2 → cs = c1 ++ c2 →
     Z.of_nat (length c1) = Z.of_nat (length cs) / 2 →
     node_at (nodes s') a1 (node_status hd lk ksz (Z.of_nat (length c1))) k1 c1 →
     node_at (nodes s') a2 (node_status hd lk ksz (Z.of_nat (length c2))) k2 c2 → wp (K (a1, k, a2)) Q s') →
  wp (split_mid hd lk ksz alloc n gk gc ≫= K) Q s.
Proof.
  intros -> Hl H2 Hle Hk Hc HK. set (h := (length cs / 2)%nat).
  assert (Z.of_nat (length cs) / 2 = Z.of_nat h) as Hh by (unfold h; by rewrite Nat2Z.inj_div).
  rewrite Hh in Hle.
  assert (1 ≤ h ∧ 2 * h ≤ length cs ∧ length cs ≤ 2 * h + 1)%nat as (Hh1 & Hh2 & Hh3).
  { unfold h. pose proof (Nat.div_mod_eq (length cs) 2). pose proof (Nat.mod_upper_bound (length cs) 2). lia. }
  destruct (lookup_lt_is_Some_2 ks (h - 1)) as [k Hkk]; [lia|].
  set (k1 := take (h - 1) ks). set (k2 := drop h ks). set (c1 := take h cs). set (c2 := drop h cs).
  assert (ks = k1 ++ k :: k2) as Hks.
  { unfold k1, k2. rewrite <-(take_drop_middle ks (h - 1) k) at 1 by done. by replace (S (h - 1)) with h by lia. }
  assert (cs = c1 ++ c2) as Hcs by (unfold c1, c2; by rewrite take_drop).
  assert (length k1 = h - 1)%nat as Hk1 by (unfold k1; rewrite length_take; lia).
  assert (length k2 = length ks - h)%nat as Hk2 by (unfold k2; by rewrite length_drop).
  assert (length c1 = h) as Hc1 by (unfold c1; rewrite length_take; lia).
  assert (length c2 = length cs - h)%nat as Hc2 by (unfold c2; by rewrite length_drop).
  clearbody k1 k2 c1 c2 h. unfold split_mid. cbv zeta. rewrite Hh. apply wp_assoc.
  assert (reads s (λ i, gk (i + Z.of_nat h)) k2) as Hgk2.
  { apply (reads_shift s gk (k1 ++ [k]) k2); [rewrite length_app; simpl; lia|]. rewrite <-app_assoc. cbn [app]. by rewrite <-Hks. }
  assert (reads s (λ i, gc (i + Z.of_nat h)) c2) as Hgc2 by (apply (reads_shift s gc c1 c2); [lia|by rewrite <-Hcs]).
  eapply (wp_copy_with _ gk gc k1 c1); [lia|lia|lia|apply (reads_take s gk k1 (k :: k2)); by rewrite <-Hks|apply (reads_take s gc c1 c2); by rewrite <-Hcs|].
  intros a1 s1 He1 Hn1.
  apply wp_assoc. eapply (wp_copy_with _ _ _ k2 c2); [lia|lia|lia|by eapply reads_extends|by eapply reads_extends|].
  intros a2 s2 He2 Hn2.
  apply wp_assoc. eapply (wp_reads gk ks _ (h - 1)); [|lia|exact Hkk|].
  { eapply reads_extends; [exact He2|]. by eapply reads_extends. }
  apply (HK a1 a2 k1 k k2 c1 c2); [by apply (extends_trans tid s [a1] s1 [a2])|done|done|lia| |].
  - rewrite Hc1. eapply node_at_extends; [exact He2|exact Hn1].
  - rewrite Hc2. replace (Z.of_nat (length cs - h)) with (Z.of_nat (length cs) - Z.of_nat h) by lia. exact Hn2.
Qed.

(** two leaves from the halves of a list of entries *)
Lemma wp_split_mid_leaf {A} n gkv es (K : Z * Z * Z → prog state A) Q s : n = Z.of_nat (length es) →
  (1 ≤ length es)%nat → Z.of_nat (length es) - Z.of_nat (length es) / 2 ≤ lcap → reads s gkv es →
  (∀ a1 a2 e1 k v e2 s', extends s [a1; a2] s' → es = e1 ++ (k, v) :: e2 →
     Z.of_nat (length e1) = Z.of_nat (length es) / 2 →
     leaf_at (nodes s') a1 e1 → leaf_at (nodes s') a2 ((k, v) :: e2) → wp (K (a1, k, a2)) Q s') →
  wp (split_mid_leaf hd kvsz alloc n gkv ≫= K) Q s.
Proof.
  intros -> H1 Hle Hr HK. set (h := (length es / 2)%nat).
  assert (Z.of_nat (length es) / 2 = Z.of_nat h) as Hh by (unfold h; by rewrite Nat2Z.inj_div).
  rewrite Hh in Hle.
  assert (2 * h ≤ length es ∧ length es ≤ 2 * h + 1)%nat as (Hh2 & Hh3).
  { unfold h. pose proof (Nat.div_mod_eq (length es) 2). pose proof (Nat.mod_upper_bound (length es) 2). lia. }
  destruct (lookup_lt_is_Some_2 es h) as [[k v] Hkv]; [lia|].
  set (e1 := take h es). set (e2 := drop (S h) es).
  assert (es = e1 ++ (k, v) :: e2) as Hes by (unfold e1, e2; by rewrite take_drop_middle).
  assert (length e1 = h) as He1 by (unfold e1; rewrite length_take; lia).
  assert (length ((k, v) :: e2) = length es - h)%nat as He2 by (unfold e2; simpl; rewrite length_drop; lia).
  clearbody e1 e2 h. unfold split_mid_leaf. cbv zeta. rewrite Hh. apply wp_assoc.
  eapply (btree_wp_collect _ e1); [apply (reads_take s gkv e1 ((k, v) :: e2)); by rewrite <-Hes|lia|].
  apply wp_assoc. rewrite <-(app_nil_r e1). eapply wp_new_leaf; [by rewrite He1|rewrite app_nil_r; lia|].
  intros a1 s1 Hx1 Hl1.
  apply wp_assoc. eapply (btree_wp_collect _ ((k, v) :: e2)); [|lia|].
  { eapply reads_extends; [exact Hx1|]. apply (reads_shift s gkv e1); [lia|by rewrite <-Hes]. }
  apply wp_assoc. rewrite <-(app_nil_r ((k, v) :: e2)). eapply wp_new_leaf; [rewrite He2; lia|rewrite app_nil_r, He2; lia|].
  intros a2 s2 Hx2 Hl2. apply wp_assoc. eapply (wp_reads gkv es _ h); [|done|exact Hkv|].
  { eapply reads_extends; [exact Hx2|]. by eapply reads_extends. }
  apply (HK a1 a2 e1 k v e2); [by apply (extends_trans tid s [a1] s1 [a2])|done|lia| |done].
  by eapply leaf_at_extends.
Qed.
End copies.
