(* ===== verification/BTreeProof.v ===== *)
(** * BTreeProof: [BTree] implements a finite map.

    A tree is read from left to right as a sequence of entries and separating
    keys; what splitting, joining and rebalancing do is to put separators in
    or to take them out.  The way down ends because every fix moves a full or
    a meagre node one level up, or removes it. *)

From stdpp Require Import prelude list gmap.
From Stdlib Require Import ZArith Lia Sorted.
From S2P Require Import Prelude Conc SpinLock Store MapSpec Arrays BTree BTreeNodes.
Import BTree.
Local Open Scope Z_scope.
#[local] Abbreviation KV := (Z * Z)%type.

(** ** Entries and separators in order *)
Inductive token := TE (e : KV) | TS (k : Z).
Definition before (x y : token) : Prop :=
  match x, y with
  | TE e, TE e' => e.1 < e'.1
  | TE e, TS k => e.1 < k
  | TS k, TE e => k ≤ e.1
  | TS k, TS k' => k ≤ k'
  end.
Definition ordered (l : list token) : Prop := StronglySorted before l.
Definition ents (l : list token) : list KV := omap (λ x, match x with TE e => Some e | TS _ => None end) l.

Lemma before_trans x y z : before x y → before y z → before x z.
Proof. destruct x, y, z; simpl; lia. Qed.

Lemma ordered_app l1 l2 : ordered (l1 ++ l2) ↔
  ordered l1 ∧ ordered l2 ∧ ∀ x y, x ∈ l1 → y ∈ l2 → before x y.
Proof.
  unfold ordered. induction l1 as [|x l1 IH]; simpl.
  - split; [intros Hs; split; [constructor|split; [done|by intros x y ?%elem_of_nil]]|tauto].
  - split.
    + intros [Hs Hf]%StronglySorted_inv. apply IH in Hs as (H1 & H2 & H3). apply Forall_app in Hf as [Hf1 Hf2].
      split; [by constructor|]. split; [done|]. intros x' y [->|Hx]%elem_of_cons Hy; [|auto].
      rewrite Forall_forall in Hf2. auto.
    + intros ([H1 Hf]%StronglySorted_inv & H2 & H3). constructor.
      * apply IH. split; [done|]. split; [done|]. intros x' y Hx. apply H3. by right.
      * apply Forall_app. split; [done|]. apply Forall_forall. intros y. apply H3. by left.
Qed.
Lemma ordered_cons x l : ordered (x :: l) ↔ Forall (before x) l ∧ ordered l.
Proof. split; [intros [??]%StronglySorted_inv; done|intros []; by constructor]. Qed.
Lemma ordered_middle l1 x l2 : ordered (l1 ++ l2) → Forall (λ y, before y x) l1 → Forall (before x) l2 →
  ordered (l1 ++ x :: l2).
Proof.
  intros (H1 & H2 & H3)%ordered_app Hl Hr. apply ordered_app. split; [done|]. split; [by apply ordered_cons|].
  intros y z Hy [->|Hz]%elem_of_cons; [|auto]. rewrite Forall_forall in Hl. auto.
Qed.
Lemma ordered_remove l1 x l2 : ordered (l1 ++ x :: l2) →
  ordered (l1 ++ l2) ∧ Forall (λ y, before y x) l1 ∧ Forall (before x) l2.
Proof.
  intros (H1 & [Hx H2]%ordered_cons & H3)%ordered_app. split.
  - apply ordered_app. split; [done|]. split; [done|]. intros y z Hy Hz. apply H3; [done|by right].
  - split; [|done]. apply Forall_forall. intros y Hy. apply H3; [done|by left].
Qed.

Lemma ents_app l1 l2 : ents (l1 ++ l2) = ents l1 ++ ents l2.
Proof. unfold ents. apply omap_app. Qed.
Lemma ents_leaf es : ents (TE <$> es) = es.
Proof. induction es as [|e es IH]; [done|]. simpl. by f_equal. Qed.
Lemma ents_elem e l : e ∈ ents l → TE e ∈ l.
Proof.
  unfold ents. intros (x & Hx & He)%list_elem_of_omap. destruct x; [|done]. by injection He as ->.
Qed.
Lemma ents_sorted l : ordered l → sorted (ents l).
Proof.
  induction l as [|x l IH]; [intros _; constructor|]. intros [Hx Hl]%ordered_cons.
  destruct x as [[k v]|k]; simpl; [|by apply IH]. apply sorted_cons. split; [|by apply IH].
  apply Forall_forall. intros e He%ents_elem. rewrite Forall_forall in Hx. apply (Hx _ He).
Qed.

(** what a fix may do to a part of the sequence *)
Definition respaced (l l' : list token) : Prop :=
  ents l' = ents l ∧ ∀ x y, ordered (x ++ l ++ y) → ordered (x ++ l' ++ y).
Lemma respaced_refl l : respaced l l.
Proof. done. Qed.
Lemma respaced_trans l1 l2 l3 : respaced l1 l2 → respaced l2 l3 → respaced l1 l3.
Proof. intros [E1 O1] [E2 O2]. split; [by rewrite E2|auto]. Qed.
Lemma respaced_in a l l' b : respaced l l' → respaced (a ++ l ++ b) (a ++ l' ++ b).
Proof.
  intros [E O]. split; [by rewrite !ents_app, E|]. intros x y. rewrite <-!app_assoc. intros Ho.
  rewrite (app_assoc x a) in Ho |- *. by apply O.
Qed.
Lemma respaced_drop l1 k l2 : respaced (l1 ++ TS k :: l2) (l1 ++ l2).
Proof.
  split; [rewrite !ents_app; done|]. intros x y. rewrite <-!app_assoc. cbn [app]. rewrite !(app_assoc x l1).
  intros Ho. apply ordered_remove in Ho as [Ho _]. done.
Qed.
Lemma respaced_add l1 k v l2 : respaced (l1 ++ TE (k, v) :: l2) (l1 ++ TS k :: TE (k, v) :: l2).
Proof.
  split; [rewrite !ents_app; done|]. intros x y. rewrite <-!app_assoc. cbn [app]. rewrite !(app_assoc x l1).
  intros Ho. apply ordered_middle; [done| |].
  - apply ordered_remove in Ho as (_ & Hl & _). eapply Forall_impl; [exact Hl|]. by intros [].
  - apply ordered_remove in Ho as (_ & _ & Hr). constructor; [simpl; lia|].
    eapply Forall_impl; [exact Hr|]. intros []; simpl; lia.
Qed.

(** ** Children with separators between them *)
Fixpoint ilv (fs : list (list token)) (ks : list Z) : list token :=
  match fs, ks with
  | [], _ => []
  | f :: fs', [] => f ++ ilv fs' []
  | f :: fs', k :: ks' => f ++ TS k :: ilv fs' ks'
  end.
Lemma ilv_app fs1 ks1 k fs2 ks2 : length fs1 = S (length ks1) →
  ilv (fs1 ++ fs2) (ks1 ++ k :: ks2) = ilv fs1 ks1 ++ TS k :: ilv fs2 ks2.
Proof.
  revert fs1. induction ks1 as [|k1 ks1 IH]; intros [|f fs1] Hl; simpl in Hl; try lia.
  - destruct fs1; simpl in Hl; [|lia]. simpl. by rewrite app_nil_r.
  - injection Hl as Hl. simpl. rewrite IH by done. by rewrite <-app_assoc.
Qed.
(** the parts before and after a child *)
Definition pre (fs : list (list token)) (ks : list Z) : list token := concat (zip_with (λ f k, f ++ [TS k]) fs ks).
Definition post (fs : list (list token)) (ks : list Z) : list token := concat (zip_with (λ f k, TS k :: f) fs ks).
Lemma ilv_cons f fs ks : length ks = length fs → ilv (f :: fs) ks = f ++ post fs ks.
Proof.
  revert f ks. induction fs as [|f' fs IH]; intros f [|k ks] Hl; simpl in Hl; try lia; [done|].
  injection Hl as Hl. change (ilv (f :: f' :: fs) (k :: ks)) with (f ++ TS k :: ilv (f' :: fs) ks).
  rewrite IH by done. unfold post. simpl. done.
Qed.
Lemma ilv_child fs1 ks1 f fs2 ks2 : length ks1 = length fs1 → length ks2 = length fs2 →
  ilv (fs1 ++ f :: fs2) (ks1 ++ ks2) = pre fs1 ks1 ++ f ++ post fs2 ks2.
Proof.
  revert ks1. induction fs1 as [|f1 fs1 IH]; intros [|k1 ks1] H1 H2; simpl in H1; try lia.
  - simpl app. rewrite ilv_cons by done. done.
  - injection H1 as H1. simpl. rewrite IH by done. unfold pre. simpl. by rewrite <-!app_assoc.
Qed.

(** where the search for [k] goes *)
Lemma pre_upto k v fs ks : length ks = length fs → upto k ks → ordered (pre fs ks) →
  Forall (λ x, before x (TE (k, v))) (pre fs ks).
Proof.
  revert fs. induction ks as [|k1 ks IH]; intros [|f fs] Hl Hk; simpl in Hl; try lia; [constructor|].
  apply Forall_cons in Hk as [Hk1 Hk]. injection Hl as Hl. unfold pre. simpl. fold (pre fs ks).
  rewrite <-app_assoc. intros Ho. apply ordered_app in Ho as (_ & Ho & Hb). apply Forall_app. split.
  - apply Forall_forall. intros x Hx. apply (before_trans _ (TS k1)); [apply Hb; [done|by left]|done].
  - constructor; [done|]. apply IH; [done|done|]. by apply ordered_cons in Ho as [_ ?].
Qed.
Lemma post_past k v fs ks : length ks = length fs → past k ks → ordered (post fs ks) →
  Forall (before (TE (k, v))) (post fs ks).
Proof.
  revert fs. induction ks as [|k1 ks IH]; intros [|f fs] Hl Hk; simpl in Hl; try lia; [constructor|].
  apply Forall_cons in Hk as [Hk1 Hk]. injection Hl as Hl. unfold post. simpl. fold (post fs ks).
  intros [Hf Ho]%ordered_cons. apply Forall_app in Hf as [Hf _]. constructor; [done|]. apply Forall_app. split.
  - eapply Forall_impl; [exact Hf|]. intros []; simpl; lia.
  - apply IH; [done|done|]. by apply ordered_app in Ho as (_ & ? & _).
Qed.
(** the separators of a node are in order *)
Lemma ilv_keys fs ks : (length ks ≤ length fs)%nat → ordered (ilv fs ks) → StronglySorted Z.le ks.
Proof.
  revert fs. induction ks as [|k ks IH]; intros fs Hl Ho; [constructor|]. destruct fs as [|f fs]; simpl in Hl; [lia|].
  simpl in Ho. apply ordered_app in Ho as (_ & [Hk Ho]%ordered_cons & _). constructor; [apply (IH fs); [lia|done]|].
  clear -Hk Hl. assert (length ks ≤ length fs)%nat as Hl' by lia. clear Hl. revert fs Hk Hl'.
  induction ks as [|k' ks IH]; intros fs Hk Hl; [constructor|]. destruct fs as [|f fs]; simpl in Hl; [lia|].
  simpl in Hk. apply Forall_app in Hk as [_ [Hk' Hk]%Forall_cons]. constructor; [done|]. apply (IH fs); [done|lia].
Qed.

(** ** Trees *)
Inductive bt :=
  | BL (a : Z) (es : list KV)
  | BN (a : Z) (st : Status) (ks : list Z) (ts : list bt).
Lemma bt_forest_ind (P : bt → Prop) : (∀ a es, P (BL a es)) →
  (∀ a st ks ts, Forall P ts → P (BN a st ks ts)) → ∀ t, P t.
Proof.
  fix IH 3. intros HL HN [a es|a st ks ts]; [apply HL|]. apply HN.
  induction ts as [|t ts IHts]; constructor; [by apply IH|done].
Qed.

Definition addr (t : bt) : Z := match t with BL a _ => a | BN a _ _ _ => a end.
Definition kids (t : bt) : list bt := match t with BL _ _ => [] | BN _ _ _ ts => ts end.
Fixpoint addrs (t : bt) : list Z :=
  match t with BL a _ => [a] | BN a _ _ ts => a :: concat (map addrs ts) end.
Fixpoint flat (t : bt) : list token :=
  match t with BL _ es => TE <$> es | BN _ _ ks ts => ilv (map flat ts) ks end.

Lemma elem_addrs a ts : a ∈ concat (map addrs ts) ↔ ∃ t, t ∈ ts ∧ a ∈ addrs t.
Proof.
  rewrite list_elem_of_In, in_concat. split.
  - intros (l & Hl & Ha). apply in_map_iff in Hl as (t & <- & Ht). exists t. by rewrite !list_elem_of_In.
  - intros (t & Ht & Ha). exists (addrs t). rewrite !list_elem_of_In in *. split; [|done]. by apply in_map.
Qed.

(** a way down: the node, the keys and children before and after the hole *)
Record frame := Frame {
  f_addr : Z; f_st : Status; f_ks1 : list Z; f_ts1 : list bt; f_ks2 : list Z; f_ts2 : list bt }.
Definition fplug (f : frame) (t : bt) : bt :=
  BN (f_addr f) (f_st f) (f_ks1 f ++ f_ks2 f) (f_ts1 f ++ t :: f_ts2 f).
Fixpoint plug (C : list frame) (t : bt) : bt := match C with [] => t | f :: C' => plug C' (fplug f t) end.
Definition frame_ok (f : frame) : Prop :=
  length (f_ks1 f) = length (f_ts1 f) ∧ length (f_ks2 f) = length (f_ts2 f).
Definition top (C : list frame) : bool := match C with [] => true | _ => false end.
Definition hole (root : Z) (C : list frame) : Z * Z :=
  match C with [] => (root, 0) | f :: _ => (f_addr f, Z.of_nat (length (f_ts1 f))) end.
Fixpoint caddrs (C : list frame) : list Z :=
  match C with [] => [] | f :: C' => f_addr f :: concat (map addrs (f_ts1 f ++ f_ts2 f)) ++ caddrs C' end.
Fixpoint cpre (C : list frame) : list token :=
  match C with [] => [] | f :: C' => cpre C' ++ pre (map flat (f_ts1 f)) (f_ks1 f) end.
Fixpoint cpost (C : list frame) : list token :=
  match C with [] => [] | f :: C' => post (map flat (f_ts2 f)) (f_ks2 f) ++ cpost C' end.

Lemma fplug_flat f t : frame_ok f →
  flat (fplug f t) = pre (map flat (f_ts1 f)) (f_ks1 f) ++ flat t ++ post (map flat (f_ts2 f)) (f_ks2 f).
Proof. intros [H1 H2]. simpl. rewrite map_app. simpl. apply ilv_child; by rewrite length_map. Qed.
Lemma plug_flat C t : Forall frame_ok C → flat (plug C t) = cpre C ++ flat t ++ cpost C.
Proof.
  revert t. induction C as [|f C IH]; intros t HC; simpl; [by rewrite app_nil_r|].
  apply Forall_cons in HC as [Hf HC]. rewrite IH, fplug_flat by done. by rewrite <-!app_assoc.
Qed.
Lemma btree_plug_addrs C t : addrs (plug C t) ≡ₚ caddrs C ++ addrs t.
Proof.
  revert t. induction C as [|f C IH]; intros t; simpl; [done|]. rewrite IH. simpl.
  rewrite !map_app, !concat_app. simpl. solve_Permutation.
Qed.

(** the search for [k] takes this way *)
Definition path (k : Z) (C : list frame) : Prop := Forall (λ f, upto k (f_ks1 f) ∧ past k (f_ks2 f)) C.
Lemma path_before k v C t : Forall frame_ok C → path k C → ordered (flat (plug C t)) →
  Forall (λ x, before x (TE (k, v))) (cpre C) ∧ Forall (before (TE (k, v))) (cpost C).
Proof.
  intros HC Hp. rewrite plug_flat by done. intros (H1 & H2 & _)%ordered_app. apply ordered_app in H2 as (_ & H2 & _).
  clear t. induction C as [|f C IH]; simpl in *; [split; constructor|].
  apply Forall_cons in HC as [[Hl1 Hl2] HC]. apply Forall_cons in Hp as [[Hu Hpa] Hp].
  apply ordered_app in H1 as (H1a & H1b & _). apply ordered_app in H2 as (H2a & H2b & _).
  destruct (IH HC Hp H1a H2b) as [I1 I2]. split; apply Forall_app; (split; [try done|try done]).
  - apply pre_upto; [by rewrite length_map|done|done].
  - apply post_past; [by rewrite length_map|done|done].
Qed.

Section trees.
Context (hd lk ksz kvsz : Z).
#[local] Abbreviation lcap := (leaf_block_size hd kvsz).
#[local] Abbreviation lmin := (leaf_min_size hd kvsz).
#[local] Abbreviation ncap := (node_block_size hd lk ksz).
#[local] Abbreviation nmin := (node_min_size hd lk ksz).
#[local] Abbreviation len l := (Z.of_nat (length l)).
Implicit Types m : gmap Z obj.

(** sizes and statuses, by height; the child of the root may be small *)
Fixpoint wf (root : bool) (h : nat) (t : bt) : Prop :=
  match h, t with
  | O, BL _ es => len es ≤ lcap ∧ (root = true ∨ lmin ≤ len es)
  | S h', BN _ st ks ts => length ts = S (length ks) ∧ len ts ≤ ncap ∧
      (if root then st = node_status hd lk ksz (len ts) ∨ (st = OK ∧ len ts = 2)
       else nmin ≤ len ts ∧ st = node_status hd lk ksz (len ts)) ∧ Forall (wf false h') ts
  | _, _ => False
  end.
Lemma plug_wf C : ∀ h, ∃ P : Prop, ∀ t, wf true (length C + h) (plug C t) ↔ P ∧ wf (top C) h t.
Proof.
  induction C as [|f C IH]; intros h; [exists True; simpl; tauto|]. destruct (IH (S h)) as [P HP]. simpl top.
  set (n := (length (f_ts1 f) + S (length (f_ts2 f)))%nat).
  exists (P ∧ n = S (length (f_ks1 f) + length (f_ks2 f)) ∧ Z.of_nat n ≤ ncap ∧
    (if top C then f_st f = node_status hd lk ksz (Z.of_nat n) ∨ (f_st f = OK ∧ Z.of_nat n = 2)
     else nmin ≤ Z.of_nat n ∧ f_st f = node_status hd lk ksz (Z.of_nat n)) ∧
    Forall (wf false h) (f_ts1 f) ∧ Forall (wf false h) (f_ts2 f)).
  intros t. simpl plug. replace (length (f :: C) + h)%nat with (length C + S h)%nat by (simpl; lia).
  rewrite HP. simpl wf. rewrite Forall_app, Forall_cons, !length_app. simpl length. fold n. tauto.
Qed.

(** *** In memory *)
Fixpoint tree_at m (h : nat) (t : bt) : Prop :=
  match h, t with
  | O, BL a es => leaf_at hd kvsz m a es
  | S h', BN a st ks ts => node_at m a st ks (map addr ts) ∧ Forall (tree_at m h') ts
  | _, _ => False
  end.
Definition rooted m (root q : Z) : Prop := ∃ st pk pc, m !! root = Some (node st false 1 pk (q :: pc)).
Definition frame_at m (f : frame) (q : Z) : Prop :=
  node_at m (f_addr f) (f_st f) (f_ks1 f ++ f_ks2 f) (map addr (f_ts1 f) ++ q :: map addr (f_ts2 f)).
Fixpoint ctx_at m (root : Z) (h : nat) (C : list frame) (q : Z) : Prop :=
  match C with
  | [] => rooted m root q
  | f :: C' => frame_at m f q ∧ Forall (tree_at m h) (f_ts1 f ++ f_ts2 f) ∧ ctx_at m root (S h) C' (f_addr f)
  end.
Lemma plug_at m root C : ∀ h t, rooted m root (addr (plug C t)) ∧ tree_at m (length C + h) (plug C t) ↔
  ctx_at m root h C (addr t) ∧ tree_at m h t.
Proof.
  induction C as [|f C IH]; intros h t; [simpl; tauto|]. simpl plug.
  replace (length (f :: C) + h)%nat with (length C + S h)%nat by (simpl; lia).
  rewrite IH. simpl. unfold frame_at. rewrite map_app, !Forall_app, Forall_cons. simpl. tauto.
Qed.

Lemma btree_tree_addr m h : ∀ t a, tree_at m h t → a ∈ addrs t → is_Some (m !! a).
Proof.
  induction h as [|h IH]; intros [a' es|a' st ks ts] a; simpl; try done.
  - intros (pad & Hm) ->%list_elem_of_singleton. eauto.
  - intros [(pk & pc & Hm & _) Hts] [->|Hin]%elem_of_cons; [eauto|].
    apply elem_addrs in Hin as (t & Ht & Hin). rewrite Forall_forall in Hts. eapply IH; [by apply Hts|done].
Qed.
Lemma btree_tree_frame m m' h : ∀ t, (∀ a, a ∈ addrs t → m' !! a = m !! a) → tree_at m h t → tree_at m' h t.
Proof.
  induction h as [|h IH]; intros [a es|a st ks ts] Hm; simpl; try done.
  - intros (pad & Ha). exists pad. by rewrite Hm by (simpl; by left).
  - intros [(pk & pc & Ha & Hl) Hts]. split.
    + exists pk, pc. by rewrite Hm by (simpl; by left).
    + apply Forall_forall. intros t Ht. rewrite Forall_forall in Hts. apply IH; [|by apply Hts].
      intros b Hb. apply Hm. simpl. right. apply elem_addrs. eauto.
Qed.
Lemma trees_frame m m' h ts : (∀ a, a ∈ concat (map addrs ts) → m' !! a = m !! a) →
  Forall (tree_at m h) ts → Forall (tree_at m' h) ts.
Proof.
  intros Hm. rewrite !Forall_forall. intros Hts t Ht. eapply btree_tree_frame; [|by apply Hts].
  intros a Ha. apply Hm, elem_addrs. eauto.
Qed.
Lemma btree_ctx_frame m m' root C : ∀ h q, (∀ a, a ∈ root :: caddrs C → m' !! a = m !! a) →
  ctx_at m root h C q → ctx_at m' root h C q.
Proof.
  induction C as [|f C IH]; intros h q Hm; simpl.
  - intros (st & pk & pc & Hr). exists st, pk, pc. by rewrite Hm by (simpl; by left).
  - intros ((pk & pc & Hf & Hl) & Hts & Hc). split; [|split].
    + exists pk, pc. by rewrite Hm by (simpl; right; by left).
    + eapply trees_frame; [|exact Hts]. intros a Ha. apply Hm. simpl. right. right. apply elem_of_app. by left.
    + apply IH; [|exact Hc]. intros a [->|Ha]%elem_of_cons; apply Hm; [by left|]. simpl. right. right.
      apply elem_of_app. by right.
Qed.
Lemma btree_ctx_addr m root C : ∀ h q a, ctx_at m root h C q → a ∈ root :: caddrs C → is_Some (m !! a).
Proof.
  induction C as [|f C IH]; intros h q a; simpl.
  - intros (st & pk & pc & Hr) ->%list_elem_of_singleton. eauto.
  - intros ((pk & pc & Hf & Hl) & Hts & Hc) [->|[->|[Ha|Ha]%elem_of_app]%elem_of_cons]%elem_of_cons.
    + eapply IH; [exact Hc|by left].
    + eauto.
    + apply elem_addrs in Ha as (t & Ht & Ha). rewrite Forall_forall in Hts. eapply btree_tree_addr; [by apply Hts|done].
    + eapply IH; [exact Hc|by right].
Qed.
Lemma btree_hole_in root C : (hole root C).1 ∈ root :: caddrs C.
Proof. destruct C; simpl; [by left|]. right. by left. Qed.

(** *** Replacing a subtree *)
Definition set_child (j q : Z) (o : obj) : obj :=
  match o with node st rm n ks ch => node st rm n ks (<[Z.to_nat j := q]> ch) | leaf _ _ _ => o end.

(** the node above a hole, and what storing there does *)
Lemma ctx_hole m root C h q : ctx_at m root h C q → NoDup (root :: caddrs C) → ∃ st n ks ch,
  let o := node st false n ks ch in
  m !! (hole root C).1 = Some o ∧ get ch (hole root C).2 = inr q ∧
  ∀ q', ctx_at (<[(hole root C).1 := set_child (hole root C).2 q' o]> m) root h C q'.
Proof.
  intros Hc Hnd. destruct C as [|f C]; simpl in *.
  - destruct Hc as (st & pk & pc & Hr). exists st, 1, pk, (q :: pc). split; [done|]. split; [done|].
    intros q'. exists st, pk, pc. by rewrite lookup_insert_eq.
  - destruct Hc as ((pk & pc & Hf & Hl) & Hts & Hc). eexists _, _, _, _. split; [exact Hf|]. split.
    + rewrite <-(app_assoc (map addr _)). cbn [app]. apply get_app. by rewrite length_map.
    + intros q'. apply NoDup_cons in Hnd as [Hr [Hfn Hnd]%NoDup_cons].
      assert (∀ y, y ∈ root :: concat (map addrs (f_ts1 f ++ f_ts2 f)) ++ caddrs C → y ≠ f_addr f) as Hne.
      { intros y [->|Hy]%elem_of_cons ->; [apply Hr; by left|done]. }
      split; [|split].
      * exists pk, pc. rewrite lookup_insert_eq. split; [|by rewrite !length_app in *; simpl in *].
        assert (<[Z.to_nat (Z.of_nat (length (f_ts1 f))) := q']> ((map addr (f_ts1 f) ++ q :: map addr (f_ts2 f)) ++ pc)
          = (map addr (f_ts1 f) ++ q' :: map addr (f_ts2 f)) ++ pc) as Hins.
        { rewrite Nat2Z.id, <-!app_assoc. rewrite insert_app_r_alt by (by rewrite length_map).
          by rewrite length_map, Nat.sub_diag. }
        simpl. rewrite Hins. by rewrite !length_app.
      * eapply trees_frame; [|exact Hts]. intros a Ha. rewrite lookup_insert_ne; [done|].
        intros Heq. apply (Hne a); [right; apply elem_of_app; by left|done].
      * eapply btree_ctx_frame; [|exact Hc]. intros a Ha. rewrite lookup_insert_ne; [done|].
        intros Heq. apply (Hne a); [|done]. apply elem_of_cons in Ha as [->|Ha]; [by left|right].
        apply elem_of_app. by right.
Qed.

Record at_tree (root : Z) (h : nat) (t : bt) m : Prop := {
  at_rooted : rooted m root (addr t);
  at_nodes : tree_at m h t;
  at_nodup : NoDup (root :: addrs t);
  at_ordered : ordered (flat t);
  at_wf : wf true h t;
}.

Lemma at_split root C h t m : at_tree root (length C + h) (plug C t) m →
  ctx_at m root h C (addr t) ∧ tree_at m h t ∧ wf (top C) h t ∧
  NoDup (root :: caddrs C) ∧ NoDup (addrs t) ∧ ∀ y, y ∈ root :: caddrs C → y ∉ addrs t.
Proof.
  intros [Hr Ht Hnd Ho Hw]. destruct (proj1 (plug_at m root C h t) (conj Hr Ht)) as [Hc Ht'].
  destruct (plug_wf C h) as [P HP]. apply HP in Hw as [_ Hw].
  rewrite btree_plug_addrs, app_comm_cons in Hnd. apply NoDup_app in Hnd as (H1 & H2 & H3). done.
Qed.

Lemma replace_tree root C h t t' m m2 o : at_tree root (length C + h) (plug C t) m →
  wf (top C) h t' → tree_at m2 h t' → NoDup (addrs t') → (∀ y, y ∈ addrs t' → y ∈ addrs t ∨ m !! y = None) →
  ordered (flat (plug C t')) →
  (∀ y, y ∈ root :: caddrs C → y ≠ (hole root C).1 → m2 !! y = m !! y) →
  m !! (hole root C).1 = Some o → m2 !! (hole root C).1 = Some (set_child (hole root C).2 (addr t') o) →
  at_tree root (length C + h) (plug C t') m2.
Proof.
  intros Hat Hw' Ht' Hnd' Hin Ho' Hsame Hm Hm2. pose proof Hat as [_ _ _ _ Hw].
  destruct (at_split _ _ _ _ _ Hat) as (Hc & Ht & _ & Hnd1 & Hnd2 & Hdis).
  destruct (ctx_hole _ _ _ _ _ Hc Hnd1) as (st & n & ks & ch & Hm' & _ & Hset).
  rewrite Hm in Hm'. injection Hm' as ->.
  assert (ctx_at m2 root h C (addr t')) as Hc2.
  { eapply btree_ctx_frame; [|apply Hset]. intros y Hy. destruct (decide (y = (hole root C).1)) as [->|Hne].
    - by rewrite lookup_insert_eq.
    - rewrite lookup_insert_ne by done. by apply Hsame. }
  destruct (proj2 (plug_at m2 root C h t') (conj Hc2 Ht')) as [Hr2 Ht2].
  destruct (plug_wf C h) as [P HP]. split; [done|done| |done|].
  - rewrite btree_plug_addrs, app_comm_cons. apply NoDup_app. split; [done|]. split; [|done].
    intros y Hy Hy'. destruct (Hin y Hy') as [Hyt|Hnone]; [by apply (Hdis y)|].
    destruct (btree_ctx_addr _ _ _ _ _ _ Hc Hy) as [z Hz]. congruence.
  - apply HP. split; [|done]. by apply HP in Hw as [? _].
Qed.

(** ** Nodes to be fixed *)
Definition total (f : bt → nat) (ts : list bt) : nat := foldr (λ t n, (f t + n)%nat) 0%nat ts.
Lemma total_app f ts1 ts2 : total f (ts1 ++ ts2) = (total f ts1 + total f ts2)%nat.
Proof. induction ts1 as [|t ts1 IH]; simpl; [done|]. rewrite IH. lia. Qed.
Lemma total_le f g ts : Forall (λ t, (f t ≤ g t)%nat) ts → (total f ts ≤ total g ts)%nat.
Proof. induction 1; simpl; lia. Qed.

(** what [find_and_fix] does not pass by *)
Definition bad (root : bool) (t : bt) : bool :=
  match t with
  | BL _ es => if root then bool_decide (leaf_status hd kvsz (len es) = isOver)
               else negb (bool_decide (leaf_status hd kvsz (len es) = OK))
  | BN _ st _ ts => if root then bool_decide (st = isOver) || (len ts =? 1)
                    else negb (bool_decide (st = OK))
  end.
(** how many there are, and the sum of their depths *)
Fixpoint nbad' (t : bt) : nat :=
  Nat.b2n (bad false t) + match t with BL _ _ => 0%nat | BN _ _ _ ts => foldr (λ t n, (nbad' t + n)%nat) 0%nat ts end.
Definition nbad (root : bool) (t : bt) : nat := Nat.b2n (bad root t) + total nbad' (kids t).
Fixpoint depths' (d : nat) (t : bt) : nat :=
  (if bad false t then d else 0%nat) +
  match t with BL _ _ => 0%nat | BN _ _ _ ts => foldr (λ t n, (depths' (S d) t + n)%nat) 0%nat ts end.
Definition depths (root : bool) (d : nat) (t : bt) : nat :=
  (if bad root t then d else 0%nat) + total (depths' (S d)) (kids t).

Lemma nbad_inner t : nbad' t = nbad false t.
Proof. by destruct t. Qed.
Lemma depths_inner d t : depths' d t = depths false d t.
Proof. by destruct t. Qed.
Lemma depths_deeper t : ∀ d, depths' (S d) t = (depths' d t + nbad' t)%nat.
Proof.
  revert t. apply (bt_forest_ind (λ t, ∀ d, depths' (S d) t = (depths' d t + nbad' t)%nat)).
  - intros a es d. simpl. case_match; simpl; lia.
  - intros a st ks ts IH d. simpl.
    assert (foldr (λ t n, (depths' (S (S d)) t + n)%nat) 0%nat ts =
      (foldr (λ t n, (depths' (S d) t + n)%nat) 0%nat ts + foldr (λ t n, (nbad' t + n)%nat) 0%nat ts)%nat) as ->.
    { induction IH as [|t ts Ht _ IHts]; simpl; [done|]. rewrite IHts, Ht. lia. }
    case_match; simpl; lia.
Qed.
Lemma total_deeper d ts : total (depths' (S d)) ts = (total (depths' d) ts + total nbad' ts)%nat.
Proof. induction ts as [|t ts IH]; simpl; [done|]. rewrite IH, depths_deeper. lia. Qed.

Lemma bad_fplug root f t t' : bad root (fplug f t) = bad root (fplug f t').
Proof. simpl. by rewrite !length_app. Qed.
Lemma plug_nbad C : ∃ N, ∀ t, nbad true (plug C t) = (N + nbad (top C) t)%nat.
Proof.
  induction C as [|f C [N IH]]; [by exists 0%nat|].
  exists (N + Nat.b2n (bad (top C) (fplug f (BL 0 []))) + total nbad' (f_ts1 f) + total nbad' (f_ts2 f))%nat.
  intros t. simpl plug. rewrite IH. unfold nbad. rewrite (bad_fplug _ f t (BL 0 [])). cbn [kids fplug top].
  rewrite total_app. simpl. rewrite (nbad_inner t). unfold nbad. lia.
Qed.
Lemma plug_depths C : ∀ d, ∃ N, ∀ t, depths true d (plug C t) = (N + depths (top C) (d + length C) t)%nat.
Proof.
  induction C as [|f C IH]; intros d; [exists 0%nat; intros t; simpl; by rewrite Nat.add_0_r|].
  destruct (IH d) as [N HN].
  exists (N + (if bad (top C) (fplug f (BL 0 [])) then d + length C else 0) +
    total (depths' (S (d + length C))) (f_ts1 f) + total (depths' (S (d + length C))) (f_ts2 f))%nat.
  intros t. simpl plug. rewrite HN. unfold depths at 1. rewrite (bad_fplug _ f t (BL 0 [])). cbn [kids fplug top].
  rewrite total_app. simpl. rewrite (depths_inner _ t). replace (d + S (length C))%nat with (S (d + length C)) by lia. lia.
Qed.

(** ** Sizes and statuses *)
Lemma lmin_bounds : 1 ≤ lmin ∧ 5 * lmin ≤ lcap.
Proof.
  pose proof (cap_large hd kvsz). unfold leaf_min_size. split; [apply Z.div_le_lower_bound; lia|apply Z.mul_div_le; lia].
Qed.
Lemma nmin_bounds : 1 ≤ nmin ∧ 5 * nmin ≤ ncap.
Proof.
  pose proof (ncap_large hd lk ksz). unfold node_min_size. split; [apply Z.div_le_lower_bound; lia|apply Z.mul_div_le; lia].
Qed.
Lemma leaf_status_spec n : 0 ≤ n ≤ lcap →
  match leaf_status hd kvsz n with isUnder => n = lmin | isOver => n = lcap | OK => n ≠ lmin ∧ n < lcap end.
Proof.
  pose proof lmin_bounds. unfold leaf_status. intros Hn. repeat case_bool; try done. lia.
Qed.
Lemma node_status_spec n : 0 ≤ n ≤ ncap →
  match node_status hd lk ksz n with isUnder => n = nmin | isOver => n = ncap | OK => n ≠ nmin ∧ n < ncap end.
Proof.
  pose proof nmin_bounds. unfold node_status. intros Hn. repeat case_bool; try done. lia.
Qed.
Lemma leaf_status_ok n : lmin < n < lcap → leaf_status hd kvsz n = OK.
Proof. unfold leaf_status. intros Hn. rewrite !(proj2 (Z.eqb_neq _ _)) by lia. done. Qed.
Lemma node_status_ok n : nmin < n < ncap → node_status hd lk ksz n = OK.
Proof. unfold node_status. intros Hn. rewrite !(proj2 (Z.eqb_neq _ _)) by lia. done. Qed.

(** ** A fix, once its result is in memory *)
Definition effort (t : bt) : nat := depths true 1 t + nbad true t * nbad true t.
Record better (h : nat) (t : bt) (h' : nat) (t' : bt) : Prop := {
  be_ents : ents (flat t') = ents (flat t);
  be_effort : (effort t' < effort t)%nat;
  be_budget : (h' + nbad true t' ≤ h + nbad true t)%nat;
}.

(** the new subtree is linked in at the hole; [gone] are the nodes replaced *)
Lemma linked root C h told tnew gone new tid s s3 m2 o :
  at_tree root (length C + h) (plug C told) (nodes s) → Forall frame_ok C → extends tid s new s3 →
  wf (top C) h tnew → tree_at (nodes s3) h tnew → addrs tnew ++ gone ≡ₚ new ++ addrs told →
  ordered (flat (plug C tnew)) → nodes s !! (hole root C).1 = Some o →
  m2 !! (hole root C).1 = Some (set_child (hole root C).2 (addr tnew) o) →
  (∀ y, y ≠ (hole root C).1 → y ∉ gone → is_Some (nodes s3 !! y) → m2 !! y = nodes s3 !! y) →
  at_tree root (length C + h) (plug C tnew) m2.
Proof.
  intros Hat HC He Hw Ht Hp Ho Hm Hm2 Hsame.
  destruct (at_split _ _ _ _ _ Hat) as (Hc & Htold & _ & Hnd1 & Hnd2 & Hdis).
  assert (NoDup (addrs tnew ++ gone)) as Hnd.
  { rewrite Hp. apply NoDup_app. split; [apply He|]. split; [|done]. intros y Hy Hy'.
    destruct (ex_new _ _ _ _ He y Hy) as (Hn & _). destruct (btree_tree_addr _ _ _ _ Htold Hy'). congruence. }
  apply NoDup_app in Hnd as (Hnd3 & Hng & _).
  assert (∀ y, y ∈ addrs tnew ++ gone → y ∈ addrs told ∨ nodes s !! y = None) as Hin.
  { intros y Hy. rewrite Hp in Hy. apply elem_of_app in Hy as [Hy|Hy]; [|by left].
    right. by destruct (ex_new _ _ _ _ He y Hy). }
  assert (∀ y, y ∈ root :: caddrs C → y ∉ addrs tnew ++ gone) as Hdis2.
  { intros y Hy Hy2. destruct (btree_ctx_addr _ _ _ _ _ _ Hc Hy) as [z Hz].
    destruct (Hin y Hy2) as [Hy3|Hn]; [by apply (Hdis y)|congruence]. }
  eapply (replace_tree root C h told tnew (nodes s)); [done|done| |done| |done| |done|done].
  - eapply btree_tree_frame; [|exact Ht]. intros y Hy. apply Hsame.
    + intros ->. apply (Hdis2 _ (btree_hole_in root C)). apply elem_of_app. by left.
    + by apply Hng.
    + by eapply btree_tree_addr.
  - intros y Hy. apply Hin. apply elem_of_app. by left.
  - intros y Hy Hyh. destruct (btree_ctx_addr _ _ _ _ _ _ Hc Hy) as [z Hz].
    rewrite Hz. rewrite Hsame; [by apply (ex_keep _ _ _ _ He)|done| |].
    + intros Hg. apply (Hdis2 y Hy). apply elem_of_app. by right.
    + rewrite (ex_keep _ _ _ _ He _ _ Hz). done.
Qed.

Lemma plug_respaced C t t' : Forall frame_ok C → respaced (flat t) (flat t') → ordered (flat (plug C t)) →
  ordered (flat (plug C t')) ∧ ents (flat (plug C t')) = ents (flat (plug C t)).
Proof.
  intros HC [He Ho] Hor. rewrite !plug_flat in * by done. split; [by apply Ho|]. by rewrite !ents_app, He.
Qed.

Lemma plug_better C h t t' : Forall frame_ok C → respaced (flat t) (flat t') →
  (nbad (top C) t' ≤ nbad (top C) t)%nat →
  (depths (top C) (1 + length C) t' < depths (top C) (1 + length C) t)%nat → better h (plug C t) h (plug C t').
Proof.
  intros HC [He Ho] Hn Hd. destruct (plug_nbad C) as [N HN]. destruct (plug_depths C 1) as [D HD].
  split.
  - rewrite !plug_flat by done. by rewrite !ents_app, He.
  - unfold effort. rewrite !HN, !HD. nia.
  - rewrite !HN. lia.
Qed.

(** ** New children for a node *)
Lemma ilv_mid fs1 mid fs2 ks1 km ks2 : length ks1 = length fs1 → length mid = S (length km) →
  length ks2 = length fs2 → ilv (fs1 ++ mid ++ fs2) (ks1 ++ km ++ ks2) = pre fs1 ks1 ++ ilv mid km ++ post fs2 ks2.
Proof.
  intros H1 Hm H2. destruct mid as [|f mid]; simpl in Hm; [lia|]. injection Hm as Hm.
  cbn [app]. rewrite ilv_child by (rewrite ?length_app; lia). rewrite ilv_cons by lia.
  unfold post. rewrite zip_with_app, concat_app by lia. by rewrite <-app_assoc.
Qed.

Lemma total_kids_good ts : Forall (λ t, bad false t = false) ts →
  total nbad' ts = total nbad' (concat (map kids ts)).
Proof.
  induction 1 as [|t ts Ht _ IH]; [done|]. simpl. rewrite total_app, IH, nbad_inner. unfold nbad. by rewrite Ht.
Qed.
Lemma depths_kids_good d ts : Forall (λ t, bad false t = false) ts →
  total (depths' d) ts = total (depths' (S d)) (concat (map kids ts)).
Proof.
  induction 1 as [|t ts Ht _ IH]; [done|]. simpl. rewrite total_app, IH, depths_inner. unfold depths. by rewrite Ht.
Qed.
Lemma total_kids_bad ts : Exists (λ t, bad false t = true) ts →
  (1 + total nbad' (concat (map kids ts)) ≤ total nbad' ts)%nat.
Proof.
  assert (∀ ts, (total nbad' (concat (map kids ts)) ≤ total nbad' ts)%nat) as Hle.
  { induction ts0 as [|t ts0 IH]; [done|]. simpl. rewrite total_app, nbad_inner. unfold nbad. lia. }
  induction 1 as [t ts Ht|t ts _ IH]; simpl; rewrite total_app, nbad_inner; unfold nbad; [|lia].
  rewrite Ht. specialize (Hle ts). simpl. lia.
Qed.
Lemma depths_kids_bad d ts : Exists (λ t, bad false t = true) ts →
  (d + total (depths' (S d)) (concat (map kids ts)) ≤ total (depths' d) ts)%nat.
Proof.
  assert (∀ ts, (total (depths' (S d)) (concat (map kids ts)) ≤ total (depths' d) ts)%nat) as Hle.
  { induction ts0 as [|t ts0 IH]; [done|]. simpl. rewrite total_app, depths_inner. unfold depths. lia. }
  induction 1 as [t ts Ht|t ts _ IH]; simpl; rewrite total_app, depths_inner; unfold depths; [|lia].
  rewrite Ht. specialize (Hle ts). lia.
Qed.

Lemma refit root h d p st ks1 km ks2 ts1 mid ts2 p' km' mid' :
  let told := BN p st (ks1 ++ km ++ ks2) (ts1 ++ mid ++ ts2) in
  let n' := len (ts1 ++ mid' ++ ts2) in
  let tnew := BN p' (node_status hd lk ksz n') (ks1 ++ km' ++ ks2) (ts1 ++ mid' ++ ts2) in
  wf root (S h) told → bad root told = false → length ks1 = length ts1 → length mid = S (length km) →
  length mid' = S (length km') → n' ≤ ncap → (root = false → nmin ≤ n') → Forall (wf false h) mid' →
  Forall (λ t, bad false t = false) mid' → Exists (λ t, bad false t = true) mid →
  concat (map kids mid') = concat (map kids mid) →
  respaced (ilv (map flat mid) km) (ilv (map flat mid') km') →
  wf root (S h) tnew ∧ respaced (flat told) (flat tnew) ∧ (nbad root tnew ≤ nbad root told)%nat ∧
  (depths root d tnew < depths root d told)%nat.
Proof.
  intros told n' tnew Hw Hgood Hk1 Hkm Hkm' Hcap Hmin Hwm Hgm Hbm Hkids Hre.
  simpl in Hw. destruct Hw as (Hl & _ & _ & Hwt). rewrite !length_app in Hl.
  assert (length ks2 = length ts2) as Hk2 by lia.
  rewrite !Forall_app in Hwt. destruct Hwt as (Hw1 & _ & Hw2). split_and!.
  - simpl. split; [rewrite !length_app; lia|]. split; [done|]. split; [|by rewrite !Forall_app].
    destruct root; [by left|]. split; [by apply Hmin|done].
  - simpl. rewrite !map_app, !ilv_mid by (rewrite ?length_map; lia). by apply respaced_in.
  - unfold nbad. rewrite Hgood. cbn [kids told tnew]. rewrite !total_app, (total_kids_good mid'), Hkids by done.
    pose proof (total_kids_bad mid Hbm). destruct (bad root tnew); simpl; lia.
  - unfold depths. rewrite Hgood. cbn [kids told tnew]. rewrite !total_app, (depths_kids_good _ mid'), Hkids by done.
    pose proof (depths_kids_bad (S d) mid Hbm). destruct (bad root tnew); lia.
Qed.
End trees.

(** ** Splitting, joining and rebalancing *)
Section pieces.
Context (hd lk ksz kvsz : Z) (alloc : gmap Z obj → Z) {fresh : Allocator alloc} (tid : nat).
#[local] Abbreviation state := (store_state obj).
#[local] Abbreviation lcap := (leaf_block_size hd kvsz).
#[local] Abbreviation lmin := (leaf_min_size hd kvsz).
#[local] Abbreviation ncap := (node_block_size hd lk ksz).
#[local] Abbreviation nmin := (node_min_size hd lk ksz).
#[local] Abbreviation len l := (Z.of_nat (length l)).
#[local] Abbreviation tree_at := (tree_at hd kvsz).
#[local] Abbreviation wf := (wf hd lk ksz kvsz).
#[local] Abbreviation bad := (bad hd kvsz).
#[local] Abbreviation extends := (extends tid).
#[local] Abbreviation reads := (reads tid).
Implicit Types s : state.

Lemma wp_as_node {A} p st ks cs (K : Z * list Z → prog state A) Q s : node_at (nodes s) p st ks cs →
  (∀ pk, wp (K (len cs, ks ++ pk)) Q s) → wp (as_node p ≫= K) Q s.
Proof.
  intros (pk & pc & Hm & _) HK. unfold as_node. apply wp_assoc. eapply wp_read; [exact Hm|done|]. apply HK.
Qed.
Lemma wp_as_leaf {A} p es (K : Z * list KV → prog state A) Q s : leaf_at hd kvsz (nodes s) p es →
  (∀ pad, wp (K (len es, es ++ pad)) Q s) → wp (as_leaf p ≫= K) Q s.
Proof.
  intros (pad & Hm) HK. unfold as_leaf. apply wp_assoc. eapply wp_read; [exact Hm|done|]. apply HK.
Qed.

Lemma tree_extends s new s' h t : extends s new s' → tree_at (nodes s) h t → tree_at (nodes s') h t.
Proof.
  intros He Ht. eapply btree_tree_frame; [|exact Ht]. intros a Ha. destruct (btree_tree_addr _ _ _ _ _ _ Ht Ha) as [o Ho].
  rewrite Ho. by apply (ex_keep _ _ _ _ He).
Qed.
Lemma trees_extend s new s' h ts : extends s new s' → Forall (tree_at (nodes s) h) ts → Forall (tree_at (nodes s') h) ts.
Proof. intros He Ht. eapply Forall_impl; [exact Ht|]. intros t. by eapply tree_extends. Qed.

(** two good nodes, or one, with the children [ts] and the sequence [F] *)
Record halves (m : gmap Z obj) (h : nat) (ts : list bt) (F : list token) (a1 a2 : Z) (t1 : bt) (k : Z) (t2 : bt) : Prop := {
  ha_addr : addr t1 = a1 ∧ addr t2 = a2;
  ha_at : tree_at m h t1 ∧ tree_at m h t2;
  ha_wf : wf false h t1 ∧ wf false h t2;
  ha_good : bad false t1 = false ∧ bad false t2 = false;
  ha_kids : kids t1 ++ kids t2 = ts;
  ha_flat : respaced F (flat t1 ++ TS k :: flat t2);
}.
Record whole (m : gmap Z obj) (h : nat) (ts : list bt) (F : list token) (a : Z) (t : bt) : Prop := {
  wh_addr : addr t = a;
  wh_at : tree_at m h t;
  wh_wf : wf false h t;
  wh_good : bad false t = false;
  wh_kids : kids t = ts;
  wh_flat : respaced F (flat t);
}.

Lemma wp_halves_leaf {A} n gkv es (K : Z * Z * Z → prog state A) Q s : n = len es → reads s gkv es →
  lmin < len es / 2 → len es - len es / 2 < lcap →
  (∀ a1 a2 t1 k t2 s', extends s [a1; a2] s' → halves (nodes s') 0 [] (TE <$> es) a1 a2 t1 k t2 →
     wp (K (a1, k, a2)) Q s') →
  wp (split_mid_leaf hd kvsz alloc n gkv ≫= K) Q s.
Proof.
  intros Hn Hr Hlo Hhi HK. pose proof (lmin_bounds hd kvsz) as [Hm1 Hm2].
  eapply wp_split_mid_leaf; [done|exact Hn|Z.div_mod_to_equations; lia|lia|exact Hr|].
  intros a1 a2 e1 k v e2 s' He Hes Hl1 H1 H2.
  assert (len ((k, v) :: e2) = len es - len es / 2) as Hl2 by (rewrite <-Hl1, Hes, length_app; lia).
  assert (lmin < len e1 < lcap ∧ lmin < len ((k, v) :: e2) < lcap) as [Hb1 Hb2].
  { rewrite Hl1, Hl2. Z.div_mod_to_equations; lia. }
  apply (HK a1 a2 (BL a1 e1) k (BL a2 ((k, v) :: e2)) s'); [done|]. split; [done|done| | |done|].
  - cbn [BTreeProof.wf]. lia.
  - cbn [BTreeProof.bad]. by rewrite !leaf_status_ok.
  - simpl. rewrite Hes, fmap_app. apply respaced_add.
Qed.

Lemma wp_halves_node {A} n gk gc ks ts h (K : Z * Z * Z → prog state A) Q s : n = len ts →
  length ts = S (length ks) → reads s gk ks → reads s gc (map addr ts) → Forall (tree_at (nodes s) h) ts →
  Forall (wf false h) ts → nmin < len ts / 2 → len ts - len ts / 2 < ncap →
  (∀ a1 a2 t1 k t2 s', extends s [a1; a2] s' →
     halves (nodes s') (S h) ts (ilv (map flat ts) ks) a1 a2 t1 k t2 → wp (K (a1, k, a2)) Q s') →
  wp (split_mid hd lk ksz alloc n gk gc ≫= K) Q s.
Proof.
  intros Hn Hl Hk Hc Ht Hw Hlo Hhi HK. pose proof (nmin_bounds hd lk ksz) as [Hm1 Hm2].
  eapply (wp_split_mid hd lk ksz alloc tid n gk gc ks (map addr ts));
    rewrite ?length_map; [done|done|Z.div_mod_to_equations; lia|lia|exact Hk|exact Hc|].
  intros a1 a2 k1 k k2 c1 c2 s' He Hks Hcs Hl1 H1 H2.
  apply map_eq_app in Hcs as (ts1 & ts2 & -> & <- & <-). rewrite length_map in Hl1.
  assert (len ts2 = len (ts1 ++ ts2) - len (ts1 ++ ts2) / 2) as Hl2 by (rewrite <-Hl1, length_app; lia).
  assert (nmin < len ts1 < ncap ∧ nmin < len ts2 < ncap) as [Hb1 Hb2].
  { rewrite Hl1, Hl2. Z.div_mod_to_equations; lia. }
  rewrite !length_map in H1, H2. rewrite Hks, !length_app in Hl. simpl in Hl.
  destruct H1 as (pk1 & pc1 & H1 & HL1), H2 as (pk2 & pc2 & H2 & HL2). rewrite length_map in HL1, HL2.
  apply (trees_extend _ _ _ _ _ He) in Ht. apply Forall_app in Ht as [Ht1 Ht2]. apply Forall_app in Hw as [Hw1 Hw2].
  apply (HK a1 a2 (BN a1 (node_status hd lk ksz (len ts1)) k1 ts1) k (BN a2 (node_status hd lk ksz (len ts2)) k2 ts2) s');
    [done|]. split; [done| | | |done|].
  - split; (split; [|done]); [exists pk1, pc1|exists pk2, pc2]; by rewrite !length_map in *.
  - cbn [BTreeProof.wf]. split; (split; [done|]; split; [lia|]; split; [|done]; split; [lia|done]).
  - cbn [BTreeProof.bad]. by rewrite !node_status_ok.
  - simpl. rewrite Hks, map_app, ilv_app by (by rewrite length_map). apply respaced_refl.
Qed.

Lemma wp_split_leaf {A} c es (K : Z * Z * Z → prog state A) Q s : leaf_at hd kvsz (nodes s) c es → len es = lcap →
  (∀ a1 a2 t1 k t2 s', extends s [a1; a2] s' → halves (nodes s') 0 [] (TE <$> es) a1 a2 t1 k t2 →
     wp (K (a1, k, a2)) Q s') →
  wp (split_leaf hd kvsz alloc c ≫= K) Q s.
Proof.
  intros Hc Hfull HK. pose proof (lmin_bounds hd kvsz). pose proof (cap_large hd kvsz).
  unfold split_leaf. apply wp_assoc. eapply wp_as_leaf; [exact Hc|]. intros pad. cbn beta iota.
  rewrite Hfull, Z.eqb_refl. cbn [negb].
  eapply wp_halves_leaf; [by rewrite Hfull|apply reads_get|Z.div_mod_to_equations; lia|Z.div_mod_to_equations; lia|done].
Qed.
Lemma wp_split {A} c st ks ts h (K : Z * Z * Z → prog state A) Q s : tree_at (nodes s) (S h) (BN c st ks ts) →
  length ts = S (length ks) → Forall (wf false h) ts → len ts = ncap →
  (∀ a1 a2 t1 k t2 s', extends s [a1; a2] s' → halves (nodes s') (S h) ts (flat (BN c st ks ts)) a1 a2 t1 k t2 →
     wp (K (a1, k, a2)) Q s') →
  wp (split hd lk ksz alloc c ≫= K) Q s.
Proof.
  intros [Hc Ht] Hl Hw Hfull HK. pose proof (nmin_bounds hd lk ksz). pose proof (ncap_large hd lk ksz).
  unfold split. apply wp_assoc. eapply wp_as_node; [exact Hc|]. intros pad. cbn beta iota.
  rewrite length_map, Hfull, Z.eqb_refl. cbn [negb].
  eapply wp_halves_node; [by rewrite Hfull|exact Hl|apply reads_get|by eapply reads_children|exact Ht|exact Hw| | |done];
    Z.div_mod_to_equations; lia.
Qed.

(** two neighbours *)
Lemma reads_both_entries s es1 es2 p1 p2 : reads s (both_entries (len es1) (es1 ++ p1) (es2 ++ p2)) (es1 ++ es2).
Proof. eapply reads_both; [done|apply (reads_get _ _ es1 p1)|apply (reads_get _ _ es2 p2)|]. done. Qed.
Lemma reads_both_keys s n1 ks1 k ks2 p1 p2 : n1 = Z.of_nat (S (length ks1)) →
  reads s (both_keys n1 (ks1 ++ p1) k (ks2 ++ p2)) (ks1 ++ k :: ks2).
Proof.
  intros ->. replace (ks1 ++ k :: ks2) with ((ks1 ++ [k]) ++ ks2) by (by rewrite <-app_assoc).
  eapply (reads_both tid s (λ i, if i =? len ks1 then mret k else lift (get (ks1 ++ p1) i))
    (λ i, lift (get (ks2 ++ p2) i)) _ _ _ (Z.of_nat (S (length ks1)))); [rewrite length_app; simpl; lia| |apply reads_get|].
  - intros s1 new He i j x -> Hj. apply lookup_app_Some in Hj as [Hj|[Hle Hj]].
    + rewrite (proj2 (Z.eqb_neq _ _)) by (apply lookup_lt_Some in Hj; lia). by eapply (reads_get tid s).
    + apply list_lookup_singleton_Some in Hj as [Hj <-]. by rewrite (proj2 (Z.eqb_eq _ _)) by lia.
  - intros i. unfold both_keys. replace (Z.of_nat (S (length ks1)) - 1) with (len ks1) by lia.
    repeat case_bool; try done; lia.
Qed.
Lemma reads_both_children s p1 st1 ks1 cs1 p2 st2 ks2 cs2 : node_at (nodes s) p1 st1 ks1 cs1 →
  node_at (nodes s) p2 st2 ks2 cs2 → reads s (both_children p1 (len cs1) p2) (cs1 ++ cs2).
Proof.
  intros H1 H2. eapply reads_both; [done|by eapply reads_children|by eapply reads_children|]. done.
Qed.

Lemma wp_rebalance_leaf {A} l r es1 es2 (K : Z * Z * Z → prog state A) Q s : leaf_at hd kvsz (nodes s) l es1 →
  leaf_at hd kvsz (nodes s) r es2 → 4 * lmin ≤ len es1 + len es2 ≤ lmin + lcap →
  (∀ a1 a2 t1 k t2 s', extends s [a1; a2] s' → halves (nodes s') 0 [] (TE <$> (es1 ++ es2)) a1 a2 t1 k t2 →
     wp (K (a1, k, a2)) Q s') →
  wp (rebalance_leaf hd kvsz alloc l r ≫= K) Q s.
Proof.
  intros Hl Hr Hsum HK. pose proof (lmin_bounds hd kvsz). pose proof (cap_large hd kvsz).
  unfold rebalance_leaf. apply wp_assoc. eapply wp_as_leaf; [exact Hl|]. intros p1. cbn beta iota.
  apply wp_assoc. eapply wp_as_leaf; [exact Hr|]. intros p2. cbn beta iota.
  eapply (wp_halves_leaf _ _ (es1 ++ es2)); [rewrite length_app; lia|apply reads_both_entries| | |done];
    rewrite length_app, Nat2Z.inj_add; Z.div_mod_to_equations; lia.
Qed.
Lemma wp_join_leaf {A} l r es1 es2 (K : Z → prog state A) Q s : leaf_at hd kvsz (nodes s) l es1 →
  leaf_at hd kvsz (nodes s) r es2 → lmin < len es1 + len es2 < lcap →
  (∀ a t s', extends s [a] s' → whole (nodes s') 0 [] (TE <$> (es1 ++ es2)) a t → wp (K a) Q s') →
  wp (join_leaf hd kvsz alloc l r ≫= K) Q s.
Proof.
  intros Hl Hr Hsum HK. unfold join_leaf. apply wp_assoc. eapply wp_as_leaf; [exact Hl|]. intros p1. cbn beta iota.
  apply wp_assoc. eapply wp_as_leaf; [exact Hr|]. intros p2. cbn beta iota.
  apply wp_assoc. eapply (btree_wp_collect _ _ (es1 ++ es2)); [apply reads_both_entries|rewrite length_app; lia|].
  assert (len (es1 ++ es2) = len es1 + len es2) as Hlen by (rewrite length_app; lia).
  rewrite <-(app_nil_r (es1 ++ es2)). eapply (wp_new_leaf hd kvsz alloc tid _ (es1 ++ es2) []); [lia|rewrite app_nil_r; lia|].
  intros a s' He Ha. apply (HK a (BL a (es1 ++ es2)) s'); [done|]. split; [done|done| | |done|apply respaced_refl].
  - cbn [BTreeProof.wf]. lia.
  - cbn [BTreeProof.bad]. by rewrite leaf_status_ok by lia.
Qed.

Lemma wp_rebalance {A} l r st1 st2 ks1 k ks2 ts1 ts2 h (K : Z * Z * Z → prog state A) Q s :
  tree_at (nodes s) (S h) (BN l st1 ks1 ts1) → tree_at (nodes s) (S h) (BN r st2 ks2 ts2) →
  length ts1 = S (length ks1) → length ts2 = S (length ks2) → Forall (wf false h) ts1 → Forall (wf false h) ts2 →
  4 * nmin ≤ len ts1 + len ts2 ≤ nmin + ncap →
  (∀ a1 a2 t1 k' t2 s', extends s [a1; a2] s' →
     halves (nodes s') (S h) (ts1 ++ ts2) (flat (BN l st1 ks1 ts1) ++ TS k :: flat (BN r st2 ks2 ts2)) a1 a2 t1 k' t2 →
     wp (K (a1, k', a2)) Q s') →
  wp (rebalance hd lk ksz alloc l k r ≫= K) Q s.
Proof.
  intros [Hl Ht1] [Hr Ht2] Hl1 Hl2 Hw1 Hw2 Hsum HK. pose proof (nmin_bounds hd lk ksz). pose proof (ncap_large hd lk ksz).
  unfold rebalance. apply wp_assoc. eapply wp_as_node; [exact Hl|]. intros p1. cbn beta iota.
  apply wp_assoc. eapply wp_as_node; [exact Hr|]. intros p2. cbn beta iota.
  eapply (wp_halves_node _ _ _ (ks1 ++ k :: ks2) (ts1 ++ ts2)).
  - rewrite !length_map, length_app. lia.
  - rewrite !length_app. simpl. lia.
  - apply reads_both_keys. by rewrite length_map, Hl1.
  - rewrite map_app. eapply reads_both_children; [exact Hl|exact Hr].
  - by apply Forall_app.
  - by apply Forall_app.
  - rewrite length_app, Nat2Z.inj_add. Z.div_mod_to_equations; lia.
  - rewrite length_app, Nat2Z.inj_add. Z.div_mod_to_equations; lia.
  - rewrite map_app, ilv_app by (by rewrite length_map). exact HK.
Qed.
Lemma wp_join {A} l r st1 st2 ks1 k ks2 ts1 ts2 h (K : Z → prog state A) Q s :
  tree_at (nodes s) (S h) (BN l st1 ks1 ts1) → tree_at (nodes s) (S h) (BN r st2 ks2 ts2) →
  length ts1 = S (length ks1) → length ts2 = S (length ks2) → Forall (wf false h) ts1 → Forall (wf false h) ts2 →
  nmin < len ts1 + len ts2 < ncap →
  (∀ a t s', extends s [a] s' →
     whole (nodes s') (S h) (ts1 ++ ts2) (flat (BN l st1 ks1 ts1) ++ TS k :: flat (BN r st2 ks2 ts2)) a t → wp (K a) Q s') →
  wp (join hd lk ksz alloc l k r ≫= K) Q s.
Proof.
  intros [Hl Ht1] [Hr Ht2] Hl1 Hl2 Hw1 Hw2 Hsum HK.
  unfold join. apply wp_assoc. eapply wp_as_node; [exact Hl|]. intros p1. cbn beta iota.
  apply wp_assoc. eapply wp_as_node; [exact Hr|]. intros p2. cbn beta iota.
  assert (len (ts1 ++ ts2) = len ts1 + len ts2) as Hlen by (rewrite length_app; lia).
  eapply (wp_copy_with hd lk ksz alloc tid _ _ _ (ks1 ++ k :: ks2) (map addr (ts1 ++ ts2))).
  - rewrite !length_map, length_app. lia.
  - rewrite length_map, !length_app. simpl. lia.
  - rewrite length_map. lia.
  - apply reads_both_keys. by rewrite length_map, Hl1.
  - rewrite map_app. eapply reads_both_children; [exact Hl|exact Hr].
  - intros a s' He (pk & pc & Ha & Hla).
    apply (HK a (BN a (node_status hd lk ksz (len (ts1 ++ ts2))) (ks1 ++ k :: ks2) (ts1 ++ ts2)) s'); [done|].
    split; [done| | | |done|].
    + split; [exists pk, pc|]. { rewrite !length_map in *. by rewrite <-Nat2Z.inj_add, <-length_app in Ha. }
      eapply trees_extend; [exact He|]. by apply Forall_app.
    + cbn [BTreeProof.wf]. rewrite !length_app in *. simpl. split; [lia|]. split; [lia|]. split; [split; [lia|done]|by apply Forall_app].
    + cbn [BTreeProof.bad]. by rewrite node_status_ok by lia.
    + simpl. rewrite map_app, ilv_app by (by rewrite length_map). apply respaced_refl.
Qed.

(** *** The parent with its new children *)
Lemma wp_add_child {A} p st ks1 ks2 cs1 c cs2 a1 k a2 (K : Z → prog state A) Q s :
  node_at (nodes s) p st (ks1 ++ ks2) (cs1 ++ c :: cs2) → length ks1 = length cs1 → length ks2 = length cs2 →
  len (cs1 ++ c :: cs2) < ncap →
  (∀ a s', extends s [a] s' → node_at (nodes s') a (node_status hd lk ksz (len (cs1 ++ a1 :: a2 :: cs2)))
     (ks1 ++ k :: ks2) (cs1 ++ a1 :: a2 :: cs2) → wp (K a) Q s') →
  wp (add_child hd lk ksz alloc p (a1, k, a2) (len cs1) ≫= K) Q s.
Proof.
  intros Hp Hl1 Hl2 Hlt HK. unfold add_child. apply wp_assoc. eapply wp_as_node; [exact Hp|]. intros pk. cbn beta iota.
  rewrite (proj2 (Z.ltb_lt _ _)) by done. cbn [negb].
  assert (len (cs1 ++ a1 :: a2 :: cs2) = len (cs1 ++ c :: cs2) + 1) as Hlen by (rewrite !length_app; simpl; lia).
  rewrite !length_app in Hlt. simpl in Hlt.
  eapply (wp_copy_with hd lk ksz alloc tid _ _ _ (ks1 ++ k :: ks2) (cs1 ++ a1 :: a2 :: cs2)).
  - done.
  - rewrite !length_app. simpl. lia.
  - rewrite !length_app. simpl. lia.
  - eapply (reads_add tid s (λ i, lift (get ((ks1 ++ ks2) ++ pk) i))); [by rewrite Hl1|apply reads_get|done].
  - eapply (reads_add tid s (λ i, if i =? len cs1 then mret a2 else load (child_c p i))); [done| |].
    + eapply reads_set; [done|by eapply reads_children|done].
    + intros i. cbn beta. repeat case_bool; try done; lia.
  - rewrite <-Hlen. exact HK.
Qed.
Lemma wp_join_children {A} p st ks1 k ks2 cs1 x y cs2 c (K : Z → prog state A) Q s :
  node_at (nodes s) p st (ks1 ++ k :: ks2) (cs1 ++ x :: y :: cs2) → length ks1 = length cs1 → length ks2 = length cs2 →
  len (cs1 ++ c :: cs2) ≤ ncap →
  (∀ a s', extends s [a] s' → node_at (nodes s') a (node_status hd lk ksz (len (cs1 ++ c :: cs2)))
     (ks1 ++ ks2) (cs1 ++ c :: cs2) → wp (K a) Q s') →
  wp (join_children hd lk ksz alloc p c (len cs1) ≫= K) Q s.
Proof.
  intros Hp Hl1 Hl2 Hle HK. unfold join_children. apply wp_assoc. eapply wp_as_node; [exact Hp|]. intros pk. cbn beta iota.
  assert (len (cs1 ++ c :: cs2) = len (cs1 ++ x :: y :: cs2) - 1) as Hlen by (rewrite !length_app; simpl; lia).
  eapply (wp_copy_with hd lk ksz alloc tid _ _ _ (ks1 ++ ks2) (cs1 ++ c :: cs2)).
  - done.
  - rewrite !length_app. simpl. lia.
  - done.
  - eapply (reads_drop tid s (λ i, lift (get ((ks1 ++ k :: ks2) ++ pk) i))); [by rewrite Hl1|apply reads_get|done].
  - eapply (reads_set tid s (λ i, if i <? len cs1 then load (child_c p i) else load (child_c p (i + 1)))); [done| |].
    + eapply reads_drop; [done|by eapply reads_children|done].
    + intros i. cbn beta. repeat case_bool; try done; lia.
  - rewrite <-Hlen. exact HK.
Qed.
Lemma wp_rebalance_children {A} p st ks1 k ks2 cs1 x y cs2 a1 k' a2 (K : Z → prog state A) Q s :
  node_at (nodes s) p st (ks1 ++ k :: ks2) (cs1 ++ x :: y :: cs2) → length ks1 = length cs1 → length ks2 = length cs2 →
  len (cs1 ++ x :: y :: cs2) ≤ ncap →
  (∀ a s', extends s [a] s' → node_at (nodes s') a (node_status hd lk ksz (len (cs1 ++ a1 :: a2 :: cs2)))
     (ks1 ++ k' :: ks2) (cs1 ++ a1 :: a2 :: cs2) → wp (K a) Q s') →
  wp (rebalance_children hd lk ksz alloc p (a1, k', a2) (len cs1) ≫= K) Q s.
Proof.
  intros Hp Hl1 Hl2 Hle HK. unfold rebalance_children. apply wp_assoc. eapply wp_as_node; [exact Hp|]. intros pk. cbn beta iota.
  assert (len (cs1 ++ a1 :: a2 :: cs2) = len (cs1 ++ x :: y :: cs2)) as Hlen by (rewrite !length_app; simpl; lia).
  eapply (wp_copy_with hd lk ksz alloc tid _ _ _ (ks1 ++ k' :: ks2) (cs1 ++ a1 :: a2 :: cs2)).
  - done.
  - rewrite !length_app. simpl. lia.
  - lia.
  - eapply (reads_set tid s (λ i, lift (get ((ks1 ++ k :: ks2) ++ pk) i))); [by rewrite Hl1|apply reads_get|done].
  - eapply (reads_set tid s (λ i, if i =? len cs1 + 1 then mret a2 else load (child_c p i))); [done| |done].
    replace (cs1 ++ x :: a2 :: cs2) with ((cs1 ++ [x]) ++ a2 :: cs2) by (by rewrite <-app_assoc).
    eapply (reads_set tid s (λ i, load (child_c p i)) _ (cs1 ++ [x]) y a2 cs2 (len cs1 + 1)); [rewrite length_app; simpl; lia| |done].
    rewrite <-app_assoc. by eapply reads_children.
  - rewrite <-Hlen. exact HK.
Qed.
End pieces.
