(* ===== verification/BTreeFix.v ===== *)
(** * BTreeFix: the fixes of [BTree] keep a tree a tree, and leave less to fix. *)

From stdpp Require Import prelude list gmap.
From Stdlib Require Import ZArith Lia Sorted.
From S2P Require Import Prelude Conc SpinLock Store MapSpec Arrays BTree BTreeNodes BTreeProof.
Import BTree.
Local Open Scope Z_scope.
#[local] Abbreviation KV := (Z * Z)%type.

Section fix_nodes.
Context (hd lk ksz kvsz : Z) (alloc : gmap Z obj → Z) {fresh : Allocator alloc} (tid : nat) (tid_ok : small_tid tid).
#[local] Abbreviation state := (store_state obj).
#[local] Abbreviation lcap := (leaf_block_size hd kvsz).
#[local] Abbreviation lmin := (leaf_min_size hd kvsz).
#[local] Abbreviation ncap := (node_block_size hd lk ksz).
#[local] Abbreviation nmin := (node_min_size hd lk ksz).
#[local] Abbreviation len l := (Z.of_nat (length l)).
#[local] Abbreviation tree_at := (tree_at hd kvsz).
#[local] Abbreviation at_tree := (at_tree hd lk ksz kvsz).
#[local] Abbreviation wf := (wf hd lk ksz kvsz).
#[local] Abbreviation bad := (bad hd kvsz).
#[local] Abbreviation extends := (extends tid).
Implicit Types s : state.

(** the tree [t] of height [h] is fixed *)
Definition fixed (root : Z) (h : nat) (t : bt) (m : gmap Z obj) : Prop :=
  ∃ h' t', at_tree root h' t' m ∧ better hd kvsz h t h' t'.

Lemma refixed root C h p st ks1 km ks2 ts1 mid ts2 p' km' mid' gone new s s3 m2 o :
  let told := BN p st (ks1 ++ km ++ ks2) (ts1 ++ mid ++ ts2) in
  let n' := len (ts1 ++ mid' ++ ts2) in
  let tnew := BN p' (node_status hd lk ksz n') (ks1 ++ km' ++ ks2) (ts1 ++ mid' ++ ts2) in
  at_tree root (length C + S h) (plug C told) (nodes s) → Forall frame_ok C → bad (top C) told = false →
  length ks1 = length ts1 → length mid = S (length km) → length mid' = S (length km') →
  n' ≤ ncap → (top C = false → nmin ≤ n') → Forall (wf false h) mid' →
  Forall (λ t, bad false t = false) mid' → Exists (λ t, bad false t = true) mid →
  concat (map kids mid') = concat (map kids mid) → respaced (ilv (map flat mid) km) (ilv (map flat mid') km') →
  extends s new s3 → node_at (nodes s3) p' (node_status hd lk ksz n') (ks1 ++ km' ++ ks2) (map addr (ts1 ++ mid' ++ ts2)) →
  Forall (tree_at (nodes s3) h) mid' →
  concat (map addrs mid') ++ p' :: gone ≡ₚ new ++ p :: concat (map addrs mid) →
  nodes s !! (hole root C).1 = Some o → m2 !! (hole root C).1 = Some (set_child (hole root C).2 p' o) →
  (∀ y, y ≠ (hole root C).1 → y ∉ gone → is_Some (nodes s3 !! y) → m2 !! y = nodes s3 !! y) →
  fixed root (length C + S h) (plug C told) m2.
Proof.
  intros told n' tnew Hat HC Hgood Hk1 Hkm Hkm' Hcap Hmin Hwm Hgm Hbm Hkids Hre He Hp' Htm Hperm Hm Hm2 Hsame.
  destruct (at_split _ _ _ _ _ _ _ _ _ Hat) as (_ & Htold & Hw & _).
  destruct (refit hd lk ksz kvsz (top C) h (1 + length C) p st ks1 km ks2 ts1 mid ts2 p' km' mid')
    as (Hw' & Hre' & Hn & Hd); [done..|].
  destruct (plug_respaced C told tnew HC Hre' (at_ordered _ _ _ _ _ _ _ _ Hat)) as [Ho' _].
  exists (length C + S h)%nat, (plug C tnew). split; [|by apply plug_better].
  eapply (linked hd lk ksz kvsz root C (S h) told tnew gone new tid s s3); try done.
  - split; [exact Hp'|]. destruct Htold as [_ Ht]. eapply trees_extend in Ht; [|exact He].
    rewrite !Forall_app in *. tauto.
  - simpl. rewrite !map_app, !concat_app.
    transitivity (concat (map addrs ts1) ++ (concat (map addrs mid') ++ p' :: gone) ++ concat (map addrs ts2));
      [solve_Permutation|]. rewrite Hperm. solve_Permutation.
Qed.

(** a retired object marked as removed *)
Lemma wp_mark {A} y st rm n ks ch (K : unit → prog state A) Q s : nodes s !! y = Some (node st rm n ks ch) →
  wp (K tt) Q (set_nodes (<[y := node st true n ks ch]> (nodes s)) s) → wp (store (removed_c y) true ≫= K) Q s.
Proof. intros Hy HK. eapply wp_write; [exact Hy|done|exact HK]. Qed.

(** the test that a node is still where it was found *)
Lemma btree_wp_still_child {A} root C h q (K : bool → prog state A) Q s : ctx_at hd kvsz (nodes s) root h C q →
  NoDup (root :: caddrs C) → wp (K true) Q s → wp (still_child (hole root C).1 (hole root C).2 q ≫= K) Q s.
Proof.
  intros Hc Hnd HK. destruct (ctx_hole _ _ _ _ _ _ _ Hc Hnd) as (st & n & ks & ch & Hm & Hg & _).
  unfold still_child, child_c. apply wp_assoc. eapply wp_read; [exact Hm|done|]. cbn beta iota.
  apply wp_assoc. eapply wp_read; [exact Hm|exact Hg|]. rewrite Z.eqb_refl. exact HK.
Qed.

(** a frame's child in memory *)
Lemma wp_child {A} p st ks cs j x (K : Z → prog state A) Q s i : node_at (nodes s) p st ks cs → cs !! j = Some x →
  i = Z.of_nat j → wp (K x) Q s → wp (load (child_c p i) ≫= K) Q s.
Proof.
  intros Hp Hj Hi HK. eapply (wp_reads tid (λ i, load (child_c p i)) cs); [by eapply reads_children|done|done|done].
Qed.

Lemma node_at_lookup m p st ks cs : node_at m p st ks cs → ∃ n ks' cs', m !! p = Some (node st false n ks' cs').
Proof. intros (pk & pc & Hm & _). eauto. Qed.

(** the nodes involved in a fix are different *)
Lemma fix_distinct root C h p st ks ts m c : at_tree root (length C + S h) (plug C (BN p st ks ts)) m → c ∈ ts →
  p ≠ (hole root C).1 ∧ addr c ≠ (hole root C).1 ∧ addr c ≠ p.
Proof.
  intros Hat Hin. destruct (at_split _ _ _ _ _ _ _ _ _ Hat) as (_ & _ & _ & _ & Hnd & Hdis).
  simpl in Hnd. apply NoDup_cons in Hnd as [Hp _].
  assert (addr c ∈ concat (map addrs ts)) as Hc by (apply elem_addrs; exists c; split; [done|destruct c; by left]).
  assert (∀ q, q ∈ addrs (BN p st ks ts) → q ≠ (hole root C).1) as Hne.
  { intros q Hq ->. by apply (Hdis _ (btree_hole_in root C)). }
  split_and!; [apply Hne; by left|apply Hne; simpl; by right|]. by intros Heq; rewrite Heq in Hc.
Qed.

Lemma addrs_kids t : addrs t = addr t :: concat (map addrs (kids t)).
Proof. by destruct t. Qed.
Lemma siblings_distinct p st ks t1 c1 c2 t2 : NoDup (addrs (BN p st ks (t1 ++ c1 :: c2 :: t2))) → addr c1 ≠ addr c2.
Proof.
  simpl. rewrite map_app, concat_app. simpl. intros [_ (_ & _ & Hnd)%NoDup_app]%NoDup_cons.
  apply NoDup_app in Hnd as (_ & Hd & _). intros Heq. apply (Hd (addr c1)); [destruct c1; by left|].
  apply elem_of_app. left. rewrite Heq. destruct c2; by left.
Qed.

(** a node that is passed by has room for a child *)
Lemma good_room root h p st ks ts : wf root (S h) (BN p st ks ts) → bad root (BN p st ks ts) = false →
  len ts < ncap ∧ (root = false → nmin < len ts) ∧ (root = true → len ts ≠ 1).
Proof.
  intros (Hl & Hc & Hst & _) Hgood. pose proof (nmin_bounds hd lk ksz). pose proof (ncap_large hd lk ksz).
  pose proof (node_status_spec hd lk ksz (len ts) ltac:(lia)) as Hs. cbn [BTreeProof.bad] in Hgood. destruct root.
  - apply orb_false_iff in Hgood as [Hno H1]. apply bool_decide_eq_false in Hno. apply Z.eqb_neq in H1.
    split; [|split; [done|intros _; exact H1]]. destruct Hst as [Heq|[_ Heq]]; [|lia]. rewrite Heq in Hno.
    destruct (node_status hd lk ksz (len ts)); [done|lia|lia].
  - destruct Hst as [Hm Heq]. rewrite Heq in Hgood. apply negb_false_iff, bool_decide_eq_true in Hgood.
    rewrite Hgood in Hs. split; [lia|]. split; [lia|done].
Qed.

(** the status in a node's object *)
Lemma node_bad h t m o : tree_at m h t → wf false h t → m !! addr t = Some o →
  is_leaf o = (match t with BL _ _ => true | BN _ _ _ _ => false end) ∧
  size_of o = (match t with BL _ es => len es | BN _ _ _ ts => len ts end) ∧
  (bad false t = true ↔ status_of o ≠ OK) ∧
  (status_of o = isOver → match t with BL _ es => len es = lcap | BN _ _ _ ts => len ts = ncap end) ∧
  (status_of o = isUnder → match t with BL _ es => len es = lmin | BN _ _ _ ts => len ts = nmin end).
Proof.
  intros Ht Hw Ho. destruct h as [|h], t as [a es|a st ks ts]; try done.
  - destruct Ht as (pad & Hm). simpl in Ho. rewrite Hm in Ho. injection Ho as <-. simpl in *.
    pose proof (leaf_status_spec hd kvsz (len es) ltac:(lia)) as Hs.
    destruct (leaf_status hd kvsz (len es)); simpl; repeat split; try done.
  - destruct Ht as [(pk & pc & Hm & Hl) _]. simpl in Ho. rewrite Hm in Ho. injection Ho as <-. simpl in *.
    rewrite length_map in *. destruct Hw as (_ & Hc & (_ & Hst) & _). subst st.
    pose proof (node_status_spec hd lk ksz (len ts) ltac:(lia)) as Hs.
    destruct (node_status hd lk ksz (len ts)); simpl; repeat split; try done.
Qed.

(** *** A full node *)
Lemma split_fixed root C h f t s s3 s4 a1 a2 a3 t1 k t2 m2 o : let T := plug C (fplug f t) in
  at_tree root (length C + S h) T (nodes s) → Forall frame_ok C → frame_ok f →
  bad (top C) (fplug f t) = false → bad false t = true → extends s [a1; a2] s3 →
  halves hd lk ksz kvsz (nodes s3) h (kids t) (flat t) a1 a2 t1 k t2 → extends s3 [a3] s4 →
  node_at (nodes s4) a3 (node_status hd lk ksz (len (map addr (f_ts1 f) ++ a1 :: a2 :: map addr (f_ts2 f))))
    (f_ks1 f ++ k :: f_ks2 f) (map addr (f_ts1 f) ++ a1 :: a2 :: map addr (f_ts2 f)) →
  nodes s !! (hole root C).1 = Some o → m2 !! (hole root C).1 = Some (set_child (hole root C).2 a3 o) →
  (∀ y, y ≠ (hole root C).1 → y ∉ [f_addr f; addr t] → is_Some (nodes s4 !! y) → m2 !! y = nodes s4 !! y) →
  fixed root (length C + S h) T m2.
Proof.
  intros T Hat HC [Hf1 Hf2] Hgood Hbad He3 [[Ha1 Ha2] [Ht1 Ht2] [Hw1 Hw2] [Hg1 Hg2] Hk Hfl] He4 Hn Hg Hm2 Hsame.
  destruct (at_split _ _ _ _ _ _ _ _ _ Hat) as (_ & _ & Hwold & _).
  destruct (good_room _ _ _ _ _ _ Hwold Hgood) as (Hroom & Hmin & _).
  assert (len (f_ts1 f ++ [t1; t2] ++ f_ts2 f) = len (f_ts1 f ++ t :: f_ts2 f) + 1) as Hlen
    by (rewrite !length_app; simpl; lia).
  assert (map addr (f_ts1 f ++ [t1; t2] ++ f_ts2 f) = map addr (f_ts1 f) ++ a1 :: a2 :: map addr (f_ts2 f)) as Hmap
    by (by rewrite map_app; simpl; rewrite Ha1, Ha2).
  rewrite <-Hmap, length_map in Hn.
  eapply (refixed root C h (f_addr f) (f_st f) (f_ks1 f) [] (f_ks2 f) (f_ts1 f) [t] (f_ts2 f) a3 [k] [t1; t2]
    [f_addr f; addr t] ([a1; a2] ++ [a3]) s s4); try done.
  - rewrite Hlen. lia.
  - intros Htop. rewrite Hlen. specialize (Hmin Htop). lia.
  - by repeat constructor.
  - by repeat constructor.
  - by repeat constructor.
  - simpl. by rewrite !app_nil_r.
  - simpl. by rewrite !app_nil_r.
  - by eapply extends_trans.
  - repeat constructor; by eapply tree_extends.
  - simpl. rewrite !app_nil_r, !(addrs_kids t1), !(addrs_kids t2), (addrs_kids t), <-Hk, map_app, concat_app, Ha1, Ha2.
    solve_Permutation.
Qed.

(** after a fix: the locked nodes are there, the locks are held, nodes other
    than the ones assigned are as they were *)
Ltac still_locked He :=
  let y := fresh "y" in let Hy := fresh "Hy" in
  eapply still_there; [exact He|by repeat constructor; eexists|];
  intros y Hy; simpl; by repeat (apply lookup_insert_is_Some'; right).
Ltac still_held He := eapply locks_held; [exact He|eassumption|by repeat constructor; eexists|done].
Ltac mark_kept He := eapply wp_mark; [simpl; rewrite !lookup_insert_ne by done; by apply (ex_keep _ _ _ _ He)|].

Lemma overfull_wp root C h f t s : let T := plug C (fplug f t) in
  at_tree root (length C + S h) T (nodes s) → Forall frame_ok C → frame_ok f → holding tid ∅ s →
  bad (top C) (fplug f t) = false → (∃ o, nodes s !! addr t = Some o ∧ status_of o = isOver) →
  wp (overfull_node hd lk ksz kvsz alloc tid (hole root C).1 (hole root C).2 (f_addr f) (len (f_ts1 f)) (addr t))
    (λ _ s', fixed root (length C + S h) T (nodes s') ∧ holding tid ∅ s') s.
Proof.
  intros T Hat HC [Hf1 Hf2] Hh Hgood (o & Ho & Hover).
  destruct (at_split _ _ _ _ _ _ _ _ _ Hat) as (Hc & Htold & Hwold & Hnd1 & _).
  destruct (ctx_hole _ _ _ _ _ _ _ Hc Hnd1) as (gst & gn & gks & gch & Hg & Hget & _).
  destruct Htold as [Hp Hts]. pose proof (good_room _ _ _ _ _ _ Hwold Hgood) as (Hroom & Hmin & _).
  pose proof Hwold as (_ & _ & _ & Hws).
  destruct (fix_distinct _ _ _ _ _ _ _ _ t Hat) as (Hpg & Hcg & Hcp); [apply elem_of_app; right; by left|].
  rewrite map_app in Hp. cbn [map] in Hp. apply Forall_app in Hts as [_ [Ht _]%Forall_cons].
  apply Forall_app in Hws as [_ [Hw _]%Forall_cons].
  destruct (node_bad _ _ _ _ Ht Hw Ho) as (Hleaf & _ & Hbad & Hfull & _). specialize (Hfull Hover).
  assert (bad false t = true) as Hbad' by (apply Hbad; by rewrite Hover).
  destruct (node_at_lookup _ _ _ _ _ Hp) as (pn & pks & pcs & Hpm).
  unfold overfull_node.
  eapply (wp_locked tid tid_ok (hole root C).1 [] _ _ (λ s', fixed root (length C + S h) T (nodes s') ∧ holding tid ∅ s'));
    [exact Hh|apply not_elem_of_nil|exact Hg|].
  intros s1 Hs1 Hh1. rewrite <-Hs1 in *. eapply btree_wp_still_child; [exact Hc|done|]. cbn [negb].
  eapply (wp_locked tid tid_ok); [exact Hh1|by rewrite list_elem_of_singleton|exact Hpm|].
  intros s2 Hs2 Hh2. rewrite <-Hs2 in *.
  eapply (wp_child _ _ _ _ (length (f_ts1 f)) (addr t)); [exact Hp|by rewrite list_lookup_middle by (by rewrite length_map)|done|].
  rewrite Z.eqb_refl. cbn [negb].
  eapply wp_read; [exact Ho|done|]. rewrite Hleaf, <-(length_map addr (f_ts1 f)).
  assert (len (map addr (f_ts1 f) ++ addr t :: map addr (f_ts2 f)) < ncap) as Hroom'.
  { rewrite !length_app, !length_map in *. simpl in *. rewrite length_map. exact Hroom. }
  destruct h as [|h'], t as [a es|a st ks ts]; try done.
  - eapply (wp_split_leaf hd lk ksz kvsz alloc tid); [exact Ht|exact Hfull|]. intros a1 a2 t1 k t2 s3 He3 Hha.
    eapply (wp_add_child hd lk ksz alloc tid); [by eapply node_at_extends|by rewrite length_map|by rewrite length_map|exact Hroom'|].
    intros a3 s4 He4 Hn. pose proof (extends_trans _ _ _ _ _ _ He3 He4) as He.
    eapply wp_write; [by apply (ex_keep _ _ _ _ He)|exact Hget|].
    mark_kept He.
    apply wp_retire. apply wp_retire. unfold wp; cbn [run mret prog_ret].
    apply (locked_nodes tid (fixed root (length C + 1) T)).
    + eapply split_fixed; [exact Hat|exact HC|by split|exact Hgood|exact Hbad'|exact He3|exact Hha|exact He4|exact Hn|exact Hg| |].
      * simpl. rewrite lookup_insert_ne by done. by rewrite lookup_insert_eq.
      * intros y Hy [Hy1 _]%not_elem_of_cons _. simpl. by rewrite !lookup_insert_ne by done.
    + still_locked He.
    + still_held He.
  - destruct (node_at_lookup _ _ _ _ _ (proj1 Ht)) as (cn & cks & ccs & Hcm). destruct Hw as (Hwl & Hwc & Hwst & Hwt).
    eapply (wp_locked tid tid_ok); [exact Hh2|by rewrite not_elem_of_cons, list_elem_of_singleton|exact Hcm|].
    intros s2' Hs2' Hh3. rewrite <-Hs2' in *.
    eapply (wp_split hd lk ksz kvsz alloc tid); [exact Ht|exact Hwl|exact Hwt|exact Hfull|]. intros a1 a2 t1 k t2 s3 He3 Hha.
    eapply (wp_add_child hd lk ksz alloc tid); [by eapply node_at_extends|by rewrite length_map|by rewrite length_map|exact Hroom'|].
    intros a3 s4 He4 Hn. pose proof (extends_trans _ _ _ _ _ _ He3 He4) as He.
    eapply wp_write; [by apply (ex_keep _ _ _ _ He)|exact Hget|].
    mark_kept He.
    mark_kept He.
    apply wp_retire. apply wp_retire. unfold wp; cbn [run mret prog_ret].
    apply (locked_nodes tid (fixed root (length C + S (S h')) T)).
    + eapply split_fixed; [exact Hat|exact HC|by split|exact Hgood|exact Hbad'|exact He3|exact Hha|exact He4|exact Hn|exact Hg| |].
      * simpl. rewrite !(lookup_insert_ne _ _ (hole root C).1) by done. by rewrite lookup_insert_eq.
      * intros y Hy [Hy1 Hy2]%not_elem_of_cons _. rewrite list_elem_of_singleton in Hy2. simpl. by rewrite !lookup_insert_ne by done.
    + still_locked He.
    + still_held He.
Qed.

(** *** A meagre node and its neighbour *)
Record merged s h p ks1 k ks2 ts1 lc rc ts2 n s4 new km' mid' : Prop := {
  mg_extends : extends s new s4;
  mg_length : length mid' = S (length km');
  mg_size : (length mid' ≤ 2)%nat;
  mg_wf : Forall (wf false h) mid';
  mg_good : Forall (λ t, bad false t = false) mid';
  mg_kids : concat (map kids mid') = kids lc ++ kids rc;
  mg_flat : respaced (flat lc ++ TS k :: flat rc) (ilv (map flat mid') km');
  mg_parent : node_at (nodes s4) n (node_status hd lk ksz (len (ts1 ++ mid' ++ ts2))) (ks1 ++ km' ++ ks2)
    (map addr (ts1 ++ mid' ++ ts2));
  mg_at : Forall (tree_at (nodes s4) h) mid';
  mg_new : concat (map addrs mid') ++ n :: [p; addr lc; addr rc] ≡ₚ new ++ p :: concat (map addrs [lc; rc]);
}.

Lemma merged_whole s h p ks1 k ks2 ts1 lc rc ts2 n s3 s4 F a t : extends s [a] s3 →
  whole hd lk ksz kvsz (nodes s3) h (kids lc ++ kids rc) F a t → respaced (flat lc ++ TS k :: flat rc) F →
  extends s3 [n] s4 →
  node_at (nodes s4) n (node_status hd lk ksz (len (map addr ts1 ++ a :: map addr ts2))) (ks1 ++ ks2)
    (map addr ts1 ++ a :: map addr ts2) →
  merged s h p ks1 k ks2 ts1 lc rc ts2 n s4 [a; n] [] [t].
Proof.
  intros He3 [Ha Ht Hw Hg Hk Hfl] Hre He4 Hn.
  assert (map addr (ts1 ++ [t] ++ ts2) = map addr ts1 ++ a :: map addr ts2) as Hmap by (by rewrite map_app; simpl; rewrite Ha).
  rewrite <-Hmap, length_map in Hn. split; [by eapply (extends_trans _ _ [a])|done|simpl; lia|by repeat constructor|by repeat constructor| | |exact Hn| |].
  - simpl. by rewrite app_nil_r.
  - simpl. rewrite app_nil_r. by eapply respaced_trans.
  - repeat constructor. by eapply tree_extends.
  - simpl. rewrite !app_nil_r, (addrs_kids t), (addrs_kids lc), (addrs_kids rc), Hk, map_app, concat_app, Ha. solve_Permutation.
Qed.
Lemma merged_halves s h p ks1 k ks2 ts1 lc rc ts2 n s3 s4 F a1 a2 t1 k' t2 : extends s [a1; a2] s3 →
  halves hd lk ksz kvsz (nodes s3) h (kids lc ++ kids rc) F a1 a2 t1 k' t2 → respaced (flat lc ++ TS k :: flat rc) F →
  extends s3 [n] s4 →
  node_at (nodes s4) n (node_status hd lk ksz (len (map addr ts1 ++ a1 :: a2 :: map addr ts2))) (ks1 ++ k' :: ks2)
    (map addr ts1 ++ a1 :: a2 :: map addr ts2) →
  merged s h p ks1 k ks2 ts1 lc rc ts2 n s4 [a1; a2; n] [k'] [t1; t2].
Proof.
  intros He3 [[Ha1 Ha2] [Ht1 Ht2] [Hw1 Hw2] [Hg1 Hg2] Hk Hfl] Hre He4 Hn.
  assert (map addr (ts1 ++ [t1; t2] ++ ts2) = map addr ts1 ++ a1 :: a2 :: map addr ts2) as Hmap
    by (by rewrite map_app; simpl; rewrite Ha1, Ha2).
  rewrite <-Hmap, length_map in Hn.
  split; [by eapply (extends_trans _ _ [a1; a2])|done|simpl; lia|by repeat constructor|by repeat constructor| | |exact Hn| |].
  - simpl. by rewrite app_nil_r.
  - simpl. rewrite app_nil_r. by eapply respaced_trans.
  - repeat constructor; by eapply tree_extends.
  - simpl. rewrite !app_nil_r, (addrs_kids t1), (addrs_kids t2), (addrs_kids lc), (addrs_kids rc), Ha1, Ha2.
    transitivity (a1 :: a2 :: n :: p :: addr lc :: addr rc :: concat (map addrs (kids t1 ++ kids t2)));
      [rewrite map_app, concat_app; solve_Permutation|]. rewrite Hk, map_app, concat_app. solve_Permutation.
Qed.

Lemma merged_fixed root C h p st ks1 k ks2 ts1 lc rc ts2 s s4 n m2 o :
  let told := BN p st (ks1 ++ [k] ++ ks2) (ts1 ++ [lc; rc] ++ ts2) in
  at_tree root (length C + S h) (plug C told) (nodes s) → Forall frame_ok C → bad (top C) told = false →
  length ks1 = length ts1 → bad false lc = true ∨ bad false rc = true →
  (∃ new km' mid', merged s h p ks1 k ks2 ts1 lc rc ts2 n s4 new km' mid') →
  nodes s !! (hole root C).1 = Some o → m2 !! (hole root C).1 = Some (set_child (hole root C).2 n o) →
  (∀ y, y ≠ (hole root C).1 → y ∉ [p; addr lc; addr rc] → is_Some (nodes s4 !! y) → m2 !! y = nodes s4 !! y) →
  fixed root (length C + S h) (plug C told) m2.
Proof.
  intros told Hat HC Hgood Hk1 Hbad (new & km' & mid' & Hm) Hg Hm2 Hsame.
  destruct (at_split _ _ _ _ _ _ _ _ _ Hat) as (_ & _ & Hwold & _).
  destruct (good_room _ _ _ _ _ _ Hwold Hgood) as (Hroom & Hmin & _). destruct Hm.
  assert (len (ts1 ++ [lc; rc] ++ ts2) - 1 ≤ len (ts1 ++ mid' ++ ts2) ≤ len (ts1 ++ [lc; rc] ++ ts2)) as Hlen.
  { rewrite !length_app. simpl. lia. }
  eapply (refixed root C h p st ks1 [k] ks2 ts1 [lc; rc] ts2 n km' mid' [p; addr lc; addr rc] new s s4); try done.
  - lia.
  - intros Htop. specialize (Hmin Htop). lia.
  - rewrite Exists_cons, Exists_cons. tauto.
  - simpl. by rewrite app_nil_r.
  - simpl. by rewrite app_nil_r.
Qed.

(** joined or rebalanced *)
Lemma wp_merge_leaf {A} p st ks1 k ks2 ts1 l r ts2 es1 es2 n1 n2 (K : Z → prog state A) Q s :
  node_at (nodes s) p st (ks1 ++ k :: ks2) (map addr (ts1 ++ BL l es1 :: BL r es2 :: ts2)) → length ks1 = length ts1 →
  length ks2 = length ts2 → len (ts1 ++ BL l es1 :: BL r es2 :: ts2) ≤ ncap → leaf_at hd kvsz (nodes s) l es1 →
  leaf_at hd kvsz (nodes s) r es2 → n1 = len es1 → n2 = len es2 → 2 * lmin ≤ n1 + n2 ≤ lmin + lcap →
  (∀ n s4, (∃ new km' mid', merged s 0 p ks1 k ks2 ts1 (BL l es1) (BL r es2) ts2 n s4 new km' mid') → wp (K n) Q s4) →
  wp ((if n1 + n2 <? leaf_join_cutoff hd kvsz then
         j ← join_leaf hd kvsz alloc l r; join_children hd lk ksz alloc p j (len ts1)
       else new ← rebalance_leaf hd kvsz alloc l r; rebalance_children hd lk ksz alloc p new (len ts1)) ≫= K) Q s.
Proof.
  intros Hp Hk1 Hk2 Hcap Hl Hr -> -> Hsum HK. pose proof (lmin_bounds hd kvsz).
  rewrite map_app in Hp. cbn [map] in Hp. rewrite <-(length_map addr ts1).
  assert (length (map addr ts1 ++ l :: r :: map addr ts2) = length (ts1 ++ BL l es1 :: BL r es2 :: ts2)) as Hlen.
  { rewrite !length_app. simpl. by rewrite !length_map. }
  assert (respaced (flat (BL l es1) ++ TS k :: flat (BL r es2)) (TE <$> (es1 ++ es2))) as Hre.
  { simpl. rewrite fmap_app. apply respaced_drop. }
  unfold leaf_join_cutoff. case_bool; apply wp_assoc.
  - eapply (wp_join_leaf hd lk ksz kvsz alloc tid); [exact Hl|exact Hr|lia|]. intros a t s3 He3 Hw.
    eapply (wp_join_children hd lk ksz alloc tid); [by eapply node_at_extends|by rewrite length_map|by rewrite length_map| |].
    { rewrite !length_app in *. simpl in *. lia. }
    intros n s4 He4 Hn. apply HK. eexists _, _, _. eapply merged_whole; [exact He3|exact Hw|exact Hre|exact He4|exact Hn].
  - eapply (wp_rebalance_leaf hd lk ksz kvsz alloc tid); [exact Hl|exact Hr|lia|]. intros a1 a2 t1 k' t2 s3 He3 Hh.
    eapply (wp_rebalance_children hd lk ksz alloc tid); [by eapply node_at_extends|by rewrite length_map|by rewrite length_map| |].
    { cbn [addr]. rewrite Hlen. exact Hcap. }
    intros n s4 He4 Hn. apply HK. eexists _, _, _. eapply merged_halves; [exact He3|exact Hh|exact Hre|exact He4|exact Hn].
Qed.
Lemma wp_merge_node {A} h p st ks1 k ks2 ts1 l r ts2 st1 st2 kl kr tl tr n1 n2 (K : Z → prog state A) Q s :
  let lc := BN l st1 kl tl in let rc := BN r st2 kr tr in
  node_at (nodes s) p st (ks1 ++ k :: ks2) (map addr (ts1 ++ lc :: rc :: ts2)) → length ks1 = length ts1 →
  length ks2 = length ts2 → len (ts1 ++ lc :: rc :: ts2) ≤ ncap → tree_at (nodes s) (S h) lc →
  tree_at (nodes s) (S h) rc → wf false (S h) lc → wf false (S h) rc →
  n1 = len tl → n2 = len tr → 2 * nmin ≤ n1 + n2 ≤ nmin + ncap →
  (∀ n s4, (∃ new km' mid', merged s (S h) p ks1 k ks2 ts1 lc rc ts2 n s4 new km' mid') → wp (K n) Q s4) →
  wp ((if n1 + n2 <? node_join_cutoff hd lk ksz then
         j ← join hd lk ksz alloc l k r; join_children hd lk ksz alloc p j (len ts1)
       else new ← rebalance hd lk ksz alloc l k r; rebalance_children hd lk ksz alloc p new (len ts1)) ≫= K) Q s.
Proof.
  intros lc rc Hp Hk1 Hk2 Hcap Hl Hr (Hll & _ & _ & Hwl) (Hlr & _ & _ & Hwr) -> -> Hsum HK.
  pose proof (nmin_bounds hd lk ksz). subst lc rc.
  rewrite map_app in Hp. cbn [map addr] in Hp. rewrite <-(length_map addr ts1).
  assert (length (map addr ts1 ++ l :: r :: map addr ts2) = length (ts1 ++ BN l st1 kl tl :: BN r st2 kr tr :: ts2)) as Hlen.
  { rewrite !length_app. simpl. by rewrite !length_map. }
  unfold node_join_cutoff. case_bool; apply wp_assoc.
  - eapply (wp_join hd lk ksz kvsz alloc tid); [exact Hl|exact Hr|exact Hll|exact Hlr|exact Hwl|exact Hwr|lia|].
    intros a t s3 He3 Hw.
    eapply (wp_join_children hd lk ksz alloc tid); [by eapply node_at_extends|by rewrite length_map|by rewrite length_map| |].
    { rewrite !length_app in *. simpl in *. lia. }
    intros n s4 He4 Hn. apply HK. eexists _, _, _.
    eapply merged_whole; [exact He3|exact Hw|apply respaced_refl|exact He4|exact Hn].
  - eapply (wp_rebalance hd lk ksz kvsz alloc tid); [exact Hl|exact Hr|exact Hll|exact Hlr|exact Hwl|exact Hwr|lia|].
    intros a1 a2 t1 k' t2 s3 He3 Hh.
    eapply (wp_rebalance_children hd lk ksz alloc tid); [by eapply node_at_extends|by rewrite length_map|by rewrite length_map| |].
    { cbn [addr]. rewrite Hlen. exact Hcap. }
    intros n s4 He4 Hn. apply HK. eexists _, _, _.
    eapply merged_halves; [exact He3|exact Hh|apply respaced_refl|exact He4|exact Hn].
Qed.

(** the neighbour that a meagre child is paired with *)
Lemma neighbour (ts1 : list bt) lc rc ts2 c cidx :
  (ts1 = [] ∧ cidx = 0 ∧ c = lc) ∨ (cidx = len ts1 + 1 ∧ c = rc) → ∃ j x,
    (if cidx =? 0 then cidx + 1 else cidx - 1) = Z.of_nat j ∧ map addr (ts1 ++ [lc; rc] ++ ts2) !! j = Some x ∧
    (if cidx =? 0 then (0, addr c, x) else (cidx - 1, x, addr c)) = (len ts1, addr lc, addr rc).
Proof.
  intros [(-> & -> & ->)|(-> & ->)].
  - by exists 1%nat, (addr rc).
  - exists (length ts1), (addr lc). rewrite (proj2 (Z.eqb_neq _ _)) by lia. split; [lia|]. split; [|do 2 f_equal; lia].
    rewrite map_app. simpl. apply list_lookup_middle. by rewrite length_map.
Qed.
(** one of the two is as small as it may be *)
Lemma meagre_pair h lc rc c m o ol or : tree_at m h lc → tree_at m h rc → wf false h lc → wf false h rc →
  c = lc ∨ c = rc → m !! addr c = Some o → status_of o = isUnder → m !! addr lc = Some ol → m !! addr rc = Some or →
  (bad false lc = true ∨ bad false rc = true) ∧ is_leaf o = is_leaf ol ∧
  ((size_of ol = match lc with BL _ _ => lmin | BN _ _ _ _ => nmin end) ∨
    size_of or = match rc with BL _ _ => lmin | BN _ _ _ _ => nmin end).
Proof.
  intros Htl Htr Hwl Hwr Hc Ho Hunder Hol Hor.
  destruct (node_bad _ _ _ _ Htl Hwl Hol) as (Hlleaf & Hlsize & Hlbad & _ & Hlmin).
  destruct (node_bad _ _ _ _ Htr Hwr Hor) as (Hrleaf & Hrsize & Hrbad & _ & Hrmin).
  rewrite Hlleaf, Hlsize, Hrsize. destruct Hc as [->| ->].
  - assert (o = ol) as -> by congruence. split; [left; apply Hlbad; congruence|]. split; [done|left].
    specialize (Hlmin Hunder). by destruct lc.
  - assert (o = or) as -> by congruence. split; [right; apply Hrbad; congruence|]. rewrite Hrleaf.
    split; [by destruct h, lc, rc|right]. specialize (Hrmin Hunder). by destruct rc.
Qed.

Lemma underfull_wp root C h p st ks1 k ks2 ts1 lc rc ts2 c cidx s :
  let told := BN p st (ks1 ++ [k] ++ ks2) (ts1 ++ [lc; rc] ++ ts2) in let T := plug C told in
  at_tree root (length C + S h) T (nodes s) → Forall frame_ok C → length ks1 = length ts1 → holding tid ∅ s →
  bad (top C) told = false → (ts1 = [] ∧ cidx = 0 ∧ c = lc) ∨ (cidx = len ts1 + 1 ∧ c = rc) →
  (∃ o, nodes s !! addr c = Some o ∧ status_of o = isUnder) →
  wp (underfull_node hd lk ksz kvsz alloc tid (hole root C).1 (hole root C).2 p cidx (addr c))
    (λ _ s', fixed root (length C + S h) T (nodes s') ∧ holding tid ∅ s') s.
Proof.
  intros told T Hat HC Hk1 Hh Hgood Hidx (o & Ho & Hunder).
  destruct (at_split _ _ _ _ _ _ _ _ _ Hat) as (Hc & Htold & Hwold & Hnd1 & Hndt & _).
  destruct (ctx_hole _ _ _ _ _ _ _ Hc Hnd1) as (gst & gn & gks & gch & Hg & Hget & _).
  destruct Htold as [Hp Hts]. pose proof (good_room _ _ _ _ _ _ Hwold Hgood) as (Hroom & _ & _).
  pose proof Hwold as (Hlen & Hcap & _ & Hws).
  assert (length ks2 = length ts2) as Hk2 by (rewrite !length_app in Hlen; simpl in Hlen; lia).
  pose proof (siblings_distinct _ _ _ _ _ _ _ Hndt) as Hlr.
  destruct (fix_distinct _ _ _ _ _ _ _ _ lc Hat) as (Hpg & Hlg & Hlp); [apply elem_of_app; right; by left|].
  destruct (fix_distinct _ _ _ _ _ _ _ _ rc Hat) as (_ & Hrg & Hrp); [apply elem_of_app; right; right; by left|].
  apply Forall_app in Hts as [_ [Htl [Htr _]%Forall_cons]%Forall_cons].
  apply Forall_app in Hws as [_ [Hwl [Hwr _]%Forall_cons]%Forall_cons].
  assert (∃ ol, nodes s !! addr lc = Some ol) as [ol Hol].
  { destruct (btree_tree_addr _ _ _ _ _ (addr lc) Htl) as [x Hx]; [rewrite addrs_kids; by left|eauto]. }
  assert (∃ or, nodes s !! addr rc = Some or) as [or Hor].
  { destruct (btree_tree_addr _ _ _ _ _ (addr rc) Htr) as [x Hx]; [rewrite addrs_kids; by left|eauto]. }
  destruct (node_bad _ _ _ _ Htl Hwl Hol) as (Hlleaf & Hlsize & _). destruct (node_bad _ _ _ _ Htr Hwr Hor) as (_ & Hrsize & _).
  destruct (meagre_pair h lc rc c _ o ol or Htl Htr Hwl Hwr ltac:(tauto) Ho Hunder Hol Hor) as (Hbad & Holeaf & Hsum).
  destruct (neighbour ts1 lc rc ts2 c cidx Hidx) as (j & x & Hj & Hx & Heq).
  destruct (node_at_lookup _ _ _ _ _ Hp) as (pn & pks & pcs & Hpm).
  unfold underfull_node.
  eapply (wp_locked tid tid_ok (hole root C).1 [] _ _ (λ s', fixed root (length C + S h) T (nodes s') ∧ holding tid ∅ s'));
    [exact Hh|apply not_elem_of_nil|exact Hg|].
  intros s1 Hs1 Hh1. rewrite <-Hs1 in *. eapply btree_wp_still_child; [exact Hc|done|]. cbn [negb].
  eapply (wp_locked tid tid_ok); [exact Hh1|by rewrite list_elem_of_singleton|exact Hpm|].
  intros s2 Hs2 Hh2. rewrite <-Hs2 in *.
  eapply (wp_child _ _ _ _ j x); [exact Hp|exact Hx|exact Hj|]. rewrite Heq.
  eapply wp_read; [exact Ho|done|]. eapply wp_read; [exact Hol|done|]. eapply wp_read; [exact Hor|done|].
  rewrite Holeaf, Hlleaf. cbn [app] in Hcap, Hp. destruct h as [|h'], lc as [l es1|l st1 kl tl], rc as [r es2|r st2 kr tr]; try done.
  - eapply (wp_merge_leaf p st ks1 k ks2 ts1 l r ts2 es1 es2);
      [exact Hp|exact Hk1|exact Hk2|exact Hcap|exact Htl|exact Htr|exact Hlsize|exact Hrsize| |].
    { simpl in Hwl, Hwr. lia. }
    intros n s4 Hm. pose proof Hm as (new & km' & mid' & Hm'). pose proof (mg_extends _ _ _ _ _ _ _ _ _ _ _ _ _ _ _ Hm') as He.
    eapply wp_write; [by apply (ex_keep _ _ _ _ He)|exact Hget|].
    mark_kept He.
    apply wp_retire. apply wp_retire. apply wp_retire. unfold wp; cbn [run mret prog_ret].
    apply (locked_nodes tid (fixed root (length C + 1) T)).
    + eapply merged_fixed; [exact Hat|exact HC|exact Hgood|exact Hk1|exact Hbad|exact Hm|exact Hg| |].
      * simpl. rewrite lookup_insert_ne by done. by rewrite lookup_insert_eq.
      * intros y Hy [Hy1 _]%not_elem_of_cons _. simpl. by rewrite !lookup_insert_ne by done.
    + still_locked He.
    + still_held He.
  - destruct (node_at_lookup _ _ _ _ _ (proj1 Htl)) as (ln & lks & lcs & Hlm).
    destruct (node_at_lookup _ _ _ _ _ (proj1 Htr)) as (rn & rks & rcs & Hrm).
    cbn [addr] in *. apply wp_assoc. eapply wp_as_node; [exact Hp|]. intros pk. cbn beta iota.
    eapply (wp_reads tid (λ i, lift (get (_ ++ pk) i)) (ks1 ++ k :: ks2) _ (length ks1) k);
      [apply reads_get|by rewrite Hk1|by apply list_lookup_middle|].
    eapply (wp_locked tid tid_ok); [exact Hh2|by rewrite not_elem_of_cons, list_elem_of_singleton|exact Hlm|].
    intros s3 Hs3 Hh3. rewrite <-Hs3 in *.
    eapply (wp_locked tid tid_ok); [exact Hh3|rewrite !not_elem_of_cons; split_and!; [congruence|done|done|apply not_elem_of_nil]|exact Hrm|].
    intros s4 Hs4 Hh4. rewrite <-Hs4 in *.
    eapply (wp_merge_node h' p st ks1 k ks2 ts1 l r ts2 st1 st2 kl kr tl tr);
      [exact Hp|exact Hk1|exact Hk2|exact Hcap|exact Htl|exact Htr|exact Hwl|exact Hwr|exact Hlsize|exact Hrsize| |].
    { destruct Hwl as (_ & ? & [? _] & _), Hwr as (_ & ? & [? _] & _). lia. }
    intros n s5 Hm. pose proof Hm as (new & km' & mid' & Hm'). pose proof (mg_extends _ _ _ _ _ _ _ _ _ _ _ _ _ _ _ Hm') as He.
    eapply wp_write; [by apply (ex_keep _ _ _ _ He)|exact Hget|].
    mark_kept He.
    mark_kept He.
    mark_kept He.
    apply wp_retire. apply wp_retire. apply wp_retire. unfold wp; cbn [run mret prog_ret].
    apply (locked_nodes tid (fixed root (length C + S (S h')) T)).
    + eapply merged_fixed; [exact Hat|exact HC|exact Hgood|exact Hk1|exact Hbad|exact Hm|exact Hg| |].
      * simpl. rewrite !(lookup_insert_ne _ _ (hole root C).1) by done. by rewrite lookup_insert_eq.
      * intros y Hy. rewrite !not_elem_of_cons. intros (Hy1 & Hy2 & Hy3 & _) _. simpl. by rewrite !lookup_insert_ne by done.
    + still_locked He.
    + still_held He.
Qed.

(** *** The child of the root *)
Lemma root_replace root h t h' t' m m2 o : at_tree root h t m → wf true h' t' → tree_at m2 h' t' → NoDup (addrs t') →
  (∀ y, y ∈ addrs t' → y ∈ addrs t ∨ m !! y = None) → ordered (flat t') → m !! root = Some o →
  m2 !! root = Some (set_child 0 (addr t') o) → at_tree root h' t' m2.
Proof.
  intros [(st & pk & pc & Hr) Ht Hnd Ho Hw] Hw' Ht' Hnd' Hin Ho' Hm Hm2. split; [|done| |done|done].
  - rewrite Hr in Hm. injection Hm as <-. by exists st, pk, pc.
  - apply NoDup_cons. split; [|done]. intros Hy. apply NoDup_cons in Hnd as [Hn _].
    destruct (Hin root Hy) as [?|?]; [done|congruence].
Qed.

Lemma pair_fixed root h t s s3 s4 a1 a2 a3 t1 k t2 m2 o : at_tree root h t (nodes s) → bad true t = true →
  extends s [a1; a2] s3 → halves hd lk ksz kvsz (nodes s3) h (kids t) (flat t) a1 a2 t1 k t2 → extends s3 [a3] s4 →
  node_at (nodes s4) a3 OK [k] [a1; a2] → nodes s !! root = Some o → m2 !! root = Some (set_child 0 a3 o) →
  (∀ y, y ≠ root → m2 !! y = nodes s4 !! y) → fixed root h t m2.
Proof.
  intros Hat Hbad He3 [[Ha1 Ha2] [Ht1 Ht2] [Hw1 Hw2] [Hg1 Hg2] Hk [Hfe Hfo]] He4 Hn Hg Hm2 Hsame.
  pose proof Hat as [_ Ht Hnd Ho _]. apply NoDup_cons in Hnd as [Hroot Hnd]. pose proof (extends_trans _ _ _ _ _ _ He3 He4) as He.
  set (t' := BN a3 OK [k] [t1; t2]).
  assert (flat t' = flat t1 ++ TS k :: flat t2) as Hflat by (simpl; by rewrite app_nil_r).
  assert (addrs t' ++ [addr t] ≡ₚ ([a1; a2] ++ [a3]) ++ addrs t) as Hp.
  { simpl. rewrite app_nil_r, (addrs_kids t1), (addrs_kids t2), (addrs_kids t), <-Hk, map_app, concat_app, Ha1, Ha2. solve_Permutation. }
  assert (NoDup (addrs t' ++ [addr t])) as Hnd'.
  { rewrite Hp. apply NoDup_app. split; [apply He|]. split; [|done]. intros y Hy Hy'.
    destruct (ex_new _ _ _ _ He y Hy) as (Hnone & _). destruct (btree_tree_addr _ _ _ _ _ _ Ht Hy'). congruence. }
  assert (∀ y, y ∈ addrs t' → y ∈ addrs t ∨ nodes s !! y = None) as Hin.
  { intros y Hy. assert (y ∈ addrs t' ++ [addr t]) as Hy2 by (apply elem_of_app; by left). rewrite Hp in Hy2.
    apply elem_of_app in Hy2 as [Hy2|?]; [right; by destruct (ex_new _ _ _ _ He y Hy2)|by left]. }
  assert (root ∉ addrs t') as Hr' by (intros Hy; destruct (Hin root Hy); [done|congruence]).
  exists (S h), t'. split.
  - eapply (root_replace root h t (S h) t' (nodes s) m2 o); try done.
    + pose proof (ncap_large hd lk ksz). split; [done|]. split; [simpl; lia|]. split; [by right|by repeat constructor].
    + eapply (btree_tree_frame _ _ (nodes s4)); [intros y Hy; apply Hsame; by intros ->|].
      split; [simpl; by rewrite Ha1, Ha2|]. eapply trees_extend; [exact He4|by apply Forall_cons; split; [|apply Forall_singleton]].
    + by apply NoDup_app in Hnd' as (? & _).
    + rewrite Hflat. specialize (Hfo [] []). rewrite !app_nil_r in Hfo. by apply Hfo.
  - assert (nbad hd kvsz true t' = total (nbad' hd kvsz) (kids t)) as Hn'.
    { change (nbad hd kvsz true t') with (total (nbad' hd kvsz) [t1; t2]).
      rewrite total_kids_good by (by repeat constructor). simpl. by rewrite app_nil_r, Hk. }
    assert (depths hd kvsz true 1 t' = (total (depths' hd kvsz 2) (kids t) + total (nbad' hd kvsz) (kids t))%nat) as Hd'.
    { change (depths hd kvsz true 1 t') with (total (depths' hd kvsz 2) [t1; t2]).
      rewrite depths_kids_good by (by repeat constructor). simpl. by rewrite app_nil_r, Hk, total_deeper. }
    assert (nbad hd kvsz true t = S (total (nbad' hd kvsz) (kids t))) as Hnt by (unfold nbad; by rewrite Hbad).
    assert (depths hd kvsz true 1 t = S (total (depths' hd kvsz 2) (kids t))) as Hd by (unfold depths; by rewrite Hbad).
    split; [by rewrite Hflat|unfold effort; rewrite Hnt, Hn', Hd, Hd'; nia|rewrite Hnt, Hn'; lia].
Qed.

Lemma collapse_fixed root h a st t m m2 o : at_tree root (S h) (BN a st [] [t]) m → m !! root = Some o →
  m2 !! root = Some (set_child 0 (addr t) o) → (∀ y, y ≠ root → m2 !! y = m !! y) →
  fixed root (S h) (BN a st [] [t]) m2.
Proof.
  intros Hat Hg Hm2 Hsame. pose proof Hat as [_ [_ [Ht _]%Forall_cons] Hnd Ho (_ & _ & _ & [Hw _]%Forall_cons)].
  simpl in Hnd, Ho. rewrite app_nil_r in Hnd, Ho. apply NoDup_cons in Hnd as [Hroot [_ Hnd]%NoDup_cons].
  rewrite not_elem_of_cons in Hroot.
  pose proof (nmin_bounds hd lk ksz). assert (bad true t = true → bad false t = true) as Hle.
  { destruct h as [|h'], t as [b es|b stb ks ts]; try done; simpl in *.
    - rewrite bool_decide_eq_true. by intros ->.
    - destruct Hw as (_ & _ & [Hmin ->] & _). pose proof (node_status_spec hd lk ksz (len ts)) as Hs.
      unfold node_status in *. rewrite orb_true_iff, bool_decide_eq_true, Z.eqb_eq.
      intros [->|Heq]; [done|]. rewrite Heq in *. by rewrite (proj2 (Z.eqb_eq _ _)) by lia. }
  exists h, t. split.
  - eapply (root_replace root (S h)); [exact Hat| | |exact Hnd| |exact Ho|exact Hg|exact Hm2].
    + destruct h as [|h'], t as [b es|b stb ks ts]; try done; simpl in *; [split; [tauto|by left]|].
      destruct Hw as (? & ? & [_ ?] & ?). split_and!; try done. by left.
    + eapply btree_tree_frame; [|exact Ht]. intros y Hy. apply Hsame. intros ->. tauto.
    + intros y Hy. left. simpl. rewrite app_nil_r. by right.
  - assert (nbad hd kvsz true (BN a st [] [t]) = S (nbad hd kvsz false t)) as Hn.
    { unfold nbad at 1. simpl. rewrite orb_true_r, nbad_inner. simpl. lia. }
    assert (depths hd kvsz true 1 (BN a st [] [t]) = S (depths hd kvsz false 2 t)) as Hd.
    { unfold depths at 1. simpl. rewrite orb_true_r, depths_inner. simpl. lia. }
    assert (nbad hd kvsz true t ≤ nbad hd kvsz false t)%nat as Hn'.
    { unfold nbad. destruct (bad true t); [by rewrite Hle by done|]. simpl. lia. }
    assert (depths hd kvsz true 1 t ≤ depths hd kvsz false 2 t)%nat as Hd'.
    { unfold depths. rewrite (total_deeper _ _ 2). destruct (bad true t); [rewrite Hle by done|]; simpl; lia. }
    split; [simpl; by rewrite app_nil_r|unfold effort; rewrite Hn, Hd; nia|rewrite Hn; lia].
Qed.

Lemma fix_root_wp root h t s : at_tree root h t (nodes s) → holding tid ∅ s → bad true t = true →
  wp (fix_root hd lk ksz kvsz alloc tid root (addr t)) (λ _ s', fixed root h t (nodes s') ∧ holding tid ∅ s') s.
Proof.
  intros Hat Hh Hbad. pose proof Hat as [(gst & gpk & gpc & Hg) Ht Hnd _ Hw]. apply NoDup_cons in Hnd as [Hroot _].
  unfold fix_root. eapply (wp_locked tid tid_ok root [] _ _ (λ s', fixed root h t (nodes s') ∧ holding tid ∅ s'));
    [exact Hh|apply not_elem_of_nil|exact Hg|].
  intros s1 Hs1 Hh1. rewrite <-Hs1 in *. eapply wp_read; [exact Hg|done|]. rewrite Z.eqb_refl. cbn [negb].
  destruct h as [|h], t as [a es|a st ks ts]; try done.
  - destruct Ht as (pad & Hm). eapply wp_read; [exact Hm|done|]. simpl in Hbad. apply bool_decide_eq_true in Hbad.
    cbn [status_of is_leaf]. rewrite decide_True by done. pose proof (leaf_status_spec hd kvsz (len es)) as Hs. rewrite Hbad in Hs.
    eapply (wp_split_leaf hd lk ksz kvsz alloc tid); [by exists pad|apply Hs; simpl in Hw; lia|]. intros a1 a2 t1 k t2 s3 He3 Hha.
    eapply (wp_new_node hd lk ksz alloc tid OK 2 [k] [a1; a2]); [done|done|pose proof (ncap_large hd lk ksz); simpl; lia|].
    intros a3 s4 He4 Hn. pose proof (extends_trans _ _ _ _ _ _ He3 He4) as He.
    eapply wp_write; [by apply (ex_keep _ _ _ _ He)|done|]. apply wp_retire. unfold wp; cbn [run mret prog_ret].
    apply (locked_nodes tid (fixed root 0 (BL a es))).
    + eapply pair_fixed; [exact Hat| |exact He3|exact Hha|exact He4|exact Hn|exact Hg| |].
      * simpl. by apply bool_decide_eq_true.
      * simpl. by rewrite lookup_insert_eq.
      * intros y Hy. simpl. by rewrite lookup_insert_ne.
    + still_locked He.
    + still_held He.
  - destruct (node_at_lookup _ _ _ _ _ (proj1 Ht)) as (cn & cks & ccs & Hcm). eapply wp_read; [exact Hcm|done|].
    cbn [status_of is_leaf]. destruct Hw as (Hl & Hcap & Hst & Hwt). pose proof (ncap_large hd lk ksz). case_decide as Hover.
    + subst st. destruct Hst as [Hst|[? _]]; [|done]. pose proof (node_status_spec hd lk ksz (len ts)) as Hs. rewrite <-Hst in Hs.
      eapply (wp_split hd lk ksz kvsz alloc tid); [exact Ht|exact Hl|exact Hwt|apply Hs; lia|]. intros a1 a2 t1 k t2 s3 He3 Hha.
      eapply (wp_new_node hd lk ksz alloc tid OK 2 [k] [a1; a2]); [done|done|simpl; lia|].
      intros a3 s4 He4 Hn. pose proof (extends_trans _ _ _ _ _ _ He3 He4) as He.
      eapply wp_write; [by apply (ex_keep _ _ _ _ He)|done|]. apply wp_retire. unfold wp; cbn [run mret prog_ret].
      apply (locked_nodes tid (fixed root (S h) (BN a isOver ks ts))).
      * eapply pair_fixed; [exact Hat|exact Hbad|exact He3|exact Hha|exact He4|exact Hn|exact Hg| |].
        -- simpl. by rewrite lookup_insert_eq.
        -- intros y Hy. simpl. by rewrite lookup_insert_ne.
      * still_locked He.
      * still_held He.
    + simpl in Hbad. rewrite bool_decide_eq_false_2 in Hbad by done. apply Z.eqb_eq in Hbad.
      destruct ts as [|t [|? ?]]; simpl in Hbad; try lia. simpl in Hl. destruct ks; simpl in Hl; [|lia].
      eapply (wp_child _ _ _ _ 0 (addr t)); [exact (proj1 Ht)|done|done|].
      eapply wp_write; [exact Hg|done|]. apply wp_retire. unfold wp; cbn [run mret prog_ret].
      apply (locked_nodes tid (fixed root (S h) (BN a st [] [t]))).
      * eapply collapse_fixed; [exact Hat|exact Hg| |].
        -- simpl. by rewrite lookup_insert_eq.
        -- intros y Hy. simpl. by rewrite lookup_insert_ne.
      * intros y ->%list_elem_of_singleton. simpl. rewrite lookup_insert_eq. by eexists.
      * eapply holding_same_locks; [|exact Hh1]. done.
Qed.
End fix_nodes.
