(* ===== verification/BTreeMap.v ===== *)
(** * BTreeMap: the search of [BTree] fixes what it meets and ends, and the
    operations implement a finite map. *)

From stdpp Require Import prelude list gmap.
From Stdlib Require Import ZArith Lia Sorted.
From S2P Require Import Prelude Conc SpinLock Store MapSpec Arrays BTree BTreeNodes BTreeProof BTreeFix.
Import BTree.
Local Open Scope Z_scope.
#[local] Abbreviation KV := (Z * Z)%type.

Section search.
Context (hd lk ksz kvsz : Z) (alloc : gmap Z obj → Z) {fresh : Allocator alloc} (tid : nat) (tid_ok : small_tid tid).
#[local] Abbreviation state := (store_state obj).
#[local] Abbreviation len l := (Z.of_nat (length l)).
#[local] Abbreviation tree_at := (tree_at hd kvsz).
#[local] Abbreviation at_tree := (at_tree hd lk ksz kvsz).
#[local] Abbreviation wf := (wf hd lk ksz kvsz).
#[local] Abbreviation bad := (bad hd kvsz).
#[local] Abbreviation fixed := (fixed hd lk ksz kvsz).
#[local] Abbreviation effort := (effort hd kvsz).
#[local] Abbreviation nbad := (nbad hd kvsz).
Implicit Types s : state.

(** the neighbour of a meagre child *)
Lemma fix_node_wp root C h f t s : let T := plug C (fplug f t) in
  at_tree root (length C + S h) T (nodes s) → Forall frame_ok C → frame_ok f → holding tid ∅ s →
  bad (top C) (fplug f t) = false → bad false t = true →
  wp (fix_node hd lk ksz kvsz alloc tid (hole root C).1 (hole root C).2 (f_addr f) (len (f_ts1 f)) (addr t))
    (λ _ s', fixed root (length C + S h) T (nodes s') ∧ holding tid ∅ s') s.
Proof.
  intros T Hat HC [Hf1 Hf2] Hh Hgood Hbad. subst T.
  destruct (at_split _ _ _ _ _ _ _ _ _ Hat) as (_ & [_ Hts] & Hwold & _).
  destruct (good_room _ _ _ _ _ _ _ _ _ _ Hwold Hgood) as (_ & Hmin & Hone).
  pose proof Hwold as (_ & _ & _ & Hws). apply Forall_app in Hts as [_ [Ht _]%Forall_cons].
  apply Forall_app in Hws as [_ [Hw _]%Forall_cons]. pose proof (nmin_bounds hd lk ksz).
  destruct (btree_tree_addr _ _ _ _ _ (addr t) Ht) as [o Ho]; [rewrite addrs_kids; by left|].
  destruct (node_bad _ _ _ _ _ _ _ _ Ht Hw Ho) as (_ & _ & Hst & _ & _). apply Hst in Hbad.
  unfold fix_node. eapply wp_read; [exact Ho|done|]. case_decide as Hover.
  { eapply (overfull_wp hd lk ksz kvsz alloc tid tid_ok); [exact Hat|exact HC|by split|exact Hh|exact Hgood|by exists o]. }
  assert (status_of o = isUnder) as Hunder by (by destruct (status_of o)).
  destruct f as [p st ks1 ts1 ks2 ts2]. unfold fplug in *. cbn [f_addr f_st f_ks1 f_ts1 f_ks2 f_ts2] in *. destruct ts1 as [|t0 ts1 _] using rev_ind.
  - destruct ks1; simpl in Hf1; [|lia]. destruct ts2 as [|rc ts2].
    { exfalso. simpl in *. destruct (top C); [by apply Hone|]. specialize (Hmin eq_refl). lia. }
    destruct ks2 as [|k ks2]; simpl in Hf2; [lia|].
    eapply (underfull_wp hd lk ksz kvsz alloc tid tid_ok root C h p st [] k ks2 [] t rc ts2 t);
      [exact Hat|exact HC|done|exact Hh|exact Hgood|by left|by exists o].
  - destruct ks1 as [|k ks1 _] using rev_ind; [rewrite length_app in Hf1; simpl in Hf1; lia|].
    rewrite !length_app in Hf1. simpl in Hf1. rewrite <-!app_assoc in *. cbn [app] in *.
    eapply (underfull_wp hd lk ksz kvsz alloc tid tid_ok root C h p st ks1 k ks2 ts1 t0 t ts2 t);
      [exact Hat|exact HC|lia|exact Hh|exact Hgood| |by exists o].
    right. rewrite length_app. simpl. split; [lia|done].
Qed.

(** the leaf to which the search for [k] leads, and its place *)
Definition leads (root : Z) (h : nat) (T : bt) (k : Z) (place : Z * Z * Z) (C : list frame) (es : list KV) : Prop :=
  T = plug C (BL place.2 es) ∧ h = length C ∧ Forall frame_ok C ∧ path k C ∧ hole root C = place.1.

Lemma child_of root C h k a st ks ts m : at_tree root (length C + S h) (plug C (BN a st ks ts)) m →
  Forall frame_ok C → ∃ f t, BN a st ks ts = fplug f t ∧ frame_ok f ∧ upto k (f_ks1 f) ∧ past k (f_ks2 f).
Proof.
  intros Hat HC. pose proof (at_ordered _ _ _ _ _ _ _ _ Hat) as Ho. rewrite plug_flat in Ho by done.
  apply ordered_app in Ho as (_ & Ho & _). apply ordered_app in Ho as (Ho & _ & _).
  destruct (at_split _ _ _ _ _ _ _ _ _ Hat) as (_ & _ & (Hl & _) & _).
  apply ilv_keys in Ho; [|rewrite length_map; lia]. destruct (keys_split k ks Ho) as (k1 & k2 & -> & H1 & H2).
  rewrite length_app in Hl. destruct (drop (length k1) ts) as [|t ts2] eqn:E.
  { apply (f_equal length) in E. rewrite length_drop in E. simpl in E. lia. }
  exists (Frame a st k1 (take (length k1) ts) k2 ts2), t. unfold fplug, frame_ok. simpl. rewrite <-E, take_drop.
  apply (f_equal length) in E. rewrite length_drop in E. simpl in E. rewrite length_take. split_and!; try done; lia.
Qed.

(** the search in a node *)
Lemma wp_search {A} f t k (K : Z * list Z → prog state A) Q s : 
  node_at (nodes s) (f_addr f) (f_st f) (f_ks1 f ++ f_ks2 f) (map addr (f_ts1 f ++ t :: f_ts2 f)) →
  frame_ok f → upto k (f_ks1 f) → past k (f_ks2 f) →
  (∀ size keys, node_find size keys k 0 = inr (len (f_ts1 f)) → wp (K (size, keys)) Q s) →
  wp (as_node (f_addr f) ≫= K) Q s.
Proof.
  intros Hp [Hf1 Hf2] H1 H2 HK. eapply wp_as_node; [exact Hp|]. intros pk. apply HK. rewrite <-Hf1.
  replace (len (map addr (f_ts1 f ++ t :: f_ts2 f))) with (Z.of_nat (S (length (f_ks1 f ++ f_ks2 f)))).
  - apply btree_node_find_spec; [done|done|lia].
  - rewrite length_map, !length_app. simpl. lia.
Qed.

Lemma walk_down root T k : ∀ h C t fuel s, T = plug C t → at_tree root (length C + h) T (nodes s) →
  Forall frame_ok C → path k C → holding tid ∅ s → bad (top C) t = false → (h < fuel)%nat →
  wp (iter fuel (step_down hd lk ksz kvsz alloc tid k) (hole root C, addr t))
    (λ r s', match r with
             | inl place => s' = s ∧ ∃ C' es, leads root (length C + h) T k place C' es ∧ bad (top C') (BL place.2 es) = false
             | inr _ => fixed root (length C + h) T (nodes s') ∧ holding tid ∅ s'
             end) s.
Proof.
  induction h as [|h IH]; intros C t [|fuel] s -> Hat HC Hp Hh Hgood Hfuel; try lia;
    destruct (at_split _ _ _ _ _ _ _ _ _ Hat) as (_ & Ht & Hw & _); destruct t as [a es|a st ks ts]; try done;
    cbn [iter]; unfold step_down at 1; destruct (hole root C) as [gp pidx] eqn:Hhole; apply wp_assoc.
  - destruct Ht as (pad & Hm). eapply wp_read; [exact Hm|done|]. unfold wp; cbn. split; [done|].
    exists C, es. by rewrite Nat.add_0_r.
  - destruct (child_of _ _ _ k _ _ _ _ _ Hat HC) as (f & t & Heq & Hf & H1 & H2). rewrite Heq in *. clear Heq.
    pose proof Ht as [Hnode [_ [Ht' _]%Forall_cons]%Forall_app]. pose proof Hw as (_ & _ & _ & [_ [Hw' _]%Forall_cons]%Forall_app).
    destruct (node_at_lookup _ _ _ _ _ Hnode) as (pn & pks & pcs & Hpm).
    eapply wp_read; [exact Hpm|done|]. cbn [is_leaf]. apply wp_assoc.
    eapply (wp_search f t k); [exact Hnode|exact Hf|exact H1|exact H2|]. intros size keys Hfind. cbn beta iota.
    apply wp_assoc. eapply wp_lift; [exact Hfind|]. apply wp_assoc.
    eapply (wp_child tid _ _ _ _ (length (f_ts1 f)) (addr t)); [exact Hnode|rewrite map_app; apply list_lookup_middle; by rewrite length_map|done|].
    apply wp_assoc. destruct (btree_tree_addr _ _ _ _ _ (addr t) Ht') as [o Ho]; [rewrite addrs_kids; by left|].
    eapply wp_read; [exact Ho|done|]. destruct (node_bad _ _ _ _ _ _ _ _ Ht' Hw' Ho) as (_ & _ & Hst & _ & _).
    case_bool_decide as Hok.
    + assert (bad false t = false) as Hgood' by (apply not_true_iff_false; rewrite Hst; by intros []).
      replace (length C + S h)%nat with (length (f :: C) + h)%nat by (simpl; lia).
      apply (IH (f :: C) t fuel s); [done|simpl length; by replace (S (length C) + h)%nat with (length C + S h)%nat by lia|
        by constructor|by constructor|done|done|lia].
    + assert (bad false t = true) as Hbad by (apply Hst; by destruct (status_of o)).
      pose proof (fix_node_wp root C h f t s Hat HC Hf Hh Hgood Hbad) as Hfix. rewrite Hhole in Hfix.
      apply wp_assoc. rewrite wp_bind. eapply wp_mono; [|exact Hfix]. intros r s' Hr. unfold wp; cbn. exact Hr.
Qed.

Lemma down_wp root T k h s fuel : at_tree root h T (nodes s) → holding tid ∅ s → (h < fuel)%nat →
  wp (down hd lk ksz kvsz alloc tid fuel root k)
    (λ r s', match r with
             | inl place => s' = s ∧ ∃ C es, leads root h T k place C es ∧ bad (top C) (BL place.2 es) = false
             | inr _ => fixed root h T (nodes s') ∧ holding tid ∅ s'
             end) s.
Proof.
  intros Hat Hh Hfuel. pose proof Hat as [(gst & gpk & gpc & Hg) Ht _ _ Hw].
  unfold down. eapply wp_read; [exact Hg|done|].
  destruct (btree_tree_addr _ _ _ _ _ (addr T) Ht) as [o Ho]; [rewrite addrs_kids; by left|].
  eapply wp_read; [exact Ho|done|].
  assert (bool_decide (status_of o = isOver) || (negb (is_leaf o) && (size_of o =? 1)) = bad true T) as ->.
  { destruct h as [|h], T as [a es|a st ks ts]; try done.
    - destruct Ht as (pad & Hm). simpl in Ho. rewrite Hm in Ho. injection Ho as <-. simpl. by rewrite orb_false_r.
    - destruct Ht as [(pk & pc & Hm & _) _]. simpl in Ho. rewrite Hm in Ho. injection Ho as <-. simpl. by rewrite length_map. }
  destruct (bad true T) eqn:Hbad.
  - rewrite wp_bind. eapply wp_mono; [|by eapply (fix_root_wp hd lk ksz kvsz alloc tid tid_ok)]. intros r s' Hr. exact Hr.
  - apply (walk_down root T k h []); try done. by apply Forall_nil.
Qed.

(** the place at the end of the search, in a tree that holds the same entries *)
Definition found (root : Z) (h : nat) (T : bt) (k : Z) (place : Z * Z * Z) s : Prop := ∃ h' T' C es,
  at_tree root h' T' (nodes s) ∧ holding tid ∅ s ∧ leads root h' T' k place C es ∧ bad (top C) (BL place.2 es) = false ∧
  ents (flat T') = ents (flat T) ∧ (h' + nbad true T' ≤ h + nbad true T)%nat.

Lemma down_again_wp inner root k : ∀ fuel h T cnt s, at_tree root h T (nodes s) → holding tid ∅ s →
  (h + nbad true T < inner)%nat → (effort T < fuel)%nat → 0 ≤ cnt → cnt + Z.of_nat (effort T) ≤ 100000000 →
  wp (iter fuel (down_again hd lk ksz kvsz alloc tid inner root k) cnt) (found root h T k) s.
Proof.
  induction fuel as [|fuel IH]; intros h T cnt s Hat Hh Hin Hfuel H0 Hcnt; [lia|]. cbn [iter].
  unfold down_again at 1. apply wp_assoc. rewrite wp_bind. eapply wp_mono; [|eapply (down_wp root T k h s inner); [done..|lia]].
  intros [place|b] s'.
  - intros (-> & C & es & Hl & Hgood). unfold wp; cbn. by exists h, T, C, es.
  - intros [(h' & T' & Hat' & [He Heff Hbud]) Hh'].
    assert (∀ cnt', 0 ≤ cnt' ≤ cnt + 1 →
      wp (iter fuel (down_again hd lk ksz kvsz alloc tid inner root k) cnt') (found root h T k) s') as Hnext.
    { intros cnt' Hc. eapply wp_mono; [|apply (IH h' T'); [done|done|lia|lia|lia|lia]].
      intros place s2 (h2 & T2 & C & es & ? & ? & ? & ? & He2 & ?). exists h2, T2, C, es. split_and!; try done; [congruence|lia]. }
    destruct b; [rewrite (proj2 (Z.eqb_neq _ _)) by lia|]; rewrite wp_bind; unfold wp at 1; cbn [run mret prog_ret];
      apply Hnext; lia.
Qed.

(** [find_and_fix] ends at the leaf for [k], without abort *)
Lemma find_and_fix_wp fuel root k h T s : at_tree root h T (nodes s) → holding tid ∅ s →
  (h + nbad true T < fuel)%nat → (effort T < fuel)%nat → Z.of_nat (effort T) ≤ 100000000 →
  wp (find_and_fix hd lk ksz kvsz alloc tid fuel root k) (found root h T k) s.
Proof. intros. apply down_again_wp; [done..|lia]. Qed.

(** ** The leaf for a key *)
Lemma leads_entries root h T k place C es : leads root h T k place C es →
  ents (flat T) = ents (cpre C) ++ es ++ ents (cpost C).
Proof. intros (-> & _ & HC & _). by rewrite plug_flat, !ents_app by done; simpl; rewrite ents_leaf. Qed.

Lemma leads_around root h T k place C es m : at_tree root h T m → leads root h T k place C es →
  below k (ents (cpre C)) ∧ above k (ents (cpost C)) ∧ sorted es.
Proof.
  intros Hat (-> & _ & HC & Hp & _). pose proof (at_ordered _ _ _ _ _ _ _ _ Hat) as Ho.
  destruct (path_before k 0 C _ HC Hp Ho) as [Hb Ha]. rewrite Forall_forall in Hb, Ha. split_and!.
  - apply Forall_forall. intros e He%ents_elem. apply (Hb _ He).
  - apply Forall_forall. intros e He%ents_elem. apply (Ha _ He).
  - rewrite plug_flat in Ho by done. apply ordered_app in Ho as (_ & Ho & _). apply ordered_app in Ho as (Ho & _ & _).
    apply ents_sorted in Ho. simpl in Ho. by rewrite ents_leaf in Ho.
Qed.

Lemma leads_ordered root h T k place C es m : at_tree root h T m → leads root h T k place C es →
  ordered (cpre C ++ (TE <$> es) ++ cpost C).
Proof. intros Hat (-> & _ & HC & _ & _). pose proof (at_ordered _ _ _ _ _ _ _ _ Hat) as Ho. by rewrite plug_flat in Ho. Qed.
Lemma leads_sorted root h T k place C es m : at_tree root h T m → leads root h T k place C es →
  sorted (ents (cpre C) ++ es ++ ents (cpost C)).
Proof.
  intros Hat Hl. pose proof (ents_sorted _ (at_ordered _ _ _ _ _ _ _ _ Hat)) as Hs. by rewrite (leads_entries _ _ _ _ _ _ _ Hl) in Hs.
Qed.
Lemma leads_lookup root h T k place C es m : at_tree root h T m → leads root h T k place C es →
  to_map (ents (flat T)) !! k = to_map es !! k.
Proof.
  intros Hat Hl. destruct (leads_around _ _ _ _ _ _ _ _ Hat Hl) as (Hb & Ha & Hs).
  pose proof (ents_sorted _ (at_ordered _ _ _ _ _ _ _ _ Hat)) as HsT. rewrite (leads_entries _ _ _ _ _ _ _ Hl) in *.
  pose proof (sorted_place k es Hs) as Hp. destruct (to_map es !! k) as [v|]; destruct Hp as (e1 & e2 & -> & Hb1 & Ha2).
  - rewrite <-!app_assoc, app_assoc in HsT |- *. simpl in *. by apply to_map_some.
  - rewrite <-!app_assoc, app_assoc. apply to_map_none; [by apply below_app|by apply above_app].
Qed.

(** the search without fixing *)
Lemma walk_find root T k : ∀ h C t fuel s, T = plug C t → at_tree root (length C + h) T (nodes s) →
  Forall frame_ok C → path k C → (h < fuel)%nat →
  wp (iter fuel (step_find k) (hole root C, addr t))
    (λ place s', s' = s ∧ ∃ C' es, leads root (length C + h) T k place C' es) s.
Proof.
  induction h as [|h IH]; intros C t [|fuel] s -> Hat HC Hp Hfuel; try lia;
    destruct (at_split _ _ _ _ _ _ _ _ _ Hat) as (_ & Ht & _); destruct t as [a es|a st ks ts]; try done;
    cbn [iter]; unfold step_find at 1; destruct (hole root C) as [gp pidx] eqn:Hhole; apply wp_assoc.
  - destruct Ht as (pad & Hm). eapply wp_read; [exact Hm|done|]. unfold wp; cbn. split; [done|].
    exists C, es. by rewrite Nat.add_0_r.
  - destruct (child_of _ _ _ k _ _ _ _ _ Hat HC) as (f & t & Heq & Hf & H1 & H2). rewrite Heq in *. clear Heq.
    pose proof Ht as [Hnode _]. destruct (node_at_lookup _ _ _ _ _ Hnode) as (pn & pks & pcs & Hpm).
    eapply wp_read; [exact Hpm|done|]. cbn [is_leaf]. apply wp_assoc.
    eapply (wp_search f t k); [exact Hnode|exact Hf|exact H1|exact H2|]. intros size keys Hfind. cbn beta iota.
    apply wp_assoc. eapply wp_lift; [exact Hfind|]. apply wp_assoc.
    eapply (wp_child tid _ _ _ _ (length (f_ts1 f)) (addr t)); [exact Hnode|rewrite map_app; apply list_lookup_middle; by rewrite length_map|done|].
    replace (length C + S h)%nat with (length (f :: C) + h)%nat by (simpl; lia).
    apply (IH (f :: C) t fuel s); [done|simpl length; by replace (S (length C) + h)%nat with (length C + S h)%nat by lia|
      by constructor|by constructor|lia].
Qed.

Lemma find_no_fix_wp root T k h s fuel : at_tree root h T (nodes s) → (h < fuel)%nat →
  wp (find_no_fix fuel root k) (λ place s', s' = s ∧ ∃ C es, leads root h T k place C es) s.
Proof.
  intros Hat Hfuel. pose proof Hat as [(gst & gpk & gpc & Hg) _ _ _ _].
  unfold find_no_fix. eapply wp_read; [exact Hg|done|].
  apply (walk_find root T k h []); try done. by apply Forall_nil.
Qed.

Lemma leads_leaf root h T k place C es m : at_tree root h T m → leads root h T k place C es →
  leaf_at hd kvsz m place.2 es ∧ ∃ st n ks ch, let o := node st false n ks ch in
    m !! place.1.1 = Some o ∧ get ch place.1.2 = inr place.2.
Proof.
  intros Hat (-> & -> & HC & _ & <-). rewrite <-(Nat.add_0_r (length C)) in Hat.
  destruct (at_split _ _ _ _ _ _ _ _ _ Hat) as (Hc & Ht & _ & Hnd & _). split; [exact Ht|].
  destruct (ctx_hole _ _ _ _ _ _ _ Hc Hnd) as (st & n & ks & ch & Hm & Hg & _). by exists st, n, ks, ch.
Qed.

(** *** A leaf and its replacement *)
Lemma wp_update {A} root h T k place C es es' pad F (K : bool → prog state A) Q s :
  at_tree root h T (nodes s) → holding tid ∅ s → leads root h T k place C es →
  wf (top C) 0 (BL 0 es') → ordered (cpre C ++ (TE <$> es') ++ cpost C) →
  Z.of_nat (length (es' ++ pad)) ≤ leaf_block_size hd kvsz →
  (∀ Q' s', wp (n ← new_leaf hd kvsz alloc (len es') (es' ++ pad);
                store (child_c place.1.1 place.1.2) n ;; retire place.2 ;; mret true) Q' s' → wp F Q' s') →
  (∀ a s', at_tree root h (plug C (BL a es')) (nodes s') → holding tid ∅ s' → wp (K true) Q s') →
  wp (try_lock tid place.1.1
        (rm ← load (removed_c place.1.1);
         x ← (if (rm : bool) then mret 0 else load (child_c place.1.1 place.1.2));
         if rm || negb (x =? place.2) then mret false else F) ≫= K) Q s.
Proof.
  intros Hat Hh Hl Hw Ho Hcap HF HK. pose proof Hl as (HT & Hlen & HC & _ & Hhole).
  destruct (leads_leaf _ _ _ _ _ _ _ _ Hat Hl) as [Hleaf (st & n & ks & ch & Hg & Hget)].
  eapply (wp_try_lock tid tid_ok ∅); [exact Hh|apply not_elem_of_empty|exact Hg|]. intros s1 Hs1 _ Hh1.
  rewrite <-Hs1 in *. eapply wp_read; [exact Hg|done|]. cbn beta iota. eapply wp_read; [exact Hg|exact Hget|].
  rewrite Z.eqb_refl. cbn [orb negb]. apply HF.
  eapply (wp_new_leaf hd kvsz alloc tid); [done|exact Hcap|]. intros a s2 He Ha.
  eapply wp_write; [by apply (ex_keep _ _ _ _ He)|exact Hget|]. apply wp_retire. unfold wp; cbn [run mret prog_ret].
  split; [|split].
  - eapply holding_same_locks; [|apply (ex_holding _ _ _ _ He); [|exact Hh1]]; [done|].
    intros y. rewrite elem_of_union, elem_of_singleton. intros [->|Hy]; [by eexists|by apply elem_of_empty in Hy].
  - simpl. rewrite lookup_insert_eq. by eexists.
  - intros s3 Hs3 _ Hh3. apply (HK a); [|exact Hh3]. rewrite Hs3. subst T h. rewrite <-(Nat.add_0_r (length C)) in *.
    eapply (linked hd lk ksz kvsz root C 0 (BL place.2 es) (BL a es') [place.2] [a] tid s1 s2);
      [exact Hat|exact HC|exact He|exact Hw|exact Ha|reflexivity| | | |].
    + by rewrite plug_flat.
    + rewrite Hhole. exact Hg.
    + rewrite Hhole. simpl. by rewrite lookup_insert_eq.
    + rewrite Hhole. intros y Hy _ _. simpl. by rewrite lookup_insert_ne.
Qed.

(** a leaf that is passed by can take an entry, and give one away *)
Lemma good_leaf root h a es : wf root h (BL a es) → bad root (BL a es) = false →
  len es < leaf_block_size hd kvsz ∧ (root = true ∨ leaf_min_size hd kvsz < len es).
Proof.
  intros Hw Hgood. destruct h; [|done]. destruct Hw as [Hcap Hmin]. pose proof (leaf_status_spec hd kvsz (len es)) as Hs.
  simpl in Hgood. destruct root.
  - apply bool_decide_eq_false in Hgood. split; [|by left]. pose proof (lmin_bounds hd kvsz).
    destruct (leaf_status hd kvsz (len es)); [done|lia|lia].
  - destruct Hmin as [?|Hmin]; [done|]. apply negb_false_iff, bool_decide_eq_true in Hgood. rewrite Hgood in Hs.
    destruct Hs as [? ?]; [lia|]. split; [lia|right; lia].
Qed.

(** *** The budget *)
Lemma depths_bound h : ∀ t d, wf false h t → (depths' hd kvsz d t ≤ (d + h) * nbad' hd kvsz t)%nat.
Proof.
  induction h as [|h IH]; intros [a es|a st ks ts] d; try done; rewrite depths_inner, nbad_inner; unfold depths, BTreeProof.nbad.
  - intros _. cbn [kids total foldr]. destruct (bad false (BL a es)); simpl Nat.b2n; nia.
  - intros (_ & _ & _ & Hts). assert (total (depths' hd kvsz (S d)) ts ≤ (d + S h) * total (nbad' hd kvsz) ts)%nat as Ht.
    { induction Hts as [|t ts Ht Hts IHts]; simpl; [lia|]. specialize (IH t (S d) Ht). nia. }
    cbn [kids]. destruct (bad false (BN a st ks ts)); simpl Nat.b2n; nia.
Qed.
Lemma effort_bound h T n : wf true h T → (h + nbad true T ≤ n)%nat → (effort T ≤ n * S n)%nat.
Proof.
  intros Hw Hn. assert (depths hd kvsz true 1 T ≤ S h * nbad true T)%nat as Hd.
  { unfold depths, BTreeProof.nbad. destruct h as [|h], T as [a es|a st ks ts]; try done; cbn [kids].
    - cbn [total foldr]. destruct (bad true (BL a es)); simpl Nat.b2n; nia.
    - destruct Hw as (_ & _ & _ & Hts).
      assert (total (depths' hd kvsz 2) ts ≤ S (S h) * total (nbad' hd kvsz) ts)%nat as Ht.
      { clear Hn. induction Hts as [|t ts Ht Hts IHts]; simpl; [lia|]. pose proof (depths_bound h t 2 Ht). nia. }
      destruct (bad true (BN a st ks ts)); simpl Nat.b2n; nia. }
  unfold BTreeProof.effort. nia.
Qed.
Lemma leaf_budget C a a' es es' : bad (top C) (BL a es) = false →
  (nbad true (plug C (BL a' es')) ≤ S (nbad true (plug C (BL a es))))%nat.
Proof.
  intros Hgood. destruct (plug_nbad hd kvsz C) as [N HN]. rewrite !HN. unfold BTreeProof.nbad. rewrite Hgood. simpl.
  destruct (if top C then _ else _); simpl; lia.
Qed.

(** the tree at [root] holds [M]; [n] updates may have been done *)
Definition btree_repr (root : Z) (n : nat) (M : gmap Z Z) s : Prop := ∃ h T,
  at_tree root h T (nodes s) ∧ holding tid ∅ s ∧ M = to_map (ents (flat T)) ∧ (h + nbad true T ≤ n)%nat.
(** fuel, and the patience of [find_and_fix], for [n] updates *)
Definition patient (fuel n : nat) : Prop := (n * S n < fuel)%nat ∧ Z.of_nat (n * S n) ≤ 100000000.

Lemma wp_found {A} root n M fuel k (K : Z * Z * Z → prog state A) Q s : btree_repr root n M s → patient fuel n →
  (∀ p i a h T C es s', at_tree root h T (nodes s') → holding tid ∅ s' → leads root h T k (p, i, a) C es →
     bad (top C) (BL a es) = false → M = to_map (ents (flat T)) → (h + nbad true T ≤ n)%nat → wp (K (p, i, a)) Q s') →
  wp (find_and_fix hd lk ksz kvsz alloc tid fuel root k ≫= K) Q s.
Proof.
  intros (h & T & Hat & Hh & -> & Hn) [Hf Hp] HK. rewrite wp_bind.
  pose proof (effort_bound _ _ _ (at_wf _ _ _ _ _ _ _ _ Hat) Hn) as He.
  eapply wp_mono; [|apply (find_and_fix_wp fuel root k h T s Hat Hh); [nia|lia|lia]].
  intros [[p i] a] s' (h' & T' & C & es & Hat' & Hh' & Hl & Hgood & He' & Hn').
  eapply HK; [exact Hat'|exact Hh'|exact Hl|exact Hgood|by rewrite He'|lia].
Qed.

Lemma updated root n h T k p i a C es es' a' s' M' : at_tree root h (plug C (BL a' es')) (nodes s') → holding tid ∅ s' →
  leads root h T k (p, i, a) C es → bad (top C) (BL a es) = false → (h + nbad true T ≤ n)%nat →
  M' = to_map (ents (cpre C) ++ es' ++ ents (cpost C)) → btree_repr root (S n) M' s'.
Proof.
  intros Hat Hh (-> & _ & HC & _ & _) Hgood Hn ->. exists h, (plug C (BL a' es')). split; [exact Hat|]. split; [exact Hh|].
  split; [by rewrite plug_flat, !ents_app by done; simpl; rewrite ents_leaf|].
  pose proof (leaf_budget C a a' es es' Hgood). simpl in Hn. lia.
Qed.
Lemma repr_more root n n' M s : (n ≤ n')%nat → btree_repr root n M s → btree_repr root n' M s.
Proof. intros Hle (h & T & ? & ? & ? & ?). exists h, T. split_and!; try done. lia. Qed.

(** the sequence with an entry put in or taken out at its place *)
Lemma tokens_insert C e1 k v e2 T root h m : at_tree root h T m → (∃ place, leads root h T k place C (e1 ++ e2)) →
  below k e1 → above k e2 → ordered (cpre C ++ (TE <$> (e1 ++ (k, v) :: e2)) ++ cpost C).
Proof.
  intros Hat [place (-> & _ & HC & Hp & _)] Hb Ha. pose proof (at_ordered _ _ _ _ _ _ _ _ Hat) as Ho.
  destruct (path_before k v C _ HC Hp Ho) as [Hpb Hpa]. rewrite plug_flat in Ho by done. simpl in Ho.
  rewrite fmap_app, <-!app_assoc, app_assoc in *. simpl. apply ordered_middle; [exact Ho| |].
  - apply Forall_app. split; [exact Hpb|]. apply Forall_fmap. exact Hb.
  - apply Forall_app. split; [|exact Hpa]. apply Forall_fmap. exact Ha.
Qed.
Lemma tokens_remove C e1 k v e2 : ordered (cpre C ++ (TE <$> (e1 ++ (k, v) :: e2)) ++ cpost C) →
  ordered (cpre C ++ (TE <$> (e1 ++ e2)) ++ cpost C).
Proof.
  rewrite !fmap_app, <-!app_assoc, !(app_assoc (cpre C)). simpl. by intros [? _]%ordered_remove.
Qed.

(** ** The operations *)
Lemma wp_still_leaf {A} root h T k p i a C es (K : bool → prog state A) Q s : at_tree root h T (nodes s) →
  leads root h T k (p, i, a) C es → wp (K true) Q s → wp (still_leaf p i a ≫= K) Q s.
Proof.
  intros Hat Hl HK. destruct (leads_leaf _ _ _ _ _ _ _ _ Hat Hl) as [_ (st & n & ks & ch & Hg & Hget)].
  unfold still_leaf, read_lock, lock.read_lock. apply wp_assoc. eapply wp_read; [exact Hg|exact Hget|].
  rewrite Z.eqb_refl. cbn [negb]. apply wp_assoc. eapply wp_read; [exact Hg|done|]. exact HK.
Qed.

Lemma btree_find_wp root n M fuel k s : btree_repr root n M s → (n < fuel)%nat →
  wp (find_ fuel root k) (λ r s', r = M !! k ∧ btree_repr root n M s') s.
Proof.
  intros (h & T & Hat & Hh & -> & Hn) Hf. unfold find_. rewrite wp_bind.
  eapply wp_mono; [|apply (find_no_fix_wp root T k h s fuel Hat); lia].
  intros [[p i] a] s' (-> & C & es & Hl). destruct (leads_leaf _ _ _ _ _ _ _ _ Hat Hl) as [Hleaf _].
  eapply wp_as_leaf; [exact Hleaf|]. intros pad. cbn beta iota.
  refine (proj1 (wp_bind_ret _ _ _) _). eapply wp_lift.
  { apply leaf_find_spec. by destruct (leads_around _ _ _ _ _ _ _ _ Hat Hl) as (_ & _ & ?). }
  unfold wp; cbn [run mret prog_ret]. split; [by rewrite (leads_lookup _ _ _ _ _ _ _ _ Hat Hl)|]. by exists h, T.
Qed.

Lemma leads_good root h T k p i a C es m : at_tree root h T m → leads root h T k (p, i, a) C es →
  bad (top C) (BL a es) = false →
  len es < leaf_block_size hd kvsz ∧ (top C = true ∨ leaf_min_size hd kvsz < len es).
Proof.
  intros Hat (-> & -> & _) Hgood. rewrite <-(Nat.add_0_r (length C)) in Hat.
  destruct (at_split _ _ _ _ _ _ _ _ _ Hat) as (_ & _ & Hw & _). by eapply good_leaf.
Qed.

(** the new leaf with an entry more *)
Lemma wp_insert_leaf {A} root n h T k v p i a C e1 e2 pad M (K : bool → prog state A) Q s : at_tree root h T (nodes s) →
  holding tid ∅ s → leads root h T k (p, i, a) C (e1 ++ e2) → bad (top C) (BL a (e1 ++ e2)) = false →
  below k e1 → above k e2 → (h + nbad true T ≤ n)%nat → M = to_map (ents (flat T)) →
  (∀ s', btree_repr root (S n) (<[k := v]> M) s' → wp (K true) Q s') →
  wp (try_lock tid p
        (rm ← load (removed_c p);
         x ← (if (rm : bool) then mret 0 else load (child_c p i));
         if rm || negb (x =? a) then mret false
         else new ← lift (insert_leaf hd kvsz (len (e1 ++ e2)) ((e1 ++ e2) ++ pad) k v false);
              n ← new_leaf hd kvsz alloc new.1 new.2;
              store (child_c p i) n ;; retire a ;; mret true) ≫= K) Q s.
Proof.
  intros Hat Hh Hl Hgood Hb Ha Hn -> HK. destruct (leads_good _ _ _ _ _ _ _ _ _ _ Hat Hl Hgood) as [Hlt Hmin].
  destruct (insert_leaf_spec hd kvsz k v e1 e2 pad Hb Ha Hlt) as (pad' & Hins & Hcap).
  assert (len (e1 ++ (k, v) :: e2) = len (e1 ++ e2) + 1) as Hl1 by (rewrite !length_app; simpl; lia).
  pose proof (tokens_insert C e1 k v e2 T root h _ Hat ltac:(eauto) Hb Ha) as Ho.
  eapply (wp_update root h T k (p, i, a) C (e1 ++ e2) (e1 ++ (k, v) :: e2) pad');
    [exact Hat|exact Hh|exact Hl| |exact Ho|lia| |].
  - cbn [BTreeProof.wf]. rewrite Hl1. split; [lia|]. destruct Hmin; [by left|right; lia].
  - intros Q' s' HQ. eapply wp_lift; [exact Hins|]. exact HQ.
  - intros a' s' Hat' Hh'. apply HK. eapply updated; [exact Hat'|exact Hh'|exact Hl|exact Hgood|exact Hn|].
    pose proof (ents_sorted _ (at_ordered _ _ _ _ _ _ _ _ Hat')) as Hs. rewrite plug_flat, !ents_app in Hs by apply Hl. simpl in Hs.
    rewrite ents_leaf in Hs. rewrite (leads_entries _ _ _ _ _ _ _ Hl). rewrite <-!app_assoc, !(app_assoc (ents (cpre C)) e1) in *.
    symmetry. by apply to_map_insert.
Qed.

Lemma btree_insert_wp root n M fuel k v s : btree_repr root n M s → patient fuel n →
  wp (insert_ hd lk ksz kvsz alloc tid fuel root k v) (λ b s', b = bool_decide (M !! k = None) ∧
    btree_repr root (S n) (if b then <[k := v]> M else M) s') s.
Proof.
  intros Hr Hp. unfold insert_. destruct fuel as [|fuel]; [destruct Hp; lia|]. apply wp_try_loop.
  unfold try_insert. eapply wp_found; [exact Hr|exact Hp|]. clear Hr s.
  intros p i a h T C es s Hat Hh Hl Hgood HM Hn. cbn beta iota.
  destruct (leads_leaf _ _ _ _ _ _ _ _ Hat Hl) as [Hleaf _]. destruct (leads_around _ _ _ _ _ _ _ _ Hat Hl) as (_ & _ & Hs).
  eapply wp_as_leaf; [exact Hleaf|]. intros pad. cbn beta iota. eapply wp_lift; [by apply leaf_find_spec|].
  pose proof (leads_lookup _ _ _ _ _ _ _ _ Hat Hl) as Hk. rewrite <-HM in Hk. rewrite <-Hk. pose proof (sorted_place k es Hs) as Hpl.
  rewrite <-Hk in Hpl. destruct (M !! k) as [w|] eqn:E; cbn [negb andb].
  - rewrite bool_decide_eq_true_2 by done. eapply wp_still_leaf; [exact Hat|exact Hl|]. unfold wp; cbn [run mret prog_ret].
    exists false. split; [done|]. split; [done|]. exists h, T. split_and!; try done. lia.
  - rewrite bool_decide_eq_false_2 by (by intros [? ?]). destruct Hpl as (e1 & e2 & -> & Hb & Ha).
    eapply (wp_insert_leaf root n h T k v p i a C e1 e2 pad M); [exact Hat|exact Hh|exact Hl|exact Hgood|exact Hb|exact Ha|exact Hn|exact HM|].
    intros s' Hr. unfold wp; cbn [run mret prog_ret]. exists true. split; [done|]. done.
Qed.

Lemma tokens_same C e1 k w v e2 : ordered (cpre C ++ (TE <$> (e1 ++ (k, w) :: e2)) ++ cpost C) →
  ordered (cpre C ++ (TE <$> (e1 ++ (k, v) :: e2)) ++ cpost C).
Proof.
  rewrite !fmap_app, <-!app_assoc, !(app_assoc (cpre C)). simpl. intros (Ho & H1 & H2)%ordered_remove. by apply ordered_middle.
Qed.

Lemma upsert_wp root n M fuel k v s : btree_repr root n M s → patient fuel n →
  wp (upsert_ hd lk ksz kvsz alloc tid fuel root k v) (λ b s', b = true ∧ btree_repr root (S n) (<[k := v]> M) s') s.
Proof.
  intros Hr Hp. unfold upsert_. destruct fuel as [|fuel]; [destruct Hp; lia|]. apply wp_try_loop.
  unfold try_insert. eapply wp_found; [exact Hr|exact Hp|]. clear Hr s.
  intros p i a h T C es s Hat Hh Hl Hgood HM Hn. cbn beta iota.
  destruct (leads_leaf _ _ _ _ _ _ _ _ Hat Hl) as [Hleaf _]. destruct (leads_around _ _ _ _ _ _ _ _ Hat Hl) as (_ & _ & Hs).
  eapply wp_as_leaf; [exact Hleaf|]. intros pad. cbn [negb andb].
  change ((mret None : prog state (option Z)) ≫= ?K) with (K None). cbn beta iota.
  rewrite (leaf_find_spec k es pad Hs). change (lift (inr ?r) ≫= ?K) with (K r). cbn beta iota.
  pose proof (leads_lookup _ _ _ _ _ _ _ _ Hat Hl) as Hk. rewrite <-HM in Hk. rewrite <-Hk. pose proof (sorted_place k es Hs) as Hpl.
  rewrite <-Hk in Hpl. destruct (M !! k) as [w|] eqn:E.
  - rewrite bool_decide_eq_true_2 by done. destruct Hpl as (e1 & e2 & -> & Hb & Ha).
    destruct (leads_good _ _ _ _ _ _ _ _ _ _ Hat Hl Hgood) as [Hlt Hmin].
    destruct (upsert_leaf_spec hd kvsz k v w e1 e2 pad Hb Ha Hlt) as (pad' & Hins & Hcap).
    assert (len (e1 ++ (k, v) :: e2) = len (e1 ++ (k, w) :: e2)) as Hl1 by (rewrite !length_app; simpl; lia).
    eapply (wp_update root h T k (p, i, a) C _ (e1 ++ (k, v) :: e2) pad'); [exact Hat|exact Hh|exact Hl| | |lia| |].
    + cbn [BTreeProof.wf]. rewrite Hl1. split; [lia|]. destruct Hmin; [by left|right; lia].
    + apply (tokens_same C e1 k w). by eapply leads_ordered.
    + intros Q' s' HQ. eapply wp_lift; [exact Hins|]. exact HQ.
    + intros a' s' Hat' Hh'. unfold wp; cbn [run mret prog_ret]. exists true. split; [done|]. split; [done|].
      eapply updated; [exact Hat'|exact Hh'|exact Hl|exact Hgood|exact Hn|].
      pose proof (leads_sorted _ _ _ _ _ _ _ _ Hat Hl) as Hs1. rewrite HM, (leads_entries _ _ _ _ _ _ _ Hl).
      pose proof (ents_sorted _ (at_ordered _ _ _ _ _ _ _ _ Hat')) as Hs2. rewrite plug_flat, !ents_app in Hs2 by apply Hl.
      simpl in Hs2. rewrite ents_leaf in Hs2. rewrite <-!app_assoc, !(app_assoc (ents (cpre C)) e1) in *. simpl in *.
      rewrite !to_map_insert by done. by rewrite insert_insert_eq.
  - rewrite bool_decide_eq_false_2 by (by intros [? ?]). destruct Hpl as (e1 & e2 & -> & Hb & Ha).
    eapply (wp_insert_leaf root n h T k v p i a C e1 e2 pad M); [exact Hat|exact Hh|exact Hl|exact Hgood|exact Hb|exact Ha|exact Hn|exact HM|].
    intros s' Hr. unfold wp; cbn [run mret prog_ret]. exists true. split; [done|]. done.
Qed.

Lemma btree_remove_wp root n M fuel k s : btree_repr root n M s → patient fuel n →
  wp (remove_ hd lk ksz kvsz alloc tid fuel root k) (λ b s', b = bool_decide (is_Some (M !! k)) ∧
    btree_repr root (S n) (delete k M) s') s.
Proof.
  intros Hr Hp. unfold remove_. destruct fuel as [|fuel]; [destruct Hp; lia|]. apply wp_try_loop.
  unfold try_remove. eapply wp_found; [exact Hr|exact Hp|]. clear Hr s.
  intros p i a h T C es s Hat Hh Hl Hgood HM Hn. cbn beta iota.
  destruct (leads_leaf _ _ _ _ _ _ _ _ Hat Hl) as [Hleaf _]. destruct (leads_around _ _ _ _ _ _ _ _ Hat Hl) as (_ & _ & Hs).
  eapply wp_as_leaf; [exact Hleaf|]. intros pad. cbn beta iota. eapply wp_lift; [by apply leaf_find_spec|].
  pose proof (leads_lookup _ _ _ _ _ _ _ _ Hat Hl) as Hk. rewrite <-HM in Hk. rewrite <-Hk. pose proof (sorted_place k es Hs) as Hpl.
  rewrite <-Hk in Hpl. destruct (M !! k) as [w|] eqn:E; cbn [negb andb].
  - rewrite bool_decide_eq_true_2 by done. destruct Hpl as (e1 & e2 & -> & Hb & Ha).
    destruct (leads_good _ _ _ _ _ _ _ _ _ _ Hat Hl Hgood) as [Hlt Hmin].
    destruct (remove_leaf_spec hd kvsz k w e1 e2 pad Hb Ha ltac:(lia)) as (pad' & Hins & Hcap).
    assert (len (e1 ++ e2) = len (e1 ++ (k, w) :: e2) - 1) as Hl1 by (rewrite !length_app; simpl; lia).
    cbn [negb]. eapply (wp_update root h T k (p, i, a) C _ (e1 ++ e2) pad'); [exact Hat|exact Hh|exact Hl| | |lia| |].
    + cbn [BTreeProof.wf]. rewrite Hl1. split; [lia|]. destruct Hmin; [by left|right; lia].
    + apply (tokens_remove C e1 k w). by eapply leads_ordered.
    + intros Q' s' HQ. eapply wp_lift; [exact Hins|]. exact HQ.
    + intros a' s' Hat' Hh'. unfold wp; cbn [run mret prog_ret]. exists true. split; [done|]. split; [done|].
      eapply updated; [exact Hat'|exact Hh'|exact Hl|exact Hgood|exact Hn|].
      pose proof (leads_sorted _ _ _ _ _ _ _ _ Hat Hl) as Hs1. rewrite HM, (leads_entries _ _ _ _ _ _ _ Hl).
      rewrite <-!app_assoc, !(app_assoc (ents (cpre C)) e1) in *. simpl in *. by apply to_map_delete.
  - rewrite bool_decide_eq_false_2 by (by intros [? ?]). cbn [negb]. eapply wp_still_leaf; [exact Hat|exact Hl|].
    unfold wp; cbn [run mret prog_ret]. exists false. split; [done|]. split; [done|]. rewrite delete_id by done.
    exists h, T. split_and!; try done. lia.
Qed.

(** an empty leaf below the root *)
Lemma make_wp s : holding tid ∅ s →
  wp (ordered_map hd lk ksz kvsz alloc) (λ root s', btree_repr root 0 ∅ s') s.
Proof.
  intros Hh. unfold ordered_map. pose proof (cap_large hd kvsz). pose proof (ncap_large hd lk ksz).
  eapply (wp_new_leaf hd kvsz alloc tid 0 [] []); [done|simpl; lia|]. intros l s1 He1 Hl. unfold new_root.
  refine (proj1 (wp_bind_ret _ _ _) _).
  eapply (wp_new_node hd lk ksz alloc tid OK 1 [] [l]); [done|done|simpl; lia|]. intros root s2 He2 Hr.
  unfold wp; cbn [run mret prog_ret]. exists 0%nat, (BL l []).
  destruct (ex_new _ _ _ _ He1 l) as (_ & [ol Hol] & _); [by left|]. destruct (ex_new _ _ _ _ He2 root) as (Hn & _); [by left|].
  split; [|split; [|split; [done|]]].
  - split.
    + destruct Hr as (pk & pc & Hm & _). by exists OK, ([] ++ pk), pc.
    + by eapply leaf_at_extends.
    + apply NoDup_cons. split; [|apply NoDup_singleton]. intros ->%list_elem_of_singleton. simpl in *. congruence.
    + constructor.
    + simpl. split; [lia|by left].
  - apply (ex_holding _ _ _ _ He2); [by intros y ?%elem_of_empty|]. apply (ex_holding _ _ _ _ He1); [by intros y ?%elem_of_empty|done].
  - unfold BTreeProof.nbad. simpl. rewrite bool_decide_eq_false_2; [done|]. pose proof (leaf_status_spec hd kvsz 0) as Hs.
    intros Hov. change (Z.of_nat 0) with 0 in Hov. rewrite Hov in Hs. lia.
Qed.

(** ** Theorems *)
Context (with_epoch : ∀ A, prog state A → prog state A) {transparent : EpochTransparent with_epoch}.
Definition btree_ops (root : Z) : dict_ops state :=
  DictOps (λ fuel k, find with_epoch fuel root k)
          (λ fuel k v, insert hd lk ksz kvsz alloc tid with_epoch fuel root k v)
          (λ fuel k, remove hd lk ksz kvsz alloc tid with_epoch fuel root k).

Lemma patient_less fuel n n' : (n' ≤ n)%nat → patient fuel n → patient fuel n'.
Proof. intros Hle [H1 H2]. assert (n' * S n' ≤ n * S n)%nat by nia. split; lia. Qed.

Lemma btree_perform fuel c root n M s : patient fuel n → (n < fuel)%nat → btree_repr root n M s →
  wp (perform (btree_ops root) fuel c) (λ a s', a = (meaning c M).1 ∧ btree_repr root (S n) (meaning c M).2 s') s.
Proof.
  intros Hp Hf Hr. destruct c as [k|k v|k]; simpl; rewrite wp_bind;
    unfold find, insert, remove; apply with_epoch_wp.
  - eapply wp_mono; [|by eapply btree_find_wp]. intros r s' [-> Hr']. unfold wp; cbn. split; [done|]. eapply repr_more; [|exact Hr']. lia.
  - eapply wp_mono; [|by eapply btree_insert_wp]. intros b s' [-> Hr']. unfold wp; cbn [run mret prog_ret].
    destruct (M !! k); exact (conj eq_refl Hr').
  - eapply wp_mono; [|by eapply btree_remove_wp]. intros b s' [-> Hr']. unfold wp; cbn [run mret prog_ret].
    destruct (M !! k) eqn:E; [exact (conj eq_refl Hr')|]. rewrite delete_id in Hr' by done. exact (conj eq_refl Hr').
Qed.

Lemma btree_perform_all fuel root cs : ∀ n M s, patient fuel (n + length cs) → (n + length cs < fuel)%nat →
  btree_repr root n M s → wp (perform_all (btree_ops root) fuel cs) (λ l s', l = (meaning_all cs M).1 ∧
    btree_repr root (n + length cs) (meaning_all cs M).2 s') s.
Proof.
  induction cs as [|c cs IH]; intros n M s Hp Hf Hr; simpl in *.
  - unfold wp; cbn. by rewrite Nat.add_0_r.
  - rewrite wp_bind. eapply wp_mono; [|apply (btree_perform fuel c root n M s); [eapply patient_less; [|exact Hp]; lia|lia|done]].
    intros a s' [-> Hr']. destruct (meaning c M) as [a M1]. simpl in *. rewrite wp_bind.
    rewrite <-Nat.add_succ_comm in *. eapply wp_mono; [|by apply IH]. intros l s2 [-> Hr2].
    destruct (meaning_all cs M1) as [l M2]. done.
Qed.

(** C11: a newly made B-tree answers any sequence of finds, inserts and removes
    of one thread as a finite map does.  However the searches split, join and
    rebalance nodes on the way, [find_and_fix] ends before it gives up, blocks
    are read and written inside their arrays, no retired node is used, and no
    lock is left taken.  The sessions are of n operations with n(n+1) at most
    10^8, the number of rounds after which the code itself aborts. *)
Theorem btree_refines_map fuel cs s : holding tid ∅ s → (length cs * S (length cs) < fuel)%nat →
  Z.of_nat (length cs * S (length cs)) ≤ 100000000 →
  wp (session (ordered_map hd lk ksz kvsz alloc) btree_ops fuel cs) (λ answers s',
    answers = (meaning_all cs ∅).1 ∧ ∃ root, btree_repr root (length cs) (meaning_all cs ∅).2 s') s.
Proof.
  intros Hh Hf Hp. unfold session. rewrite wp_bind. eapply wp_mono; [|by apply make_wp]. intros root s1 Hr.
  eapply wp_mono; [|eapply (btree_perform_all fuel root cs 0 ∅ s1); [done| |done]; nia].
  intros l s2 [-> Hr2]. split; [done|]. by exists root.
Qed.

(** C37: an upsert binds its key, whether it was bound before or not; the tree
    is one of n updates, with n(n+1) at most the 10^8 rounds of the code. *)
Theorem btree_upsert_binds fuel root k v n M s : btree_repr root n M s → patient fuel n →
  wp (upsert hd lk ksz kvsz alloc tid with_epoch fuel root k v) (λ b s', b = true ∧
    btree_repr root (S n) (<[k := v]> M) s') s.
Proof. intros Hr Hp. unfold upsert. apply with_epoch_wp. by apply upsert_wp. Qed.

(** C12: in a well-formed tree [find_and_fix] ends, whatever nodes are full or
    meagre: each round that meets such a node lessens what is left to fix.  It
    does not reach its abort, leaves the entries as they are, and arrives at
    the leaf for the key, which has room for an entry and one to spare.  This
    is for trees whose effort is at most the 10^8 rounds that the code gives
    itself. *)
Theorem find_and_fix_ends fuel root k h T s : at_tree root h T (nodes s) → holding tid ∅ s →
  (h + nbad true T < fuel)%nat → (effort T < fuel)%nat → Z.of_nat (effort T) ≤ 100000000 →
  wp (find_and_fix hd lk ksz kvsz alloc tid fuel root k) (λ place s', ∃ h' T' C es,
    at_tree root h' T' (nodes s') ∧ holding tid ∅ s' ∧ leads root h' T' k place C es ∧
    ents (flat T') = ents (flat T) ∧ len es < leaf_block_size hd kvsz ∧
    (top C = true ∨ leaf_min_size hd kvsz < len es)) s.
Proof.
  intros Hat Hh H1 H2 H3. eapply wp_mono; [|by apply find_and_fix_wp].
  intros [[p i] a] s' (h' & T' & C & es & Hat' & Hh' & Hl & Hgood & He & _). exists h', T', C, es.
  pose proof (leads_good _ _ _ _ _ _ _ _ _ _ Hat' Hl Hgood). tauto.
Qed.
End search.

(** ** Instances *)
(** a root above one leaf, full with five entries *)
Definition five : list KV := [(10, 1); (20, 2); (30, 3); (40, 4); (50, 5)].
Definition full_store : store_state obj :=
  mkStore (list_to_map [(1, node OK false 1 [] [2]); (2, leaf isOver 5 five)]) ∅ [].
Lemma full_store_at : at_tree 8 8 1000 1000 1 0 (BL 2 five) (nodes full_store).
Proof.
  split.
  - by exists OK, [], [].
  - by exists [].
  - by apply (bool_decide_unpack (NoDup _)).
  - simpl. by repeat (constructor; [|by repeat constructor]); constructor.
  - simpl. split; [by vm_compute|by left].
Qed.
Lemma full_store_holding : holding 0 ∅ full_store.
Proof. apply (holding_same_locks 0 ∅ empty_store); [done|apply holding_empty]. Qed.
Lemma full_store_repr : btree_repr 8 8 1000 1000 0 1 1 (to_map five) full_store.
Proof.
  exists 0%nat, (BL 2 five). split; [apply full_store_at|]. split; [apply full_store_holding|]. split; [done|].
  vm_compute. lia.
Qed.

Example btree_refines_map_witness : small_tid 0 ∧
  wp (session (ordered_map 8 8 8 16 next_addr) (btree_ops 8 8 8 16 next_addr 0 (λ A p, p)) 31
        [Insert 5 50; Insert 3 30; Insert 5 51; Remove 3; Find 5])
     (λ answers _, answers = [AInsert true; AInsert true; AInsert false; ARemove true; AFind (Some 50)])
     empty_store.
Proof.
  assert (small_tid 0) as Ht by (unfold small_tid; lia). split; [exact Ht|].
  eapply wp_mono; [|apply (btree_refines_map 8 8 8 16 next_addr 0 Ht (λ A p, p)); [apply holding_empty|simpl; lia|simpl; lia]].
  intros r s' [-> _]. reflexivity.
Defined.

Example btree_upsert_binds_witness : small_tid 0 ∧
  wp (upsert 8 8 1000 1000 next_addr 0 (λ A p, p) 3 1 20 7) (λ b s', b = true ∧
    btree_repr 8 8 1000 1000 0 1 2 (<[20 := 7]> (to_map five)) s') full_store.
Proof.
  assert (small_tid 0) as Ht by (unfold small_tid; lia). split; [exact Ht|].
  apply (btree_upsert_binds 8 8 1000 1000 next_addr 0 Ht (λ A p, p)); [apply full_store_repr|]. split; simpl; lia.
Defined.

Example find_and_fix_ends_witness : small_tid 0 ∧
  wp (find_and_fix 8 8 1000 1000 next_addr 0 4 1 35) (λ place s', ∃ h' T' C es,
    at_tree 8 8 1000 1000 1 h' T' (nodes s') ∧ leads 1 h' T' 35 place C es ∧
    ents (flat T') = five ∧ Z.of_nat (length es) < 5) full_store.
Proof.
  assert (small_tid 0) as Ht by (unfold small_tid; lia). split; [exact Ht|].
  eapply wp_mono; [|apply (find_and_fix_ends 8 8 1000 1000 next_addr 0 Ht 4 1 35 0 (BL 2 five));
    [apply full_store_at|apply full_store_holding|vm_compute; lia|vm_compute; lia|vm_compute; discriminate]].
  intros place s' (h' & T' & C & es & ? & _ & ? & ? & ? & _). exists h', T', C, es. split_and!; try done.
Defined.
