(* ===== verification/BTreeRange.v ===== *)
(** * BTreeRange: the range search of [BTree] reports the entries from its
    lower bound up to, and without, its upper bound. *)

From stdpp Require Import prelude list gmap sorting.
From Stdlib Require Import ZArith Lia Sorted.
From S2P Require Import Prelude Conc SpinLock Store MapSpec Arrays BTree BTreeNodes BTreeProof BTreeFix BTreeMap.
Import BTree.
Local Open Scope Z_scope.
#[local] Abbreviation KV := (Z * Z)%type.

(** the entries from [a] up to [b] *)
Definition between (a b : Z) (l : list KV) : list KV := filter (λ e, a ≤ e.1 < b) l.
Lemma between_app a b l1 l2 : between a b (l1 ++ l2) = between a b l1 ++ between a b l2.
Proof. apply filter_app. Qed.
Lemma between_none a b l : (∀ e, e ∈ l → e.1 < a ∨ b ≤ e.1) → between a b l = [].
Proof. intros H. apply filter_none. intros e He. destruct (H e He); lia. Qed.
Lemma between_all a b l : Forall (λ e, a ≤ e.1 < b) l → between a b l = l.
Proof.
  induction 1 as [|e l He _ IH]; [done|]. unfold between. rewrite filter_cons_True by done. f_equal. exact IH.
Qed.

(** the first entry that is not below a key *)
Lemma entries_split k es : sorted es → ∃ e1 e2, es = e1 ++ e2 ∧ below k e1 ∧ Forall (λ e, k ≤ e.1) e2.
Proof.
  induction es as [|[x v] es IH]; intros Hs; [exists [], []; split_and!; constructor|].
  apply sorted_cons in Hs as [Hx Hs]. destruct (decide (x < k)) as [Hlt|Hge].
  - destruct (IH Hs) as (e1 & e2 & -> & H1 & H2). exists ((x, v) :: e1), e2. split; [done|]. split; [by constructor|done].
  - exists [], ((x, v) :: es). split; [done|]. split; [constructor|]. constructor; [simpl; lia|].
    eapply Forall_impl; [exact Hx|]. simpl. lia.
Qed.

Lemma split_at {A} n (l : list A) : (n ≤ length l)%nat → ∃ l1 l2, l = l1 ++ l2 ∧ length l1 = n.
Proof. intros Hn. exists (take n l), (drop n l). rewrite take_drop, length_take. split; [done|lia]. Qed.
Lemma ilv_ordered fs ks j t : ordered (ilv (map flat fs) ks) → fs !! j = Some t → ordered (flat t).
Proof.
  revert ks j. induction fs as [|f fs IH]; intros ks [|j]; simpl; [done|done| |]; (destruct ks as [|k ks]; simpl).
  - intros (Ho & _ & _)%ordered_app. by injection 1 as ->.
  - intros (Ho & _ & _)%ordered_app. by injection 1 as ->.
  - intros (_ & Ho & _)%ordered_app. by apply (IH [] j).
  - intros (_ & [_ Ho]%ordered_cons & _)%ordered_app. by apply (IH ks j).
Qed.

Section range.
Context (hd kvsz : Z).
#[local] Abbreviation state := (store_state obj).
#[local] Abbreviation len l := (Z.of_nat (length l)).
#[local] Abbreviation tree_at := (tree_at hd kvsz).
Implicit Types s : state.

Lemma range_leaf a es first last s : leaf_at hd kvsz (nodes s) a es → sorted es → first ≤ last → ∀ fuel,
  run (range_internal (S fuel) a first last) s = Ok (between first last es) s.
Proof.
  intros (pad & Hm) Hs Hle fuel. cbn [range_internal]. rewrite run_bind. unfold node_c.
  rewrite (run_load _ _ (leaf (leaf_status hd kvsz (len es)) (len es) (es ++ pad))) by (by rewrite (peek_node s a _ _ _ Hm)).
  destruct (entries_split first es Hs) as (e1 & e2 & -> & Hb & Hge).
  apply sorted_app in Hs as (Hs1 & Hs2 & _). destruct (entries_split last e2 Hs2) as (e2a & e2b & -> & Hb2 & Hge2).
  rewrite prev_spec by done. rewrite (run_bind (lift _)). change (run (lift (inr ?x)) s) with (Ok x s). cbn beta iota.
  unfold prev at 1. rewrite <-(app_assoc e1).
  rewrite (prev_from_spec last e2a e1 e2b pad _ (len e1)); [|done|by rewrite !length_app|done|done|rewrite !length_app; lia].
  rewrite (run_bind (lift _)). change (run (lift (inr ?x)) s) with (Ok x s). cbn beta iota.
  rewrite (between_app _ _ e1), between_none, between_app, (between_none _ _ e2b), app_nil_r, app_nil_l.
  - assert (Forall (λ e, first ≤ e.1) e2a) as Hge1 by (by apply Forall_app in Hge as [? _]).
    rewrite between_all by (apply Forall_and; by split).
    replace (Z.to_nat _) with (length e2a) by lia. apply collect_run. intros j x Hj.
    apply list_elem_of_split_length in Hj as (l1 & l2 & -> & ->).
    rewrite <-(app_assoc l1), (app_assoc e1), <-!app_assoc, (app_assoc e1). cbn [app].
    rewrite get_app by (rewrite length_app; lia). done.
  - intros e He. unfold below in *. rewrite Forall_forall in Hge2. right. by apply Hge2.
  - intros e He. unfold below in Hb. rewrite Forall_forall in Hb. left. by apply Hb.
Qed.

(** the children that a range meets *)
Lemma between_flat first last ts1 mid ts2 k1 k2a k2b : length k1 = length ts1 → length mid = S (length k2a) →
  length k2b = length ts2 → ordered (ilv (map flat (ts1 ++ mid ++ ts2)) (k1 ++ k2a ++ k2b)) →
  upto first k1 → past last k2b →
  between first last (ents (ilv (map flat (ts1 ++ mid ++ ts2)) (k1 ++ k2a ++ k2b))) =
  concat (map (λ t, between first last (ents (flat t))) mid).
Proof.
  intros H1 Hm H2 Ho Hu Hp. rewrite !map_app, ilv_mid in * by (rewrite ?length_map; lia).
  apply ordered_app in Ho as (Ho1 & Ho2 & _). apply ordered_app in Ho2 as (_ & Ho2 & _).
  assert (length k1 = length (map flat ts1)) as Hl1 by (by rewrite length_map).
  assert (length k2b = length (map flat ts2)) as Hl2 by (by rewrite length_map).
  pose proof (pre_upto first 0 _ _ Hl1 Hu Ho1) as Hpre. pose proof (post_past last 0 _ _ Hl2 Hp Ho2) as Hpost.
  rewrite Forall_forall in Hpre, Hpost.
  rewrite !ents_app, !between_app, between_none, (between_none _ _ (ents (post _ _))), app_nil_r.
  - simpl. clear -Hm. revert k2a Hm. induction mid as [|t mid IH]; intros [|k k2a] Hm; simpl in Hm; try lia.
    + destruct mid; simpl in *; [|lia]. by rewrite !app_nil_r.
    + simpl. rewrite ents_app, between_app. f_equal. injection Hm as Hm. by rewrite <-(IH k2a) by done.
  - intros e He%ents_elem. right. specialize (Hpost _ He). simpl in Hpost. lia.
  - intros e He%ents_elem. left. apply (Hpre _ He).
Qed.

Lemma range_tree h : ∀ t fuel first last s, tree_at (nodes s) h t → ordered (flat t) → first ≤ last → (h < fuel)%nat →
  run (range_internal fuel (addr t) first last) s = Ok (between first last (ents (flat t))) s.
Proof.
  induction h as [|h IH]; intros [a es|a st ks ts] [|fuel] first last s Ht Ho Hle Hf; try done; try lia.
  - simpl addr. simpl flat in *. rewrite ents_leaf. apply range_leaf; [exact Ht| |done].
    apply ents_sorted in Ho. by rewrite ents_leaf in Ho.
  - destruct Ht as [Hnode Hts]. pose proof Hnode as (pk & pc & Hm & Hl). rewrite length_map in Hl.
    cbn [range_internal addr]. rewrite run_bind. unfold node_c.
    rewrite (run_load _ _ _ (eq_trans (peek_node s a _ _ _ Hm) eq_refl)). cbn beta iota. simpl flat in *.
    assert (StronglySorted Z.le ks) as Hks by (eapply ilv_keys; [|exact Ho]; rewrite length_map; lia).
    destruct (keys_split first ks Hks) as (k1 & k2 & -> & Hu1 & Hp1).
    assert (StronglySorted Z.le k2) as Hk2 by (by apply StronglySorted_app_1_r in Hks).
    destruct (keys_split last k2 Hk2) as (k2a & k2b & -> & Hu2 & Hp2). clear Hk2 Hks.
    rewrite !length_app in Hl. destruct (split_at (length k1) ts) as (ts1 & ts' & -> & Hl1); [lia|].
    rewrite length_app in Hl. destruct (split_at (S (length k2a)) ts') as (mid & ts2 & -> & Hlm); [lia|].
    rewrite length_app in Hl.
    assert (Z.of_nat (length (map addr (ts1 ++ mid ++ ts2))) = Z.of_nat (S (length (k1 ++ k2a ++ k2b)))) as ->.
    { rewrite length_map, !length_app. lia. }
    rewrite btree_node_find_spec by (done || lia).
    rewrite (run_bind (lift _)). change (run (lift (inr ?x)) s) with (Ok x s). cbn beta iota.
    rewrite (app_assoc k1), btree_node_find_spec; [|apply Forall_app; split; [|done]|done|rewrite length_app; lia].
    2: { eapply Forall_impl; [exact Hu1|]. simpl. lia. }
    rewrite (run_bind (lift _)). change (run (lift (inr ?x)) s) with (Ok x s). cbn beta iota.
    rewrite <-app_assoc, (between_flat first last) by (done || lia).
    assert (∀ j t, mid !! j = Some t → run (load (child_c a (Z.of_nat (length k1) + Z.of_nat j))) s = Ok (addr t) s ∧
      run (range_internal fuel (addr t) first last) s = Ok (between first last (ents (flat t))) s) as Hmid.
    { intros j t Hj. split.
      - eapply (reads_children 0 s a st _ _ Hnode s [] (extends_refl 0 s) _ (length k1 + j)%nat); [lia|].
        rewrite map_app, lookup_app_r by (rewrite length_map; lia). rewrite length_map, Hl1.
        replace (length k1 + j - length k1)%nat with j by lia. rewrite map_app. apply lookup_app_l_Some. by rewrite list_lookup_fmap, Hj.
      - apply list_elem_of_lookup_2 in Hj as Hin. apply IH; [| |done|lia].
        + rewrite Forall_forall in Hts. apply Hts. apply elem_of_app. right. apply elem_of_app. by left.
        + rewrite !map_app, ilv_mid in Ho by (rewrite ?length_map; lia).
          apply ordered_app in Ho as (_ & Ho & _). apply ordered_app in Ho as (Ho & _ & _).
          by eapply ilv_ordered. }
    case_bool.
    + assert (k2a = []) as -> by (destruct k2a; [done|rewrite length_app in *; simpl in *; lia]).
      destruct mid as [|t [|? ?]]; simpl in Hlm; try lia. destruct (Hmid 0%nat t eq_refl) as [Hc Hr].
      rewrite Z.add_0_r in Hc. rewrite run_bind, Hc. cbn [map concat]. by rewrite app_nil_r.
    + rewrite run_bind. replace (Z.to_nat _) with (length (map (λ t, between first last (ents (flat t))) mid)).
      2: { rewrite length_map, length_app. lia. }
      rewrite collect_run; [done|]. intros j x Hj. rewrite list_lookup_fmap in Hj. destruct (mid !! j) as [t|] eqn:E; [|done].
      simpl in Hj. injection Hj as <-. destruct (Hmid j t E) as [Hc Hr]. by rewrite run_bind, Hc.
Qed.

Lemma between_sorted a b l : sorted l → sorted (between a b l).
Proof.
  induction l as [|[k v] l IH]; [done|]. intros [Ha Hs]%sorted_cons. unfold between.
  rewrite filter_cons. case_decide; [|by apply IH]. apply sorted_cons. split; [|by apply IH].
  apply Forall_forall. intros q [_ Hq]%list_elem_of_filter. unfold above in Ha.
  rewrite Forall_forall in Ha. by apply Ha.
Qed.

Context (lk ksz : Z) (tid : nat).
(** C38: a range search of a well-formed tree reports, in order and once each,
    the entries of the map from the lower bound up to the upper one, which it
    leaves out, and changes nothing. *)
Theorem btree_range_reports fuel root n M first last s : btree_repr hd lk ksz kvsz tid root n M s →
  first ≤ last → (S n < fuel)%nat → ∃ l, run (range_ fuel root first last) s = Ok l s ∧ sorted l ∧
    ∀ k v, (k, v) ∈ l ↔ first ≤ k < last ∧ M !! k = Some v.
Proof.
  intros (h & T & [(st & pk & pc & Hr) Ht _ Ho _] & _ & -> & Hn) Hle Hf.
  pose proof (ents_sorted _ Ho) as Hs. exists (between first last (ents (flat T))). split; [|split].
  - unfold range_. destruct fuel as [|fuel]; [lia|]. cbn [range_internal]. rewrite run_bind. unfold node_c.
    rewrite (run_load _ _ _ (eq_trans (peek_node s root _ _ _ Hr) eq_refl)). cbn beta iota.
    change (lift (node_find 1 pk first 0)) with (mret 0 : prog state Z).
    rewrite run_bind. change (run (mret ?x) s) with (Ok x s). cbn beta iota.
    change (lift (node_find 1 pk last 0)) with (mret 0 : prog state Z).
    rewrite run_bind. change (run (mret ?x) s) with (Ok x s). cbn beta iota. rewrite Z.eqb_refl, run_bind. unfold child_c.
    rewrite (run_load _ _ (addr T)) by (rewrite (peek_node s root _ _ _ Hr); done). cbn beta iota.
    apply (range_tree h); [done|done|done|lia].
  - by apply between_sorted.
  - intros k v. unfold between, to_map. rewrite list_elem_of_filter. simpl.
    by rewrite elem_of_list_to_map by by apply sorted_nodup.
Qed.
End range.

Example btree_range_reports_witness : ∃ l, run (range_ 3 1 20 40) full_store = Ok l full_store ∧
  sorted l ∧ ∀ k v, (k, v) ∈ l ↔ 20 ≤ k < 40 ∧ to_map five !! k = Some v.
Proof. apply (btree_range_reports 8 1000 8 1000 0 3 1 1 (to_map five)); [apply full_store_repr|lia|lia]. Defined.
