(* ===== verification/BinTree.v ===== *)
(** * BinTree: external search trees in memory.

    What the leaf trees of structures/leaftree and structures/blockleaftree
    share: the entries are in the leaves, in order, internal nodes hold keys
    that separate them, a root has a left child only, and the leftmost leaf,
    and no other, is empty.  [TreeNode] is what a node type provides; a place
    in the tree is a context, the way from a hole up to the root. *)

From stdpp Require Import prelude list gmap.
From Stdlib Require Import ZArith Lia Sorted.
From S2P Require Import Prelude MapSpec.
Local Open Scope Z_scope.

Class TreeNode (N : Type) := {
  inner : Z → Z → Z → N;               (** key, left and right, not removed *)
  is_root : Z → N → Prop;              (** the root, with its left child *)
  is_leaf_of : list (Z * Z) → N → Prop;
  put_child : bool → Z → N → N;
  put_child_inner b c k l r : put_child b c (inner k l r) = if b then inner k c r else inner k l c;
  put_child_root c q n : is_root q n → is_root c (put_child true c n);
}.

Inductive tree :=
  | L (a : Z) (es : list (Z * Z))
  | N (a key : Z) (l r : tree).
(** the way from a hole to the root, innermost first *)
Record frame := Frame { f_addr : Z; f_key : Z; f_left : bool; f_sib : tree }.

Section trees.
Context {node : Type} `{TreeNode node}.
Implicit Types t : tree.
Implicit Types C : list frame.
Implicit Types m : gmap Z node.

Definition addr t : Z := match t with L a _ => a | N a _ _ _ => a end.
Fixpoint addrs t : list Z := match t with L a _ => [a] | N a _ l r => a :: addrs l ++ addrs r end.
Fixpoint entries t : list (Z * Z) :=
  match t with L _ es => es | N _ _ l r => entries l ++ entries r end.
Fixpoint depth t : nat := match t with L _ _ => 0 | N _ _ l r => S (Nat.max (depth l) (depth r)) end.

Definition leaf_at m (a : Z) (es : list (Z * Z)) : Prop := ∃ n, m !! a = Some n ∧ is_leaf_of es n.
Fixpoint tree_at m t : Prop :=
  match t with
  | L a es => leaf_at m a es
  | N a k l r => m !! a = Some (inner k (addr l) (addr r)) ∧ tree_at m l ∧ tree_at m r
  end.

Fixpoint plug C t : tree :=
  match C with
  | [] => t
  | f :: C' => plug C' (if f_left f then N (f_addr f) (f_key f) t (f_sib f) else N (f_addr f) (f_key f) (f_sib f) t)
  end.
(** the child pointer that is the hole, and the one above it *)
Definition hole (root : Z) C : Z * bool :=
  match C with [] => (root, true) | f :: _ => (f_addr f, f_left f) end.
Definition above_hole (root : Z) C : Z * bool :=
  match C with [] => (0, false) | _ :: C' => hole root C' end.
Fixpoint caddrs C : list Z :=
  match C with [] => [] | f :: C' => f_addr f :: addrs (f_sib f) ++ caddrs C' end.
Definition frame_node (f : frame) (q : Z) : node :=
  if f_left f then inner (f_key f) q (addr (f_sib f)) else inner (f_key f) (addr (f_sib f)) q.
Definition rooted m (root q : Z) : Prop := ∃ n, m !! root = Some n ∧ is_root q n.
(** the context in memory, with [q] in its hole *)
Fixpoint ctx_at m (root : Z) C (q : Z) : Prop :=
  match C with
  | [] => rooted m root q
  | f :: C' => m !! f_addr f = Some (frame_node f q) ∧ tree_at m (f_sib f) ∧ ctx_at m root C' (f_addr f)
  end.

(** the order of the keys: [bounds C k] says that a search for [k] takes the
    way to the hole *)
Fixpoint bst t : Prop :=
  match t with
  | L _ es => sorted es
  | N _ k l r => below k (entries l) ∧ Forall (λ e, k ≤ e.1) (entries r) ∧ bst l ∧ bst r
  end.
Definition side (f : frame) (k : Z) : Prop := if f_left f then k < f_key f else f_key f ≤ k.
Definition bounds C (k : Z) : Prop := Forall (λ f, side f k) C.
Fixpoint bst_ctx C : Prop :=
  match C with
  | [] => True
  | f :: C' => bst (f_sib f) ∧
      Forall (λ e : Z * Z, if f_left f then f_key f ≤ e.1 else e.1 < f_key f) (entries (f_sib f)) ∧
      Forall (λ e : Z * Z, bounds C' e.1) (entries (f_sib f)) ∧ bst_ctx C'
  end.

(** the leftmost leaf is empty, and only that *)
Fixpoint sent (leftmost : bool) t : Prop :=
  match t with
  | L _ es => es = [] ↔ leftmost = true
  | N _ _ l r => sent leftmost l ∧ sent false r
  end.
Fixpoint lm C : bool := match C with [] => true | f :: C' => f_left f && lm C' end.
Fixpoint sent_ctx C : Prop :=
  match C with
  | [] => True
  | f :: C' => sent (if f_left f then false else lm C') (f_sib f) ∧ sent_ctx C'
  end.

(** ** Plugging *)
Lemma bounds_cons f C (l : list (Z * Z)) : Forall (λ e, bounds (f :: C) e.1) l ↔
  Forall (λ e, side f e.1) l ∧ Forall (λ e, bounds C e.1) l.
Proof.
  unfold bounds. rewrite <-Forall_and. split; intros Hl; (eapply Forall_impl; [exact Hl|]);
    intros e He; simpl in *; by rewrite Forall_cons in *.
Qed.
Lemma plug_bst C t : bst (plug C t) ↔ bst_ctx C ∧ bst t ∧ Forall (λ e, bounds C e.1) (entries t).
Proof.
  revert t. induction C as [|f C IH]; intros t; simpl.
  - split; [intros; split_and!; [done|done|apply Forall_true; constructor]|tauto].
  - rewrite IH, bounds_cons. unfold side, below. destruct (f_left f) eqn:E; simpl;
      rewrite Forall_app; unfold below; tauto.
Qed.
Lemma plug_sent C t : sent true (plug C t) ↔ sent_ctx C ∧ sent (lm C) t.
Proof.
  revert t. induction C as [|f C IH]; intros t; simpl; [tauto|].
  rewrite IH. destruct (f_left f); simpl; tauto.
Qed.
Lemma plug_addrs C t : addrs (plug C t) ≡ₚ caddrs C ++ addrs t.
Proof.
  revert t. induction C as [|f C IH]; intros t; simpl; [done|].
  rewrite IH. destruct (f_left f); simpl; solve_Permutation.
Qed.
(** the entries on both sides of the hole *)
Lemma plug_entries C k : bst_ctx C → bounds C k → ∃ l1 l2, below k l1 ∧ above k l2 ∧
  ∀ t, entries (plug C t) = l1 ++ entries t ++ l2.
Proof.
  induction C as [|f C IH]; simpl.
  - intros _ _. exists [], []. split; [constructor|]. split; [constructor|]. intros t. by rewrite app_nil_r.
  - intros (_ & Hs & _ & Hc) [Hf Hb]%Forall_cons. destruct (IH Hc Hb) as (l1 & l2 & H1 & H2 & He).
    unfold side in Hf. destruct (f_left f).
    + exists l1, (entries (f_sib f) ++ l2). split; [done|]. split.
      * apply above_app. split; [|done]. eapply Forall_impl; [exact Hs|]. simpl. lia.
      * intros t. rewrite He. simpl. by rewrite <-!app_assoc.
    + exists (l1 ++ entries (f_sib f)), l2. split; [|split; [done|]].
      * apply below_app. split; [done|]. eapply Forall_impl; [exact Hs|]. simpl. lia.
      * intros t. rewrite He. simpl. by rewrite <-!app_assoc.
Qed.
Lemma ctx_plug m root C t q : q = addr t → rooted m root (addr (plug C t)) ∧ tree_at m (plug C t) ↔
  ctx_at m root C q ∧ tree_at m t.
Proof.
  intros ->. revert t. induction C as [|f C IH]; intros t; [done|]. cbn [plug ctx_at]. rewrite IH.
  unfold frame_node. destruct (f_left f); simpl; tauto.
Qed.

Lemma bst_sorted t : bst t → sorted (entries t).
Proof.
  induction t as [a es|a k l IHl r IHr]; simpl; [done|].
  intros (Hl & Hr & Hbl & Hbr). apply sorted_app. split_and!; [auto|auto|].
  intros p q Hp Hq. unfold below in Hl. rewrite Forall_forall in Hl, Hr.
  specialize (Hl p Hp). specialize (Hr q Hq). simpl in Hr. lia.
Qed.
Lemma sent_depth b t : sent b t → (depth t < length (entries t) + if b then 1 else 0)%nat.
Proof.
  revert b. induction t as [a [|e es]|a k l IHl r IHr]; intros b; simpl.
  - intros [Hs _]. rewrite Hs by done. lia.
  - lia.
  - intros [Hl Hr]. specialize (IHl _ Hl). specialize (IHr _ Hr). rewrite length_app. destruct b; simpl in *; lia.
Qed.

(** ** Frames: writing elsewhere *)
Lemma tree_frame m m' t : (∀ a, a ∈ addrs t → m' !! a = m !! a) → tree_at m t → tree_at m' t.
Proof.
  induction t as [a e|a k l IHl r IHr]; simpl.
  - intros Hm (n & Hn & He). exists n. by rewrite Hm by by left.
  - intros Hm (Ha & Hl & Hr). split; [rewrite Hm; [done|by left]|].
    split; [apply IHl|apply IHr]; try done; intros b Hb; apply Hm; right; apply elem_of_app; auto.
Qed.
Lemma ctx_frame m m' root C q : (∀ a, a ∈ root :: caddrs C → m' !! a = m !! a) → ctx_at m root C q → ctx_at m' root C q.
Proof.
  revert q. induction C as [|f C IH]; intros q; simpl.
  - intros Hm (n & Hn & Hr). exists n. rewrite Hm; [done|by left].
  - intros Hm (Hf & Hs & Hc). split; [rewrite Hm; [done|right; by left]|]. split.
    + eapply tree_frame; [|exact Hs]. intros a Ha. apply Hm. right. right. apply elem_of_app. by left.
    + apply IH; [|done]. intros a [->|Ha]%elem_of_cons; apply Hm; [by left|].
      right. right. apply elem_of_app. by right.
Qed.
Lemma tree_addr m t a : tree_at m t → a ∈ addrs t → is_Some (m !! a).
Proof.
  induction t as [b es|b k l IHl r IHr]; simpl.
  - intros (n & Hb & _) ->%list_elem_of_singleton. eauto.
  - intros (Hb & Hl & Hr) [->|[Ha|Ha]%elem_of_app]%elem_of_cons; eauto.
Qed.
Lemma ctx_addr m root C q a : ctx_at m root C q → a ∈ root :: caddrs C → is_Some (m !! a).
Proof.
  revert q. induction C as [|f C IH]; intros q; simpl.
  - intros (n & Hr & _) ->%list_elem_of_singleton. eauto.
  - intros (Hf & Hs & Hc) [->|[->|[Ha|Ha]%elem_of_app]%elem_of_cons]%elem_of_cons.
    + apply (IH _ Hc). by left.
    + eauto.
    + by eapply tree_addr.
    + apply (IH _ Hc). by right.
Qed.
Lemma hole_in root C : (hole root C).1 ∈ root :: caddrs C.
Proof. destruct C; simpl; [by left|right; by left]. Qed.
Lemma ctx_grow m m' root C q : (∀ b z, m !! b = Some z → m' !! b = Some z) → ctx_at m root C q → ctx_at m' root C q.
Proof.
  intros Hm Hc. eapply ctx_frame; [|exact Hc]. intros a Ha.
  destruct (ctx_addr _ _ _ _ _ Hc Ha) as [z Hz]. by rewrite Hz, (Hm a z).
Qed.
Lemma tree_set_hole m root C t n : NoDup (root :: caddrs C ++ addrs t) → tree_at m t →
  tree_at (<[(hole root C).1 := n]> m) t.
Proof.
  intros Hnd. apply tree_frame. intros a Ha. rewrite lookup_insert_ne; [done|]. intros <-.
  rewrite app_comm_cons in Hnd. apply NoDup_app in Hnd as (_ & Hd & _). by apply (Hd _ (hole_in root C)).
Qed.

(** what is in the hole, and putting something else there *)
Lemma hole_node m root C q : ctx_at m root C q → ∃ n, m !! (hole root C).1 = Some n ∧
  ((hole root C).2 = true ∧ is_root q n ∨
   ∃ k l r, n = inner k l r ∧ (if (hole root C).2 then l else r) = q).
Proof.
  destruct C as [|f C]; simpl.
  - intros (n & Hn & Hr). eauto.
  - intros (Hf & _). eexists. split; [exact Hf|]. right. unfold frame_node. destruct (f_left f); eauto.
Qed.
Lemma ctx_set m root C q q' n : NoDup (root :: caddrs C) → ctx_at m root C q →
  m !! (hole root C).1 = Some n →
  ctx_at (<[(hole root C).1 := put_child (hole root C).2 q' n]> m) root C q'.
Proof.
  destruct C as [|f C]; cbn [hole fst snd ctx_at caddrs].
  - intros _ (n' & Hm & Hr) Hn. rewrite Hm in Hn. injection Hn as <-. eexists.
    rewrite lookup_insert_eq. split; [done|]. by eapply put_child_root.
  - intros [Hr [Hf Hnd]%NoDup_cons]%NoDup_cons (Hm & Hs & Hc) Hn. rewrite Hm in Hn. injection Hn as <-.
    rewrite lookup_insert_eq. split; [|split].
    + unfold frame_node. destruct (f_left f); by rewrite put_child_inner.
    + eapply tree_frame; [|exact Hs]. intros a Ha. rewrite lookup_insert_ne; [done|].
      intros <-. apply Hf, elem_of_app. by left.
    + eapply ctx_frame; [|exact Hc]. intros a Ha. rewrite lookup_insert_ne; [done|]. intros <-.
      apply elem_of_cons in Ha as [Heq|Ha]; [apply Hr; rewrite Heq; by left|].
      apply Hf, elem_of_app. by right.
Qed.

(** ** Whole trees and places *)
Record at_tree (root : Z) t m : Prop := {
  at_root : rooted m root (addr t);
  at_nodes : tree_at m t;
  at_nodup : NoDup (root :: addrs t);
  at_bst : bst t;
  at_sent : sent true t;
}.

(** a leaf of the tree, where the search for [k] ends *)
Record leaf_place (root : Z) t m (k : Z) C (a : Z) (es : list (Z * Z)) : Prop := {
  lp_eq : plug C (L a es) = t;
  lp_ctx : ctx_at m root C a;
  lp_leaf : leaf_at m a es;
  lp_nodup : NoDup (root :: caddrs C ++ [a]);
  lp_bst : bst_ctx C;
  lp_bounds : bounds C k;
  lp_entry : Forall (λ e, bounds C e.1) es;
  lp_sorted : sorted es;
  lp_sent : sent_ctx C;
  lp_lm : es = [] ↔ lm C = true;
}.

Lemma at_leaf_place root t m k C a es : at_tree root t m → plug C (L a es) = t → bounds C k →
  leaf_place root t m k C a es.
Proof.
  intros [Hr Ht Hnd Hb Hs] <- Hk.
  destruct (proj1 (ctx_plug m root C (L a es) a eq_refl) (conj Hr Ht)) as [Hc Hl].
  apply plug_bst in Hb as (Hb1 & Hb3 & Hb2). apply plug_sent in Hs as [Hs1 Hs2].
  split; try done. by rewrite plug_addrs in Hnd.
Qed.
Lemma lp_addrs root t m k C a es : leaf_place root t m k C a es → root :: caddrs C ++ [a] ≡ₚ root :: addrs t.
Proof. intros [<- _ _ _ _ _ _ _ _ _]. by rewrite plug_addrs. Qed.
Lemma at_tree_addr root t m a : at_tree root t m → a ∈ root :: addrs t → is_Some (m !! a).
Proof.
  intros [(n & Hr & _) Ht _ _ _] [->|Ha]%elem_of_cons; [eauto|by eapply tree_addr].
Qed.
Lemma at_tree_plug root C t m : ctx_at m root C (addr t) → tree_at m t →
  NoDup (root :: caddrs C ++ addrs t) → bst_ctx C → bst t → Forall (λ e, bounds C e.1) (entries t) →
  sent_ctx C → sent (lm C) t → at_tree root (plug C t) m.
Proof.
  intros Hc Ht Hnd Hb1 Hb2 Hb3 Hs1 Hs2.
  destruct (proj2 (ctx_plug m root C t _ eq_refl) (conj Hc Ht)) as [Hr Ht'].
  split; [done|done|by rewrite plug_addrs|by apply plug_bst|by apply plug_sent].
Qed.

(** the key is in the leaf, or nowhere *)
Lemma leaf_plug_lookup k C a es : bst (plug C (L a es)) → bounds C k →
  to_map (entries (plug C (L a es))) !! k = to_map es !! k.
Proof.
  intros Ht Hk. pose proof Ht as (Hb & _ & _)%plug_bst.
  destruct (plug_entries C k Hb Hk) as (l1 & l2 & H1 & H2 & He).
  pose proof (bst_sorted _ Ht) as Hs. rewrite He in Hs |- *. simpl in *.
  destruct (to_map es !! k) as [v|] eqn:E.
  - apply elem_of_list_to_map_2 in E. apply list_elem_of_split in E as (e1 & e2 & ->).
    replace (l1 ++ (e1 ++ (k, v) :: e2) ++ l2) with ((l1 ++ e1) ++ (k, v) :: e2 ++ l2) in *
      by (by rewrite <-!app_assoc).
    by apply to_map_some.
  - apply not_elem_of_list_to_map_2 in E. apply not_elem_of_list_to_map_1.
    unfold below, above in *. rewrite Forall_forall in H1, H2. rewrite !fmap_app, !elem_of_app.
    intros [(p & -> & Hp)%list_elem_of_fmap|[?|(p & -> & Hp)%list_elem_of_fmap]]; [|done|].
    + specialize (H1 p Hp). lia.
    + specialize (H2 p Hp). lia.
Qed.
Lemma leaf_lookup root t m k C a es : leaf_place root t m k C a es → at_tree root t m →
  to_map (entries t) !! k = to_map es !! k.
Proof. intros [<- _ _ _ _ Hk _ _ _ _] Ht. by apply leaf_plug_lookup; [apply Ht|]. Qed.

Lemma leaf_length root t m k C a es : leaf_place root t m k C a es → (length es ≤ length (entries t))%nat.
Proof.
  intros [<- _ _ _ Hb Hk _ _ _ _]. destruct (plug_entries C k Hb Hk) as (l1 & l2 & _ & _ & He).
  rewrite He, !length_app. simpl. lia.
Qed.

(** another subtree in the place of the leaf *)
Lemma replace_place root t m k C a es sub m' n : at_tree root t m → leaf_place root t m k C a es →
  m !! (hole root C).1 = Some n → (∀ b z, m !! b = Some z → m' !! b = Some z) →
  NoDup (addrs sub) → (∀ b, b ∈ addrs sub → b = a ∨ m !! b = None) → tree_at m' sub → bst sub →
  (∀ e, e ∈ entries sub → e.1 = k ∨ e ∈ es) → sent (lm C) sub →
  at_tree root (plug C sub) (<[(hole root C).1 := put_child (hole root C).2 (addr sub) n]> m').
Proof.
  intros Ht Hp Hn Hm' Hnds Hsub Hnew Hb He Hs.
  pose proof (lp_ctx _ _ _ _ _ _ _ Hp) as Hc. pose proof (lp_nodup _ _ _ _ _ _ _ Hp) as Hnd.
  rewrite app_comm_cons in Hnd. apply NoDup_app in Hnd as (Hnd1 & Hnd2 & _).
  assert (NoDup (root :: caddrs C ++ addrs sub)) as Hnd'.
  { rewrite app_comm_cons. apply NoDup_app. split; [done|]. split; [|done]. intros b Hb1 Hb2.
    destruct (Hsub b Hb2) as [->|Hnone]; [apply (Hnd2 a Hb1); by left|].
    destruct (ctx_addr _ _ _ _ _ Hc Hb1) as [z Hz]. congruence. }
  apply at_tree_plug; try done; [|by eapply tree_set_hole|apply Hp| |apply Hp].
  - apply (ctx_set _ _ _ a); [done|by eapply (ctx_grow m)|by apply Hm'].
  - apply Forall_forall. intros e Hin. destruct (He e Hin) as [->|Hes]; [apply Hp|].
    pose proof (lp_entry _ _ _ _ _ _ _ Hp) as Hent. rewrite Forall_forall in Hent. by apply Hent.
Qed.

Lemma insert_entries root t m k C a e1 e2 v sub m' : leaf_place root t m k C a (e1 ++ e2) →
  at_tree root (plug C sub) m' → entries sub = e1 ++ (k, v) :: e2 →
  to_map (entries (plug C sub)) = <[k := v]> (to_map (entries t)).
Proof.
  intros [<- _ _ _ Hb Hk _ _ _ _] Ht Hsub. destruct (plug_entries C k Hb Hk) as (l1 & l2 & H1 & H2 & He).
  pose proof (bst_sorted _ (at_bst _ _ _ Ht)) as Hs. rewrite !He, Hsub in *. simpl.
  replace (l1 ++ (e1 ++ (k, v) :: e2) ++ l2) with ((l1 ++ e1) ++ (k, v) :: e2 ++ l2) in * by (by rewrite <-!app_assoc).
  rewrite to_map_insert by done. by rewrite <-!app_assoc.
Qed.
Lemma delete_entries root t m k C a e1 e2 v sub : leaf_place root t m k C a (e1 ++ (k, v) :: e2) →
  at_tree root t m → entries sub = e1 ++ e2 →
  to_map (entries (plug C sub)) = delete k (to_map (entries t)).
Proof.
  intros [<- _ _ _ Hb Hk _ _ _ _] Ht Hsub. destruct (plug_entries C k Hb Hk) as (l1 & l2 & H1 & H2 & He).
  pose proof (bst_sorted _ (at_bst _ _ _ Ht)) as Hs. rewrite !He, Hsub in *. simpl in *.
  replace (l1 ++ (e1 ++ (k, v) :: e2) ++ l2) with ((l1 ++ e1) ++ (k, v) :: e2 ++ l2) in * by (by rewrite <-!app_assoc).
  rewrite to_map_delete by done. by rewrite <-!app_assoc.
Qed.

(** taking out a leaf with its parent *)
Lemma remove_place root t m k v f C a x n : at_tree root t m →
  leaf_place root t m k (f :: C) a [(k, v)] → m !! (hole root C).1 = Some n →
  at_tree root (plug C (f_sib f))
    (<[(hole root C).1 := put_child (hole root C).2 (addr (f_sib f)) n]> (<[f_addr f := x]> m)) ∧
  to_map (entries (plug C (f_sib f))) = delete k (to_map (entries t)).
Proof.
  intros Ht [Heq (Hf & Hsib & Hc) _ Hnd (Hb1 & Hb2 & Hb3 & Hb4) Hk Hent _ [Hs1 Hs2] Hlm] Hn. simpl in Heq, Hnd, Hlm.
  apply Forall_cons in Hk as [Hfk Hk].
  assert (NoDup (f_addr f :: root :: caddrs C ++ addrs (f_sib f))) as Hnd'.
  { assert (root :: f_addr f :: (addrs (f_sib f) ++ caddrs C) ++ [a] ≡ₚ
      a :: f_addr f :: root :: caddrs C ++ addrs (f_sib f)) as Hp by solve_Permutation.
    rewrite Hp in Hnd. by apply NoDup_cons in Hnd as [_ ?]. }
  apply NoDup_cons in Hnd' as [Hfn Hnd'].
  assert (∀ b, b ∈ root :: caddrs C ++ addrs (f_sib f) → <[f_addr f := x]> m !! b = m !! b) as Hsame.
  { intros b Hb. rewrite lookup_insert_ne; [done|]. by intros <-. }
  split.
  - apply at_tree_plug; try done.
    + apply (ctx_set _ _ _ (f_addr f)).
      * rewrite app_comm_cons in Hnd'. by apply NoDup_app in Hnd' as (? & _).
      * eapply ctx_frame; [|exact Hc]. intros b Hb. apply Hsame. rewrite app_comm_cons. apply elem_of_app. by left.
      * rewrite Hsame; [done|]. rewrite app_comm_cons. apply elem_of_app. left. apply hole_in.
    + apply tree_set_hole; [done|]. eapply tree_frame; [|exact Hsib]. intros b Hb. apply Hsame.
      right. apply elem_of_app. by right.
    + destruct (f_left f); [|done]. destruct (lm C) eqn:El; [|done]. by pose proof (proj2 Hlm eq_refl).
  - subst t. destruct (plug_entries C k Hb4 Hk) as (l1 & l2 & H1 & H2 & Hen).
    pose proof (bst_sorted _ (at_bst _ _ _ Ht)) as Hsort. rewrite (Hen (f_sib f)).
    destruct (f_left f); rewrite Hen in Hsort |- *; simpl in Hsort |- *.
    + by rewrite to_map_delete.
    + replace (l1 ++ (entries (f_sib f) ++ [(k, v)]) ++ l2) with ((l1 ++ entries (f_sib f)) ++ (k, v) :: l2)
        in Hsort |- * by (by rewrite <-!app_assoc).
      rewrite to_map_delete by done. by rewrite <-app_assoc.
Qed.
End trees.
