(* ===== verification/LeafTree.v ===== *)
(** * LeafTree: the external binary search tree
    (structures/leaftree/ordered_map.h).

    The entries are in the leaves; an internal node holds a key that separates
    its subtrees.  The leftmost leaf is a sentinal without an entry, below
    every key, and the root is a sentinal with a left child only.  An insert
    splits a leaf under the lock of its parent; a remove takes out a leaf and
    its parent under the locks of parent and grandparent. *)

From stdpp Require Import prelude list gmap.
From Stdlib Require Import ZArith Lia Sorted.
From S2P Require Import Prelude Conc SpinLock Store MapSpec BinTree.
Local Open Scope Z_scope.

Module LeafTree.
(** [struct node] with what [internal] and [leaf] add *)
Inductive node :=
  | internal (key : Z) (is_sentinal : bool) (left right : Z) (removed : bool)
  | leaf (key : Z) (is_sentinal : bool) (value : Z).
Definition is_leaf (n : node) : bool := match n with leaf _ _ _ => true | internal _ _ _ _ _ => false end.
Definition key (n : node) : Z := match n with leaf k _ _ => k | internal k _ _ _ _ => k end.
Definition is_sentinal (n : node) : bool := match n with leaf _ b _ => b | internal _ b _ _ _ => b end.

Section leaftree.
Context (alloc : gmap Z node → Z) (tid : nat).
Context (with_epoch : ∀ A, prog (store_state node) A → prog (store_state node) A).
#[local] Abbreviation state := (store_state node).

Definition new_internal (k left right : Z) : prog state Z := new_obj alloc (internal k false left right false).
Definition new_root (left : Z) : prog state Z := new_obj alloc (internal 0 true left 0 false).
Definition new_leaf (k v : Z) : prog state Z := new_obj alloc (leaf k false v).
Definition new_sentinal_leaf : prog state Z := new_obj alloc (leaf 0 true 0).

(** [Less(k, a)] and [Equal(k, a)] *)
Definition Less (k : Z) (a : node) : bool := negb (is_sentinal a) && (k <? key a).
Definition Equal (k : Z) (a : node) : bool := negb (is_sentinal a || (k <? key a) || (key a <? k)).

Definition get_child (is_left : bool) (n : node) : err + Z :=
  match n with internal _ _ l r _ => inr (if is_left then l else r) | leaf _ _ _ => inl BadCast end.
Definition set_child (is_left : bool) (c : Z) (n : node) : node :=
  match n with
  | internal k s l r rm => if is_left then internal k s c r rm else internal k s l c rm
  | leaf _ _ _ => n
  end.
(** [is_left ? &(p->left) : &(p->right)], as [ptr] in the updates *)
Definition child_c (p : Z) (is_left : bool) : cell state Z := field (get_child is_left) (set_child is_left) p.
Definition removed_c : Z → cell state bool :=
  field (λ n, match n with internal _ _ _ _ rm => inr rm | leaf _ _ _ => inl BadCast end)
        (λ rm n, match n with internal k s l r _ => internal k s l r rm | leaf _ _ _ => n end).
Definition value_of (n : node) : prog state Z :=
  match n with leaf _ _ v => mret v | internal _ _ _ _ _ => fail BadCast end.

(** gp, gp_left, p, p_left, l *)
Definition find_location (fuel : nat) (root k : Z) : prog state (Z * bool * Z * bool * Z) :=
  l ← load (child_c root true);
  iter fuel (λ '(gp, gp_left, p, p_left, l),
    n ← load (node_c l);
    if is_leaf n then mret (inr (gp, gp_left, p, p_left, l))
    else
      let left := Less k n in
      l' ← load (child_c l left);
      mret (inl (p, p_left, l, left, l'))) (0, false, root, true, l).

Definition still_child (p : Z) (is_left : bool) (l : Z) : prog state bool :=
  read_lock
    (x ← load (child_c p is_left);
     if negb (x =? l) then mret false else r ← load (removed_c p); mret (negb r)).

(** the third argument of the code, [upsert], is not used in its body *)
Definition try_insert (fuel : nat) (root k v : Z) (upsert : bool) : prog state (option bool) :=
  '(gp, gp_left, p, p_left, l) ← find_location fuel root k;
  n ← load (node_c l);
  if Equal k n then
    b ← still_child p p_left l;
    mret (if (b : bool) then Some false else None)
  else
    r ← try_lock tid p
      (l_new ← load (child_c p p_left);
       rm ← load (removed_c p);
       if rm || negb (l_new =? l) then mret false
       else
         new_l ← new_leaf k v;
         x ← (if Less k n then new_internal (key n) new_l l else new_internal k l new_l);
         store (child_c p p_left) x ;;
         mret true);
    mret (if (r : bool) then Some (negb (Equal k n)) else None).

Definition insert_ (fuel : nat) (root k v : Z) : prog state bool :=
  flock.try_loop fuel (try_insert fuel root k v false).
Definition upsert (fuel : nat) (root k v : Z) : prog state bool :=
  with_epoch bool (flock.try_loop fuel (try_insert fuel root k v true)).
Definition insert (fuel : nat) (root k v : Z) : prog state bool :=
  with_epoch bool (insert_ fuel root k v).

Definition try_remove (fuel : nat) (root k : Z) : prog state (option bool) :=
  '(gp, gp_left, p, p_left, l) ← find_location fuel root k;
  n ← load (node_c l);
  if is_sentinal n then mret (Some false)
  else if negb (Equal k n) then
    b ← still_child gp gp_left p;
    mret (if (b : bool) then Some false else None)
  else
    b ← try_lock tid gp
      (try_lock tid p
        (rm ← load (removed_c gp);
         x ← (if (rm : bool) then mret p else load (child_c gp gp_left));
         if rm || negb (x =? p) then mret false
         else
           ll ← load (child_c p true);
           lr ← load (child_c p false);
           let '(ll, lr) := if (p_left : bool) then (lr, ll) else (ll, lr) in
           if negb (lr =? l) then mret false
           else
             store (removed_c p) true ;;
             store (child_c gp gp_left) ll ;;
             retire p ;;
             retire l ;;
             mret true));
    mret (if (b : bool) then Some true else None).

Definition remove_ (fuel : nat) (root k : Z) : prog state bool :=
  flock.try_loop fuel (try_remove fuel root k).
Definition remove (fuel : nat) (root k : Z) : prog state bool :=
  with_epoch bool (remove_ fuel root k).

Definition find_ (fuel : nat) (root k : Z) : prog state (option Z) :=
  l ← load (child_c root true);
  ll ← iter fuel (λ l,
    n ← load (node_c l);
    if is_leaf n then mret (inr l)
    else l' ← load (child_c l (Less k n)); mret (inl l')) l;
  n ← load (node_c ll);
  if Equal k n then v ← value_of n; mret (Some v) else mret None.
Definition find (fuel : nat) (root k : Z) : prog state (option Z) :=
  with_epoch (option Z) (find_ fuel root k).

Definition try_find (fuel : nat) (root k : Z) : prog state (option (option Z)) :=
  '(gp, gp_left, p, p_left, l) ← find_location fuel root k;
  b ← still_child p p_left l;
  if (b : bool) then
    n ← load (node_c l);
    r ← (if Equal k n then v ← value_of n; mret (Some v) else mret None);
    mret (Some r)
  else mret None.
Definition find_locked (fuel : nat) (root k : Z) : prog state (option Z) :=
  flock.try_loop fuel (try_find fuel root k).

Definition ordered_map : prog state Z := l ← new_sentinal_leaf; new_root l.

Fixpoint retire_tree (fuel : nat) (p : Z) : prog state unit :=
  match fuel with
  | O => fail OutOfFuel
  | S f =>
      if p =? 0 then mret tt
      else
        n ← load (node_c p);
        if is_leaf n then retire p
        else
          l ← load (child_c p true); retire_tree f l ;;
          r ← load (child_c p false); retire_tree f r ;;
          retire p
  end.
Definition destructor (fuel : nat) (root : Z) : prog state unit := retire_tree fuel root.

Fixpoint hrec (fuel : nat) (p depth : Z) : prog state Z :=
  match fuel with
  | O => fail OutOfFuel
  | S f =>
      n ← load (node_c p);
      if is_leaf n then mret depth
      else
        l ← load (child_c p true); d1 ← hrec f l (depth + 1);
        r ← load (child_c p false); d2 ← hrec f r (depth + 1);
        mret (wrap64 (d1 + d2))
  end.
Definition total_height (fuel : nat) (root : Z) : prog state Z :=
  l ← load (child_c root true); hrec fuel l 1.

(** least key, greatest key, number of entries; keys out of order are printed *)
Fixpoint crec (fuel : nat) (p : Z) (leftmost : bool) : prog state (Z * Z * Z) :=
  match fuel with
  | O => fail OutOfFuel
  | S f =>
      n ← load (node_c p);
      if is_leaf n then
        if leftmost then
          if is_sentinal n then mret (key n, key n, 0) else fail Abort
        else if is_sentinal n then fail Abort
        else mret (key n, key n, 1)
      else if is_sentinal n then fail Abort
      else
        l ← load (child_c p true); '(lmin, lmax, lsum) ← crec f l leftmost;
        r ← load (child_c p false); '(rmin, rmax, rsum) ← crec f r false;
        if lsum =? 0 then mret (key n, rmax, rsum) else mret (lmin, rmax, lsum + rsum)
  end.
Definition check (fuel : nat) (root : Z) : prog state Z :=
  l ← load (child_c root true); r ← crec fuel l true; mret r.2.
End leaftree.

(** ** The tree in memory *)
Lemma to_map_one k k' v : to_map [(k', v)] !! k = if decide (k = k') then Some v else None.
Proof. unfold to_map. simpl. case_decide; [subst; by rewrite lookup_insert_eq|by rewrite lookup_insert_ne]. Qed.

Definition leaf_holds (es : list (Z * Z)) (n : node) : Prop :=
  match n with
  | leaf _ true _ => es = []
  | leaf k false v => es = [(k, v)]
  | internal _ _ _ _ _ => False
  end.
#[export] Program Instance leaftree_node : TreeNode node := {
  inner k l r := internal k false l r false;
  is_root q n := ∃ k r, n = internal k true q r false;
  is_leaf_of := leaf_holds;
  put_child := set_child;
}.
Next Obligation. by intros []. Qed.
Next Obligation. intros c q n (k & r & ->). by exists k, r. Qed.

(** a leaf's node, and what it tells *)
Lemma leaf_node_at m a es : leaf_at m a es → ∃ n, m !! a = Some n ∧ is_leaf n = true ∧
  is_sentinal n = bool_decide (es = []) ∧
  (∀ k, Equal k n = match es with (k', _) :: _ => bool_decide (k = k') | [] => false end) ∧
  (∀ k, Less k n = match es with (k', _) :: _ => k <? k' | [] => false end) ∧
  (es = [] ∨ ∃ k v, es = [(k, v)] ∧ n = leaf k false v).
Proof.
  intros (n & Hn & He). exists n. split; [done|]. destruct n as [|k [] v]; simpl in He; [done| |].
  - subst es. by split_and!; [..|left].
  - subst es. split; [done|]. split; [done|]. split; [|split; [done|right; eauto]].
    intros k'. unfold Equal. simpl. case_bool_decide as Hk.
    + subst. by rewrite Z.ltb_irrefl.
    + apply negb_false_iff, orb_true_iff. destruct (Z.lt_total k' k) as [?|[?|?]]; [left|done|right];
        by apply Z.ltb_lt.
Qed.

(** splitting the leaf: [x] the new internal node, [y] the new leaf *)
Definition split_leaf (a : Z) (es : list (Z * Z)) (k v x y : Z) : tree :=
  match es with
  | (k', v') :: _ => if k <? k' then N x k' (L y [(k, v)]) (L a es) else N x k (L a es) (L y [(k, v)])
  | [] => N x k (L a es) (L y [(k, v)])
  end.

Lemma split_place root t m k v C a es x y (m' : gmap Z node) n : at_tree root t m → leaf_place root t m k C a es →
  (es = [] ∨ ∃ k' v', es = [(k', v')] ∧ k ≠ k') →
  m !! x = None → m !! y = None → x ≠ y → m !! (hole root C).1 = Some n →
  (∀ b z, m !! b = Some z → m' !! b = Some z) → tree_at m' (split_leaf a es k v x y) →
  at_tree root (plug C (split_leaf a es k v x y)) (<[(hole root C).1 := put_child (hole root C).2 x n]> m') ∧
  to_map (entries (plug C (split_leaf a es k v x y))) = <[k := v]> (to_map (entries t)).
Proof.
  intros Ht Hp He Hx Hy Hxy Hn Hm' Hnew. set (sub := split_leaf a es k v x y) in *.
  assert (addr sub = x) as Hax by (unfold sub, split_leaf; repeat case_match; done).
  assert (addrs sub ≡ₚ [x; y; a]) as Haddrs
    by (unfold sub, split_leaf; repeat case_match; simpl; try solve_Permutation; done).
  assert (is_Some (m !! a)) as [za Hza].
  { destruct (lp_leaf _ _ _ _ _ _ _ Hp) as (z & Hz & _). eauto. }
  assert (∃ e1 e2, es = e1 ++ e2 ∧ entries sub = e1 ++ (k, v) :: e2) as (e1 & e2 & Hes & Hsub).
  { unfold sub, split_leaf. destruct He as [->|(k' & v' & -> & _)]; [by exists [], []|].
    destruct (k <? k'); [by exists [], [(k', v')]|by exists [(k', v')], []]. }
  assert (bst sub ∧ sent (lm C) sub) as [Hb Hs].
  { pose proof (lp_lm _ _ _ _ _ _ _ Hp) as Hlm. unfold sub, split_leaf.
    destruct He as [->|(k' & v' & -> & Hk)]; simpl.
    - split; [|by split; [|split]]. split; [constructor|]. split; [by repeat constructor|by repeat constructor].
    - destruct (Z.ltb_spec k k'); simpl;
        (split; [unfold below; rewrite !Forall_singleton; simpl; split_and!; try lia; by repeat constructor|]);
        destruct (lm C); (split; [|done]); intuition congruence. }
  assert (at_tree root (plug C sub) (<[(hole root C).1 := put_child (hole root C).2 x n]> m')) as Hat.
  { rewrite <-Hax. eapply (replace_place root t m k C a es); try done.
    - rewrite Haddrs. repeat (apply NoDup_cons; split); [| | |constructor];
        repeat (rewrite not_elem_of_cons; split); try congruence; by intros ?%elem_of_nil.
    - intros b. rewrite Haddrs. intros [->|[->|[->|?%elem_of_nil]%elem_of_cons]%elem_of_cons]%elem_of_cons; auto.
      done.
    - intros e. rewrite Hsub, Hes, !elem_of_app, elem_of_cons. intros [?|[->|?]]; auto. }
  split; [done|]. rewrite Hes in Hp. by eapply insert_entries.
Qed.

Section proofs.
Context (alloc : gmap Z node → Z) {fresh : Allocator alloc} (tid : nat) (tid_ok : small_tid tid).
Context (with_epoch : ∀ A, prog (store_state node) A → prog (store_state node) A)
  {transparent : EpochTransparent with_epoch}.
#[local] Abbreviation state := (store_state node).
Implicit Types s : state.

Definition repr (root : Z) (M : gmap Z Z) s : Prop :=
  ∃ t, at_tree root t (nodes s) ∧ M = to_map (entries t) ∧ holding tid ∅ s.

Lemma repr_depth root t m M fuel : at_tree (node := node) root t m → M = to_map (entries t) → enough fuel M →
  (depth t < fuel)%nat.
Proof.
  intros Ht -> Hf. unfold enough in Hf. rewrite to_map_size in Hf by apply bst_sorted, Ht.
  pose proof (sent_depth true t (at_sent _ _ _ Ht)) as Hd. simpl in Hd. lia.
Qed.

(** ** Searching *)
Lemma less_internal k a l r rm : Less k (internal a false l r rm) = (k <? a).
Proof. done. Qed.

Lemma leaftree_wp_find_from k root s : ∀ t C fuel Q, tree_at (nodes s) t → (depth t < fuel)%nat →
  bounds C k →
  (∀ C' a e, plug C' (L a e) = plug C t → bounds C' k →
     Q ((above_hole root C').1, (above_hole root C').2, (hole root C').1, (hole root C').2, a) s) →
  wp (iter fuel (λ '(gp, gp_left, p, p_left, l),
    n ← load (node_c l);
    if is_leaf n then mret (inr (gp, gp_left, p, p_left, l))
    else l' ← load (child_c l (Less k n)); mret (inl (p, p_left, l, Less k n, l')))
    ((above_hole root C).1, (above_hole root C).2, (hole root C).1, (hole root C).2, addr t)) Q s.
Proof.
  intros t. induction t as [a e|a key l IHl r IHr]; intros C [|fuel] Q Ht Hf Hb HQ; simpl in Hf; try lia;
    cbn [iter]; rewrite wp_bind.
  - destruct (leaf_node_at _ _ _ Ht) as (n & Hn & Hleaf & _). eapply wp_read; [done..|].
    rewrite Hleaf. unfold wp; cbn [run mret prog_ret]. by apply (HQ C a e).
  - destruct Ht as (Ha & Hl & Hr). change (nodes s !! a = Some (internal key false (addr l) (addr r) false)) in Ha.
    cbn [addr]. eapply wp_read; [exact Ha|done|]. cbn [is_leaf].
    rewrite less_internal. unfold child_c. eapply wp_read; [exact Ha|done|].
    unfold wp at 1; cbn [run mret prog_ret]. destruct (Z.ltb_spec k key).
    + apply (IHl (Frame a key true r :: C)); [done|lia|by constructor|]. intros C' b e Heq. by apply (HQ C' b e).
    + apply (IHr (Frame a key false l :: C)); [done|lia|by constructor|]. intros C' b e Heq. by apply (HQ C' b e).
Qed.

Lemma leaftree_wp_locate {A} fuel root k t (K : Z * bool * Z * bool * Z → prog state A) Q s :
  at_tree root t (nodes s) → (depth t < fuel)%nat →
  (∀ C a e, leaf_place root t (nodes s) k C a e →
     wp (K ((above_hole root C).1, (above_hole root C).2, (hole root C).1, (hole root C).2, a)) Q s) →
  wp (find_location fuel root k ≫= K) Q s.
Proof.
  intros Ht Hf HK. unfold find_location. rewrite wp_bind.
  destruct (at_root _ _ _ Ht) as (nr & Hroot & k0 & r0 & ->). unfold child_c at 1. eapply wp_read; [done..|].
  apply (leaftree_wp_find_from k root s t []); [apply Ht|done|constructor|].
  intros C a e Heq Hb. apply (HK C a e). by apply at_leaf_place.
Qed.

Lemma hole_child m root C q : ctx_at (node := node) m root C q → ∃ n, m !! (hole root C).1 = Some n ∧
  get_child (hole root C).2 n = inr q ∧ is_leaf n = false ∧
  match n with internal _ _ _ _ rm => rm = false | leaf _ _ _ => False end.
Proof.
  intros Hc. destruct (hole_node m root C q Hc) as (n & Hm & [[-> (k & r & ->)]|(k & l & r & -> & Hq)]).
  - eexists. split; [exact Hm|done].
  - eexists. split; [exact Hm|]. simpl. by rewrite Hq.
Qed.

Lemma wp_still_child {A} root C q (K : bool → prog state A) Q s : ctx_at (nodes s) root C q →
  wp (K true) Q s → wp (still_child (hole root C).1 (hole root C).2 q ≫= K) Q s.
Proof.
  intros Hc HK. destruct (hole_child _ _ _ _ Hc) as (n & Hn & Hch & _ & Hrm).
  unfold still_child, read_lock, lock.read_lock. rewrite wp_bind. unfold child_c.
  eapply wp_read; [done..|]. rewrite Z.eqb_refl. cbn [negb]. destruct n as [k b l r rm|]; [subst rm|done].
  by eapply wp_read.
Qed.

Lemma leaftree_find_wp fuel root k M s : enough fuel M → repr root M s →
  wp (find_ fuel root k) (λ r s', r = M !! k ∧ repr root M s') s.
Proof.
  intros Hf (t & Ht & HM & Hh). pose proof (repr_depth _ _ _ _ _ Ht HM Hf) as Hd.
  unfold find_. destruct (at_root _ _ _ Ht) as (nr & Hroot & k0 & r0 & ->). unfold child_c at 1.
  eapply wp_read; [done..|]. cbn iota. rewrite wp_bind.
  assert (∀ t' C fuel, tree_at (nodes s) t' → (depth t' < fuel)%nat → bounds C k →
    wp (iter fuel (λ l, n ← load (node_c l);
          if is_leaf n then mret (inr l) else l' ← load (child_c l (Less k n)); mret (inl l')) (addr t'))
       (λ a s', s' = s ∧ ∃ C' e, plug C' (L a e) = plug C t' ∧ bounds C' k) s) as Hloop.
  { clear. induction t' as [a e|a key l IHl r IHr]; intros C [|fuel] Ht Hf Hb; simpl in Hf; try lia;
      cbn [iter]; rewrite wp_bind.
    - destruct (leaf_node_at _ _ _ Ht) as (n & Hn & Hleaf & _). eapply wp_read; [done..|].
      rewrite Hleaf. unfold wp; cbn [run mret prog_ret]. eauto.
    - destruct Ht as (Ha & Hl & Hr). change (nodes s !! a = Some (internal key false (addr l) (addr r) false)) in Ha.
    cbn [addr]. eapply wp_read; [exact Ha|done|]. cbn [is_leaf].
      rewrite less_internal. unfold child_c. eapply wp_read; [exact Ha|done|].
      unfold wp at 1; cbn [run mret prog_ret]. destruct (Z.ltb_spec k key).
      + apply (IHl (Frame a key true r :: C)); [done|lia|by constructor].
      + apply (IHr (Frame a key false l :: C)); [done|lia|by constructor]. }
  eapply wp_mono; [|apply (Hloop t [] fuel (at_nodes _ _ _ Ht) Hd); constructor].
  intros a s' (-> & C & e & Heq & Hb).
  pose proof (at_leaf_place _ _ _ k _ _ _ Ht Heq Hb) as Hp.
  destruct (leaf_node_at _ _ _ (lp_leaf _ _ _ _ _ _ _ Hp)) as (n & Hn & _ & _ & Heqn & _ & Hnl).
  eapply wp_read; [done..|]. rewrite Heqn, HM, (leaf_lookup _ _ _ _ _ _ _ Hp Ht), <-HM.
  assert (repr root M s) as Hrep by (by exists t).
  destruct Hnl as [->|(k' & v & -> & ->)]; [done|]. rewrite to_map_one.
  case_bool_decide; case_decide; (done || by unfold wp; cbn [run mret prog_ret]).
Qed.

(** allocating the internal node over the leaf at [a] and the new leaf [y] *)
Lemma wp_new_split {A} a es k v y kn s s2 (K : Z → prog state A) Q :
  nodes s2 = <[y := leaf k false v]> (nodes s) → nodes s !! y = None → leaf_at (nodes s) a es →
  (∀ k' v' es', es = (k', v') :: es' → kn = k') →
  (∀ x s3 m', nodes s3 = m' → nodes s !! x = None → x ≠ y →
     (∀ b z, nodes s !! b = Some z → m' !! b = Some z) → tree_at m' (split_leaf a es k v x y) →
     locks s3 = <[x := 0]> (locks s2) → wp (K x) Q s3) →
  wp ((if match es with (k', _) :: _ => k <? k' | [] => false end
       then new_internal alloc kn y a else new_internal alloc k a y) ≫= K) Q s2.
Proof.
  intros Hs2 Hy Hla Hkn HK.
  assert (∀ key l r,
    (∀ x m', m' !! x = Some (internal key false l r false) → leaf_at m' y [(k, v)] → leaf_at m' a es →
       tree_at m' (split_leaf a es k v x y)) →
    wp (new_internal alloc key l r ≫= K) Q s2) as Hone.
  { intros key l r Htree. unfold new_internal. apply (wp_new alloc). rewrite Hs2. intros x Hx Hx0.
    assert (x ≠ y) as Hxy by (intros Hxy; by rewrite Hxy, lookup_insert_eq in Hx).
    rewrite lookup_insert_ne in Hx by congruence.
    assert (∀ b z, nodes s !! b = Some z →
      <[x := internal key false l r false]> (<[y := leaf k false v]> (nodes s)) !! b = Some z) as Hm.
    { intros b z Hb. rewrite !lookup_insert_ne by congruence. done. }
    eapply (HK x _ (<[x := internal key false l r false]> (<[y := leaf k false v]> (nodes s)))); [done..| |done].
    apply Htree; [by rewrite lookup_insert_eq|exists (leaf k false v); by rewrite lookup_insert_ne, lookup_insert_eq|].
    destruct Hla as (z & Hz & He). exists z. split; [by apply Hm|done]. }
  unfold split_leaf in Hone. destruct es as [|[k' v'] es]; [by apply Hone|].
  rewrite (Hkn k' v' es eq_refl). destruct (k <? k'); by apply Hone.
Qed.

Lemma leaftree_try_insert_wp fuel root k v up M s : enough fuel M → repr root M s →
  wp (try_insert alloc tid fuel root k v up) (λ r s', ∃ b, r = Some b ∧
    b = bool_decide (M !! k = None) ∧ repr root (if b then <[k := v]> M else M) s') s.
Proof.
  intros Hf (t & Ht & HM & Hh). pose proof (repr_depth _ _ _ _ _ Ht HM Hf) as Hd.
  unfold try_insert. apply (leaftree_wp_locate fuel root k t); [done..|]. intros C a e Hp. cbn iota.
  destruct (leaf_node_at _ _ _ (lp_leaf _ _ _ _ _ _ _ Hp)) as (n & Hn & _ & _ & Heqn & Hless & Hnl).
  pose proof (leaf_lookup _ _ _ _ _ _ _ Hp Ht) as Hlk. rewrite <-HM in Hlk.
  pose proof (lp_ctx _ _ _ _ _ _ _ Hp) as Hc.
  eapply wp_read; [done..|]. rewrite Heqn.
  destruct (match e with (k', _) :: _ => bool_decide (k = k') | [] => false end) eqn:Hne.
  - destruct Hnl as [->|(k' & v' & -> & _)]; [done|]. apply bool_decide_eq_true in Hne. subst k'.
    eapply wp_still_child; [exact Hc|]. exists false. split; [done|].
    rewrite to_map_one, decide_True in Hlk by done. rewrite bool_decide_false by (by rewrite Hlk).
    split; [done|]. by exists t.
  - assert (e = [] ∨ ∃ k' v', e = [(k', v')] ∧ k ≠ k') as Hk.
    { destruct Hnl as [->|(k' & v' & -> & _)]; [by left|right]. apply bool_decide_eq_false in Hne. eauto. }
    assert (M !! k = None) as HMk.
    { rewrite Hlk. destruct Hk as [->|(k' & v' & -> & Hk)]; [done|]. by rewrite to_map_one, decide_False. }
    destruct (hole_child _ _ _ _ Hc) as (np & Hnp & Hch & _ & Hrm).
    eapply (wp_try_lock tid tid_ok ∅); [exact Hh|apply not_elem_of_empty|exact Hnp|].
    intros s1 Hs1 Hr1 Hh1. unfold child_c.
    eapply wp_read; [by rewrite Hs1|done|].
    eapply wp_read; [by rewrite Hs1|destruct np as [? ? ? ? rm|]; [subst rm; reflexivity|done]|].
    cbn [orb]. rewrite Z.eqb_refl. cbn [negb]. rewrite Hless.
    apply (wp_new alloc). intros y Hy Hy0. rewrite Hs1 in Hy. rewrite Hs1.
    set (s2 := mkStore (<[y := leaf k false v]> (nodes s)) (<[y := 0]> (locks s1)) (retired s1)).
    assert (holding tid ({[(hole root C).1]} ∪ ∅) s2) as Hh2.
    { eapply (holding_new tid _ s1 _ y); [|done|done].
      intros [->%elem_of_singleton|?%elem_of_empty]%elem_of_union; [congruence|done]. }
    apply (wp_new_split a e k v y (key n) s s2); try done.
    { by apply Hp. }
    { intros k' v' es' He. destruct Hnl as [->|(k2 & v2 & -> & ->)]; [done|]. by injection He as -> _ _. }
    intros x s3 m' Hm' Hx Hxy Hgrow Htree Hl3.
    assert (holding tid ({[(hole root C).1]} ∪ ∅) s3) as Hh3.
    { eapply (holding_new tid _ s2 _ x); [|done|done].
      intros [->%elem_of_singleton|?%elem_of_empty]%elem_of_union; congruence. }
    eapply wp_write; [rewrite Hm'; by apply Hgrow|done|].
    unfold wp; cbn [run mret prog_ret nodes locks set_nodes].
    split; [by apply (holding_same_locks tid _ s3)|]. split; [rewrite lookup_insert_eq; eauto|].
    intros s4 Hs4 _ Hh4. exists true. split; [done|]. rewrite bool_decide_true by done. split; [done|].
    destruct (split_place root t (nodes s) k v C a e x y m' np Ht Hp) as [Hat Hmap]; try done.
    eexists. split; [rewrite Hs4, Hm'; exact Hat|]. split; [by rewrite Hmap, HM|done].
Qed.

Lemma leaftree_try_remove_wp fuel root k M s : enough fuel M → repr root M s →
  wp (try_remove tid fuel root k) (λ r s', ∃ b, r = Some b ∧
    b = bool_decide (is_Some (M !! k)) ∧ repr root (delete k M) s') s.
Proof.
  intros Hf (t & Ht & HM & Hh). pose proof (repr_depth _ _ _ _ _ Ht HM Hf) as Hd.
  unfold try_remove. apply (leaftree_wp_locate fuel root k t); [done..|]. intros C a e Hp. cbn iota.
  destruct (leaf_node_at _ _ _ (lp_leaf _ _ _ _ _ _ _ Hp)) as (n & Hn & _ & Hsent & Heqn & Hless & Hnl).
  pose proof (leaf_lookup _ _ _ _ _ _ _ Hp Ht) as Hlk. rewrite <-HM in Hlk.
  eapply wp_read; [done..|]. rewrite Hsent, Heqn.
  assert (M !! k = None → wp (mret (Some false)) (λ r s', ∃ b, r = Some b ∧
    b = bool_decide (is_Some (M !! k)) ∧ repr root (delete k M) s') s) as Hnone.
  { intros HMk. exists false. split; [done|]. rewrite HMk, bool_decide_false by (by intros [? ?]).
    split; [done|]. rewrite delete_id by done. by exists t. }
  destruct Hnl as [->|(k' & v & -> & _)]; [by apply Hnone|]. rewrite bool_decide_false by done.
  rewrite to_map_one in Hlk.
  assert (∃ f C', C = f :: C') as (f & C' & ->).
  { destruct C as [|f C']; [|eauto]. pose proof (lp_lm _ _ _ _ _ _ _ Hp) as Hlm. by destruct Hlm as [_ Hlm];
      specialize (Hlm eq_refl). }
  cbn [above_hole hole fst snd]. destruct (lp_ctx _ _ _ _ _ _ _ Hp) as (Hpf & Hsib & Hc).
  destruct (bool_decide_reflect (k = k')) as [Hk|Hk]; cbn [negb].
  - subst k'. rewrite decide_True in Hlk by done.
    destruct (hole_child _ _ _ _ Hc) as (np & Hnp & Hch & _ & Hrm).
    assert (f_addr f ≠ (hole root C').1) as Hne.
    { pose proof (lp_nodup _ _ _ _ _ _ _ Hp) as Hnd. pose proof (hole_in root C') as Hin.
      apply NoDup_cons in Hnd as [Hr [Hfn _]%NoDup_cons]. intros Heq. rewrite <-Heq in Hin.
      apply elem_of_cons in Hin as [Hin|Hin]; [apply Hr; rewrite <-Hin; by left|].
      apply Hfn. rewrite !elem_of_app. auto. }
    eapply (wp_try_lock tid tid_ok ∅); [exact Hh|apply not_elem_of_empty|exact Hnp|].
    intros s1 Hs1 Hr1 Hh1. apply wp_bind_ret.
    eapply (wp_try_lock tid tid_ok); [exact Hh1| |by rewrite Hs1|].
    { by intros [?%elem_of_singleton|?%elem_of_empty]%elem_of_union. }
    intros s2 Hs2 Hr2 Hh2. rewrite <-Hs1, <-Hs2 in *. unfold child_c.
    eapply wp_read; [done|destruct np as [? ? ? ? rm|]; [subst rm; reflexivity|done]|].
    eapply wp_read; [done..|]. cbn [orb]. rewrite Z.eqb_refl. cbn [negb].
    assert (∀ b, get_child b (frame_node f a) = inr (if decide (b = f_left f) then a else addr (f_sib f))) as Hget.
    { intros b. unfold frame_node. by destruct b, (f_left f). }
    eapply wp_read; [exact Hpf|apply Hget|]. eapply wp_read; [exact Hpf|apply Hget|].
    replace (if f_left f then _ else _) with (addr (f_sib f), a) by (by destruct (f_left f)).
    cbn iota. rewrite Z.eqb_refl. cbn [negb].
    eapply wp_write; [exact Hpf|unfold frame_node; destruct (f_left f); reflexivity|].
    eapply wp_write; [cbn [nodes set_nodes]; rewrite lookup_insert_ne by done; exact Hnp|exact Hch|].
    apply wp_retire. apply wp_retire.
    unfold wp; cbn [run mret prog_ret nodes locks set_nodes retired].
    split; [by apply (holding_same_locks tid _ s2)|].
    split; [rewrite lookup_insert_ne, lookup_insert_eq by done; eauto|].
    intros s3 Hs3 _ Hh3. unfold wp; cbn [run mret prog_ret].
    split; [done|]. split; [rewrite Hs3, lookup_insert_eq; eauto|].
    intros s4 Hs4 _ Hh4. exists true. split; [done|]. rewrite bool_decide_true by (rewrite Hlk; eauto). split; [done|].
    edestruct (remove_place root t (nodes s2) k v f C' a) as [Hat Hmap]; [exact Ht|exact Hp|exact Hnp|].
    eexists. split; [rewrite Hs4, Hs3; exact Hat|]. split; [by rewrite Hmap, HM|done].
  - rewrite decide_False in Hlk by done. eapply wp_still_child; [exact Hc|]. by apply Hnone.
Qed.

Definition ops (root : Z) : dict_ops state :=
  DictOps (λ fuel, find with_epoch fuel root) (λ fuel, insert alloc tid with_epoch fuel root)
    (λ fuel, remove tid with_epoch fuel root).

#[export] Instance leaftree_dictionary root : Dictionary (ops root) (repr root).
Proof.
  split; intros [|fuel]; intros; try (by unfold enough in *; lia);
    simpl; unfold find, insert, remove; apply with_epoch_wp;
    [by apply leaftree_find_wp|apply wp_try_loop..].
  - by apply leaftree_try_insert_wp.
  - by apply leaftree_try_remove_wp.
Qed.

Lemma leaftree_ordered_map_wp s : holding tid ∅ s → wp (ordered_map alloc) (λ root s', repr root ∅ s') s.
Proof.
  intros Hh. unfold ordered_map, new_sentinal_leaf, new_root. apply (wp_new alloc). intros p Hp Hp0.
  apply wp_bind_ret. apply (wp_new alloc). intros q Hq Hq0. simpl in Hq.
  assert (p ≠ q) as Hpq by (intros Heq; by rewrite Heq, lookup_insert_eq in Hq).
  unfold wp; cbn [run mret prog_ret]. exists (L p []). split; [split|split].
  - exists (internal 0 true p 0 false). simpl. rewrite lookup_insert_eq. eauto.
  - exists (leaf 0 true 0). simpl. by rewrite lookup_insert_ne, lookup_insert_eq.
  - simpl. repeat constructor; [by intros ?%list_elem_of_singleton|by intros ?%elem_of_nil].
  - constructor.
  - done.
  - done.
  - eapply (holding_new tid ∅ (mkStore ∅ (<[p := 0]> (locks s)) []) _ q); [apply not_elem_of_empty|done|].
    by eapply (holding_new tid ∅ s _ p); [apply not_elem_of_empty|..].
Qed.

(** C17: a newly made leaf tree answers any sequence of finds, inserts and
    removes of one thread as a finite map does. *)
Theorem leaftree_refines_map fuel cs s : holding tid ∅ s → (length cs + 4 ≤ fuel)%nat →
  wp (session (ordered_map alloc) ops fuel cs) (λ answers s',
    answers = (meaning_all cs ∅).1 ∧ ∃ root, repr root (meaning_all cs ∅).2 s') s.
Proof. intros Hlk Hf. eapply session_refines; [apply _|by apply leaftree_ordered_map_wp|done]. Qed.

(** C35: [upsert] of a key that is there changes nothing and answers false: the
    new value is lost. *)
Theorem leaftree_upsert_keeps fuel root k v w M s : enough (S fuel) M → repr root M s → M !! k = Some w →
  wp (upsert alloc tid with_epoch (S fuel) root k v) (λ b s', b = false ∧ repr root M s') s.
Proof.
  intros Hf Hr Hk. unfold upsert. apply with_epoch_wp, wp_try_loop.
  eapply wp_mono; [|by apply (leaftree_try_insert_wp (S fuel) root k v true M)].
  intros r s' (b & -> & -> & Hr'). rewrite Hk, bool_decide_false in Hr' |- * by done. eauto.
Qed.
End proofs.

Example leaftree_refines_map_witness : small_tid 0 ∧
  wp (session (ordered_map next_addr) (ops next_addr 0 (λ A p, p)) 9
        [Insert 5 50; Insert 3 30; Insert 5 51; Remove 3; Find 5])
     (λ answers _, answers = [AInsert true; AInsert true; AInsert false; ARemove true; AFind (Some 50)])
     empty_store.
Proof.
  assert (small_tid 0) as Ht by (unfold small_tid; lia). split; [exact Ht|].
  eapply wp_mono; [|apply (leaftree_refines_map next_addr 0 Ht (λ A p, p)); [apply holding_empty|simpl; lia]].
  intros r s' [-> _]. reflexivity.
Defined.

(** a tree with one entry *)
Definition leaftree_one_entry : store_state node :=
  mkStore (list_to_map [(1, internal 0 true 2 0 false); (2, internal 5 false 3 4 false);
                        (3, leaf 0 true 0); (4, leaf 5 false 50)]) ∅ [].
Lemma leaftree_one_entry_repr : repr 0 1 {[5 := 50]} leaftree_one_entry.
Proof.
  exists (N 2 5 (L 3 []) (L 4 [(5, 50)])). split; [split|split].
  - eexists. split; [reflexivity|]. by exists 0, 0.
  - split; [done|]. split; [by exists (leaf 0 true 0)|by exists (leaf 5 false 50)].
  - by apply (bool_decide_unpack _).
  - simpl. split; [constructor|]. split; [by repeat constructor|]. split; by repeat constructor.
  - by simpl.
  - reflexivity.
  - intros p. by rewrite decide_False by set_solver.
Qed.
Example leaftree_upsert_keeps_witness : small_tid 0 ∧
  wp (upsert next_addr 0 (λ A p, p) 9 1 5 51) (λ b s', b = false ∧ repr 0 1 {[5 := 50]} s') leaftree_one_entry.
Proof.
  assert (small_tid 0) as Ht by (unfold small_tid; lia). split; [exact Ht|].
  apply (leaftree_upsert_keeps next_addr 0 Ht (λ A p, p) 8 1 5 51 50 _ _); [|apply leaftree_one_entry_repr|reflexivity].
  unfold enough. rewrite map_size_singleton. lia.
Defined.
End LeafTree.
