(* ===== verification/TreePaths.v ===== *)
(** * TreePaths: the ways that searches take through external trees.

    [path k t] is the list of internal nodes that a search for [k] visits, and
    [edge root k t a b] says that it goes from [a] to [b].  Putting something
    else in the place of a leaf, or taking a leaf out with its parent, leaves
    every internal node that stays on the ways it was on. *)

From stdpp Require Import prelude list gmap.
From Stdlib Require Import ZArith Lia.
From S2P Require Import Prelude MapSpec BinTree.
Local Open Scope Z_scope.

Section paths.
Context (root : Z).
Implicit Types t : tree.
Implicit Types C : list frame.

Fixpoint path (k : Z) t : list Z :=
  match t with
  | L _ _ => []
  | N a key l r => a :: path k (if k <? key then l else r)
  end.
Fixpoint inners t : list Z :=
  match t with
  | L _ _ => []
  | N a _ l r => a :: inners l ++ inners r
  end.
Definition on (k : Z) t (a : Z) : Prop := a ∈ root :: path k t.
Definition edge (k : Z) t (a b : Z) : Prop :=
  ∃ C t', plug C t' = t ∧ bounds C k ∧ (hole root C).1 = a ∧ addr t' = b.

Lemma inners_addrs t a : a ∈ inners t → a ∈ addrs t.
Proof.
  induction t as [b es|b key l IHl r IHr]; simpl; [by intros ?%elem_of_nil|].
  intros [->|[?|?]%elem_of_app]%elem_of_cons; [by left|right..]; apply elem_of_app; auto.
Qed.
Lemma path_inners k t a : a ∈ path k t → a ∈ inners t.
Proof.
  induction t as [b es|b key l IHl r IHr]; simpl; [done|].
  intros [->|Ha]%elem_of_cons; [by left|right]. apply elem_of_app.
  destruct (k <? key); auto.
Qed.
Lemma on_inners k t a : on k t a → a ∈ root :: inners t.
Proof. intros [->|?%path_inners]%elem_of_cons; [by left|by right]. Qed.

(** what is in a hole changes the paths that lead there, and only at their ends *)
Lemma path_plug C k :
  bounds C k ∧ (∀ t, path k (plug C t) = rev (f_addr <$> C) ++ path k t) ∨
  (¬ bounds C k ∧ ∀ t t', path k (plug C t) = path k (plug C t')).
Proof.
  induction C as [|f C IH]; simpl; [left; by split; [constructor|]|].
  destruct IH as [[Hb Hp]|[Hb Hp]].
  2: { right. split; [by intros [_ ?]%Forall_cons|]. intros t t'. apply Hp. }
  assert (side f k ∨ ¬ side f k) as [Hs|Hs] by (unfold side; destruct (f_left f); lia).
  - left. split; [by constructor|]. intros t. rewrite Hp, <-app_assoc. f_equal. unfold side in Hs.
    destruct (f_left f); simpl; [by rewrite (proj2 (Z.ltb_lt _ _))|by rewrite (proj2 (Z.ltb_ge _ _))].
  - right. split; [by intros [? _]%Forall_cons|]. intros t t'. rewrite !Hp. f_equal. unfold side in Hs.
    destruct (f_left f); simpl; [rewrite (proj2 (Z.ltb_ge _ _))|rewrite (proj2 (Z.ltb_lt _ _))]; (done || lia).
Qed.

Lemma edge_on k t a b : edge k t a b → on k t a.
Proof.
  intros (C & t' & <- & Hb & <- & _). destruct (path_plug C k) as [[_ Hp]|[Hn _]]; [|done].
  unfold on. rewrite Hp. destruct C as [|f C]; simpl; [by left|right].
  apply elem_of_app. left. apply elem_of_app. right. by left.
Qed.
Lemma place_on k a t : ∀ C, bounds C k → a ∈ (hole root C).1 :: path k t →
  ∃ C' t', plug C' t' = plug C t ∧ bounds C' k ∧ (hole root C').1 = a.
Proof.
  induction t as [b es|b key l IHl r IHr]; intros C Hb [->|Ha]%elem_of_cons; [by exists C, (L b es)|by apply elem_of_nil in Ha|
    by exists C, (N b key l r)|]. cbn [path] in Ha.
  destruct (Z.ltb_spec k key).
  - apply (IHl (Frame b key true r :: C)); [by constructor|done].
  - apply (IHr (Frame b key false l :: C)); [by constructor|done].
Qed.
Lemma on_place k t a : on k t a → ∃ C t', plug C t' = t ∧ bounds C k ∧ (hole root C).1 = a.
Proof. intros Ha. apply (place_on k a t []); [constructor|done]. Qed.

(** a step further *)
Lemma place_step C b key l r k : bounds C k →
  on k (plug C (N b key l r)) b.
Proof.
  intros Hb. destruct (path_plug C k) as [[_ Hp]|[Hn _]]; [|done].
  unfold on. rewrite Hp. right. apply elem_of_app. right. by left.
Qed.

Lemma on_grow k C a es sub x : on k (plug C (L a es)) x → on k (plug C sub) x.
Proof.
  unfold on. destruct (path_plug C k) as [[_ Hp]|[_ Hp]]; [|by rewrite (Hp (L a es) sub)].
  rewrite !Hp. simpl. rewrite app_nil_r, !elem_of_cons, elem_of_app. tauto.
Qed.
Lemma on_shrink k f C a es x : x ≠ f_addr f → on k (plug (f :: C) (L a es)) x → on k (plug C (f_sib f)) x.
Proof.
  intros Hx. unfold on. simpl. set (sub := if f_left f then _ else _).
  destruct (path_plug C k) as [[_ Hp]|[_ Hp]]; [|by rewrite (Hp sub (f_sib f))].
  rewrite !Hp, !elem_of_cons, !elem_of_app.
  assert (x ∈ path k sub → x ∈ path k (f_sib f)) as Hsub; [|tauto].
  unfold sub. destruct (f_left f); simpl; intros [?|Hin]%elem_of_cons; try done;
    destruct (k <? f_key f); try done; by apply elem_of_nil in Hin.
Qed.

Lemma inners_plug C : ∃ cs, ∀ t, inners (plug C t) ≡ₚ cs ++ inners t.
Proof.
  induction C as [|f C (cs & IH)]; simpl; [by exists []|].
  exists (cs ++ f_addr f :: inners (f_sib f)). intros t. rewrite IH. destruct (f_left f); simpl; solve_Permutation.
Qed.
End paths.
