(* ===== verification/LeafTreeShape.v ===== *)
(** * LeafTreeShape: the invariant of the leaf tree under interleaving.

    The nodes and the history of trees that they stand for: the present tree
    is in memory, up to the mark of a node that is about to leave it; an
    internal node that some thread may stand on leads where it led in a tree
    that the thread has seen, and, while it is in the tree, is on the ways of
    the searches it was on.  Then what the writes of the updates do. *)

From stdpp Require Import prelude list gmap.
From Stdlib Require Import ZArith Lia.
From S2P Require Import Prelude Conc SpinLock Store MapSpec Linear StoreConc MapConc BinTree LeafTree TreePaths.
Import LeafTree.
Local Open Scope Z_scope.

(** what a node keeps for its life *)
Definition header (n : node) : bool * Z * bool * Z :=
  match n with
  | leaf k s v => (true, k, s, v)
  | internal k s _ _ _ => (false, k, s, 0)
  end.
Definition same_header (n n' : node) : Prop := header n' = header n.
#[export] Instance same_header_preorder : PreOrder same_header.
Proof. split; [done|]. intros n1 n2 n3 H1 H2. unfold same_header in *. congruence. Qed.

Definition removed (n : node) : bool := match n with internal _ _ _ _ rm => rm | leaf _ _ _ => false end.
Definition unmark (n : node) : node :=
  match n with internal k s l r _ => internal k s l r false | leaf _ _ _ => n end.
(** the way of a search for [k] at a node, and where it leads *)
Definition toward (k : Z) (n : node) : bool := is_sentinal n || (k <? key n).
Definition child (k : Z) (n : node) : Z :=
  match n with internal _ _ l r _ => if toward k n then l else r | leaf _ _ _ => 0 end.

Lemma header_leaf n n' : same_header n n' → is_leaf n = true → n' = n.
Proof. unfold same_header. by destruct n as [|k s v], n' as [|k' s' v']; simpl; intros [=] ?; subst. Qed.
Lemma header_is_leaf n n' : same_header n n' → is_leaf n' = is_leaf n.
Proof. unfold same_header. by destruct n, n'; simpl; intros [=]. Qed.
Lemma header_toward k n n' : same_header n n' → toward k n' = toward k n.
Proof. unfold same_header. by destruct n, n'; simpl; intros [=]; subst. Qed.
Lemma header_unmark n n' : unmark n' = unmark n → same_header n n'.
Proof. unfold same_header. by destruct n, n'; simpl; intros [=]; subst. Qed.
Lemma child_unmark k n n' : unmark n' = unmark n → child k n' = child k n.
Proof. by destruct n, n'; simpl; intros [=]; subst. Qed.
Lemma set_child_unmark b c n : unmark (set_child b c n) = set_child b c (unmark n).
Proof. by destruct n, b. Qed.
Lemma set_child_header b c n : same_header n (set_child b c n).
Proof. by destruct n, b. Qed.
Lemma set_child_removed b c n : removed (set_child b c n) = removed n.
Proof. by destruct n, b. Qed.
Lemma leaf_at_unmark m a es : leaf_at (unmark <$> m) a es ↔ leaf_at m a es.
Proof.
  unfold leaf_at. split; intros (n & Hn & He).
  - rewrite lookup_fmap in Hn. destruct (m !! a) as [n'|] eqn:E; [|done]. simpl in Hn. injection Hn as <-.
    exists n'. split; [done|]. by destruct n'.
  - exists n. rewrite lookup_fmap, Hn. split; [|done]. by destruct n.
Qed.

(** *** Trees that were in memory *)
Fixpoint static_at (m : gmap Z node) (t : tree) : Prop :=
  match t with
  | L a es => leaf_at m a es
  | N a k l r => (∃ b c rm, m !! a = Some (internal k false b c rm)) ∧ static_at m l ∧ static_at m r
  end.

Section shape.
Context (root : Z).
#[local] Abbreviation hist := (hist dict_command answer tree).
Implicit Types (m : gmap Z node) (g : hist) (t : tree).
Definition members t : list Z := root :: inners t.
Definition linked t : list Z := root :: addrs t.
Definition contents t : gmap Z Z := to_map (entries t).
#[local] Abbreviation persists := (MapConc.persists same_header).
#[local] Abbreviation visible := (StoreConc.visible linked).
#[local] Abbreviation on := (on root).
#[local] Abbreviation edge := (edge root).

Lemma members_linked t a : a ∈ members t → a ∈ linked t.
Proof. intros [->|?%inners_addrs]%elem_of_cons; [by left|by right]. Qed.

Record known m t : Prop := {
  kn_root : ∃ k b c rm, m !! root = Some (internal k true b c rm);
  kn_nodes : static_at m t;
  kn_nodup : NoDup (linked t);
  kn_bst : bst t;
  kn_sent : sent true t;
}.

Record shape m g : Prop := {
  sh_now : at_tree root (now g) (unmark <$> m);
  sh_seen : ∀ i t, seen g i t → known m t ∧ seen g i (now g);
  sh_path : ∀ i t k a, seen g i t → on k t a → a ∈ members (now g) → on k (now g) a;
  sh_next : ∀ i t k a n, seen g i t → on k t a → m !! a = Some n → ∃ t', seen g i t' ∧ edge k t' a (child k n);
  sh_gone : ∀ i t a n, seen g i t → a ∈ members t → m !! a = Some n → removed n = false → a ∈ members (now g);
}.

Lemma leaf_persists m m' a es : persists m m' → leaf_at m a es → leaf_at m' a es.
Proof.
  intros Hp (n & Hn & He). destruct (Hp a n Hn) as (n' & Hn' & Hh). exists n'. split; [done|].
  assert (is_leaf n = true) by (by destruct n). by rewrite (header_leaf _ _ Hh).
Qed.
Lemma inner_persists m m' a k s b c rm : persists m m' → m !! a = Some (internal k s b c rm) →
  ∃ b' c' rm', m' !! a = Some (internal k s b' c' rm').
Proof.
  intros Hp Hn. destruct (Hp a _ Hn) as (n' & Hn' & Hh). unfold same_header in Hh.
  destruct n' as [k' s' b' c' rm'|]; simpl in Hh; [|done]. injection Hh as -> ->. eauto.
Qed.
Lemma static_persists m m' t : persists m m' → static_at m t → static_at m' t.
Proof.
  intros Hp. induction t as [a es|a k l IHl r IHr]; simpl; [by apply leaf_persists|].
  intros ((b & c & rm & Hn) & Hl & Hr). split; [|by auto]. by eapply inner_persists.
Qed.
Lemma known_persists m m' t : persists m m' → known m t → known m' t.
Proof.
  intros Hp [(k & b & c & rm & Hr) Hn Hnd Hb Hs]. split; [|by eapply static_persists|done..].
  exists k. by eapply inner_persists.
Qed.

Lemma static_now m t : tree_at (unmark <$> m) t → static_at m t.
Proof.
  induction t as [a es|a k l IHl r IHr]; simpl; [by rewrite leaf_at_unmark|].
  intros (Ha & Hl & Hr). split; [|by auto]. rewrite lookup_fmap in Ha.
  destruct (m !! a) as [[k' s b c rm|]|] eqn:E; simpl in Ha; [|done..]. injection Ha as -> -> -> ->. eauto.
Qed.
Lemma known_now m t : at_tree root t (unmark <$> m) → known m t.
Proof.
  intros [(n & Hn & k & r & ->) Ht Hnd Hb Hs]. split; [|by apply static_now|done..].
  rewrite lookup_fmap in Hn. destruct (m !! root) as [[k' s b c rm|]|] eqn:E; simpl in Hn; [|done..].
  injection Hn as -> -> -> ->. eauto.
Qed.

(** the node at a place, and the direction of the search there *)
Lemma now_child m t k a n : at_tree root t (unmark <$> m) → on k t a → m !! a = Some n →
  ∃ C t', plug C t' = t ∧ bounds C k ∧ (hole root C).1 = a ∧ (hole root C).2 = toward k n ∧
    addr t' = child k n ∧ get_child (toward k n) n = inr (child k n).
Proof.
  intros [Hr Ht _ _ _] (C & t' & <- & Hb & <-)%on_place Hn.
  destruct (proj1 (ctx_plug _ root C t' _ eq_refl) (conj Hr Ht)) as [Hc _].
  exists C, t'. split; [done|]. split; [done|]. split; [done|]. unfold child, toward.
  destruct C as [|f C]; simpl in *.
  - destruct Hc as (n' & Hn' & k0 & r0 & ->). rewrite lookup_fmap, Hn in Hn'. simpl in Hn'.
    destruct n as [k' s b c rm|]; simpl in *; [|done]. by injection Hn' as -> -> -> ->.
  - destruct Hc as [Hf _]. rewrite lookup_fmap, Hn in Hf. simpl in Hf. apply Forall_cons in Hb as [Hside _].
    unfold side, frame_node in *. destruct n as [k' s b c rm|]; [|by destruct (f_left f)].
    destruct (f_left f); simpl in *; injection Hf as -> -> -> ->; simpl.
    + by rewrite (proj2 (Z.ltb_lt _ _)).
    + by rewrite (proj2 (Z.ltb_ge _ _)).
Qed.
Lemma now_edge m t k a n : at_tree root t (unmark <$> m) → on k t a → m !! a = Some n → edge k t a (child k n).
Proof.
  intros Ht Ha Hn. destruct (now_child _ _ _ _ _ Ht Ha Hn) as (C & t' & ? & ? & ? & _ & ? & _). by exists C, t'.
Qed.

(** where the way leads in a tree that was there *)
Lemma static_plug m C t : static_at m (plug C t) → static_at m t.
Proof.
  revert t. induction C as [|f C IH]; intros t; simpl; [done|]. intros Hs%IH. destruct (f_left f); by apply Hs.
Qed.
Lemma tree_edge_target m t k a b : known m t → edge k t a b → ∃ n, m !! b = Some n.
Proof.
  intros Hk (C & t' & <- & _ & _ & <-). pose proof (static_plug _ _ _ (kn_nodes _ _ Hk)) as Hs.
  destruct t' as [b es|b k' l r]; simpl in *; [destruct Hs as (n & ? & _)|destruct Hs as ((? & ? & ? & ?) & _)]; eauto.
Qed.
Lemma edge_inner m t k a b n : known m t → edge k t a b → m !! b = Some n → is_leaf n = false →
  on k t b ∧ is_sentinal n = false.
Proof.
  intros Hk (C & t' & <- & Hb & _ & <-) Hn Hl. pose proof (static_plug _ _ _ (kn_nodes _ _ Hk)) as Hs.
  destruct t' as [b es|b k' l r]; simpl in *.
  - destruct Hs as (n' & Hn' & He). rewrite Hn in Hn'. injection Hn' as <-. by destruct n.
  - destruct Hs as ((b1 & c & rm & Hn') & _). rewrite Hn in Hn'. injection Hn' as ->.
    split; [by apply place_step|done].
Qed.
Lemma edge_linked t k a b : edge k t a b → b ∈ linked t.
Proof.
  intros (C & t' & <- & _ & _ & <-). unfold linked. rewrite plug_addrs. right. apply elem_of_app. right.
  destruct t'; by left.
Qed.
Lemma edge_distinct m t k a b : known m t → edge k t a b → a ≠ b.
Proof.
  intros [_ _ Hnd _ _] (C & t' & <- & _ & <- & <-). unfold linked in Hnd. rewrite plug_addrs, app_comm_cons in Hnd.
  apply NoDup_app in Hnd as (_ & Hd & _). intros Heq. apply (Hd (addr t')).
  - rewrite <-Heq. apply hole_in.
  - destruct t'; by left.
Qed.
Lemma member_inner m t a : known m t → a ∈ members t → ∃ n, m !! a = Some n ∧ is_leaf n = false.
Proof.
  intros [(k & b & c & rm & Hr) Hs _ _ _] [->|Ha]%elem_of_cons; [eauto|]. clear Hr.
  induction t as [a' es|a' k' l IHl r IHr]; simpl in *; [by apply elem_of_nil in Ha|].
  destruct Hs as ((b' & c' & rm' & Hn) & Hl & Hr). apply elem_of_cons in Ha as [->|[Ha|Ha]%elem_of_app]; eauto.
Qed.
Lemma linked_allocated m t a : known m t → a ∈ linked t → is_Some (m !! a).
Proof.
  intros [(k & b & c & rm & Hr) Hs _ _ _] [->|Ha]%elem_of_cons; [eauto|]. clear Hr.
  induction t as [a' es|a' k' l IHl r IHr]; simpl in *.
  - destruct Hs as (n & Hn & _). apply list_elem_of_singleton in Ha as ->. eauto.
  - destruct Hs as ((b' & c' & rm' & Hn) & Hl & Hr). apply elem_of_cons in Ha as [->|[Ha|Ha]%elem_of_app]; eauto.
Qed.

(** *** The invariant under updates *)
Lemma tree_shape_reseen m g g' : shape m g → reseen g g' → shape m g'.
Proof.
  intros [H1 H2 H3 H4 H5] [Hn Hs].
  assert (∀ i t, seen g' i t → (∀ x, seen g' i x ↔ seen g i x) ∨ t = now g ∧ ∀ x, seen g' i x ↔ x = now g) as Hcase.
  { intros i t Ht. destruct (Hs i) as [H|[H|H]]; [by left|right; split; [by apply H|done]|by apply H in Ht]. }
  split; rewrite ?Hn; [done|..].
  - intros i t Ht. destruct (Hcase i t Ht) as [H|[-> H]]; [rewrite !H in *; auto|]. rewrite H.
    split; [by apply known_now|done].
  - intros i t k a Ht Ha Hm. destruct (Hcase i t Ht) as [H|[-> H]]; [|done]. apply (H3 i t k a); [by apply H|done..].
  - intros i t k a n Ht Ha Hm. destruct (Hcase i t Ht) as [H|[-> H]].
    + destruct (H4 i t k a n) as (t' & ? & ?); [by apply H|done|done|]. exists t'. by rewrite H.
    + exists (now g). split; [by apply H|]. by eapply now_edge.
  - intros i t a n Ht Ha Hm Hr. destruct (Hcase i t Ht) as [H|[-> H]]; [|done].
    apply (H5 i t a n); [by apply H|done..].
Qed.

Lemma tree_shape_allocated m g p : shape m g → visible g p → is_Some (m !! p).
Proof.
  intros Hsh [Hp|(i & t & Ht & Hp)].
  - eapply linked_allocated; [apply known_now, (sh_now _ _ Hsh)|done].
  - eapply linked_allocated; [apply (sh_seen _ _ Hsh i t Ht)|done].
Qed.
Lemma seen_visible g i t a : seen g i t → a ∈ members t → visible g a.
Proof. intros Ht Ha. right. exists i, t. split; [done|]. by apply members_linked. Qed.

(** children and marks that stay as they are *)
Definition same_links m m' (a : Z) : Prop := ∀ n', m' !! a = Some n' →
  ∃ n, m !! a = Some n ∧ unmark n' = unmark n ∧ (removed n' = false → removed n = false).

Lemma at_tree_same (m m' : gmap Z node) t : at_tree root t m → (∀ a, a ∈ linked t → m' !! a = m !! a) → at_tree root t m'.
Proof.
  intros [(n & Hn & Hr) Ht Hnd Hb Hs] Hm. split; [|eapply tree_frame; [|exact Ht]|done..].
  - exists n. split; [|done]. rewrite Hm; [done|by left].
  - intros a Ha. apply Hm. by right.
Qed.
Lemma unmark_same m m' t : at_tree root t (unmark <$> m) → persists m m' →
  (∀ a, a ∈ linked t → same_links m m' a) → at_tree root t (unmark <$> m').
Proof.
  intros Ht Hp Hs. eapply at_tree_same; [exact Ht|]. intros a Ha. rewrite !lookup_fmap.
  destruct (linked_allocated _ _ _ (known_now _ _ Ht) Ha) as [n Hn]. destruct (Hp a n Hn) as (n' & Hn' & _).
  destruct (Hs a Ha n' Hn') as (n1 & Hn1 & Hu & _). rewrite Hn'. rewrite Hn1. simpl. by rewrite Hu.
Qed.

Lemma tree_shape_same m m' g : shape m g → persists m m' → (∀ a, visible g a → same_links m m' a) → shape m' g.
Proof.
  intros [H1 H2 H3 H4 H5] Hp Hs. split.
  - eapply unmark_same; [done|done|]. intros a Ha. apply Hs. by left.
  - intros i t Ht. destruct (H2 i t Ht). split; [by eapply known_persists|done].
  - done.
  - intros i t k a n' Ht Ha Hn'. destruct (Hs a) with n' as (n & Hn & Hu & _);
      [by eapply seen_visible, on_inners|done|]. rewrite (child_unmark k _ _ Hu). eauto.
  - intros i t a n' Ht Ha Hn' Hr. destruct (Hs a) with n' as (n & Hn & _ & Hr');
      [by eapply seen_visible|done|]. apply (H5 i t a n); auto.
Qed.

Lemma tree_shape_grow m g p n : shape m g → m !! p = None → shape (<[p := n]> m) g.
Proof.
  intros Hsh Hp. apply (tree_shape_same m); [done|exact (persists_new same_header m p n Hp)|].
  intros a Ha n'. destruct (tree_shape_allocated _ _ _ Hsh Ha) as [o Ho].
  rewrite lookup_insert_ne by congruence. eauto.
Qed.

(** an update that changes the tree to [t'] *)
Lemma tree_shape_commit {A} (sem : dict_command → A → answer * A) value v0 log m m' g i t' :
  hist_ok sem value v0 log g → shape m g → persists m m' → at_tree root t' (unmark <$> m') →
  (∀ a n', visible g a → m' !! a = Some n' →
     ∃ n, m !! a = Some n ∧ (removed n' = false → removed n = false) ∧ ((a ∉ members t') → unmark n' = unmark n)) →
  (∀ k a, on k (now g) a → a ∈ members t' → on k t' a) →
  (∀ a n', a ∈ members (now g) → m' !! a = Some n' → removed n' = false → a ∈ members t') →
  (∀ a, visible g a → a ∈ members t' → a ∈ members (now g)) →
  shape m' (committed sem v0 i t' g).
Proof.
  intros Hg [H1 H2 H3 H4 H5] Hp Ht' Hm Hon Hgone Hold.
  assert (∀ j t k a, seen g j t → on k t a → a ∈ members t' → on k t' a) as Hway.
  { intros j t k a Ht Ha Ha'. apply Hon; [|done]. apply (H3 j t); [done|done|].
    apply Hold; [by eapply seen_visible, on_inners|done]. }
  split; simpl; [done|..].
  - intros j t [Hj [Ht|[-> Hc]]]; [|split; [by apply known_now|split; [done|by right]]].
    split; [by eapply known_persists; [|apply (H2 j t)]|]. split; [done|]. right. split; [done|].
    by apply (seen_pending _ _ _ _ _ _ _ Hg Ht).
  - intros j t k a [Hj [Ht|[-> _]]] Ha Hin; [by eapply Hway|done].
  - intros j t k a n' [Hj Ht] Ha Hn'. assert (∃ c, doing sem v0 g j = Some (Pending c)) as Hc.
    { destruct Ht as [Ht|[_ Hc]]; [by apply (seen_pending _ _ _ _ _ _ _ Hg Ht)|done]. }
    destruct (decide (a ∈ members t')) as [Ha'|Ha'].
    { exists t'. split; [split; [done|by right]|]. eapply now_edge; [done| |done].
      destruct Ht as [Ht|[-> _]]; [by eapply Hway|done]. }
    destruct Ht as [Ht|[-> _]]; [|by apply on_inners in Ha].
    destruct (Hm a n') as (n & Hn & _ & Hu); [by eapply seen_visible, on_inners|done|].
    rewrite (child_unmark k _ _ (Hu Ha')). destruct (H4 j t k a n Ht Ha Hn) as (t2 & ? & ?).
    exists t2. split; [split; [done|by left]|done].
  - intros j t a n' [Hj [Ht|[-> _]]] Ha Hn' Hr; [|done].
    destruct (Hm a n') as (n & Hn & Hrn & _); [by eapply seen_visible|done|].
    apply (Hgone a n'); [|done|done]. apply (H5 j t a n); auto.
Qed.
End shape.

(** *** Leaves *)
Lemma static_leaf m t n : static_at m t → m !! addr t = Some n → is_leaf n = true →
  ∃ es, t = L (addr t) es ∧ leaf_holds es n.
Proof.
  destruct t as [a es|a k l r]; simpl.
  - intros (n' & Hn' & He) Hn _. rewrite Hn in Hn'. injection Hn' as <-. by exists es.
  - intros ((b & c & rm & Hn') & _) Hn Hl. rewrite Hn in Hn'. by injection Hn' as ->.
Qed.
(** what a search that ends at the leaf [n] answers *)
Definition reading (k : Z) (n : node) : option Z :=
  match n with leaf _ _ v => if Equal k n then Some v else None | internal _ _ _ _ _ => None end.
Lemma Equal_leaf k k' v : Equal k (leaf k' false v) = bool_decide (k = k').
Proof.
  unfold Equal. simpl. case_bool_decide as Hk; [subst; by rewrite Z.ltb_irrefl|].
  apply negb_false_iff, orb_true_iff. rewrite !Z.ltb_lt. lia.
Qed.
Lemma leaf_reading k es n : leaf_holds es n → to_map es !! k = reading k n.
Proof.
  destruct n as [|k' [] v]; simpl; [done|by intros ->|intros ->]. rewrite Equal_leaf, to_map_one.
  by case_bool_decide; case_decide.
Qed.
Lemma tree_edge_lookup root m t k p l n : known root m t → edge root k t p l → m !! l = Some n → is_leaf n = true →
  contents t !! k = reading k n.
Proof.
  intros Hk (C & t' & <- & Hb & _ & <-) Hn Hl.
  destruct (static_leaf m t' n) as (es & Ht & He); [by eapply static_plug, kn_nodes|done..|].
  unfold contents. rewrite Ht in *. rewrite leaf_plug_lookup; [by apply leaf_reading|apply Hk|done].
Qed.
(** below the root itself there is only the empty leaf *)
Lemma edge_root_leaf root m t k l n : known root m t → edge root k t root l → m !! l = Some n → is_leaf n = true →
  is_sentinal n = true.
Proof.
  intros Hk (C & t' & <- & _ & Hr & <-) Hn Hl. pose proof (kn_nodup _ _ _ Hk) as Hnd. unfold linked in Hnd.
  destruct C as [|f C]; simpl in *.
  - destruct (static_leaf m t' n) as (es & Ht & He); [by eapply kn_nodes|done..|].
    pose proof (kn_sent _ _ _ Hk) as Hs. rewrite Ht in Hs. simpl in Hs. destruct Hs as [_ Hs].
    rewrite (Hs eq_refl) in He. destruct n as [|k' [] v]; simpl in *; done.
  - apply NoDup_cons in Hnd as [Hnd _]. destruct Hnd. rewrite <-Hr. rewrite plug_addrs.
    apply elem_of_app. right. destruct (f_left f); by left.
Qed.

(** *** What the two kinds of update do to the tree *)
Section updates.
Context (root : Z) (M0 : gmap Z Z).
#[local] Abbreviation hist := (hist dict_command answer tree).
#[local] Abbreviation members := (members root).
#[local] Abbreviation linked := (linked root).
#[local] Abbreviation shape := (shape root).
#[local] Abbreviation edge := (edge root).
#[local] Abbreviation visible := (StoreConc.visible linked).
#[local] Abbreviation hist_ok := (hist_ok meaning contents M0).
#[local] Abbreviation doing := (doing meaning M0).
#[local] Abbreviation committed := (committed meaning M0).
Implicit Types (m : gmap Z node) (g : hist) (t : tree).

(** under its lock an unmarked node is in the tree, at its place *)
Lemma tree_place_now m g i t k p l np : shape m g → seen g i t → edge k t p l →
  m !! p = Some np → removed np = false →
  p ∈ members (now g) ∧ ∃ C t', plug C t' = now g ∧ bounds C k ∧ hole root C = (p, toward k np) ∧
    addr t' = child k np ∧ get_child (toward k np) np = inr (child k np).
Proof.
  intros Hsh Ht He Hp Hrm. pose proof (edge_on _ _ _ _ _ He) as Hon.
  pose proof (sh_gone _ _ _ Hsh i t p np Ht (on_inners _ _ _ _ Hon) Hp Hrm) as Hin. split; [done|].
  pose proof (sh_path _ _ _ Hsh i t k p Ht Hon Hin) as Hnow.
  destruct (now_child _ _ _ _ _ _ (sh_now _ _ _ Hsh) Hnow Hp) as (C & t' & ? & ? & Hh & Hd & ? & ?).
  exists C, t'. destruct (hole root C) as [h d]. simpl in *. subst. done.
Qed.

(** the node that an insert puts over the leaf [n] at [l] and the new leaf [y] *)
Definition split_node (n : node) (l k y : Z) : node :=
  if Less k n then internal (key n) false y l false else internal k false l y false.

Lemma split_tree_at (m : gmap Z node) l es n k v x y : leaf_holds es n → leaf_at m l es →
  m !! x = Some (split_node n l k y) → m !! y = Some (leaf k false v) → tree_at m (split_leaf l es k v x y).
Proof.
  intros He Hl Hx Hy. assert (leaf_at m y [(k, v)]) as Hy' by (by exists (leaf k false v)).
  unfold split_node, Less in Hx. unfold split_leaf.
  destruct n as [|k' [] v']; simpl in *; [done|subst es; by split|subst es].
  destruct (k <? k'); by split.
Qed.

Lemma tree_insert_commit m g log i t k v p l np n x y : hist_ok log g → shape m g →
  doing g i = Some (Pending (Insert k v)) → seen g i t → edge k t p l →
  m !! l = Some n → is_leaf n = true → Equal k n = false →
  m !! p = Some np → removed np = false → child k np = l →
  ¬ visible g x → ¬ visible g y → x ≠ y →
  m !! x = Some (split_node n l k y) → m !! y = Some (leaf k false v) →
  ∃ t', hist_ok log (committed i t' g) ∧ doing (committed i t' g) i = Some (Done (AInsert true)) ∧
    (∀ j, j ≠ i → kept meaning M0 j g (committed i t' g)) ∧
    shape (<[p := set_child (toward k np) x np]> m) (committed i t' g) ∧
    p ∈ members t' ∧ (∀ q, q ∈ members t' ↔ q = x ∨ q ∈ members (now g)) ∧
    (∀ q, q ∈ linked t' → q = x ∨ q = y ∨ q ∈ linked (now g)).
Proof.
  intros Hg Hsh Hd Ht He Hl Hleaf Hne Hp Hrm Hch Hxv Hyv Hxy Hx Hy.
  destruct (tree_place_now m g i t k p l np Hsh Ht He Hp Hrm) as (Hpn & C & t1 & Heq & Hb & Hh & Ha & _).
  pose proof (sh_now _ _ _ Hsh) as Hnow. rewrite Hch in Ha. clear Hch. subst l.
  destruct (static_leaf m t1 n) as (es & Hes & Hholds); [|done..|].
  { eapply static_plug. rewrite Heq. by eapply kn_nodes, known_now. }
  set (l := addr t1) in *. rewrite Hes in Heq. clear Hes.
  set (m1 := unmark <$> m) in *. set (m0 := delete x (delete y m1)).
  assert (x ∉ linked (now g)) as Hxl by (intros ?; apply Hxv; by left).
  assert (y ∉ linked (now g)) as Hyl by (intros ?; apply Hyv; by left).
  assert (at_tree root (now g) m0) as Hnow0.
  { eapply at_tree_same; [exact Hnow|]. intros a Hin. unfold m0.
    rewrite !lookup_delete_ne by (intros ->; done). done. }
  assert (∀ a z, m0 !! a = Some z → m1 !! a = Some z) as Hsub.
  { intros a z. unfold m0. by intros [_ [_ ?]%lookup_delete_Some]%lookup_delete_Some. }
  pose proof (at_leaf_place root (now g) m0 k C l es Hnow0 Heq Hb) as Hplace.
  assert (p ≠ x ∧ p ≠ y) as [Hpx Hpy].
  { apply members_linked in Hpn. split; intros ->; done. }
  assert (m0 !! (hole root C).1 = Some (unmark np)) as Hhole.
  { rewrite Hh. unfold m0, m1. simpl. rewrite !lookup_delete_ne by done. by rewrite lookup_fmap, Hp. }
  assert (es = [] ∨ ∃ k' v', es = [(k', v')] ∧ k ≠ k') as Hcase.
  { destruct n as [|k' [] v']; simpl in Hholds; [done|by left|right]. exists k', v'. split; [done|].
    rewrite Equal_leaf in Hne. by apply bool_decide_eq_false in Hne. }
  destruct (split_place root (now g) m0 k v C l es x y m1 (unmark np)) as [Hat Hmap]; try done.
  { unfold m0. by rewrite lookup_delete_eq. }
  { unfold m0. rewrite lookup_delete_ne by done. by rewrite lookup_delete_eq. }
  { apply (split_tree_at _ _ _ n); [done| |unfold m1; rewrite lookup_fmap, Hx|unfold m1; by rewrite lookup_fmap, Hy].
    - apply leaf_at_unmark. by exists n.
    - simpl. unfold split_node. by destruct (Less k n). }
  set (t' := plug C (split_leaf l es k v x y)) in *.
  assert (meaning (Insert k v) (contents (now g)) = (AInsert true, contents t')) as Hsem.
  { unfold contents at 2. rewrite Hmap. simpl. rewrite (tree_edge_lookup root m (now g) k p l n); [|by apply known_now| |done|done].
    - unfold reading. destruct n; [done|]. by rewrite Hne.
    - exists C, (L l es). by rewrite Hh. }
  destruct (hist_commit meaning contents M0 log g i _ _ t' Hg Hd Hsem) as (Hg' & Hd' & Hk').
  assert (MapConc.persists same_header m (<[p := set_child (toward k np) x np]> m)) as Hper.
  { apply (persists_insert same_header m p np _ Hp). apply set_child_header. }
  assert (∀ q, q ∈ members t' ↔ q = x ∨ q ∈ members (now g)) as Hmem.
  { intros q. unfold members, t'. rewrite <-Heq. destruct (inners_plug C) as [cs Hcs]. rewrite !elem_of_cons, !Hcs, !elem_of_app.
    assert (q ∈ inners (split_leaf l es k v x y) ↔ q = x) as Hin.
    { unfold split_leaf. repeat case_match; simpl; apply list_elem_of_singleton. }
    rewrite Hin. simpl. rewrite elem_of_nil. tauto. }
  exists t'. split; [done|]. split; [done|]. split; [done|]. split; [|split; [apply Hmem; by right|split; [done|]]].
  - eapply tree_shape_commit; [exact Hg|exact Hsh|exact Hper| | | | |].
    + rewrite fmap_insert, set_child_unmark. rewrite Hh in Hat. exact Hat.
    + intros a n' Hav. destruct (decide (a = p)) as [->|Hap].
      * rewrite lookup_insert_eq. intros [= <-]. exists np. split; [done|]. split; [done|].
        intros Hn. destruct Hn. apply Hmem. by right.
      * rewrite lookup_insert_ne by done. eauto.
    + intros k' a Hon _. rewrite <-Heq in Hon. by eapply on_grow.
    + intros a n' Hin _ _. apply Hmem. by right.
    + intros a Hav [->|?]%Hmem; done.
  - intros q. unfold linked, t'. rewrite <-Heq, !elem_of_cons, !plug_addrs, !elem_of_app. simpl. rewrite list_elem_of_singleton.
    intros [?|[?|Hin]]; [tauto..|]. assert (q = x ∨ q = y ∨ q = l); [|tauto].
    unfold split_leaf in Hin. repeat case_match; simpl in Hin;
      repeat (apply elem_of_cons in Hin as [?|Hin]; [tauto|]); by apply elem_of_nil in Hin.
Qed.

(** the tree around a node and a leaf below it *)
Lemma place_leaf m g k gp p ng np n C t1 : shape m g → plug C t1 = now g → bounds C k →
  hole root C = (gp, toward k ng) → addr t1 = p → m !! p = Some np → is_leaf np = false →
  m !! child k np = Some n → is_leaf n = true → Equal k n = true →
  ∃ v sib, let f := Frame p (key np) (toward k np) sib in
    n = leaf k false v ∧ get_child (negb (toward k np)) np = inr (addr sib) ∧
    leaf_place root (now g) (unmark <$> m) k (f :: C) (child k np) [(k, v)].
Proof.
  intros Hsh Heq Hb Hh Ha Hp Hin Hl Hleaf Hk. pose proof (sh_now _ _ _ Hsh) as Hnow.
  pose proof (known_now _ _ _ Hnow) as Hkn.
  pose proof Hnow as [Hr Ht _ _ _]. rewrite <-Heq in Hr, Ht.
  destruct (proj1 (ctx_plug _ root C t1 _ eq_refl) (conj Hr Ht)) as [Hc Ht1].
  destruct t1 as [a es|a k' tl tr]; simpl in Ha; subst a.
  { simpl in Ht1. rewrite leaf_at_unmark in Ht1. destruct Ht1 as (n' & Hn' & He'). rewrite Hp in Hn'. injection Hn' as <-. by destruct np. }
  destruct Ht1 as (Hpm & Htl & Htr). rewrite lookup_fmap, Hp in Hpm. simpl in Hpm.
  destruct np as [kp sp lp rp rmp|]; [|done]. simpl in Hpm. injection Hpm as -> -> -> ->.
  set (sub := if k <? k' then tl else tr). set (sib := if k <? k' then tr else tl).
  assert (child k (internal k' false (addr tl) (addr tr) rmp) = addr sub) as Hch.
  { unfold child, toward, sub. simpl. by destruct (k <? k'). }
  rewrite Hch in *. set (f := Frame p k' (k <? k') sib).
  assert (plug (f :: C) sub = now g) as Heq'.
  { rewrite <-Heq. simpl. unfold sub, sib. by destruct (k <? k'). }
  destruct (static_leaf m sub n) as (es & Hes & Hholds); [|done..|].
  { eapply (static_plug _ (f :: C)). rewrite Heq'. apply Hkn. }
  assert (∃ v, n = leaf k false v ∧ es = [(k, v)]) as (v & -> & ->).
  { destruct n as [|kn [] v]; simpl in *; [done|done|]. rewrite Equal_leaf in Hk. apply bool_decide_eq_true in Hk as ->. eauto. }
  exists v, sib. simpl. split; [done|]. split.
  - unfold toward, sib. simpl. by destruct (k <? k').
  - apply at_leaf_place; [done|by rewrite <-Hes|]. constructor; [|done]. unfold side, toward. simpl.
    by destruct (Z.ltb_spec k k').
Qed.

(** a leaf is taken out with its parent, which is marked *)
Lemma tree_remove_commit m g log i t k gp p ng np n c : hist_ok log g → shape m g →
  doing g i = Some (Pending (Remove k)) → seen g i t → edge k t gp p →
  m !! gp = Some ng → removed ng = false → child k ng = p →
  m !! p = Some np → is_leaf np = false → removed np = true →
  m !! child k np = Some n → is_leaf n = true → Equal k n = true →
  get_child (negb (toward k np)) np = inr c →
  ∃ t', hist_ok log (committed i t' g) ∧ doing (committed i t' g) i = Some (Done (ARemove true)) ∧
    (∀ j, j ≠ i → kept meaning M0 j g (committed i t' g)) ∧
    shape (<[gp := set_child (toward k ng) c ng]> m) (committed i t' g) ∧
    gp ∈ members t' ∧ (p ∉ members t') ∧ (∀ q, q ∈ members (now g) ↔ q = p ∨ q ∈ members t') ∧
    (∀ q, q ∈ linked t' → q ∈ linked (now g)).
Proof.
  intros Hg Hsh Hd Ht He Hgp Hrm Hgch Hp Hin Hrp Hl Hleaf Hk Hc.
  destruct (tree_place_now m g i t k gp p ng Hsh Ht He Hgp Hrm) as (Hgn & C & t1 & Heq & Hb & Hh & Ha & _).
  pose proof (sh_now _ _ _ Hsh) as Hnow. rewrite Hgch in Ha.
  destruct (place_leaf m g k gp p ng np n C t1 Hsh Heq Hb Hh Ha Hp Hin Hl Hleaf Hk) as (v & sib & -> & Hsib & Hplace).
  rewrite Hc in Hsib. injection Hsib as ->. set (f := Frame p (key np) (toward k np) sib) in *.
  set (m1 := unmark <$> m) in *.
  assert (m1 !! (hole root C).1 = Some (unmark ng)) as Hhole by (unfold m1; rewrite Hh; simpl; by rewrite lookup_fmap, Hgp).
  destruct (remove_place root (now g) m1 k v f C (child k np) (unmark np) (unmark ng) Hnow Hplace Hhole) as [Hat Hmap].
  rewrite (insert_id m1 (f_addr f) (unmark np)) in Hat by (unfold m1; simpl; by rewrite lookup_fmap, Hp).
  simpl in Hat. rewrite Hh in Hat. simpl in Hat. simpl in Hmap. set (t' := plug C sib) in *.
  assert (contents (now g) !! k = Some v) as Hlook.
  { unfold contents. rewrite (leaf_lookup _ _ _ _ _ _ _ Hplace Hnow). rewrite to_map_one. by rewrite decide_True. }
  assert (meaning (Remove k) (contents (now g)) = (ARemove true, contents t')) as Hsem.
  { unfold contents at 2. rewrite Hmap. simpl. by rewrite Hlook. }
  destruct (hist_commit meaning contents M0 log g i _ _ t' Hg Hd Hsem) as (Hg' & Hd' & Hk').
  pose proof (lp_eq _ _ _ _ _ _ _ Hplace) as Heqf.
  assert ((p ∉ linked t') ∧ gp ≠ p) as [Hpt Hgpp].
  { pose proof (at_nodup _ _ _ Hnow) as Hnd. rewrite <-Heqf in Hnd. rewrite plug_addrs in Hnd. simpl in Hnd.
    assert (p ∉ linked t') as Hpt; [|split; [done|]].
    - unfold linked, t'. rewrite plug_addrs. intros Hpin.
      assert (root :: p :: (addrs sib ++ caddrs C) ++ [child k np] ≡ₚ p :: (root :: caddrs C ++ addrs sib) ++ [child k np]) as Hperm
        by solve_Permutation.
      rewrite Hperm in Hnd. apply NoDup_cons in Hnd as [Hnd _]. destruct Hnd. apply elem_of_app. by left.
    - intros ->. apply Hpt. unfold linked, t'. rewrite plug_addrs, app_comm_cons. apply elem_of_app. left.
      pose proof (hole_in root C) as Hi. by rewrite Hh in Hi. }
  assert (∀ q, q ∈ members (now g) ↔ q = p ∨ q ∈ members t') as Hmem.
  { intros q. rewrite <-Heqf. unfold members, t'. simpl. destruct (inners_plug C) as [cs Hcs].
    rewrite !elem_of_cons, !Hcs, !elem_of_app. destruct (toward k np); simpl;
      rewrite elem_of_cons, ?elem_of_app, ?elem_of_nil; tauto. }
  assert (gp ∈ members t') as Hgt by (by destruct (proj1 (Hmem gp) Hgn)).
  assert (p ∉ members t') as Hpt' by (intros ?%members_linked; done).
  exists t'. do 3 (split; [done|]). split; [|split; [done|]; split; [done|]; split; [done|]].
  - eapply tree_shape_commit; [exact Hg|exact Hsh| | | | | |].
    + apply (persists_insert same_header m gp ng _ Hgp). apply set_child_header.
    + rewrite fmap_insert, set_child_unmark. exact Hat.
    + intros a n' Hav. destruct (decide (a = gp)) as [->|Hap].
      * rewrite lookup_insert_eq. intros [= <-]. exists ng. by rewrite set_child_removed.
      * rewrite lookup_insert_ne by done. eauto.
    + intros k' a Hon Ha'. rewrite <-Heqf in Hon. refine (on_shrink root k' f C _ _ a _ Hon). simpl. by intros ->.
    + intros a n' [->|?]%Hmem; [|done]. rewrite lookup_insert_ne, Hp by done. intros [= <-]. by rewrite Hrp.
    + intros a _ ?. apply Hmem. by right.
  - intros q. unfold linked, t'. rewrite <-Heqf, !elem_of_cons, !plug_addrs. simpl.
    rewrite !elem_of_app, !elem_of_cons, !elem_of_app. tauto.
Qed.
End updates.
