(* ===== verification/LeafTreeConc.v ===== *)
(** * LeafTreeConc: the leaf tree under interleaving.

    Threads insert into, remove from and search the tree of [LeafTree] at once,
    a search without any lock.  [LeafTreeShape] has the invariant; here are the
    searches, whose every step was a step of the way to the key in a tree that
    was there since the operation began, the critical sections of the updates,
    and the theorem for any number of threads. *)

From stdpp Require Import prelude list gmap.
From Stdlib Require Import ZArith Lia.
From S2P Require Import Prelude Conc SpinLock Store MapSpec Linear StoreConc MapConc BinTree LeafTree TreePaths LeafTreeShape.
Import LeafTree.
Local Open Scope Z_scope.

Section conc.
Context (alloc : gmap Z node → Z) {fresh : Allocator alloc}.
Context (threads : nat) (threads_fit : Z.of_nat threads ≤ 2 ^ 16 - 1) (root : Z) (M0 : gmap Z Z).
#[local] Abbreviation hist := (hist dict_command answer tree).
#[local] Abbreviation config :=
  (world (store_state node) (event dict_command answer) * (hist * (nat → list Z)))%type.
Implicit Types (σ : config) (t : tree) (g : hist).

#[local] Abbreviation shape := (shape root).
#[local] Abbreviation tree_shape_reseen := (tree_shape_reseen root).
#[local] Abbreviation members := (members root).
#[local] Abbreviation linked := (linked root).
#[local] Abbreviation edge := (edge root).
#[local] Abbreviation tree_object :=
  (map_object threads same_header removed members linked shape tree_shape_reseen).
#[local] Abbreviation oht := (Linear.oht meaning contents M0 tree_object only_fuel).
#[local] Abbreviation stable := (Conc.stable (linear meaning contents M0 tree_object)).
#[local] Abbreviation linear_inv := (Linear.linear_inv meaning contents M0 tree_object).
#[local] Abbreviation in_scope := (StoreConc.in_scope threads).
#[local] Abbreviation in_section := (StoreConc.in_section threads removed members).
#[local] Abbreviation guarded :=
  (StoreConc.guarded threads same_header removed members linked shape tree_shape_reseen meaning contents M0).
#[local] Abbreviation pending := (MapConc.pending M0).
#[local] Abbreviation working := (MapConc.working threads same_header removed members linked shape tree_shape_reseen M0).
#[local] Abbreviation knows := (MapConc.knows contents).
#[local] Abbreviation reads := (MapConc.reads same_header).
#[local] Abbreviation base := (MapConc.base M0).
#[local] Abbreviation outcome := (MapConc.outcome M0).
#[local] Abbreviation finished :=
  (MapConc.finished threads same_header removed members linked shape tree_shape_reseen contents M0).
#[local] Abbreviation persists := (MapConc.persists same_header).

(** thread [i] came to [l] from [p], on the side [left], on its way to [k] *)
Definition way (i : nat) (k p : Z) (left : bool) (l : Z) σ : Prop :=
  (∃ t, seen σ.2.1 i t ∧ edge k t p l) ∧ ∃ n, nodes (mem σ.1) !! p = Some n ∧ left = toward k n.
Lemma stable_way i k p left l : stable i (way i k p left l).
Proof.
  intros σ σ' [(t & Ht & He) (n & Hn & ->)] _ Ho. split.
  - exists t. split; [exact (own_seen _ _ _ _ Ho Ht)|done].
  - destruct (own_persists _ _ _ Ho p n Hn) as (n' & Hn' & Hh). exists n'.
    split; [done|]. by rewrite (header_toward k _ _ Hh).
Qed.
#[local] Hint Resolve stable_way : stab.

(** where a thread is, memory is *)
Lemma seen_known i t σ : linear_inv σ → seen σ.2.1 i t → known root (nodes (mem σ.1)) t.
Proof. intros Hc Ht. by destruct (sh_seen _ _ _ (inv_shape _ Hc) i t Ht). Qed.
Lemma way_node i k p left l σ : linear_inv σ → way i k p left l σ → ∃ n, nodes (mem σ.1) !! l = Some n.
Proof. intros Hc [(t & Ht & He) _]. eapply tree_edge_target; [by eapply seen_known|done]. Qed.
Lemma way_parent i k p left l σ : linear_inv σ → way i k p left l σ →
  ∃ n, nodes (mem σ.1) !! p = Some n ∧ is_leaf n = false ∧ left = toward k n.
Proof.
  intros Hc [(t & Ht & He) (n & Hn & Hl)]. exists n. split; [done|]. split; [|done].
  destruct (member_inner root _ t p (seen_known _ _ _ Hc Ht)) as (n' & Hn' & Hleaf); [by eapply on_inners, edge_on|].
  congruence.
Qed.
Lemma way_visible i k p left l σ : linear_inv σ → way i k p left l σ →
  is_Some (nodes (mem σ.1) !! p) ∧ StoreConc.visible linked σ.2.1 p.
Proof.
  intros Hc Hw. destruct (way_parent _ _ _ _ _ _ Hc Hw) as (n & Hn & _). split; [by exists n|].
  destruct Hw as [(t & Ht & He) _]. by eapply seen_visible, on_inners, edge_on.
Qed.
Lemma way_knows i k p left l n σ : linear_inv σ → way i k p left l σ →
  nodes (mem σ.1) !! l = Some n → is_leaf n = true → knows i k (reading k n) σ.
Proof.
  intros Hc [(t & Ht & He) _] Hn Hl. exists t. split; [done|]. eapply tree_edge_lookup; [by eapply seen_known|done..].
Qed.
Lemma get_child_leaf b n : is_leaf n = false → ∃ c, get_child b n = inr c.
Proof. destruct n; [simpl; eauto|done]. Qed.

(** a step down, from an internal node on the way *)
Lemma way_step i k p left l n σ : linear_inv σ → way i k p left l σ → nodes (mem σ.1) !! l = Some n →
  is_leaf n = false → Less k n = toward k n ∧ get_child (Less k n) n = inr (child k n) ∧
    way i k l (toward k n) (child k n) σ.
Proof.
  intros Hc [(t & Ht & He) _] Hn Hl.
  destruct (edge_inner root _ t k p l n (seen_known _ _ _ Hc Ht) He Hn Hl) as [Hon Hs].
  assert (Less k n = toward k n) as Hless by (unfold Less, toward; by rewrite Hs). split; [done|]. split.
  - rewrite Hless. unfold child. by destruct n.
  - split; [|eauto]. by destruct (sh_next _ _ _ (inv_shape _ Hc) i t k l n Ht Hon Hn) as (t' & ? & ?); eauto.
Qed.
Lemma way_start i k n σ : linear_inv σ → seen σ.2.1 i (now σ.2.1) → nodes (mem σ.1) !! root = Some n →
  get_child true n = inr (child k n) ∧ way i k root true (child k n) σ.
Proof.
  intros Hc Hs Hn. destruct (kn_root _ _ _ (seen_known _ _ _ Hc Hs)) as (k0 & b & c & rm & Hr).
  rewrite Hn in Hr. injection Hr as ->. split; [done|]. split; [|eauto].
  exists (now σ.2.1). split; [done|]. eapply now_edge; [apply (sh_now _ _ _ (inv_shape _ Hc))|by left|done].
Qed.

(** *** Searching *)
(** where a search is: the last two steps, the first of which may not be there *)
Definition at_step (i : nat) (c : dict_command) (k : Z) (x : Z * bool * Z * bool * Z) σ : Prop :=
  let '(gp, gp_left, p, p_left, l) := x in
  working i c σ ∧ way i k p p_left l σ ∧ (p = root ∨ way i k gp gp_left p σ).
Lemma stable_at_step i c k x : stable i (at_step i c k x).
Proof.
  destruct x as [[[[gp gp_left] p] p_left] l]. intros σ σ' (Hw & Hp & Hg) Hc Ho.
  split; [by eapply stable_working|]. split; [by eapply stable_way|].
  destruct Hg as [?|Hg]; [by left|right; by eapply stable_way].
Qed.
Definition at_leaf (i : nat) (c : dict_command) (k : Z) (x : Z * bool * Z * bool * Z) σ : Prop :=
  at_step i c k x σ ∧ ∃ n, nodes (mem σ.1) !! x.2 = Some n ∧ is_leaf n = true.

Lemma oht_node i c k gp gp_left p p_left l :
  oht i (at_step i c k (gp, gp_left, p, p_left, l)) (load (node_c l))
    (λ n σ, at_step i c k (gp, gp_left, p, p_left, l) σ ∧ reads l n σ).
Proof.
  apply oht_read; [apply stable_at_step|]. intros σ Hc H. pose proof H as (_ & Hw & _).
  destruct (way_node _ _ _ _ _ _ Hc Hw) as [n Hn]. exists n, n. split; [done|]. split; [done|].
  split; [done|]. exists n. split; [done|reflexivity].
Qed.

Lemma oht_down i c k gp gp_left p p_left l n : is_leaf n = false →
  oht i (λ σ, at_step i c k (gp, gp_left, p, p_left, l) σ ∧ reads l n σ) (load (child_c l (Less k n)))
    (λ l', at_step i c k (p, p_left, l, Less k n, l')).
Proof.
  intros Hl. apply oht_read; [apply stable_and; [apply stable_at_step|apply stable_reads]|].
  intros σ Hc [(Hw & Hp & _) (n' & Hn' & Hh)].
  assert (Less k n = Less k n') as ->.
  { unfold Less. unfold same_header in Hh. destruct n, n'; simpl in *; try done. by injection Hh as -> ->. }
  destruct (way_step i k p p_left l n' σ Hc Hp Hn') as (Hless & Hget & Hway); [by rewrite (header_is_leaf _ _ Hh)|].
  exists n', (child k n'). split; [done|]. split; [done|]. split; [done|]. split; [by rewrite Hless|by right].
Qed.

Lemma at_leaf_intro i c k x n σ : at_step i c k x σ → reads x.2 n σ → is_leaf n = true → at_leaf i c k x σ.
Proof. intros H (n' & Hn' & Hh) Hl. split; [done|]. exists n'. split; [done|]. by rewrite (header_leaf _ _ Hh). Qed.

Lemma tree_find_location_spec i c fuel k :
  oht i (working i c) (find_location fuel root k) (at_leaf i c k).
Proof.
  unfold find_location.
  apply (oht_bind _ _ _ _ _ _ _ _ _ (λ l, at_step i c k (0, false, root, true, l))).
  { apply oht_read; [apply stable_working|]. intros σ Hc Hw.
    assert (seen σ.2.1 i (now σ.2.1)) as Hs by (eapply pending_seen; [done|apply Hw]).
    destruct (kn_root _ _ _ (seen_known _ _ _ Hc Hs)) as (k0 & b & c0 & rm & Hr).
    destruct (way_start i k _ σ Hc Hs Hr) as [Hget Hway]. eexists _, _. split; [exact Hr|]. split; [exact Hget|].
    split; [done|]. split; [done|by left]. }
  intros l0. refine (oht_iter _ _ _ _ _ _ (at_step i c k) _ _ _ _ fuel (0, false, root, true, l0)).
  { done. }
  clear l0. intros [[[[gp gp_left] p] p_left] l]. eapply oht_bind; [apply oht_node|]. intros n.
  destruct (is_leaf n) eqn:Hl.
  - apply oht_ret. intros σ [H Hn]. by eapply at_leaf_intro.
  - eapply oht_bind; [by apply oht_down|]. intros l'. by apply oht_ret.
Qed.

(** where a search has ended, and what it has read *)
Definition found (i : nat) (k : Z) (x : Z * bool * Z * bool * Z) (n : node) σ : Prop :=
  let '(gp, gp_left, p, p_left, l) := x in
  (way i k p p_left l σ ∧ (p = root ∨ way i k gp gp_left p σ)) ∧ reads l n σ ∧ knows i k (reading k n) σ.
Lemma tree_stable_found i k x n : stable i (found i k x n).
Proof.
  destruct x as [[[[gp gp_left] p] p_left] l]. intros σ σ' ([Hw Hg] & Hr & Hk) Hc Ho.
  split; [split; [by eapply stable_way|]|split; [by eapply stable_reads|by eapply stable_knows]].
  destruct Hg as [?|Hg]; [by left|right; by eapply stable_way].
Qed.

Lemma tree_node_spec i c k gp gp_left p p_left l :
  oht i (at_leaf i c k (gp, gp_left, p, p_left, l)) (load (node_c l))
    (λ n σ, is_leaf n = true ∧ working i c σ ∧ found i k (gp, gp_left, p, p_left, l) n σ).
Proof.
  apply oht_read.
  { intros σ σ' [H (n & Hn & Hl)] Hc Ho. split; [by eapply stable_at_step|].
    destruct (own_persists _ _ _ Ho _ n Hn) as (n' & Hn' & Hh). exists n'. split; [done|].
    by rewrite (header_is_leaf _ _ Hh). }
  intros σ Hc [(Hw & Hp & Hg) (n & Hn & Hl)]. exists n, n. split; [done|]. split; [done|]. split; [done|].
  split; [done|]. split; [done|]. split; [exists n; split; [done|reflexivity]|]. by eapply way_knows.
Qed.
Lemma reading_equal k n : is_leaf n = true → Equal k n = true → ∃ v, n = leaf k false v ∧ reading k n = Some v.
Proof.
  destruct n as [|k' [] v]; simpl; [done|done|]. intros _ He. rewrite Equal_leaf in He.
  apply bool_decide_eq_true in He as He'. subst k'. exists v. by rewrite Equal_leaf, bool_decide_eq_true_2.
Qed.
Lemma reading_unequal k n : Equal k n = false → reading k n = None.
Proof. destruct n; [done|]. simpl. by intros ->. Qed.

(** the answer of a search that has ended at [n] *)
Lemma answer_spec i k x n : is_leaf n = true →
  oht i (λ σ, working i (Find k) σ ∧ found i k x n σ)
    (if Equal k n then v ← value_of n; mret (Some v) else mret None)
    (λ r σ, working i (Find k) σ ∧ knows i k r σ).
Proof.
  intros Hl. assert (∀ σ, found i k x n σ → knows i k (reading k n) σ) as Hk.
  { destruct x as [[[[gp gp_left] p] p_left] l]. by intros σ (_ & _ & ?). }
  destruct (Equal k n) eqn:He.
  - destruct (reading_equal k n Hl He) as (v & -> & Hr). apply oht_ret. intros σ [Hw Hf%Hk]. by rewrite Hr in Hf.
  - apply oht_ret. intros σ [Hw Hf%Hk]. by rewrite reading_unequal in Hf.
Qed.

Lemma tree_find_spec i fuel k :
  oht i (working i (Find k)) (find_ fuel root k) (λ r σ, working i (Find k) σ ∧ knows i k r σ).
Proof.
  unfold find_. set (c := Find k).
  apply (oht_bind _ _ _ _ _ _ _ _ _ (λ l σ, ∃ x, x.2 = l ∧ at_step i c k x σ)).
  { apply oht_read; [apply stable_working|]. intros σ Hc Hw.
    assert (seen σ.2.1 i (now σ.2.1)) as Hs by (eapply pending_seen; [done|apply Hw]).
    destruct (kn_root _ _ _ (seen_known _ _ _ Hc Hs)) as (k0 & b & c0 & rm & Hr).
    destruct (way_start i k _ σ Hc Hs Hr) as [Hget Hway]. eexists _, _. split; [exact Hr|]. split; [exact Hget|].
    eexists (0, false, root, true, _). split; [done|]. split; [done|]. split; [exact Hway|by left]. }
  intros l0. apply (oht_bind _ _ _ _ _ _ _ _ _ (λ l σ, ∃ x, x.2 = l ∧ at_leaf i c k x σ)).
  { refine (oht_iter _ _ _ _ _ _ (λ l σ, ∃ x, x.2 = l ∧ at_step i c k x σ) _ _ _ _ fuel l0); [done|]. clear l0. intros l.
    apply oht_exists; intros [[[[gp gp_left] p] p_left] l1]. apply oht_pure; intros <-. cbn [snd].
    eapply oht_bind; [apply oht_node|]. intros n. destruct (is_leaf n) eqn:Hl.
    - apply oht_ret. intros σ [H Hn]. eexists. split; [|by eapply at_leaf_intro]. done.
    - eapply oht_bind; [by apply oht_down|]. intros l'. apply oht_ret. intros σ H. exists (p, p_left, l1, Less k n, l'). by split. }
  intros l. apply oht_exists; intros [[[[gp gp_left] p] p_left] l1]. apply oht_pure; intros <-. cbn [snd].
  eapply oht_bind; [apply tree_node_spec|]. intros n. apply oht_pure; intros Hl. by apply answer_spec.
Qed.

(** *** Updates *)
Lemma monotone_way i k p left l : MapConc.monotone same_header (way i k p left l).
Proof.
  intros w w' g x x' H [Ht (n & Hn & ->)]. split; [done|]. destruct (H p n Hn) as (n' & ? & Hh).
  exists n'. split; [done|]. by rewrite (header_toward k _ _ Hh).
Qed.
Lemma tree_monotone_found i k x n : MapConc.monotone same_header (found i k x n).
Proof.
  destruct x as [[[[gp gp_left] p] p_left] l]. intros w w' g x x' H ([Hw Hg] & Hr & Hk).
  split; [split; [by eapply monotone_way|]|split; [by apply (monotone_reads same_header l n w w' g x x' H)|exact Hk]].
  destruct Hg as [?|Hg]; [by left|right; by eapply monotone_way].
Qed.
Lemma lockless_monotone (P : config → Prop) : MapConc.monotone same_header P → lockless P.
Proof.
  intros H w w' [g x] Hn. apply H. rewrite Hn. intros p n Hp. exists n. split; [done|reflexivity].
Qed.

Lemma still_child_spec i (P : config → Prop) k p left l : stable i P →
  (∀ σ, linear_inv σ → P σ → way i k p left l σ) →
  oht i P (still_child p left l) (λ _, P).
Proof.
  intros Hst Hw.
  assert (∀ σ, linear_inv σ → P σ → ∃ n, nodes (mem σ.1) !! p = Some n ∧ is_leaf n = false) as Hp.
  { intros σ Hc HP. destruct (way_parent _ _ _ _ _ _ Hc (Hw σ Hc HP)) as (n & ? & ? & _). eauto. }
  unfold still_child, read_lock, lock.read_lock. apply (oht_bind _ _ _ _ _ _ _ _ _ (λ _, P)).
  { apply oht_read; [done|]. intros σ Hc H. destruct (Hp σ Hc H) as (n & Hn & Hl).
    destruct (get_child_leaf left n Hl) as [v Hv]. by exists n, v. }
  intros x. destruct (negb (x =? l)); [by apply oht_ret|]. apply (oht_bind _ _ _ _ _ _ _ _ _ (λ _, P)).
  { apply oht_read; [done|]. intros σ Hc H. destruct (Hp σ Hc H) as (n & Hn & Hl).
    destruct n as [k' s b c rm|]; [|done]. by eexists _, _. }
  intros r. by apply oht_ret.
Qed.

(** an attempt that does not change the tree, under its validation *)
Lemma tree_unchanged_spec i c k x n q left q' (b0 : bool) a :
  (∀ M : gmap Z Z, M !! k = reading k n → meaning c M = (a, M)) →
  (∀ σ, linear_inv σ → found i k x n σ → way i k q left q' σ) →
  oht i (λ σ, working i c σ ∧ found i k x n σ)
    (b ← still_child q left q'; mret (if (b : bool) then Some b0 else None))
    (λ r σ, match r with Some b => b = b0 ∧ finished i c a σ | None => working i c σ end).
Proof.
  intros Hm Hw. assert (∀ σ, found i k x n σ → knows i k (reading k n) σ) as Hk.
  { destruct x as [[[[gp gp_left] p] p_left] l]. by intros σ (_ & _ & ?). }
  eapply oht_bind; [apply (still_child_spec i _ k)|].
  - apply stable_and; [apply stable_working|apply tree_stable_found].
  - intros σ Hc [_ Hf]. by apply Hw.
  - intros [|]; apply oht_ret; [|by intros σ [? _]].
    intros σ [Hwk Hf]. split; [done|]. eapply knows_finished; [done|by apply Hk|done].
Qed.

(** an attempt that changes the tree at [q] *)
Lemma tree_updating_spec i c k x n q left q' a (body : prog (store_state node) bool) : (i < threads)%nat →
  oht i (in_section i q [] (λ σ, base i c σ ∧ found i k x n σ ∧ way i k q left q' σ)) body
    (λ b, in_section i q [] (outcome i c a b)) →
  oht i (λ σ, working i c σ ∧ found i k x n σ ∧ way i k q left q' σ)
    (b ← try_lock i q body; mret (if (b : bool) then Some true else None))
    (λ r σ, match r with Some b => b = true ∧ finished i c a σ | None => working i c σ end).
Proof.
  intros Hi Hbody. eapply oht_bind.
  - apply (changing_spec threads_fit i c q (λ σ, found i k x n σ ∧ way i k q left q' σ) a); [done| | | |done].
    + apply stable_and; [apply tree_stable_found|apply stable_way].
    + apply lockless_monotone, monotone_and; [apply tree_monotone_found|apply monotone_way].
    + intros σ Hc [_ Hw]. by eapply way_visible.
  - by intros [|]; apply oht_ret.
Qed.

(** what an insert knows with [p] locked *)
Definition locked_parent (i : nat) (k v : Z) (x : Z * bool * Z * bool * Z) (n np : node) σ : Prop :=
  (pending i (Insert k v) σ ∧ found i k x n σ) ∧ way i k x.1.1.2 x.1.2 x.2 σ ∧ node_is x.1.1.2 np σ.

Lemma guarded_locked_parent i k v x n np : guarded i [x.1.1.2] (locked_parent i k v x n np).
Proof.
  apply guarded_and; [|apply guarded_and; [|by apply guarded_node; left]].
  - apply guarded_stable, stable_and; [apply stable_pending|apply tree_stable_found].
  - apply guarded_stable, stable_way.
Qed.
Lemma growing_locked_parent i k v x n np : growing (locked_parent i k v x n np).
Proof.
  apply growing_and; [apply (monotone_growing same_header), monotone_and; [apply monotone_pending|apply tree_monotone_found]|].
  apply growing_and; [apply (monotone_growing same_header), monotone_way|apply growing_node].
Qed.

(** with the two new nodes, before they are linked *)
Definition linking (i : nat) (k v : Z) (x : Z * bool * Z * bool * Z) (n np : node) (y z : Z) σ : Prop :=
  ((locked_parent i k v x n np σ ∧ node_is y (leaf k false v) σ) ∧ (z ∉ [y])) ∧
  owns i [z; y] σ ∧ node_is z (split_node n x.2 k y) σ.
Lemma guarded_linking i k v x n np y z : guarded i [x.1.1.2] (linking i k v x n np y z).
Proof.
  intros σ σ' [[[H1 H2] H3] [H4 H5]] Hh Hc Ho.
  assert (guarded i [x.1.1.2] (λ σ, owns i [z; y] σ ∧ node_is y (leaf k false v) σ)) as Hy
    by (apply guarded_private; right; by left).
  assert (guarded i [x.1.1.2] (λ σ, owns i [z; y] σ ∧ node_is z (split_node n x.2 k y) σ)) as Hz
    by (apply guarded_private; by left).
  split; [|by eapply Hz]. split; [|done]. split; [by eapply guarded_locked_parent|].
  by eapply (Hy σ).
Qed.

Lemma link_tree_spec i k v gp gp_left p p_left l n np y z (x := (gp, gp_left, p, p_left, l)) :
  is_leaf n = true → Equal k n = false → removed np = false → get_child p_left np = inr l →
  oht i (in_section i p [] (linking i k v x n np y z))
    (store (child_c p p_left) z) (λ _, in_section i p [] (outcome i (Insert k v) (AInsert true) true)).
Proof.
  intros Hl Hne Hrm Hch. apply (oht_write threads threads_fit).
  { apply in_section_stable, (guarded_linking i k v x). }
  intros w g pr Hc [[[[[[[Hp Hf] [[[t [Ht He]] (np' & Hnp' & Hleft)] Hnp]] Hy] Hzy] [Ho Hz]] Hcl] Hh].
  pose proof (inv_shape _ Hc) as Hsh. destruct Hc as [Hg Hin].
  unfold node_is, owns, x in *. simpl in *. rewrite Hnp in Hnp'. injection Hnp' as <-.
  destruct Hf as (_ & (n' & Hn' & Hhd) & _). rewrite (header_leaf _ _ Hhd Hl) in Hn'.
  assert (z ∈ pr i ∧ y ∈ pr i) as [Hzx Hyx] by (rewrite Ho; split; [by left|right; by left]).
  destruct (ci_private _ _ _ _ _ _ _ _ Hin i z Hzx) as (_ & Hzv & _ & _).
  destruct (ci_private _ _ _ _ _ _ _ _ Hin i y Hyx) as (_ & Hyv & _ & _).
  assert (z ≠ y) as Hzy' by (intros ->; apply Hzy; by left).
  assert (child k np = l) as Hchild.
  { rewrite Hleft in Hch. unfold child. destruct np; [|done]. by injection Hch. }
  destruct (tree_insert_commit root M0 (nodes (mem w)) g (log w) i t k v p l np n z y) as
    (t' & Hg' & Hd' & Hk' & Hsh' & Hpt & Hmem & Hlinked); [done..|].
  exists np, l. split; [done|]. split; [done|]. split; [apply (Hh p); by left|]. split; [apply set_child_header|].
  exists (committed meaning M0 i t' g), (λ j, if decide (j = i) then [] else pr j).
  split; [done|]. split; [done|]. split; [by rewrite Hleft|]. split; [split; simpl|].
  - intros j Hj. by rewrite decide_False.
  - intros q. rewrite decide_True by done. by intros ?%elem_of_nil.
  - intros q Hq. left. apply Hmem. by right.
  - intros q [->|?]%Hmem; [right|by left]. split; [done|]. intros o Ho'. rewrite Hz in Ho'. injection Ho' as <-.
    unfold split_node. by destruct (Less k n).
  - rewrite decide_True by done.
    intros q [[->|[->|Hq]]%Hlinked|Hq]%visible_committed; [right|right|left; by left|by left];
      (split; [done|apply not_elem_of_nil]).
  - intros w' Hn Hlocks. split; [split; [split; [done|]|]|].
    + unfold owns. simpl. by rewrite decide_True.
    + intros o _ Ho'. simpl in Ho'. rewrite Hn, lookup_insert_eq in Ho'. injection Ho' as <-. by rewrite set_child_removed.
    + by eapply holds_same_locks.
Qed.

(** making them *)
Lemma new_nodes_spec i k v gp gp_left p p_left l n np (x := (gp, gp_left, p, p_left, l)) :
  is_leaf n = true → Equal k n = false → removed np = false → get_child p_left np = inr l →
  oht i (in_section i p [] (λ σ, locked_parent i k v x n np σ ∧ owns i [] σ))
    (new_l ← new_leaf alloc k v;
     z ← (if Less k n then new_internal alloc (key n) new_l l else new_internal alloc k l new_l);
     store (child_c p p_left) z ;;
     mret true)
    (λ b, in_section i p [] (outcome i (Insert k v) (AInsert true) b)).
Proof.
  intros Hl Hne Hrm Hch. eapply oht_bind.
  { apply (oht_new_held threads_fit alloc i p [] (locked_parent i k v x n np) []).
    - apply members_linked.
    - apply tree_shape_allocated.
    - intros. by apply tree_shape_grow.
    - apply guarded_and; [apply (guarded_locked_parent i k v x)|apply guarded_stable, stable_owns].
    - apply growing_locked_parent. }
  intros y. apply (oht_bind _ _ _ _ _ _ _ _ _ (λ z, in_section i p [] (linking i k v x n np y z))).
  2: { intros z. eapply oht_bind; [by apply link_tree_spec|]. intros []. by apply oht_ret. }
  assert ((if Less k n then new_internal alloc (key n) y l else new_internal alloc k l y)
    = new_obj alloc (split_node n l k y)) as -> by (unfold split_node; by destruct (Less k n)).
  eapply (oht_weaken _ _ _ _ _ _ _ (in_section i p [] (λ σ, (locked_parent i k v x n np σ ∧ node_is y (leaf k false v) σ) ∧ owns i [y] σ))).
  - apply (oht_new_held threads_fit alloc i p [] _ [y]).
    + apply members_linked.
    + apply tree_shape_allocated.
    + intros. by apply tree_shape_grow.
    + intros σ σ' [[H1 H2] H3] Hh Hc Ho. assert (guarded i [p] (λ σ, owns i [y] σ ∧ node_is y (leaf k false v) σ)) as Hy
        by (apply guarded_private; by left).
      destruct (Hy σ σ') as [? ?]; [done..|]. split; [split; [|done]|done]. by eapply (guarded_locked_parent i k v x).
    + apply growing_and; [apply growing_locked_parent|apply growing_node].
  - intros σ _ [[[[H1 _] [H2 H3]] Hcl] Hh]. by split.
  - intros z σ _ H. exact H.
Qed.

(** the critical section of an insert *)
Lemma tree_insert_section i k v gp gp_left p p_left l n (x := (gp, gp_left, p, p_left, l)) :
  is_leaf n = true → Equal k n = false →
  oht i (in_section i p [] (λ σ, base i (Insert k v) σ ∧ found i k x n σ ∧ way i k p p_left l σ))
    (l_new ← load (child_c p p_left);
     rm ← load (removed_c p);
     if rm || negb (l_new =? l) then mret false
     else
       new_l ← new_leaf alloc k v;
       z ← (if Less k n then new_internal alloc (key n) new_l l else new_internal alloc k l new_l);
       store (child_c p p_left) z ;;
       mret true)
    (λ b, in_section i p [] (outcome i (Insert k v) (AInsert true) b)).
Proof.
  intros Hl Hne. set (c := Insert k v). set (P σ := base i c σ ∧ found i k x n σ ∧ way i k p p_left l σ).
  assert (guarded i [p] P) as HgP.
  { apply guarded_stable, stable_and; [apply stable_base|apply stable_and; [apply tree_stable_found|apply stable_way]]. }
  assert (∀ σ, linear_inv σ → P σ → ∃ np, nodes (mem σ.1) !! p = Some np ∧ is_leaf np = false) as Hp.
  { intros σ Hc (_ & _ & Hw). destruct (way_parent _ _ _ _ _ _ Hc Hw) as (np & ? & ? & _). eauto. }
  eapply oht_bind.
  { apply (oht_read_held i p [p] (λ σ, P σ ∧ clean removed members p σ) (get_child p_left));
      [by left|apply guarded_and; [done|apply guarded_clean; by left]|].
    intros σ Hc [HP _]. destruct (Hp σ Hc HP) as (np & Hn & Hi). destruct (get_child_leaf p_left np Hi) as [ch Hch].
    by exists np, ch. }
  intros ch. apply oht_exists; intros np. apply oht_pure; intros Hch.
  assert (is_leaf np = false) as Hnp by by destruct np.
  set (P' σ := (P σ ∧ clean removed members p σ) ∧ node_is p np σ).
  assert (guarded i [p] P') as HgP'.
  { apply guarded_and; [apply guarded_and; [done|apply guarded_clean; by left]|apply guarded_node; by left]. }
  eapply oht_bind; [apply (oht_read_known i [p] P' _ _ p np (removed np) HgP')|].
  { by intros σ [_ ?]. }
  { by destruct np. }
  intros rm. apply oht_pure; intros ->.
  assert (∀ σ, in_scope i [p] P' σ → in_section i p [] (outcome i c (AInsert true) false) σ) as Hno.
  { intros σ [[[(HB & _) Hcl] _] Hh]. by split; [split|]. }
  destruct (removed np) eqn:Hrm; cbn [orb]; [by apply oht_ret|].
  destruct (Z.eqb_spec ch l) as [->|_]; cbn [negb]; [|by apply oht_ret].
  eapply oht_weaken; [by apply (new_nodes_spec i k v gp gp_left p p_left l n np)| |intros b σ _ H; exact H].
  intros σ _ [[[([Hp' Ho] & Hf & Hw) Hcl] Hn] Hh]. split; [split; [split|]|]; try done.
Qed.

Lemma tree_try_insert_spec i fuel k v : (i < threads)%nat →
  oht i (working i (Insert k v)) (try_insert alloc i fuel root k v false)
    (λ r σ, match r with Some b => finished i (Insert k v) (AInsert b) σ | None => working i (Insert k v) σ end).
Proof.
  intros Hi. unfold try_insert. eapply oht_bind; [apply tree_find_location_spec|].
  intros [[[[gp gp_left] p] p_left] l]. cbn iota.
  eapply oht_bind; [apply tree_node_spec|]. intros n. apply oht_pure. intros Hl.
  destruct (Equal k n) eqn:He.
  - eapply oht_weaken; [apply (tree_unchanged_spec i (Insert k v) k (gp, gp_left, p, p_left, l) n p p_left l false (AInsert false))|done|].
    + destruct (reading_equal k n Hl He) as (w & -> & ->). intros M HM. simpl. by rewrite HM.
    + by intros σ _ [[? _] _].
    + by intros [b|] σ _; [intros [-> ?]|].
  - cbn [negb]. eapply oht_weaken.
    + apply (tree_updating_spec i (Insert k v) k (gp, gp_left, p, p_left, l) n p p_left l (AInsert true)); [done|].
      by apply tree_insert_section.
    + intros σ _ [Hw Hf]. split; [done|]. split; [done|]. by destruct Hf as [[? _] _].
    + by intros [b|] σ _; [intros [-> ?]|].
Qed.

(** *** Removing *)
Lemma found_parent i k gp gp_left p p_left l n σ : linear_inv σ → found i k (gp, gp_left, p, p_left, l) n σ →
  is_leaf n = true → is_sentinal n = false → way i k gp gp_left p σ.
Proof.
  intros Hc ([Hw [->|Hg]] & (n' & Hn' & Hh) & _) Hl Hs; [|done]. rewrite (header_leaf _ _ Hh Hl) in Hn'.
  destruct Hw as [(t & Ht & He) _].
  by rewrite (edge_root_leaf root _ t k l n (seen_known _ _ _ Hc Ht) He Hn' Hl) in Hs.
Qed.
Lemma way_distinct i k p left l σ : linear_inv σ → way i k p left l σ → p ≠ l.
Proof. intros Hc [(t & Ht & He) _]. by eapply edge_distinct; [eapply seen_known|]. Qed.

(** what a remove knows of its place; with [gp] locked; with both locked *)
Definition doomed (i : nat) (k : Z) (x : Z * bool * Z * bool * Z) (n : node) σ : Prop :=
  pending i (Remove k) σ ∧ found i k x n σ ∧ way i k x.1.1.1.1 x.1.1.1.2 x.1.1.2 σ ∧ owns i [] σ.
Definition both_locked (i : nat) (k : Z) (x : Z * bool * Z * bool * Z) (n ng np : node) σ : Prop :=
  (doomed i k x n σ ∧ clean removed members x.1.1.1.1 σ) ∧ node_is x.1.1.1.1 ng σ ∧ node_is x.1.1.2 np σ.
Definition remove_done (i : nat) (k gp : Z) (b : bool) σ : Prop :=
  outcome i (Remove k) (ARemove true) b σ ∧ clean removed members gp σ.

Lemma stable_doomed i k x n : stable i (doomed i k x n).
Proof.
  apply stable_and; [apply stable_pending|]. apply stable_and; [apply tree_stable_found|].
  apply stable_and; [apply stable_way|apply stable_owns].
Qed.
Lemma lockless_doomed i k x n : lockless (doomed i k x n).
Proof.
  apply lockless_and; [by intros w w' γ _|]. apply lockless_and; [apply lockless_monotone, tree_monotone_found|].
  apply lockless_and; [apply lockless_monotone, monotone_way|by intros w w' γ _].
Qed.
Lemma doomed_persists i k x n w w' g pr : persists (nodes (mem w)) (nodes (mem w')) →
  doomed i k x n (w, (g, pr)) → doomed i k x n (w', (g, pr)).
Proof.
  intros H (Hp & Hf & Hw & Ho). split; [exact Hp|]. split; [by eapply tree_monotone_found|].
  split; [by eapply monotone_way|exact Ho].
Qed.
Lemma guarded_both_locked i k x n ng np ps : x.1.1.1.1 ∈ ps → x.1.1.2 ∈ ps → guarded i ps (both_locked i k x n ng np).
Proof.
  intros Hg Hp. apply guarded_and; [apply guarded_and; [apply guarded_stable, stable_doomed|by apply guarded_clean]|].
  apply guarded_and; by apply guarded_node.
Qed.

(** marking the parent *)
Definition set_mark (n : node) : node := match n with internal k s l r _ => internal k s l r true | leaf _ _ _ => n end.
Lemma set_mark_unmark n : unmark (set_mark n) = unmark n.
Proof. by destruct n. Qed.
Lemma mark_tree_spec i k gp gp_left p p_left l n ng np (x := (gp, gp_left, p, p_left, l)) : p ≠ gp → is_leaf np = false →
  oht i (in_scope i [p; gp] (both_locked i k x n ng np)) (store (removed_c p) true)
    (λ _, in_scope i [p; gp] (both_locked i k x n ng (set_mark np))).
Proof.
  intros Hne Hi. apply (oht_write threads threads_fit).
  { apply stable_in_scope, guarded_both_locked; [right; by left|by left]. }
  intros w g pr Hc [[[Hd Hcl] [Hng Hnp]] Hh]. pose proof (inv_shape _ Hc) as Hsh.
  unfold node_is, x in *. simpl in *. destruct np as [kp sp lp rp rm|]; [|done].
  exists (internal kp sp lp rp rm), rm. split; [done|]. split; [done|].
  split; [apply (Hh p); by left|]. split; [done|]. exists g, pr. split; [by destruct Hc|].
  split; [intros j _; reflexivity|].
  assert (persists (nodes (mem w)) (<[p := internal kp sp lp rp true]> (nodes (mem w)))) as Hper
    by (by apply (persists_insert same_header _ p (internal kp sp lp rp rm))).
  split; [|split; [apply relinked_refl|]].
  - apply (tree_shape_same root (nodes (mem w))); [done|exact Hper|]. intros a _ o Ho.
    destruct (decide (a = p)) as [->|Ha].
    + rewrite lookup_insert_eq in Ho. injection Ho as <-. by eexists.
    + rewrite lookup_insert_ne in Ho by done. by exists o.
  - intros w' Hn Hl. split; [split; [split|split]|by eapply holds_same_locks].
    + apply (doomed_persists i k _ n w); [by rewrite Hn|done].
    + intros o Hm. simpl in *. rewrite Hn, lookup_insert_ne by done. by apply Hcl.
    + unfold node_is. simpl. by rewrite Hn, lookup_insert_ne.
    + unfold node_is. simpl. by rewrite Hn, lookup_insert_eq.
Qed.

(** unlinking it with its leaf *)
Lemma unlink_tree_spec i k gp gp_left p p_left l n ng np c (x := (gp, gp_left, p, p_left, l)) :
  is_leaf n = true → Equal k n = true → is_leaf np = false → removed ng = false → get_child gp_left ng = inr p →
  get_child p_left np = inr l → get_child (negb p_left) np = inr c →
  oht i (in_scope i [p; gp] (both_locked i k x n ng (set_mark np)))
    (store (child_c gp gp_left) c) (λ _, in_section i p [gp] (remove_done i k gp true)).
Proof.
  intros Hl Hk Hi Hrm Hgc Hpc Hoc. apply (oht_write threads threads_fit).
  { apply stable_in_scope, guarded_both_locked; [right; by left|by left]. }
  intros w g pr Hc [[[(Hp & Hf & [(t & Ht & He) (ng' & Hng' & Hgl)] & Ho) Hcl] [Hng Hnp]] Hh].
  pose proof (inv_shape _ Hc) as Hsh. destruct Hc as [Hg Hin]. unfold node_is, owns, x in *. simpl in *.
  rewrite Hng in Hng'. injection Hng' as <-.
  destruct Hf as ([[_ (np' & Hnp' & Hpl)] _] & (n' & Hn' & Hhd) & _). simpl in Hnp', Hn'.
  rewrite Hnp in Hnp'. injection Hnp' as <-. rewrite (header_leaf _ _ Hhd Hl) in Hn'.
  assert (child k ng = p) as Hchg.
  { rewrite Hgl in Hgc. unfold child. destruct ng; [|done]. by injection Hgc. }
  assert (child k (set_mark np) = l) as Hchp.
  { rewrite Hpl in Hpc. unfold child. destruct np; [|done]. by injection Hpc. }
  destruct (tree_remove_commit root M0 (nodes (mem w)) g (log w) i t k gp p ng (set_mark np) n c) as
    (t' & Hg' & Hd' & Hk' & Hsh' & Hgt & Hpt & Hmem & Hlinked); try done.
  { by destruct np. }
  { by destruct np. }
  { by rewrite Hchp. }
  { rewrite <-Hpl. by destruct np. }
  assert (locked_by threads (mem w) gp i ∧ locked_by threads (mem w) p i) as [Hlk Hlk'].
  { split; apply Hh; [right|]; by left. }
  exists ng, p. split; [done|]. split; [done|]. split; [done|]. split; [apply set_child_header|].
  exists (committed meaning M0 i t' g), pr. split; [done|]. split; [done|]. split; [by rewrite Hgl|].
  split; [split; simpl|].
  - done.
  - done.
  - intros q [->|?]%Hmem; [by right|by left].
  - intros q Hq. left. apply Hmem. by right.
  - intros q [Hq|Hq]%visible_committed; [left; left; by apply Hlinked|by left].
  - intros w' Hn Hlocks. split; [split; [split; [done|]|]|].
    + intros o _ Ho'. simpl in Ho'. rewrite Hn, lookup_insert_eq in Ho'. injection Ho' as <-. by rewrite set_child_removed.
    + intros o Hm. done.
    + by eapply holds_same_locks.
Qed.

(** retiring says nothing about the nodes *)
Lemma oht_retire_done i k gp p ps q : gp ∈ p :: ps →
  oht i (in_section i p ps (remove_done i k gp true)) (retire q) (λ _, in_section i p ps (remove_done i k gp true)).
Proof.
  intros Hin. apply oht_retire.
  - apply in_section_stable, guarded_and; [apply guarded_stable, stable_outcome|by apply guarded_clean].
  - intros w w' γ Hn Hl [[[Ho Hcl] Hcl'] Hh]. split; [split; [split; [exact Ho|]|]|by eapply holds_same_locks];
      intros o Hm; simpl in *; rewrite Hn; auto.
Qed.

(** the inner critical section of a remove *)
Lemma shortcut_section i k gp gp_left p p_left l n (x := (gp, gp_left, p, p_left, l)) :
  p ≠ gp → is_leaf n = true → Equal k n = true →
  oht i (in_section i p [gp] (λ σ, doomed i k x n σ ∧ clean removed members gp σ))
    (rm ← load (removed_c gp);
     y ← (if (rm : bool) then mret p else load (child_c gp gp_left));
     if rm || negb (y =? p) then mret false
     else
       ll ← load (child_c p true);
       lr ← load (child_c p false);
       let '(ll, lr) := if (p_left : bool) then (lr, ll) else (ll, lr) in
       if negb (lr =? l) then mret false
       else
         store (removed_c p) true ;;
         store (child_c gp gp_left) ll ;;
         retire p ;;
         retire l ;;
         mret true)
    (λ b, in_section i p [gp] (remove_done i k gp b)).
Proof.
  intros Hpg Hl Hk. assert (gp ∈ [p; gp]) as Hgin by (right; by left). assert (p ∈ [p; gp]) as Hpin by by left.
  set (P σ := doomed i k x n σ ∧ clean removed members gp σ).
  set (P0 σ := P σ ∧ clean removed members p σ).
  assert (guarded i [p; gp] P0) as HgP.
  { apply guarded_and; [apply guarded_and; [apply guarded_stable, stable_doomed|by apply guarded_clean]|by apply guarded_clean]. }
  assert (∀ (Q : config → Prop) σ, in_scope i [p; gp] (λ σ, P0 σ ∧ Q σ) σ → in_section i p [gp] (remove_done i k gp false) σ) as Hno.
  { intros Q σ [[[[(Hp & _ & _ & Ho) Hcl] Hclp] _] Hh]. by split; [split; [split|]|]. }
  eapply oht_bind.
  { apply (oht_read_held i gp [p; gp] P0); [done|done|]. intros σ Hc [[(_ & _ & Hw & _) _] _].
    destruct (way_parent _ _ _ _ _ _ Hc Hw) as (ng & Hn & Hi & _).
    exists ng, (removed ng). split; [exact Hn|]. by destruct ng. }
  intros rm. apply oht_exists; intros ng. apply oht_pure; intros Hrm.
  assert (is_leaf ng = false ∧ rm = removed ng) as [Hig ->] by (destruct ng; [by injection Hrm|done]).
  destruct (get_child_leaf gp_left ng Hig) as [y Hy]. set (P1 σ := P0 σ ∧ node_is gp ng σ).
  assert (guarded i [p; gp] P1) as HgP1 by (apply guarded_and; [done|by apply guarded_node]).
  apply (oht_bind _ _ _ _ _ _ _ _ _ (λ y' σ, (removed ng = false → y' = y) ∧ in_scope i [p; gp] P1 σ)).
  { destruct (removed ng); [by apply oht_ret|].
    eapply oht_weaken; [apply (oht_read_known i [p; gp] P1 _ _ gp ng y HgP1); [by intros σ [_ ?]|done]|by intros σ|].
    by intros y' σ _ [-> ?]. }
  intros y'. apply oht_pure; intros Hy'.
  destruct (removed ng) eqn:Hrg; cbn [orb]; [apply oht_ret; intros σ H; by apply (Hno (node_is gp ng))|].
  rewrite Hy' by done. destruct (Z.eqb_spec y p) as [->|_]; cbn [negb]; [|apply oht_ret; intros σ H; by apply (Hno (node_is gp ng))].
  eapply oht_bind.
  { apply (oht_read_held i p [p; gp] P1); [done|done|]. intros σ Hc [[[(_ & Hf & _) _] _] _].
    destruct Hf as ([Hw _] & _). destruct (way_parent _ _ _ _ _ _ Hc Hw) as (np & Hn & Hi & _).
    destruct (get_child_leaf true np Hi) as [v Hv]. by exists np, v. }
  intros ll. apply oht_exists; intros np. apply oht_pure; intros Hll.
  assert (is_leaf np = false) as Hip by by destruct np. destruct (get_child_leaf false np Hip) as [lr Hlr].
  set (P2 σ := P1 σ ∧ node_is p np σ).
  assert (guarded i [p; gp] P2) as HgP2 by (apply guarded_and; [done|by apply guarded_node]).
  eapply oht_bind; [apply (oht_read_known i [p; gp] P2 _ _ p np lr HgP2); [by intros σ [_ ?]|done]|].
  intros lr'. apply oht_pure; intros ->.
  assert ((if p_left then (lr, ll) else (ll, lr)) = (if p_left then lr else ll, if p_left then ll else lr)) as ->
    by by destruct p_left.
  assert (get_child p_left np = inr (if p_left then ll else lr) ∧ get_child (negb p_left) np = inr (if p_left then lr else ll))
    as [Hpl Hpo] by by destruct p_left.
  set (c := if p_left then lr else ll) in *. set (d := if p_left then ll else lr) in *. clearbody c d.
  destruct (Z.eqb_spec d l) as [->|_]; cbn [negb].
  2: { apply oht_ret. intros σ [[[H _] _] Hh]. apply (Hno (λ _, True)). by split. }
  eapply oht_bind; [eapply (oht_weaken _ _ _ _ _ _ _ (in_scope i [p; gp] (both_locked i k x n ng np)));
    [by apply mark_tree_spec| |intros u σ _ H; exact H]|].
  { intros σ _ [[[[H _] Hng] Hnp] Hh]. by split. }
  intros []. eapply oht_bind; [by apply unlink_tree_spec|]. intros [].
  eapply oht_bind; [by apply oht_retire_done|]. intros [].
  eapply oht_bind; [by apply oht_retire_done|]. intros []. by apply oht_ret.
Qed.

(** the critical section of a remove *)
Lemma tree_remove_section i k gp gp_left p p_left l n (x := (gp, gp_left, p, p_left, l)) : (i < threads)%nat →
  p ≠ gp → is_leaf n = true → Equal k n = true →
  oht i (in_section i gp [] (λ σ, base i (Remove k) σ ∧ found i k x n σ ∧ way i k gp gp_left p σ))
    (try_lock i p
      (rm ← load (removed_c gp);
       y ← (if (rm : bool) then mret p else load (child_c gp gp_left));
       if rm || negb (y =? p) then mret false
       else
         ll ← load (child_c p true);
         lr ← load (child_c p false);
         let '(ll, lr) := if (p_left : bool) then (lr, ll) else (ll, lr) in
         if negb (lr =? l) then mret false
         else
           store (removed_c p) true ;;
           store (child_c gp gp_left) ll ;;
           retire p ;;
           retire l ;;
           mret true))
    (λ b, in_section i gp [] (outcome i (Remove k) (ARemove true) b)).
Proof.
  intros Hi Hpg Hl Hk. assert (gp ∈ [gp]) as Hgin by by left.
  eapply oht_weaken; [apply (oht_try_lock threads threads_fit same_header removed members linked shape tree_shape_reseen
    meaning contents M0 only_fuel i p [gp] (λ σ, doomed i k x n σ ∧ clean removed members gp σ) (remove_done i k gp))| |].
  - done.
  - by intros ?%list_elem_of_singleton.
  - apply guarded_and; [apply guarded_stable, stable_doomed|by apply guarded_clean].
  - apply lockless_and; [apply lockless_doomed|apply lockless_clean].
  - intros σ Hc [(_ & Hf & _) _]. destruct Hf as ([Hw _] & _). by eapply way_visible.
  - intros b. apply guarded_and; [apply guarded_stable, stable_outcome|apply guarded_clean; right; by left].
  - intros b. apply lockless_and; [apply lockless_outcome|apply lockless_clean].
  - intros σ [(Hp & _ & _ & Ho) Hcl]. by split.
  - by apply shortcut_section.
  - intros σ _ [[([Hp Ho] & Hf & Hw) Hcl] Hh]. split; [split; [split; [exact Hp|]|]|]; done.
  - intros b σ _ [[Ho Hcl] Hh]. by split.
Qed.

Lemma tree_try_remove_spec i fuel k : (i < threads)%nat →
  oht i (working i (Remove k)) (try_remove i fuel root k)
    (λ r σ, match r with Some b => finished i (Remove k) (ARemove b) σ | None => working i (Remove k) σ end).
Proof.
  intros Hi. unfold try_remove. eapply oht_bind; [apply tree_find_location_spec|].
  intros [[[[gp gp_left] p] p_left] l]. cbn iota.
  eapply oht_bind; [apply tree_node_spec|]. intros n. apply oht_pure. intros Hl.
  set (x := (gp, gp_left, p, p_left, l)).
  assert (Equal k n = false → ∀ M : gmap Z Z, M !! k = reading k n → meaning (Remove k) M = (ARemove false, M)) as Hm.
  { intros He M HM. simpl. by rewrite HM, reading_unequal. }
  assert (∀ σ, found i k x n σ → knows i k (reading k n) σ) as Hk by by intros σ (_ & _ & ?).
  destruct (is_sentinal n) eqn:Hs.
  - apply oht_ret. intros σ [Hw Hf%Hk]. eapply knows_finished; [done|done|]. apply Hm. unfold Equal. by rewrite Hs.
  - destruct (Equal k n) eqn:He; cbn [negb].
    + eapply (oht_weaken _ _ _ _ _ _ _ (λ σ, p ≠ gp ∧ working i (Remove k) σ ∧ found i k x n σ ∧ way i k gp gp_left p σ)).
      * apply oht_pure. intros Hne. apply (tree_updating_spec i (Remove k) k x n gp gp_left p (ARemove true)); [done|].
        by apply tree_remove_section.
      * intros σ Hc [Hw Hf]. pose proof (found_parent i k gp gp_left p p_left l n σ Hc Hf Hl Hs) as Hg.
        split; [by apply not_eq_sym; eapply way_distinct|done].
      * by intros [b|] σ _; [intros [-> ?]|].
    + eapply oht_weaken; [apply (tree_unchanged_spec i (Remove k) k x n gp gp_left p false (ARemove false))|done|].
      * by apply Hm.
      * intros σ Hc Hf. by eapply found_parent.
      * by intros [b|] σ _; [intros [-> ?]|].
Qed.

Lemma tree_find_locked_spec i fuel k :
  oht i (working i (Find k)) (find_locked fuel root k) (λ r σ, working i (Find k) σ ∧ knows i k r σ).
Proof.
  apply try_loop_spec. unfold try_find. eapply oht_bind; [apply tree_find_location_spec|].
  intros [[[[gp gp_left] p] p_left] l]. cbn iota. set (x := (gp, gp_left, p, p_left, l)).
  assert (stable i (at_leaf i (Find k) k x)) as Hst.
  { intros σ σ' [H (n & Hn & Hl)] Hc Ho. split; [by eapply stable_at_step|].
    destruct (own_persists _ _ _ Ho _ n Hn) as (n' & Hn' & Hh). exists n'. split; [done|].
    by rewrite (header_is_leaf _ _ Hh). }
  eapply oht_bind; [apply (still_child_spec i _ k); [exact Hst|]; by intros σ _ [(_ & ? & _) _]|].
  intros [|]; [|apply oht_ret; by intros σ [(? & _) _]].
  eapply oht_bind; [apply tree_node_spec|]. intros n. apply oht_pure; intros Hl.
  eapply oht_bind; [by apply answer_spec|]. intros r. by apply oht_ret.
Qed.

(** the operations of the structure, with the two searches it has *)
Definition tree_ops (locking : bool) (i : nat) : dict_ops (store_state node) :=
  DictOps (λ fuel, (if locking then find_locked else find_) fuel root) (λ fuel, insert_ alloc i fuel root)
    (λ fuel, remove_ i fuel root).
Definition tree_op (locking : bool) (fuel : nat) (i : nat) : dict_command → prog (store_state node) answer :=
  perform (tree_ops locking i) fuel.

Lemma tree_op_spec locking fuel i c : (i < threads)%nat →
  oht i (working i c) (tree_op locking fuel i c) (λ a, finished i c a).
Proof.
  intros Hi. apply perform_spec; simpl.
  - intros k. destruct locking; [apply tree_find_locked_spec|apply tree_find_spec].
  - intros k v. apply try_loop_spec. by apply tree_try_insert_spec.
  - intros k. apply try_loop_spec. by apply tree_try_remove_spec.
Qed.
End conc.

(** ** Trees without marks *)
Lemma linked_inner root m t a n : known root m t → a ∈ linked root t → m !! a = Some n → is_leaf n = false →
  a ∈ members root t.
Proof.
  intros [_ Hs _ _ _] [->|Ha]%elem_of_cons Hn Hl; [by left|right].
  induction t as [b es|b k l IHl r IHr]; simpl in *.
  - apply list_elem_of_singleton in Ha as ->. destruct Hs as (n' & Hn' & He). rewrite Hn in Hn'. injection Hn' as <-.
    by destruct n.
  - destruct Hs as (_ & Hsl & Hsr). apply elem_of_cons in Ha as [->|[Ha|Ha]%elem_of_app]; [by left|right..];
      apply elem_of_app; auto.
Qed.
Lemma unmarked_tree root m t : at_tree root t (unmark <$> m) →
  (∀ a n, a ∈ members root t → m !! a = Some n → removed n = false) → at_tree root t m.
Proof.
  intros Ht Hm. eapply at_tree_same; [exact Ht|]. intros a Ha. rewrite lookup_fmap.
  destruct (m !! a) as [n|] eqn:Hn; [|done]. simpl. f_equal. destruct n as [k s b c rm|]; [|done]. simpl.
  f_equal. refine (Hm a (internal k s b c rm) _ Hn). by eapply linked_inner; [apply known_now| |exact Hn|].
Qed.
Lemma tree_unmarked root m t : at_tree root t m → at_tree root t (unmark <$> m) ∧
  ∀ a n, a ∈ members root t → m !! a = Some n → removed n = false.
Proof.
  intros Ht. assert (∀ a n, a ∈ linked root t → m !! a = Some n → unmark n = n) as Hu.
  { pose proof Ht as [(nr & Hr & k0 & r0 & ->) Hs _ _ _]. intros a n [->|Ha]%elem_of_cons Hn; [by rewrite Hr in Hn; injection Hn as <-|].
    clear Hr Ht. induction t as [b es|b k l IHl r IHr]; simpl in *.
    - apply list_elem_of_singleton in Ha as ->. destruct Hs as (n' & Hn' & He). rewrite Hn in Hn'. injection Hn' as <-.
      by destruct n.
    - destruct Hs as (Hb & Hsl & Hsr). apply elem_of_cons in Ha as [->|[Ha|Ha]%elem_of_app]; [|by auto..].
      rewrite Hn in Hb. by injection Hb as ->. }
  split.
  - eapply at_tree_same; [exact Ht|]. intros a Ha. rewrite lookup_fmap. destruct (m !! a) as [n|] eqn:Hn; [|done].
    simpl. f_equal. by eapply Hu.
  - intros a n Ha%members_linked Hn. specialize (Hu a n Ha Hn). destruct n; [|done]. simpl in *. by injection Hu as <-.
Qed.

(** C7: Any number of threads, each performing its own sequence of inserts,
    removes and searches (searches take no lock, or validate under one) on one
    leaf tree, interleaved at every access to memory: no thread follows a null
    or dangling pointer, takes an inner node for a leaf or meets any other
    error (loops may run out of fuel); the history of calls and returns is
    linearizable to the finite map; at every moment the tree in memory, up to
    the mark of a node that is being removed, is a search tree that holds the
    map that the linearization ends in; and when all threads are done it is in
    the state that the sequential theorems start from. *)
Theorem leaftree_linearizable (alloc : gmap Z node → Z) `{!Allocator alloc} (tid : nat) (root : Z) (M : gmap Z Z)
    (locking : bool) (fuel : nat) (css : list (list dict_command)) (s : store_state node)
    (ids_fit : Z.of_nat (length css) ≤ 2 ^ 16 - 1) (start : repr tid root M s) :
  ∀ w ts, rtc step (mkWorld s [], imap (λ i, client (tree_op alloc root locking fuel i) i) css) (w, ts) →
    (∀ i er, goes_wrong i er (w, ts) → er = OutOfFuel) ∧
    ∃ t, linearizes meaning M (log w) (contents t) ∧ at_tree root t (unmark <$> nodes (mem w)) ∧
      ((∀ i, (i < length css)%nat → ∃ rs, ts !! i = Some (Ret rs)) → repr tid root (contents t) (mem w)).
Proof.
  intros w ts Hsteps. destruct start as (t0 & Ht & -> & Hlk). destruct (tree_unmarked root _ _ Ht) as [Ht0 Hunmarked].
  assert (∀ p, word s p mod 2 = 0) as Hev by (intros p; specialize (Hlk p); by rewrite decide_False in Hlk by apply not_elem_of_empty).
  destruct (map_linearizable same_header removed (members root) (linked root) (shape root) (tree_shape_reseen root) contents
    (tree_op alloc root locking fuel) css s t0) with w ts as (Hwrong & g & Hlin & [Hnow _ _ _ _] & Hrest).
  - done.
  - by split; simpl.
  - done.
  - done.
  - intros i c Hi. by apply tree_op_spec.
  - done.
  - split; [done|]. exists (now g). split; [done|]. split; [done|].
    intros Hdone. destruct (Hrest Hdone) as [Heven Hmk]. exists (now g). split; [by apply unmarked_tree|].
    split; [done|]. intros p. by rewrite decide_False by apply not_elem_of_empty.
Qed.

(** A search without locks stands on the parent of the leaf of 5 while another
    thread takes both out of the tree and returns; it then still answers 50, as
    of a moment before the removal. *)
Definition tree_clients : list (list dict_command) := [[Find 5]; [Remove 5]].
Definition tree_overtaken : list nat := [0; 0; 0]%nat ++ replicate 23 1%nat ++ [0; 0; 0; 0]%nat.

Example leaftree_linearizable_witness :
  ∃ w ts, rtc step (mkWorld leaftree_one_entry [], imap (λ i, client (tree_op next_addr 1 false 5 i) i) tree_clients) (w, ts) ∧
    log w = [Call 0 (Find 5); Call 1 (Remove 5); Return 1 (ARemove true); Return 0 (AFind (Some 50))] ∧
    ∃ m, linearizes meaning {[5 := 50]} (log w) m ∧ repr 0 1 m (mem w).
Proof.
  destruct (run_to_end 2 [Call 0 (Find 5); Call 1 (Remove 5); Return 1 (ARemove true); Return 0 (AFind (Some 50))]
    tree_overtaken (mkWorld leaftree_one_entry [], imap (λ i, client (tree_op next_addr 1 false 5 i) i) tree_clients)) as (w & ts & Hrun & Hlog & Hdone).
  { vm_compute. reflexivity. }
  exists w, ts. split; [exact Hrun|]. split; [exact Hlog|].
  destruct (leaftree_linearizable next_addr 0 1 {[5 := 50]} false 5 tree_clients leaftree_one_entry) with w ts as (_ & t & Hlin & _ & Hrepr).
  - done.
  - apply leaftree_one_entry_repr.
  - exact Hrun.
  - exists (contents t). split; [exact Hlin|]. apply Hrepr. exact Hdone.
Defined.
