(* ===== verification/BlockLeafTree.v ===== *)
(** * BlockLeafTree: the search tree with blocks of entries in its leaves
    (structures/blockleaftree/ordered_map.h), and the rotations that would
    keep it balanced (structures/blockleaftree/rebalance.h, whose include is
    commented out).

    A leaf is immutable: an update copies it, splits the copy in two when it
    is over the block size, and links the copy in under the lock of the parent.
    The last entry of a leaf is removed with its parent, as in [LeafTree]. *)

From stdpp Require Import prelude list gmap.
From Stdlib Require Import ZArith Lia Sorted.
From S2P Require Import Prelude Conc SpinLock Store MapSpec Arrays BinTree.
Local Open Scope Z_scope.

Module BlockLeafTree.
#[local] Abbreviation KV := (Z * Z)%type.

(** [struct node] and [struct leaf], with the flags of [struct head] that they use *)
Inductive obj :=
  | node (key left right : Z) (removed : bool)
  | leaf (is_sentinal : bool) (size : Z) (keyvals : list KV).
Definition is_leaf (o : obj) : bool := match o with leaf _ _ _ => true | node _ _ _ _ => false end.

(** for entries of two 8-byte words *)
Definition block_bytes : Z := 64 * 4.
Definition block_size : Z := (block_bytes - 16) / 16 - 1.
Definition blank : list KV := replicate (Z.to_nat (block_size + 1)) (0, 0).

Section blocks.
(** [less(a,b)], and [equal(a,b)] *)
Definition equal (a b : Z) : bool := negb (a <? b) && negb (b <? a).

(** [leaf::find] *)
Fixpoint find_from (keyvals : list KV) (n : nat) (i k : Z) : err + option Z :=
  match n with
  | O => inr None
  | S n' =>
      e ← get keyvals i;
      if negb (k <? e.1) && negb (e.1 <? k) then inr (Some e.2) else find_from keyvals n' (i + 1) k
  end.
Definition leaf_find (o : obj) (k : Z) : err + option Z :=
  match o with
  | leaf _ size kv => find_from kv (Z.to_nat size) 0 k
  | node _ _ _ _ => inl BadCast
  end.

(** the new block of insert: size and entries *)
Definition insert_block (size : Z) (keyvals : list KV) (k v : Z) : err + (Z * list KV) :=
  '(out, i) ← copy_less blank keyvals size k (S (Z.to_nat size)) 0;
  fits ← (if i =? size then inr true else e ← get keyvals i; inr (k <? e.1));
  if (fits : bool) then
    out' ← put out i (k, v);
    out'' ← copy out' keyvals (-1) (Z.to_nat (size - i)) (i + 1);
    inr (size + 1, out'')
  else inl Abort.

(** its two halves, when it overflows *)
Definition left_half (size : Z) (keyvals : list KV) : err + (Z * list KV) :=
  let size_l := size / 2 in
  out ← copy blank keyvals 0 (Z.to_nat size_l) 0; inr (size_l, out).
Definition right_half (size : Z) (keyvals : list KV) : err + (Z * list KV) :=
  let size_l := size / 2 in
  let size_r := size - size_l in
  out ← copy blank keyvals size_l (Z.to_nat size_r) 0; inr (size_r, out).

(** the new block of remove *)
Definition remove_block (size : Z) (keyvals : list KV) (k : Z) : err + (Z * list KV) :=
  '(out, i) ← copy_less blank keyvals size k (S (Z.to_nat size)) 0;
  e ← get keyvals i;
  let offset := if equal e.1 k then 1 else 0 in
  let n := Z.to_nat (size - offset - i) in
  out' ← copy out keyvals offset n i;
  inr (i + Z.of_nat n, out').
End blocks.

Section blockleaftree.
Context (alloc : gmap Z obj → Z) (tid : nat) (hash64_2 : Z → Z).
Context (with_epoch : ∀ A, prog (store_state obj) A → prog (store_state obj) A).
#[local] Abbreviation state := (store_state obj).
(** [validate] of a versioned pointer *)
Context (validate : Z → bool → prog state unit).
(** the conversion of an int to the type of the keys *)
Context (to_key : Z → Z).

Definition new_node (k left right : Z) : prog state Z := new_obj alloc (node k left right false).
(** the root, whose key is not initialised *)
Definition new_root (k0 left : Z) : prog state Z := new_obj alloc (node k0 left 0 false).
Definition new_leaf (b : Z * list KV) : prog state Z := new_obj alloc (leaf false b.1 b.2).

Definition get_child (is_left : bool) (o : obj) : err + Z :=
  match o with node _ l r _ => inr (if is_left then l else r) | leaf _ _ _ => inl BadCast end.
Definition set_child (is_left : bool) (c : Z) (o : obj) : obj :=
  match o with
  | node k l r rm => if is_left then node k c r rm else node k l c rm
  | leaf _ _ _ => o
  end.
Definition child_c (p : Z) (is_left : bool) : cell state Z := field (get_child is_left) (set_child is_left) p.
Definition removed_c : Z → cell state bool :=
  field (λ o, match o with node _ _ _ rm => inr rm | leaf _ _ _ => inl BadCast end)
        (λ rm o, match o with node k l r _ => node k l r rm | leaf _ _ _ => o end).
Definition key_of (o : obj) : prog state Z :=
  match o with node k _ _ _ => mret k | leaf _ _ _ => fail BadCast end.
Definition block_of (o : obj) : prog state (bool * Z * list KV) :=
  match o with leaf s n kv => mret (s, n, kv) | node _ _ _ _ => fail BadCast end.

(** gp, gp_left, p, p_left, l *)
Definition find_location (fuel : nat) (root k : Z) : prog state (Z * bool * Z * bool * Z) :=
  l ← load (child_c root true);
  iter fuel (λ '(gp, gp_left, p, p_left, l),
    n ← load (node_c l);
    if is_leaf n then mret (inr (gp, gp_left, p, p_left, l))
    else
      key ← key_of n;
      l' ← load (child_c l (k <? key));
      mret (inl (p, p_left, l, k <? key, l'))) (0, false, root, true, l).

(** the sentinal leaf at [l] gets a sibling with the first entry *)
Definition insert_first (p : Z) (p_left : bool) (l k v : Z) : prog state unit :=
  new_l ← new_leaf (1, <[0%nat := (k, v)]> blank);
  x ← new_node k l new_l;
  store (child_c p p_left) x.
(** the new block [b] at [new_l] is linked in, as two blocks if it overflows *)
Definition link_block (p : Z) (p_left : bool) (b : Z * list KV) (new_l : Z) : prog state unit :=
  if block_size <? b.1 then
    bl ← lift (left_half b.1 b.2);
    new_ll ← new_leaf bl;
    br ← lift (right_half b.1 b.2);
    new_lr ← new_leaf br;
    e ← lift (get b.2 (b.1 / 2));
    x ← new_node e.1 new_ll new_lr;
    store (child_c p p_left) x ;;
    retire new_l
  else store (child_c p p_left) new_l.
(** what insert does under the lock of [p]; [n] is the leaf at [l] *)
Definition insert_locked (p : Z) (p_left : bool) (l k v : Z) (n : obj) : prog state bool :=
  rm ← load (removed_c p);
  x ← (if (rm : bool) then mret l else load (child_c p p_left));
  if rm || negb (x =? l) then mret false
  else
    '(sentinal, size, keyvals) ← block_of n;
    if (sentinal : bool) then
      insert_first p p_left l k v ;;
      mret true
    else
      b ← lift (insert_block size keyvals k v);
      new_l ← new_leaf b;
      link_block p p_left b new_l ;;
      retire l ;;
      mret true.

Definition insert_round (fuel : nat) (root k v : Z) : prog state (option bool) :=
  '(gp, gp_left, p, p_left, l) ← find_location fuel root k;
  n ← load (node_c l);
  r ← lift (leaf_find n k);
  if bool_decide (is_Some (r : option Z)) then mret (Some false)
  else
    b ← try_lock tid p (insert_locked p p_left l k v n);
    mret (if (b : bool) then Some true else None).
Definition insert (fuel : nat) (root k v : Z) : prog state bool :=
  with_epoch bool (flock.try_loop fuel (insert_round fuel root k v)).
(** not yet implemented *)
Definition insert_ (k v : Z) : prog state bool := mret false.

Definition remove_locked (p : Z) (p_left : bool) (l k size : Z) (keyvals : list KV) : prog state bool :=
  rm ← load (removed_c p);
  x ← (if (rm : bool) then mret l else load (child_c p p_left));
  if rm || negb (x =? l) then mret false
  else
    b ← lift (remove_block size keyvals k);
    new_l ← new_leaf b;
    store (child_c p p_left) new_l ;;
    retire l ;;
    mret true.

Definition remove_leaf_locked (gp : Z) (gp_left : bool) (p : Z) (p_left : bool) (l : Z) : prog state bool :=
  rm ← load (removed_c gp);
  x ← (if (rm : bool) then mret p else load (child_c gp gp_left));
  if rm || negb (x =? p) then mret false
  else
    try_lock tid p
      (ll ← load (child_c p true);
       lr ← load (child_c p false);
       let '(ll, lr) := if p_left then (lr, ll) else (ll, lr) in
       if negb (lr =? l) then mret false
       else
         store (removed_c p) true ;;
         store (child_c gp gp_left) ll ;;
         retire p ;;
         retire l ;;
         mret true).

Definition remove_round (fuel : nat) (root k : Z) : prog state (option bool) :=
  '(gp, gp_left, p, p_left, l) ← find_location fuel root k;
  n ← load (node_c l);
  r ← lift (leaf_find n k);
  if negb (bool_decide (is_Some (r : option Z))) then mret (Some false)
  else
    '(_, size, keyvals) ← block_of n;
    if 1 <? size then
      b ← try_lock tid p (remove_locked p p_left l k size keyvals);
      mret (if (b : bool) then Some true else None)
    else
      e ← lift (get keyvals 0);
      if equal e.1 k then
        b ← try_lock tid gp (remove_leaf_locked gp gp_left p p_left l);
        mret (if (b : bool) then Some true else None)
      else mret (Some true).
Definition remove (fuel : nat) (root k : Z) : prog state bool :=
  with_epoch bool (flock.try_loop fuel (remove_round fuel root k)).
(** not yet implemented *)
Definition remove_ (k : Z) : prog state bool := mret false.

Definition find_ (fuel : nat) (root k : Z) : prog state (option Z) :=
  '(gp, gp_left, p, p_left, l) ← find_location fuel root k;
  validate p p_left ;;
  n ← load (node_c l);
  '(_, size, keyvals) ← block_of n;
  iter fuel (λ i,
    if i <? size then
      e ← lift (get keyvals i);
      if equal e.1 k then mret (inr (Some e.2)) else mret (inl (i + 1))
    else mret (inr None)) 0.
Definition find (fuel : nat) (root k : Z) : prog state (option Z) :=
  with_epoch (option Z) (find_ fuel root k).

Definition empty (k0 : Z) : prog state Z :=
  l ← new_obj alloc (leaf true 0 blank);
  new_root k0 l.

(** [retire] returns before it does anything *)
Definition retire_tree (p : Z) : prog state unit := mret tt.

Fixpoint hrec (fuel : nat) (p depth : Z) : prog state Z :=
  match fuel with
  | O => fail OutOfFuel
  | S f =>
      n ← load (node_c p);
      match n with
      | leaf _ size _ => mret (wrap64 (depth * size))
      | node _ _ _ _ =>
          l ← load (child_c p true); d1 ← hrec f l (depth + 1);
          r ← load (child_c p false); d2 ← hrec f r (depth + 1);
          mret (wrap64 (d1 + d2))
      end
  end.
Definition total_height (fuel : nat) (root : Z) : prog state Z :=
  l ← load (child_c root true); hrec fuel l 1.

(** least key, greatest key, number of entries, and whether a key was out of
    order *)
Fixpoint crec (fuel : nat) (p : Z) : prog state (Z * Z * Z * bool) :=
  match fuel with
  | O => fail OutOfFuel
  | S f =>
      n ← load (node_c p);
      match n with
      | leaf _ size kv =>
          e ← lift (get kv 0);
          '(minv, maxv) ← lift (min_max kv (Z.to_nat (size - 1)) 1 e.1 e.1);
          mret (minv, maxv, size, false)
      | node key _ _ _ =>
          l ← load (child_c p true);
          r ← load (child_c p false);
          '(lmin, lmax, lsum, lbad) ← crec f l;
          '(rmin, rmax, rsum, rbad) ← crec f r;
          let bad := ((0 <? lsum) && negb (lmax <? key)) || (rmin <? key) in
          if lsum =? 0 then mret (key, rmax, rsum, lbad || rbad || bad)
          else mret (lmin, rmax, lsum + rsum, lbad || rbad || bad)
      end
  end.
Definition check (fuel : nat) (root : Z) : prog state Z :=
  l ← load (child_c root true);
  '(_, _, cnt, bad_val) ← crec fuel l;
  mret (if (bad_val : bool) then -1 else cnt).

(** ** rebalance.h: the key is passed as an [int], and becomes a key again
    ([to_key]) where it is compared *)
Definition priority (o : obj) : prog state Z := k ← key_of o; mret (hash64_2 k).

(** the rotation, under the locks of [gp], [p] and [c] *)
Definition rotate (gp : Z) (gp_left : bool) (p c : Z) (on_left : bool) : prog state bool :=
  np ← load (node_c p); pk ← key_of np;
  nc ← load (node_c c); ck ← key_of nc;
  (if on_left then
     a ← load (child_c c false);
     b ← load (child_c p false);
     n ← new_node pk a b;
     d ← load (child_c c true);
     x ← new_node ck d n;
     store (child_c gp gp_left) x
   else
     a ← load (child_c p true);
     b ← load (child_c c true);
     n ← new_node pk a b;
     d ← load (child_c c false);
     x ← new_node ck n d;
     store (child_c gp gp_left) x) ;;
  store (removed_c p) true ;; retire p ;;
  store (removed_c c) true ;; retire c ;;
  mret true.

Definition fix_priority (gp p c k : Z) : prog state bool :=
  let k := to_key (s32 k) in
  try_lock tid gp
    (ngp ← load (node_c gp); gk ← key_of ngp;
     let gp_left := k <? gk in
     rm ← load (removed_c gp);
     x ← (if (rm : bool) then mret p else load (child_c gp gp_left));
     if rm || negb (x =? p) then mret false
     else
       try_lock tid p
         (np ← load (node_c p); pk ← key_of np;
          let on_left := k <? pk in
          y ← load (child_c p on_left);
          if negb (y =? c) then mret false
          else try_lock tid c (rotate gp gp_left p c on_left))).

(** the child of [p] on the side of [k], with its node *)
Definition side_of (p k : Z) : prog state (Z * obj) :=
  np ← load (node_c p); pk ← key_of np;
  c ← load (child_c p (k <? pk));
  nc ← load (node_c c);
  mret (c, nc).

(** one round of fix_path; [true] when there is nothing left to fix *)
Definition fix_path_round (fuel : nat) (root k : Z) : prog state bool :=
  p ← load (child_c root true);
  np ← load (node_c p);
  if is_leaf np then mret true
  else
    c ← side_of p (to_key k);
    '(gp, p, c) ← iter fuel (λ '(gp, p, c),
      if is_leaf c.2 then mret (inr (gp, p, c))
      else
        np ← load (node_c p); pp ← priority np; pc ← priority c.2;
        if pc <=? pp then c' ← side_of c.1 (to_key k); mret (inl (p, c.1, c'))
        else mret (inr (gp, p, c))) (root, p, c);
    if is_leaf c.2 then mret true
    else fix_priority gp p c.1 k ;; mret false.
Definition fix_path (fuel : nat) (root k : Z) : prog state unit :=
  iter fuel (λ _ : unit,
    b ← fix_path_round fuel root (s32 k); mret (if (b : bool) then inr tt else inl tt)) tt.

Definition rebalance (fuel : nat) (p root k : Z) : prog state unit :=
  let k := s32 k in
  c ← side_of p (to_key k);
  if is_leaf c.2 then mret tt else fix_path fuel root k.
End blockleaftree.

(** ** Blocks *)
Section block_lemmas.
Implicit Types es pad : list KV.

Lemma equal_spec a b : equal a b = bool_decide (a = b).
Proof.
  unfold equal. case_bool_decide as Hab; [subst; by rewrite Z.ltb_irrefl|].
  destruct (Z.lt_total a b) as [Hlt|[?|Hlt]]; [|done|]; apply Z.ltb_lt in Hlt; rewrite Hlt;
    [done|apply andb_false_r].
Qed.

Lemma block_find_from_spec k es : ∀ pre pad i, i = Z.of_nat (length pre) →
  find_from (pre ++ es ++ pad) (length es) i k = inr (to_map es !! k).
Proof.
  induction es as [|[k' v] es IH]; intros pre pad i Hi; cbn [find_from length].
  { unfold to_map. simpl. by rewrite lookup_empty. }
  cbn [app]. rewrite get_app by done. unfold mbind, err_bind. cbn [fst snd].
  change (negb (k <? k') && negb (k' <? k)) with (equal k k'). rewrite equal_spec.
  unfold to_map. simpl. case_bool_decide as Hk; [subst; by rewrite lookup_insert_eq|].
  rewrite lookup_insert_ne by done.
  replace (pre ++ (k', v) :: es ++ pad) with ((pre ++ [(k', v)]) ++ es ++ pad) by (by rewrite <-app_assoc).
  apply IH. rewrite length_app. simpl. lia.
Qed.

Lemma blank_length : length blank = 15%nat.
Proof. done. Qed.

Lemma insert_block_spec e1 e2 pad k v : below k e1 → above k e2 → (length (e1 ++ e2) ≤ 14)%nat →
  ∃ pad', insert_block (Z.of_nat (length (e1 ++ e2))) ((e1 ++ e2) ++ pad) k v =
    inr (Z.of_nat (length (e1 ++ (k, v) :: e2)), (e1 ++ (k, v) :: e2) ++ pad') ∧
    length ((e1 ++ (k, v) :: e2) ++ pad') = 15%nat.
Proof.
  intros Hb Ha Hl. unfold insert_block. pose proof (length_app e1 e2) as Hlen. rewrite Nat2Z.id.
  pose proof (copy_less_spec k (Z.of_nat (length (e1 ++ e2))) e1 [] blank [] e2 pad
    (S (length (e1 ++ e2))) 0) as Hc. simpl app in Hc.
  rewrite Hc; clear Hc; try done; rewrite ?blank_length; try lia.
  2: { eapply Forall_impl; [exact Ha|]. simpl. lia. }
  unfold mbind, err_bind. rewrite Z.add_0_l.
  assert (∃ x rest, drop (length e1) blank = x :: rest ∧ length rest = (14 - length e1)%nat) as (x & rest & Hd & Hlr).
  { assert (length (drop (length e1) blank) = (15 - length e1)%nat) as Hld by (by rewrite length_drop).
    destruct (drop (length e1) blank) as [|x rest]; simpl in Hld; [lia|]. exists x, rest. split; [done|lia]. }
  rewrite Hd.
  assert ((if Z.of_nat (length e1) =? Z.of_nat (length (e1 ++ e2)) then inr true
    else match get ((e1 ++ e2) ++ pad) (Z.of_nat (length e1)) with inl e => inl e | inr e => inr (k <? e.1) end)
    = (inr true : err + bool)) as ->.
  { destruct e2 as [|e e2]; [rewrite app_nil_r, Z.eqb_refl; done|].
    case_bool; [done|]. rewrite <-app_assoc. cbn [app]. rewrite get_app by done.
    apply Forall_cons in Ha as [Ha _]. by rewrite (proj2 (Z.ltb_lt k e.1)) by lia. }
  rewrite put_app by done.
  replace (Z.to_nat _) with (length e2) by lia.
  replace (e1 ++ (k, v) :: rest) with ((e1 ++ [(k, v)]) ++ rest) by (by rewrite <-app_assoc).
  rewrite (copy_spec e2 _ _ _ e1 pad).
  - exists (drop (length e2) rest). split.
    + do 2 f_equal; [rewrite !length_app; simpl; lia|]. by rewrite <-!app_assoc.
    + rewrite !length_app, length_drop. simpl. lia.
  - rewrite length_app. simpl. lia.
  - lia.
  - by rewrite <-app_assoc.
  - lia.
Qed.

Lemma remove_block_spec e1 k v e2 pad : below k e1 → above k e2 → (length (e1 ++ (k, v) :: e2) ≤ 14)%nat →
  ∃ pad', remove_block (Z.of_nat (length (e1 ++ (k, v) :: e2))) ((e1 ++ (k, v) :: e2) ++ pad) k =
    inr (Z.of_nat (length (e1 ++ e2)), (e1 ++ e2) ++ pad') ∧ length ((e1 ++ e2) ++ pad') = 15%nat.
Proof.
  intros Hb Ha Hl. unfold remove_block. pose proof (length_app e1 ((k, v) :: e2)) as Hlen. simpl in Hlen.
  rewrite Nat2Z.id.
  pose proof (copy_less_spec k (Z.of_nat (length (e1 ++ (k, v) :: e2))) e1 [] blank [] ((k, v) :: e2) pad
    (S (length (e1 ++ (k, v) :: e2))) 0) as Hc. simpl app in Hc.
  rewrite Hc; clear Hc; try done; rewrite ?blank_length; try lia.
  2: { constructor; [simpl; lia|]. eapply Forall_impl; [exact Ha|]. simpl. lia. }
  unfold mbind, err_bind. rewrite Z.add_0_l. rewrite <-app_assoc. cbn [app].
  rewrite get_app by done. rewrite equal_spec, bool_decide_true by done.
  replace (Z.to_nat _) with (length e2) by lia.
  assert (length (drop (length e1) blank) = (15 - length e1)%nat) as Hld by (by rewrite length_drop).
  rewrite (copy_spec e2 e1 _ _ (e1 ++ [(k, v)]) pad).
  - exists (drop (length e2) (drop (length e1) blank)). split.
    + do 2 f_equal; [rewrite length_app; lia|]. by rewrite <-app_assoc.
    + rewrite !length_app, length_drop. simpl. lia.
  - lia.
  - rewrite length_app. simpl. lia.
  - by rewrite <-app_assoc.
  - lia.
Qed.

(** the halves of an overflowing block *)
Lemma halves_spec es pad : length es = 15%nat → let l := take 7 es in let r := drop 7 es in
  (∃ pad', left_half (Z.of_nat (length es)) (es ++ pad) = inr (Z.of_nat (length l), l ++ pad') ∧ length (l ++ pad') = 15%nat) ∧
  (∃ pad', right_half (Z.of_nat (length es)) (es ++ pad) = inr (Z.of_nat (length r), r ++ pad') ∧ length (r ++ pad') = 15%nat) ∧
  ∃ e r', r = e :: r' ∧ get (es ++ pad) (Z.of_nat (length es) / 2) = inr e.
Proof.
  intros Hlen l r. rewrite Hlen. change (Z.of_nat 15 / 2) with 7.
  assert (length l = 7%nat) as Hll by (unfold l; rewrite length_take; lia).
  assert (length r = 8%nat) as Hlr by (unfold r; rewrite length_drop; lia).
  assert (es = l ++ r) as Hes by (unfold l, r; by rewrite take_drop).
  unfold left_half, right_half. cbv zeta. change (Z.of_nat 15 / 2) with 7. change (Z.of_nat 15 - 7) with 8.
  split; [|split].
  - assert (Z.to_nat 7 = length l) as -> by (by rewrite Hll).
    pose proof (copy_spec l [] blank (es ++ pad) [] (r ++ pad) 0 0) as Hc. simpl app in Hc.
    rewrite Hc; [|done|done|by rewrite Hes, <-app_assoc|rewrite blank_length; lia].
    unfold mbind, err_bind. rewrite Hll. eexists. split; [done|]. rewrite length_app, length_drop, Hll. done.
  - assert (Z.to_nat 8 = length r) as -> by (by rewrite Hlr).
    pose proof (copy_spec r [] blank (es ++ pad) l pad 7 0) as Hc. simpl app in Hc.
    rewrite Hc; [|done|by rewrite Hll|by rewrite Hes, <-app_assoc|rewrite blank_length; lia].
    unfold mbind, err_bind. rewrite Hlr. eexists. split; [done|]. rewrite length_app, length_drop, Hlr. done.
  - destruct r as [|e r'] eqn:Hr; [done|]. exists e, r'. split; [done|]. rewrite Hes, <-app_assoc. cbn [app].
    apply get_app. by rewrite Hll.
Qed.
End block_lemmas.

(** ** The tree in memory *)
Definition block_holds (es : list KV) (o : obj) : Prop :=
  match o with
  | leaf s size kv => s = bool_decide (es = []) ∧ size = Z.of_nat (length es) ∧ (length es ≤ 14)%nat ∧
      sorted es ∧ ∃ pad, kv = es ++ pad ∧ length kv = 15%nat
  | node _ _ _ _ => False
  end.
#[export] Program Instance blockleaftree_node : TreeNode obj := {
  inner k l r := node k l r false;
  is_root q o := ∃ k, o = node k q 0 false;
  is_leaf_of := block_holds;
  put_child := set_child;
}.
Next Obligation. by intros []. Qed.
Next Obligation. intros c q o (k & ->). by exists k. Qed.

Lemma block_at m a es : leaf_at m a es → ∃ pad, let o := leaf (bool_decide (es = [])) (Z.of_nat (length es)) (es ++ pad) in
  m !! a = Some o ∧ (length es ≤ 14)%nat ∧ sorted es ∧ ∀ k, leaf_find o k = inr (to_map es !! k).
Proof.
  intros (o & Ho & Hh). destruct o as [|s size kv]; simpl in Hh; [done|].
  destruct Hh as (-> & -> & Hle & Hs & pad & -> & _). exists pad. split; [done|]. split; [done|]. split; [done|].
  intros k. simpl. rewrite Nat2Z.id. by apply (block_find_from_spec k es [] pad).
Qed.
Lemma holds_new es pad : es ≠ [] → sorted es → (length es ≤ 14)%nat → length (es ++ pad) = 15%nat →
  block_holds es (leaf false (Z.of_nat (length es)) (es ++ pad)).
Proof.
  intros Hne Hs Hle Hl. simpl. rewrite bool_decide_false by done.
  split_and!; try done. by exists pad.
Qed.

Section proofs.
Context (alloc : gmap Z obj → Z) {fresh : Allocator alloc} (tid : nat) (tid_ok : small_tid tid).
Context (with_epoch : ∀ A, prog (store_state obj) A → prog (store_state obj) A)
  {transparent : EpochTransparent with_epoch}.
#[local] Abbreviation state := (store_state obj).
Context (validate : Z → bool → prog state unit)
  (validate_wp : ∀ A p b (k : unit → prog state A) Q s, wp (k tt) Q s → wp (validate p b ≫= k) Q s).
Implicit Types s : state.

Definition repr (root : Z) (M : gmap Z Z) s : Prop :=
  ∃ t, at_tree root t (nodes s) ∧ M = to_map (entries t) ∧ holding tid ∅ s.

Lemma block_repr_depth root t m M fuel : at_tree (node := obj) root t m → M = to_map (entries t) → enough fuel M →
  (depth t < fuel)%nat.
Proof.
  intros Ht -> Hf. unfold enough in Hf. rewrite to_map_size in Hf by apply bst_sorted, Ht.
  pose proof (sent_depth true t (at_sent _ _ _ Ht)) as Hd. simpl in Hd. lia.
Qed.

(** ** Searching *)
Lemma block_wp_find_from k root s : ∀ t C fuel Q, tree_at (nodes s) t → (depth t < fuel)%nat →
  bounds C k →
  (∀ C' a e, plug C' (L a e) = plug C t → bounds C' k →
     Q ((above_hole root C').1, (above_hole root C').2, (hole root C').1, (hole root C').2, a) s) →
  wp (iter fuel (λ '(gp, gp_left, p, p_left, l),
    n ← load (node_c l);
    if is_leaf n then mret (inr (gp, gp_left, p, p_left, l))
    else
      key ← key_of n;
      l' ← load (child_c l (k <? key));
      mret (inl (p, p_left, l, k <? key, l')))
    ((above_hole root C).1, (above_hole root C).2, (hole root C).1, (hole root C).2, addr t)) Q s.
Proof.
  intros t. induction t as [a e|a key l IHl r IHr]; intros C [|fuel] Q Ht Hf Hb HQ; simpl in Hf; try lia;
    cbn [iter]; rewrite wp_bind.
  - destruct (block_at _ _ _ Ht) as (pad & Hn & _). eapply wp_read; [exact Hn|done|]. cbn [is_leaf].
    unfold wp; cbn [run mret prog_ret]. by apply (HQ C a e).
  - destruct Ht as (Ha & Hl & Hr). change (nodes s !! a = Some (node key (addr l) (addr r) false)) in Ha.
    cbn [addr]. eapply wp_read; [exact Ha|done|]. cbn [is_leaf key_of].
    unfold child_c. eapply wp_read; [exact Ha|done|].
    unfold wp at 1; cbn [run mret prog_ret]. destruct (Z.ltb_spec k key).
    + apply (IHl (Frame a key true r :: C)); [done|lia|by constructor|]. intros C' b e Heq. by apply (HQ C' b e).
    + apply (IHr (Frame a key false l :: C)); [done|lia|by constructor|]. intros C' b e Heq. by apply (HQ C' b e).
Qed.

Lemma block_wp_locate {A} fuel root k t (K : Z * bool * Z * bool * Z → prog state A) Q s :
  at_tree root t (nodes s) → (depth t < fuel)%nat →
  (∀ C a es, leaf_place root t (nodes s) k C a es →
     wp (K ((above_hole root C).1, (above_hole root C).2, (hole root C).1, (hole root C).2, a)) Q s) →
  wp (find_location fuel root k ≫= K) Q s.
Proof.
  intros Ht Hf HK. unfold find_location. rewrite wp_bind.
  destruct (at_root _ _ _ Ht) as (nr & Hroot & k0 & ->). unfold child_c at 1. eapply wp_read; [exact Hroot|done|].
  apply (block_wp_find_from k root s t []); [apply Ht|done|constructor|].
  intros C a e Heq Hb. apply (HK C a e). by apply at_leaf_place.
Qed.

Lemma block_hole_child m root C q : ctx_at (node := obj) m root C q → ∃ k l r,
  m !! (hole root C).1 = Some (node k l r false) ∧ (if (hole root C).2 then l else r) = q.
Proof.
  intros Hc. destruct (hole_node m root C q Hc) as (n & Hm & [[-> (k & ->)]|(k & l & r & -> & Hq)]).
  - by exists k, q, 0.
  - by exists k, l, r.
Qed.

Lemma block_find_wp fuel root k M s : enough fuel M → repr root M s →
  wp (find_ validate fuel root k) (λ r s', r = M !! k ∧ repr root M s') s.
Proof.
  intros Hf (t & Ht & HM & Hh). pose proof (block_repr_depth _ _ _ _ _ Ht HM Hf) as Hd.
  assert (length (entries t) < fuel)%nat as Hlen.
  { unfold enough in Hf. rewrite HM, to_map_size in Hf by apply bst_sorted, Ht. lia. }
  unfold find_. apply (block_wp_locate fuel root k t); [done..|]. intros C a es Hp. cbn iota.
  apply validate_wp. destruct (block_at _ _ _ (lp_leaf _ _ _ _ _ _ _ Hp)) as (pad & Hn & Hle & _ & _).
  eapply wp_read; [exact Hn|done|]. cbn [block_of]. unfold mbind at 1; cbn [mret prog_ret prog_bind pbind].
  rewrite HM, (leaf_lookup _ _ _ _ _ _ _ Hp Ht), <-HM.
  assert (repr root M s) as Hrep by (by exists t).
  assert (∀ e2 e1 fuel i, es = e1 ++ e2 → i = Z.of_nat (length e1) → (k ∉ e1.*1) → (length e2 < fuel)%nat →
    wp (iter fuel (λ i, if i <? Z.of_nat (length es) then
      e ← lift (get (es ++ pad) i);
      if equal e.1 k then mret (inr (Some e.2)) else mret (inl (i + 1))
    else mret (inr None)) i) (λ r s', r = to_map es !! k ∧ repr root M s') s) as Hloop.
  { clear -Hrep. induction e2 as [|[k' v] e2 IH]; intros e1 [|fuel] i Hes Hi Hk Hf; simpl in Hf; try lia;
      cbn [iter]; rewrite wp_bind.
    - rewrite (proj2 (Z.ltb_ge i _)) by (rewrite Hes, app_nil_r; lia).
      unfold wp; cbn [run mret prog_ret]. split; [|done]. rewrite app_nil_r in Hes. subst es.
      symmetry. by apply not_elem_of_list_to_map_1.
    - pose proof (length_app e1 ((k', v) :: e2)) as Hlen. rewrite <-Hes in Hlen. simpl in Hlen.
      rewrite (proj2 (Z.ltb_lt i _)) by lia.
      eapply wp_lift. { rewrite Hes, <-app_assoc. cbn [app]. by apply get_app. }
      rewrite equal_spec. cbn [fst snd]. case_bool_decide as Hkk.
      + unfold wp; cbn [run mret prog_ret]. split; [|done]. subst k' es. unfold to_map.
        rewrite list_to_map_app, lookup_union_r by by apply not_elem_of_list_to_map_1.
        simpl. by rewrite lookup_insert_eq.
      + unfold wp at 1; cbn [run mret prog_ret].
        apply (IH (e1 ++ [(k', v)])); [by rewrite <-app_assoc|rewrite length_app; simpl; lia| |lia].
        rewrite fmap_app, elem_of_app. intros [?|?%list_elem_of_singleton]; [done|]. by apply Hkk. }
  apply (Hloop es [] fuel 0); [done|done|by intros ?%elem_of_nil|].
  pose proof (leaf_length _ _ _ _ _ _ _ Hp). lia.
Qed.

(** ** Updates at a leaf, under the lock of its parent *)
Lemma fresh_insert (m : gmap Z obj) a x b : <[a := x]> m !! b = None → b ≠ a ∧ m !! b = None.
Proof. intros [Hb Hne]%lookup_insert_None. done. Qed.

Section at_leaf.
Context (root k : Z) (t : tree) (C : list frame) (a : Z) (es : list KV) (M : gmap Z Z) (H : gset Z) (s : state).
Context (Ht : at_tree root t (nodes s)) (Hp : leaf_place root t (nodes s) k C a es)
  (HM : M = to_map (entries t)) (Hh : holding tid H s)
  (HHm : ∀ x, x ∈ H → is_Some (nodes s !! x)).

(** the state after an update to the map [M'] *)
Definition updated (M' : gmap Z Z) s' : Prop :=
  holding tid H s' ∧ is_Some (nodes s' !! (hole root C).1) ∧
  ∃ t', at_tree root t' (nodes s') ∧ M' = to_map (entries t').

Lemma new_holding x s1 s2 : holding tid H s1 → nodes s !! x = None → locks s2 = <[x := 0]> (locks s1) → holding tid H s2.
Proof.
  intros H1 Hx Hl. eapply (holding_new tid H s1 _ x); [|done|done]. intros Hxin.
  destruct (HHm x Hxin) as [z Hz]. by rewrite Hx in Hz.
Qed.

Lemma alloc_holding x s1 m rt : holding tid H s1 → nodes s !! x = None →
  holding tid H (mkStore (m : gmap Z obj) (<[x := 0]> (locks s1)) rt).
Proof. intros H1 Hx. by eapply new_holding. Qed.

(** linking in a subtree for the leaf *)
Lemma wp_link {A} sub m' q k' l r M' (K : unit → prog state A) Q s1 :
  nodes s !! (hole root C).1 = Some (node k' l r false) →
  nodes s1 = m' → holding tid H s1 → q = addr sub → (∀ b z, nodes s !! b = Some z → m' !! b = Some z) →
  NoDup (addrs sub) → (∀ b, b ∈ addrs sub → b = a ∨ nodes s !! b = None) → tree_at m' sub → bst sub →
  (∀ e, e ∈ entries sub → e.1 = k ∨ e ∈ es) → sent (lm C) sub →
  (∀ m2, at_tree root (plug C sub) m2 → to_map (entries (plug C sub)) = M') →
  (∀ s', updated M' s' → wp (K tt) Q s') →
  wp (store (child_c (hole root C).1 (hole root C).2) q ≫= K) Q s1.
Proof.
  intros Hn Hs1 Hh1 -> Hgrow Hnd Hsub Htree Hb He Hs HM' HK. unfold child_c.
  eapply wp_write; [rewrite Hs1; by apply Hgrow|done|]. apply HK.
  split; [by apply (holding_same_locks tid H s1)|]. split; [simpl; rewrite lookup_insert_eq; eauto|].
  assert (at_tree root (plug C sub) (<[(hole root C).1 := put_child (hole root C).2 (addr sub) (node k' l r false)]> m')) as Hat
    by by eapply (replace_place root t (nodes s) k C a es).
  exists (plug C sub). split; [simpl; rewrite Hs1; exact Hat|]. symmetry. by eapply HM'.
Qed.

Lemma leaf_sentinal : es = [] ↔ lm C = true.
Proof. apply Hp. Qed.
Lemma sent_full (es' : list KV) : es ≠ [] → es' ≠ [] → es' = [] ↔ lm C = true.
Proof. intros H1 H2. rewrite <-leaf_sentinal. done. Qed.

(** *** A new entry, between [e1] and [e2] *)
Section new_entry.
Context (v : Z) (e1 e2 : list KV) (Hes : es = e1 ++ e2).
Context (k' l r : Z) (Hn : nodes s !! (hole root C).1 = Some (node k' l r false)).

Lemma new_entry_map sub m2 : entries sub = e1 ++ (k, v) :: e2 → at_tree root (plug C sub) m2 →
  to_map (entries (plug C sub)) = <[k := v]> M.
Proof. intros Hsub Hat. rewrite HM. pose proof Hp as Hp'. rewrite Hes in Hp'. by eapply insert_entries. Qed.
Lemma new_entry_elem sub : entries sub = e1 ++ (k, v) :: e2 → ∀ e, e ∈ entries sub → e.1 = k ∨ e ∈ es.
Proof. intros -> e. rewrite Hes, !elem_of_app, elem_of_cons. intros [?|[->|?]]; auto. Qed.

(** three nodes made one after the other *)
Lemma three_nodup (x y z : Z) : x ≠ y → x ≠ z → y ≠ z → NoDup [x; y; z].
Proof.
  intros. repeat (apply NoDup_cons; split); [| | |constructor];
    repeat (rewrite not_elem_of_cons; split); try congruence; by intros ?%elem_of_nil.
Qed.
Lemma three_elem (P : Z → Prop) (x y z : Z) : P x → P y → P z → ∀ b, b ∈ [x; y; z] → P b.
Proof. intros Hx Hy Hz. apply Forall_forall. by repeat constructor. Qed.

Lemma insert_first_wp {A} pad (K : unit → prog state A) Q :
  es = [] → nodes s !! a = Some (leaf true 0 pad) → (∀ s', updated (<[k := v]> M) s' → wp (K tt) Q s') →
  wp (insert_first alloc (hole root C).1 (hole root C).2 a k v ≫= K) Q s.
Proof.
  intros Hnil Ha HK. assert (e1 = [] ∧ e2 = []) as [H1 H2] by (rewrite Hnil in Hes; by destruct e1, e2).
  unfold insert_first, new_leaf. apply wp_assoc, (wp_new alloc). intros y Hy Hy0.
  apply wp_assoc. unfold new_node. apply (wp_new alloc). intros x Hx Hx0. apply fresh_insert in Hx as [Hxy Hx].
  assert (entries (N x k (L a []) (L y [(k, v)])) = e1 ++ (k, v) :: e2) as Hent by (by rewrite H1, H2).
  eapply (wp_link (N x k (L a []) (L y [(k, v)]))); [exact Hn|reflexivity| |done| | | | | | | | |exact HK].
  - apply alloc_holding; [by apply alloc_holding|done].
  - intros b z Hz. simpl. rewrite !lookup_insert_ne by congruence. done.
  - apply three_nodup; congruence.
  - simpl. apply three_elem; auto.
  - simpl. split; [by rewrite lookup_insert_eq|]. split.
    + exists (leaf true 0 pad). rewrite !lookup_insert_ne by congruence. split; [done|].
      pose proof (lp_leaf _ _ _ _ _ _ _ Hp) as (o & Ho & Hol). rewrite Ho in Ha. injection Ha as ->. by rewrite Hnil in Hol.
    + eexists. rewrite lookup_insert_ne, lookup_insert_eq by done. split; [done|]. simpl.
      split; [done|]. split; [done|]. split; [lia|]. split; [by repeat constructor|]. by exists (replicate 14 (0, 0)).
  - simpl. split; [constructor|]. split; [by repeat constructor|]. split; by repeat constructor.
  - by apply new_entry_elem.
  - simpl. rewrite <-leaf_sentinal. by split.
  - intros m2. by apply new_entry_map.
Qed.


Lemma split_block_wp {A} es1 pad1 y s1 (K : unit → prog state A) Q : es1 = e1 ++ (k, v) :: e2 → es ≠ [] → length es1 = 15%nat →
  sorted es1 → nodes s !! y = None → nodes s1 = <[y := leaf false (Z.of_nat (length es1)) (es1 ++ pad1)]> (nodes s) →
  holding tid H s1 → (∀ s', updated (<[k := v]> M) s' → wp (K tt) Q s') →
  wp (link_block alloc (hole root C).1 (hole root C).2 (Z.of_nat (length es1), es1 ++ pad1) y ≫= K) Q s1.
Proof.
  intros Hes1 Hne Hl15 Hsort1 Hy Hs1 Hh1 HK.
  destruct (halves_spec es1 pad1 Hl15) as ((padl & Hleft & Hpl) & (padr & Hright & Hpr) & e & r' & Hr & Hget).
  set (bl := take 7 es1) in *. set (br := drop 7 es1) in *.
  assert (es1 = bl ++ br) as Hbb by (unfold bl, br; by rewrite take_drop).
  assert (length bl = 7%nat) as Hll by (unfold bl; rewrite length_take; lia).
  assert (length br = 8%nat) as Hlr by (unfold br; rewrite length_drop; lia).
  assert (bl ≠ [] ∧ br ≠ []) as [Hnl Hnr] by (split; intros Hz; by rewrite Hz in *).
  rewrite Hbb in Hsort1. apply sorted_app in Hsort1 as (Hsl & Hsr & Hcross).
  unfold link_block. cbn [fst snd]. rewrite (proj2 (Z.ltb_lt _ _)) by (change block_size with 14; lia).
  apply wp_assoc. eapply wp_lift; [exact Hleft|]. unfold new_leaf at 1. apply wp_assoc, (wp_new alloc). rewrite Hs1.
  intros yl [Hyly Hyl]%fresh_insert Hyl0.
  apply wp_assoc. eapply wp_lift; [exact Hright|]. apply wp_assoc, (wp_new alloc).
  intros yr [Hyryl [Hyry Hyr]%fresh_insert]%fresh_insert Hyr0.
  apply wp_assoc. eapply wp_lift; [exact Hget|]. unfold new_node at 1. apply wp_assoc, (wp_new alloc).
  intros x [Hxyr [Hxyl [Hxy Hx]%fresh_insert]%fresh_insert]%fresh_insert Hx0. cbn [fst snd]. apply wp_assoc.
  assert (entries (N x e.1 (L yl bl) (L yr br)) = e1 ++ (k, v) :: e2) as Hent by (simpl; by rewrite <-Hbb).
  eapply (wp_link (N x e.1 (L yl bl) (L yr br))); [exact Hn|reflexivity| |done| | | | | | | | |].
  - do 3 (apply alloc_holding; [|done]). done.
  - intros b z Hz. simpl. rewrite !lookup_insert_ne by congruence. done.
  - apply three_nodup; congruence.
  - simpl. apply three_elem; auto.
  - simpl. split; [by rewrite lookup_insert_eq|]. split; eexists.
    + rewrite lookup_insert_ne, lookup_insert_ne, lookup_insert_eq by done. split; [done|]. apply holds_new; [done|done|lia|done].
    + rewrite lookup_insert_ne, lookup_insert_eq by done. split; [done|]. apply holds_new; [done|done|lia|done].
  - simpl. rewrite Hr in Hcross, Hsr |- *. split; [|split; [|by rewrite <-Hr in *]].
    + apply Forall_forall. intros p Hin'. apply (Hcross p e); [done|by left].
    + destruct e as [ke ve]. apply sorted_cons in Hsr as [Hke _]. constructor; [done|].
      eapply Forall_impl; [exact Hke|]. simpl. lia.
  - by apply new_entry_elem.
  - simpl. split; [by apply sent_full|done].
  - intros m2. by apply new_entry_map.
  - intros s' (Hh' & Hx' & Hat'). apply wp_retire, HK.
    split; [by apply (holding_same_locks tid H s')|]. by split.
Qed.

Lemma link_block_wp {A} es1 pad1 y s1 (K : unit → prog state A) Q : es1 = e1 ++ (k, v) :: e2 → es ≠ [] →
  (length es ≤ 14)%nat → length (es1 ++ pad1) = 15%nat → sorted es1 → nodes s !! y = None →
  nodes s1 = <[y := leaf false (Z.of_nat (length es1)) (es1 ++ pad1)]> (nodes s) → holding tid H s1 →
  (∀ s', updated (<[k := v]> M) s' → wp (K tt) Q s') →
  wp (link_block alloc (hole root C).1 (hole root C).2 (Z.of_nat (length es1), es1 ++ pad1) y ≫= K) Q s1.
Proof.
  intros Hes1 Hne Hle Hlen Hsort1 Hy Hs1 Hh1 HK.
  assert (length es1 = S (length es)) as Hl1 by (rewrite Hes1, Hes, !length_app; simpl; lia).
  destruct (decide (length es1 = 15%nat)) as [Hl15|Hl14]; [by eapply split_block_wp|].
  assert (es1 ≠ []) as Hne1 by (intros Heq; by rewrite Heq in Hl1).
  unfold link_block. cbn [fst snd]. rewrite (proj2 (Z.ltb_ge _ _)) by (change block_size with 14; lia).
  eapply (wp_link (L y es1)); [exact Hn|exact Hs1|exact Hh1|done| | | | | | | | |exact HK].
  - intros b z Hz. rewrite lookup_insert_ne by congruence. done.
  - apply NoDup_singleton.
  - simpl. intros b ->%list_elem_of_singleton. by right.
  - eexists. simpl. rewrite lookup_insert_eq. split; [done|]. apply holds_new; [done|done|lia|done].
  - done.
  - by apply new_entry_elem.
  - simpl. by apply sent_full.
  - intros m2. by apply new_entry_map.
Qed.
End new_entry.

Lemma insert_locked_wp v pad : (length es ≤ 14)%nat → sorted es → M !! k = None →
  nodes s !! a = Some (leaf (bool_decide (es = [])) (Z.of_nat (length es)) (es ++ pad)) →
  wp (insert_locked alloc (hole root C).1 (hole root C).2 a k v
        (leaf (bool_decide (es = [])) (Z.of_nat (length es)) (es ++ pad)))
     (λ b s', b = true ∧ updated (<[k := v]> M) s') s.
Proof.
  intros Hle Hsort HMk Ha. destruct (block_hole_child _ _ _ _ (lp_ctx _ _ _ _ _ _ _ Hp)) as (k' & l & r & Hn & Hq).
  rewrite HM, (leaf_lookup _ _ _ _ _ _ _ Hp Ht) in HMk.
  pose proof (sorted_place k es Hsort) as Hpl. rewrite HMk in Hpl. destruct Hpl as (e1 & e2 & Hes & Hb & Hab).
  unfold insert_locked, child_c. eapply wp_read; [exact Hn|done|]. eapply wp_read; [exact Hn|done|].
  rewrite Hq. cbn [orb]. rewrite Z.eqb_refl. cbn [negb block_of].
  unfold mbind at 1; cbn [mret prog_ret prog_bind pbind].
  case_bool_decide as Hnil.
  - rewrite Hnil in Ha. eapply (insert_first_wp v e1 e2 Hes k' l r Hn); [exact Hnil|exact Ha|]. intros s' Hs'. by split.
  - destruct (insert_block_spec e1 e2 pad k v Hb Hab) as (pad1 & Hblock & Hlen1); [by rewrite <-Hes|].
    rewrite <-Hes in Hblock. eapply wp_lift; [exact Hblock|].
    unfold new_leaf at 1. apply (wp_new alloc). intros y Hy Hy0. cbn [fst snd].
    eapply (link_block_wp v e1 e2 Hes k' l r Hn); [done|done|done|done| |exact Hy|done|by apply alloc_holding|].
    { apply sorted_insert; [by rewrite <-Hes|done|done]. }
    intros s' (Hh' & Hx & Hat'). apply wp_retire. split; [done|].
    split; [by apply (holding_same_locks tid H s')|by split].
Qed.

Lemma remove_locked_wp e1 v e2 pad : es = e1 ++ (k, v) :: e2 → (length es ≤ 14)%nat → e1 ++ e2 ≠ [] →
  nodes s !! a = Some (leaf (bool_decide (es = [])) (Z.of_nat (length es)) (es ++ pad)) →
  wp (remove_locked alloc (hole root C).1 (hole root C).2 a k (Z.of_nat (length es)) (es ++ pad))
     (λ b s', b = true ∧ updated (delete k M) s') s.
Proof.
  intros Hes Hle Hne Ha. destruct (block_hole_child _ _ _ _ (lp_ctx _ _ _ _ _ _ _ Hp)) as (k' & l & r & Hn & Hq).
  pose proof (lp_sorted _ _ _ _ _ _ _ Hp) as Hsort. rewrite Hes in Hsort.
  apply sorted_delete in Hsort as (Hsort & Hb & Hab).
  unfold remove_locked, child_c. eapply wp_read; [exact Hn|done|]. eapply wp_read; [exact Hn|done|].
  rewrite Hq. cbn [orb]. rewrite Z.eqb_refl. cbn [negb].
  destruct (remove_block_spec e1 k v e2 pad Hb Hab) as (pad1 & Hblock & Hlen1); [by rewrite <-Hes|].
  rewrite <-Hes in Hblock. eapply wp_lift; [exact Hblock|].
  assert (length es = S (length (e1 ++ e2))) as Hl1 by (rewrite Hes, !length_app; simpl; lia).
  unfold new_leaf. apply (wp_new alloc). intros y Hy Hy0. cbn [fst snd].
  eapply (wp_link (L y (e1 ++ e2)) _ _ _ _ _ (delete k M)); [exact Hn|reflexivity| |done| | | | | | | | |].
  - by apply alloc_holding.
  - intros b z Hz. simpl. rewrite lookup_insert_ne by congruence. done.
  - simpl. apply NoDup_singleton.
  - simpl. intros b ->%list_elem_of_singleton. by right.
  - eexists. simpl. rewrite lookup_insert_eq. split; [done|]. apply holds_new; [done|done|lia|done].
  - done.
  - simpl. intros e. rewrite Hes, !elem_of_app, elem_of_cons. tauto.
  - simpl. apply sent_full; [|done]. rewrite Hes. by destruct e1.
  - intros m2 _. rewrite HM. pose proof Hp as Hp'. rewrite Hes in Hp'. by eapply delete_entries.
  - intros s' (Hh' & Hx' & Hat'). apply wp_retire. split; [done|].
    split; [by apply (holding_same_locks tid H s')|]. split; [exact Hx'|exact Hat'].
Qed.
End at_leaf.

(** ** The rounds of insert and remove *)
Lemma block_insert_wp fuel root k v M s : enough fuel M → repr root M s →
  wp (insert_round alloc tid fuel root k v) (λ r s', ∃ b, r = Some b ∧
    b = bool_decide (M !! k = None) ∧ repr root (if b then <[k := v]> M else M) s') s.
Proof.
  intros Hf (t & Ht & HM & Hh). pose proof (block_repr_depth _ _ _ _ _ Ht HM Hf) as Hd.
  unfold insert_round. apply (block_wp_locate fuel root k t); [done..|]. intros C a es Hp. cbn iota.
  destruct (block_at _ _ _ (lp_leaf _ _ _ _ _ _ _ Hp)) as (pad & Hn & Hle & Hsort & Hfind). simpl in Hn.
  pose proof (leaf_lookup _ _ _ _ _ _ _ Hp Ht) as Hlk. rewrite <-HM in Hlk.
  eapply wp_read; [exact Hn|done|]. eapply wp_lift; [apply Hfind|]. rewrite <-Hlk.
  destruct (block_hole_child _ _ _ _ (lp_ctx _ _ _ _ _ _ _ Hp)) as (k' & l & r & Hnp & _).
  destruct (M !! k) as [w|] eqn:HMk; cbn [bool_decide].
  - exists false. split; [done|]. split; [done|]. by exists t.
  - eapply (wp_try_lock tid tid_ok ∅); [exact Hh|apply not_elem_of_empty|exact Hnp|].
    intros s1 Hs1 Hr1 Hh1. rewrite <-Hs1 in *.
    assert (∀ x, x ∈ ({[(hole root C).1]} ∪ ∅ : gset Z) → is_Some (nodes s1 !! x)) as HHm.
    { intros x [->%elem_of_singleton|?%elem_of_empty]%elem_of_union; [eauto|done]. }
    eapply wp_mono; [|apply (insert_locked_wp root k t C a es M ({[(hole root C).1]} ∪ ∅) s1); done].
    intros b s2 [-> (Hh2 & Hx2 & t' & Ht' & HM')]. split; [done|]. split; [done|].
    intros s3 Hs3 _ Hh3. exists true. split; [done|]. split; [done|]. exists t'. by rewrite Hs3.
Qed.

(** taking out the last entry of a leaf, under the lock of the grandparent *)
Lemma remove_leaf_wp root t k v f C a M s : at_tree root t (nodes s) →
  leaf_place root t (nodes s) k (f :: C) a [(k, v)] → M = to_map (entries t) →
  holding tid ({[(hole root C).1]} ∪ ∅) s →
  wp (remove_leaf_locked tid (hole root C).1 (hole root C).2 (f_addr f) (f_left f) a)
     (λ b s', b = true ∧ holding tid ({[(hole root C).1]} ∪ ∅) s' ∧ is_Some (nodes s' !! (hole root C).1) ∧
        ∃ t', at_tree root t' (nodes s') ∧ delete k M = to_map (entries t')) s.
Proof.
  intros Ht Hp HM Hh. destruct (lp_ctx _ _ _ _ _ _ _ Hp) as (Hpf & Hsib & Hc).
  destruct (block_hole_child _ _ _ _ Hc) as (k' & l & r & Hn & Hq).
  assert (f_addr f ≠ (hole root C).1) as Hne.
  { pose proof (lp_nodup _ _ _ _ _ _ _ Hp) as Hnd. pose proof (hole_in root C) as Hin.
    apply NoDup_cons in Hnd as [Hr [Hfn _]%NoDup_cons]. intros Heq. rewrite <-Heq in Hin.
    apply elem_of_cons in Hin as [Hin|Hin]; [apply Hr; rewrite <-Hin; by left|].
    apply Hfn. rewrite !elem_of_app. auto. }
  unfold remove_leaf_locked, child_c. eapply wp_read; [exact Hn|done|]. eapply wp_read; [exact Hn|done|].
  rewrite Hq. cbn [orb]. rewrite Z.eqb_refl. cbn [negb]. apply wp_bind_ret.
  eapply (wp_try_lock tid tid_ok); [exact Hh| |exact Hpf|].
  { by intros [?%elem_of_singleton|?%elem_of_empty]%elem_of_union. }
  intros s2 Hs2 Hr2 Hh2. rewrite <-Hs2 in *.
  assert (∀ b, get_child b (frame_node f a) = inr (if decide (b = f_left f) then a else addr (f_sib f))) as Hget.
  { intros b. unfold frame_node. by destruct b, (f_left f). }
  eapply wp_read; [exact Hpf|apply Hget|]. eapply wp_read; [exact Hpf|apply Hget|].
  replace (if f_left f then _ else _) with (addr (f_sib f), a) by (by destruct (f_left f)).
  cbn iota. rewrite Z.eqb_refl. cbn [negb].
  eapply wp_write; [exact Hpf|unfold frame_node; destruct (f_left f); reflexivity|].
  eapply wp_write; [cbn [nodes set_nodes]; rewrite lookup_insert_ne by done; exact Hn|done|].
  apply wp_retire. apply wp_retire.
  unfold wp; cbn [run mret prog_ret nodes locks set_nodes retired].
  split; [by apply (holding_same_locks tid _ s2)|].
  split; [rewrite lookup_insert_ne, lookup_insert_eq by done; eauto|].
  intros s3 Hs3 _ Hh3. unfold wp; cbn [run mret prog_ret].
  split; [done|]. split; [done|]. split; [rewrite Hs3, lookup_insert_eq; eauto|].
  edestruct (remove_place root t (nodes s2) k v f C a) as [Hat Hmap]; [exact Ht|exact Hp|exact Hn|].
  eexists. split; [rewrite Hs3; exact Hat|]. by rewrite Hmap, HM.
Qed.

Lemma block_remove_wp fuel root k M s : enough fuel M → repr root M s →
  wp (remove_round alloc tid fuel root k) (λ r s', ∃ b, r = Some b ∧
    b = bool_decide (is_Some (M !! k)) ∧ repr root (delete k M) s') s.
Proof.
  intros Hf (t & Ht & HM & Hh). pose proof (block_repr_depth _ _ _ _ _ Ht HM Hf) as Hd.
  unfold remove_round. apply (block_wp_locate fuel root k t); [done..|]. intros C a es Hp. cbn iota.
  destruct (block_at _ _ _ (lp_leaf _ _ _ _ _ _ _ Hp)) as (pad & Hn & Hle & Hsort & Hfind). simpl in Hn.
  pose proof (leaf_lookup _ _ _ _ _ _ _ Hp Ht) as Hlk. rewrite <-HM in Hlk.
  eapply wp_read; [exact Hn|done|]. eapply wp_lift; [apply Hfind|]. rewrite <-Hlk.
  pose proof (sorted_place k es Hsort) as Hpl. rewrite <-Hlk in Hpl.
  destruct (M !! k) as [v|] eqn:HMk; cbn [bool_decide negb].
  - destruct Hpl as (e1 & e2 & Hes & _). cbn [block_of]. unfold mbind at 1; cbn [mret prog_ret prog_bind pbind].
    destruct (Z.ltb_spec 1 (Z.of_nat (length es))) as [Hbig|Hone].
    + destruct (block_hole_child _ _ _ _ (lp_ctx _ _ _ _ _ _ _ Hp)) as (k' & l & r & Hnp & _).
      eapply (wp_try_lock tid tid_ok ∅); [exact Hh|apply not_elem_of_empty|exact Hnp|].
      intros s1 Hs1 Hr1 Hh1. rewrite <-Hs1 in *.
      assert (∀ x, x ∈ ({[(hole root C).1]} ∪ ∅ : gset Z) → is_Some (nodes s1 !! x)) as HHm.
      { intros x [->%elem_of_singleton|?%elem_of_empty]%elem_of_union; [eauto|done]. }
      assert (e1 ++ e2 ≠ []) as Hne.
      { intros Hnil. assert (length (e1 ++ e2) = 0%nat) as Hl0 by (by rewrite Hnil).
        rewrite Hes, length_app in Hbig. rewrite length_app in Hl0. simpl in Hbig. lia. }
      eapply wp_mono; [|apply (remove_locked_wp root k t C a es M ({[(hole root C).1]} ∪ ∅) s1) with (v := v) (e1 := e1) (e2 := e2); try done].
      intros b s2 [-> (Hh2 & Hx2 & t' & Ht' & HM')]. split; [done|]. split; [done|].
      intros s3 Hs3 _ Hh3. exists true. split; [done|]. split; [done|]. exists t'. by rewrite Hs3.
    + assert (e1 = [] ∧ e2 = []) as [-> ->].
      { rewrite Hes, length_app in Hone. simpl in Hone. destruct e1, e2; simpl in Hone; (done || lia). }
      simpl in Hes. subst es. eapply wp_lift; [reflexivity|]. rewrite equal_spec, bool_decide_true by done.
      assert (∃ f C', C = f :: C') as (f & C' & ->).
      { destruct C as [|f C']; [|eauto]. pose proof (lp_lm _ _ _ _ _ _ _ Hp) as [_ Hlm].
        by specialize (Hlm eq_refl). }
      cbn [above_hole hole fst snd]. destruct (lp_ctx _ _ _ _ _ _ _ Hp) as (_ & _ & Hc).
      destruct (block_hole_child _ _ _ _ Hc) as (k' & l & r & Hnp & _).
      eapply (wp_try_lock tid tid_ok ∅); [exact Hh|apply not_elem_of_empty|exact Hnp|].
      intros s1 Hs1 Hr1 Hh1. rewrite <-Hs1 in *.
      eapply wp_mono; [|by eapply (remove_leaf_wp root t k v f C' a M s1)].
      intros b s2 (-> & Hh2 & Hx2 & t' & Ht' & HM'). split; [done|]. split; [done|].
      intros s3 Hs3 _ Hh3. exists true. split; [done|]. split; [done|]. exists t'. by rewrite Hs3.
  - exists false. split; [done|]. split; [done|]. rewrite delete_id by done. by exists t.
Qed.

Definition ops (root : Z) : dict_ops state :=
  DictOps (λ fuel, find with_epoch validate fuel root) (λ fuel, insert alloc tid with_epoch fuel root)
    (λ fuel, remove alloc tid with_epoch fuel root).

#[export] Instance block_dictionary root : Dictionary (ops root) (repr root).
Proof.
  split; intros [|fuel]; intros; try (by unfold enough in *; lia);
    simpl; unfold find, insert, remove; apply with_epoch_wp;
    [by apply block_find_wp|apply wp_try_loop..].
  - by apply block_insert_wp.
  - by apply block_remove_wp.
Qed.

Lemma block_empty_wp k0 s : holding tid ∅ s → wp (empty alloc k0) (λ root s', repr root ∅ s') s.
Proof.
  intros Hh. unfold empty, new_root. apply (wp_new alloc). intros p Hp Hp0.
  apply wp_bind_ret. apply (wp_new alloc). intros q Hq Hq0. simpl in Hq. apply fresh_insert in Hq as [Hqp Hq].
  unfold wp; cbn [run mret prog_ret]. exists (L p []). split; [split|split].
  - exists (node k0 p 0 false). simpl. rewrite lookup_insert_eq. eauto.
  - exists (leaf true 0 blank). simpl. rewrite lookup_insert_ne, lookup_insert_eq by done. split; [done|].
    split_and!; [done|done|lia|constructor|]. by exists blank.
  - simpl. repeat constructor; [intros Hin%list_elem_of_singleton; congruence|by intros ?%elem_of_nil].
  - constructor.
  - done.
  - done.
  - eapply (holding_new tid ∅ (mkStore ∅ (<[p := 0]> (locks s)) []) _ q); [apply not_elem_of_empty|done|].
    by eapply (holding_new tid ∅ s _ p); [apply not_elem_of_empty|..].
Qed.

(** C14: a newly made block tree answers any sequence of finds, inserts and
    removes of one thread as a finite map does: blocks are copied, split and
    emptied without leaving their arrays, and the search order is kept. *)
Theorem blockleaftree_refines_map k0 fuel cs s : holding tid ∅ s → (length cs + 4 ≤ fuel)%nat →
  wp (session (empty alloc k0) ops fuel cs) (λ answers s',
    answers = (meaning_all cs ∅).1 ∧ ∃ root, repr root (meaning_all cs ∅).2 s') s.
Proof. intros Hlk Hf. eapply session_refines; [apply _|by apply block_empty_wp|done]. Qed.

(** ** Rotations *)
(** the subtree at [p] with its child at [c] rotated above it; [n] and [x] are
    the copies of [p] and [c] *)
Definition rotated (on_left : bool) (pk ck x n : Z) (A B D : tree) : tree :=
  if on_left then N x ck A (N n pk B D) else N x ck (N n pk D A) B.
Definition unrotated (on_left : bool) (p pk c ck : Z) (A B D : tree) : tree :=
  if on_left then N p pk (N c ck A B) D else N p pk D (N c ck A B).

Lemma rotated_entries on_left p pk c ck x n A B D :
  entries (rotated on_left pk ck x n A B D) = entries (unrotated on_left p pk c ck A B D).
Proof. destruct on_left; simpl; by rewrite <-app_assoc. Qed.
Lemma rotated_sent b on_left p pk c ck x n A B D :
  sent b (unrotated on_left p pk c ck A B D) → sent b (rotated on_left pk ck x n A B D).
Proof. destruct on_left; simpl; tauto. Qed.
Lemma sent_entry t : sent false t → ∃ e, e ∈ entries t.
Proof.
  intros Hs. apply sent_depth in Hs. destruct (entries t) as [|e l]; [simpl in Hs; lia|]. exists e. by left.
Qed.
Lemma rotated_bst b on_left p pk c ck x n A B D : sent b (unrotated on_left p pk c ck A B D) →
  bst (unrotated on_left p pk c ck A B D) → bst (rotated on_left pk ck x n A B D).
Proof.
  destruct on_left; simpl.
  - intros [[_ HB] _] ([HlA HlB]%below_app & HD & (HA & HckB & HbA & HbB) & HbD).
    destruct (sent_entry B HB) as [e He]. unfold below in HlB. rewrite Forall_forall in HlB, HckB.
    assert (ck ≤ pk) by (specialize (HlB e He); specialize (HckB e He); simpl in *; lia).
    split; [done|]. split; [|split; [done|split; [by apply Forall_forall|split; [done|split; done]]]].
    apply Forall_app. split; [by apply Forall_forall|]. eapply Forall_impl; [exact HD|]. simpl. lia.
  - intros [_ [HA _]] (HD & [HlA HlB]%Forall_app & HbD & HAck & HckB & HbA & HbB).
    destruct (sent_entry A HA) as [e He]. unfold below in HAck. rewrite Forall_forall in HlA, HAck.
    assert (pk ≤ ck) by (specialize (HlA e He); specialize (HAck e He); simpl in *; lia).
    split; [|split; [done|split; [|done]]].
    + apply below_app. split; [|by apply Forall_forall]. eapply Forall_impl; [exact HD|]. simpl. lia.
    + split; [done|]. split; [by apply Forall_forall|done].
Qed.

Lemma plug_same C t1 t2 : entries t1 = entries t2 → entries (plug C t1) = entries (plug C t2).
Proof.
  revert t1 t2. induction C as [|f C IH]; [done|]. intros t1 t2 Ht. simpl. apply IH.
  destruct (f_left f); simpl; by rewrite Ht.
Qed.

Lemma unrotated_addrs on_left p pk c ck A B D :
  addrs (unrotated on_left p pk c ck A B D) ≡ₚ p :: c :: addrs A ++ addrs B ++ addrs D.
Proof. destruct on_left; simpl; solve_Permutation. Qed.
Lemma rotated_addrs on_left pk ck x n A B D :
  addrs (rotated on_left pk ck x n A B D) ≡ₚ x :: n :: addrs A ++ addrs B ++ addrs D.
Proof. destruct on_left; simpl; solve_Permutation. Qed.
Lemma unrotated_nodes m on_left p pk c ck A B D : tree_at m (unrotated on_left p pk c ck A B D) →
  ∃ l r, m !! p = Some (node pk l r false) ∧ m !! c = Some (node ck (addr A) (addr B) false) ∧
    (if on_left then r else l) = addr D ∧ (if on_left then l else r) = c ∧
    tree_at m A ∧ tree_at m B ∧ tree_at m D.
Proof. destruct on_left; intros (Hp & H1 & H2); [destruct H1|destruct H2]; eexists _, _; (split; [exact Hp|tauto]). Qed.

(** the two copies, linked in for the subtree *)
Lemma rotated_place root C on_left p pk c ck A B D m m2 x n hk hl hr :
  at_tree root (plug C (unrotated on_left p pk c ck A B D)) m →
  m !! (hole root C).1 = Some (node hk hl hr false) →
  m !! x = None → m !! n = None → x ≠ n →
  (∀ y, y ≠ (hole root C).1 → y ≠ p → y ≠ c → is_Some (m !! y) → m2 !! y = m !! y) →
  m2 !! (hole root C).1 = Some (set_child (hole root C).2 x (node hk hl hr false)) →
  m2 !! n = Some (if on_left then node pk (addr B) (addr D) false else node pk (addr D) (addr A) false) →
  m2 !! x = Some (if on_left then node ck (addr A) n false else node ck n (addr B) false) →
  at_tree root (plug C (rotated on_left pk ck x n A B D)) m2.
Proof.
  intros [Hr Ht Hnd Hb Hs] Hn.
  destruct (proj1 (ctx_plug m root C _ _ eq_refl) (conj Hr Ht)) as [Hc HT].
  destruct (unrotated_nodes _ _ _ _ _ _ _ _ _ HT) as (pl & pr & Hpn & Hcn & HD & _ & HA & HB & HtD).
  apply plug_bst in Hb as (Hb1 & Hb2 & Hb3). apply plug_sent in Hs as [Hs1 Hs2].
  rewrite plug_addrs in Hnd. rewrite app_comm_cons in Hnd. apply NoDup_app in Hnd as (Hnd1 & Hnd2 & Hnd3).
  intros Hx Hnn Hxn Hsame Hhole Hmn Hmx. rewrite unrotated_addrs in Hnd3.
  setoid_rewrite unrotated_addrs in Hnd2.
  apply NoDup_cons in Hnd3 as [Hpin [Hcin Hnd3]%NoDup_cons].
  assert (∀ y, y ∈ p :: c :: addrs A ++ addrs B ++ addrs D → y ≠ (hole root C).1) as Hhd.
  { intros y Hy ->. by apply (Hnd2 _ (hole_in root C)). }
  assert (∀ t, (∀ y, y ∈ addrs t → y ∈ addrs A ++ addrs B ++ addrs D) → tree_at m t → tree_at m2 t) as Hfr.
  { intros t Hsub Htt. eapply tree_frame; [|exact Htt]. intros y Hy. pose proof (Hsub y Hy) as Hy2. apply Hsame.
    - apply Hhd. right. by right.
    - intros ->. apply Hpin. by right.
    - by intros ->.
    - by eapply tree_addr. }
  assert (∀ y, m !! y = None → (y ∉ root :: caddrs C) ∧ y ∉ addrs A ++ addrs B ++ addrs D) as Hfresh.
  { intros y Hy. split; [intros Hin; by destruct (ctx_addr _ _ _ _ _ Hc Hin) as [z Hz]; rewrite Hz in Hy|].
    rewrite !elem_of_app. intros [Hin|[Hin|Hin]];
      [destruct (tree_addr _ _ _ HA Hin)|destruct (tree_addr _ _ _ HB Hin)|destruct (tree_addr _ _ _ HtD Hin)]; congruence. }
  destruct (Hfresh x Hx) as [Hx1 Hx2]. destruct (Hfresh n Hnn) as [Hn1 Hn2].
  apply at_tree_plug.
  - assert (addr (rotated on_left pk ck x n A B D) = x) as -> by (by destruct on_left).
    eapply ctx_frame; [|eapply (ctx_set (m) root C _ x); [exact Hnd1|exact Hc|exact Hn]].
    intros y Hy. destruct (decide (y = (hole root C).1)) as [->|Hyh]; [rewrite lookup_insert_eq; exact Hhole|].
    rewrite lookup_insert_ne by done. apply Hsame; [done| | |by eapply ctx_addr].
    + intros ->. apply (Hnd2 _ Hy). by left.
    + intros ->. apply (Hnd2 _ Hy). right. by left.
  - unfold rotated. destruct on_left; simpl.
    + split; [exact Hmx|]. split; [apply Hfr; [intros y; rewrite !elem_of_app; auto|done]|].
      split; [exact Hmn|]. split; (apply Hfr; [intros y; rewrite !elem_of_app; auto|done]).
    + split; [exact Hmx|]. split; [|apply Hfr; [intros y; rewrite !elem_of_app; auto|done]].
      split; [exact Hmn|]. split; (apply Hfr; [intros y; rewrite !elem_of_app; auto|done]).
  - rewrite rotated_addrs, app_comm_cons. apply NoDup_app. split; [done|]. split.
    + intros y Hy [->|[->|Hin]%elem_of_cons]%elem_of_cons; [done|done|]. apply (Hnd2 y Hy). right. by right.
    + repeat (apply NoDup_cons; split); [|done|done]. by intros [?|?]%elem_of_cons.
  - done.
  - by eapply rotated_bst.
  - by rewrite (rotated_entries on_left p pk c ck).
  - done.
  - by eapply rotated_sent.
Qed.

Lemma rotate_wp root C on_left p pk c ck A B D H s :
  at_tree root (plug C (unrotated on_left p pk c ck A B D)) (nodes s) →
  holding tid H s → (∀ y, y ∈ H → is_Some (nodes s !! y)) →
  wp (rotate alloc (hole root C).1 (hole root C).2 p c on_left) (λ b s', b = true ∧
    holding tid H s' ∧ (∀ y, is_Some (nodes s !! y) → is_Some (nodes s' !! y)) ∧
    ∃ x n, at_tree root (plug C (rotated on_left pk ck x n A B D)) (nodes s')) s.
Proof.
  intros Hat Hh HHm. pose proof Hat as [Hr Ht Hnd _ _].
  destruct (proj1 (ctx_plug (nodes s) root C _ _ eq_refl) (conj Hr Ht)) as [Hc HT].
  rewrite plug_addrs in Hnd. rewrite app_comm_cons in Hnd. apply NoDup_app in Hnd as (_ & Hnd2 & Hnd3).
  destruct (block_hole_child _ _ _ _ Hc) as (hk & hl & hr & Hn & _).
  destruct (unrotated_nodes _ _ _ _ _ _ _ _ _ HT) as (pl & pr & Hpn & Hcn & HD & _ & _).
  assert (∀ y, is_Some (nodes s !! y) → nodes s !! y ≠ None) as Hold by (by intros y [? ->]).
  assert (p ≠ (hole root C).1 ∧ c ≠ (hole root C).1 ∧ p ≠ c) as (Hpg & Hcg & Hpc).
  { pose proof (hole_in root C) as Hin. split; [|split].
    - intros Heq. apply (Hnd2 _ Hin). rewrite unrotated_addrs, <-Heq. by left.
    - intros Heq. apply (Hnd2 _ Hin). rewrite unrotated_addrs, <-Heq. right. by left.
    - rewrite unrotated_addrs in Hnd3. intros ->. apply NoDup_cons in Hnd3 as [Hnin _]. apply Hnin. by left. }
  set (Q := λ (b : bool) (s' : state), _).
  assert (∀ x n s1, nodes s !! x = None → nodes s !! n = None → x ≠ n → holding tid H s1 →
    nodes s1 = <[(hole root C).1 := set_child (hole root C).2 x (node hk hl hr false)]>
      (<[x := if on_left then node ck (addr A) n false else node ck n (addr B) false]>
        (<[n := if on_left then node pk (addr B) (addr D) false else node pk (addr D) (addr A) false]> (nodes s))) →
    wp (store (removed_c p) true ;; retire p ;; store (removed_c c) true ;; retire c ;; mret true) Q s1) as Htail.
  { intros x n s1 Hx Hnn Hxn Hh1 Hns. assert (x ≠ (hole root C).1) by congruence. assert (n ≠ (hole root C).1) by congruence.
    eapply wp_write; [rewrite Hns, !lookup_insert_ne by congruence; exact Hpn|done|]. apply wp_retire.
    eapply wp_write; [cbn [nodes set_nodes]; rewrite lookup_insert_ne, Hns, !lookup_insert_ne by congruence; exact Hcn|done|].
    apply wp_retire. unfold wp; cbn [run mret prog_ret nodes locks set_nodes retired].
    split; [done|]. split; [by apply (holding_same_locks tid H s1)|]. split.
    - intros y Hy. cbn [nodes set_nodes]. rewrite Hns. by repeat (apply lookup_insert_is_Some'; right).
    - exists x, n. apply (rotated_place root C on_left p pk c ck A B D (nodes s) _ x n hk hl hr); [done..| | | |];
        cbn [nodes set_nodes]; rewrite ?Hns.
      + intros y ??? Hy%Hold. rewrite !lookup_insert_ne by congruence. done.
      + rewrite lookup_insert_ne, lookup_insert_ne, lookup_insert_eq by congruence. done.
      + rewrite !lookup_insert_ne, lookup_insert_eq by congruence. done.
      + rewrite lookup_insert_ne, lookup_insert_ne, lookup_insert_ne, lookup_insert_eq by congruence. done. }
  assert (∀ x s1 s2, nodes s !! x = None → holding tid H s1 → locks s2 = <[x := 0]> (locks s1) →
    holding tid H s2) as Hnew.
  { intros x s1 s2 Hx H1 Hl. eapply (holding_new tid H s1 _ x); [|done|done].
    intros Hin. by apply (Hold x (HHm x Hin)). }
  unfold rotate, child_c. eapply wp_read; [exact Hpn|done|]. eapply wp_read; [exact Hcn|done|].
  destruct on_left; simpl in HD; subst.
  - do 2 (eapply wp_read; [eassumption|done|]). unfold new_node at 1. apply (wp_new alloc). intros n Hn' Hn0.
    eapply wp_read; [cbn [nodes]; rewrite lookup_insert_ne by congruence; exact Hcn|done|].
    apply (wp_new alloc). intros x Hx Hx0. apply fresh_insert in Hx as [Hxn Hx].
    eapply wp_write; [cbn [nodes]; rewrite !lookup_insert_ne by congruence; exact Hn|done|].
    apply (Htail x n); [done..| |done]. apply (Hnew x (mkStore ∅ (<[n := 0]> (locks s)) [])); [done| |done]. by apply (Hnew n s).
  - do 2 (eapply wp_read; [eassumption|done|]). unfold new_node at 1. apply (wp_new alloc). intros n Hn' Hn0.
    eapply wp_read; [cbn [nodes]; rewrite lookup_insert_ne by congruence; exact Hcn|done|].
    apply (wp_new alloc). intros x Hx Hx0. apply fresh_insert in Hx as [Hxn Hx].
    eapply wp_write; [cbn [nodes]; rewrite !lookup_insert_ne by congruence; exact Hn|done|].
    apply (Htail x n); [done..| |done]. apply (Hnew x (mkStore ∅ (<[n := 0]> (locks s)) [])); [done| |done]. by apply (Hnew n s).
Qed.
(** the other child of the node that points at [q] *)
Lemma hole_other m root C q : ctx_at (node := obj) m root C q → q ≠ 0 →
  NoDup (root :: caddrs C) → (∀ y, y ∈ root :: caddrs C → y ≠ q) → ∃ k l r,
  m !! (hole root C).1 = Some (node k l r false) ∧
  ∀ left, ((if (left : bool) then l else r) =? q) = Bool.eqb left (hole root C).2.
Proof.
  intros Hc Hq Hnd Hne. destruct C as [|f C]; simpl in *.
  - destruct Hc as (o & Hm & k & ->). exists k, q, 0. split; [done|].
    intros []; [apply Z.eqb_refl|]. apply Z.eqb_neq. congruence.
  - destruct Hc as [Hf _]. unfold frame_node in Hf. simpl in Hf.
    assert (addr (f_sib f) ≠ q) as Hsib.
    { apply Hne. right. right. apply elem_of_app. left. destruct (f_sib f); by left. }
    destruct (f_left f) eqn:E; eexists _, _, _; (split; [exact Hf|]);
      intros []; (apply Z.eqb_refl || by apply Z.eqb_neq).
Qed.

Context (to_key : Z → Z).
(** C36: [fix_priority], called on a node, its child and its grandchild on the
    way of the search for [k], rotates the child above its parent and keeps
    the entries and their order; it does so exactly when the comparison of [k],
    narrowed to an int on the way, with the key of the upper node gives the
    side the parent is on.  The root
    has no key of its own, so a rotation below it depends on what its key
    field happens to hold. *)
Theorem fix_priority_rotates root C p pk c ck A B D int_k gk s :
  let k := to_key (s32 int_k) in
  let T := unrotated (k <? pk) p pk c ck A B D in
  at_tree root (plug C T) (nodes s) → p ≠ 0 → holding tid ∅ s →
  (λ o, match o with node k _ _ _ => k | leaf _ _ _ => 0 end) <$> nodes s !! (hole root C).1 = Some gk →
  wp (fix_priority alloc tid to_key (hole root C).1 p c int_k) (λ b s',
    b = Bool.eqb (k <? gk) (hole root C).2 ∧
    (if b then ∃ x n, at_tree root (plug C (rotated (k <? pk) pk ck x n A B D)) (nodes s')
     else nodes s' = nodes s) ∧
    repr root (to_map (entries (plug C T))) s') s.
Proof.
  intros k T Hat Hp0 Hh Hgk. pose proof Hat as [Hr Ht Hnd _ _].
  destruct (proj1 (ctx_plug (nodes s) root C _ _ eq_refl) (conj Hr Ht)) as [Hc HT].
  rewrite plug_addrs, app_comm_cons in Hnd. apply NoDup_app in Hnd as (Hnd1 & Hnd2 & Hnd3).
  assert (addr T = p) as HTp by (unfold T, unrotated; by destruct (k <? pk)). rewrite HTp in Hc.
  assert (p ∈ addrs T ∧ c ∈ addrs T) as [HpT HcT].
  { unfold T. rewrite !unrotated_addrs, !elem_of_cons. auto. }
  destruct (hole_other _ _ _ _ Hc Hp0 Hnd1) as (k' & l & r & Hg & Hother).
  { intros y Hy ->. by apply (Hnd2 p). }
  rewrite Hg in Hgk. simpl in Hgk. injection Hgk as ->.
  destruct (unrotated_nodes _ _ _ _ _ _ _ _ _ HT) as (pl & pr & Hpn & Hcn & _ & Hpc & _).
  assert ((hole root C).1 ≠ p ∧ (hole root C).1 ≠ c ∧ p ≠ c) as (Hgp & Hgc & Hpc').
  { pose proof (Hnd2 _ (hole_in root C)) as Hhole. split; [by intros Heq; rewrite Heq in Hhole|].
    split; [by intros Heq; rewrite Heq in Hhole|]. unfold T in Hnd3. rewrite unrotated_addrs in Hnd3.
    intros ->. apply NoDup_cons in Hnd3 as [Hnin _]. apply Hnin. by left. }
  unfold fix_priority. cbv zeta. change (to_key (s32 int_k)) with k. clearbody k.
  refine (proj1 (wp_bind_ret _ _ _) _).
  eapply (wp_try_lock tid tid_ok ∅); [exact Hh|apply not_elem_of_empty|exact Hg|].
  intros s1 Hs1 _ Hh1. rewrite <-Hs1 in *. eapply wp_read; [exact Hg|done|].
  eapply wp_read; [exact Hg|done|]. eapply wp_read; [exact Hg|done|]. cbn [orb]. rewrite Hother.
  destruct (Bool.eqb (k <? gk) (hole root C).2) eqn:Hside; cbn [negb].
  - refine (proj1 (wp_bind_ret _ _ _) _). eapply (wp_try_lock tid tid_ok); [exact Hh1| |exact Hpn|].
    { by intros [?%elem_of_singleton|?%elem_of_empty]%elem_of_union. }
    intros s2 Hs2 _ Hh2. rewrite <-Hs2 in *. eapply wp_read; [exact Hpn|done|].
    eapply wp_read; [exact Hpn|done|]. rewrite Hpc, Z.eqb_refl. cbn [negb].
    refine (proj1 (wp_bind_ret _ _ _) _). eapply (wp_try_lock tid tid_ok); [exact Hh2| |exact Hcn|].
    { by intros [?%elem_of_singleton|[?%elem_of_singleton|?%elem_of_empty]%elem_of_union]%elem_of_union. }
    intros s3 Hs3 _ Hh3. rewrite <-Hs3 in *.
    apply Bool.eqb_prop in Hside. rewrite Hside.
    eapply wp_mono; [|eapply (rotate_wp root C (k <? pk) p pk c ck A B D _ s3); [exact Hat|exact Hh3|]].
    + intros b s4 (-> & Hh4 & Hkeep & x & n & Hat4).
      split; [done|]. split; [by apply Hkeep; rewrite Hcn|]. intros s5 Hs5 _ Hh5.
      split; [done|]. split; [rewrite Hs5; apply Hkeep; eauto|]. intros s6 Hs6 _ Hh6.
      split; [done|]. split; [rewrite Hs6, Hs5; apply Hkeep; eauto|]. intros s7 Hs7 _ Hh7.
      rewrite <-Hs5, <-Hs6, <-Hs7 in Hat4. split; [done|]. split; [by exists x, n|].
      eexists. split; [exact Hat4|]. split; [|done]. f_equal. apply plug_same. symmetry. apply rotated_entries.
    + intros y [->%elem_of_singleton|[->%elem_of_singleton|[->%elem_of_singleton|?%elem_of_empty]%elem_of_union]%elem_of_union]%elem_of_union; eauto. done.
  - split; [done|]. split; [eauto|]. intros s2 Hs2 _ Hh2. split; [done|]. split; [done|].
    exists (plug C T). by rewrite Hs2.
Qed.
End proofs.

Example blockleaftree_refines_map_witness : small_tid 0 ∧
  wp (session (empty next_addr 7) (ops next_addr 0 (λ A p, p) (λ _ _, mret tt)) 9
        [Insert 5 50; Insert 3 30; Insert 5 51; Remove 3; Find 5])
     (λ answers _, answers = [AInsert true; AInsert true; AInsert false; ARemove true; AFind (Some 50)])
     empty_store.
Proof.
  assert (small_tid 0) as Ht by (unfold small_tid; lia). split; [exact Ht|].
  assert (∀ A (p : Z) (b : bool) (k : unit → prog (store_state obj) A) Q s,
    wp (k tt) Q s → wp ((mret tt : prog (store_state obj) unit) ≫= k) Q s) as Hv by done.
  eapply wp_mono; [|apply (blockleaftree_refines_map next_addr 0 Ht (λ A p, p) (λ _ _, mret tt) Hv 7);
    [apply holding_empty|simpl; lia]].
  intros r s' [-> _]. reflexivity.
Defined.
(** a path of two nodes below a root whose key is 7 *)
Definition path_store : store_state obj := mkStore
  (list_to_map [(1, node 7 2 0 false); (2, node 20 3 6 false); (3, node 10 4 5 false); (4, leaf true 0 blank);
    (5, leaf false 1 (<[0%nat := (10, 1)]> blank)); (6, leaf false 1 (<[0%nat := (20, 2)]> blank))]) ∅ [].

Example fix_priority_rotates_witness : small_tid 0 ∧
  wp (fix_priority next_addr 0 (λ k, k) 1 2 3 5)
     (λ b s', b = true ∧ repr 0 1 (<[10 := 1]> (<[20 := 2]> ∅)) s') path_store.
Proof.
  assert (small_tid 0) as Ht by (unfold small_tid; lia). split; [exact Ht|].
  assert (∀ i e, i = [e] → block_holds i (leaf false 1 (<[0%nat := e]> blank))) as Hone.
  { intros i e ->. simpl. split; [done|]. split; [done|]. split; [lia|]. split; [by repeat constructor|].
    by exists (replicate 14 (0, 0)). }
  eapply wp_mono; [|eapply (fix_priority_rotates next_addr 0 Ht (λ k, k) 1 [] 2 20 3 10 (L 4 []) (L 5 [(10, 1)]) (L 6 [(20, 2)]) 5 7);
    [|done|by apply (holding_same_locks 0 ∅ empty_store); [|apply holding_empty]|reflexivity]].
  - intros b s' (-> & _ & Hr). split; [done|]. exact Hr.
  - split.
    + exists (node 7 2 0 false). split; [done|]. by exists 7.
    + simpl. split; [done|]. split.
      * split; [done|]. split; eexists; (split; [reflexivity|]); [|by apply Hone].
        split; [done|]. split; [done|]. split; [simpl; lia|]. split; [constructor|]. by exists blank.
      * eexists. split; [reflexivity|]. by apply Hone.
    + by apply (bool_decide_unpack (NoDup _)).
    + simpl. unfold below, sorted. split; [by repeat constructor|]. split; [by repeat constructor|].
      split; [|by repeat constructor]. split_and!; by repeat constructor.
    + simpl. by split_and!.
Defined.
End BlockLeafTree.
