(* ===== verification/ArtTree.v ===== *)
(** * ArtTree: the adaptive radix tree (structures/arttree/ordered_map.h).

    A node looks at one byte of the key and has a child for each of its
    values, in a representation that depends on how many there are; the bytes
    that all keys below a node share are skipped.  Leaves hold a few keys,
    sorted.  Keys are unsigned integers of [sizeof_K] bytes ([int_string]). *)

From stdpp Require Import prelude list gmap.
From Stdlib Require Import ZArith Lia Sorted.
From S2P Require Import Prelude Conc SpinLock Store MapSpec Arrays.
Local Open Scope Z_scope.

Module Art.
#[local] Abbreviation KV := (Z * Z)%type.

Definition max_indirect_size : Z := 64.
Definition max_sparse_size : Z := 16.
Definition max_small_leaf_size : Z := 2.
Definition max_big_leaf_size : Z := 14.

(** the structs, each with the fields of [header] ([key], [byte_num], [size])
    and of [node] ([removed]); a leaf has room for [cap] entries *)
Inductive obj :=
  | full_node (key byte_num : Z) (removed : bool) (children : list Z)
  | indirect_node (key byte_num size : Z) (removed : bool) (idx ptr : list Z)
  | sparse_node (key byte_num size : Z) (removed : bool) (keys ptr : list Z)
  | leaf (key byte_num size cap : Z) (key_vals : list KV).
Definition is_leaf (o : obj) : bool := match o with leaf _ _ _ _ _ => true | _ => false end.
Definition key_of (o : obj) : Z :=
  match o with full_node k _ _ _ | indirect_node k _ _ _ _ _ | sparse_node k _ _ _ _ _ | leaf k _ _ _ _ => k end.
Definition byte_num_of (o : obj) : Z :=
  match o with full_node _ b _ _ | indirect_node _ b _ _ _ _ | sparse_node _ b _ _ _ _ | leaf _ b _ _ _ => b end.

Section bytes.
Context (sizeof_K : Z).
(** [(key >> (8*(sizeof(K)-1-pos))) & 255]; undefined beyond the key *)
Definition get_byte (key pos : Z) : err + Z :=
  if (0 <=? pos) && (pos <? sizeof_K) then inr (Z.land (Z.shiftr key (8 * (sizeof_K - 1 - pos))) 255)
  else inl OutOfBounds.

(** ** Leaves *)
(** [find], for integers *)
Fixpoint find_from (key_vals : list KV) (size k : Z) (n : nat) (i : Z) : err + option Z :=
  match n with
  | O => inl OutOfFuel
  | S n' =>
      if i <? size then
        e ← get key_vals i;
        if negb (e.1 <? k) then inr (if k <? e.1 then None else Some e.2)
        else find_from key_vals size k n' (i + 1)
      else inr None
  end.
Definition leaf_find (o : obj) (k : Z) : err + option Z :=
  match o with
  | leaf _ _ size _ kv => find_from kv size k (S (length kv)) 0
  | _ => inl BadCast
  end.

(** does byte [j] of a key from [kvs] on differ from [byteval]? *)
Fixpoint differs (kvs : list KV) (j byteval : Z) : err + bool :=
  match kvs with
  | [] => inr false
  | e :: kvs' =>
      if sizeof_K <=? j then inr true
      else b ← get_byte e.1 j; if negb (b =? byteval) then inr true else differs kvs' j byteval
  end.
Fixpoint first_diff_from (kvs : list KV) (n : nat) (j : Z) : err + Z :=
  match n, kvs with
  | S n', e :: kvs' =>
      byteval ← get_byte e.1 j;
      d ← differs kvs' j byteval;
      if (d : bool) then inr j else first_diff_from kvs n' (j + 1)
  | _, _ => inl OutOfFuel
  end.
(** [kvs] is what lies between [start] and [end] *)
Definition first_diff (byte_pos : Z) (kvs : list KV) : err + Z :=
  if Z.of_nat (length kvs) =? 1 then inr sizeof_K
  else first_diff_from kvs (S (Z.to_nat sizeof_K)) byte_pos.

Definition blanks (cap : Z) : list KV := replicate (Z.to_nat cap) (0, 0).

Definition singleton_leaf (cap k v : Z) : err + obj :=
  kv ← put (blanks cap) 0 (k, v); inr (leaf k sizeof_K 1 cap kv).
Definition multi_leaf (cap byte_pos : Z) (kvs : list KV) : err + obj :=
  d ← first_diff byte_pos kvs;
  kv ← fill cap (0, 0) kvs;
  e ← get kv 0;
  inr (leaf e.1 d (Z.of_nat (length kvs)) cap kv).
(** [insert(in, out, n, key, value)] *)
Definition leaf_insert (inp out : list KV) (n k v : Z) : err + list KV :=
  '(out1, i) ← copy_less out inp n k (S (length inp)) 0;
  out2 ← put out1 i (k, v);
  copy out2 inp (-1) (Z.to_nat (n - i)) (i + 1).
Definition add_to_leaf (cap byte_pos : Z) (l : obj) (k v : Z) : err + obj :=
  match l with
  | leaf key _ size _ kv => out ← leaf_insert kv (blanks cap) size k v; inr (leaf key byte_pos (size + 1) cap out)
  | _ => inl BadCast
  end.
(** the entries other than those of [k], put from [j] on *)
Fixpoint copy_others (out key_vals : list KV) (k : Z) (n : nat) (i j : Z) : err + list KV :=
  match n with
  | O => inr out
  | S n' =>
      e ← get key_vals i;
      if e.1 =? k then copy_others out key_vals k n' (i + 1) j
      else out' ← put out j e; copy_others out' key_vals k n' (i + 1) (j + 1)
  end.
Definition remove_from_leaf (cap : Z) (l : obj) (k : Z) : err + obj :=
  match l with
  | leaf _ byte_num size _ kv =>
      out ← copy_others (blanks cap) kv k (Z.to_nat size) 0 0;
      e ← get out 0;
      d ← first_diff byte_num (take (Z.to_nat (size - 1)) out);
      inr (leaf e.1 d (size - 1) cap out)
  | _ => inl BadCast
  end.

(** ** Inner nodes *)
(** the index of [kb] in the first [size] keys *)
Fixpoint key_index (keys : list Z) (size kb : Z) (n : nat) (i : Z) : err + option Z :=
  match n with
  | O => inl OutOfFuel
  | S n' =>
      if i <? size then
        b ← get keys i; if b =? kb then inr (Some i) else key_index keys size kb n' (i + 1)
      else inr None
  end.
(** [get_child]: the place of the pointer, none for nullptr *)
Definition get_child (o : obj) (k : Z) : err + option Z :=
  match o with
  | full_node _ b _ _ => x ← get_byte k b; inr (Some x)
  | indirect_node _ b _ _ idx _ => x ← get_byte k b; i ← get idx x; inr (if i =? -1 then None else Some i)
  | sparse_node _ b size _ keys _ => kb ← get_byte k b; key_index keys size kb (S (length keys)) 0
  | leaf _ _ _ _ _ => inr None
  end.
Definition is_full (o : obj) : bool :=
  match o with
  | indirect_node _ _ size _ _ _ => size =? max_indirect_size
  | sparse_node _ _ size _ _ _ => size =? max_sparse_size
  | _ => false
  end.
Definition init_child (o : obj) (k c : Z) : err + obj :=
  match o with
  | full_node key b rm ch => x ← get_byte k b; ch' ← put ch x c; inr (full_node key b rm ch')
  | indirect_node key b size rm idx ptr =>
      x ← get_byte k b; idx' ← put idx x (size - 1); ptr' ← put ptr (size - 1) c;
      inr (indirect_node key b size rm idx' ptr')
  | sparse_node key b size rm keys ptr =>
      kb ← get_byte k b; keys' ← put keys (size - 1) kb; ptr' ← put ptr (size - 1) c;
      inr (sparse_node key b size rm keys' ptr')
  | leaf _ _ _ _ _ => inl BadCast
  end.
(** a sparse node with two children, or with several *)
Definition sparse_pair (byte_num v1 k1 v2 k2 : Z) : err + obj :=
  b1 ← get_byte k1 byte_num; b2 ← get_byte k2 byte_num;
  keys ← fill max_sparse_size 0 [b1; b2]; ptr ← fill max_sparse_size 0 [v1; v2];
  inr (sparse_node k1 byte_num 2 false keys ptr).
Fixpoint bytes_of (byte_num : Z) (ks : list Z) : err + list Z :=
  match ks with
  | [] => inr []
  | k :: ks' => b ← get_byte k byte_num; bs ← bytes_of byte_num ks'; inr (b :: bs)
  end.
(** [cs]: the children with their keys *)
Definition sparse_many (byte_num : Z) (cs : list (Z * Z)) : err + obj :=
  e ← get cs 0;
  bs ← bytes_of byte_num cs.*2;
  keys ← fill max_sparse_size 0 bs; ptr ← fill max_sparse_size 0 cs.*1;
  inr (sparse_node e.2 byte_num (Z.of_nat (length cs)) false keys ptr).

(** [while (byte_pos < c->byte_num && get_byte(k, byte_pos) ==
    get_byte(c->key, byte_pos)) byte_pos++] *)
Fixpoint skip_bytes (k key byte_num : Z) (n : nat) (byte_pos : Z) : err + Z :=
  match n with
  | O => inl OutOfFuel
  | S n' =>
      if byte_pos <? byte_num then
        b ← get_byte k byte_pos; b' ← get_byte key byte_pos;
        if b =? b' then skip_bytes k key byte_num n' (byte_pos + 1) else inr byte_pos
      else inr byte_pos
  end.

(** ** The entries of a leaf in a range *)
(** [while (key_vals[s].key < *start) s++] and
    [while (key_vals[e-1].key > *end) e--] *)
Fixpoint skip_below (key_vals : list KV) (start : Z) (n : nat) (s : Z) : err + Z :=
  match n with
  | O => inl OutOfFuel
  | S n' => e ← get key_vals s; if e.1 <? start then skip_below key_vals start n' (s + 1) else inr s
  end.
Fixpoint skip_above (key_vals : list KV) (last : Z) (n : nat) (e : Z) : err + Z :=
  match n with
  | O => inl OutOfFuel
  | S n' => x ← get key_vals (e - 1); if last <? x.1 then skip_above key_vals last n' (e - 1) else inr e
  end.
Fixpoint slice (key_vals : list KV) (n : nat) (i : Z) : err + list KV :=
  match n with
  | O => inr []
  | S n' => e ← get key_vals i; l ← slice key_vals n' (i + 1); inr (e :: l)
  end.
Definition range_leaf (size : Z) (key_vals : list KV) (start last : option Z) : err + list KV :=
  s ← match start with Some x => skip_below key_vals x (S (length key_vals)) 0 | None => inr 0 end;
  e ← match last with Some x => skip_above key_vals x (S (length key_vals)) size | None => inr size end;
  slice key_vals (Z.to_nat (e - s)) s.
(** the bounds that still matter after the bytes [i], ..., [i+n-1] of the key
    of a node, none when the node is out of range *)
Fixpoint narrow (key : Z) (n : nat) (i : Z) (start last : option Z) : err + option (option Z * option Z) :=
  match n with
  | O => inr (Some (start, last))
  | S n' =>
      match start, last with
      | None, None => inr (Some (None, None))
      | _, _ =>
          b ← get_byte key i;
          low ← match start with Some x => y ← get_byte x i; inr (Some y) | None => inr None end;
          high ← match last with Some x => y ← get_byte x i; inr (Some y) | None => inr None end;
          if match low with Some y => b <? y | None => false end || match high with Some y => y <? b | None => false end
          then inr None
          else narrow key n' (i + 1)
                 (if match low with Some y => y <? b | None => false end then None else start)
                 (if match high with Some y => b <? y | None => false end then None else last)
      end
  end.
End bytes.

Section art.
Context (sizeof_K : Z) (alloc : gmap Z obj → Z) (tid : nat).
Context (with_epoch : ∀ A, prog (store_state obj) A → prog (store_state obj) A).
#[local] Abbreviation state := (store_state obj).

(** the child pointer at a place of a node *)
Definition slot_c (p i : Z) : cell state Z :=
  field (λ o, match o with
              | full_node _ _ _ ch => get ch i
              | indirect_node _ _ _ _ _ ptr | sparse_node _ _ _ _ _ ptr => get ptr i
              | leaf _ _ _ _ _ => inl BadCast
              end)
        (λ c o, match o with
                | full_node k b rm ch => full_node k b rm (<[Z.to_nat i := c]> ch)
                | indirect_node k b n rm idx ptr => indirect_node k b n rm idx (<[Z.to_nat i := c]> ptr)
                | sparse_node k b n rm ks ptr => sparse_node k b n rm ks (<[Z.to_nat i := c]> ptr)
                | leaf _ _ _ _ _ => o
                end) p.
Definition removed_c : Z → cell state bool :=
  field (λ o, match o with
              | full_node _ _ rm _ | indirect_node _ _ _ rm _ _ | sparse_node _ _ _ rm _ _ => inr rm
              | leaf _ _ _ _ _ => inl BadCast
              end)
        (λ rm o, match o with
                 | full_node k b _ ch => full_node k b rm ch
                 | indirect_node k b n _ idx ptr => indirect_node k b n rm idx ptr
                 | sparse_node k b n _ ks ptr => sparse_node k b n rm ks ptr
                 | leaf _ _ _ _ _ => o
                 end).

(** new objects, computed before they are linked in *)
Definition make (r : err + obj) : prog state Z := o ← lift r; new_obj alloc o.
(** a leaf goes back to the pool of its size *)
Definition retire_leaf (cap c : Z) : prog state unit :=
  o ← load (node_c c);
  match o with
  | leaf _ _ _ cap' _ => if cap' =? cap then retire c else fail BadCast
  | _ => fail BadCast
  end.
Definition new_small (k v : Z) : prog state Z := make (singleton_leaf sizeof_K max_small_leaf_size k v).
Definition new_leaf (byte_pos : Z) (kvs : list KV) : prog state Z :=
  if max_small_leaf_size <? Z.of_nat (length kvs) then make (multi_leaf sizeof_K max_big_leaf_size byte_pos kvs)
  else make (multi_leaf sizeof_K max_small_leaf_size byte_pos kvs).

(** ** Adding a child: the copies of [p], with room for it *)
Definition indirect_to_full (p k c : Z) (o : obj) : prog state Z :=
  match o with
  | indirect_node key b _ _ idx _ =>
      ch ← collect (λ i, j ← lift (get idx i); if j =? -1 then mret 0 else load (slot_c p j)) 256 0;
      make (init_child sizeof_K (full_node key b false ch) k c)
  | _ => fail BadCast
  end.
Definition indirect_to_indirect (p k c : Z) (o : obj) : prog state Z :=
  match o with
  | indirect_node key b size _ idx _ =>
      ptr ← collect (λ i, load (slot_c p i)) (Z.to_nat size) 0;
      make (ptr' ← fill max_indirect_size 0 ptr;
            init_child sizeof_K (indirect_node key b (size + 1) false idx ptr') k c)
  | _ => fail BadCast
  end.
(** [idx[keys[i]] = i] *)
Fixpoint index_keys (idx keys : list Z) (n : nat) (i : Z) : err + list Z :=
  match n with
  | O => inr idx
  | S n' => b ← get keys i; idx' ← put idx b i; index_keys idx' keys n' (i + 1)
  end.
Definition sparse_to_indirect (p k c : Z) (o : obj) : prog state Z :=
  match o with
  | sparse_node key b _ _ keys _ =>
      ptr ← collect (λ i, load (slot_c p i)) (Z.to_nat max_sparse_size) 0;
      make (idx ← index_keys (replicate 256 (-1)) keys (Z.to_nat max_sparse_size) 0;
            ptr' ← fill max_indirect_size 0 ptr;
            init_child sizeof_K (indirect_node key b (max_sparse_size + 1) false idx ptr') k c)
  | _ => fail BadCast
  end.
Definition sparse_to_sparse (p k c : Z) (o : obj) : prog state Z :=
  match o with
  | sparse_node key b size _ keys _ =>
      ptr ← collect (λ i, load (slot_c p i)) (Z.to_nat size) 0;
      make (keys' ← fill max_sparse_size 0 (take (Z.to_nat size) keys);
            ptr' ← fill max_sparse_size 0 ptr;
            init_child sizeof_K (sparse_node key b (size + 1) false keys' ptr') k c)
  | _ => fail BadCast
  end.
Definition grown (p k c : Z) (o : obj) : prog state Z :=
  match o with
  | indirect_node _ _ _ _ _ _ => if is_full o then indirect_to_full p k c o else indirect_to_indirect p k c o
  | _ => if is_full o then sparse_to_indirect p k c o else sparse_to_sparse p k c o
  end.

Definition add_child (gp p k v : Z) : prog state bool :=
  try_lock tid gp
    (o ← load (node_c p);
     og ← load (node_c gp);
     child_ptr ← lift (get_child sizeof_K og (key_of o));
     match child_ptr with
     | None => fail NullDeref
     | Some i =>
         rm ← load (removed_c gp);
         pt ← load (slot_c gp i);
         rm ← load (removed_c gp);
         x ← (if (rm : bool) then mret 0 else load (slot_c gp i));
         if rm || negb (x =? p) then mret false
         else try_lock tid p
           (o ← load (node_c p);
            there ← lift (get_child sizeof_K o k);
            if bool_decide (is_Some (there : option Z)) then mret false
            else
              c ← new_small k v;
              store (removed_c p) true ;;
              n ← grown p k c o;
              store (slot_c gp i) n ;;
              retire p ;;
              mret true)
     end).

(** ** Searching: grandparent, parent, place, child and byte position *)
Definition place : Type := Z * Z * option Z * Z * Z.
Definition step_location (k : Z) : Z * Z * Z → prog state ((Z * Z * Z) + place) := λ '(gp, p, byte_pos),
  o ← load (node_c p);
  cptr ← lift (get_child sizeof_K o k);
  match cptr with
  | None => mret (inr (gp, p, None, 0, byte_pos))
  | Some i =>
      c ← load (slot_c p i);
      if c =? 0 then mret (inr (gp, p, Some i, 0, byte_pos))
      else
        oc ← load (node_c c);
        pos ← lift (skip_bytes sizeof_K k (key_of oc) (byte_num_of oc) (S (Z.to_nat sizeof_K)) (byte_pos + 1));
        if negb (pos =? byte_num_of oc) || is_leaf oc then mret (inr (gp, p, Some i, c, pos))
        else mret (inl (p, c, pos))
  end.
Definition find_location (fuel : nat) (root k : Z) : prog state place :=
  iter fuel (step_location k) (0, root, 0).

(** [((leaf* ) c)->find(k, byte_pos)] *)
Definition find_in (c k : Z) : prog state (option Z) := o ← load (node_c c); lift (leaf_find o k).
(** is [c] a leaf that holds [k]? *)
Definition holds (c k : Z) : prog state bool :=
  if c =? 0 then mret false
  else
    o ← load (node_c c);
    if is_leaf o then r ← find_in c k; mret (bool_decide (is_Some (r : option Z))) else mret false.
(** the pointer at the place found, null for none *)
Definition at_place (p : Z) (cptr : option Z) : prog state Z :=
  match cptr with Some i => load (slot_c p i) | None => fail NullDeref end.
Definition unchanged (p : Z) (cptr : option Z) (c : Z) : prog state bool :=
  read_lock
    (x ← at_place p cptr;
     if negb (x =? c) then mret false else rm ← load (removed_c p); mret (negb rm)).

(** ** Insertion *)
(** leaves for the runs of entries with the same byte; [group] is the current
    run *)
Fixpoint split_leaves (byte_pos byteval : Z) (group rest : list KV) : prog state (list Z) :=
  match rest with
  | [] => c ← new_leaf (byte_pos + 1) group; mret [c]
  | e :: rest' =>
      b ← lift (get_byte sizeof_K e.1 byte_pos);
      if b =? byteval then split_leaves byte_pos byteval (group ++ [e]) rest'
      else
        c ← new_leaf (byte_pos + 1) group;
        cs ← split_leaves byte_pos b [e] rest';
        mret (c :: cs)
  end.
Fixpoint with_keys (cs : list Z) : prog state (list (Z * Z)) :=
  match cs with
  | [] => mret []
  | c :: cs' => o ← load (node_c c); l ← with_keys cs'; mret ((c, key_of o) :: l)
  end.
Definition split_leaf (l : obj) (byte_pos k v : Z) : prog state Z :=
  match l with
  | leaf _ _ _ _ kv =>
      let n := max_big_leaf_size + 1 in
      tmp ← lift (leaf_insert kv (blanks n) (n - 1) k v);
      e ← lift (get tmp 0);
      byteval ← lift (get_byte sizeof_K e.1 byte_pos);
      cs ← split_leaves byte_pos byteval [e] (tail tmp);
      children ← with_keys cs;
      make (sparse_many sizeof_K byte_pos children)
  | _ => fail BadCast
  end.

Definition insert_in_leaf (p i c byte_pos k v : Z) (l : obj) : prog state unit :=
  match l with
  | leaf _ _ size _ _ =>
      if size <? max_small_leaf_size then
        n ← make (add_to_leaf max_small_leaf_size byte_pos l k v);
        store (slot_c p i) n ;; retire_leaf max_small_leaf_size c
      else if size =? max_small_leaf_size then
        n ← make (add_to_leaf max_big_leaf_size byte_pos l k v);
        store (slot_c p i) n ;; retire_leaf max_small_leaf_size c
      else if size <? max_big_leaf_size then
        n ← make (add_to_leaf max_big_leaf_size byte_pos l k v);
        store (slot_c p i) n ;; retire_leaf max_big_leaf_size c
      else
        n ← split_leaf l byte_pos k v;
        store (slot_c p i) n ;; retire_leaf max_big_leaf_size c
  | _ => fail BadCast
  end.
Definition insert_at (p i c byte_pos k v : Z) : prog state bool :=
  rm ← load (removed_c p);
  x ← (if (rm : bool) then mret 0 else load (slot_c p i));
  if rm || negb (x =? c) then mret false
  else if c =? 0 then n ← new_small k v; store (slot_c p i) n ;; mret true
  else
    o ← load (node_c c);
    if is_leaf o then insert_in_leaf p i c byte_pos k v o ;; mret true
    else
      new_l ← new_small k v;
      n ← make (sparse_pair sizeof_K byte_pos c (key_of o) new_l k);
      store (slot_c p i) n ;;
      mret true.

(** the parameter [upsert] is not looked at *)
Definition try_insert (fuel : nat) (root k v : Z) (upsert : bool) : prog state (option bool) :=
  '(gp, p, cptr, c, byte_pos) ← find_location fuel root k;
  there ← holds c k;
  if (there : bool) then
    b ← unchanged p cptr c;
    mret (if (b : bool) then Some false else None)
  else
    b ← match cptr with
        | Some i => try_lock tid p (insert_at p i c byte_pos k v)
        | None => add_child gp p k v
        end;
    mret (if (b : bool) then Some true else None).
Definition insert_ (fuel : nat) (root k v : Z) : prog state bool :=
  flock.try_loop fuel (try_insert fuel root k v false).
Definition insert (fuel : nat) (root k v : Z) : prog state bool := with_epoch bool (insert_ fuel root k v).

(** ** Removal *)
(** the other child of a sparse node with two; [try_remove] does not use it *)
Fixpoint other_child (p c size : Z) (n : nat) (i result : Z) : prog state Z :=
  match n with
  | O => fail OutOfFuel
  | S n' =>
      if i <? size then
        oc ← load (slot_c p i);
        if negb (oc =? 0) && negb (oc =? c) then
          if negb (result =? 0) then mret 0 else other_child p c size n' (i + 1) oc
        else other_child p c size n' (i + 1) result
      else mret result
  end.
Definition single_other_child (p c : Z) : prog state Z :=
  o ← load (node_c p);
  match o with
  | sparse_node _ _ size _ _ _ => other_child p c size (S (Z.to_nat size)) 0 0
  | _ => mret 0
  end.

Definition remove_at (p i c k : Z) : prog state bool :=
  rm ← load (removed_c p);
  x ← (if (rm : bool) then mret 0 else load (slot_c p i));
  if rm || negb (x =? c) then mret false
  else
    o ← load (node_c c);
    match o with
    | leaf _ _ size _ _ =>
        if size =? 1 then
          single_other_child p c ;;
          store (slot_c p i) 0 ;; retire_leaf max_small_leaf_size c ;; mret true
        else if max_small_leaf_size + 1 <? size then
          n ← make (remove_from_leaf sizeof_K max_big_leaf_size o k);
          store (slot_c p i) n ;; retire_leaf max_big_leaf_size c ;; mret true
        else if size =? max_small_leaf_size + 1 then
          n ← make (remove_from_leaf sizeof_K max_small_leaf_size o k);
          store (slot_c p i) n ;; retire_leaf max_big_leaf_size c ;; mret true
        else
          n ← make (remove_from_leaf sizeof_K max_small_leaf_size o k);
          store (slot_c p i) n ;; retire_leaf max_small_leaf_size c ;; mret true
    | _ => fail BadCast
    end.
Definition try_remove (fuel : nat) (root k : Z) : prog state (option bool) :=
  '(gp, p, cptr, c, byte_pos) ← find_location fuel root k;
  there ← holds c k;
  if negb there then
    b ← unchanged p cptr c;
    mret (if (b : bool) then Some false else None)
  else
    b ← match cptr with
        | Some i => try_lock tid p (remove_at p i c k)
        | None => fail NullDeref
        end;
    mret (if (b : bool) then Some true else None).
Definition remove_ (fuel : nat) (root k : Z) : prog state bool :=
  flock.try_loop fuel (try_remove fuel root k).
Definition remove (fuel : nat) (root k : Z) : prog state bool := with_epoch bool (remove_ fuel root k).

(** ** Lookup *)
Definition find_ (fuel : nat) (root k : Z) : prog state (option Z) :=
  '(gp, p, cptr, l, pos) ← find_location fuel root k;
  if l =? 0 then mret None else find_in l k.
Definition find (fuel : nat) (root k : Z) : prog state (option Z) := with_epoch (option Z) (find_ fuel root k).
Definition try_find (fuel : nat) (root k : Z) : prog state (option (option Z)) :=
  '(gp, p, cptr, l, pos) ← find_location fuel root k;
  b ← unchanged p cptr l;
  if (b : bool) then
    if l =? 0 then mret (Some None) else r ← find_in l k; mret (Some r)
  else mret None.
Definition find_locked (fuel : nat) (root k : Z) : prog state (option Z) :=
  flock.try_loop fuel (try_find fuel root k).

(** ** Ranges: the entries given to [add], in order *)
Fixpoint range_internal (fuel : nat) (a : Z) (start last : option Z) (pos : Z) : prog state (list KV) :=
  match fuel with
  | O => fail OutOfFuel
  | S f =>
      if a =? 0 then mret []
      else
        o ← load (node_c a);
        match o with
        | leaf _ _ size _ kv => lift (range_leaf size kv start last)
        | _ =>
            let b := byte_num_of o in
            r ← lift (narrow sizeof_K (key_of o) (Z.to_nat (b - pos)) pos start last);
            match r with
            | None => mret []
            | Some (start', last') =>
                sb ← match start' with Some x => lift (get_byte sizeof_K x b) | None => mret 0 end;
                eb ← match last' with Some x => lift (get_byte sizeof_K x b) | None => mret 255 end;
                let below c := range_internal f c start' last' b in
                parts ←
                  match o with
                  | full_node _ _ _ _ =>
                      collect (λ i, c ← load (slot_c a i); below c) (Z.to_nat (eb + 1 - sb)) sb
                  | indirect_node _ _ _ _ idx _ =>
                      collect (λ i, j ← lift (get idx i);
                                    if j =? -1 then mret [] else c ← load (slot_c a j); below c)
                        (Z.to_nat (eb + 1 - sb)) sb
                  | sparse_node _ _ size _ keys _ =>
                      collect (λ i, x ← lift (get keys i);
                                    if (sb <=? x) && (x <=? eb) then c ← load (slot_c a i); below c else mret [])
                        (Z.to_nat size) 0
                  | leaf _ _ _ _ _ => fail BadCast
                  end;
                mret (concat parts)
            end
        end
  end.
Definition range_ (fuel : nat) (root start last : Z) : prog state (list KV) :=
  range_internal fuel root (Some start) (Some last) 0.

(** ** Construction, destruction, checking *)
Definition ordered_map : prog state Z := new_obj alloc (full_node 0 0 false (replicate 256 0)).

Fixpoint retire_recursive (fuel : nat) (p : Z) : prog state unit :=
  match fuel with
  | O => fail OutOfFuel
  | S f =>
      if p =? 0 then mret tt
      else
        o ← load (node_c p);
        let below n := collect (λ i, c ← load (slot_c p i); retire_recursive f c) n 0 in
        match o with
        | leaf _ _ size _ _ =>
            if max_small_leaf_size <? size then retire_leaf max_big_leaf_size p
            else retire_leaf max_small_leaf_size p
        | sparse_node _ _ size _ _ _ => below (Z.to_nat size) ;; retire p
        | indirect_node _ _ size _ _ _ => below (Z.to_nat size) ;; retire p
        | full_node _ _ _ _ => below 256%nat ;; retire p
        end
  end.
Definition destructor (fuel : nat) (root : Z) : prog state unit := retire_recursive fuel root.

(** are the first [size] keys increasing? *)
Fixpoint increasing (key_vals : list KV) (n : nat) (i : Z) : err + bool :=
  match n with
  | O => inr true
  | S n' =>
      a ← get key_vals (i - 1); b ← get key_vals i;
      if negb (a.1 <? b.1) then inr false else increasing key_vals n' (i + 1)
  end.
Fixpoint crec (fuel : nat) (p : Z) : prog state Z :=
  match fuel with
  | O => fail OutOfFuel
  | S f =>
      if p =? 0 then mret 0
      else
        o ← load (node_c p);
        match o with
        | leaf _ _ size _ kv =>
            b ← lift (increasing kv (Z.to_nat (size - 1)) 1);
            if (b : bool) then mret size else fail Abort
        | full_node _ _ _ _ =>
            x ← collect (λ i, c ← load (slot_c p i); crec f c) 256 0;
            mret (wrap64 (foldr Z.add 0 x))
        | indirect_node _ _ _ _ idx _ =>
            x ← collect (λ i, j ← lift (get idx i); if j =? -1 then mret 0 else c ← load (slot_c p j); crec f c) 256 0;
            mret (wrap64 (foldr Z.add 0 x))
        | sparse_node _ _ size _ _ _ =>
            x ← collect (λ i, c ← load (slot_c p i); crec f c) (Z.to_nat size) 0;
            mret (wrap64 (foldr Z.add 0 x))
        end
  end.
Definition check (fuel : nat) (root : Z) : prog state Z := crec fuel root.
End art.
End Art.
