(* ===== verification/ArtBytes.v ===== *)
(** * ArtBytes: the bytes of keys, and the leaves of [ArtTree]. *)

From stdpp Require Import prelude list gmap.
From Stdlib Require Import ZArith Lia Sorted.
From S2P Require Import Prelude Conc SpinLock Store MapSpec Arrays ArtTree.
Import Art.
Local Open Scope Z_scope.
#[local] Abbreviation KV := (Z * Z)%type.
#[local] Abbreviation len l := (Z.of_nat (length l)).

Section bytes.
Context (K : Z) (K_pos : 0 < K).

(** the first [n] bytes of a key, and the byte after them *)
Definition prefix (n k : Z) : Z := Z.shiftr k (8 * (K - n)).
Definition byte (k n : Z) : Z := Z.land (Z.shiftr k (8 * (K - 1 - n))) 255.
Definition agree (n k1 k2 : Z) : Prop := prefix n k1 = prefix n k2.
Definition in_key (k : Z) : Prop := 0 ≤ k < 2 ^ (8 * K).

Lemma get_byte_in k n : 0 ≤ n < K → get_byte K k n = inr (byte k n).
Proof. intros Hn. unfold get_byte. by rewrite (proj2 (Z.leb_le 0 n)), (proj2 (Z.ltb_lt n K)) by lia. Qed.
Lemma byte_range k n : 0 ≤ byte k n < 256.
Proof.
  unfold byte. change 255 with (Z.ones 8). rewrite Z.land_ones by lia. apply Z.mod_pos_bound. lia.
Qed.
Lemma prefix_next k n : n < K → prefix (n + 1) k = 256 * prefix n k + byte k n.
Proof.
  intros Hn. unfold prefix, byte. change 255 with (Z.ones 8). rewrite Z.land_ones by lia.
  replace (8 * (K - (n + 1))) with (8 * (K - 1 - n)) by lia.
  replace (8 * (K - n)) with (8 * (K - 1 - n) + 8) by lia. rewrite <-Z.shiftr_shiftr by lia.
  rewrite (Z.shiftr_div_pow2 _ 8) by lia. change (2 ^ 8) with 256. apply Z.div_mod. lia.
Qed.
Lemma prefix_full k : prefix K k = k.
Proof. unfold prefix. rewrite Z.sub_diag. apply Z.shiftr_0_r. Qed.
Lemma prefix_zero k : in_key k → prefix 0 k = 0.
Proof.
  intros Hk. unfold prefix. rewrite Z.sub_0_r, Z.shiftr_div_pow2 by lia. apply Z.div_small. exact Hk.
Qed.

Lemma agree_refl n k : agree n k k.
Proof. done. Qed.
Lemma agree_sym n k1 k2 : agree n k1 k2 → agree n k2 k1.
Proof. done. Qed.
Lemma agree_trans n k1 k2 k3 : agree n k1 k2 → agree n k2 k3 → agree n k1 k3.
Proof. unfold agree. congruence. Qed.
Lemma agree_next n k1 k2 : n < K → agree (n + 1) k1 k2 ↔ agree n k1 k2 ∧ byte k1 n = byte k2 n.
Proof.
  intros Hn. unfold agree. rewrite !prefix_next by done.
  pose proof (byte_range k1 n). pose proof (byte_range k2 n). lia.
Qed.
Lemma agree_full k1 k2 : agree K k1 k2 ↔ k1 = k2.
Proof. unfold agree. by rewrite !prefix_full. Qed.
Lemma agree_zero k1 k2 : in_key k1 → in_key k2 → agree 0 k1 k2.
Proof. intros H1 H2. unfold agree. by rewrite !prefix_zero. Qed.
Lemma agree_less n n' k1 k2 : n ≤ n' ≤ K → agree n' k1 k2 → agree n k1 k2.
Proof.
  intros Hn. unfold agree, prefix. replace (8 * (K - n)) with (8 * (K - n') + 8 * (n' - n)) by lia.
  rewrite <-!Z.shiftr_shiftr by lia. by intros ->.
Qed.
Lemma agree_byte n n' k1 k2 : 0 ≤ n < n' → n' ≤ K → agree n' k1 k2 → byte k1 n = byte k2 n.
Proof.
  intros Hn Hn' Ha. apply (agree_less (n + 1)) in Ha; [|lia]. apply agree_next in Ha as [_ ?]; [done|lia].
Qed.
Lemma byte_order n k1 k2 : n < K → agree n k1 k2 → k1 < k2 → byte k1 n ≤ byte k2 n.
Proof.
  intros Hn Ha Hlt. pose proof (prefix_next k1 n Hn) as H1. pose proof (prefix_next k2 n Hn) as H2. unfold agree in Ha.
  assert (prefix (n + 1) k1 ≤ prefix (n + 1) k2) as Hle; [|lia].
  unfold prefix. rewrite !Z.shiftr_div_pow2 by lia. apply Z.div_le_mono; [|lia]. apply Z.pow_pos_nonneg; lia.
Qed.

(** where two keys part *)
Lemma skip_bytes_spec k key bn n : ∀ pos, 0 ≤ pos ≤ bn → bn ≤ K → agree pos k key → (Z.to_nat (bn - pos) < n)%nat →
  ∃ d, skip_bytes K k key bn n pos = inr d ∧ pos ≤ d ≤ bn ∧ agree d k key ∧ (d < bn → byte k d ≠ byte key d).
Proof.
  induction n as [|n IH]; intros pos Hpos Hbn Ha Hn; [lia|]. cbn [skip_bytes]. case_bool.
  - rewrite !get_byte_in by lia. unfold mbind, err_bind. case_bool.
    + destruct (IH (pos + 1)) as (d & Hd & ? & ? & ?); [lia|done|by apply agree_next; [lia|]|lia|].
      exists d. rewrite Hd. split; [done|]. split; [lia|done].
    + exists pos. split; [done|]. split; [lia|done].
  - exists pos. split; [done|]. split; [lia|]. split; [done|lia].
Qed.
Lemma skip_bytes_agree k key bn n : ∀ pos, 0 ≤ pos ≤ bn → bn ≤ K → agree bn k key → (Z.to_nat (bn - pos) < n)%nat →
  skip_bytes K k key bn n pos = inr bn.
Proof.
  intros pos Hpos Hbn Ha Hn. destruct (skip_bytes_spec k key bn n pos) as (d & Hd & Hle & _ & Hne);
    [done|done|by apply (agree_less _ bn); [lia|]|done|]. rewrite Hd. f_equal.
  destruct (decide (d < bn)) as [Hlt|]; [|lia]. exfalso. apply Hne; [done|]. apply (agree_byte d bn); [lia|done|done].
Qed.

(** ** Leaves *)
Lemma art_find_from_spec k es pad : ∀ e1 n i, i = len e1 → (length es < n)%nat → sorted es →
  find_from (e1 ++ es ++ pad) (i + len es) k n i = inr (to_map es !! k).
Proof.
  induction es as [|[k' v] es IH]; intros e1 n i Hi Hn Hs; (destruct n as [|n]; [simpl in Hn; lia|]); cbn [find_from].
  - simpl. rewrite Z.add_0_r, Z.ltb_irrefl. done.
  - apply sorted_cons in Hs as [Hk Hs]. simpl in Hn |- *. rewrite (proj2 (Z.ltb_lt _ _)) by lia.
    rewrite get_app by done. unfold mbind, err_bind. simpl. unfold to_map. simpl. fold (to_map es).
    destruct (Z.ltb_spec k' k) as [Hlt|Hge]; cbn [negb].
    + rewrite lookup_insert_ne by lia. replace (e1 ++ (k', v) :: es ++ pad) with ((e1 ++ [(k', v)]) ++ es ++ pad) by (by rewrite <-app_assoc).
      rewrite <-(IH (e1 ++ [(k', v)]) n (i + 1)); [f_equal; lia|rewrite length_app; simpl; lia|lia|done].
    + destruct (Z.ltb_spec k k') as [Hlt|].
      * rewrite lookup_insert_ne by lia. f_equal. symmetry. apply not_elem_of_list_to_map_1.
        intros ([k2 v2] & -> & Hin)%list_elem_of_fmap. unfold above in Hk. rewrite Forall_forall in Hk. specialize (Hk _ Hin). simpl in *. lia.
      * assert (k = k') as -> by lia. by rewrite lookup_insert_eq.
Qed.

(** a leaf has one of two sizes *)
Definition cap_for (es : list KV) : Z := if len es <=? max_small_leaf_size then max_small_leaf_size else max_big_leaf_size.
Lemma cap_for_small es : len es ≤ 2 → cap_for es = max_small_leaf_size.
Proof. intros H. unfold cap_for, max_small_leaf_size. by rewrite (proj2 (Z.leb_le _ _)). Qed.
Lemma cap_for_big es : 2 < len es → cap_for es = max_big_leaf_size.
Proof. intros H. unfold cap_for, max_small_leaf_size. by rewrite (proj2 (Z.leb_gt _ _)). Qed.
Definition leaf_holds (o : obj) (key bn : Z) (es : list KV) : Prop := ∃ pad,
  o = leaf key bn (len es) (cap_for es) (es ++ pad) ∧ len (es ++ pad) = cap_for es.

Lemma art_leaf_find_spec o key bn es k : leaf_holds o key bn es → sorted es → leaf_find o k = inr (to_map es !! k).
Proof.
  intros (pad & -> & _) Hs. unfold leaf_find.
  apply (art_find_from_spec k es pad [] _ 0); [done|rewrite length_app; lia|done].
Qed.

Lemma differs_spec j b kvs : 0 ≤ j < K → ∃ d : bool, differs K kvs j b = inr d ∧
  if d then Exists (λ e, byte e.1 j ≠ b) kvs else Forall (λ e, byte e.1 j = b) kvs.
Proof.
  intros Hj. induction kvs as [|e kvs (d & Hd & IH)]; [exists false; split; [done|constructor]|]. cbn [differs].
  rewrite (proj2 (Z.leb_gt K j)) by lia. rewrite get_byte_in by lia. unfold mbind, err_bind.
  destruct (Z.eqb_spec (byte e.1 j) b) as [Heq|Hne]; cbn [negb].
  - exists d. split; [done|]. destruct d; [by apply Exists_cons_tl|by constructor].
  - exists true. split; [done|]. by apply Exists_cons_hd.
Qed.

(** the keys agree on the bytes before the one that is found *)
Lemma first_diff_from_spec e kvs n : ∀ j, 0 ≤ j → (Z.to_nat (K - j) < n)%nat → j ≤ K →
  Forall (λ e', agree j e.1 e'.1) kvs → Exists (λ e', e'.1 ≠ e.1) kvs →
  ∃ d, first_diff_from K (e :: kvs) n j = inr d ∧ j ≤ d < K ∧ Forall (λ e', agree d e.1 e'.1) kvs ∧
    Exists (λ e', byte e'.1 d ≠ byte e.1 d) kvs.
Proof.
  induction n as [|n IH]; intros j Hj Hn HjK Ha Hne; [lia|].
  assert (j < K) as HjlK.
  { destruct (decide (j < K)) as [|Hge]; [done|]. exfalso. assert (j = K) as -> by lia.
    apply Exists_exists in Hne as (e' & Hin & Hne). rewrite Forall_forall in Ha. apply Hne. symmetry. apply agree_full. by apply Ha. }
  cbn [first_diff_from]. rewrite get_byte_in by lia. unfold mbind, err_bind. cbn beta iota.
  destruct (differs_spec j (byte e.1 j) kvs) as (d & -> & Hd); [lia|].
  destruct d; [exists j; split; [done|]; split; [lia|done]|].
  destruct (IH (j + 1)) as (d & Hfd & Hle & Had & Hex); [lia|lia|lia| |done|].
  - rewrite Forall_forall in Ha, Hd |- *. intros e' Hin. apply agree_next; [lia|]. split; [by apply Ha|]. symmetry. by apply Hd.
  - exists d. rewrite Hfd. split; [done|]. split; [lia|done].
Qed.
(** [d] is the byte at which the keys of a leaf first differ, [K] for a single one *)
Definition exact_byte (d key : Z) (es : list KV) : Prop :=
  Forall (λ e, agree d key e.1) es ∧ key ∈ es.*1 ∧
  (len es = 1 ∧ d = K ∨ d < K ∧ Exists (λ e, byte e.1 d ≠ byte key d) es).
Lemma first_diff_spec j e kvs : 0 ≤ j ≤ K → Forall (λ e', agree j e.1 e'.1) kvs → sorted (e :: kvs) →
  ∃ d, first_diff K j (e :: kvs) = inr d ∧ j ≤ d ≤ K ∧ exact_byte d e.1 (e :: kvs).
Proof.
  intros Hj Ha Hs. unfold first_diff. case_bool.
  - destruct kvs; simpl in *; [|lia]. exists K. split; [done|]. split; [lia|]. split; [by repeat constructor|]. split; [by left|by left].
  - destruct kvs as [|e2 kvs]; [done|]. destruct e as [k0 v0]. apply sorted_cons in Hs as [Hab _].
    destruct (first_diff_from_spec (k0, v0) (e2 :: kvs) (S (Z.to_nat K)) j) as (d & Hd & Hle & Had & Hex); [lia|lia|lia|done| |].
    + apply Exists_cons_hd. apply Forall_cons in Hab as [? _]. simpl in *. lia.
    + exists d. split; [done|]. split; [lia|]. split; [by constructor|]. split; [by left|]. right. split; [lia|by apply Exists_cons_tl].
Qed.

Lemma blanks_length cap : length (blanks cap) = Z.to_nat cap.
Proof. apply length_replicate. Qed.
Lemma blanks_drop cap n : length (drop n (blanks cap)) = (Z.to_nat cap - n)%nat.
Proof. by rewrite length_drop, blanks_length. Qed.

Lemma leaf_insert_spec cap k v e1 e2 pad : below k e1 → above k e2 → len (e1 ++ e2) < cap →
  ∃ pad', leaf_insert ((e1 ++ e2) ++ pad) (blanks cap) (len (e1 ++ e2)) k v = inr ((e1 ++ (k, v) :: e2) ++ pad') ∧
    len ((e1 ++ (k, v) :: e2) ++ pad') = cap.
Proof.
  intros Hb Ha Hlt. unfold leaf_insert. rewrite length_app in Hlt.
  pose proof (copy_less_spec k (len (e1 ++ e2)) e1 [] (blanks cap) [] e2 pad (S (length ((e1 ++ e2) ++ pad))) 0) as Hc.
  simpl app in Hc. rewrite Hc; clear Hc; try done; rewrite ?blanks_length, ?length_app; try lia.
  2: { eapply Forall_impl; [exact Ha|]. simpl. lia. }
  unfold mbind, err_bind. rewrite Z.add_0_l. pose proof (blanks_drop cap (length e1)) as Hd.
  destruct (drop (length e1) (blanks cap)) as [|x rest] eqn:E; [simpl in Hd; lia|].
  rewrite put_app by done. simpl in Hd. replace (Z.to_nat _) with (length e2) by lia.
  replace (e1 ++ (k, v) :: rest) with ((e1 ++ [(k, v)]) ++ rest) by (by rewrite <-app_assoc).
  rewrite (copy_spec e2 (e1 ++ [(k, v)]) rest _ e1 pad).
  - exists (drop (length e2) rest). split; [by rewrite <-!app_assoc|]. rewrite !length_app, length_drop. simpl. lia.
  - rewrite length_app. simpl. lia.
  - lia.
  - by rewrite <-app_assoc.
  - lia.
Qed.

Lemma get_first {A} (e : A) l : get (e :: l) 0 = inr e.
Proof. done. Qed.
(** copying the entries of other keys *)
Definition others (k : Z) (c : list KV) : list KV := filter (λ e, e.1 ≠ k) c.
Lemma copy_others_spec k c : ∀ out rest pre post i j, i = len pre → j = len out →
  (length (others k c) ≤ length rest)%nat →
  copy_others (out ++ rest) (pre ++ c ++ post) k (length c) i j =
    inr (out ++ others k c ++ drop (length (others k c)) rest).
Proof.
  induction c as [|e c IH]; intros out rest pre post i j Hi Hj Hr; [done|]. cbn [copy_others length app].
  rewrite get_app by done. unfold mbind, err_bind. unfold others in *. rewrite filter_cons in Hr |- *.
  replace (pre ++ e :: c ++ post) with ((pre ++ [e]) ++ c ++ post) by (by rewrite <-app_assoc).
  destruct (Z.eqb_spec e.1 k) as [Heq|Hne].
  - rewrite decide_False in Hr |- * by lia. apply IH; [rewrite length_app; simpl; lia|done|done].
  - rewrite decide_True in Hr |- * by done. destruct rest as [|x rest]; simpl in Hr; [lia|]. rewrite put_app by done.
    replace (out ++ e :: rest) with ((out ++ [e]) ++ rest) by (by rewrite <-app_assoc).
    rewrite IH; [|rewrite length_app; simpl; lia|rewrite length_app; simpl; lia|lia]. by rewrite <-app_assoc.
Qed.
Lemma others_middle k v e1 e2 : below k e1 → above k e2 → others k (e1 ++ (k, v) :: e2) = e1 ++ e2.
Proof.
  intros Hb Ha. unfold others. rewrite filter_app, filter_cons_False by (simpl; lia).
  assert (∀ l : list KV, Forall (λ e, e.1 ≠ k) l → filter (λ e, e.1 ≠ k) l = l) as Hall.
  { induction 1 as [|e l He _ IH]; [done|]. by rewrite filter_cons_True, IH. }
  rewrite !Hall; [done| |]; (eapply Forall_impl; [eassumption|]; simpl; lia).
Qed.

Lemma remove_from_leaf_spec key bn o k v e1 e2 : leaf_holds o key bn (e1 ++ (k, v) :: e2) → 0 ≤ bn ≤ K →
  sorted (e1 ++ (k, v) :: e2) → e1 ++ e2 ≠ [] → len (e1 ++ (k, v) :: e2) ≤ max_big_leaf_size →
  (∀ x y, x ∈ e1 ++ e2 → y ∈ e1 ++ e2 → agree bn x.1 y.1) →
  ∃ key' bn' o', remove_from_leaf K (cap_for (e1 ++ e2)) o k = inr o' ∧ leaf_holds o' key' bn' (e1 ++ e2) ∧
    bn ≤ bn' ≤ K ∧ exact_byte bn' key' (e1 ++ e2).
Proof.
  intros (pad & -> & Hcap) Hbn Hs Hne Hle Hag. apply sorted_delete in Hs as (Hs & Hb & Ha).
  unfold remove_from_leaf. rewrite Nat2Z.id.
  assert (length (e1 ++ e2) ≤ Z.to_nat (cap_for (e1 ++ e2)))%nat as Hfit.
  { unfold cap_for. rewrite length_app in Hle. simpl in Hle. rewrite length_app in *.
    unfold max_small_leaf_size, max_big_leaf_size in *. case_bool; lia. }
  pose proof (copy_others_spec k (e1 ++ (k, v) :: e2) [] (blanks (cap_for (e1 ++ e2))) [] pad 0 0 eq_refl eq_refl) as Hc.
  rewrite others_middle in Hc by done. simpl app in Hc. rewrite Hc by (by rewrite blanks_length). clear Hc.
  unfold mbind, err_bind. cbn beta iota. set (rest := drop _ _).
  assert (len ((e1 ++ e2) ++ rest) = cap_for (e1 ++ e2)) as Hlen.
  { unfold rest. rewrite length_app, blanks_drop. assert (0 ≤ cap_for (e1 ++ e2)) by (unfold cap_for; case_bool; done). lia. }
  destruct (e1 ++ e2) as [|e es] eqn:E; [done|]. cbn [app]. rewrite get_first.
  assert (len (e1 ++ (k, v) :: e2) - 1 = len (e :: es)) as ->.
  { rewrite <-E, !length_app. simpl. lia. }
  rewrite Nat2Z.id. change (e :: es ++ rest) with ((e :: es) ++ rest). rewrite take_app_length.
  destruct (first_diff_spec bn e es) as (d & -> & Hd & Hex); [done| |done|].
  { apply Forall_forall. intros e' Hin. apply Hag; [by left|by right]. }
  exists e.1, d, (leaf e.1 d (len (e :: es)) (cap_for (e :: es)) ((e :: es) ++ rest)). split; [done|].
  split; [by exists rest|]. done.
Qed.

(** the leaf with an entry more *)
Lemma add_to_leaf_spec key bn o k v e1 e2 pos : leaf_holds o key bn (e1 ++ e2) → below k e1 → above k e2 →
  len (e1 ++ e2) < max_big_leaf_size →
  ∃ o', add_to_leaf (cap_for (e1 ++ (k, v) :: e2)) pos o k v = inr o' ∧ leaf_holds o' key pos (e1 ++ (k, v) :: e2).
Proof.
  intros (pad & -> & _) Hb Ha Hlt. unfold add_to_leaf.
  assert (len (e1 ++ (k, v) :: e2) = len (e1 ++ e2) + 1) as Hlen by (rewrite !length_app; simpl; lia).
  assert (len (e1 ++ e2) < cap_for (e1 ++ (k, v) :: e2)) as Hfit.
  { unfold cap_for, max_small_leaf_size, max_big_leaf_size in *. case_bool; lia. }
  destruct (leaf_insert_spec (cap_for (e1 ++ (k, v) :: e2)) k v e1 e2 pad Hb Ha Hfit) as (pad' & Hins & Hcap).
  rewrite Hins. unfold mbind, err_bind. eexists. split; [done|]. exists pad'. by rewrite Hlen.
Qed.
Lemma singleton_leaf_spec k v : ∃ o, singleton_leaf K max_small_leaf_size k v = inr o ∧ leaf_holds o k K [(k, v)].
Proof. eexists. split; [reflexivity|]. by exists [(0, 0)]. Qed.

Lemma multi_leaf_spec pos e es : 0 ≤ pos ≤ K → sorted (e :: es) → Forall (λ e', agree pos e.1 e'.1) es →
  len (e :: es) ≤ max_big_leaf_size → ∃ d o, multi_leaf K (cap_for (e :: es)) pos (e :: es) = inr o ∧
    leaf_holds o e.1 d (e :: es) ∧ pos ≤ d ≤ K ∧ exact_byte d e.1 (e :: es).
Proof.
  intros Hpos Hs Ha Hle. destruct (first_diff_spec pos e es Hpos Ha Hs) as (d & Hd & Hdle & Hex).
  assert (len (e :: es) ≤ cap_for (e :: es)) as Hfit.
  { unfold cap_for, max_small_leaf_size, max_big_leaf_size in *. case_bool; lia. }
  unfold multi_leaf. rewrite Hd. unfold mbind, err_bind. rewrite fill_spec by done. cbn [app]. rewrite get_first.
  eexists d, _. split; [done|]. split.
  - eexists. split; [done|]. rewrite length_app, length_replicate. lia.
  - done.
Qed.
End bytes.
