(* ===== verification/ArtNodes.v ===== *)
(** * ArtNodes: the inner nodes of [ArtTree].

    Full, indirect and sparse nodes are three ways to keep the same thing: the
    bytes of the children and the children.  [shape] says so; searching a node,
    changing a child and growing a node are stated over it once. *)

From stdpp Require Import prelude list gmap.
From Stdlib Require Import ZArith Lia Sorted.
From S2P Require Import Prelude Conc SpinLock Store MapSpec Arrays ArtTree ArtBytes.
Import Art.
Local Open Scope Z_scope.
#[local] Abbreviation len l := (Z.of_nat (length l)).

(** ** Arrays by index *)
Lemma put_get {T} (a : list T) i e : 0 ≤ i < len a → ∃ a', put a i e = inr a' ∧ length a' = length a ∧
  ∀ j, get a' j = if decide (i = j) then inr e else get a j.
Proof.
  intros Hi. unfold put. rewrite (proj2 (Z.ltb_ge i 0)), (proj2 (Z.leb_gt _ i)) by lia.
  eexists. split; [done|]. split; [apply length_insert|]. intros j. unfold get. case_decide as Hij.
  - subst j. rewrite (proj2 (Z.ltb_ge i 0)) by lia. rewrite list_lookup_insert_eq by lia. done.
  - destruct (Z.ltb_spec j 0); [done|]. rewrite list_lookup_insert_ne by lia. done.
Qed.
Lemma get_at {T} (a : list T) j e : a !! j = Some e → get a (Z.of_nat j) = inr e.
Proof. intros H. unfold get. rewrite (proj2 (Z.ltb_ge _ 0)) by lia. by rewrite Nat2Z.id, H. Qed.
Lemma get_fill {T} (l : list T) b n j e : l !! j = Some e → get (l ++ replicate n b) (Z.of_nat j) = inr e.
Proof. intros H. apply get_at. by apply lookup_app_l_Some. Qed.

(** the bytes of the children, by their place in [idx] *)
Definition is_byte (b : Z) : Prop := 0 ≤ b < 256.
Definition idx_ok (idx bytes : list Z) : Prop :=
  length idx = 256%nat ∧ (∀ j b, bytes !! j = Some b → get idx b = inr (Z.of_nat j)) ∧
  (∀ b, is_byte b → (b ∉ bytes) → get idx b = inr (-1)).
Lemma idx_ok_empty : idx_ok (replicate 256 (-1)) [].
Proof.
  split; [done|]. split; [done|]. intros b Hb _. unfold is_byte in Hb. rewrite <-(Z2Nat.id b) by lia. apply get_at.
  apply lookup_replicate. split; [done|lia].
Qed.
Lemma idx_ok_snoc idx bytes b : idx_ok idx bytes → (b ∉ bytes) → is_byte b →
  ∃ idx', put idx b (len bytes) = inr idx' ∧ idx_ok idx' (bytes ++ [b]).
Proof.
  intros (Hl & Hin & Hout) Hb Hr. destruct (put_get idx b (len bytes)) as (idx' & Hput & Hl' & Hget).
  { unfold is_byte in Hr. lia. }
  exists idx'. split; [done|]. split; [lia|]. split.
  - intros j b' [Hj|[Hj Hx]]%lookup_app_Some; rewrite Hget.
    + rewrite decide_False; [by apply Hin|]. intros ->. apply Hb. by eapply list_elem_of_lookup_2.
    + destruct (j - length bytes)%nat as [|i] eqn:E; [|done]. injection Hx as ->. rewrite decide_True by done. f_equal. lia.
  - intros b' Hr' [Hb1 Hb2]%not_elem_of_app. rewrite Hget, decide_False; [by apply Hout|]. intros ->. apply Hb2. by left.
Qed.
Lemma index_keys_spec bs : ∀ idx done_ post, idx_ok idx done_ → NoDup (done_ ++ bs) → Forall is_byte bs →
  ∃ idx', index_keys idx (done_ ++ bs ++ post) (length bs) (len done_) = inr idx' ∧ idx_ok idx' (done_ ++ bs).
Proof.
  induction bs as [|b bs IH]; intros idx done_ post Hi Hnd Hr; [exists idx; by rewrite app_nil_r|].
  apply Forall_cons in Hr as [Hb Hr]. cbn [index_keys length app]. rewrite get_app by done.
  destruct (idx_ok_snoc idx done_ b Hi) as (idx1 & Hput & Hi1); [|done|].
  { apply NoDup_app in Hnd as (_ & Hd & _). intros Hin. apply (Hd b Hin). by left. }
  unfold mbind, err_bind. rewrite Hput.
  assert (∀ l : list Z, done_ ++ b :: l = (done_ ++ [b]) ++ l) as Happ by (intros; by rewrite <-app_assoc).
  rewrite (Happ (bs ++ post)), (Happ bs) in *. replace (len done_ + 1) with (len (done_ ++ [b])) by (rewrite length_app; simpl; lia).
  by apply IH.
Qed.

(** ** The child for a byte, and children spread out over all bytes *)
Fixpoint child_of {A} (bytes : list Z) (l : list A) (b : Z) : option A :=
  match bytes, l with
  | b' :: bytes', c :: l' => if decide (b' = b) then Some c else child_of bytes' l' b
  | _, _ => None
  end.
Definition spread {A} (d : A) (bytes : list Z) (l : list A) : list A :=
  (λ b, default d (child_of bytes l b)) <$> seqZ 0 256.

Lemma child_of_in {A} bs1 b bs2 (c1 : list A) c c2 : (b ∉ bs1) → length bs1 = length c1 →
  child_of (bs1 ++ b :: bs2) (c1 ++ c :: c2) b = Some c.
Proof.
  revert c1. induction bs1 as [|b1 bs1 IH]; intros [|x c1] Hb Hl; try done; simpl; [by rewrite decide_True|].
  apply not_elem_of_cons in Hb as [? Hb]. rewrite decide_False by done. apply IH; [done|]. by injection Hl.
Qed.
Lemma child_of_out {A} bytes (l : list A) b : (b ∉ bytes) → child_of bytes l b = None.
Proof.
  revert l. induction bytes as [|b1 bytes IH]; intros [|x l] Hb; try done. simpl.
  apply not_elem_of_cons in Hb as [? Hb]. rewrite decide_False by done. by apply IH.
Qed.
Lemma child_of_fmap {A B} (f : A → B) bytes l b : child_of bytes (f <$> l) b = f <$> child_of bytes l b.
Proof. revert l. induction bytes as [|b1 bytes IH]; intros [|x l]; try done. simpl. by case_decide. Qed.
Lemma child_of_some {A} bytes (l : list A) b c : child_of bytes l b = Some c → c ∈ l ∧ ∃ j, bytes !! j = Some b ∧ l !! j = Some c.
Proof.
  revert l. induction bytes as [|b1 bytes IH]; intros [|x l]; try done. simpl. case_decide as Hb.
  - intros [= ->]. split; [by left|]. exists 0%nat. by rewrite Hb.
  - intros (Hc & j & ? & ?)%IH. split; [by right|]. by exists (S j).
Qed.

Lemma spread_length {A} (d : A) bytes l : length (spread d bytes l) = 256%nat.
Proof. unfold spread. by rewrite length_fmap, length_seqZ. Qed.
Lemma spread_lookup {A} (d : A) bytes l b : is_byte b →
  spread d bytes l !! Z.to_nat b = Some (default d (child_of bytes l b)).
Proof.
  intros Hb. unfold is_byte in Hb. unfold spread. rewrite list_lookup_fmap, lookup_seqZ_lt by lia.
  simpl. do 3 f_equal. lia.
Qed.
Lemma spread_fmap {A B} (f : A → B) d bytes l : spread (f d) bytes (f <$> l) = f <$> spread d bytes l.
Proof.
  unfold spread. rewrite <-list_fmap_compose. apply list_fmap_ext. intros i b _. simpl.
  rewrite child_of_fmap. by destruct (child_of bytes l b).
Qed.
(** nothing is lost or made *)
Lemma spread_concat {A B} (f : A → list B) d (all bytes : list Z) : f d = [] → ∀ l, NoDup bytes → NoDup all →
  (∀ b, b ∈ bytes → b ∈ all) → length bytes = length l →
  concat (f <$> ((λ b, default d (child_of bytes l b)) <$> all)) ≡ₚ concat (f <$> l).
Proof.
  intros Hd. revert all. induction bytes as [|b bytes IH]; intros all [|c l] Hnd Hall Hsub Hl; try done.
  - clear -Hd. induction all as [|x all IH]; [done|]. simpl. by rewrite Hd.
  - apply NoDup_cons in Hnd as [Hb Hnd]. injection Hl as Hl.
    destruct (list_elem_of_split all b) as (x & y & ->); [apply Hsub; by left|].
    rewrite <-Permutation_middle in Hall. apply NoDup_cons in Hall as [Hx Hall].
    rewrite (fmap_cons f c l). cbn [concat]. rewrite <-(IH (x ++ y) l Hnd Hall); [| |done].
    + rewrite !fmap_app, !concat_app. simpl. rewrite decide_True by done. simpl.
      assert (∀ z : list Z, (b ∉ z) → f <$> ((λ b0, default d (if decide (b = b0) then Some c else child_of bytes l b0)) <$> z) =
        f <$> ((λ b0, default d (child_of bytes l b0)) <$> z)) as Hz.
      { intros z Hz. f_equal. apply list_fmap_ext. intros i b0 Hi. rewrite decide_False; [done|]. intros ->.
        apply Hz. by eapply list_elem_of_lookup_2. }
      apply not_elem_of_app in Hx as [Hx Hy]. rewrite !Hz by done. solve_Permutation.
    + intros b' Hb'. specialize (Hsub b' ltac:(by right)). rewrite elem_of_app in *. rewrite elem_of_cons in Hsub.
      destruct Hsub as [?|[->|?]]; [by left|done|by right].
Qed.

Lemma spread_forall {A} (P : A → Prop) d bytes l : P d → Forall P l → Forall P (spread d bytes l).
Proof.
  intros Hd Hl. apply Forall_fmap, Forall_forall. intros b _. simpl. destruct (child_of bytes l b) as [c|] eqn:E; [|done].
  apply child_of_some in E as [Hc _]. rewrite Forall_forall in Hl. by apply Hl.
Qed.
Lemma spread_linked {A} (R : Z → A → Prop) d bytes l : (∀ b, R b d) → Forall2 R bytes l → Forall2 R (seqZ 0 256) (spread d bytes l).
Proof.
  intros Hd Hl. apply Forall2_fmap_r, Forall_Forall2_diag, Forall_forall. intros b _.
  pose proof (child_of_some bytes l b) as Hs. destruct (child_of bytes l b) as [c|] eqn:E; simpl; rewrite E; simpl; [|by apply Hd].
  destruct (Hs c eq_refl) as (_ & j & Hb & Hc). by eapply Forall2_lookup_lr.
Qed.

(** ** Shapes *)
Section shapes.
Context (K : Z) (alloc : gmap Z obj → Z) {fresh : Allocator alloc} (tid : nat).
#[local] Abbreviation state := (store_state obj).
#[local] Abbreviation byte := (byte K).
#[local] Abbreviation extends := (extends tid).
Implicit Types s : state.

Inductive shape (rm : bool) (key bn : Z) : obj → list Z → list Z → Prop :=
  | full_shape ch : length ch = 256%nat → shape rm key bn (full_node key bn rm ch) (seqZ 0 256) ch
  | indirect_shape bytes ch idx n : idx_ok idx bytes → length bytes = length ch → len ch + Z.of_nat n = max_indirect_size →
      shape rm key bn (indirect_node key bn (len ch) rm idx (ch ++ replicate n 0)) bytes ch
  | sparse_shape bytes ch n m : length bytes = length ch → len ch + Z.of_nat n = max_sparse_size → m = n →
      shape rm key bn (sparse_node key bn (len ch) rm (bytes ++ replicate m 0) (ch ++ replicate n 0)) bytes ch.

Lemma all_bytes b : b ∈ seqZ 0 256 ↔ is_byte b.
Proof. rewrite elem_of_seqZ. unfold is_byte. lia. Qed.
Lemma shape_header rm key bn o bytes ch : shape rm key bn o bytes ch →
  key_of o = key ∧ byte_num_of o = bn ∧ is_leaf o = false ∧ length bytes = length ch.
Proof. intros [ch' Hl| |]; split_and!; try done. Qed.

Lemma key_index_in kb bs1 : ∀ pre bs2 post n i, i = len pre → (length bs1 < n)%nat → (kb ∉ bs1) →
  key_index (pre ++ (bs1 ++ kb :: bs2) ++ post) (i + len (bs1 ++ kb :: bs2)) kb n i = inr (Some (i + len bs1)).
Proof.
  induction bs1 as [|b bs1 IH]; intros pre bs2 post [|n] i Hi Hn Hb; simpl in Hn; try lia; cbn [key_index].
  - rewrite (proj2 (Z.ltb_lt _ _)) by (simpl; lia). cbn [app]. rewrite get_app by done. unfold mbind, err_bind.
    rewrite Z.eqb_refl. do 2 f_equal. simpl. lia.
  - rewrite (proj2 (Z.ltb_lt _ _)) by (simpl; lia). cbn [app]. rewrite get_app by done. unfold mbind, err_bind.
    apply not_elem_of_cons in Hb as [Hne Hb]. rewrite (proj2 (Z.eqb_neq b kb)) by done.
    specialize (IH (pre ++ [b]) bs2 post n (i + 1)). rewrite <-!app_assoc in IH. cbn [app] in IH.
    rewrite <-!app_assoc. cbn [app]. simpl length. replace (i + Z.of_nat (S (length (bs1 ++ kb :: bs2)))) with (i + 1 + len (bs1 ++ kb :: bs2)) by lia.
    rewrite IH; [do 2 f_equal; lia| |lia|done]. rewrite length_app. simpl. lia.
Qed.
Lemma key_index_out kb bs : ∀ pre post n i, i = len pre → (length bs < n)%nat → (kb ∉ bs) →
  key_index (pre ++ bs ++ post) (i + len bs) kb n i = inr None.
Proof.
  induction bs as [|b bs IH]; intros pre post [|n] i Hi Hn Hb; simpl in Hn; try lia; cbn [key_index].
  - simpl. by rewrite Z.add_0_r, Z.ltb_irrefl.
  - rewrite (proj2 (Z.ltb_lt _ _)) by (simpl; lia). cbn [app]. rewrite get_app by done. unfold mbind, err_bind.
    apply not_elem_of_cons in Hb as [Hne Hb]. rewrite (proj2 (Z.eqb_neq b kb)) by done.
    specialize (IH (pre ++ [b]) post n (i + 1)). rewrite <-!app_assoc in IH. cbn [app] in IH.
    simpl length. replace (i + Z.of_nat (S (length bs))) with (i + 1 + len bs) by lia.
    apply IH; [|lia|done]. rewrite length_app. simpl. lia.
Qed.

(** the place of the child for a key *)
Lemma shape_child_in rm key bn o bs1 bs2 ch k : shape rm key bn o (bs1 ++ byte k bn :: bs2) ch → 0 ≤ bn < K →
  (byte k bn ∉ bs1) → get_child K o k = inr (Some (len bs1)).
Proof.
  intros Hsh Hbn Hb. remember (bs1 ++ byte k bn :: bs2) as bytes eqn:E.
  destruct Hsh as [ch Hl|bytes ch idx n (_ & Hin & _) _ _|bytes ch n m Hl Hsz _]; unfold get_child; rewrite get_byte_in by done;
    unfold mbind, err_bind; cbn beta iota.
  - assert (seqZ 0 256 !! length bs1 = Some (byte k bn)) as Hx by (by rewrite E, list_lookup_middle).
    apply lookup_seqZ in Hx as [Hx _]. do 2 f_equal. lia.
  - rewrite (Hin (length bs1)) by (by rewrite E, list_lookup_middle). rewrite (proj2 (Z.eqb_neq _ _)) by lia. done.
  - rewrite <-Hl, E. apply (key_index_in _ bs1 [] bs2 _ _ 0); [done| |done]. rewrite !length_app. simpl. lia.
Qed.
Lemma shape_child_out rm key bn o bytes ch k : shape rm key bn o bytes ch → 0 ≤ bn < K →
  (byte k bn ∉ bytes) → get_child K o k = inr None.
Proof.
  intros Hsh Hbn Hb. destruct Hsh as [ch Hl|bytes ch idx n (_ & _ & Hout) _ _|bytes ch n m Hl Hsz _]; unfold get_child; rewrite get_byte_in by done;
    unfold mbind, err_bind; cbn beta iota.
  - destruct Hb. apply all_bytes. apply byte_range.
  - rewrite Hout by (done || apply byte_range). done.
  - rewrite <-Hl. apply (key_index_out _ bytes [] _ _ 0); [done| |done]. rewrite length_app. lia.
Qed.

(** reading and changing a child, and the mark *)
Lemma insert_middle {A} (l1 : list A) x l2 r y : <[length l1 := y]> ((l1 ++ x :: l2) ++ r) = (l1 ++ y :: l2) ++ r.
Proof. rewrite <-!app_assoc. simpl. rewrite insert_app_r_alt by done. by rewrite Nat.sub_diag. Qed.

Context {A : Type}.
Implicit Types (Q : A → state → Prop).
Lemma wp_slot rm key bn o bytes c1 c c2 p i (k : Z → prog state A) Q s :
  shape rm key bn o bytes (c1 ++ c :: c2) → nodes s !! p = Some o → i = len c1 →
  wp (k c) Q s → wp (load (slot_c p i) ≫= k) Q s.
Proof.
  intros Hsh Hn -> Hk. eapply wp_read; [exact Hn| |exact Hk]. remember (c1 ++ c :: c2) as ch eqn:E.
  destruct Hsh; cbv beta iota; subst ch; [by apply get_app| |]; apply get_fill; by apply list_lookup_middle.
Qed.
Lemma wp_set_slot rm key bn o bytes c1 c c2 p i x (k : unit → prog state A) Q s :
  shape rm key bn o bytes (c1 ++ c :: c2) → nodes s !! p = Some o → i = len c1 →
  (∀ o', shape rm key bn o' bytes (c1 ++ x :: c2) → wp (k tt) Q (set_nodes (<[p := o']> (nodes s)) s)) →
  wp (store (slot_c p i) x ≫= k) Q s.
Proof.
  intros Hsh Hn -> Hk. remember (c1 ++ c :: c2) as ch eqn:E.
  assert (length (c1 ++ x :: c2) = length ch) as Hlen by (rewrite E, !length_app; done).
  destruct Hsh as [ch Hl|bytes ch idx n Hi Hl Hsz|bytes ch n m Hl Hsz Hm]; (eapply (wp_write _ _ _ _ c); [exact Hn| |]).
  1, 3, 5: cbv beta iota; subst ch; first [by apply get_app|apply get_fill; by apply list_lookup_middle].
  - apply Hk. rewrite Nat2Z.id, E, insert_app_r_alt, Nat.sub_diag by done. constructor. lia.
  - apply Hk. rewrite Nat2Z.id, <-Hlen, E, insert_middle. constructor; [done|lia|lia].
  - apply Hk. rewrite Nat2Z.id, <-Hlen, E, insert_middle. constructor; [lia|lia|done].
Qed.
Lemma wp_removed rm key bn o bytes ch p (k : bool → prog state A) Q s :
  shape rm key bn o bytes ch → nodes s !! p = Some o → wp (k rm) Q s → wp (load (removed_c p) ≫= k) Q s.
Proof. intros Hsh Hn Hk. eapply wp_read; [exact Hn|by destruct Hsh|exact Hk]. Qed.
Lemma wp_set_removed rm rm' key bn o bytes ch p (k : unit → prog state A) Q s :
  shape rm key bn o bytes ch → nodes s !! p = Some o →
  (∀ o', shape rm' key bn o' bytes ch → wp (k tt) Q (set_nodes (<[p := o']> (nodes s)) s)) →
  wp (store (removed_c p) rm' ≫= k) Q s.
Proof.
  intros Hsh Hn Hk. destruct Hsh; (eapply (wp_write _ _ _ _ rm); [exact Hn|done|]); apply Hk; by constructor.
Qed.
Lemma wp_make r o (k : Z → prog state A) Q s : r = inr o →
  (∀ a s', extends s [a] s' → nodes s' !! a = Some o → wp (k a) Q s') → wp (make alloc r ≫= k) Q s.
Proof.
  intros -> Hk. unfold make. apply wp_assoc. eapply wp_lift; [done|]. apply (wp_new alloc). intros a Ha Ha0.
  apply Hk; [by apply extends_one|]. simpl. apply lookup_insert_eq.
Qed.

(** ** Growing *)
(** the children of the node made: one more, or one more spread out *)
Definition widened {B} (d : B) (bytes : list Z) (l : list B) (bytes' : list Z) (l' : list B) : Prop :=
  bytes' = bytes ∧ l' = l ∨ bytes' = seqZ 0 256 ∧ l' = spread d bytes l.

Lemma snoc_not_in {B} (b : Z) bytes (l : list B) c : (b ∉ bytes) → length bytes = length l →
  ∀ b', child_of (bytes ++ [b]) (l ++ [c]) b' = if decide (b = b') then Some c else child_of bytes l b'.
Proof.
  intros Hb Hl b'. revert l Hl Hb. induction bytes as [|b1 bytes IH]; intros [|x l] Hl Hb; try done.
  apply not_elem_of_cons in Hb as [Hne Hb]. simpl. destruct (decide (b1 = b')) as [H1|H1].
  - rewrite (decide_False (P := b = b')) by congruence. done.
  - apply IH; [by injection Hl|done].
Qed.
Lemma spread_snoc {B} (d : B) b bytes l c : (b ∉ bytes) → length bytes = length l → is_byte b →
  <[Z.to_nat b := c]> (spread d bytes l) = spread d (bytes ++ [b]) (l ++ [c]).
Proof.
  intros Hb Hl Hr. unfold is_byte in Hr. apply list_eq_same_length with (n := 256%nat); [apply spread_length|by rewrite length_insert, spread_length|].
  intros i x y Hi Hx Hy. rewrite <-(Nat2Z.id i) in Hy. rewrite spread_lookup in Hy by (unfold is_byte; lia).
  rewrite snoc_not_in in Hy by done. injection Hy as <-. case_decide as Hbi.
  - subst b. rewrite Nat2Z.id, list_lookup_insert_eq in Hx by (rewrite spread_length; lia). by injection Hx as <-.
  - rewrite list_lookup_insert_ne in Hx by lia. rewrite <-(Nat2Z.id i), spread_lookup in Hx by (unfold is_byte; lia). by injection Hx as <-.
Qed.

Lemma run_slot rm key bn o bytes ch p i c s : shape rm key bn o bytes ch → nodes s !! p = Some o → ch !! i = Some c →
  run (load (slot_c p (Z.of_nat i))) s = Ok c s.
Proof.
  intros Hsh Hp Hc. apply run_load. unfold slot_c. rewrite (peek_node s p _ _ _ Hp).
  destruct Hsh; cbv beta iota; [by apply get_at| |]; by apply get_fill.
Qed.
(** what the loop over all bytes reads *)
Lemma run_by_byte {B} (f : Z → prog state B) (l : list B) d bytes idx b s : idx_ok idx bytes → NoDup bytes →
  length bytes = length l → is_byte b → (∀ i x, l !! i = Some x → run (f (Z.of_nat i)) s = Ok x s) →
  run (i ← lift (get idx b); if i =? -1 then mret d else f i) s = Ok (default d (child_of bytes l b)) s.
Proof.
  intros (_ & Hin & Hout) Hnd Hl Hb Hf. rewrite run_bind. destruct (decide (b ∈ bytes)) as [Hjb|Hjb].
  - apply list_elem_of_lookup_1 in Hjb as [i Hi]. rewrite (Hin i) by done. cbn [lift run mret prog_ret].
    rewrite (proj2 (Z.eqb_neq _ _)) by lia.
    destruct (lookup_lt_is_Some_2 l i) as [c Hc]; [rewrite <-Hl; by eapply lookup_lt_Some|]. rewrite (Hf i c Hc). f_equal.
    destruct (list_elem_of_split_length bytes i b Hi) as (bs1 & bs2 & -> & Hl1).
    destruct (list_elem_of_split_length l i c Hc) as (c1 & c2 & -> & Hl2).
    apply NoDup_app in Hnd as (_ & Hd & _).
    rewrite child_of_in; [done|intros H; apply (Hd _ H); by left|congruence].
  - rewrite Hout by done. by rewrite child_of_out by done.
Qed.
Lemma run_all_bytes {B} (f : Z → prog state B) (l : list B) d bytes idx s : idx_ok idx bytes → NoDup bytes →
  length bytes = length l → (∀ i x, l !! i = Some x → run (f (Z.of_nat i)) s = Ok x s) →
  run (collect (λ b, i ← lift (get idx b); if i =? -1 then mret d else f i) 256 0) s = Ok (spread d bytes l) s.
Proof.
  intros Hi Hnd Hl Hf. rewrite <-(spread_length d bytes l). apply collect_run. intros j x Hx. rewrite Z.add_0_l.
  assert (j < 256)%nat as Hj by (rewrite <-(spread_length d bytes l); by eapply lookup_lt_Some).
  assert (is_byte (Z.of_nat j)) as Hb by (unfold is_byte; lia).
  pose proof (spread_lookup d bytes l (Z.of_nat j) Hb) as Hs. rewrite Nat2Z.id, Hx in Hs. injection Hs as ->.
  by apply run_by_byte.
Qed.
Lemma run_slots rm key bn o bytes ch p n s : shape rm key bn o bytes ch → nodes s !! p = Some o → n = length ch →
  run (collect (λ i, load (slot_c p i)) n 0) s = Ok ch s.
Proof. intros Hsh Hp ->. apply collect_run. intros j x Hx. rewrite Z.add_0_l. by eapply run_slot. Qed.

(** one more in the same array, or in the array of the next kind *)
Lemma snoc_shape_indirect rm key bn idx bytes ch b c n : idx_ok idx (bytes ++ [b]) → length bytes = length ch →
  len ch + 1 + Z.of_nat n = max_indirect_size →
  shape rm key bn (indirect_node key bn (len ch + 1) rm idx (ch ++ c :: replicate n 0)) (bytes ++ [b]) (ch ++ [c]).
Proof.
  intros Hi Hl Hsz. replace (len ch + 1) with (len (ch ++ [c])) by (rewrite length_app; simpl; lia).
  replace (ch ++ c :: replicate n 0) with ((ch ++ [c]) ++ replicate n 0) by (by rewrite <-app_assoc).
  constructor; [done|rewrite !length_app; simpl; lia|rewrite length_app; simpl; lia].
Qed.
Lemma snoc_shape_sparse rm key bn bytes ch b c n : length bytes = length ch → len ch + 1 + Z.of_nat n = max_sparse_size →
  shape rm key bn (sparse_node key bn (len ch + 1) rm (bytes ++ b :: replicate n 0) (ch ++ c :: replicate n 0)) (bytes ++ [b]) (ch ++ [c]).
Proof.
  intros Hl Hsz. replace (len ch + 1) with (len (ch ++ [c])) by (rewrite length_app; simpl; lia).
  replace (ch ++ c :: replicate n 0) with ((ch ++ [c]) ++ replicate n 0) by (by rewrite <-app_assoc).
  replace (bytes ++ b :: replicate n 0) with ((bytes ++ [b]) ++ replicate n 0) by (by rewrite <-app_assoc).
  constructor; [rewrite !length_app; simpl; lia|rewrite length_app; simpl; lia|done].
Qed.

Lemma shape_cases rm key bn o bytes ch : shape rm key bn o bytes ch →
  (bytes = seqZ 0 256 ∧ o = full_node key bn rm ch) ∨
  (∃ idx ptr, o = indirect_node key bn (len ch) rm idx ptr ∧ idx_ok idx bytes ∧ len ch ≤ max_indirect_size) ∨
  (∃ pad ptr, o = sparse_node key bn (len ch) rm (bytes ++ pad) ptr ∧ len ch ≤ max_sparse_size ∧ (len ch = max_sparse_size → pad = [])).
Proof.
  intros [ch' Hl|bytes' ch' idx n Hi Hl Hsz|bytes' ch' n m Hl Hsz ->]; [by left|right; left|right; right].
  - eexists _, _. split; [done|]. split; [done|lia].
  - eexists _, _. split; [done|]. split; [lia|]. intros Hf. by assert (n = 0%nat) as -> by lia.
Qed.

Section grow.
Context (rm : bool) (key bn : Z) (o1 : obj) (bytes ch : list Z) (p k c : Z) (kk : Z → prog state A) (Q : A → state → Prop) (s : state).
Context (H1 : shape rm key bn o1 bytes ch) (Hp : nodes s !! p = Some o1).
Context (Hnd : NoDup bytes) (Hby : Forall is_byte bytes) (Hbn : 0 ≤ bn < K) (Hb : byte k bn ∉ bytes) (Hl : length bytes = length ch).
Context (Hk : ∀ a s' o' bytes' ch', extends s [a] s' → nodes s' !! a = Some o' → shape false key bn o' bytes' ch' →
    widened 0 (bytes ++ [byte k bn]) (ch ++ [c]) bytes' ch' → wp (kk a) Q s').
Let Hr : is_byte (byte k bn) := byte_range K k bn.

Lemma wp_to_full idx size rm' ptr : idx_ok idx bytes →
  wp (indirect_to_full K alloc p k c (indirect_node key bn size rm' idx ptr) ≫= kk) Q s.
Proof.
  intros Hi. unfold indirect_to_full. apply wp_assoc. rewrite wp_bind.
  eapply wp_of_run; [eapply run_all_bytes; [exact Hi|exact Hnd|exact Hl|intros i x Hx; by eapply run_slot]|].
  pose proof Hr as Hr'. unfold is_byte in Hr'. eapply wp_make.
  - unfold init_child. rewrite get_byte_in by done. unfold mbind, err_bind. cbn beta iota.
    unfold put. rewrite spread_length, (proj2 (Z.ltb_ge _ 0)), (proj2 (Z.leb_gt _ _)) by lia. cbn [orb]. by rewrite spread_snoc.
  - intros a s' He Ha. eapply Hk; [exact He|exact Ha| |by right]. constructor. apply spread_length.
Qed.
Lemma wp_indirect idx rm' ptr : idx_ok idx bytes → len ch < max_indirect_size →
  wp (indirect_to_indirect K alloc p k c (indirect_node key bn (len ch) rm' idx ptr) ≫= kk) Q s.
Proof.
  intros Hi Hlt. unfold indirect_to_indirect. apply wp_assoc. rewrite wp_bind.
  eapply wp_of_run; [eapply run_slots; [exact H1|exact Hp|lia]|].
  destruct (idx_ok_snoc idx bytes _ Hi Hb Hr) as (idx' & Hput & Hi').
  destruct (Z.to_nat max_indirect_size - length ch)%nat as [|n] eqn:Hn; [lia|].
  eapply wp_make; [|intros a s' He Ha; eapply Hk; [exact He|exact Ha| |by left];
    apply (snoc_shape_indirect false key bn idx' bytes ch (byte k bn) c n); [done|done|lia]].
  unfold fill. rewrite (proj2 (Z.leb_le _ _)) by lia. unfold mbind, err_bind. cbn beta iota. unfold init_child.
  rewrite get_byte_in by done. unfold mbind, err_bind. cbn beta iota. rewrite Z.add_simpl_r, <-Hl, Hput, Hl, Hn.
  cbn [replicate]. by rewrite put_app.
Qed.
Lemma wp_to_indirect size rm' ptr : len ch = max_sparse_size →
  wp (sparse_to_indirect K alloc p k c (sparse_node key bn size rm' bytes ptr) ≫= kk) Q s.
Proof.
  intros Hsz. unfold sparse_to_indirect. apply wp_assoc. rewrite wp_bind.
  eapply wp_of_run; [eapply run_slots; [exact H1|exact Hp|lia]|].
  destruct (index_keys_spec bytes (replicate 256 (-1)) [] [] idx_ok_empty Hnd Hby) as (idx1 & Hix & Hi1).
  destruct (idx_ok_snoc idx1 bytes _ Hi1 Hb Hr) as (idx' & Hput & Hi').
  cbn [app length] in Hix. rewrite app_nil_r in Hix. change (Z.of_nat 0) with 0 in Hix.
  eapply wp_make; [|intros a s' He Ha; eapply Hk; [exact He|exact Ha| |by left];
    apply (snoc_shape_indirect false key bn idx' bytes ch (byte k bn) c 47); [done|done|unfold max_indirect_size, max_sparse_size in *; lia]].
  rewrite <-Hsz, <-Hl, Nat2Z.id, Hix. unfold mbind, err_bind. cbn beta iota. unfold fill.
  rewrite (proj2 (Z.leb_le _ max_indirect_size)) by (unfold max_indirect_size, max_sparse_size in *; lia).
  unfold init_child. rewrite get_byte_in by done. unfold mbind, err_bind. cbn beta iota. rewrite Z.add_simpl_r, Hput, Hl.
  replace (Z.to_nat max_indirect_size - length ch)%nat with 48%nat by (unfold max_indirect_size, max_sparse_size in *; lia).
  change (replicate 48 0) with (0 :: replicate 47 0). by rewrite put_app.
Qed.
Lemma wp_sparse rm' pad ptr : len ch < max_sparse_size →
  wp (sparse_to_sparse K alloc p k c (sparse_node key bn (len ch) rm' (bytes ++ pad) ptr) ≫= kk) Q s.
Proof.
  intros Hlt. unfold sparse_to_sparse. apply wp_assoc. rewrite wp_bind.
  eapply wp_of_run; [eapply run_slots; [exact H1|exact Hp|lia]|].
  destruct (Z.to_nat max_sparse_size - length ch)%nat as [|n] eqn:Hn; [lia|].
  eapply wp_make; [|intros a s' He Ha; eapply Hk; [exact He|exact Ha| |by left];
    apply (snoc_shape_sparse false key bn bytes ch (byte k bn) c n); [done|lia]].
  rewrite Nat2Z.id, <-Hl, take_app_length. unfold fill. rewrite Hl, (proj2 (Z.leb_le _ _)) by lia.
  unfold mbind, err_bind. cbn beta iota. unfold init_child. rewrite get_byte_in by done. unfold mbind, err_bind. cbn beta iota.
  rewrite Z.add_simpl_r, Hn. cbn [replicate]. rewrite put_app by lia. by rewrite put_app by lia.
Qed.
Lemma wp_grown o : shape false key bn o bytes ch → wp (grown K alloc p k c o ≫= kk) Q s.
Proof.
  intros [[E _]|[(idx & ptr & -> & Hi & Hle)|(pad & ptr & -> & Hle & Hpad)]]%shape_cases.
  - destruct Hb. rewrite E. by apply all_bytes.
  - unfold grown, is_full. destruct (Z.eqb_spec (len ch) max_indirect_size); [by apply wp_to_full|]. apply wp_indirect; [done|lia].
  - unfold grown, is_full. destruct (Z.eqb_spec (len ch) max_sparse_size) as [Hf|]; [|apply wp_sparse; lia].
    rewrite (Hpad Hf), app_nil_r. by apply wp_to_indirect.
Qed.
End grow.
End shapes.
