(* ===== verification/ArtProof.v ===== *)
(** * ArtProof: the trees of [ArtTree], and where a search goes.

    A tree is well formed when the keys below a node agree with its key on the
    bytes that are skipped, and the child for a byte holds keys with that byte.
    Leaves split exactly where their keys first differ. *)

From stdpp Require Import prelude list gmap.
From Stdlib Require Import ZArith Lia Sorted.
From S2P Require Import Prelude Conc SpinLock Store MapSpec Arrays ArtTree ArtBytes ArtNodes.
Import Art.
Local Open Scope Z_scope.
#[local] Abbreviation KV := (Z * Z)%type.
#[local] Abbreviation len l := (Z.of_nat (length l)).

(** ** Trees *)
Inductive art :=
  | A0
  | AL (a key bn : Z) (es : list KV)
  | AN (a key bn : Z) (bytes : list Z) (cs : list art).
Lemma art_forest_ind (P : art → Prop) : P A0 → (∀ a key bn es, P (AL a key bn es)) →
  (∀ a key bn bytes cs, Forall P cs → P (AN a key bn bytes cs)) → ∀ t, P t.
Proof.
  fix IH 4. intros H0 HL HN [|a key bn es|a key bn bytes cs]; [done|apply HL|]. apply HN.
  induction cs as [|t cs IHcs]; constructor; [by apply IH|done].
Qed.
Definition addr (t : art) : Z := match t with A0 => 0 | AL a _ _ _ | AN a _ _ _ _ => a end.
Definition hkey (t : art) : Z := match t with A0 => 0 | AL _ key _ _ | AN _ key _ _ _ => key end.
Definition hbn (t : art) : Z := match t with A0 => 0 | AL _ _ bn _ | AN _ _ bn _ _ => bn end.
Fixpoint addrs (t : art) : list Z :=
  match t with A0 => [] | AL a _ _ _ => [a] | AN a _ _ _ cs => a :: concat (addrs <$> cs) end.
Fixpoint ents (t : art) : list KV :=
  match t with A0 => [] | AL _ _ _ es => es | AN _ _ _ _ cs => concat (ents <$> cs) end.

Lemma elem_concat {A} (f : art → list A) x ts : x ∈ concat (f <$> ts) ↔ ∃ t, t ∈ ts ∧ x ∈ f t.
Proof.
  induction ts as [|t ts IH]; simpl.
  - rewrite elem_of_nil. split; [done|]. by intros (t & ?%elem_of_nil & _).
  - rewrite elem_of_app, IH. setoid_rewrite elem_of_cons. split.
    + intros [?|(t' & ? & ?)]; [exists t|exists t']; tauto.
    + intros (t' & [->|?] & ?); [tauto|]. right. by exists t'.
Qed.

(** a way down: a node with the children before and after the hole *)
Record frame := Frame {
  f_addr : Z; f_key : Z; f_bn : Z; f_bs1 : list Z; f_cs1 : list art; f_b : Z; f_bs2 : list Z; f_cs2 : list art }.
Definition fplug (f : frame) (t : art) : art :=
  AN (f_addr f) (f_key f) (f_bn f) (f_bs1 f ++ f_b f :: f_bs2 f) (f_cs1 f ++ t :: f_cs2 f).
Fixpoint plug (C : list frame) (t : art) : art := match C with [] => t | f :: C' => plug C' (fplug f t) end.
Definition frame_ok (f : frame) : Prop := length (f_bs1 f) = length (f_cs1 f).
Definition others_of (f : frame) : list art := f_cs1 f ++ f_cs2 f.
Fixpoint caddrs (C : list frame) : list Z :=
  match C with [] => [] | f :: C' => f_addr f :: concat (addrs <$> others_of f) ++ caddrs C' end.
Fixpoint cents (C : list frame) : list KV :=
  match C with [] => [] | f :: C' => concat (ents <$> others_of f) ++ cents C' end.
Definition up (C : list frame) : Z := match C with [] => 0 | f :: _ => f_addr f end.

Lemma art_plug_addrs C t : addrs (plug C t) ≡ₚ caddrs C ++ addrs t.
Proof.
  revert t. induction C as [|f C IH]; intros t; simpl; [done|]. rewrite IH. unfold others_of. simpl.
  rewrite !fmap_app, !concat_app. simpl. solve_Permutation.
Qed.
Lemma art_plug_ents C t : ents (plug C t) ≡ₚ cents C ++ ents t.
Proof.
  revert t. induction C as [|f C IH]; intros t; simpl; [done|]. rewrite IH. unfold others_of. simpl.
  rewrite !fmap_app, !concat_app. simpl. solve_Permutation.
Qed.

Section trees.
Context (K : Z) (K_pos : 0 < K).
#[local] Abbreviation byte := (byte K).
#[local] Abbreviation agree := (agree K).
#[local] Abbreviation in_key := (in_key K).
Implicit Types m : gmap Z obj.

Definition linked (key bn b : Z) (c : art) : Prop := c = A0 ∨ agree bn key (hkey c) ∧ byte (hkey c) bn = b.
Record leaf_ok (key bn : Z) (es : list KV) : Prop := {
  lf_some : es ≠ [];
  lf_sorted : sorted es;
  lf_keys : Forall (λ e, in_key e.1) es;
  lf_size : len es ≤ max_big_leaf_size;
  lf_key : in_key key;
  lf_exact : exact_byte K bn key es;
}.
Inductive wf (lo : Z) : art → Prop :=
  | wf_none : wf lo A0
  | wf_leaf a key bn es : 0 ≤ bn → lo ≤ bn ≤ K → leaf_ok key bn es → wf lo (AL a key bn es)
  | wf_node a key bn bytes cs : 0 ≤ bn → lo ≤ bn < K → in_key key → NoDup bytes → Forall is_byte bytes →
      Forall2 (linked key bn) bytes cs → Forall (wf (bn + 1)) cs → wf lo (AN a key bn bytes cs).
(** the root looks at the first byte, and has a place for each *)
Definition tree_ok (t : art) : Prop := wf 0 t ∧ ∃ a key cs, t = AN a key 0 (seqZ 0 256) cs.

Lemma linked_child key bn bytes cs c : Forall2 (linked key bn) bytes cs → c ∈ cs → ∃ b, b ∈ bytes ∧ linked key bn b c.
Proof.
  induction 1 as [|b c' bytes cs Hl _ IH]; intros Hc; [by apply elem_of_nil in Hc|].
  apply elem_of_cons in Hc as [->|Hc]; [exists b; split; [by left|done]|].
  destruct (IH Hc) as (b' & ? & ?). exists b'. split; [by right|done].
Qed.
Lemma wf_bn lo t : wf lo t → t ≠ A0 → lo ≤ hbn t ≤ K ∧ 0 ≤ hbn t.
Proof. intros [] ?; simpl; [done|lia|lia]. Qed.
Lemma wf_raise lo lo' t : wf lo t → lo' ≤ hbn t → wf lo' t.
Proof. intros [] ?; constructor; simpl in *; try done; lia. Qed.
Lemma wf_hkey lo t : wf lo t → in_key (hkey t).
Proof. intros []; simpl; [|by eapply lf_key|done]. split; [lia|]. apply Z.pow_pos_nonneg; lia. Qed.
Lemma wf_entries t : ∀ lo e, wf lo t → e ∈ ents t → agree (hbn t) (hkey t) e.1 ∧ in_key e.1.
Proof.
  induction t as [|a key bn es|a key bn bytes cs IH] using art_forest_ind; intros lo e Hw He; simpl in *.
  - by apply elem_of_nil in He.
  - inversion Hw as [|? ? ? ? ? ? [_ _ Hk _ _ [Ha _]]|]; subst. rewrite Forall_forall in Hk, Ha. auto.
  - apply elem_concat in He as (c & Hc & He). inversion Hw as [| |? ? ? ? ? ? ? ? ? ? Hl Hf]; subst.
    rewrite Forall_forall in IH, Hf. destruct (IH c Hc _ e (Hf c Hc) He) as [Ha Hk]. split; [|done].
    destruct (linked_child _ _ _ _ _ Hl Hc) as (b & _ & [->|[Hkb _]]); [by apply elem_of_nil in He|].
    assert (c ≠ A0) as Hne by (intros ->; by apply elem_of_nil in He). destruct (wf_bn _ _ (Hf c Hc) Hne).
    eapply agree_trans; [exact Hkb|]. eapply agree_less; [|exact Ha]. lia.
Qed.
Lemma child_entries key bn b c e : linked key bn b c → wf (bn + 1) c → 0 ≤ bn → e ∈ ents c →
  agree bn key e.1 ∧ byte e.1 bn = b.
Proof.
  intros Hl Hw Hbn He. assert (c ≠ A0) as Hne by (intros ->; by apply elem_of_nil in He).
  destruct Hl as [->|[Ha Hb]]; [done|]. destruct (wf_bn _ _ Hw Hne) as [Hle _]. destruct (wf_entries c _ e Hw He) as [Hae _].
  split; [eapply agree_trans; [exact Ha|]; eapply agree_less; [|exact Hae]; lia|].
  rewrite <-Hb. symmetry. apply (agree_byte K bn (hbn c)); [lia|lia|done].
Qed.
(** no key is there twice *)
Lemma wf_nodup t : ∀ lo, wf lo t → NoDup (ents t).*1.
Proof.
  induction t as [|a key bn es|a key bn bytes cs IH] using art_forest_ind; intros lo Hw; simpl.
  - constructor.
  - inversion Hw as [|? ? ? ? ? ? Hlf|]; subst. by eapply sorted_nodup, lf_sorted.
  - inversion Hw as [| |? ? ? ? ? Hbn ? ? Hnd _ Hl Hf]; subst. clear Hw. induction Hl as [|b c bytes cs Hb Hl IHl]; [constructor|].
    apply Forall_cons in IH as [IHc IH]. apply Forall_cons in Hf as [Hc Hf]. apply NoDup_cons in Hnd as [Hnb Hnd].
    rewrite fmap_cons. cbn [concat]. rewrite fmap_app. apply NoDup_app. split; [by eapply IHc|]. split; [|by apply IHl].
    intros k (e & -> & He)%list_elem_of_fmap (e' & Hk & He')%list_elem_of_fmap.
    apply elem_concat in He' as (c' & Hc' & He'). rewrite Forall_forall in Hf.
    destruct (linked_child _ _ _ _ _ Hl Hc') as (b' & Hb' & Hbl).
    destruct (child_entries _ _ _ _ _ Hb Hc Hbn He) as [_ H1]. destruct (child_entries _ _ _ _ _ Hbl (Hf _ Hc') Hbn He') as [_ H2].
    rewrite <-Hk in H2. congruence.
Qed.

(** *** Replacing a subtree *)
Definition fits (C : list frame) (t : art) : Prop :=
  match C with [] => tree_ok t | f :: _ => linked (f_key f) (f_bn f) (f_b f) t ∧ wf (f_bn f + 1) t end.
Lemma fplug_wf lo f : frame_ok f → ∃ P : Prop, ∀ t, wf lo (fplug f t) ↔ P ∧ fits [f] t.
Proof.
  intros Hf. exists (0 ≤ f_bn f ∧ lo ≤ f_bn f < K ∧ in_key (f_key f) ∧ NoDup (f_bs1 f ++ f_b f :: f_bs2 f) ∧
    Forall is_byte (f_bs1 f ++ f_b f :: f_bs2 f) ∧ Forall2 (linked (f_key f) (f_bn f)) (f_bs1 f) (f_cs1 f) ∧
    Forall2 (linked (f_key f) (f_bn f)) (f_bs2 f) (f_cs2 f) ∧ Forall (wf (f_bn f + 1)) (f_cs1 f) ∧ Forall (wf (f_bn f + 1)) (f_cs2 f)).
  intros t. unfold fplug. simpl. split.
  - intros Hw. inversion Hw as [| |? ? ? ? ? ? ? ? ? ? Hl Hc]; subst. apply Forall2_app_inv in Hl as [Hl1 Hl2]; [|done].
    apply Forall2_cons in Hl2 as [Hl Hl2]. apply Forall_app in Hc as [Hc1 [Hc Hc2]%Forall_cons]. tauto.
  - intros ((? & ? & ? & ? & ? & ? & ? & ? & ?) & ? & ?). constructor; try done.
    + apply Forall2_app; [done|]. by constructor.
    + apply Forall_app. split; [done|]. by constructor.
Qed.
Lemma plug_ok C : Forall frame_ok C → ∃ P : Prop, ∀ t, tree_ok (plug C t) ↔ P ∧ fits C t.
Proof.
  induction C as [|f C IH]; intros HC; [exists True; simpl; tauto|]. apply Forall_cons in HC as [Hf HC].
  destruct (IH HC) as [P HP]. simpl plug. destruct C as [|g C].
  - destruct (fplug_wf 0 f Hf) as [P' HP']. cbn [fits] in HP'. exists (P ∧ P' ∧ f_bn f = 0 ∧ f_bs1 f ++ f_b f :: f_bs2 f = seqZ 0 256).
    intros t. rewrite HP. cbn [fits]. unfold tree_ok. rewrite HP'. split.
    + intros (? & (? & ?) & a & key & cs & Heq). injection Heq as _ _ Hbn Hb _. tauto.
    + intros ((? & ? & Hbn & Hb) & ?). split; [done|]. split; [done|]. unfold fplug. rewrite Hbn, Hb. by eexists _, _, _.
  - destruct (fplug_wf (f_bn g + 1) f Hf) as [P' HP']. cbn [fits] in HP'.
    exists (P ∧ P' ∧ agree (f_bn g) (f_key g) (f_key f) ∧ byte (f_key f) (f_bn g) = f_b g).
    intros t. rewrite HP. cbn [fits]. rewrite HP'. unfold linked at 1. simpl hkey. split.
    + intros (? & [?|?] & ?); [done|tauto].
    + intros ((? & ? & ?) & ?). tauto.
Qed.
Lemma plug_fits C t : Forall frame_ok C → tree_ok (plug C t) → fits C t.
Proof. intros HC Ht. destruct (plug_ok C HC) as [P HP]. apply HP in Ht. tauto. Qed.
Lemma fits_wf C t : fits C t → ∃ lo, wf lo t.
Proof. destruct C; [intros [? _]|intros [_ ?]]; eauto. Qed.

(** *** In memory *)
Inductive tree_at m : art → Prop :=
  | at_none : tree_at m A0
  | at_leaf a key bn es o : a ≠ 0 → m !! a = Some o → leaf_holds o key bn es → tree_at m (AL a key bn es)
  | at_node a key bn bytes cs o : a ≠ 0 → m !! a = Some o → shape false key bn o bytes (addr <$> cs) →
      Forall (tree_at m) cs → tree_at m (AN a key bn bytes cs).
Definition frame_at m (f : frame) (q : Z) : Prop :=
  f_addr f ≠ 0 ∧ (∃ o, m !! f_addr f = Some o ∧
    shape false (f_key f) (f_bn f) o (f_bs1 f ++ f_b f :: f_bs2 f) ((addr <$> f_cs1 f) ++ q :: (addr <$> f_cs2 f))) ∧
  Forall (tree_at m) (others_of f).
Fixpoint ctx_at m (C : list frame) (q : Z) : Prop :=
  match C with [] => True | f :: C' => frame_at m f q ∧ ctx_at m C' (f_addr f) end.
Lemma fplug_at m f t : tree_at m (fplug f t) ↔ frame_at m f (addr t) ∧ tree_at m t.
Proof.
  unfold fplug, frame_at, others_of. rewrite Forall_app. split.
  - intros Ht. inversion Ht as [| |? ? ? ? ? o Ha Hm Hsh Hf]; subst. rewrite fmap_app in Hsh.
    apply Forall_app in Hf as [H1 [H2 H3]%Forall_cons]. split; [|done]. split; [done|]. split; [by exists o|done].
  - intros ((Ha & (o & Hm & Hsh) & H1 & H2) & Ht). econstructor; [exact Ha|exact Hm|by rewrite fmap_app|]. apply Forall_app. split; [done|by constructor].
Qed.
Lemma art_plug_at m C : ∀ t, tree_at m (plug C t) ↔ ctx_at m C (addr t) ∧ tree_at m t.
Proof.
  induction C as [|f C IH]; intros t; simpl; [tauto|]. rewrite IH, fplug_at. simpl. tauto.
Qed.
Lemma art_tree_addr m t a : tree_at m t → a ∈ addrs t → is_Some (m !! a).
Proof.
  revert a. induction t as [|a' key bn es|a' key bn bytes cs IH] using art_forest_ind; intros a Ht Ha; simpl in Ha;
    inversion Ht as [|? ? ? ? ? _ Hm|? ? ? ? ? ? _ Hm _ Hf]; subst.
  - by apply elem_of_nil in Ha.
  - apply list_elem_of_singleton in Ha as ->. eauto.
  - apply elem_of_cons in Ha as [->|Ha]; [eauto|]. apply elem_concat in Ha as (c & Hc & Ha).
    rewrite Forall_forall in IH, Hf. eauto.
Qed.
Lemma art_tree_frame m m' t : (∀ a, a ∈ addrs t → m' !! a = m !! a) → tree_at m t → tree_at m' t.
Proof.
  induction t as [|a' key bn es|a' key bn bytes cs IH] using art_forest_ind; intros Hm Ht;
    inversion Ht as [|? ? ? ? ? Hz Ha Ho|? ? ? ? ? ? Hz Ha Hsh Hf]; subst.
  - constructor.
  - econstructor; [exact Hz| |exact Ho]. by rewrite Hm by (simpl; by left).
  - econstructor; [exact Hz| |exact Hsh|].
    + by rewrite Hm by (simpl; by left).
    + rewrite Forall_forall in *. intros c Hc. apply IH; [done| |by apply Hf]. intros a Ha'. apply Hm. simpl. right. apply elem_concat. eauto.
Qed.
Lemma art_ctx_frame m m' C q : (∀ a, a ∈ caddrs C → m' !! a = m !! a) → ctx_at m C q → ctx_at m' C q.
Proof.
  revert q. induction C as [|f C IH]; intros q Hm; simpl; [done|]. intros [(Hz & (o & Ho & Hsh) & Hf) HC]. split; [|apply IH; [|done]].
  - split; [done|]. split; [exists o; split; [|done]; by rewrite Hm by (simpl; by left)|]. rewrite Forall_forall in *. intros c Hc.
    eapply art_tree_frame; [|by apply Hf]. intros a Ha. apply Hm. simpl. right. apply elem_of_app. left. apply elem_concat. eauto.
  - intros a Ha. apply Hm. simpl. right. apply elem_of_app. by right.
Qed.
Lemma art_ctx_addr m C q : ctx_at m C q → ∀ a, a ∈ caddrs C → is_Some (m !! a).
Proof.
  revert q. induction C as [|g C IH]; intros q Hctx a Ha; simpl in *; [by apply elem_of_nil in Ha|].
  destruct Hctx as [(_ & (o & Ho & _) & Hf) Hctx]. apply elem_of_cons in Ha as [->|[Ha|Ha]%elem_of_app]; [eauto| |by eapply IH].
  apply elem_concat in Ha as (c & Hc & Ha). rewrite Forall_forall in Hf. eapply art_tree_addr; [by apply Hf|done].
Qed.
Lemma plug_addr C : ∀ f t t', addr (plug (f :: C) t') = addr (plug (f :: C) t).
Proof. induction C as [|g C IH]; intros f t t'; [done|]. apply (IH g). Qed.
Lemma addr_null m t : tree_at m t → addr t = 0 → t = A0.
Proof. by intros []. Qed.
Lemma tree_header m t : tree_at m t → t ≠ A0 → ∃ o, m !! addr t = Some o ∧ key_of o = hkey t ∧ byte_num_of o = hbn t ∧
  is_leaf o = match t with AL _ _ _ _ => true | _ => false end.
Proof.
  intros [|? ? ? ? ? _ Hx (pad & -> & _)|? ? ? ? ? ? _ Hx Hsh _] ?; [done| |]; eexists; (split; [exact Hx|]).
  - done.
  - apply shape_header in Hsh. tauto.
Qed.

Record at_tree (root : Z) (T : art) m : Prop := {
  at_ok : tree_ok T;
  at_root : addr T = root;
  at_mem : tree_at m T;
  at_once : NoDup (addrs T);
}.
(** a subtree has been replaced and the pointer to it changed *)
Lemma replaced root C f t t' m m' : at_tree root (plug (f :: C) t) m → Forall frame_ok (f :: C) →
  (∀ y, is_Some (m !! y) → y ≠ f_addr f → (y ∉ addrs t) → m' !! y = m !! y) →
  frame_at m' f (addr t') → tree_at m' t' → NoDup (addrs t') → (∀ y, y ∈ addrs t' → y ∈ addrs t ∨ m !! y = None) →
  fits (f :: C) t' → at_tree root (plug (f :: C) t') m'.
Proof.
  intros [Hok Hr Ht Hnd] HC Hm Hfr Ht' Hnd' Hnew Hfit. apply art_plug_at in Ht as [Hctx Ht].
  rewrite art_plug_addrs in Hnd. apply NoDup_app in Hnd as (HndC & Hdisj & Hndt). split.
  - destruct (plug_ok _ HC) as [P HP]. apply HP in Hok as [? _]. by apply HP.
  - rewrite <-Hr. apply plug_addr.
  - apply art_plug_at. split; [|done]. pose proof (art_ctx_addr _ _ _ Hctx) as Hc. destruct Hctx as [_ Hctx]. split; [done|].
    eapply art_ctx_frame; [|exact Hctx]. intros a Ha. simpl in HndC, Hdisj. apply NoDup_cons in HndC as [Hfn _]. apply Hm.
    + apply Hc. simpl. right. apply elem_of_app. by right.
    + intros ->. apply Hfn. apply elem_of_app. by right.
    + apply Hdisj. apply elem_of_cons. right. apply elem_of_app. by right.
  - rewrite art_plug_addrs. apply NoDup_app. split; [done|]. split; [|done]. intros y Hy Hy'.
    destruct (Hnew y Hy') as [?|Hn]; [by eapply Hdisj|]. destruct (art_ctx_addr _ _ _ Hctx y Hy). congruence.
Qed.

(** *** The way of a key *)
Definition goes (k : Z) (f : frame) : Prop := frame_ok f ∧ agree (f_bn f) (f_key f) k ∧ byte k (f_bn f) = f_b f.
Lemma goes_ok k C : Forall (goes k) C → Forall frame_ok C.
Proof. intros HC. eapply Forall_impl; [exact HC|]. by intros f [? _]. Qed.
Record node_ok (a key bn : Z) (bytes : list Z) (cs : list art) : Prop := {
  nd_bn : 0 ≤ bn < K; nd_key : in_key key; nd_once : NoDup bytes; nd_bytes : Forall is_byte bytes;
  nd_linked : Forall2 (linked key bn) bytes cs; nd_wf : Forall (wf (bn + 1)) cs }.
Lemma plug_node C a key bn bytes cs : Forall frame_ok C → tree_ok (plug C (AN a key bn bytes cs)) → node_ok a key bn bytes cs.
Proof.
  intros HC Ht. destruct (fits_wf _ _ (plug_fits _ _ HC Ht)) as [lo Hw].
  inversion Hw as [| |? ? ? ? ? ? ? ? ? ? Hl Hf]; subst. split; try done. lia.
Qed.
Lemma goes_out k C t : tree_ok (plug C t) → Forall (goes k) C → k ∉ (cents C).*1.
Proof.
  revert t. induction C as [|f C IH]; intros t Hok HC; simpl; [by intros ?%elem_of_nil|].
  apply Forall_cons in HC as [(Hf & Ha & Hb) HC]. rewrite fmap_app, elem_of_app. intros [Hin|Hin]; [|by eapply (IH (fplug f t))].
  destruct (plug_node C _ _ _ _ _ (goes_ok _ _ HC) Hok) as [Hbn _ Hnd _ Hl Hw].
  apply list_elem_of_fmap in Hin as (e & -> & He). apply elem_concat in He as (c & Hc & He).
  apply Forall2_app_inv in Hl as [Hl1 Hl2]; [|done]. apply Forall2_cons in Hl2 as [_ Hl2].
  apply Forall_app in Hw as [Hw1 [_ Hw2]%Forall_cons]. rewrite <-Permutation_middle in Hnd. apply NoDup_cons in Hnd as [Hnd _].
  rewrite Forall_forall in Hw1, Hw2. apply Hnd, elem_of_app. apply elem_of_app in Hc as [Hc|Hc]; [left|right].
  - destruct (linked_child _ _ _ _ _ Hl1 Hc) as (b & Hb' & Hlb).
    destruct (child_entries _ _ _ _ _ Hlb (Hw1 c Hc) ltac:(lia) He) as [_ <-]. by rewrite <-Hb.
  - destruct (linked_child _ _ _ _ _ Hl2 Hc) as (b & Hb' & Hlb).
    destruct (child_entries _ _ _ _ _ Hlb (Hw2 c Hc) ltac:(lia) He) as [_ <-]. by rewrite <-Hb.
Qed.

(** the entries of a tree as a map *)
Lemma plug_map C t : tree_ok (plug C t) → to_map (ents (plug C t)) = to_map (cents C) ∪ to_map (ents t).
Proof.
  intros [Hw _]. unfold to_map. rewrite <-list_to_map_app. apply list_to_map_proper; [by eapply wf_nodup|apply art_plug_ents].
Qed.
Lemma none_of (l : list KV) k : (k ∉ l.*1) → to_map l !! k = None.
Proof. apply not_elem_of_list_to_map_1. Qed.
Lemma plug_lookup k C t : tree_ok (plug C t) → Forall (goes k) C → to_map (ents (plug C t)) !! k = to_map (ents t) !! k.
Proof. intros Hok HC. rewrite plug_map by done. by rewrite lookup_union_r by by eapply none_of, goes_out. Qed.
Lemma plug_insert k v C t t' : tree_ok (plug C t) → tree_ok (plug C t') → Forall (goes k) C →
  to_map (ents t') = <[k := v]> (to_map (ents t)) → to_map (ents (plug C t')) = <[k := v]> (to_map (ents (plug C t))).
Proof. intros Hok Hok' HC He. rewrite !plug_map, He by done. symmetry. apply insert_union_r. by eapply none_of, goes_out. Qed.
Lemma plug_delete k C t t' : tree_ok (plug C t) → tree_ok (plug C t') → Forall (goes k) C →
  to_map (ents t') = delete k (to_map (ents t)) → to_map (ents (plug C t')) = delete k (to_map (ents (plug C t))).
Proof.
  intros Hok Hok' HC He. rewrite !plug_map, He by done. rewrite delete_union.
  by rewrite (delete_id (to_map (cents C))) by by eapply none_of, goes_out.
Qed.

(** where a search stops: a node without the byte, an empty place, a leaf, or
    a node whose key parts from the searched one *)
Definition parts (k key bn lo pos : Z) : Prop :=
  lo ≤ pos ≤ bn ∧ agree pos k key ∧ (pos < bn → byte k pos ≠ byte key pos).
Inductive spot (k : Z) (T : art) : place → Prop :=
  | spot_none C a key bn bytes cs : T = plug C (AN a key bn bytes cs) → Forall (goes k) C → agree bn key k →
      (byte k bn ∉ bytes) → spot k T (up C, a, None, 0, bn)
  | spot_empty f C : T = plug (f :: C) A0 → Forall (goes k) (f :: C) →
      spot k T (up C, f_addr f, Some (len (f_cs1 f)), 0, f_bn f)
  | spot_leaf f C a key bn es pos : T = plug (f :: C) (AL a key bn es) → Forall (goes k) (f :: C) →
      parts k key bn (f_bn f + 1) pos → spot k T (up C, f_addr f, Some (len (f_cs1 f)), a, pos)
  | spot_cut f C a key bn bytes cs pos : T = plug (f :: C) (AN a key bn bytes cs) → Forall (goes k) (f :: C) →
      parts k key bn (f_bn f + 1) pos → pos < bn → spot k T (up C, f_addr f, Some (len (f_cs1 f)), a, pos).

Lemma wp_find_location {A} fuel root k T (kk : place → prog (store_state obj) A) Q s :
  at_tree root T (nodes s) → in_key k → (Z.to_nat K < fuel)%nat →
  (∀ pl, spot k T pl → wp (kk pl) Q s) → wp (find_location K fuel root k ≫= kk) Q s.
Proof.
  intros [Hok Hroot Hmem _] Hk Hfuel HQ. unfold find_location. rewrite wp_bind.
  apply (wp_iter (step_location K k) (λ x s', s' = s ∧ ∃ C a key bn bytes cs, T = plug C (AN a key bn bytes cs) ∧
    Forall (goes k) C ∧ agree bn key k ∧ x = (up C, a, bn)) (λ x _, Z.to_nat (K - x.2))).
  2: { split; [done|]. destruct Hok as (Hw & a & key & cs & ->). exists [], a, key, 0, (seqZ 0 256), cs.
    split_and!; [done|constructor| |]; [|simpl in *; congruence]. apply agree_zero; [done|by apply (wf_hkey _ _ Hw)|done]. }
  2: { simpl. lia. }
  intros [[gp p] pos] s' (-> & C & a & key & bn & bytes & cs & HT & HC & Ha & [= -> -> ->]). simpl.
  pose proof Hmem as Hmem'. rewrite HT in Hmem', Hok. apply art_plug_at in Hmem' as [Hctx Hn].
  inversion Hn as [| |? ? ? ? ? o _ Hm Hsh Hcs]; subst a0 key0 bn0 bytes0 cs0.
  destruct (plug_node _ _ _ _ _ _ (goes_ok _ _ HC) Hok) as [Hbn Hkey Hnd Hby Hl Hw].
  eapply wp_read; [exact Hm|done|]. destruct (decide (byte k bn ∈ bytes)) as [Hin|Hout].
  - apply list_elem_of_lookup_1 in Hin as [j Hj]. destruct (list_elem_of_split_length bytes j _ Hj) as (bs1 & bs2 & -> & Hl1).
    apply Forall2_app_inv_l in Hl as (cs1 & cs' & Hc1 & Hc2 & ->). apply Forall2_cons_inv_l in Hc2 as (c & cs2 & Hc & Hc2 & ->).
    pose proof (Forall2_length _ _ _ Hc1) as Hlen. set (f := Frame a key bn bs1 cs1 (byte k bn) bs2 cs2).
    assert (Forall (goes k) (f :: C)) as HfC by (by constructor).
    apply NoDup_app in Hnd as (_ & Hd & _).
    eapply wp_lift; [eapply shape_child_in; [exact Hsh|done|]; intros Hx; apply (Hd _ Hx); by left|]. cbv iota.
    rewrite fmap_app in Hsh. cbn [fmap list_fmap] in Hsh.
    eapply wp_slot; [exact Hsh|exact Hm|by rewrite length_map, Hlen|].
    apply Forall_app in Hcs as [_ [Htc _]%Forall_cons]. apply Forall_app in Hw as [_ [Hwc _]%Forall_cons].
    destruct (Z.eqb_spec (addr c) 0) as [Hz|Hnz].
    + apply (addr_null (nodes s)) in Hz; [|done]. subst c. unfold wp; cbn [run mret prog_ret]. apply HQ. rewrite Hlen. by apply (spot_empty k T f C).
    + assert (c ≠ A0) as Hne by (by intros ->). destruct (tree_header _ _ Htc Hne) as (o' & Ho' & Hko & Hbo & Hlo).
      eapply wp_read; [exact Ho'|done|]. rewrite Hko, Hbo, Hlo. clear Ho' Hko Hbo Hlo.
      destruct (wf_bn _ _ Hwc Hne) as [Hle _].
      destruct Hc as [->|[Hka Hkb]]; [done|].
      destruct (skip_bytes_spec K k (hkey c) (hbn c) (S (Z.to_nat K)) (bn + 1)) as (d & Hskip & Hd1 & Hd2 & Hd3); [lia|lia| |lia|].
      { apply agree_next; [lia|]. split; [|done]. eapply agree_trans; [apply agree_sym, Ha|done]. }
      eapply wp_lift; [exact Hskip|]. destruct c as [|ca ckey cbn ces|ca ckey cbn cby ccs]; [done| |]; simpl in *.
      * rewrite orb_true_r. unfold wp; cbn [run mret prog_ret]. apply HQ. rewrite Hlen. by apply (spot_leaf k T f C ca ckey cbn ces d).
      * rewrite orb_false_r. destruct (Z.eqb_spec d cbn) as [->|Hne'].
        -- unfold wp; cbn [run mret prog_ret negb]. split; [|simpl; lia]. split; [done|].
           exists (f :: C), ca, ckey, cbn, cby, ccs. split_and!; [done|done|by apply agree_sym|done].
        -- unfold wp; cbn [run mret prog_ret negb]. apply HQ. rewrite Hlen. apply (spot_cut k T f C ca ckey cbn cby ccs d); [done|done|done|lia].
  - eapply wp_lift; [by eapply shape_child_out|]. unfold wp; cbn [run mret prog_ret]. apply HQ. by eapply spot_none.
Qed.
End trees.
