(* ===== verification/ArtInsert.v ===== *)
(** * ArtInsert: insertion into [ArtTree], on each branch.

    A new leaf in an empty place, a leaf with room, a leaf that splits by the
    byte at which its keys first differ, a node whose key parts from the new
    one, and a node that gets one more child. *)

From stdpp Require Import prelude list gmap.
From Stdlib Require Import ZArith Lia Sorted.
From S2P Require Import Prelude Conc SpinLock Store MapSpec Arrays ArtTree ArtBytes ArtNodes ArtProof.
Import Art.
Local Open Scope Z_scope.
#[local] Abbreviation KV := (Z * Z)%type.
#[local] Abbreviation len l := (Z.of_nat (length l)).

Section changes.
Context (K : Z) (K_pos : 0 < K) (alloc : gmap Z obj → Z) {fresh : Allocator alloc} (tid : nat).
#[local] Abbreviation state := (store_state obj).
#[local] Abbreviation byte := (byte K).
#[local] Abbreviation agree := (agree K).
#[local] Abbreviation in_key := (in_key K).
#[local] Abbreviation wf := (wf K).
#[local] Abbreviation at_tree := (at_tree K).
#[local] Abbreviation fits := (fits K).
#[local] Abbreviation goes := (goes K).
#[local] Abbreviation extends := (extends tid).
Implicit Types s : state.

(** what is not in the old subtree stays *)
Definition keeps (old : list Z) s s' : Prop := ∀ y o, (y ∉ old) → nodes s !! y = Some o → nodes s' !! y = Some o.
Lemma keeps_extends old s new s' : extends s new s' → keeps old s s'.
Proof. intros He y o _ Hy. by apply (ex_keep _ _ _ _ He). Qed.
Lemma extends_new s new s' y : extends s new s' → y ∈ new → nodes s !! y = None ∧ y ≠ 0.
Proof. intros He Hy. destruct (ex_new _ _ _ _ He y Hy) as (? & _ & ?). done. Qed.
Lemma tree_keeps s s' t : keeps [] s s' → tree_at (nodes s) t → tree_at (nodes s') t.
Proof.
  intros Hk Ht. eapply art_tree_frame; [|exact Ht]. intros a Ha. destruct (art_tree_addr _ _ _ Ht Ha) as [o Ho].
  rewrite Ho. apply Hk; [by intros ?%elem_of_nil|done].
Qed.

(** storing the pointer to the new subtree *)
Lemma wp_art_link {A} root f C t t' s1 s2 (k : unit → prog state A) Q :
  at_tree root (plug (f :: C) t) (nodes s1) → Forall frame_ok (f :: C) → keeps (addrs t) s1 s2 →
  tree_at (nodes s2) t' → NoDup (addrs t') → (∀ y, y ∈ addrs t' → y ∈ addrs t ∨ nodes s1 !! y = None) →
  fits (f :: C) t' →
  (∀ s3, at_tree root (plug (f :: C) t') (nodes s3) → locks s3 = locks s2 →
    (∀ y, is_Some (nodes s2 !! y) → is_Some (nodes s3 !! y)) →
    (∀ y, y ∉ caddrs (f :: C) → nodes s3 !! y = nodes s2 !! y) → wp (k tt) Q s3) →
  wp (store (slot_c (f_addr f) (len (f_cs1 f))) (addr t') ≫= k) Q s2.
Proof.
  intros Hat HC Hkeep Ht' Hnd' Hnew Hfit HQ. pose proof Hat as [_ _ Hmem Hnd]. apply art_plug_at in Hmem as [Hctx Ht].
  pose proof Hctx as [(Hz & (o & Ho & Hsh) & Hoth) _]. rewrite art_plug_addrs in Hnd. apply NoDup_app in Hnd as (HndC & Hdisj & _).
  assert (f_addr f ∉ addrs t) as Hft by (apply Hdisj; simpl; by left).
  assert (f_addr f ∉ addrs t') as Hft' by (intros Hin; destruct (Hnew _ Hin); congruence).
  eapply wp_set_slot; [exact Hsh|by apply Hkeep|by rewrite length_map|]. intros o' Hsh'. apply HQ; simpl.
  - eapply replaced; [exact Hat|exact HC| | | |exact Hnd'|exact Hnew|exact Hfit].
    + intros y [oy Hy] Hne Hyt. rewrite lookup_insert_ne, Hy by done. by apply Hkeep.
    + split; [done|]. split; [exists o'; by rewrite lookup_insert_eq|]. rewrite Forall_forall in *. intros c Hc.
      assert (∀ y, y ∈ addrs c → y ∈ concat (addrs <$> others_of f)) as Hsub by (intros y Hy; apply elem_concat; eauto).
      eapply art_tree_frame; [|by apply Hoth]. intros y Hy. destruct (art_tree_addr _ _ _ (Hoth c Hc) Hy) as [oy Hoy].
      simpl in HndC. apply NoDup_cons in HndC as [Hfn _]. rewrite lookup_insert_ne, Hoy.
      * apply Hkeep; [|done]. apply Hdisj. simpl. right. apply elem_of_app. left. by apply Hsub.
      * intros <-. apply Hfn, elem_of_app. left. by apply Hsub.
    + eapply art_tree_frame; [|exact Ht']. intros y Hy. rewrite lookup_insert_ne; [done|]. by intros <-.
  - done.
  - intros y Hy. destruct (decide (f_addr f = y)) as [<-|]; [rewrite lookup_insert_eq; eauto|by rewrite lookup_insert_ne].
  - intros y Hy. rewrite lookup_insert_ne; [done|]. intros <-. apply Hy. by left.
Qed.

(** *** New leaves *)
Lemma wp_new_small {A} key v (kk : Z → prog state A) Q s : in_key key →
  (∀ a s', extends s [a] s' → tree_at (nodes s') (AL a key K [(key, v)]) → wp (kk a) Q s') →
  wp (new_small K alloc key v ≫= kk) Q s.
Proof.
  intros Hkey HQ. destruct (singleton_leaf_spec K key v) as (o & Ho & Hlf). unfold new_small. eapply (wp_make _ tid); [exact Ho|].
  intros a s' He Ha. apply HQ; [done|]. destruct (extends_new _ _ _ a He) as [_ ?]; [by left|]. by econstructor.
Qed.
Lemma single_leaf_wf lo key v a : in_key key → lo ≤ K → wf lo (AL a key K [(key, v)]).
Proof.
  intros Hkey Hlo. constructor; [lia|lia|]. split; [done|apply sorted_cons; split; constructor|constructor; [done|constructor]|done|done|].
  split; [by repeat constructor|]. split; [by left|by left].
Qed.
(** the subtree keeps its link when its key still agrees with the old one *)
Lemma linked_agree key bn b c c' : 0 ≤ bn < K → linked K key bn b c → c ≠ A0 → agree (bn + 1) (hkey c) (hkey c') →
  linked K key bn b c'.
Proof.
  intros Hbn [->|[Ha Hb]] Hne Hag; [done|]. right. apply agree_next in Hag as [Hag Hby]; [|lia].
  split; [by eapply agree_trans|]. by rewrite <-Hby.
Qed.
Lemma linked_goes k f c : goes k f → hkey c = k → linked K (f_key f) (f_bn f) (f_b f) c.
Proof. intros (_ & Ha & Hb) <-. by right. Qed.

(** *** Installing a subtree, under the lock of its parent *)
Definition changed root f C (E : gmap Z Z) s : Prop := ∃ t,
  at_tree root (plug (f :: C) t) (nodes s) ∧ holding tid (held [f_addr f]) s ∧ to_map (ents t) = E.
Lemma frame_there root f C t s : at_tree root (plug (f :: C) t) (nodes s) →
  is_Some (nodes s !! f_addr f).
Proof. intros [_ _ [[(_ & (o & Ho & _) & _) _] _]%art_plug_at _]. eauto. Qed.
Lemma subtree_apart root f C t m y : at_tree root (plug (f :: C) t) m → y ∈ addrs t → y ∉ caddrs (f :: C).
Proof. intros [_ _ _ Hnd] Hy Hc. rewrite art_plug_addrs in Hnd. apply NoDup_app in Hnd as (_ & Hd & _). by eapply Hd. Qed.
Lemma wp_install {A} root f C t t' new s s2 (kk : unit → prog state A) Q :
  at_tree root (plug (f :: C) t) (nodes s) → Forall frame_ok (f :: C) → holding tid (held [f_addr f]) s →
  extends s new s2 → tree_at (nodes s2) t' → NoDup (addrs t') → (∀ y, y ∈ addrs t' → y ∈ addrs t ∨ y ∈ new) →
  fits (f :: C) t' →
  (∀ s3, changed root f C (to_map (ents t')) s3 →
    (∀ y o, y ∈ addrs t → nodes s !! y = Some o → nodes s3 !! y = Some o) → wp (kk tt) Q s3) →
  wp (store (slot_c (f_addr f) (len (f_cs1 f))) (addr t') ≫= kk) Q s2.
Proof.
  intros Hat HC Hh He Ht' Hnd Hnew Hfit HQ. eapply wp_art_link; [exact Hat|exact HC|by eapply keeps_extends|exact Ht'|exact Hnd| |exact Hfit|].
  - intros y Hy. destruct (Hnew y Hy) as [?|Hn]; [by left|right]. by destruct (extends_new _ _ _ y He Hn).
  - intros s3 Hat3 Hl _ Hsame. apply HQ.
    + exists t'. split; [done|]. split; [|done]. eapply locks_held; [exact He|exact Hh| |done].
      constructor; [by eapply frame_there|constructor].
    + intros y o Hy Ho. rewrite Hsame; [by apply (ex_keep _ _ _ _ He)|exact (subtree_apart _ _ _ _ _ _ Hat Hy)].
Qed.
Lemma wp_retire_leaf {A} cap c key bn es o (kk : unit → prog state A) Q s :
  nodes s !! c = Some o → leaf_holds o key bn es → cap = cap_for es →
  (∀ s', nodes s' = nodes s → locks s' = locks s → wp (kk tt) Q s') → wp (retire_leaf cap c ≫= kk) Q s.
Proof.
  intros Ho (pad & -> & _) -> HQ. unfold retire_leaf. apply wp_assoc. eapply wp_read; [exact Ho|done|]. cbv beta iota.
  rewrite Z.eqb_refl. apply wp_retire. by apply HQ.
Qed.
Lemma changed_same root f C E s s' : nodes s' = nodes s → locks s' = locks s → changed root f C E s → changed root f C E s'.
Proof.
  intros Hn Hl (t & Hat & Hh & HE). exists t. rewrite Hn. split; [done|]. split; [|done]. by eapply holding_same_locks.
Qed.

(** ** Insertion *)
Section insert_at.
Context (root : Z) (f : frame) (C : list frame) (k v : Z) (HC : Forall (goes k) (f :: C)) (Hk : in_key k).
Context {A : Type} (Q : A → state → Prop).

Lemma frame_node t : tree_ok K (plug (f :: C) t) → 0 ≤ f_bn f < K.
Proof.
  intros Hok. apply Forall_cons in HC as [Hf HC']. by destruct (plug_node _ _ _ _ _ _ _ (goes_ok _ _ _ HC') Hok).
Qed.
Lemma fits_single a : f_bn f < K → fits (f :: C) (AL a k K [(k, v)]).
Proof.
  intros Hbn. apply Forall_cons in HC as [Hf _]. split; [by eapply linked_goes|]. apply single_leaf_wf; [done|lia].
Qed.
(** in an empty place *)
Lemma wp_fill_place (kk : unit → prog state A) s :
  at_tree root (plug (f :: C) A0) (nodes s) → holding tid (held [f_addr f]) s →
  (∀ s', changed root f C (<[k := v]> ∅) s' → wp (kk tt) Q s') →
  wp (n ← new_small K alloc k v; store (slot_c (f_addr f) (len (f_cs1 f))) n ≫= kk) Q s.
Proof.
  intros Hat Hh HQ. pose proof (frame_node _ (at_ok _ _ _ _ Hat)). apply wp_new_small; [done|]. intros a s' He Ha.
  change a with (addr (AL a k K [(k, v)])). eapply wp_install; [exact Hat|by eapply goes_ok|exact Hh|exact He|exact Ha| | | |].
  - apply NoDup_singleton.
  - intros y Hy. by right.
  - apply fits_single. lia.
  - intros s3 Hc _. by apply HQ.
Qed.
(** the first difference of the keys of a leaf with one more *)
Lemma exact_insert key bn e1 e2 pos : exact_byte K bn key (e1 ++ e2) → below k e1 → above k e2 →
  parts K k key bn 0 pos → 0 ≤ bn ≤ K → exact_byte K pos key (e1 ++ (k, v) :: e2).
Proof.
  intros (Hag & Hin & Hex) Hb Ha (Hpos & Hpa & Hpd) Hbn. rewrite fmap_app in Hin. apply Forall_app in Hag as [Ha1 Ha2].
  assert (∀ e : KV, agree bn key e.1 → agree pos key e.1) as Hless by (intros e; apply agree_less; lia).
  split; [|split].
  - apply Forall_app. split; [exact (Forall_impl _ _ _ Ha1 Hless)|].
    constructor; [by apply agree_sym|exact (Forall_impl _ _ _ Ha2 Hless)].
  - rewrite fmap_app, fmap_cons. rewrite elem_of_app in *. rewrite elem_of_cons. tauto.
  - destruct (decide (pos < bn)) as [Hlt'|Hge].
    + right. split; [lia|]. apply Exists_app. right. apply Exists_cons. left. by apply Hpd.
    + assert (pos = bn) as -> by lia. destruct Hex as [[H1 ->]|[H1 Hex]].
      * exfalso. apply agree_full in Hpa as ->. rewrite <-fmap_app in Hin. apply list_elem_of_fmap in Hin as (e & -> & He).
        unfold below, above in *. rewrite Forall_forall in Hb, Ha. apply elem_of_app in He as [He|He]; [specialize (Hb e He)|specialize (Ha e He)]; lia.
      * right. split; [lia|]. rewrite Exists_app, Exists_cons. apply Exists_app in Hex. tauto.
Qed.
Lemma exact_varied key pos (e : KV) es : exact_byte K pos key (e :: es) → es ≠ [] →
  pos < K ∧ Exists (λ e', byte e'.1 pos ≠ byte e.1 pos) es.
Proof.
  intros (_ & Hin & [[H1 _]|[Hlt Hex]]) Hne; [destruct es; [done|simpl in H1; lia]|]. split; [done|].
  destruct (decide (byte e.1 pos = byte key pos)) as [Heq|Hne'].
  - rewrite Heq. by apply Exists_cons in Hex as [?|?].
  - apply elem_of_cons in Hin as [->|Hin]; [done|]. apply list_elem_of_fmap in Hin as (e' & -> & He').
    apply Exists_exists. exists e'. split; [done|]. congruence.
Qed.
(** in a leaf with room *)
Lemma leaf_ok_insert key bn e1 e2 pos : leaf_ok K key bn (e1 ++ e2) → below k e1 → above k e2 →
  len (e1 ++ e2) < max_big_leaf_size → parts K k key bn 0 pos → 0 ≤ bn ≤ K → leaf_ok K key pos (e1 ++ (k, v) :: e2).
Proof.
  intros [Hne Hs Hks Hsz Hkey Hex] Hb Ha Hlt Hp Hbn. apply Forall_app in Hks as [Hk1 Hk2].
  split; [by destruct e1|by apply sorted_insert| | |done|by eapply exact_insert].
  - apply Forall_app. split; [done|]. by constructor.
  - rewrite length_app in *. simpl. lia.
Qed.
Lemma leaf_facts a key bn es s : at_tree root (plug (f :: C) (AL a key bn es)) (nodes s) →
  f_bn f + 1 ≤ bn ≤ K ∧ 0 ≤ bn ∧ leaf_ok K key bn es ∧ linked K (f_key f) (f_bn f) (f_b f) (AL a key bn es) ∧
  ∃ o, nodes s !! a = Some o ∧ leaf_holds o key bn es.
Proof.
  intros [Hok _ Ht _]. apply plug_fits in Hok as [Hl Hw]; [|by eapply goes_ok]. inversion Hw; subst.
  apply art_plug_at in Ht as [_ Ht]. inversion Ht; subst. eauto 10.
Qed.
(** the new leaf is installed and the old one retired *)
Lemma wp_swap_leaf a key bn es key' bn' es' o o' r cap cap' (kk : unit → prog state A) s :
  at_tree root (plug (f :: C) (AL a key bn es)) (nodes s) → holding tid (held [f_addr f]) s →
  nodes s !! a = Some o → leaf_holds o key bn es → r = inr o' → leaf_holds o' key' bn' es' → f_bn f + 1 ≤ bn' ≤ K →
  leaf_ok K key' bn' es' → agree (f_bn f + 1) key key' → cap = cap_for es → cap' = cap →
  (∀ s', changed root f C (to_map es') s' → wp (kk tt) Q s') →
  wp (n ← make alloc r; store (slot_c (f_addr f) (len (f_cs1 f))) n ;; retire_leaf cap a ≫= kk) Q s.
Proof.
  intros Hat Hh Ho Hlf Hr Hlf' Hbn' Hok' Hag Hcap -> HQ. destruct (leaf_facts _ _ _ _ _ Hat) as (Hbn & Hbn0 & Hlok & Hlink & _).
  pose proof (frame_node _ (at_ok _ _ _ _ Hat)) as Hfb.
  eapply (wp_make _ tid); [exact Hr|]. intros n s' He Hn.
  destruct (extends_new _ _ _ n He) as [_ Hn0]; [by left|].
  change n with (addr (AL n key' bn' es')). eapply wp_install; [exact Hat|by eapply goes_ok|exact Hh|exact He| | | | |].
  - by econstructor.
  - apply NoDup_singleton.
  - intros y Hy. by right.
  - split; [eapply linked_agree; [exact Hfb|exact Hlink|done|done]|]. constructor; [lia|done|done].
  - intros s3 Hc Hkeep. eapply wp_retire_leaf; [apply Hkeep; [by left|exact Ho]|exact Hlf|done|].
    intros s4 Hn4 Hl4. apply HQ. eapply changed_same; [exact Hn4|exact Hl4|exact Hc].
Qed.
Lemma wp_assoc_in {B D E} (p : prog state B) (g : B → prog state D) (h : prog state E) (kk : E → prog state A) s :
  wp (x ← p; g x ;; h ≫= kk) Q s → wp (x ← p; (g x ;; h) ≫= kk) Q s.
Proof. rewrite !wp_bind. apply wp_mono. intros x s'. apply wp_assoc. Qed.
Lemma wp_grow_leaf a key bn e1 e2 pos o (kk : unit → prog state A) s :
  at_tree root (plug (f :: C) (AL a key bn (e1 ++ e2))) (nodes s) → holding tid (held [f_addr f]) s →
  parts K k key bn (f_bn f + 1) pos → below k e1 → above k e2 → len (e1 ++ e2) < max_big_leaf_size →
  nodes s !! a = Some o → leaf_holds o key bn (e1 ++ e2) →
  (∀ s', changed root f C (to_map (e1 ++ (k, v) :: e2)) s' → wp (kk tt) Q s') →
  wp (insert_in_leaf K alloc (f_addr f) (len (f_cs1 f)) a pos k v o ≫= kk) Q s.
Proof.
  intros Hat Hh Hp Hb Ha Hlt Ho Hlf HQ. destruct (leaf_facts _ _ _ _ _ Hat) as (Hbn & Hbn0 & Hlok & Hlink & _).
  pose proof (frame_node _ (at_ok _ _ _ _ Hat)) as Hfb. destruct (add_to_leaf_spec key bn o k v e1 e2 pos Hlf Hb Ha Hlt) as (o' & Hadd & Hlf').
  assert (leaf_ok K key pos (e1 ++ (k, v) :: e2)) as Hlok'.
  { eapply leaf_ok_insert; [done..| |lia]. destruct Hp as (? & ? & ?). split; [lia|done]. }
  assert (f_bn f + 1 ≤ pos ≤ K) as Hpos by (destruct Hp; lia).
  assert (len (e1 ++ (k, v) :: e2) = len (e1 ++ e2) + 1) as Hlen by (rewrite !length_app; simpl; lia).
  pose proof Hlf as (pad & -> & _). cbn [insert_in_leaf].
  destruct (Z.ltb_spec (len (e1 ++ e2)) max_small_leaf_size) as [Hs|Hs]; [|destruct (Z.eqb_spec (len (e1 ++ e2)) max_small_leaf_size) as [Hs2|Hs2]];
    rewrite ?(proj2 (Z.ltb_lt _ max_big_leaf_size)) by done; unfold max_small_leaf_size in Hs; try unfold max_small_leaf_size in Hs2;
    [rewrite (cap_for_small (e1 ++ (k, v) :: e2)) in Hadd by lia|rewrite (cap_for_big (e1 ++ (k, v) :: e2)) in Hadd by lia..];
    apply wp_assoc, wp_assoc_in; (eapply wp_swap_leaf; [exact Hat|exact Hh|exact Ho|exact Hlf|exact Hadd|exact Hlf'|exact Hpos|exact Hlok'|done| |done|exact HQ]);
    [by rewrite cap_for_small by lia..|by rewrite cap_for_big by lia].
Qed.
(** where the key of a node parts from [k] *)
Lemma ents_insert lo t l : wf lo t → ents t ≡ₚ (k, v) :: l → to_map (ents t) = <[k := v]> (to_map l).
Proof. intros Hw Hp. exact (list_to_map_proper _ _ (wf_nodup K t lo Hw) Hp). Qed.
Lemma node_facts a key bn bytes cs s : at_tree root (plug (f :: C) (AN a key bn bytes cs)) (nodes s) →
  f_bn f + 1 ≤ bn < K ∧ linked K (f_key f) (f_bn f) (f_b f) (AN a key bn bytes cs) ∧ wf (f_bn f + 1) (AN a key bn bytes cs) ∧
  in_key key ∧ tree_at (nodes s) (AN a key bn bytes cs) ∧ NoDup (addrs (AN a key bn bytes cs)).
Proof.
  intros [Hok _ Ht Hnd]. apply plug_fits in Hok as [Hl Hw]; [|by eapply goes_ok]. inversion Hw; subst.
  apply art_plug_at in Ht as [_ Ht]. rewrite art_plug_addrs in Hnd. apply NoDup_app in Hnd as (_ & _ & Hnd). split_and!; try done; lia.
Qed.
Lemma wp_cut_edge a key bn bytes cs pos (kk : unit → prog state A) s :
  at_tree root (plug (f :: C) (AN a key bn bytes cs)) (nodes s) → holding tid (held [f_addr f]) s →
  parts K k key bn (f_bn f + 1) pos → pos < bn →
  (∀ s', changed root f C (<[k := v]> (to_map (ents (AN a key bn bytes cs)))) s' → wp (kk tt) Q s') →
  wp (l ← new_small K alloc k v; n ← make alloc (sparse_pair K pos a key l k);
      store (slot_c (f_addr f) (len (f_cs1 f))) n ≫= kk) Q s.
Proof.
  intros Hat Hh (Hpos & Hpa & Hpd) Hlt HQ. destruct (node_facts _ _ _ _ _ _ Hat) as (Hbn & Hlink & Hw & Hkey & Ht & Hnd).
  pose proof (frame_node _ (at_ok _ _ _ _ Hat)) as Hfb. set (t := AN a key bn bytes cs) in *.
  apply wp_new_small; [done|]. intros l s1 He1 Hl. eapply (wp_make _ tid).
  { unfold sparse_pair. rewrite !get_byte_in by lia. reflexivity. }
  intros n s2 He2 Hn. pose proof (extends_trans _ _ _ _ _ _ He1 He2) as He.
  destruct (extends_new _ _ _ n He2) as [Hn1 Hn0]; [by left|]. destruct (extends_new _ _ _ l He1) as [Hl0 _]; [by left|].
  set (lf := AL l k K [(k, v)]) in *. set (t' := AN n key pos [byte key pos; byte k pos] [t; lf]).
  assert (wf (f_bn f + 1) t') as Hw'.
  { constructor; [lia|lia|done| | | |].
    - repeat constructor; [|by intros ?%elem_of_nil]. intros Hin%list_elem_of_singleton. by apply Hpd.
    - apply Forall_cons. split; [apply byte_range|]. apply Forall_cons. split; [apply byte_range|constructor].
    - apply Forall2_cons. split; [by right|]. apply Forall2_cons. split; [right; by split; [apply agree_sym|]|constructor].
    - apply Forall_cons. split; [eapply wf_raise; [exact Hw|simpl; lia]|].
      apply Forall_cons. split; [apply single_leaf_wf; [done|lia]|constructor]. }
  change n with (addr t'). eapply wp_install; [exact Hat|by eapply goes_ok|exact Hh|exact He| | | | |].
  - eapply at_node; [done|exact Hn|apply (sparse_shape false key pos [byte key pos; byte k pos] [a; l] 14 14); done|].
    apply Forall_cons. split; [eapply tree_keeps; [exact (keeps_extends _ _ _ _ He)|exact Ht]|].
    apply Forall_cons. split; [eapply tree_keeps; [exact (keeps_extends _ _ _ _ He2)|exact Hl]|constructor].
  - cbn [addrs t' lf concat fmap list_fmap]. rewrite app_nil_r.
    assert (∀ y, y ∈ addrs t → is_Some (nodes s !! y)) as Hold by (intros y; by apply art_tree_addr).
    apply NoDup_cons. split.
    + intros [Hin| ->%list_elem_of_singleton]%elem_of_app.
      * destruct (Hold n Hin) as [o Ho]. apply (ex_keep _ _ _ _ He1) in Ho. congruence.
      * inversion Hl. congruence.
    + apply NoDup_app. split; [done|]. split; [|apply NoDup_singleton]. intros y Hy ->%list_elem_of_singleton. destruct (Hold l Hy). congruence.
  - intros y. cbn [addrs t' lf concat fmap list_fmap]. rewrite app_nil_r. intros [->|[Hy| ->%list_elem_of_singleton]%elem_of_app]%elem_of_cons.
    + right. right. by left.
    + by left.
    + right. by left.
  - split; [|done]. eapply linked_agree; [exact Hfb|exact Hlink|done|done].
  - intros s3 Hc _. apply HQ. rewrite (ents_insert _ t' (ents t) Hw') in Hc; [done|].
    cbn [ents t' lf concat fmap list_fmap]. rewrite app_nil_r. by rewrite Permutation_app_comm.
Qed.

(** *** A leaf that splits *)
Section split.
Context (pos key : Z) (pos_ok : 0 ≤ pos < K).
Definition keys_ok (es : list KV) : Prop := Forall (λ e, in_key e.1 ∧ agree pos key e.1) es.
Lemma wp_art_new_leaf (e : KV) es (kk : Z → prog state A) s : sorted (e :: es) → keys_ok (e :: es) →
  Forall (λ e', byte e'.1 pos = byte e.1 pos) es → len (e :: es) ≤ max_big_leaf_size →
  (∀ a d s', extends s [a] s' → tree_at (nodes s') (AL a e.1 d (e :: es)) → wf (pos + 1) (AL a e.1 d (e :: es)) → wp (kk a) Q s') →
  wp (new_leaf K alloc (pos + 1) (e :: es) ≫= kk) Q s.
Proof.
  intros Hs Hks Hby Hsz HQ. unfold keys_ok in Hks.
  assert (Forall (λ e', agree (pos + 1) e.1 e'.1) es) as Hag.
  { apply Forall_cons in Hks as [[_ He] Hks]. rewrite Forall_forall in *. intros e' He'. destruct (Hks e' He') as [_ Hke'].
    apply agree_next; [lia|]. split; [|symmetry; by apply Hby]. eapply agree_trans; [apply agree_sym, He|done]. }
  destruct (multi_leaf_spec K K_pos (pos + 1) e es) as (d & o & Hm & Hlf & Hd & Hex); [lia|done|done|done|].
  assert (new_leaf K alloc (pos + 1) (e :: es) = make alloc (multi_leaf K (cap_for (e :: es)) (pos + 1) (e :: es))) as ->.
  { unfold new_leaf, cap_for. by repeat case_bool; try lia. }
  eapply (wp_make _ tid); [exact Hm|]. intros a s' He Ha. destruct (extends_new _ _ _ a He) as [_ Ha0]; [by left|].
  apply (HQ a d); [done|by econstructor|]. constructor; [lia|lia|]. split; [done|done| |done| |done].
  - eapply Forall_impl; [exact Hks|]. tauto.
  - by apply Forall_cons in Hks as [[? _] _].
Qed.

(** the leaves for the runs of entries with the same byte *)
Record runs s (bytes : list Z) (es : list KV) (ts : list art) s' : Prop := {
  ru_extends : extends s (addr <$> ts) s';
  ru_addrs : concat (addrs <$> ts) = addr <$> ts;
  ru_ents : concat (ents <$> ts) = es;
  ru_mem : Forall (tree_at (nodes s')) ts;
  ru_wf : Forall (wf (pos + 1)) ts;
  ru_linked : Forall2 (λ b t, t ≠ A0 ∧ agree pos key (hkey t) ∧ byte (hkey t) pos = b) bytes ts;
  ru_bytes : StronglySorted Z.lt bytes;
  ru_count : (length ts ≤ length es)%nat;
}.
Lemma runs_one s e es a d s' : keys_ok (e :: es) → extends s [a] s' → tree_at (nodes s') (AL a e.1 d (e :: es)) →
  wf (pos + 1) (AL a e.1 d (e :: es)) → runs s [byte e.1 pos] (e :: es) [AL a e.1 d (e :: es)] s'.
Proof.
  intros Hks He Ht Hw. split; [done|done|exact (app_nil_r _)|by constructor|by constructor| | |simpl; lia].
  - constructor; [|constructor]. apply Forall_cons in Hks as [[_ ?] _]. done.
  - repeat constructor.
Qed.
Lemma runs_cons s e es a d s1 b bytes rest ts s' : keys_ok (e :: es) → extends s [a] s1 →
  tree_at (nodes s1) (AL a e.1 d (e :: es)) → wf (pos + 1) (AL a e.1 d (e :: es)) → byte e.1 pos < b →
  runs s1 (b :: bytes) rest ts s' → runs s (byte e.1 pos :: b :: bytes) ((e :: es) ++ rest) (AL a e.1 d (e :: es) :: ts) s'.
Proof.
  intros Hks He Ht Hw Hlt [He' Ha Hents Hm Hws Hl Hb Hc]. split.
  - exact (extends_trans _ _ _ _ _ _ He He').
  - cbn [fmap list_fmap concat addrs addr]. by rewrite Ha.
  - cbn [fmap list_fmap concat ents]. by rewrite Hents.
  - constructor; [|done]. eapply tree_keeps; [exact (keeps_extends _ _ _ _ He')|exact Ht].
  - by constructor.
  - constructor; [|done]. apply Forall_cons in Hks as [[_ ?] _]. done.
  - constructor; [done|]. apply StronglySorted_inv in Hb as [_ Hb]. constructor; [done|]. eapply Forall_impl; [exact Hb|]. simpl. lia.
  - rewrite length_app. simpl. lia.
Qed.
Lemma wp_split_leaves rest : ∀ (e : KV) es (kk : list Z → prog state A) s, sorted ((e :: es) ++ rest) → keys_ok ((e :: es) ++ rest) →
  Forall (λ e', byte e'.1 pos = byte e.1 pos) es → len ((e :: es) ++ rest) ≤ max_big_leaf_size + 1 →
  (len ((e :: es) ++ rest) ≤ max_big_leaf_size ∨ Exists (λ e', byte e'.1 pos ≠ byte e.1 pos) rest) →
  (∀ ts bytes s', runs s (byte e.1 pos :: bytes) ((e :: es) ++ rest) ts s' → wp (kk (addr <$> ts)) Q s') →
  wp (split_leaves K alloc pos (byte e.1 pos) (e :: es) rest ≫= kk) Q s.
Proof.
  induction rest as [|e' rest IH]; intros e es kk s Hs Hks Hby Hsz Hex HQ; cbn [split_leaves].
  - rewrite app_nil_r in *. apply wp_assoc. apply wp_art_new_leaf; [done|done|done| |].
    { destruct Hex as [?|?%Exists_nil]; done. }
    intros a d s' He Ht Hw. apply (HQ [AL a e.1 d (e :: es)] [] s'). by apply runs_one.
  - assert (((e :: es) ++ [e']) ++ rest = (e :: es) ++ e' :: rest) as Happ by (by rewrite <-app_assoc).
    apply wp_assoc. eapply wp_lift; [apply get_byte_in; lia|]. destruct (Z.eqb_spec (byte e'.1 pos) (byte e.1 pos)) as [Heq|Hne].
    + change ((e :: es) ++ [e']) with (e :: es ++ [e']) in *. apply IH; rewrite ?Happ; try done.
      * apply Forall_app. split; [done|by repeat constructor].
      * destruct Hex as [?|[?|?]%Exists_cons]; [by left|done|by right].
    + apply sorted_app in Hs as (Hs1 & Hs2 & Hlt). apply Forall_app in Hks as [Hk1 Hk2].
      apply wp_assoc. apply wp_art_new_leaf; [done|done|done|rewrite length_app in Hsz; simpl in *; lia|].
      intros a d s1 He Ht Hw. apply wp_assoc. apply (IH e' []); [done|done|constructor| | |].
      * rewrite length_app in Hsz. simpl in *. lia.
      * left. rewrite length_app in Hsz. simpl in *. lia.
      * intros ts bytes s' Hr. apply (HQ (AL a e.1 d (e :: es) :: ts) (byte e'.1 pos :: bytes)). eapply runs_cons; [done|exact He|done|done| |done].
        assert (e.1 < e'.1) as Hee by (apply Hlt; by left).
        apply Forall_cons in Hk1 as [[_ H1] _]. apply Forall_cons in Hk2 as [[_ H2] _].
        assert (byte e.1 pos ≤ byte e'.1 pos); [|lia]. apply byte_order; [lia| |done]. eapply agree_trans; [apply agree_sym, H1|done].
Qed.
Lemma wp_with_keys ts (kk : list (Z * Z) → prog state A) s : Forall (tree_at (nodes s)) ts → Forall (λ t, t ≠ A0) ts →
  wp (kk ((λ t, (addr t, hkey t)) <$> ts)) Q s → wp (with_keys (addr <$> ts) ≫= kk) Q s.
Proof.
  intros Ht Hne HQ. rewrite wp_bind. eapply wp_of_run; [|exact HQ]. clear HQ kk. induction ts as [|t ts IH]; [done|].
  apply Forall_cons in Ht as [Ht Hts]. apply Forall_cons in Hne as [Hne Hnes]. cbn [with_keys fmap list_fmap].
  destruct (tree_header _ _ Ht Hne) as (o & Ho & Hko & _). rewrite run_bind. unfold node_c.
  rewrite (run_load _ _ _ (eq_trans (peek_node s (addr t) _ _ _ Ho) eq_refl)), run_bind, IH by done. by rewrite Hko.
Qed.
Lemma bytes_of_linked bytes ts : Forall2 (λ b t, t ≠ A0 ∧ agree pos key (hkey t) ∧ byte (hkey t) pos = b) bytes ts →
  bytes_of K pos (hkey <$> ts) = inr bytes.
Proof.
  induction 1 as [|b t bytes ts (_ & _ & Hb) _ IH]; [done|]. cbn [bytes_of fmap list_fmap]. rewrite get_byte_in by lia.
  unfold mbind, err_bind. cbn beta iota. by rewrite IH, Hb.
Qed.
Lemma sparse_many_spec bytes t ts : Forall2 (λ b t, t ≠ A0 ∧ agree pos key (hkey t) ∧ byte (hkey t) pos = b) bytes (t :: ts) →
  len (t :: ts) ≤ max_sparse_size → ∃ o, sparse_many K pos ((λ t, (addr t, hkey t)) <$> (t :: ts)) = inr o ∧
    shape false (hkey t) pos o bytes (addr <$> (t :: ts)).
Proof.
  intros Hl Hsz. pose proof (Forall2_length _ _ _ Hl) as Hlen. unfold sparse_many.
  rewrite <-!list_fmap_compose. change (snd ∘ (λ t0 : art, (addr t0, hkey t0))) with hkey. change (fst ∘ (λ t0 : art, (addr t0, hkey t0))) with addr.
  rewrite (bytes_of_linked _ _ Hl). cbn [fmap list_fmap]. rewrite get_first. unfold mbind, err_bind. cbn beta iota.
  rewrite !fill_spec by (cbn [length] in *; rewrite ?length_fmap; lia). eexists. split; [done|]. cbn [snd].
  replace (Z.of_nat (length ((addr t, hkey t) :: ((λ t0, (addr t0, hkey t0)) <$> ts)))) with (len (addr t :: (addr <$> ts))) by (simpl; by rewrite !length_fmap).
  constructor; cbn [length] in *; rewrite ?length_fmap; lia.
Qed.
(** the node of the runs is a tree in the place of the leaf *)
Lemma runs_tree lo s bytes es t ts s1 n o s2 : runs s bytes es (t :: ts) s1 → 0 ≤ lo ≤ pos → Forall is_byte bytes → extends s1 [n] s2 →
  nodes s2 !! n = Some o → shape false (hkey t) pos o bytes (addr <$> (t :: ts)) →
  let t' := AN n (hkey t) pos bytes (t :: ts) in let new := (addr <$> (t :: ts)) ++ [n] in
  extends s new s2 ∧ tree_at (nodes s2) t' ∧ wf lo t' ∧ NoDup (addrs t') ∧ (∀ y, y ∈ addrs t' → y ∈ new) ∧ ents t' = es ∧
  agree pos key (hkey t').
Proof.
  intros [He1 Ha Hents Hm Hws Hl Hb _] Hlo Hby He2 Hn Hsh t' new. pose proof (extends_trans _ _ _ _ _ _ He1 He2) as He.
  destruct (extends_new _ _ _ n He2) as [_ Hn0]; [by left|]. pose proof Hl as Hl'. apply Forall2_cons_inv_r in Hl' as (b & bs & (_ & Hkt & _) & _ & ->).
  split; [done|]. split; [|split; [|split; [|split; [|split; [done|done]]]]].
  - econstructor; [done|exact Hn|exact Hsh|]. eapply Forall_impl; [exact Hm|]. intros c. by apply tree_keeps, (keeps_extends _ _ [n]).
  - constructor; [lia|lia| | |done| |done].
    + apply Forall_cons in Hws as [Hw _]. by eapply wf_hkey.
    + by apply increasing_nodup.
    + eapply Forall2_impl; [exact Hl|]. intros b' c (_ & Hkc & Hbc). right. split; [|done]. eapply agree_trans; [apply agree_sym, Hkt|done].
  - pose proof (ex_nodup _ _ _ _ He) as Hnd. change (addrs t') with (n :: concat (addrs <$> (t :: ts))). rewrite Ha. by rewrite Permutation_app_comm in Hnd.
  - intros y. change (addrs t') with (n :: concat (addrs <$> (t :: ts))). rewrite Ha. intros [->|Hy]%elem_of_cons; apply elem_of_app; [right; by left|by left].
Qed.
Lemma wp_runs_node lo (e : KV) es (kk : Z → prog state A) s : sorted (e :: es) → keys_ok (e :: es) → exact_byte K pos key (e :: es) →
  es ≠ [] → len (e :: es) ≤ max_big_leaf_size + 1 → 0 ≤ lo ≤ pos →
  (∀ t new s', extends s new s' → tree_at (nodes s') t → wf lo t → NoDup (addrs t) → (∀ y, y ∈ addrs t → y ∈ new) →
    ents t = e :: es → agree pos key (hkey t) → wp (kk (addr t)) Q s') →
  wp ((b ← lift (get_byte K e.1 pos); cs ← split_leaves K alloc pos b [e] es;
       children ← with_keys cs; make alloc (sparse_many K pos children)) ≫= kk) Q s.
Proof.
  intros Hs Hks Hex Hne Hsz Hlo HQ. destruct (exact_varied _ _ _ _ Hex Hne) as [_ Hvar].
  apply wp_assoc. eapply wp_lift; [apply get_byte_in; lia|].
  apply wp_assoc. apply (wp_split_leaves es e []); [done|done|constructor|done|by right|].
  intros ts bytes s1 Hr. pose proof (ru_linked _ _ _ _ _ Hr) as Hl. destruct ts as [|t ts]; [by inversion Hl|].
  pose proof (ru_count _ _ _ _ _ Hr) as Hcount. cbn [app] in Hr, Hcount.
  assert (Forall (λ c, c ≠ A0) (t :: ts)) as Hsome.
  { apply Forall_forall. intros c Hc. apply list_elem_of_lookup_1 in Hc as [i Hi]. by destruct (Forall2_lookup_r _ _ _ _ _ Hl Hi) as (b & _ & ? & _). }
  assert (Forall is_byte (byte e.1 pos :: bytes)) as Hby.
  { apply Forall_forall. intros b Hb. apply list_elem_of_lookup_1 in Hb as [i Hi]. destruct (Forall2_lookup_l _ _ _ _ _ Hl Hi) as (c & _ & _ & _ & <-). apply byte_range. }
  apply wp_assoc. apply wp_with_keys; [apply Hr|done|].
  destruct (sparse_many_spec _ _ _ Hl) as (o & Ho & Hsh); [unfold max_sparse_size, max_big_leaf_size in *; lia|].
  eapply (wp_make _ tid); [exact Ho|]. intros n s2 He2 Hn.
  destruct (runs_tree lo _ _ _ _ _ _ n o s2 Hr Hlo Hby He2 Hn Hsh) as (He & Ht' & Hw & Hnd & Hnew & Hents & Hag).
  by apply (HQ (AN n (hkey t) pos (byte e.1 pos :: bytes) (t :: ts)) _ s2 He).
Qed.
End split.
Lemma wp_art_split_leaf a key bn e1 e2 pos o (kk : unit → prog state A) s :
  at_tree root (plug (f :: C) (AL a key bn (e1 ++ e2))) (nodes s) → holding tid (held [f_addr f]) s →
  parts K k key bn (f_bn f + 1) pos → below k e1 → above k e2 → len (e1 ++ e2) = max_big_leaf_size →
  nodes s !! a = Some o → leaf_holds o key bn (e1 ++ e2) →
  (∀ s', changed root f C (to_map (e1 ++ (k, v) :: e2)) s' → wp (kk tt) Q s') →
  wp (n ← split_leaf K alloc o pos k v; (store (slot_c (f_addr f) (len (f_cs1 f))) n ;; retire_leaf max_big_leaf_size a) ≫= kk) Q s.
Proof.
  intros Hat Hh Hp Hb Ha Hlen Ho Hlf HQ. destruct (leaf_facts _ _ _ _ _ Hat) as (Hbn & Hbn0 & [_ Hs Hks _ Hkey Hex] & Hlink & _).
  pose proof (frame_node _ (at_ok _ _ _ _ Hat)) as Hfb. assert (parts K k key bn 0 pos) as Hp0 by (destruct Hp as (? & ? & ?); split; [lia|done]).
  pose proof (exact_insert _ _ _ _ _ Hex Hb Ha Hp0 ltac:(lia)) as Hex'. pose proof (sorted_insert k v _ _ Hs Hb Ha) as Hs'.
  assert (keys_ok pos key (e1 ++ (k, v) :: e2)) as Hks'.
  { apply Forall_and. split; [|by destruct Hex']. apply Forall_app in Hks as [? ?]. apply Forall_app. split; [done|by constructor]. }
  assert (len (e1 ++ (k, v) :: e2) = max_big_leaf_size + 1) as Hlen' by (rewrite length_app in *; simpl; lia).
  pose proof Hlf as (pad & -> & _). destruct (leaf_insert_spec (max_big_leaf_size + 1) k v e1 e2 pad Hb Ha ltac:(lia)) as (pad' & Hins & Hcap).
  assert (pad' = []) as -> by (destruct pad'; [done|rewrite length_app in Hcap; simpl in Hcap; lia]). rewrite app_nil_r, Hlen in Hins.
  assert (0 ≤ pos ≤ K ∧ f_bn f + 1 ≤ pos) as Hpos by (destruct Hp as (? & _); lia).
  unfold split_leaf. apply wp_assoc. eapply wp_lift; [rewrite Z.add_simpl_r; exact Hins|].
  destruct (e1 ++ (k, v) :: e2) as [|e es] eqn:E; [by destruct e1|]. assert (es ≠ []) as Hne by (by intros ->).
  destruct (exact_varied _ _ _ _ Hex' Hne) as [HposK _]. assert (0 ≤ pos < K) as Hpos' by lia.
  apply wp_assoc. eapply wp_lift; [apply get_first|]. cbn [tail].
  apply (wp_runs_node pos key Hpos' (f_bn f + 1)); [done|done|done|done|lia|lia|].
  intros t' new s' He Ht' Hw Hnd Hnew Hents Hag. apply wp_assoc.
  eapply wp_install; [exact Hat|by eapply goes_ok|exact Hh|exact He|exact Ht'|exact Hnd| | |].
  - intros y Hy. right. by apply Hnew.
  - split; [|done]. eapply linked_agree; [exact Hfb|exact Hlink|done|]. eapply agree_less; [|exact Hag]. lia.
  - intros s3 Hc Hkeep. eapply wp_retire_leaf; [apply Hkeep; [by left|exact Ho]|exact Hlf|by rewrite cap_for_big by (rewrite Hlen; done)|].
    intros s4 Hn4 Hl4. apply HQ. rewrite Hents in Hc. eapply changed_same; [exact Hn4|exact Hl4|exact Hc].
Qed.

Lemma wp_insert_in_leaf a key bn e1 e2 pos o (kk : unit → prog state A) s :
  at_tree root (plug (f :: C) (AL a key bn (e1 ++ e2))) (nodes s) → holding tid (held [f_addr f]) s →
  parts K k key bn (f_bn f + 1) pos → below k e1 → above k e2 → nodes s !! a = Some o → leaf_holds o key bn (e1 ++ e2) →
  (∀ s', changed root f C (to_map (e1 ++ (k, v) :: e2)) s' → wp (kk tt) Q s') →
  wp (insert_in_leaf K alloc (f_addr f) (len (f_cs1 f)) a pos k v o ≫= kk) Q s.
Proof.
  intros Hat Hh Hp Hb Ha Ho Hlf HQ. destruct (leaf_facts _ _ _ _ _ Hat) as (_ & _ & [_ _ _ Hsz _ _] & _).
  destruct (decide (len (e1 ++ e2) < max_big_leaf_size)) as [Hlt|Hge]; [by eapply wp_grow_leaf|].
  assert (len (e1 ++ e2) = max_big_leaf_size) as Hlen by lia. pose proof Hlf as (pad & Heq & _).
  assert (insert_in_leaf K alloc (f_addr f) (len (f_cs1 f)) a pos k v o =
    (n ← split_leaf K alloc o pos k v; store (slot_c (f_addr f) (len (f_cs1 f))) n ;; retire_leaf max_big_leaf_size a)) as ->.
  { rewrite Heq. cbn [insert_in_leaf]. by rewrite Hlen. }
  apply wp_assoc. by eapply wp_art_split_leaf.
Qed.

(** *** A node with one more child *)
Lemma widened_node lo p n key bn bytes cs b lf bytes' ch' : wf lo (AN p key bn bytes cs) → (b ∉ bytes) → is_byte b →
  linked K key bn b lf → wf (bn + 1) lf → widened 0 (bytes ++ [b]) (addr <$> (cs ++ [lf])) bytes' ch' →
  ∃ cs', ch' = addr <$> cs' ∧ wf lo (AN n key bn bytes' cs') ∧
    (∀ B (g : art → list B), g A0 = [] → concat (g <$> cs') ≡ₚ g lf ++ concat (g <$> cs)) ∧
    (∀ P : art → Prop, P A0 → Forall P cs → P lf → Forall P cs').
Proof.
  intros Hw Hb Hby Hlf Hwf Hwi. inversion Hw as [| |? ? ? ? ? H0 Hbn Hkey Hnd Hbs Hl Hws]; subst.
  assert (NoDup (bytes ++ [b])) as Hnd'.
  { apply NoDup_app. split; [done|]. split; [|apply NoDup_singleton]. intros x Hx ->%list_elem_of_singleton. done. }
  assert (Forall is_byte (bytes ++ [b])) as Hbs' by (apply Forall_app; split; [done|by constructor]).
  assert (Forall2 (linked K key bn) (bytes ++ [b]) (cs ++ [lf])) as Hl' by (apply Forall2_app; [done|by constructor]).
  assert (Forall (wf (bn + 1)) (cs ++ [lf])) as Hws' by (apply Forall_app; split; [done|by constructor]).
  assert (∀ B (g : art → list B), concat (g <$> (cs ++ [lf])) ≡ₚ g lf ++ concat (g <$> cs)) as Hperm.
  { intros B g. rewrite fmap_app, concat_app. simpl. rewrite app_nil_r. apply Permutation_app_comm. }
  destruct Hwi as [[-> ->]|[-> ->]].
  - exists (cs ++ [lf]). split; [done|]. split; [by constructor|]. split; [by intros|]. intros P _ Hcs Hp. apply Forall_app. split; [done|by constructor].
  - exists (spread A0 (bytes ++ [b]) (cs ++ [lf])). split; [apply (spread_fmap addr A0)|]. split; [|split].
    + constructor; [done|done|done|apply NoDup_seqZ| | |].
      * apply Forall_forall. intros x Hx. by apply all_bytes.
      * apply spread_linked; [by left|done].
      * apply spread_forall; [constructor|done].
    + intros B g Hg. rewrite <-Hperm. apply spread_concat; [done|done|apply NoDup_seqZ| |by eapply Forall2_length].
      intros x Hx. apply all_bytes. rewrite Forall_forall in Hbs'. by apply Hbs'.
    + intros P HP Hcs Hp. apply spread_forall; [done|]. apply Forall_app. split; [done|by constructor].
Qed.
(** the copy of [p] in memory, after [p] was marked *)
Record grown_at s p key bn bytes cs l n s' bytes' ch' : Prop := {
  gr_keep : keeps [p] s s';
  gr_leaf : tree_at (nodes s') (AL l k K [(k, v)]);
  gr_new : nodes s !! l = None ∧ nodes s !! n = None ∧ n ≠ l ∧ n ≠ 0;
  gr_node : ∃ o, nodes s' !! n = Some o ∧ shape false key bn o bytes' ch';
  gr_wide : widened 0 (bytes ++ [byte k bn]) (addr <$> (cs ++ [AL l k K [(k, v)]])) bytes' ch';
  gr_there : is_Some (nodes s' !! p);
  gr_locks : ∀ H, (∀ y, y ∈ H → is_Some (nodes s !! y)) → holding tid H s → holding tid H s';
}.
Lemma wp_grow_node p key bn bytes cs o (kk : Z → prog state A) s :
  nodes s !! p = Some o → shape false key bn o bytes (addr <$> cs) → NoDup bytes → Forall is_byte bytes → 0 ≤ bn < K →
  (byte k bn ∉ bytes) →
  (∀ l n s' bytes' ch', grown_at s p key bn bytes cs l n s' bytes' ch' → wp (kk n) Q s') →
  wp (c ← new_small K alloc k v; store (removed_c p) true ;; n ← grown K alloc p k c o; kk n) Q s.
Proof.
  intros Ho Hsh Hnd Hby Hbn Hb HQ. apply wp_new_small; [done|]. intros l s3 He3 Hl.
  destruct (extends_new _ _ _ l He3) as [Hl0 Hlz]; [by left|]. pose proof (ex_keep _ _ _ _ He3 _ _ Ho) as Ho3.
  eapply wp_set_removed; [exact Hsh|exact Ho3|]. intros o1 Hsh1.
  eapply (wp_grown K alloc tid); [exact Hsh1|simpl; apply lookup_insert_eq|done|done|done|done|by apply shape_header in Hsh as (_ & _ & _ & ?)| |exact Hsh].
  intros n s5 o' bytes' ch' He5 Hn Hsh' Hwi. apply (HQ l n s5 bytes' ch').
  destruct (extends_new _ _ _ n He5) as [Hn0 Hnz]; [by left|]. simpl in Hn0.
  assert (p ≠ n) as Hpn by (intros ->; by rewrite lookup_insert_eq in Hn0). rewrite lookup_insert_ne in Hn0 by done.
  assert (p ≠ l) as Hpl by (intros ->; congruence).
  split.
  - intros y oy Hy Hoy. apply (ex_keep _ _ _ _ He5). simpl. rewrite lookup_insert_ne by (intros ->; apply Hy; by left). by apply (ex_keep _ _ _ _ He3).
  - inversion Hl as [|? ? ? ? ol _ Hol Hlf|]; subst. econstructor; [done| |exact Hlf]. apply (ex_keep _ _ _ _ He5). simpl. by rewrite lookup_insert_ne.
  - split_and!; [done| | |done].
    + destruct (nodes s !! n) as [on|] eqn:E; [|done]. apply (ex_keep _ _ _ _ He3) in E. congruence.
    + intros ->. inversion Hl. congruence.
  - by exists o'.
  - rewrite fmap_app. exact Hwi.
  - exists o1. apply (ex_keep _ _ _ _ He5). simpl. apply lookup_insert_eq.
  - intros H HH Hh. apply (ex_holding _ _ _ _ He5).
    + intros y Hy. simpl. destruct (decide (p = y)) as [->|]; [rewrite lookup_insert_eq; eauto|]. rewrite lookup_insert_ne by done.
      destruct (HH y Hy) as [oy Hoy]. exists oy. by apply (ex_keep _ _ _ _ He3).
    + apply (ex_holding _ _ _ _ He3) in Hh; [|done]. by eapply holding_same_locks; [|exact Hh].
Qed.
Lemma grown_tree lo s p key bn bytes cs l n s' bytes' ch' : wf lo (AN p key bn bytes cs) → in_key k → agree bn key k →
  tree_at (nodes s) (AN p key bn bytes cs) → NoDup (addrs (AN p key bn bytes cs)) → (byte k bn ∉ bytes) →
  grown_at s p key bn bytes cs l n s' bytes' ch' →
  ∃ t', addr t' = n ∧ hkey t' = key ∧ wf lo t' ∧ t' ≠ A0 ∧ tree_at (nodes s') t' ∧ NoDup (addrs t') ∧
    (∀ y, y ∈ addrs t' → y ∈ addrs (AN p key bn bytes cs) ∨ nodes s !! y = None) ∧
    to_map (ents t') = <[k := v]> (to_map (ents (AN p key bn bytes cs))).
Proof.
  intros Hw Hkk Hag Ht Hnd Hb [Hkeep Hl (Hl0 & Hn0 & Hnl & Hnz) (o' & Ho' & Hsh') Hwi _ _]. set (lf := AL l k K [(k, v)]) in *.
  inversion Hw as [| |? ? ? ? ? ? Hbn]; subst.
  destruct (widened_node lo p n key bn bytes cs (byte k bn) lf bytes' ch' Hw Hb (byte_range K k bn)) as (cs' & -> & Hw' & Hperm & Hall);
    [right; done|apply single_leaf_wf; [done|lia]|done|].
  inversion Ht as [| |? ? ? ? ? o _ Ho _ Hcs]; subst. simpl in Hnd. apply NoDup_cons in Hnd as [Hpc Hnd].
  assert (∀ y, y ∈ concat (addrs <$> cs) → is_Some (nodes s !! y)) as Hold.
  { intros y (c & Hc & Hy)%elem_concat. rewrite Forall_forall in Hcs. eapply art_tree_addr; [by apply Hcs|done]. }
  pose proof (Hperm _ addrs eq_refl) as Hpa. simpl in Hpa.
  exists (AN n key bn bytes' cs'). split; [done|]. split; [done|]. split; [done|]. split; [done|]. split; [|split; [|split]].
  - econstructor; [done|exact Ho'|exact Hsh'|]. apply Hall; [constructor| |exact Hl]. rewrite Forall_forall in *. intros c Hc.
    eapply art_tree_frame; [|by apply Hcs]. intros y Hy. assert (y ∈ concat (addrs <$> cs)) as Hyc by (apply elem_concat; eauto).
    destruct (Hold y Hyc) as [oy Hoy]. rewrite Hoy. apply Hkeep; [|done]. by intros ->%list_elem_of_singleton.
  - simpl. rewrite Hpa. apply NoDup_cons. split.
    + intros [?|Hin]%elem_of_cons; [done|]. destruct (Hold n Hin). congruence.
    + apply NoDup_cons. split; [|done]. intros Hin. destruct (Hold l Hin). congruence.
  - intros y. simpl. rewrite Hpa. intros [->|[->|Hy]%elem_of_cons]%elem_of_cons; [by right|by right|]. left. by right.
  - eapply ents_insert; [exact Hw'|]. apply (Hperm _ ents eq_refl).
Qed.
End insert_at.

Section add_child.
Context (tid_ok : small_tid tid) (root : Z) (f : frame) (C : list frame) (k v : Z) (HC : Forall (goes k) (f :: C)) (Hk : in_key k).
(** under both locks *)
Lemma wp_add_child_locked p key bn bytes cs s (R : bool → state → Prop) fo :
  at_tree root (plug (f :: C) (AN p key bn bytes cs)) (nodes s) → holding tid (held [p; f_addr f]) s → agree bn key k → (byte k bn ∉ bytes) →
  nodes s !! f_addr f = Some fo →
  (∀ t s', at_tree root (plug (f :: C) t) (nodes s') → holding tid (held [p; f_addr f]) s' → is_Some (nodes s' !! p) → is_Some (nodes s' !! f_addr f) →
    to_map (ents t) = <[k := v]> (to_map (ents (AN p key bn bytes cs))) → R true s') →
  wp (o ← load (node_c p);
      there ← lift (get_child K o k);
      if bool_decide (is_Some (there : option Z)) then mret false
      else
        c ← new_small K alloc k v;
        store (removed_c p) true ;;
        n ← grown K alloc p k c o;
        store (slot_c (f_addr f) (len (f_cs1 f))) n ;;
        retire p ;;
        mret true) R s.
Proof.
  intros Hat Hh Hag Hb Hfo HR. destruct (node_facts _ _ _ _ HC _ _ _ _ _ _ Hat) as (Hbn & Hlink & Hw & Hkey & Ht & Hnd).
  pose proof (frame_node _ _ _ HC _ (at_ok _ _ _ _ Hat)) as Hfb.
  inversion Hw as [| |? ? ? ? ? ? ? ? Hndb Hbs]; subst. inversion Ht as [| |? ? ? ? ? o _ Ho Hsh _]; subst.
  eapply wp_read; [exact Ho|done|]. eapply wp_lift; [eapply shape_child_out; [exact Hsh|lia|done]|].
  rewrite bool_decide_eq_false_2 by (by intros [? ?]).
  eapply wp_grow_node; [exact Hk|exact Ho|exact Hsh|done|done|lia|done|]. intros l n s5 bytes' ch' Hg.
  destruct (grown_tree _ _ _ _ _ _ _ _ _ _ _ _ _ _ Hw Hk Hag Ht Hnd Hb Hg) as (t' & <- & Hkt & Hwt & Hne & Ht' & Hnd' & Hnew & Hm).
  eapply wp_art_link; [exact Hat|by eapply goes_ok| |exact Ht'|exact Hnd'|exact Hnew| |].
  - intros y oy Hy Hoy. apply (gr_keep _ _ _ _ _ _ _ _ _ _ _ _ _ Hg); [|done]. intros ->%list_elem_of_singleton. apply Hy. by left.
  - split; [|done]. eapply linked_agree; [exact Hfb|exact Hlink|done|]. by rewrite Hkt.
  - intros s6 Hat6 Hl6 Hdom _. apply wp_retire. unfold wp; cbn [run mret prog_ret].
    assert (∀ q, q ≠ p → is_Some (nodes s !! q) → is_Some (nodes s6 !! q)) as Hd.
    { intros q Hq [oq Hoq]. apply Hdom. exists oq. apply (gr_keep _ _ _ _ _ _ _ _ _ _ _ _ _ Hg); [|done]. by intros ->%list_elem_of_singleton. }
    assert (is_Some (nodes s6 !! p)) as Hp6 by (apply Hdom, (gr_there _ _ _ _ _ _ _ _ _ _ _ _ _ Hg)).
    apply (HR t'); [done| |done| |done].
    + eapply holding_same_locks; [|apply (gr_locks _ _ _ _ _ _ _ _ _ _ _ _ _ Hg); [|exact Hh]]; [exact Hl6|].
      intros y Hy%elem_held. apply elem_of_cons in Hy as [->| ->%list_elem_of_singleton]; eauto.
    + destruct (decide (f_addr f = p)) as [->|]; [done|]. apply Hd; eauto.
Qed.
Lemma wp_art_add_child {A} p key bn bytes cs (kk : bool → prog state A) Q s :
  at_tree root (plug (f :: C) (AN p key bn bytes cs)) (nodes s) → holding tid ∅ s → agree bn key k → (byte k bn ∉ bytes) →
  (∀ t s', at_tree root (plug (f :: C) t) (nodes s') → holding tid ∅ s' →
    to_map (ents t) = <[k := v]> (to_map (ents (AN p key bn bytes cs))) → wp (kk true) Q s') →
  wp (add_child K alloc tid (f_addr f) p k v ≫= kk) Q s.
Proof.
  intros Hat Hh Hag Hb HQ. destruct (node_facts _ _ _ _ HC _ _ _ _ _ _ Hat) as (Hbn & Hlink & Hw & _ & Ht & Hnd).
  pose proof (frame_node _ _ _ HC _ (at_ok _ _ _ _ Hat)) as Hfb. destruct Hlink as [?|[_ Hlink]]; [done|]. simpl in Hlink.
  pose proof (at_mem _ _ _ _ Hat) as Hmem. apply art_plug_at in Hmem as [[(_ & (fo & Hfo & Hfs) & _) _] _]. simpl addr in Hfs.
  inversion Ht as [| |? ? ? ? ? o _ Ho Hsh _]; subst.
  assert (f_addr f ≠ p) as Hne.
  { intros Heq. apply (subtree_apart _ _ _ _ _ p Hat); simpl; [by left|rewrite Heq; by left]. }
  eapply (wp_try_lock tid tid_ok ∅); [exact Hh|by intros ?%elem_of_empty|exact Hfo|]. intros s1 Hn1 _ Hh1.
  eapply wp_read; [by rewrite Hn1|done|]. eapply wp_read; [by rewrite Hn1|done|].
  destruct (shape_header _ _ _ _ _ _ Hsh) as (-> & _ & _ & _).
  assert (NoDup (f_bs1 f ++ f_b f :: f_bs2 f) ∧ frame_ok f) as [Hfnd Hfok].
  { apply Forall_cons in HC as [[? _] HC']. by destruct (plug_node _ _ _ _ _ _ _ (goes_ok _ _ _ HC') (at_ok _ _ _ _ Hat)). }
  apply NoDup_app in Hfnd as (_ & Hfd & _).
  eapply wp_lift.
  { rewrite <-Hlink in Hfs, Hfd. eapply shape_child_in; [exact Hfs|done|]. intros Hx. apply (Hfd _ Hx). by left. }
  cbv iota. rewrite Hfok. eapply wp_removed; [exact Hfs|by rewrite Hn1|].
  eapply wp_slot; [exact Hfs|by rewrite Hn1|by rewrite length_map|].
  eapply wp_removed; [exact Hfs|by rewrite Hn1|]. eapply wp_slot; [exact Hfs|by rewrite Hn1|by rewrite length_map|].
  rewrite Z.eqb_refl. cbn [orb negb]. refine (proj1 (wp_bind_ret _ _ _) _).
  eapply (wp_try_lock tid tid_ok (held [f_addr f])); [exact Hh1|by intros ->%elem_held%list_elem_of_singleton|by rewrite Hn1|].
  intros s2 Hn2 _ Hh2. eapply wp_add_child_locked; [by rewrite Hn2, Hn1|exact Hh2|done|done|by rewrite Hn2, Hn1|].
  intros t' s3 Hat3 Hh3 Hp3 Hf3 Hm. split; [done|]. split; [done|]. intros s4 Hn4 _ Hh4. unfold wp at 1; cbn [run mret prog_ret].
  split; [done|]. split; [by rewrite Hn4|]. intros s5 Hn5 _ Hh5. apply (HQ t'); [by rewrite Hn5, Hn4|done|done].
Qed.
End add_child.
End changes.
