(* ===== verification/ArtMap.v ===== *)
(** * ArtMap: [ArtTree] implements a finite map, where it is defined.

    Insertions are right on every branch.  A search is right unless it ends
    where a node's key parts from the searched one; a removal unless it ends at
    a node that has no place for the byte.  Neither happens for a key that is
    there. *)

From stdpp Require Import prelude list gmap.
From Stdlib Require Import ZArith Lia Sorted.
From S2P Require Import Prelude Conc SpinLock Store MapSpec Arrays ArtTree ArtBytes ArtNodes ArtProof ArtInsert.
Import Art.
Local Open Scope Z_scope.
#[local] Abbreviation KV := (Z * Z)%type.
#[local] Abbreviation len l := (Z.of_nat (length l)).

Section ops.
Context (K : Z) (K_pos : 0 < K) (alloc : gmap Z obj → Z) {fresh : Allocator alloc} (tid : nat) (tid_ok : small_tid tid).
#[local] Abbreviation state := (store_state obj).
#[local] Abbreviation in_key := (in_key K).
#[local] Abbreviation at_tree := (at_tree K).
#[local] Abbreviation goes := (goes K).
#[local] Abbreviation changed := (changed K tid).
Implicit Types s : state.

(** ** The parent of a place *)
Section place.
Context (root : Z) (f : frame) (C : list frame) (t : art) (s : state).
Context (Hat : at_tree root (plug (f :: C) t) (nodes s)) (HC : Forall frame_ok (f :: C)).
Context {A : Type} (Q : A → state → Prop).
Lemma frame_shape : ∃ o, nodes s !! f_addr f = Some o ∧
  shape false (f_key f) (f_bn f) o (f_bs1 f ++ f_b f :: f_bs2 f) ((addr <$> f_cs1 f) ++ addr t :: (addr <$> f_cs2 f)).
Proof. destruct Hat as [_ _ Hm _]. apply art_plug_at in Hm as [[(_ & Ho & _) _] _]. exact Ho. Qed.
Lemma place_tree : tree_at (nodes s) t.
Proof. destruct Hat as [_ _ Hm _]. by apply art_plug_at in Hm as [_ ?]. Qed.
Lemma wp_place_slot (kk : Z → prog state A) : wp (kk (addr t)) Q s → wp (load (slot_c (f_addr f) (len (f_cs1 f))) ≫= kk) Q s.
Proof. destruct frame_shape as (o & Ho & Hsh). intros HQ. eapply wp_slot; [exact Hsh|exact Ho|by rewrite length_map|exact HQ]. Qed.
Lemma wp_place_removed (kk : bool → prog state A) : wp (kk false) Q s → wp (load (removed_c (f_addr f)) ≫= kk) Q s.
Proof. destruct frame_shape as (o & Ho & Hsh). intros HQ. eapply wp_removed; [exact Hsh|exact Ho|exact HQ]. Qed.
Lemma wp_unchanged (kk : bool → prog state A) : wp (kk true) Q s →
  wp (unchanged (f_addr f) (Some (len (f_cs1 f))) (addr t) ≫= kk) Q s.
Proof.
  intros HQ. unfold unchanged, read_lock, lock.read_lock. apply wp_assoc. cbn [at_place]. apply wp_place_slot.
  rewrite Z.eqb_refl. cbn [negb]. apply wp_assoc. by apply wp_place_removed.
Qed.
(** the change of a place under the lock of its parent *)
Lemma wp_try_place E body (kk : bool → prog state A) : holding tid ∅ s →
  (∀ s1, nodes s1 = nodes s → holding tid (held [f_addr f]) s1 → wp body (λ b s', b = true ∧ changed root f C E s') s1) →
  (∀ t' s', at_tree root (plug (f :: C) t') (nodes s') → holding tid ∅ s' → to_map (ents t') = E → wp (kk true) Q s') →
  wp (try_lock tid (f_addr f) body ≫= kk) Q s.
Proof.
  intros Hh Hb HQ. destruct frame_shape as (o & Ho & _).
  eapply (wp_try_lock tid tid_ok ∅); [exact Hh|by intros ?%elem_of_empty|exact Ho|]. intros s1 Hn1 _ Hh1.
  eapply wp_mono; [|by apply Hb]. intros b s2 (-> & t' & Hat' & Hh2 & HE). split; [exact Hh2|]. split; [by eapply frame_there|].
  intros s3 Hn3 _ Hh3. apply (HQ t'); [by rewrite Hn3|done|done].
Qed.
End place.

(** does a leaf hold the key? *)
Definition held_in (t : art) (k : Z) : option Z := match t with AL _ _ _ es => to_map es !! k | _ => None end.
Definition leaf_sorted (t : art) : Prop := match t with AL _ _ _ es => sorted es | _ => True end.
Lemma wf_leaf_sorted lo t : wf K lo t → leaf_sorted t.
Proof. intros []; [done|by eapply lf_sorted|done]. Qed.
Lemma wp_holds {A} t k (kk : bool → prog state A) Q s : tree_at (nodes s) t → leaf_sorted t →
  wp (kk (bool_decide (is_Some (held_in t k)))) Q s → wp (holds (addr t) k ≫= kk) Q s.
Proof.
  intros Ht Hs HQ. unfold holds. destruct Ht as [|a key bn es o Ha Ho Hlf|a key bn bytes cs o Ha Ho Hsh _]; cbn [addr held_in leaf_sorted] in *; [done| |];
    rewrite (proj2 (Z.eqb_neq a 0)) by done; apply wp_assoc; (eapply wp_read; [exact Ho|done|]).
  - pose proof Hlf as (pad & -> & _). cbn [is_leaf]. unfold find_in. apply wp_assoc, wp_assoc.
    eapply wp_read; [exact Ho|done|]. eapply wp_lift; [exact (art_leaf_find_spec _ _ _ _ k Hlf Hs)|]. exact HQ.
  - apply shape_header in Hsh as (_ & _ & -> & _). exact HQ.
Qed.

(** ** Insertion *)
Section insert.
Context (root : Z) (f : frame) (C : list frame) (k v : Z) (HC : Forall (goes k) (f :: C)) (Hk : in_key k).
Lemma wp_insert_at t pos s : at_tree root (plug (f :: C) t) (nodes s) → holding tid (held [f_addr f]) s →
  held_in t k = None → (match t with A0 => True | _ => parts K k (hkey t) (hbn t) (f_bn f + 1) pos end) →
  (match t with AN _ _ _ _ _ => pos < hbn t | _ => True end) →
  wp (insert_at K alloc (f_addr f) (len (f_cs1 f)) (addr t) pos k v)
    (λ b s', b = true ∧ changed root f C (<[k := v]> (to_map (ents t))) s') s.
Proof.
  intros Hat Hh Hno Hp Hcut. unfold insert_at.
  apply (wp_place_removed root f C t s Hat). cbv iota. apply (wp_place_slot root f C t s Hat). rewrite Z.eqb_refl. cbn [orb negb].
  pose proof (place_tree _ _ _ _ _ Hat) as Ht. destruct Ht as [|a key bn es o Ha Ho Hlf|a key bn bytes cs o Ha Ho Hsh Hcs]; cbn [addr hkey hbn held_in] in *.
  - cbn [Z.eqb]. eapply (wp_fill_place K K_pos alloc tid root f C k v HC Hk); [exact Hat|exact Hh|]. intros s' Hc. done.
  - rewrite (proj2 (Z.eqb_neq a 0)) by done. eapply wp_read; [exact Ho|done|]. pose proof Hlf as (pad & Heq & _).
    assert (is_leaf o = true) as -> by (by rewrite Heq). clear Heq.
    destruct (leaf_facts _ _ _ _ _ HC _ _ _ _ _ Hat) as (_ & _ & [_ Hs _ Hsz _ _] & _).
    pose proof (sorted_place k es Hs) as Hpl. rewrite Hno in Hpl. destruct Hpl as (e1 & e2 & -> & Hb & Hab).
    pose proof (sorted_insert k v _ _ Hs Hb Hab) as Hs'.
    eapply (wp_insert_in_leaf K K_pos alloc tid root f C k v HC Hk); [exact Hat|exact Hh|exact Hp|exact Hb|exact Hab|exact Ho|exact Hlf|].
    intros s' Hc. rewrite to_map_insert in Hc by done. done.
  - rewrite (proj2 (Z.eqb_neq a 0)) by done. eapply wp_read; [exact Ho|done|].
    destruct (shape_header _ _ _ _ _ _ Hsh) as (-> & _ & -> & _).
    eapply (wp_cut_edge K K_pos alloc tid root f C k v HC Hk); [exact Hat|exact Hh|exact Hp|exact Hcut|]. intros s' Hc. done.
Qed.
End insert.

(** ** The map *)
Definition art_repr (root : Z) (M : gmap Z Z) s : Prop :=
  ∃ T, at_tree root T (nodes s) ∧ holding tid ∅ s ∧ M = to_map (ents T).
(** what a search meets at the place it found *)
Lemma place_lookup root f C t k s : at_tree root (plug (f :: C) t) (nodes s) → Forall (goes k) (f :: C) →
  to_map (ents (plug (f :: C) t)) !! k = to_map (ents t) !! k ∧ leaf_sorted t ∧ tree_at (nodes s) t.
Proof.
  intros Hat HC. split; [eapply plug_lookup; [apply Hat|exact HC]|]. split; [|by eapply place_tree].
  pose proof (at_ok _ _ _ _ Hat) as Hok. apply (plug_fits K) in Hok; [|by eapply goes_ok]. destruct (fits_wf _ _ _ Hok) as [lo Hw]. by eapply wf_leaf_sorted.
Qed.
(** a key that parts from the key of a node is not below it *)
Lemma cut_absent lo a key bn bytes cs k pos low : wf K lo (AN a key bn bytes cs) → parts K k key bn low pos → 0 ≤ low → pos < bn →
  to_map (ents (AN a key bn bytes cs)) !! k = None.
Proof.
  intros Hw (Hpos & _ & Hne) Hlow Hlt. apply not_elem_of_list_to_map_1. intros (e & -> & He)%list_elem_of_fmap.
  destruct (wf_entries K _ _ _ Hw He) as [Ha _]. simpl in Ha. apply Hne; [done|]. symmetry. apply (agree_byte K pos bn); [lia| |done].
  inversion Hw; lia.
Qed.
Lemma missing_absent lo a key bn bytes cs k : wf K lo (AN a key bn bytes cs) → (ArtBytes.byte K k bn ∉ bytes) →
  to_map (ents (AN a key bn bytes cs)) !! k = None.
Proof.
  intros Hw Hb. apply not_elem_of_list_to_map_1. intros (e & -> & He)%list_elem_of_fmap. simpl in He.
  apply elem_concat in He as (c & Hc & He). inversion Hw as [| |? ? ? ? ? H0 Hbn _ _ _ Hl Hws]; subst.
  destruct (linked_child _ _ _ _ _ _ Hl Hc) as (b & Hbin & Hlb). rewrite Forall_forall in Hws.
  destruct (child_entries K _ _ _ _ _ Hlb (Hws c Hc) H0 He) as [_ <-]. done.
Qed.

(** the four places where a search ends *)
Lemma wp_art_search {A} fuel root M k (kk : place → prog state A) Q s : art_repr root M s → in_key k → (Z.to_nat K < fuel)%nat →
  (∀ f C a key bn bytes cs, at_tree root (plug (f :: C) (AN a key bn bytes cs)) (nodes s) → holding tid ∅ s →
    M = to_map (ents (plug (f :: C) (AN a key bn bytes cs))) → Forall (goes k) (f :: C) → agree K bn key k →
    (ArtBytes.byte K k bn ∉ bytes) → M !! k = None → wp (kk (f_addr f, a, None, 0, bn)) Q s) →
  (∀ f C t pos, at_tree root (plug (f :: C) t) (nodes s) → holding tid ∅ s → M = to_map (ents (plug (f :: C) t)) →
    Forall (goes k) (f :: C) → M !! k = held_in t k → leaf_sorted t → tree_at (nodes s) t →
    (match t with A0 => True | _ => parts K k (hkey t) (hbn t) (f_bn f + 1) pos end) →
    (match t with AN _ _ _ _ _ => pos < hbn t | _ => True end) →
    wp (kk (up C, f_addr f, Some (len (f_cs1 f)), addr t, pos)) Q s) →
  wp (find_location K fuel root k ≫= kk) Q s.
Proof.
  intros (T & Hat & Hh & HM) Hk Hf Hnone Hplace. pose proof (at_ok _ _ _ _ Hat) as Hok.
  eapply (wp_find_location K K_pos); [exact Hat|exact Hk|exact Hf|].
  intros pl [C a key bn bytes cs -> HC Ha Hb|f C -> HC|f C a key bn es pos -> HC Hp|f C a key bn bytes cs pos -> HC Hp Hlt].
  - destruct C as [|f C].
    { exfalso. destruct Hok as (_ & ? & ? & ? & [= _ _ -> -> _]). apply Hb, all_bytes, byte_range. }
    apply (Hnone f C a key bn bytes cs); try done. destruct (place_lookup _ _ _ _ k _ Hat HC) as [HMk _]. rewrite HM, HMk.
    destruct (node_facts _ _ _ _ _ HC _ _ _ _ _ _ Hat) as (_ & _ & Hw & _). by eapply missing_absent.
  - destruct (place_lookup _ _ _ _ k _ Hat HC) as (HMk & Hs & Ht). apply (Hplace f C A0 (f_bn f)); try done. by rewrite HM, HMk.
  - destruct (place_lookup _ _ _ _ k _ Hat HC) as (HMk & Hs & Ht). apply (Hplace f C (AL a key bn es) pos); try done. by rewrite HM, HMk.
  - destruct (place_lookup _ _ _ _ k _ Hat HC) as (HMk & Hs & Ht). apply (Hplace f C (AN a key bn bytes cs) pos); try done. rewrite HM, HMk.
    pose proof (frame_node _ _ _ _ HC _ Hok) as Hfb. destruct (node_facts _ _ _ _ _ HC _ _ _ _ _ _ Hat) as (_ & _ & Hw & _).
    eapply cut_absent; [exact Hw|exact Hp|lia|done].
Qed.

Lemma art_insert_wp root M fuel k v s : art_repr root M s → in_key k → (Z.to_nat K < fuel)%nat →
  wp (insert_ K alloc tid fuel root k v) (λ b s', b = bool_decide (M !! k = None) ∧
    art_repr root (if b then <[k := v]> M else M) s') s.
Proof.
  intros Hr Hk Hf. unfold insert_. destruct fuel as [|fuel]; [lia|]. apply wp_try_loop. unfold try_insert.
  eapply wp_art_search; [exact Hr|exact Hk|exact Hf| |].
  - intros f C a key bn bytes cs Hat Hh HM HC Ha Hb HMk. cbn beta iota.
    change (holds 0 k) with (mret false : prog state bool). change (mret false ≫= ?K) with (K false). cbn beta iota.
    eapply (wp_art_add_child K K_pos alloc tid tid_ok root f C k v HC Hk); [exact Hat|exact Hh|exact Ha|exact Hb|].
    intros t' s' Hat' Hh' Hm. unfold wp; cbn [run mret prog_ret]. exists true. split; [done|]. rewrite bool_decide_eq_true_2 by done. split; [done|].
    exists (plug (f :: C) t'). split; [done|]. split; [done|]. rewrite HM. symmetry. eapply plug_insert; [apply Hat|apply Hat'|done|done].
  - intros f C t pos Hat Hh HM HC HMk Hs Ht Hp Hcut. cbn beta iota. eapply wp_holds; [exact Ht|exact Hs|]. rewrite <-HMk.
    destruct (M !! k) as [w|] eqn:E.
    + rewrite bool_decide_eq_true_2 by done. eapply wp_unchanged; [exact Hat|]. unfold wp; cbn [run mret prog_ret].
      exists false. split; [done|]. split; [done|]. by exists (plug (f :: C) t).
    + rewrite bool_decide_eq_false_2 by (by intros [? ?]). eapply wp_try_place; [exact Hat|exact Hh| |].
      * intros s1 Hn1 Hh1. eapply (wp_insert_at root f C k v HC Hk t pos s1); [by rewrite Hn1|exact Hh1|done|exact Hp|exact Hcut].
      * intros t' s' Hat' Hh' Hm. unfold wp; cbn [run mret prog_ret]. exists true. split; [done|]. split; [done|].
        exists (plug (f :: C) t'). split; [done|]. split; [done|]. rewrite HM. symmetry. eapply plug_insert; [apply Hat|apply Hat'|done|done].
Qed.

(** ** Removal *)
Lemma other_child_runs rm key bn o bytes ch p c s : shape rm key bn o bytes ch → nodes s !! p = Some o →
  ∀ n i r, (i ≤ length ch)%nat → (length ch - i < n)%nat → ∃ r', run (other_child p c (len ch) n (Z.of_nat i) r) s = Ok r' s.
Proof.
  intros Hsh Ho. induction n as [|n IH]; intros i r Hi Hn; [lia|]. cbn [other_child].
  destruct (Z.ltb_spec (Z.of_nat i) (len ch)) as [Hlt|]; [|by exists r].
  destruct (lookup_lt_is_Some_2 ch i) as [x Hx]; [lia|]. rewrite run_bind, (run_slot _ _ _ _ _ _ _ _ _ _ Hsh Ho Hx).
  replace (Z.of_nat i + 1) with (Z.of_nat (S i)) by lia.
  repeat case_match; first [by eexists|apply IH; lia].
Qed.
Lemma wp_single_other {A} rm key bn o bytes ch p c (kk : Z → prog state A) Q s : shape rm key bn o bytes ch → nodes s !! p = Some o →
  (∀ r, wp (kk r) Q s) → wp (single_other_child p c ≫= kk) Q s.
Proof.
  intros Hsh Ho HQ. unfold single_other_child. apply wp_assoc. eapply wp_read; [exact Ho|done|].
  destruct (shape_cases _ _ _ _ _ _ Hsh) as [[_ ->]|[(idx & ptr & -> & _)|(pad & ptr & -> & _)]]; [apply HQ|apply HQ|].
  rewrite wp_bind. destruct (other_child_runs _ _ _ _ _ _ p c s Hsh Ho (S (Z.to_nat (len ch))) 0 0) as [r Hr]; [lia|lia|].
  eapply wp_of_run; [exact Hr|apply HQ].
Qed.

(** the leaf without the key *)
Lemma leaf_ok_delete key bn k v e1 e2 key' bn' : leaf_ok K key bn (e1 ++ (k, v) :: e2) → exact_byte K bn' key' (e1 ++ e2) →
  e1 ++ e2 ≠ [] → leaf_ok K key' bn' (e1 ++ e2) ∧ agree K bn key key'.
Proof.
  intros [_ Hs Hks Hsz _ (Hag & _)] Hex Hne. pose proof Hex as (_ & Hin & _). apply list_elem_of_fmap in Hin as (e & -> & He).
  assert (∀ z, z ∈ e1 ++ e2 → z ∈ e1 ++ (k, v) :: e2) as Hsub by (intros z; rewrite !elem_of_app, elem_of_cons; tauto).
  rewrite Forall_forall in Hks, Hag. split; [|by apply Hag, Hsub].
  - split; [done|by apply sorted_delete in Hs as (? & _)| |rewrite length_app in *; simpl in *; lia|by apply Hks, Hsub|done].
    apply Forall_forall. intros z Hz. by apply Hks, Hsub.
Qed.
Lemma leaf_agree key bn k v e1 e2 : leaf_ok K key bn (e1 ++ (k, v) :: e2) →
  ∀ x y, x ∈ e1 ++ e2 → y ∈ e1 ++ e2 → agree K bn x.1 y.1.
Proof.
  intros [_ _ _ _ _ (Hag & _)] x y Hx Hy. rewrite Forall_forall in Hag.
  eapply agree_trans; [apply agree_sym|]; apply Hag; rewrite elem_of_app, elem_of_cons in *; tauto.
Qed.

Section remove.
Context (root : Z) (f : frame) (C : list frame) (k : Z) (HC : Forall (goes k) (f :: C)).
Lemma wp_remove_at a key bn e1 v e2 s : at_tree root (plug (f :: C) (AL a key bn (e1 ++ (k, v) :: e2))) (nodes s) →
  holding tid (held [f_addr f]) s →
  wp (remove_at K alloc (f_addr f) (len (f_cs1 f)) a k) (λ b s', b = true ∧ changed root f C (to_map (e1 ++ e2)) s') s.
Proof.
  intros Hat Hh. unfold remove_at. set (t := AL a key bn (e1 ++ (k, v) :: e2)) in *.
  apply (wp_place_removed root f C t s Hat). cbv iota. change (mret ?x ≫= ?K) with (K x). cbn beta iota.
  apply (wp_place_slot root f C t s Hat). rewrite Z.eqb_refl. cbn [orb negb].
  destruct (leaf_facts K root f C k HC _ _ _ _ _ Hat) as (Hbn & Hbn0 & Hlok & _ & o & Ho & Hlf).
  pose proof (lf_sorted _ _ _ _ Hlok) as Hs. pose proof (lf_size _ _ _ _ Hlok) as Hsz.
  destruct (frame_shape _ _ _ _ _ Hat) as (fo & Hfo & Hfs). pose proof (frame_node _ _ _ _ HC _ (at_ok _ _ _ _ Hat)) as Hfb.
  pose proof (sorted_delete _ _ _ _ Hs) as (Hs' & Hb & Ha). pose proof Hlf as (pad & Heq & _).
  assert (len (e1 ++ (k, v) :: e2) = len (e1 ++ e2) + 1) as Hlen by (rewrite !length_app; simpl; lia).
  change (addr t) with a in *. eapply wp_read; [exact Ho|done|].
  destruct (decide (e1 ++ e2 = [])) as [Hnil|Hne].
  - rewrite Heq, Hlen, Hnil. cbn [length Z.of_nat Z.add Z.eqb Pos.eqb].
    eapply wp_single_other; [exact Hfs|exact Hfo|]. intros _. change 0 with (addr A0).
    eapply (wp_install K tid root f C t A0 [] s s); [exact Hat|by eapply goes_ok|exact Hh|apply extends_refl|constructor|constructor| | |].
    + intros y ?%elem_of_nil. done.
    + split; [by left|constructor].
    + intros s3 Hc Hkeep. eapply wp_retire_leaf; [apply Hkeep; [by left|exact Ho]|exact Hlf|by rewrite cap_for_small by (rewrite Hlen, Hnil; done)|].
      intros s4 Hn4 Hl4. unfold wp; cbn [run mret prog_ret]. split; [done|]. by eapply changed_same.
  - assert (∀ x y, x ∈ e1 ++ e2 → y ∈ e1 ++ e2 → agree K bn x.1 y.1) as Hall by (by eapply leaf_agree).
    destruct (remove_from_leaf_spec K K_pos key bn o k v e1 e2 Hlf) as (key' & bn' & o' & Hr & Hlf' & Hbn' & Hex'); [lia|done|done|done|done|].
    destruct (leaf_ok_delete _ _ _ _ _ _ _ _ Hlok Hex' Hne) as [Hlok' Hkk].
    assert (∀ s', changed root f C (to_map (e1 ++ e2)) s' → wp (mret true) (λ b s', b = true ∧ changed root f C (to_map (e1 ++ e2)) s') s') as Hend by (by unfold wp).
    assert (1 ≤ len (e1 ++ e2)) as H1 by (destruct (e1 ++ e2); [done|simpl; lia]).
    rewrite Heq. cbv beta iota. rewrite <-Heq. rewrite (proj2 (Z.eqb_neq _ 1)) by lia.
    unfold max_small_leaf_size. destruct (Z.ltb_spec (2 + 1) (len (e1 ++ (k, v) :: e2))); [|destruct (Z.eqb_spec (len (e1 ++ (k, v) :: e2)) (2 + 1))];
      [rewrite cap_for_big in Hr by lia|rewrite cap_for_small in Hr by lia..];
      (eapply (wp_swap_leaf K alloc tid root f C k HC); [exact Hat|exact Hh|exact Ho|exact Hlf|exact Hr|exact Hlf'|lia|exact Hlok'|by eapply agree_less; [|exact Hkk]; lia| |done|exact Hend]);
      [by rewrite cap_for_big by lia..|by rewrite cap_for_small by lia].
Qed.
End remove.

Lemma art_remove_wp root M fuel k v s : art_repr root M s → in_key k → (Z.to_nat K < fuel)%nat → M !! k = Some v →
  wp (remove_ K alloc tid fuel root k) (λ b s', b = true ∧ art_repr root (delete k M) s') s.
Proof.
  intros Hr Hk Hf HM. unfold remove_. destruct fuel as [|fuel]; [lia|]. apply wp_try_loop. unfold try_remove.
  eapply wp_art_search; [exact Hr|exact Hk|exact Hf|congruence|].
  intros f C t pos Hat Hh HMt HC HMk Hs Ht Hp Hcut. cbn beta iota. eapply wp_holds; [exact Ht|exact Hs|]. rewrite <-HMk, HM.
  rewrite bool_decide_eq_true_2 by done. cbn [negb]. rewrite HM in HMk. destruct t as [|a key bn es|]; [done| |done]. simpl in HMk, Hs.
  pose proof (sorted_place k es Hs) as Hpl. rewrite <-HMk in Hpl. destruct Hpl as (e1 & e2 & -> & Hb & Ha).
  eapply wp_try_place; [exact Hat|exact Hh| |].
  - intros s1 Hn1 Hh1. eapply (wp_remove_at root f C k HC); [rewrite Hn1; exact Hat|exact Hh1].
  - intros t' s' Hat' Hh' Hm. unfold wp; cbn [run mret prog_ret]. exists true. split; [done|]. split; [done|].
    exists (plug (f :: C) t'). split; [done|]. split; [done|]. rewrite HMt. symmetry.
    eapply plug_delete; [apply Hat|apply Hat'|done|]. rewrite Hm. simpl. symmetry. by apply to_map_delete.
Qed.
Lemma art_find_wp root M fuel k v s : art_repr root M s → in_key k → (Z.to_nat K < fuel)%nat → M !! k = Some v →
  wp (find_ K fuel root k) (λ r s', r = Some v ∧ art_repr root M s') s.
Proof.
  intros Hr Hk Hf HM. unfold find_. eapply wp_art_search; [exact Hr|exact Hk|exact Hf|congruence|].
  intros f C t pos Hat Hh HMt HC HMk Hs Ht Hp Hcut. cbn beta iota. rewrite HM in HMk. destruct Ht as [|a key bn es o Ha Ho Hlf|]; [done| |done].
  simpl in HMk, Hs |- *. rewrite (proj2 (Z.eqb_neq a 0)) by done. unfold find_in. pose proof Hlf as (pad & -> & _).
  eapply wp_read; [exact Ho|done|]. refine (proj1 (wp_bind_ret _ _ _) _).
  eapply wp_lift; [exact (art_leaf_find_spec _ _ _ _ k Hlf Hs)|]. unfold wp; cbn [run mret prog_ret]. split; [done|exact Hr].
Qed.

(** *** A new tree *)
Lemma art_make_wp s : holding tid ∅ s → wp (ordered_map alloc) (λ root s', art_repr root ∅ s') s.
Proof.
  intros Hh. unfold ordered_map. refine (proj1 (wp_bind_ret _ _ _) _). apply (wp_new alloc). intros a Ha Ha0.
  unfold wp; cbn [run mret prog_ret]. exists (AN a 0 0 (seqZ 0 256) (spread A0 [] [])).
  pose proof (extends_one tid s a (full_node 0 0 false (replicate 256 0)) Ha Ha0) as He. split; [|split; [|done]].
  - split.
    + split; [|by eexists _, _, _]. constructor; [lia|lia|split; [lia|apply Z.pow_pos_nonneg; lia]|apply NoDup_seqZ| | |].
      * apply Forall_forall. intros x Hx. by apply all_bytes.
      * apply spread_linked; [by left|constructor].
      * apply spread_forall; constructor.
    + done.
    + econstructor; [done|simpl; apply lookup_insert_eq| |apply spread_forall; constructor].
      rewrite <-(spread_fmap addr A0). apply (full_shape false 0 0 (replicate 256 0)). done.
    + apply NoDup_singleton.
  - apply (ex_holding _ _ _ _ He); [|done]. by intros y ?%elem_of_empty.
Qed.

(** *** Keys that are not there *)
Inductive outcome (M : gmap Z Z) (k : Z) (root : Z) s : place → Prop :=
  | no_place f C a key bn bytes cs : at_tree root (plug (f :: C) (AN a key bn bytes cs)) (nodes s) → M !! k = None →
      outcome M k root s (f_addr f, a, None, 0, bn)
  | some_place f C t pos : at_tree root (plug (f :: C) t) (nodes s) → M !! k = held_in t k → leaf_sorted t →
      outcome M k root s (up C, f_addr f, Some (len (f_cs1 f)), addr t, pos).
Lemma search_outcome fuel root M k s : art_repr root M s → in_key k → (Z.to_nat K < fuel)%nat →
  ∃ pl, run (find_location K fuel root k) s = Ok pl s ∧ outcome M k root s pl.
Proof.
  intros Hr Hk Hf. assert (wp (find_location K fuel root k ≫= mret) (λ pl s', s' = s ∧ outcome M k root s pl) s) as Hw.
  { eapply wp_art_search; [exact Hr|exact Hk|exact Hf| |].
    - intros f C a key bn bytes cs Hat _ _ _ _ _ HMk. unfold wp; cbn [run mret prog_ret]. split; [done|]. by eapply no_place.
    - intros f C t pos Hat _ _ _ HMk Hs _ _ _. unfold wp; cbn [run mret prog_ret]. split; [done|]. by eapply some_place. }
  rewrite wp_bind_ret, wp_run in Hw. destruct Hw as (pl & s' & Hrun & -> & Ho). by exists pl.
Qed.
Lemma run_of_wp {A} (p : prog state A) a s : wp p (λ a' s', a' = a ∧ s' = s) s → run p s = Ok a s.
Proof. intros (a' & s' & Hrun & -> & ->)%wp_run. exact Hrun. Qed.
(** what a lookup does at the place found for a key that is not there *)
Definition inner (m : gmap Z obj) (c : Z) : bool :=
  negb (c =? 0) && match m !! c with Some o => negb (is_leaf o) | None => false end.
Lemma lookup_at_place fuel root M k s gp p cptr c pos : run (find_location K fuel root k) s = Ok (gp, p, cptr, c, pos) s →
  outcome M k root s (gp, p, cptr, c, pos) → M !! k = None →
  run (find_ K fuel root k) s = if inner (nodes s) c then Err BadCast else Ok None s.
Proof.
  intros Hrun Ho HM. unfold place in Hrun. unfold find_. rewrite run_bind, Hrun.
  inversion Ho as [f C a key bn bytes cs Hat _|f C t pos' Hat HMk Hs]; subst; [done|]. pose proof (place_tree _ _ _ _ _ Hat) as Ht.
  unfold inner. destruct Ht as [|a key bn es o Ha Hn Hlf|a key bn bytes cs o Ha Hn Hsh _]; cbn [addr] in *; [done| |];
    rewrite (proj2 (Z.eqb_neq a 0)), Hn by done; unfold find_in; rewrite run_bind; unfold node_c;
    rewrite (run_load _ _ _ (eq_trans (peek_node s a _ _ _ Hn) eq_refl)).
  - rewrite (art_leaf_find_spec _ _ _ _ k Hlf Hs). cbn [held_in] in HMk. rewrite <-HMk, HM. by destruct Hlf as (pad & -> & _).
  - destruct (shape_header _ _ _ _ _ _ Hsh) as (_ & _ & Hl & _). rewrite Hl. by destruct o.
Qed.
Lemma removal_at_place fuel root M k s gp p cptr c pos : run (find_location K fuel root k) s = Ok (gp, p, cptr, c, pos) s →
  outcome M k root s (gp, p, cptr, c, pos) → M !! k = None → (0 < fuel)%nat →
  run (remove_ K alloc tid fuel root k) s = match cptr with None => Err NullDeref | Some _ => Ok false s end.
Proof.
  intros Hrun Ho HM Hf. unfold remove_. destruct fuel as [|fuel]; [lia|]. unfold flock.try_loop. cbn [iter]. rewrite !run_bind.
  unfold try_remove, place in *. rewrite run_bind, Hrun.
  inversion Ho as [f C a key bn bytes cs Hat _|f C t pos' Hat HMk Hs]; subst; [done|]. pose proof (place_tree _ _ _ _ _ Hat) as Ht.
  cbn beta iota. rewrite (run_of_wp _ (Some false)); [done|]. eapply wp_holds; [exact Ht|exact Hs|]. rewrite <-HMk, HM.
  rewrite bool_decide_eq_false_2 by (by intros [? ?]). cbn [negb]. eapply wp_unchanged; [exact Hat|]. done.
Qed.
Lemma find_absent fuel root M k s : art_repr root M s → in_key k → (Z.to_nat K < fuel)%nat → M !! k = None →
  run (find_ K fuel root k) s = Ok None s ∨ run (find_ K fuel root k) s = Err BadCast.
Proof.
  intros Hr Hk Hf HM. destruct (search_outcome fuel root M k s Hr Hk Hf) as ([[[[gp p] cptr] c] pos] & Hrun & Ho).
  rewrite (lookup_at_place _ _ _ _ _ _ _ _ _ _ Hrun Ho HM). destruct (inner _ _); auto.
Qed.
Lemma remove_absent fuel root M k s : art_repr root M s → in_key k → (Z.to_nat K < fuel)%nat → M !! k = None →
  run (remove_ K alloc tid fuel root k) s = Ok false s ∨ run (remove_ K alloc tid fuel root k) s = Err NullDeref.
Proof.
  intros Hr Hk Hf HM. destruct (search_outcome fuel root M k s Hr Hk Hf) as ([[[[gp p] cptr] c] pos] & Hrun & Ho).
  rewrite (removal_at_place _ _ _ _ _ _ _ _ _ _ Hrun Ho HM) by lia. destruct cptr; auto.
Qed.

(** *** The way of a search is determined *)
Section way.
Context (root k : Z) (s : state).

(** the step into a node: on to it when the key agrees with its key *)
Lemma step_node f C a key bn bytes cs : at_tree root (plug (f :: C) (AN a key bn bytes cs)) (nodes s) → Forall (goes k) (f :: C) →
  ∃ d, parts K k key bn (f_bn f + 1) d ∧ run (step_location K k (up C, f_addr f, f_bn f)) s =
    Ok (if d =? bn then inl (f_addr f, a, bn) else inr (up C, f_addr f, Some (len (f_cs1 f)), a, d)) s.
Proof.
  intros Hat HC. pose proof HC as [(Hf & Ha & Hb) HC']%Forall_cons. pose proof (at_ok _ _ _ _ Hat) as Hok.
  destruct (frame_shape root f C _ s Hat) as (o & Ho & Hsh). pose proof (frame_node K f C k HC _ Hok) as Hfb.
  destruct (plug_node _ _ _ _ _ _ _ (goes_ok _ _ _ HC') Hok) as [_ _ Hnd _ _ _]. apply NoDup_app in Hnd as (_ & Hd & _).
  destruct (node_facts K root f C k HC _ _ _ _ _ _ Hat) as (Hbn & Hl & _ & _ & Ht & _). destruct Hl as [?|[Hka Hkb]]; [done|].
  destruct (tree_header _ _ Ht) as (o' & Ho' & Hko & Hbo & Hlo); [done|].
  cbv iota in Hlo. cbn [addr hkey hbn] in Hsh, Hka, Hkb, Ho', Hko, Hbo. unfold frame_ok in Hf.
  destruct (skip_bytes_spec K k key bn (S (Z.to_nat K)) (f_bn f + 1)) as (d & Hskip & Hd1 & Hd2 & Hd3); [lia|lia| |lia|].
  { apply agree_next; [lia|]. split; [|congruence]. eapply agree_trans; [apply agree_sym, Ha|done]. }
  exists d. split; [done|]. apply run_of_wp. cbn beta iota delta [step_location]. eapply wp_read; [exact Ho|done|].
  rewrite <-Hb in Hsh. eapply wp_lift; [eapply shape_child_in; [exact Hsh|exact Hfb|rewrite Hb; intros Hx; apply (Hd _ Hx); by left]|].
  cbv iota. eapply wp_slot; [exact Hsh|exact Ho|rewrite length_map, Hf; done|]. assert (a ≠ 0) as Ha0 by (by inversion Ht).
  rewrite (proj2 (Z.eqb_neq a 0)) by done. eapply wp_read; [exact Ho'|done|]. rewrite Hko, Hbo, Hlo.
  eapply wp_lift; [exact Hskip|]. rewrite orb_false_r, Hf. by destruct (Z.eqb_spec d bn) as [->|].
Qed.

(** to the node at the end of a way *)
Lemma walk C : ∀ a key bn bytes cs, at_tree root (plug C (AN a key bn bytes cs)) (nodes s) → Forall (goes k) C → agree K bn key k →
  ∃ n, (Z.of_nat n ≤ bn) ∧ ∀ fuel, run (iter (n + fuel) (step_location K k) (0, root, 0)) s = run (iter fuel (step_location K k) (up C, a, bn)) s.
Proof.
  induction C as [|f C IH]; intros a key bn bytes cs Hat HC Ha.
  - destruct Hat as [(_ & a' & key' & cs' & [= -> -> -> -> ->]) Hr _ _]. exists 0%nat. split; [done|]. simpl in Hr. by subst root.
  - pose proof HC as [(Hf & Hfa & Hb) HC']%Forall_cons. destruct (IH _ _ _ _ _ Hat HC' Hfa) as (n & Hn & Hrun).
    destruct (step_node f C _ _ _ _ _ Hat HC) as (d & (Hd & _ & Hne) & Hstep). destruct (node_facts K root f C k HC _ _ _ _ _ _ Hat) as (Hbn & _).
    pose proof (frame_node K f C k HC _ (at_ok _ _ _ _ Hat)) as Hfb.
    assert (d = bn) as ->.
    { destruct (decide (d = bn)); [done|]. destruct Hne; [lia|]. symmetry. apply (agree_byte K d bn); [lia|lia|done]. }
    rewrite Z.eqb_refl in Hstep. exists (S n). split; [lia|]. intros fuel.
    replace (S n + fuel)%nat with (n + S fuel)%nat by lia. rewrite Hrun. cbn [iter]. by rewrite run_bind, Hstep.
Qed.
End way.

(** on the way of a key: an inner node whose key parts from it, and one that
    agrees with it but has no place for its next byte *)
Definition cut_edge (T : art) (k : Z) : Prop := ∃ f C a key bn bytes cs,
  T = plug (f :: C) (AN a key bn bytes cs) ∧ Forall (goes k) (f :: C) ∧ ¬ agree K bn key k.
Definition no_byte (T : art) (k : Z) : Prop := ∃ C a key bn bytes cs,
  T = plug C (AN a key bn bytes cs) ∧ Forall (goes k) C ∧ agree K bn key k ∧ (ArtBytes.byte K k bn ∉ bytes).

Lemma find_location_cut fuel root T k s : at_tree root T (nodes s) → in_key k → (Z.to_nat K < fuel)%nat → cut_edge T k →
  ∃ gp p i c d, run (find_location K fuel root k) s = Ok (gp, p, Some i, c, d) s ∧ inner (nodes s) c = true.
Proof.
  intros Hat Hk Hf (f & C & a & key & bn & bytes & cs & -> & HC & Hne). pose proof HC as [(_ & Hfa & _) HC']%Forall_cons.
  destruct (walk root k s C _ _ _ _ _ Hat HC' Hfa) as (n & Hn & Hrun). pose proof (frame_node K f C k HC _ (at_ok _ _ _ _ Hat)) as Hfb.
  destruct (step_node root k s f C _ _ _ _ _ Hat HC) as (d & (Hd & Hag & _) & Hstep).
  rewrite (proj2 (Z.eqb_neq d bn)) in Hstep by (intros ->; by apply Hne, agree_sym).
  eexists _, _, _, _, _. unfold find_location. replace fuel with (n + S (fuel - n - 1))%nat by lia. rewrite Hrun. cbn [iter]. rewrite run_bind, Hstep.
  split; [done|]. pose proof (place_tree _ _ _ _ _ Hat) as Ht. inversion Ht as [| |? ? ? ? ? o Ha0 Ho Hsh _]; subst.
  apply shape_header in Hsh as (_ & _ & Hl & _). unfold inner. by rewrite (proj2 (Z.eqb_neq a 0)), Ho, Hl by done.
Qed.
Lemma find_location_no_byte fuel root T k s : at_tree root T (nodes s) → in_key k → (Z.to_nat K < fuel)%nat → no_byte T k →
  ∃ gp p d, run (find_location K fuel root k) s = Ok (gp, p, None, 0, d) s.
Proof.
  intros Hat Hk Hf (C & a & key & bn & bytes & cs & -> & HC & Ha & Hb).
  destruct (walk root k s C _ _ _ _ _ Hat HC Ha) as (n & Hn & Hrun). pose proof Hat as [Hok _ Hm _].
  destruct (plug_node _ _ _ _ _ _ _ (goes_ok _ _ _ HC) Hok) as [Hbn _ _ _ _ _]. apply art_plug_at in Hm as [_ Ht].
  inversion Ht as [| |? ? ? ? ? o Ha0 Ho Hsh _]; subst.
  assert (run (step_location K k (up C, a, bn)) s = Ok (inr (up C, a, None, 0, bn)) s) as Hstep.
  { apply run_of_wp. cbn beta iota delta [step_location]. eapply wp_read; [exact Ho|done|].
    eapply wp_lift; [by eapply shape_child_out|]. done. }
  exists (up C), a, bn. unfold find_location. replace fuel with (n + S (fuel - n - 1))%nat by lia. rewrite Hrun. cbn [iter]. by rewrite run_bind, Hstep.
Qed.

(** and it is one of these two cases when the place is inner, or none *)
Lemma place_cases fuel root T k s : at_tree root T (nodes s) → in_key k → (Z.to_nat K < fuel)%nat →
  ∃ gp p cptr c pos, run (find_location K fuel root k) s = Ok (gp, p, cptr, c, pos) s ∧
    (inner (nodes s) c = true ↔ cut_edge T k) ∧ (cptr = None ↔ no_byte T k).
Proof.
  intros Hat Hk Hf.
  assert (wp (find_location K fuel root k ≫= mret) (λ pl s', s' = s ∧ spot K k T pl) s) as Hw.
  { eapply (wp_find_location K K_pos); [exact Hat|exact Hk|exact Hf|]. intros pl Hpl. by unfold wp. }
  rewrite wp_bind_ret, wp_run in Hw. destruct Hw as ([[[[gp p] cptr] c] pos] & s' & Hrun & -> & Hspot).
  exists gp, p, cptr, c, pos. split; [done|]. split; split.
  - intros Hin. inversion Hspot as [|f C HT HC|f C a key bn es d HT HC Hp|f C a key bn bytes cs d HT HC (Hp & Ha & Hne) Hlt]; subst; [done|done| |].
    + pose proof (place_tree _ _ _ _ _ Hat) as Ht. inversion Ht as [|? ? ? ? o Ha Ho Hlf|]; subst.
      unfold inner in Hin. rewrite Ho in Hin. destruct Hlf as (pad & -> & _). by rewrite andb_false_r in Hin.
    + exists f, C, c, key, bn, bytes, cs. split; [done|]. split; [done|]. intros Hag. apply Hne; [done|]. symmetry.
      pose proof (frame_node K f C k HC _ (at_ok _ _ _ _ Hat)). destruct (node_facts K root f C k HC _ _ _ _ _ _ Hat) as (? & _).
      apply (agree_byte K pos bn); [lia|lia|done].
  - intros Hc. destruct (find_location_cut fuel root T k s Hat Hk Hf Hc) as (? & ? & ? & ? & ? & Hrun' & Hin).
    rewrite Hrun in Hrun'. by injection Hrun' as -> -> -> -> ->.
  - intros ->. inversion Hspot as [C a key bn bytes cs HT HC Ha Hb| | |]; subst. by exists C, p, key, pos, bytes, cs.
  - intros Hc. destruct (find_location_no_byte fuel root T k s Hat Hk Hf Hc) as (? & ? & ? & Hrun').
    rewrite Hrun in Hrun'. by injection Hrun' as -> -> -> -> ->.
Qed.

(** ** Theorems *)
Context (with_epoch : ∀ A, prog state A → prog state A) {transparent : EpochTransparent with_epoch}.
Definition art_ops (root : Z) : dict_ops state :=
  DictOps (λ fuel k, find K with_epoch fuel root k)
          (λ fuel k v, insert K alloc tid with_epoch fuel root k v)
          (λ fuel k, remove K alloc tid with_epoch fuel root k).
(** keys of [K] bytes, looked up and removed only while they are there *)
Definition usable (c : dict_command) (M : gmap Z Z) : Prop :=
  match c with Insert k _ => in_key k | Find k | Remove k => in_key k ∧ is_Some (M !! k) end.
Fixpoint all_usable (cs : list dict_command) (M : gmap Z Z) : Prop :=
  match cs with [] => True | c :: cs' => usable c M ∧ all_usable cs' (meaning c M).2 end.

Lemma art_perform fuel c root M s : usable c M → (Z.to_nat K < fuel)%nat → art_repr root M s →
  wp (perform (art_ops root) fuel c) (λ a s', a = (meaning c M).1 ∧ art_repr root (meaning c M).2 s') s.
Proof.
  intros Hu Hf Hr. destruct c as [k|k v|k]; simpl; rewrite wp_bind; unfold find, insert, remove; apply with_epoch_wp.
  - destruct Hu as [Hk [v HM]]. eapply wp_mono; [|by eapply art_find_wp]. intros r s' [-> Hr']. unfold wp; cbn. by rewrite HM.
  - eapply wp_mono; [|by eapply art_insert_wp]. intros b s' [-> Hr']. unfold wp; cbn [run mret prog_ret].
    destruct (M !! k); exact (conj eq_refl Hr').
  - destruct Hu as [Hk [v HM]]. eapply wp_mono; [|by eapply art_remove_wp]. intros b s' [-> Hr']. unfold wp; cbn [run mret prog_ret]. by rewrite HM.
Qed.
Lemma art_perform_all fuel root cs : ∀ M s, all_usable cs M → (Z.to_nat K < fuel)%nat → art_repr root M s →
  wp (perform_all (art_ops root) fuel cs) (λ l s', l = (meaning_all cs M).1 ∧ art_repr root (meaning_all cs M).2 s') s.
Proof.
  induction cs as [|c cs IH]; intros M s Hu Hf Hr; simpl in *; [done|]. destruct Hu as [Hc Hu].
  rewrite wp_bind. eapply wp_mono; [|by apply art_perform]. intros a s' [-> Hr']. destruct (meaning c M) as [a M1]. simpl in *.
  rewrite wp_bind. eapply wp_mono; [|by apply IH]. intros l s2 [-> Hr2]. by destruct (meaning_all cs M1).
Qed.

(** C13: a new radix tree, used by one thread with inserts of any keys and with
    finds and removes of keys that are there, answers as a finite map does:
    leaves grow and split, prefixes are cut and nodes grow from sparse to
    indirect to full without a read or a write outside an array, and no lock
    is left taken. *)
Theorem art_refines_map fuel cs s : holding tid ∅ s → (Z.to_nat K < fuel)%nat → all_usable cs ∅ →
  wp (session (ordered_map alloc) art_ops fuel cs) (λ answers s',
    answers = (meaning_all cs ∅).1 ∧ ∃ root, art_repr root (meaning_all cs ∅).2 s') s.
Proof.
  intros Hh Hf Hu. unfold session. rewrite wp_bind. eapply wp_mono; [|by apply art_make_wp]. intros root s1 Hr.
  eapply wp_mono; [|by eapply (art_perform_all fuel root cs ∅ s1)]. intros l s2 [-> Hr2]. split; [done|]. by exists root.
Qed.


(** C39: for a key that is not in the tree, [find] casts an inner node to a
    leaf exactly when an inner node on the way of the key has skipped a byte in
    which the key differs from it, and otherwise answers that it is not there;
    [remove] dereferences null exactly when a node on the way has no place for
    the next byte of the key, and otherwise answers false; the tree stays. *)
Theorem art_undefined_lookups fuel root T k s : at_tree root T (nodes s) → holding tid ∅ s → in_key k →
  (Z.to_nat K < fuel)%nat → to_map (ents T) !! k = None →
  ((run (find_ K fuel root k) s = Err BadCast ↔ cut_edge T k) ∧
   (run (find_ K fuel root k) s = Ok None s ↔ ¬ cut_edge T k)) ∧
  ((run (remove_ K alloc tid fuel root k) s = Err NullDeref ↔ no_byte T k) ∧
   (run (remove_ K alloc tid fuel root k) s = Ok false s ↔ ¬ no_byte T k)).
Proof.
  intros Hat Hh Hk Hf HM. assert (art_repr root (to_map (ents T)) s) as Hr by (by exists T).
  destruct (place_cases fuel root T k s Hat Hk Hf) as (gp & p & cptr & c & pos & Hrun & <- & <-).
  destruct (search_outcome fuel root _ k s Hr Hk Hf) as (pl & Hrun' & Ho). rewrite Hrun in Hrun'. injection Hrun' as <-.
  rewrite (lookup_at_place _ _ _ _ _ _ _ _ _ _ Hrun Ho HM), (removal_at_place _ _ _ _ _ _ _ _ _ _ Hrun Ho HM) by lia.
  destruct (inner (nodes s) c), cptr; split_and!; split; congruence.
Qed.
End ops.

(** ** Instances *)
(** 8-byte keys: 0 to 14 fill a leaf and split it by their last byte *)
Definition split_tree : prog (store_state obj) Z :=
  root ← ordered_map next_addr;
  perform_all (art_ops 8 next_addr 0 (λ A p, p) root) 9 ((λ k, Insert k k) <$> seqZ 0 15) ;; mret root.

Example art_refines_map_witness : small_tid 0 ∧
  wp (session (ordered_map next_addr) (art_ops 8 next_addr 0 (λ A p, p)) 9
        [Insert 5 50; Insert 300 30; Insert 5 51; Remove 300; Find 5])
     (λ answers _, answers = [AInsert true; AInsert true; AInsert false; ARemove true; AFind (Some 50)])
     empty_store.
Proof.
  assert (small_tid 0) as Ht by (unfold small_tid; lia). split; [exact Ht|].
  eapply wp_mono; [|apply (art_refines_map 8 ltac:(lia) next_addr 0 Ht (λ A p, p)); [apply holding_empty|lia|]].
  - intros r s' [-> _]. reflexivity.
  - unfold all_usable, usable, ArtBytes.in_key. split_and!; try lia; by eexists.
Defined.

Lemma split_tree_repr : ∃ root s, run split_tree empty_store = Ok root s ∧
  art_repr 8 0 root (meaning_all ((λ k, Insert k k) <$> seqZ 0 15) ∅).2 s.
Proof.
  assert (small_tid 0) as Ht by (unfold small_tid; lia).
  assert (wp split_tree (λ root s, art_repr 8 0 root (meaning_all ((λ k, Insert k k) <$> seqZ 0 15) ∅).2 s) empty_store) as Hw.
  { unfold split_tree. rewrite wp_bind. eapply wp_mono; [|apply (art_make_wp 8 ltac:(lia) next_addr 0), holding_empty]. intros root s Hr.
    rewrite wp_bind. eapply wp_mono; [|apply (art_perform_all 8 ltac:(lia) next_addr 0 Ht (λ A p, p) 9 root); [|lia|exact Hr]].
    - intros l s2 [_ Hr2]. exact Hr2.
    - unfold ArtBytes.in_key. simpl. unfold ArtBytes.in_key. split_and!; try done; lia. }
  revert Hw. generalize split_tree. intros p Hw. apply wp_run in Hw as (root & s & ? & ?). by exists root, s.
Qed.

(** in that tree 256 parts from the key of the split leaf in a skipped byte,
    and there is no place for the last byte of 77 *)
Example art_undefined_lookups_witness : ∃ root s T, run split_tree empty_store = Ok root s ∧
  at_tree 8 root T (nodes s) ∧ cut_edge 8 T 256 ∧ ¬ no_byte 8 T 256 ∧ no_byte 8 T 77 ∧ ¬ cut_edge 8 T 77.
Proof.
  destruct split_tree_repr as (root & s & Hrun & T & Hat & Hh & HM). exists root, s, T. split; [exact Hrun|]. split; [exact Hat|].
  pose proof (λ k Hk HN, art_undefined_lookups 8 ltac:(lia) next_addr 0 9 root T k s Hat Hh Hk ltac:(lia) HN) as H.
  rewrite <-HM in H.
  assert (∀ A (p : Z → prog (store_state obj) A), run (split_tree ≫= p) empty_store = run (p root) s) as Hrb
    by (intros A p; by rewrite run_bind, Hrun).
  destruct (H 256) as [[Hc _] [Hn _]]; [unfold ArtBytes.in_key; lia|vm_compute; reflexivity|].
  destruct (H 77) as [[Hc' _] [Hn' _]]; [unfold ArtBytes.in_key; lia|vm_compute; reflexivity|].
  rewrite <-(Hrb _ (λ r, find_ 8 9 r 256)) in Hc. rewrite <-(Hrb _ (λ r, find_ 8 9 r 77)) in Hc'.
  rewrite <-(Hrb _ (λ r, remove_ 8 next_addr 0 9 r 256)) in Hn. rewrite <-(Hrb _ (λ r, remove_ 8 next_addr 0 9 r 77)) in Hn'.
  split; [apply Hc; vm_compute; reflexivity|]. split; [intros Hx; apply Hn in Hx; vm_compute in Hx; discriminate|].
  split; [apply Hn'; vm_compute; reflexivity|]. intros Hx; apply Hc' in Hx; vm_compute in Hx; discriminate.
Defined.
