(* ===== verification/ArtWalk.v ===== *)
(** * ArtWalk: [check] and the destructor of [ArtTree] visit the whole tree. *)

From stdpp Require Import prelude list gmap.
From Stdlib Require Import ZArith Lia Sorted.
From S2P Require Import Prelude Conc SpinLock Store MapSpec Arrays ArtTree ArtBytes ArtNodes ArtProof ArtInsert ArtMap.
Import Art.
Local Open Scope Z_scope.
#[local] Abbreviation KV := (Z * Z)%type.
#[local] Abbreviation len l := (Z.of_nat (length l)).

Definition sum (l : list Z) : Z := foldr Z.add 0 l.
Lemma sum_app l1 l2 : sum (l1 ++ l2) = sum l1 + sum l2.
Proof. unfold sum. induction l1; simpl; lia. Qed.
Lemma sum_perm l1 l2 : l1 ≡ₚ l2 → sum l1 = sum l2.
Proof. unfold sum. induction 1; simpl; lia. Qed.
(** zeros do not count *)
Lemma sum_nonzero l : sum (concat ((λ x, if x =? 0 then [] else [x]) <$> l)) = sum l.
Proof. induction l as [|x l IH]; [done|]. rewrite fmap_cons. cbn [concat]. rewrite sum_app, IH. destruct (Z.eqb_spec x 0) as [->|]; simpl; lia. Qed.
Lemma sum_spread bytes l : NoDup bytes → Forall is_byte bytes → length bytes = length l → sum (spread 0 bytes l) = sum l.
Proof.
  intros Hnd Hb Hl. rewrite <-(sum_nonzero (spread 0 bytes l)), <-(sum_nonzero l). apply sum_perm.
  apply spread_concat; [done|done|apply NoDup_seqZ| |done]. intros b Hin. apply all_bytes. rewrite Forall_forall in Hb. by apply Hb.
Qed.
Lemma sum_wrap l1 l2 : Forall2 (λ x y, wrap64 x = wrap64 y) l1 l2 → wrap64 (sum l1) = wrap64 (sum l2).
Proof.
  unfold wrap64. induction 1 as [|x y l1 l2 Hxy _ IH]; [done|]. simpl. by rewrite Z.add_mod, Hxy, IH, <-Z.add_mod by lia.
Qed.

Section walk.
Context (K : Z) (K_pos : 0 < K) (tid : nat).
#[local] Abbreviation state := (store_state obj).
Implicit Types s : state.

(** what [crec] returns; every node wraps its sum *)
Fixpoint count (t : art) : Z :=
  match t with A0 => 0 | AL _ _ _ es => len es | AN _ _ _ _ cs => wrap64 (sum (count <$> cs)) end.
Lemma count_entries t : wrap64 (count t) = wrap64 (len (ents t)).
Proof.
  induction t as [|a key bn es|a key bn bytes cs IH] using art_forest_ind; [done|done|]. simpl.
  assert (∀ x, wrap64 (wrap64 x) = wrap64 x) as -> by (intros x; apply Z.mod_mod; lia).
  assert (len (concat (ents <$> cs)) = sum ((λ c, len (ents c)) <$> cs)) as ->.
  { clear IH. induction cs as [|c cs IHc]; [done|]. rewrite !fmap_cons. cbn [concat]. by rewrite length_app, Nat2Z.inj_add, IHc. }
  apply sum_wrap. apply Forall2_fmap. apply Forall_Forall2_diag. exact IH.
Qed.
Lemma increasing_spec es pad : ∀ pre e, sorted (e :: es) →
  increasing (pre ++ e :: es ++ pad) (length es) (len pre + 1) = inr true.
Proof.
  induction es as [|e' es IH]; intros pre [k v] Hs; [done|]. cbn [increasing length]. apply sorted_cons in Hs as [Hk Hs].
  rewrite Z.add_simpl_r, (get_app pre (k, v) _ (len pre)) by done. unfold mbind, err_bind. cbn [app].
  replace (pre ++ (k, v) :: e' :: es ++ pad) with ((pre ++ [(k, v)]) ++ e' :: es ++ pad) by (by rewrite <-app_assoc).
  rewrite get_app by (rewrite length_app; simpl; lia). apply Forall_cons in Hk as [Hk _]. simpl in Hk. simpl fst.
  rewrite (proj2 (Z.ltb_lt _ _)) by done. cbn [negb].
  replace (len pre + 1 + 1) with (len (pre ++ [(k, v)]) + 1) by (rewrite length_app; simpl; lia). by apply IH.
Qed.

Lemma crec_run t : ∀ lo fuel s, wf K lo t → tree_at (nodes s) t → (Z.to_nat (K - lo) < fuel)%nat →
  run (crec fuel (addr t)) s = Ok (count t) s.
Proof.
  induction t as [|a key bn es|a key bn bytes cs IH] using art_forest_ind; intros lo [|fuel] s Hw Ht Hf; try lia; cbn [crec addr].
  - done.
  - inversion Ht as [|? ? ? ? o Ha Ho (pad & -> & _)|]; subst. inversion Hw as [|? ? ? ? ? ? Hlf|]; subst.
    rewrite (proj2 (Z.eqb_neq a 0)) by done. rewrite run_bind. unfold node_c.
    rewrite (run_load _ _ _ (eq_trans (peek_node s a _ _ _ Ho) eq_refl)). cbv beta iota. rewrite run_bind.
    destruct es as [|e es]; [by destruct (lf_some _ _ _ _ Hlf)|].
    replace (Z.to_nat (len (e :: es) - 1)) with (length es) by (simpl; lia).
    pose proof (increasing_spec es pad [] e (lf_sorted _ _ _ _ Hlf)) as Hinc. cbn [app length] in *. change (Z.of_nat 0 + 1) with 1 in Hinc. by rewrite Hinc.
  - inversion Ht as [| |? ? ? ? ? o Ha Ho Hsh Hcs]; subst. inversion Hw as [| |? ? ? ? ? H0 Hbn _ Hnd Hby Hl Hws]; subst.
    rewrite (proj2 (Z.eqb_neq a 0)) by done. rewrite run_bind. unfold node_c at 1.
    rewrite (run_load _ _ _ (eq_trans (peek_node s a _ _ _ Ho) eq_refl)). cbv beta iota.
    assert (∀ i x, (count <$> cs) !! i = Some x → run (c ← load (slot_c a (Z.of_nat i)); crec fuel c) s = Ok x s) as Hkid.
    { intros i x Hx. rewrite list_lookup_fmap in Hx. destruct (cs !! i) as [c|] eqn:Hc; [|done]. injection Hx as <-.
      rewrite run_bind, (run_slot _ _ _ _ _ _ _ _ _ _ Hsh Ho (list_lookup_fmap_Some_2 addr cs i c Hc)).
      apply list_elem_of_lookup_2 in Hc as Hin. rewrite Forall_forall in IH, Hcs, Hws. apply (IH c Hin (bn + 1)); [by apply Hws|by apply Hcs|lia]. }
    pose proof (Forall2_length _ _ _ Hl) as Hlen. assert (length (count <$> cs) = length cs) as Hlc by apply length_fmap.
    pose proof Hsh as Hsh'. destruct (shape_cases _ _ _ _ _ _ Hsh') as [[-> ->]|[(idx & ptr & -> & Hix & _)|(pad & ptr & -> & _)]].
    + rewrite length_seqZ in Hlen. change (Z.to_nat 256) with 256%nat in Hlen.
      rewrite run_bind. replace 256%nat with (length (count <$> cs)) by lia.
      rewrite collect_run with (l := count <$> cs); [done|]. intros j x Hx. by apply Hkid.
    + rewrite run_bind. erewrite run_all_bytes; [|exact Hix|exact Hnd|by rewrite Hlc|exact Hkid].
      cbn [run mret prog_ret]. do 2 f_equal. rewrite sum_spread; [done|done|done|by rewrite Hlc].
    + rewrite run_bind, length_fmap, Nat2Z.id, <-Hlc, collect_run with (l := count <$> cs); [done|]. intros j x Hx. by apply Hkid.
Qed.

(** *** The destructor *)
(** nothing but the retired list changes *)
Definition gone (l : list Z) s s' : Prop := nodes s' = nodes s ∧ locks s' = locks s ∧ retired s' ≡ₚ l ++ retired s.
Lemma gone_refl s : gone [] s s.
Proof. done. Qed.
Lemma gone_trans l1 l2 s1 s2 s3 : gone l1 s1 s2 → gone l2 s2 s3 → gone (l1 ++ l2) s1 s3.
Proof.
  intros (N1 & L1 & R1) (N2 & L2 & R2). split; [congruence|]. split; [congruence|]. rewrite R2, R1. solve_Permutation.
Qed.
Lemma gone_perm l l' s s' : l ≡ₚ l' → gone l s s' → gone l' s s'.
Proof. intros Hl (? & ? & R). split; [done|]. split; [done|]. by rewrite R, Hl. Qed.
Lemma run_retire p s : ∃ s', run (retire p) s = Ok tt s' ∧ gone [p] s s'.
Proof. by eexists. Qed.

Lemma retire_kids rm key bn o bytes cs p (f : Z → prog state unit) : shape rm key bn o bytes (addr <$> cs) →
  ∀ n i s, nodes s !! p = Some o → (i + n = length cs)%nat →
  (∀ c s', c ∈ cs → nodes s' = nodes s → ∃ s'', run (f (addr c)) s' = Ok tt s'' ∧ gone (addrs c) s' s'') →
  ∃ l s', run (collect (λ j, c ← load (slot_c p j); f c) n (Z.of_nat i)) s = Ok l s' ∧ gone (concat (addrs <$> drop i cs)) s s'.
Proof.
  intros Hsh. induction n as [|n IH]; intros i s Ho Hi Hf.
  - exists [], s. split; [done|]. rewrite drop_ge by lia. apply gone_refl.
  - destruct (lookup_lt_is_Some_2 cs i) as [c Hc]; [lia|]. cbn [collect].
    destruct (Hf c s) as (s1 & Hrun1 & Hg1); [by eapply list_elem_of_lookup_2|done|].
    destruct (IH (S i) s1) as (l & s2 & Hrun2 & Hg2); [by destruct Hg1 as [-> _]|lia| |].
    { intros c' s' Hc' Hs'. apply Hf; [done|]. destruct Hg1 as [<- _]. done. }
    rewrite run_bind, run_bind, (run_slot _ _ _ _ _ _ _ _ _ _ Hsh Ho (list_lookup_fmap_Some_2 addr cs i c Hc)), Hrun1, run_bind.
    replace (Z.of_nat i + 1) with (Z.of_nat (S i)) by lia. rewrite Hrun2. exists (tt :: l), s2. split; [done|].
    rewrite (drop_S _ _ _ Hc). cbn [fmap list_fmap concat]. by eapply gone_trans.
Qed.
Lemma retire_recursive_run t : ∀ lo fuel s, wf K lo t → tree_at (nodes s) t → (Z.to_nat (K - lo) < fuel)%nat →
  ∃ s', run (retire_recursive fuel (addr t)) s = Ok tt s' ∧ gone (addrs t) s s'.
Proof.
  induction t as [|a key bn es|a key bn bytes cs IH] using art_forest_ind; intros lo [|fuel] s Hw Ht Hf; try lia; cbn [retire_recursive addr].
  - exists s. split; [done|apply gone_refl].
  - inversion Ht as [|? ? ? ? o Ha Ho Hlf|]; subst. rewrite (proj2 (Z.eqb_neq a 0)) by done. pose proof Hlf as (pad & Heq & _).
    rewrite run_bind. unfold node_c. rewrite (run_load _ _ _ (eq_trans (peek_node s a _ _ _ Ho) eq_refl)), Heq. cbv beta iota.
    assert (∀ cap, cap = cap_for es → ∃ s', run (retire_leaf cap a) s = Ok tt s' ∧ gone [a] s s') as Hret.
    { intros cap ->. unfold retire_leaf, node_c. rewrite run_bind, (run_load _ _ _ (eq_trans (peek_node s a _ _ _ Ho) eq_refl)), Heq.
      cbv beta iota. rewrite Z.eqb_refl. apply run_retire. }
    destruct (Z.ltb_spec max_small_leaf_size (len es)) as [Hlt|Hge]; apply Hret; [by rewrite cap_for_big|by rewrite cap_for_small].
  - inversion Ht as [| |? ? ? ? ? o Ha Ho Hsh Hcs]; subst. inversion Hw as [| |? ? ? ? ? H0 Hbn _ _ _ Hl Hws]; subst.
    rewrite (proj2 (Z.eqb_neq a 0)) by done. rewrite run_bind. unfold node_c at 1.
    rewrite (run_load _ _ _ (eq_trans (peek_node s a _ _ _ Ho) eq_refl)). cbv beta iota zeta.
    pose proof (Forall2_length _ _ _ Hl) as Hlen.
    destruct (retire_kids _ _ _ _ _ _ a (retire_recursive fuel) Hsh (length cs) 0 s Ho) as (l & s1 & Hrun & Hg); [lia| |].
    { intros c s' Hc Hs'. rewrite Forall_forall in IH, Hcs, Hws. apply (IH c Hc (bn + 1)); [by apply Hws|rewrite Hs'; by apply Hcs|lia]. }
    destruct (run_retire a s1) as (s2 & Hrun2 & Hg2). exists s2.
    assert (gone (addrs (AN a key bn bytes cs)) s s2) as Hgone.
    { eapply gone_perm; [|exact (gone_trans _ _ _ _ _ Hg Hg2)]. rewrite drop_0. simpl. by rewrite Permutation_app_comm. }
    split; [|exact Hgone]. change (Z.of_nat 0) with 0 in Hrun.
    destruct (shape_cases _ _ _ _ _ _ Hsh) as [[-> ->]|[(idx & ptr & -> & _)|(pad & ptr & -> & _)]]; cbv beta iota zeta; rewrite run_bind.
    + rewrite length_seqZ in Hlen. change (Z.to_nat 256) with 256%nat in Hlen. rewrite Hlen, Hrun. exact Hrun2.
    + rewrite length_fmap, Nat2Z.id, Hrun. exact Hrun2.
    + rewrite length_fmap, Nat2Z.id, Hrun. exact Hrun2.
Qed.

(** [check] returns the number of entries of the tree and changes nothing. *)
Theorem art_check_counts fuel root M s : art_repr K tid root M s → (Z.to_nat K < fuel)%nat →
  run (check fuel root) s = Ok (wrap64 (Z.of_nat (size M))) s.
Proof.
  intros (T & [[Hw (a & key & cs & HT)] Hr Ht _] & _ & ->) Hf. unfold check. rewrite <-Hr, (crec_run T 0); [|done|done|lia].
  unfold to_map. rewrite map_size_list_to_map by (by eapply wf_nodup). rewrite <-count_entries, HT. simpl.
  f_equal. unfold wrap64. rewrite Z.mod_mod; lia.
Qed.

(** C40: the destructor retires every node and leaf of the tree, once. *)
Theorem art_destructor_retires fuel root T s : at_tree K root T (nodes s) → (Z.to_nat K < fuel)%nat →
  ∃ s', run (destructor fuel root) s = Ok tt s' ∧ nodes s' = nodes s ∧ retired s' ≡ₚ addrs T ++ retired s ∧ NoDup (addrs T).
Proof.
  intros [[Hw _] Hr Ht Hnd] Hf. unfold destructor. rewrite <-Hr.
  destruct (retire_recursive_run T 0 fuel s) as (s' & Hrun & Hn & _ & Hret); [done|done|lia|]. by exists s'.
Qed.
End walk.

Example art_check_counts_witness : ∃ root s, run split_tree empty_store = Ok root s ∧ run (check 9 root) s = Ok 15 s.
Proof.
  destruct split_tree_repr as (root & s & Hrun & Hr). exists root, s. split; [exact Hrun|].
  rewrite (art_check_counts 8 ltac:(lia) 0 9 root _ s Hr); [|lia]. reflexivity.
Defined.
Example art_destructor_retires_witness : ∃ root s s', run split_tree empty_store = Ok root s ∧ run (destructor 9 root) s = Ok tt s' ∧
  nodes s' = nodes s.
Proof.
  destruct split_tree_repr as (root & s & Hrun & T & Hat & _). exists root, s.
  destruct (art_destructor_retires 8 ltac:(lia) 9 root T s Hat ltac:(lia)) as (s' & Hd & Hn & _). exists s'.
  split; [exact Hrun|]. split; [exact Hd|exact Hn].
Defined.
